(* ===== verification/_CoqProject ===== *)
-Q . S2P
Prelude.v
GoStrings.v
GoNet.v
GoHttp.v
GoFlag.v
Errors.v
Config.v
Hosts.v
NoProxy.v
Headers.v
Response.v
Validate.v
Effects.v
Session.v
SessionInv.v
SessionSpec.v
SessionSafe.v
SessionLoop.v
SessionHalt.v
Script.v
SessionThms.v
SessionSecret.v
SessionPair.v
SessionServed.v
Routing.v
Breaker.v
BreakerOpen.v
BreakerSpec.v
BreakerRefine.v
TunnelClock.v
Tunnel.v
TunnelThms.v
TunnelHalt.v
TunnelPair.v
CopyPool.v
Gokrb5.v
Gokrb5Thms.v
Stack.v
StackRun.v
SessionStack.v
Server.v
ServeSpec.v
Process.v
ProcessRefine.v
Dial.v
Gss.v
Flags.v
Cli.v
