(* ===== verification/Prelude.v ===== *)
(** * spnego-proxy: a verification library

    spnego-proxy is a local HTTP proxy that forwards requests to an upstream
    proxy and authenticates to it with SPNEGO tokens.  [main] parses the flags,
    builds a token provider behind a circuit breaker and runs [Serve], which
    accepts connections and starts one session per connection
    ([handleClientCtx]).  A session reads requests in a keep-alive loop,
    validates them, and sends each one either to the upstream proxy (with a
    token on the first request of a connection), or, for hosts that the
    no-proxy list matches, directly to the target; a CONNECT becomes a tunnel
    that copies octets both ways under one idle clock.

    ** Files

    Foundations.
    - [Prelude] (this file): notation, tactics, hint databases and lemmas on
      octets, strings and 64-bit integers that the components share.
    - [GoStrings], [GoNet], [GoHttp]: what the program uses of Go's standard
      library, as executable definitions: strings and [strconv] (with the
      Unicode lower-casing table as the class [UnicodeTables]); host and port
      splitting, [netip] and [net.IP] parsing, prefixes and masks; canonical
      header keys, the header map, requests, responses and header
      serialisation.
    - [GoFlag]: the [flag] package with [strconv.ParseInt] in base 0,
      [time.ParseDuration] (float64 fractions from [SpecFloat]) and
      [time.Duration.String].

    Components without effects, each with its operations, their specification
    and their theorems.
    - [Errors]: [errors.go], [errors_proxy.go], [headers_const.go] and the error
      predicates of [connect.go]; Go errors as chains, and the catalogue of
      answers.
    - [Config]: [config.go].  [Hosts]: [extractHost], [sameHost] and the address
      of [dialDirect].  [NoProxy]: [noproxy.go].
    - [Headers]: [headers.go].  [Response]: the checks and interim responses of
      [response.go].  [Validate]: [validateRequest] and [applyMaxForwards] of
      [forward.go].

    The session.
    - [Effects]: the class [Env], which is all a session can do to the world,
      the trace of its calls, and the session monad (state, trace, fuel) with a
      small program logic.
    - [Session]: the handlers of [forward.go], [direct.go], [response.go] and
      [connect.go] as programs of that monad, one definition per Go function
      and composed as in Go; deferred calls are written where they run.
    - [SessionInv]: the trace invariant, [allowed], which says for every event
      which histories may precede it.  [SessionSpec], [SessionSafe]: the
      specification of every handler and the proof that it only does what is
      allowed.  [SessionLoop]: the same for the loops and for a whole session.
      [SessionHalt]: termination under the class [Budget] (peers deliver
      finitely many messages).  [Script]: a scripted, executable environment.
      [SessionThms]: the session's theorems as readable consequences.
    - [SessionSecret]: a relational logic for the session monad and, with it,
      noninterference of tokens over the class [Oblivious] (worlds that do not
      react to tokens).  [SessionPair]: an automaton over the events of a
      session that pairs every response with its request.  [SessionServed]:
      total correctness over the class [Willing] (peers that play along).
    - [Routing]: the no-proxy rules against [sameHost], and where a session's
      requests go.

    Authentication.
    - [Breaker]: [circuit_breaker.go] over the class [TokenProvider] and over
      the class [Breaker], an interface to gobreaker with its documented
      behaviour as [BreakerLaws]; [plain_breaker] is an implementation that
      satisfies them.  Concurrent callers are a step relation.  [BreakerOpen]:
      the same with a wrapped provider that others change in between, reduced
      to callers alone by foretelling its answers.  [BreakerSpec]:
      the repository's TLA+ specification of it
      (formal/m2-token-breaker/Breaker.tla) as a step relation.
      [BreakerRefine]: the simulation of the one by the other.
    - [Gokrb5], [Gokrb5Thms]: [auth_gokrb5.go] in state-passing style with the
      Kerberos library, files, terminal and clock as the class [KEnv].
    - [Stack]: the provider as an instance of [TokenProvider] behind the
      breaker, as [buildProvider] composes them.  [StackRun]: that stack in a
      running process, with any number of callers, the warning goroutine and
      [Close] interleaved.  [SessionStack]: sessions whose token call is that
      stack.

    Tunnels.
    - [TunnelClock]: [tunnelClock] with its atomic loads and compare-and-swaps
      interleaved.  [Tunnel], [TunnelThms], [TunnelHalt]: [idleCopy], the
      [tunnelConn] and [upstreamTLSConn] of [tunnel_write.go] with both builds of
      [writeTunnelChunk], [forwardHalf] and [forwardTunnel], over the class
      [TEnv].  [TunnelPair]: both directions at once over the shared clock, as an
      executable step function driven by a schedule.  [CopyPool]: the copies of
      all tunnels at once over the buffers of [copyBufPool], and the proof that
      each is an [idleCopy] of [Tunnel].

    The process.
    - [Server]: [Serve] as a step relation of the accept loop, the sessions and
      the drain ([Serve]), its back-off ([Backoff]), and a session's reads
      against the watcher that closes idle connections ([Shutdown]).
      [Process]: both together, [Serve] with any number of sessions and their
      watchers over one context.  [ServeSpec]: the repository's TLA+
      specification of shutdown (formal/m4-serve-shutdown/Serve.tla) as a step
      relation.  [ProcessRefine]: its refinement by [Process], and the
      completion of a shutdown.
    - [Dial]: [dial.go].  [Gss]: the native provider, its C code
      [gss_darwin.c] ([CGss]) and [auth_gss_darwin.go] with its replacements on
      other builds ([Native]).  [Flags]: [parseFlags] of [cli.go].  [Cli]: the
      rest of [cli.go], [main.go] and [version.go].

    ** What the theorems show

    - Confidentiality and integrity of forwarding: credentials go only to the
      upstream proxy (C1) and influence nothing else (C2), forwarded requests
      carry the client's fields but for those that must not be forwarded (C3),
      every request goes where the no-proxy rules say and direct connections
      serve one host (C4, C17), everything the client sees has a known origin
      (C16), loops are found (C19).
    - Order and resources of a session: one answer per request (C5), made from
      the response to that request (C6), tunnels only after success (C14), no
      use after close (C15), silence after shutdown (C18), termination with
      every connection closed (C13).
    - Service, which a proxy that refuses everything would not give: with peers
      that play along every request of a keep-alive connection is forwarded and
      answered (C7), and a CONNECT gets its tunnel (C8).
    - Account lockout: with the password-based provider behind the breaker and
      every interleaving of callers, warning ticks and [Close], a rejected
      password is not sent again (C9), the logins sent to the KDC in a period
      are at most the threshold plus one per cool-down (C10), and nothing happens
      after [Close] (C33); the same rate for whole sessions whatever their
      clients send (C11); the breaker refines its specification (C12), and what
      each call of it answers and does (C39).
    - Tunnels: faithful copies (C20), also when the copies of many tunnels share
      their buffers (C21), a cut only when both directions are idle (C22),
      half-close only at the end of a complete copy (C23), every end has its
      reason (C24), the writer's contract (C25), the loops end (C26).
    - The serving process: requests being served are left alone by a shutdown
      (C27) and reads are ended by it (C40); the process refines the
      specification of shutdown (C28) and waits for nothing but requests being
      served and clients being turned away (C29).
    - Component semantics: the no-proxy list (C30), the client allow-list (C31),
      upstream responses (C32).  Upstream TLS and startup: C34, C35.  The
      command line: a round trip (C36).  The native provider: when its C code has
      undefined behaviour, and what it does otherwise (C37), and what its
      clients see (C38).
    - Further theorems of interest: [direct_connection_bound],
      [connect_ports_enforced] and [denied_client] for sessions;
      [password_file], [token_outcomes], [lockout_guard] and [close_is_final]
      for the password-based provider alone; [gss_error_text], [quiet_exact],
      [serve_drain], [serve_returns], [backoff_schedule], [exit_status],
      [dial_bounded], [switch_value_stops], and [bare_ipv6_dial_target], which
      proves a defect of the code.

    ** Conventions and bounds

    Octet strings are [string]; integers are [Z] with the wrap-around of int64
    written out where the code can reach it; durations are nanoseconds.
    Fallible functions return a sum with the error on the left, or [option].
    Loops that are not structural take fuel and return [OutOfFuel] (sessions)
    or [NoFuel] (tunnels): safety theorems hold for every fuel, also for a run
    that is cut short, and the termination theorems (C13, C26) give the fuel
    that suffices, from the number of messages and retries the peers produce;
    the theorems on service (C7, C8) state their fuel, one unit per message and
    round.
    Goroutines that share state are step relations; invariants are proved by
    induction on runs.  In [Process] a read deadline and the drain timeout may
    pass at any moment (both can be set to zero); the refinement of Serve.tla is
    stated for the runs in which they pass only when no goroutine can go on
    without waiting ([timely_step]), which is how that specification treats time.
    The bounds on clients, requests and calls of the TLA+ specifications are
    arguments of their translations; a refinement gives, for every run, a bound
    from which on the specification has a run that matches it.

    ** Not modelled

    Logging (but for the level an error is logged at) and the usage text;
    signals; the GSS, Kerberos, TLS and gobreaker libraries (interfaces and
    parameters with their documented behaviour); [netutil.LimitListener], which
    can only delay an [Accept], and [Process] lets [Accept] take any time;
    [http.ReadRequest] and [http.ReadResponse], whose results are arbitrary.

    ** What is left

    The session calls a tunnel as one action of its environment; that the
    goroutines of [TunnelPair] are that action is not stated.  Sessions are
    interleaved with one another only through the parts they share: callers of
    the token stack in [StackRun], the shutdown in [Process], the buffers in
    [CopyPool].  Four more TLA+ specifications under formal/ have no
    refinement: the promises of m1-relay-keepalive are C5 to C7 here, and those
    of m5-direct-loop, with rerouting, are C4; m3-connect-tunnel ends a
    direction only at the end of its stream or at a deadline, with nothing left
    to read, while the code also ends it on any other error of a read or a
    write; and the provider sends no login with a password that was rejected,
    which m6-tgt-renewal would. *)

From Stdlib Require Export ZArith Lia Ascii.
From stdpp Require Export base list strings gmap.

#[global] Set Default Goal Selector "!".

(** ** Notation *)

Declare Scope go_scope.
Delimit Scope go_scope with go.

(** Fallible Go code: [inl] is the error, [inr] the value. *)
Notation "'let!' x := m 'in' k" :=
  (match m with inl err => inl err | inr x => k end)
  (at level 10, x pattern, m at level 100, k at level 200)
  : go_scope.

Open Scope go_scope.
Open Scope Z_scope.

(** ** Automation *)

Create HintDb spnego.
Create Rewrite HintDb spnego_rw.

(** Split on every [match]/[if] scrutinee of the goal, keeping equations. *)
Ltac split_match :=
  match goal with
  | |- context [match ?x with _ => _ end] =>
      lazymatch x with
      | context [match _ with _ => _ end] => fail
      | _ => destruct x eqn:?
      end
  end.

Ltac split_match_in H :=
  match type of H with
  | context [match ?x with _ => _ end] =>
      lazymatch x with
      | context [match _ with _ => _ end] => fail
      | _ => destruct x eqn:?
      end
  end.

(** All 256 octets. *)
Ltac byte_cases c := destruct c as [[] [] [] [] [] [] [] []].

(** Turn boolean comparisons into propositions. *)
Ltac bool_prop :=
  repeat match goal with
  | H : andb _ _ = true |- _ => apply andb_true_iff in H as [? ?]
  | H : orb _ _ = false |- _ => apply orb_false_iff in H as [? ?]
  | H : negb _ = true |- _ => apply negb_true_iff in H
  | H : negb _ = false |- _ => apply negb_false_iff in H
  | H : Z.leb _ _ = true |- _ => apply Z.leb_le in H
  | H : Z.leb _ _ = false |- _ => apply Z.leb_gt in H
  | H : Z.ltb _ _ = true |- _ => apply Z.ltb_lt in H
  | H : Z.ltb _ _ = false |- _ => apply Z.ltb_ge in H
  | H : Z.eqb _ _ = true |- _ => apply Z.eqb_eq in H
  | H : Z.eqb _ _ = false |- _ => apply Z.eqb_neq in H
  | H : Nat.eqb _ _ = true |- _ => apply Nat.eqb_eq in H
  | H : Nat.eqb _ _ = false |- _ => apply Nat.eqb_neq in H
  | H : String.eqb _ _ = true |- _ => apply String.eqb_eq in H
  | H : String.eqb _ _ = false |- _ => apply String.eqb_neq in H
  | H : Ascii.eqb _ _ = true |- _ => apply Ascii.eqb_eq in H
  | H : Ascii.eqb _ _ = false |- _ => apply Ascii.eqb_neq in H
  | H : bool_decide _ = true |- _ => apply bool_decide_eq_true in H
  | H : bool_decide _ = false |- _ => apply bool_decide_eq_false in H
  end.

(** ** Octets *)

(** The value 0..255 of an octet. *)
Definition bval (c : ascii) : Z := Z.of_N (N_of_ascii c).

Definition byte_of_Z (z : Z) : ascii := ascii_of_N (Z.to_N z).

Definition in_range (lo hi : Z) (c : ascii) : bool := (lo <=? bval c) && (bval c <=? hi).

Lemma bval_bounds c : 0 <= bval c < 256.
Proof. unfold bval. pose proof (N_ascii_bounded c). lia. Qed.

Lemma bval_inj a b : bval a = bval b -> a = b.
Proof.
  unfold bval. intros H%N2Z.inj. apply (f_equal ascii_of_N) in H.
  by rewrite !ascii_N_embedding in H.
Qed.

Lemma bval_byte_of_Z z : 0 <= z < 256 -> bval (byte_of_Z z) = z.
Proof.
  intros H. unfold bval, byte_of_Z. rewrite N_ascii_embedding; lia.
Qed.

(** ** Strings as octet sequences *)

Lemma str_nil_app s : "" +:+ s = s.
Proof. done. Qed.

Lemma str_app_cons x a b : String x a +:+ b = String x (a +:+ b).
Proof. done. Qed.

Lemma str_app_nil_r s : s +:+ "" = s.
Proof. induction s as [|c s IH]; [done|]. by rewrite str_app_cons, IH. Qed.

Lemma str_app_assoc a b c : a +:+ (b +:+ c) = (a +:+ b) +:+ c.
Proof. induction a as [|x a IH]; [done|]. rewrite ?str_app_cons. cbn. by rewrite IH. Qed.

Lemma str_length_app a b :
  String.length (a +:+ b) = (String.length a + String.length b)%nat.
Proof. induction a as [|x a IH]; [done|]. rewrite ?str_app_cons. cbn. by rewrite IH. Qed.

Lemma str_app_eq_nil a b : a +:+ b = "" -> a = "" /\ b = "".
Proof. destruct a; [done|discriminate]. Qed.

Lemma str_app_inv_l a b c : a +:+ b = a +:+ c -> b = c.
Proof. induction a as [|x a IH]; [done|]. intros [=]. auto. Qed.

(** Every octet satisfies [P]. *)
Fixpoint str_forall (P : ascii -> bool) (s : string) : bool :=
  match s with
  | EmptyString => true
  | String c s => P c && str_forall P s
  end.

Definition str_exists (P : ascii -> bool) (s : string) : bool :=
  negb (str_forall (fun c => negb (P c)) s).

Fixpoint str_map (f : ascii -> ascii) (s : string) : string :=
  match s with
  | EmptyString => EmptyString
  | String c s => String (f c) (str_map f s)
  end.

(** [s\[:n\]] and [s\[n:\]] *)
Fixpoint str_take (n : nat) (s : string) : string :=
  match n, s with
  | S n, String c s => String c (str_take n s)
  | _, _ => EmptyString
  end.

Fixpoint str_drop (n : nat) (s : string) : string :=
  match n, s with
  | S n, String _ s => str_drop n s
  | _, _ => s
  end.

Lemma str_take_drop n s : str_take n s +:+ str_drop n s = s.
Proof.
  revert s. induction n as [|n IH]; intros [|c s]; cbn; try done.
  by rewrite str_app_cons, IH.
Qed.

Lemma str_take_app a b : str_take (String.length a) (a +:+ b) = a.
Proof. induction a as [|c a IH]; [by destruct b|]. rewrite str_app_cons. cbn. by rewrite IH. Qed.

Lemma str_drop_app a b : str_drop (String.length a) (a +:+ b) = b.
Proof. induction a as [|c a IH]; [by destruct b|]. rewrite str_app_cons. cbn. by rewrite IH. Qed.

Lemma str_length_drop n s :
  String.length (str_drop n s) = (String.length s - n)%nat.
Proof. revert s. induction n as [|n IH]; intros [|c s]; cbn; auto. Qed.

Lemma str_drop_drop n m s : str_drop m (str_drop n s) = str_drop (n + m) s.
Proof.
  revert s. induction n as [|n IH]; intros s; [done|]. destruct s as [|c s]; cbn; [by destruct m|].
  apply IH.
Qed.

Lemma str_take_add n m s : str_take (n + m) s = str_take n s +:+ str_take m (str_drop n s).
Proof.
  revert s. induction n as [|n IH]; intros s; [done|]. destruct s as [|c s]; cbn; [by destruct m|].
  by rewrite IH, str_app_cons.
Qed.

Lemma str_length_take n s :
  (n <= String.length s)%nat -> String.length (str_take n s) = n.
Proof.
  intros Hn. pose proof (f_equal String.length (str_take_drop n s)) as Hd.
  rewrite str_length_app, str_length_drop in Hd. lia.
Qed.

Lemma str_take_full s : str_take (String.length s) s = s.
Proof. rewrite <- (str_app_nil_r s) at 2. apply str_take_app. Qed.

Lemma str_length_map f s : String.length (str_map f s) = String.length s.
Proof. induction s as [|c s IH]; [done|]. cbn. by rewrite IH. Qed.

Lemma str_forall_app P a b : str_forall P (a +:+ b) = str_forall P a && str_forall P b.
Proof. induction a as [|c a IH]; [done|]. rewrite str_app_cons. cbn. by rewrite IH, andb_assoc. Qed.

Lemma str_forall_impl (P Q : ascii -> bool) s :
  (forall c, P c = true -> Q c = true) -> str_forall P s = true -> str_forall Q s = true.
Proof.
  intros HPQ. induction s as [|c s IH]; [done|]. cbn.
  intros [H1 H2]%andb_true_iff. by rewrite HPQ, IH.
Qed.

Lemma str_forall_map P f s :
  str_forall P (str_map f s) = str_forall (fun c => P (f c)) s.
Proof. induction s as [|c s IH]; [done|]. cbn. by rewrite IH. Qed.

Lemma str_forall_take P n s : str_forall P s = true -> str_forall P (str_take n s) = true.
Proof.
  revert s. induction n as [|n IH]; intros [|c s]; cbn; try done.
  intros [-> H]%andb_true_iff. by apply IH.
Qed.

Lemma str_forall_drop P n s : str_forall P s = true -> str_forall P (str_drop n s) = true.
Proof.
  revert s. induction n as [|n IH]; intros [|c s]; cbn; try done.
  intros [_ H]%andb_true_iff. by apply IH.
Qed.

Lemma str_map_ext f g s : (forall c, f c = g c) -> str_map f s = str_map g s.
Proof. intros H. induction s as [|c s IH]; [done|]. cbn. by rewrite H, IH. Qed.

Lemma str_map_app f a b : str_map f (a +:+ b) = str_map f a +:+ str_map f b.
Proof. induction a as [|c a IH]; [done|]. rewrite str_app_cons. cbn. by rewrite IH. Qed.

(** Concatenation of a list of strings. *)
Fixpoint str_concat (l : list string) : string :=
  match l with
  | [] => ""
  | s :: l => s +:+ str_concat l
  end.

Lemma str_concat_app l1 l2 : str_concat (l1 ++ l2) = str_concat l1 +:+ str_concat l2.
Proof.
  induction l1 as [|x l1 IH]; [done|]. cbn. by rewrite IH, str_app_assoc.
Qed.

Lemma str_forall_concat P l :
  Forall (fun s => str_forall P s = true) l -> str_forall P (str_concat l) = true.
Proof.
  induction 1 as [|s l H _ IH]; [done|]. cbn. by rewrite str_forall_app, H, IH.
Qed.

#[export] Hint Rewrite str_length_app str_length_map str_forall_app str_app_nil_r
  str_take_app str_drop_app : spnego_rw.
#[export] Hint Resolve str_forall_take str_forall_drop : spnego.

(** ** Machine integers *)

Definition min_int64 : Z := - 2 ^ 63.
Definition max_int64 : Z := 2 ^ 63 - 1.
Definition max_uint64 : Z := 2 ^ 64 - 1.

(** Two's-complement wrap-around of a 64-bit signed result. *)
Definition wrap64 (z : Z) : Z := (z + 2 ^ 63) mod 2 ^ 64 - 2 ^ 63.

Definition is_int64 (z : Z) : Prop := min_int64 <= z <= max_int64.

Lemma wrap64_id z : is_int64 z -> wrap64 z = z.
Proof.
  unfold is_int64, min_int64, max_int64, wrap64. intros H.
  rewrite Z.mod_small; lia.
Qed.

Lemma wrap64_is_int64 z : is_int64 (wrap64 z).
Proof.
  unfold is_int64, min_int64, max_int64, wrap64.
  pose proof (Z.mod_pos_bound (z + 2 ^ 63) (2 ^ 64)). lia.
Qed.

(** ** Functions updated at one index *)

(** TLA+'s [\[f EXCEPT !\[c\] = x\]] *)
Definition except {A} (f : nat -> A) (c : nat) (x : A) : nat -> A := fun j => if (j =? c)%nat then x else f j.

Lemma except_eq {A} (f : nat -> A) c x : except f c x c = x.
Proof. unfold except. by rewrite Nat.eqb_refl. Qed.

Lemma except_ne {A} (f : nat -> A) c x j : j <> c -> except f c x j = f j.
Proof. intros Hne. unfold except. by destruct (Nat.eqb_spec j c). Qed.

(** ** Sums over lists *)

Lemma sum_insert {A} (f : A -> nat) (l : list A) i c c' :
  l !! i = Some c -> (sum_list_with f (<[i := c']> l) + f c = sum_list_with f l + f c')%nat.
Proof.
  revert i. induction l as [|d l IH]; intros [|i] Hi; try done.
  - injection Hi as ->. change (<[0%nat := c']> (c :: l)) with (c' :: l). cbn [sum_list_with]. lia.
  - specialize (IH i Hi). change (<[S i := c']> (d :: l)) with (d :: <[i := c']> l). cbn [sum_list_with]. lia.
Qed.

Lemma sum_lookup {A} (f : A -> nat) (l : list A) i c : l !! i = Some c -> (f c <= sum_list_with f l)%nat.
Proof.
  revert i. induction l as [|d l IH]; intros [|i] Hi; try done; cbn [sum_list_with].
  - injection Hi as ->. lia.
  - specialize (IH i Hi). lia.
Qed.

Lemma sum_map {A} (f : A -> nat) (g : A -> A) (l : list A) :
  (forall c, f (g c) = f c) -> sum_list_with f (g <$> l) = sum_list_with f l.
Proof.
  intros Hg. induction l as [|c l IH]; [done|].
  change (g <$> c :: l) with (g c :: (g <$> l)). cbn [sum_list_with]. by rewrite Hg, IH.
Qed.
