(* ===== verification/GoStrings.v ===== *)
(** * Go's [strings], [unicode/utf8], [strconv] and [encoding/hex], as used here

    The standard-library functions the proxy calls on strings, on octet
    strings ([string]).  Case mapping of non-ASCII runes needs the Unicode
    tables, which are the parameter [rune_lower] of [UnicodeTables]; UTF-8
    decoding, the replacement of invalid octets and everything on ASCII is
    written out. *)

From S2P Require Import Prelude.

(** ** Searching and slicing *)

Fixpoint index_byte (s : string) (c : ascii) : option nat :=
  match s with
  | EmptyString => None
  | String d s => if Ascii.eqb d c then Some O else S <$> index_byte s c
  end.

Fixpoint last_index_byte (s : string) (c : ascii) : option nat :=
  match s with
  | EmptyString => None
  | String d s =>
      match last_index_byte s c with
      | Some i => Some (S i)
      | None => if Ascii.eqb d c then Some O else None
      end
  end.

Definition has_byte (s : string) (c : ascii) : bool :=
  str_exists (fun d => Ascii.eqb d c) s.

Fixpoint has_prefix (s p : string) : bool :=
  match p, s with
  | EmptyString, _ => true
  | String _ _, EmptyString => false
  | String d p, String c s => Ascii.eqb c d && has_prefix s p
  end.

Definition has_suffix (s p : string) : bool :=
  (String.length p <=? String.length s)%nat &&
  String.eqb (str_drop (String.length s - String.length p) s) p.

Fixpoint contains (s sub : string) : bool :=
  has_prefix s sub ||
  match s with
  | EmptyString => false
  | String _ s => contains s sub
  end.

Definition trim_prefix (s p : string) : string :=
  if has_prefix s p then str_drop (String.length p) s else s.

(** [strings.SplitSeq(s, sep)] for a one-octet separator: at least one part. *)
Fixpoint split_byte (sep : ascii) (s : string) : list string :=
  match s with
  | EmptyString => [""]
  | String c s =>
      if Ascii.eqb c sep then "" :: split_byte sep s
      else match split_byte sep s with
           | [] => [String c ""]
           | p :: ps => String c p :: ps
           end
  end.

Fixpoint str_rev_app (s acc : string) : string :=
  match s with
  | EmptyString => acc
  | String c s => str_rev_app s (String c acc)
  end.

Definition str_rev (s : string) : string := str_rev_app s "".

(** ** White space ([unicode.IsSpace]) *)

(** One-octet spaces: HT, LF, VT, FF, CR and SP. *)
Definition space1 (c : ascii) : bool := in_range 9 13 c || (bval c =? 32).

(** U+0085 and U+00A0. *)
Definition space2 (c d : ascii) : bool :=
  (bval c =? 194) && ((bval d =? 133) || (bval d =? 160)).

(** U+1680, U+2000-U+200A, U+2028, U+2029, U+202F, U+205F and U+3000. *)
Definition space3 (c d e : ascii) : bool :=
  match bval c, bval d with
  | 225, 154 => bval e =? 128
  | 226, 128 => in_range 128 138 e || (bval e =? 168) || (bval e =? 169) || (bval e =? 175)
  | 226, 129 => bval e =? 159
  | 227, 128 => bval e =? 128
  | _, _ => false
  end.

Fixpoint trim_left_space (s : string) : string :=
  match s with
  | EmptyString => ""
  | String c s1 =>
      if space1 c then trim_left_space s1 else
      match s1 with
      | EmptyString => s
      | String d s2 =>
          if space2 c d then trim_left_space s2 else
          match s2 with
          | EmptyString => s
          | String e s3 => if space3 c d e then trim_left_space s3 else s
          end
      end
  end.

(** The same on a reversed string: trailing spaces come octets reversed. *)
Fixpoint trim_left_space_rev (s : string) : string :=
  match s with
  | EmptyString => ""
  | String c s1 =>
      if space1 c then trim_left_space_rev s1 else
      match s1 with
      | EmptyString => s
      | String d s2 =>
          if space2 d c then trim_left_space_rev s2 else
          match s2 with
          | EmptyString => s
          | String e s3 => if space3 e d c then trim_left_space_rev s3 else s
          end
      end
  end.

(** [strings.TrimSpace] *)
Definition trim_space (s : string) : string :=
  str_rev (trim_left_space_rev (str_rev (trim_left_space s))).

(** ** Case mapping *)

Definition is_upper (c : ascii) : bool := in_range 65 90 c.
Definition is_lower (c : ascii) : bool := in_range 97 122 c.
Definition is_digit (c : ascii) : bool := in_range 48 57 c.
Definition is_ascii_byte (c : ascii) : bool := bval c <? 128.

Definition ascii_lower (c : ascii) : ascii :=
  if is_upper c then byte_of_Z (bval c + 32) else c.
Definition ascii_upper (c : ascii) : ascii :=
  if is_lower c then byte_of_Z (bval c - 32) else c.

Class UnicodeTables := { rune_lower : Z -> Z }.

Definition rune_error : Z := 65533. (* U+FFFD *)

Definition cont (c : ascii) : bool := in_range 128 191 c.
Definition cbits (c : ascii) : Z := Z.land (bval c) 63.

(** [utf8.DecodeRuneInString] over the whole string: the runes, with
    [rune_error] for each octet that starts no valid encoding. *)
Fixpoint decode_runes (s : string) : list Z :=
  match s with
  | EmptyString => []
  | String a s1 =>
      if is_ascii_byte a then bval a :: decode_runes s1 else
      match s1 with
      | EmptyString => [rune_error]
      | String b s2 =>
          if in_range 194 223 a && cont b then
            Z.lor (Z.shiftl (Z.land (bval a) 31) 6) (cbits b) :: decode_runes s2
          else
          match s2 with
          | EmptyString => rune_error :: decode_runes s1
          | String c s3 =>
              let lo := if bval a =? 224 then 160 else 128 in
              let hi := if bval a =? 237 then 159 else 191 in
              if in_range 224 239 a && in_range lo hi b && cont c then
                Z.lor (Z.shiftl (Z.land (bval a) 15) 12)
                      (Z.lor (Z.shiftl (cbits b) 6) (cbits c)) :: decode_runes s3
              else
              match s3 with
              | EmptyString => rune_error :: decode_runes s1
              | String d s4 =>
                  let lo := if bval a =? 240 then 144 else 128 in
                  let hi := if bval a =? 244 then 143 else 191 in
                  if in_range 240 244 a && in_range lo hi b && cont c && cont d then
                    Z.lor (Z.shiftl (Z.land (bval a) 7) 18)
                          (Z.lor (Z.shiftl (cbits b) 12)
                                 (Z.lor (Z.shiftl (cbits c) 6) (cbits d))) :: decode_runes s4
                  else rune_error :: decode_runes s1
              end
          end
      end
  end.

Definition enc_cont (r : Z) (shift : Z) : ascii :=
  byte_of_Z (Z.lor 128 (Z.land (Z.shiftr r shift) 63)).

(** [utf8.AppendRune] *)
Definition encode_rune (r : Z) : string :=
  if (0 <=? r) && (r <? 128) then String (byte_of_Z r) ""
  else if (128 <=? r) && (r <? 2048) then
    String (byte_of_Z (Z.lor 192 (Z.shiftr r 6))) (String (enc_cont r 0) "")
  else if (r <? 0) || (1114111 <? r) || ((55296 <=? r) && (r <=? 57343)) then
    String (byte_of_Z 239) (String (byte_of_Z 191) (String (byte_of_Z 189) ""))
  else if r <? 65536 then
    String (byte_of_Z (Z.lor 224 (Z.shiftr r 12)))
      (String (enc_cont r 6) (String (enc_cont r 0) ""))
  else
    String (byte_of_Z (Z.lor 240 (Z.shiftr r 18)))
      (String (enc_cont r 12) (String (enc_cont r 6) (String (enc_cont r 0) ""))).

Definition unicode_to_lower `{UnicodeTables} (r : Z) : Z :=
  if r <? 128 then (if (65 <=? r) && (r <=? 90) then r + 32 else r) else rune_lower r.

(** [strings.ToLower]: an octet loop on ASCII, [strings.Map] otherwise. *)
Definition to_lower `{UnicodeTables} (s : string) : string :=
  if str_forall is_ascii_byte s then str_map ascii_lower s
  else str_concat ((fun r => encode_rune (unicode_to_lower r)) <$> decode_runes s).

(** [strings.EqualFold(s, t)] for an ASCII [t] free of the letters k and s,
    the only ASCII letters that fold with a non-ASCII rune. *)
Definition equal_fold_ascii (s t : string) : bool :=
  String.eqb (str_map ascii_lower s) (str_map ascii_lower t).

(** ** [strconv] *)

Definition digit_val (c : ascii) : Z := bval c - 48.

(** Value of a non-empty all-digit string. *)
Fixpoint parse_digits (acc : Z) (s : string) : option Z :=
  match s with
  | EmptyString => Some acc
  | String c s => if is_digit c then parse_digits (acc * 10 + digit_val c) s else None
  end.

Definition parse_nat10 (s : string) : option Z :=
  if String.eqb s "" then None else parse_digits 0 s.

(** [strconv.ParseUint(s, 10, 64)] *)
Definition parse_uint64 (s : string) : option Z :=
  match parse_nat10 s with
  | Some n => if n <=? max_uint64 then Some n else None
  | None => None
  end.

(** [strconv.Atoi] for a 64-bit [int]. *)
Definition atoi (s : string) : option Z :=
  let '(neg, body) :=
    match s with
    | String "+" t => (false, t)
    | String "-" t => (true, t)
    | _ => (false, s)
    end in
  match parse_nat10 body with
  | None => None
  | Some n =>
      let z := if (neg : bool) then - n else n in
      if (min_int64 <=? z) && (z <=? max_int64) then Some z else None
  end.

(** Decimal digits of a non-negative number; 20 digits cover 64 bits. *)
Fixpoint digits_acc (fuel : nat) (n : Z) (acc : string) : string :=
  match fuel with
  | O => acc
  | S fuel =>
      let acc := String (byte_of_Z (48 + n mod 10)) acc in
      if n / 10 =? 0 then acc else digits_acc fuel (n / 10) acc
  end.

(** [strconv.Itoa] *)
Definition itoa (n : Z) : string :=
  if n <? 0 then String "-" (digits_acc 20 (- n) "") else digits_acc 20 n "".

(** ** [encoding/hex] *)

Definition hex_digit (n : Z) : ascii :=
  byte_of_Z (if n <? 10 then 48 + n else 87 + n).

Fixpoint hex_encode (s : string) : string :=
  match s with
  | EmptyString => ""
  | String c s =>
      String (hex_digit (bval c / 16)) (String (hex_digit (bval c mod 16)) (hex_encode s))
  end.

(** ** Lemmas: searching *)

Definition no_byte (c : ascii) (s : string) : bool :=
  str_forall (fun d => negb (Ascii.eqb d c)) s.

Lemma has_byte_no_byte s c : has_byte s c = negb (no_byte c s).
Proof. done. Qed.

Lemma index_byte_None s c : index_byte s c = None <-> no_byte c s = true.
Proof.
  induction s as [|d s IH]; cbn; [done|].
  destruct (Ascii.eqb d c); cbn; [split; discriminate|].
  rewrite <- IH. destruct (index_byte s c); cbn; split; done.
Qed.

Lemma last_index_byte_None s c : last_index_byte s c = None <-> no_byte c s = true.
Proof.
  induction s as [|d s IH]; cbn; [done|].
  fold (no_byte c s).
  destruct (last_index_byte s c), (Ascii.eqb d c), (no_byte c s); cbn in *;
    split; try done; by intros H%IH.
Qed.

Lemma index_byte_app s t c :
  no_byte c s = true ->
  index_byte (s +:+ String c t) c = Some (String.length s).
Proof.
  induction s as [|d s IH]; [intros _; rewrite str_nil_app; cbn; by rewrite Ascii.eqb_refl|].
  unfold no_byte. cbn. intros [H1%negb_true_iff H2]%andb_true_iff.
  rewrite str_app_cons. cbn. by rewrite H1, IH.
Qed.

Lemma last_index_byte_app s t c :
  no_byte c t = true ->
  last_index_byte (s +:+ String c t) c = Some (String.length s).
Proof.
  intros Ht. induction s as [|d s IH].
  - rewrite str_nil_app. cbn. apply last_index_byte_None in Ht. by rewrite Ht, Ascii.eqb_refl.
  - rewrite str_app_cons. cbn. by rewrite IH.
Qed.

(** Splitting at the first / last occurrence. *)
Lemma index_byte_Some s c i :
  index_byte s c = Some i ->
  s = str_take i s +:+ String c (str_drop (S i) s) /\
  no_byte c (str_take i s) = true /\ (i < String.length s)%nat.
Proof.
  revert i. induction s as [|d s IH]; intros i; cbn; [done|].
  destruct (Ascii.eqb_spec d c) as [->|Hne].
  - intros [= <-]. cbn. split_and!; [by destruct s|done|lia].
  - destruct (index_byte s c) as [j|]; [|done]. cbn. intros [= <-].
    destruct (IH j) as (E & H & L); [done|].
    unfold no_byte. cbn [str_take str_forall]. fold (no_byte c (str_take j s)).
    rewrite str_app_cons, H. split_and!; [by f_equal| |lia].
    by destruct (Ascii.eqb_spec d c).
Qed.

Lemma last_index_byte_Some s c i :
  last_index_byte s c = Some i ->
  s = str_take i s +:+ String c (str_drop (S i) s) /\
  no_byte c (str_drop (S i) s) = true /\ (i < String.length s)%nat.
Proof.
  revert i. induction s as [|d s IH]; intros i; cbn; [done|].
  destruct (last_index_byte s c) as [j|] eqn:E.
  - intros [= <-]. destruct (IH j) as (E1 & H & L); [done|].
    cbn [str_take str_drop]. rewrite str_app_cons. split_and!; [by f_equal|done|lia].
  - destruct (Ascii.eqb_spec d c) as [->|]; [|done]. intros [= <-].
    apply last_index_byte_None in E. cbn [str_take].
    split_and!; [by destruct s|by destruct s|lia].
Qed.

Lemma has_prefix_nil s : has_prefix s "" = true.
Proof. by destruct s. Qed.

Lemma has_prefix_app s t : has_prefix (s +:+ t) s = true.
Proof.
  induction s as [|c s IH]; [by destruct t|]. rewrite str_app_cons. cbn.
  by rewrite Ascii.eqb_refl, IH.
Qed.

Lemma has_prefix_spec s p : has_prefix s p = true <-> exists t, s = p +:+ t.
Proof.
  split; [|by intros [t ->]; apply has_prefix_app].
  revert s. induction p as [|d p IH]; intros s; [by exists s|].
  destruct s as [|c s]; cbn; [done|].
  intros [->%Ascii.eqb_eq [t ->]%IH]%andb_true_iff. by exists t.
Qed.

Lemma has_suffix_spec s p : has_suffix s p = true <-> exists t, s = t +:+ p.
Proof.
  unfold has_suffix. split.
  - intros [_ H%String.eqb_eq]%andb_true_iff.
    exists (str_take (String.length s - String.length p) s).
    pose proof (str_take_drop (String.length s - String.length p) s) as E.
    by rewrite H in E.
  - intros [t ->]. rewrite str_length_app, Nat.add_sub, str_drop_app, String.eqb_refl.
    rewrite andb_true_r. apply Nat.leb_le. lia.
Qed.

Lemma contains_spec s sub : contains s sub = true <-> exists a b, s = a +:+ sub +:+ b.
Proof.
  split.
  - induction s as [|c s IH]; cbn [contains]; intros [H|H]%orb_true_iff; try done.
    + apply has_prefix_spec in H as [t ->]. by exists "", t.
    + apply has_prefix_spec in H as [t E]. exists "", t. by rewrite E.
    + destruct (IH H) as (a & b & ->). by exists (String c a), b.
  - intros (a & b & ->). induction a as [|c a IH].
    + change ("" +:+ sub +:+ b) with (sub +:+ b).
      destruct (sub +:+ b) eqn:E; cbn [contains]; rewrite <- E, has_prefix_app; done.
    + rewrite str_app_cons. cbn [contains]. rewrite IH. by rewrite orb_true_r.
Qed.

Lemma contains_app_r a s : contains (a +:+ s) s = true.
Proof. apply contains_spec. exists a, "". by rewrite str_app_nil_r. Qed.

(** ** Lemmas: splitting and trimming *)

Lemma split_byte_ne sep s : split_byte sep s <> [].
Proof. destruct s as [|c s]; cbn; [done|]. repeat case_match; done. Qed.

Lemma split_byte_forall P sep s :
  str_forall P s = true -> Forall (fun p => str_forall P p = true) (split_byte sep s).
Proof.
  induction s as [|c s IH]; cbn; [by repeat constructor|].
  intros [Hc Hs]%andb_true_iff. specialize (IH Hs).
  destruct (Ascii.eqb c sep); [by constructor|].
  destruct (split_byte sep s) as [|p ps]; cbn in *.
  - repeat constructor. cbn. by rewrite Hc.
  - inversion IH; subst. constructor; [|done]. cbn. by rewrite Hc.
Qed.

Lemma split_byte_no_sep sep s : Forall (fun p => no_byte sep p = true) (split_byte sep s).
Proof.
  induction s as [|c s IH]; cbn; [by repeat constructor|].
  destruct (Ascii.eqb c sep) eqn:E; [by constructor|].
  destruct (split_byte sep s) as [|p ps]; unfold no_byte in *; cbn.
  - repeat constructor. cbn. by rewrite E.
  - inversion IH; subst. constructor; [|done]. cbn. by rewrite E.
Qed.

(** A string free of the separator is a single part. *)
Lemma split_byte_single sep s : no_byte sep s = true -> split_byte sep s = [s].
Proof.
  unfold no_byte. induction s as [|c s IH]; cbn; [done|].
  intros [H1%negb_true_iff H2]%andb_true_iff. by rewrite H1, IH.
Qed.

Lemma split_byte_app sep s t :
  no_byte sep s = true -> split_byte sep (s +:+ String sep t) = s :: split_byte sep t.
Proof.
  unfold no_byte. induction s as [|c s IH].
  - intros _. rewrite str_nil_app. cbn. by rewrite Ascii.eqb_refl.
  - cbn [str_forall]. intros [H1%negb_true_iff H2]%andb_true_iff.
    rewrite str_app_cons. cbn. by rewrite H1, IH.
Qed.

Lemma str_rev_app_app s acc : str_rev_app s acc = str_rev s +:+ acc.
Proof.
  unfold str_rev. revert acc. induction s as [|c s IH]; intros acc; [done|]. cbn.
  rewrite (IH (String c acc)), (IH (String c "")), <- str_app_assoc. done.
Qed.

Lemma str_rev_cons c s : str_rev (String c s) = str_rev s +:+ String c "".
Proof. unfold str_rev at 1. cbn. apply str_rev_app_app. Qed.

Lemma str_forall_rev P s : str_forall P (str_rev s) = str_forall P s.
Proof.
  induction s as [|c s IH]; [done|]. rewrite str_rev_cons, str_forall_app, IH. cbn.
  by rewrite andb_true_r, andb_comm.
Qed.

Lemma str_rev_append s t : str_rev (s +:+ t) = str_rev t +:+ str_rev s.
Proof.
  induction s as [|c s IH]; [by rewrite str_app_nil_r|].
  by rewrite str_app_cons, !str_rev_cons, IH, str_app_assoc.
Qed.

Lemma str_rev_involutive s : str_rev (str_rev s) = s.
Proof.
  induction s as [|c s IH]; [done|]. by rewrite str_rev_cons, str_rev_append, IH.
Qed.

Lemma trim_left_forall P s :
  str_forall P s = true -> str_forall P (trim_left_space s) = true.
Proof.
  revert s. fix IH 1. intros [|c s1]; [done|]. cbn. intros [Hc H1]%andb_true_iff.
  destruct (space1 c); [by apply IH|].
  destruct s1 as [|d s2]; cbn; [by rewrite Hc|].
  cbn in H1. apply andb_true_iff in H1 as [Hd H2].
  destruct (space2 c d); [by apply IH|].
  destruct s2 as [|e s3]; cbn; [by rewrite Hc, Hd|].
  cbn in H2. pose proof H2 as [He H3]%andb_true_iff.
  destruct (space3 c d e); [by apply IH|]. cbn. by rewrite Hc, Hd, H2.
Qed.

Lemma trim_left_rev_forall P s :
  str_forall P s = true -> str_forall P (trim_left_space_rev s) = true.
Proof.
  revert s. fix IH 1. intros [|c s1]; [done|]. cbn. intros [Hc H1]%andb_true_iff.
  destruct (space1 c); [by apply IH|].
  destruct s1 as [|d s2]; cbn; [by rewrite Hc|].
  cbn in H1. apply andb_true_iff in H1 as [Hd H2].
  destruct (space2 d c); [by apply IH|].
  destruct s2 as [|e s3]; cbn; [by rewrite Hc, Hd|].
  cbn in H2. pose proof H2 as [He H3]%andb_true_iff.
  destruct (space3 e d c); [by apply IH|]. cbn. by rewrite Hc, Hd, H2.
Qed.

Lemma trim_space_forall P s :
  str_forall P s = true -> str_forall P (trim_space s) = true.
Proof.
  intros H. unfold trim_space. rewrite str_forall_rev.
  apply trim_left_rev_forall. rewrite str_forall_rev. by apply trim_left_forall.
Qed.

#[export] Hint Resolve trim_space_forall has_prefix_app contains_app_r : spnego.

(** A string whose first and last octets are graphic ASCII is left alone. *)
Definition graphic (c : ascii) : bool := in_range 33 126 c.

Lemma space_not_graphic c d e :
  graphic c = true -> space1 c = false /\ space2 c d = false /\ space3 c d e = false.
Proof.
  unfold graphic, space1, space2, space3, in_range. intros H. bool_prop.
  pose proof (bval_bounds c).
  repeat split.
  - apply orb_false_iff. split; [apply andb_false_iff; right; apply Z.leb_gt; lia|].
    apply Z.eqb_neq. lia.
  - apply andb_false_iff. left. apply Z.eqb_neq. lia.
  - byte_cases c; cbn in *; try done; lia.
Qed.

Lemma trim_left_graphic c s : graphic c = true -> trim_left_space (String c s) = String c s.
Proof.
  intros H. cbn. destruct (space_not_graphic c c c H) as (-> & _ & _).
  destruct s as [|d s]; [done|].
  destruct (space_not_graphic c d d H) as (_ & -> & _).
  destruct s as [|e s]; [done|].
  by destruct (space_not_graphic c d e H) as (_ & _ & ->).
Qed.

Lemma space_not_graphic_rev c d e :
  graphic c = true -> space1 c = false /\ space2 d c = false /\ space3 e d c = false.
Proof.
  intros H. destruct (space_not_graphic c c c H) as [H1 _].
  unfold graphic, in_range in H. bool_prop. split; [done|].
  unfold space2, space3, in_range. split.
  - apply andb_false_iff. right. apply orb_false_iff. split; apply Z.eqb_neq; lia.
  - repeat case_match; try done; repeat (apply orb_false_iff; split);
      try (apply Z.eqb_neq; lia); apply andb_false_iff; left; apply Z.leb_gt; lia.
Qed.

Lemma trim_left_rev_graphic c s :
  graphic c = true -> trim_left_space_rev (String c s) = String c s.
Proof.
  intros H. cbn. destruct (space_not_graphic_rev c c c H) as (-> & _ & _).
  destruct s as [|d s]; [done|].
  destruct (space_not_graphic_rev c d d H) as (_ & -> & _).
  destruct s as [|e s]; [done|].
  by destruct (space_not_graphic_rev c d e H) as (_ & _ & ->).
Qed.

(** A token of graphic octets only is unchanged by [trim_space]. *)
Lemma trim_space_graphic s : str_forall graphic s = true -> trim_space s = s.
Proof.
  intros H. unfold trim_space. destruct s as [|c s]; [done|].
  rewrite trim_left_graphic by (cbn in H; by apply andb_true_iff in H as [-> _]).
  rewrite <- str_forall_rev in H.
  destruct (str_rev (String c s)) as [|d t] eqn:E.
  - apply (f_equal str_rev) in E. by rewrite str_rev_involutive in E.
  - rewrite trim_left_rev_graphic by (cbn in H; by apply andb_true_iff in H as [-> _]).
    by rewrite <- E, str_rev_involutive.
Qed.

(** ** Lemmas: numbers *)

Lemma parse_digits_cons a c s :
  parse_digits a (String c s) =
  if is_digit c then parse_digits (a * 10 + digit_val c) s else None.
Proof. done. Qed.

Lemma digit_byte n : 0 <= n < 10 ->
  is_digit (byte_of_Z (48 + n)) = true /\ digit_val (byte_of_Z (48 + n)) = n.
Proof.
  intros H. unfold is_digit, in_range, digit_val. rewrite bval_byte_of_Z by lia.
  split; [|lia]. apply andb_true_iff. split; apply Z.leb_le; lia.
Qed.

Lemma parse_digits_acc fuel n acc :
  0 <= n < 10 ^ Z.of_nat fuel ->
  fuel <> O ->
  parse_digits 0 (digits_acc fuel n acc) = parse_digits n acc.
Proof.
  revert n acc. induction fuel as [|f IH]; [done|]. intros n acc Hn _. cbn [digits_acc].
  pose proof (Z.mod_pos_bound n 10 ltac:(lia)) as Hm.
  destruct (digit_byte (n mod 10) Hm) as [Hd Hv].
  pose proof (Z.div_mod n 10 ltac:(lia)) as E.
  destruct (Z.eqb_spec (n / 10) 0) as [H0|H0].
  - rewrite parse_digits_cons, Hd, Hv. f_equal. lia.
  - assert (0 <= n / 10) by (apply Z.div_pos; lia).
    assert (n / 10 < 10 ^ Z.of_nat f).
    { apply Z.div_lt_upper_bound; [lia|].
      rewrite Nat2Z.inj_succ, Z.pow_succ_r in Hn by lia. lia. }
    assert (f <> O) by (intros ->; cbn in *; lia).
    rewrite IH by auto. rewrite parse_digits_cons, Hd, Hv. f_equal. lia.
Qed.

Lemma digits_acc_head fuel n acc :
  0 <= n -> fuel <> O -> exists c t, digits_acc fuel n acc = String c t /\ is_digit c = true.
Proof.
  revert n acc. induction fuel as [|f IH]; [done|]. intros n acc Hn _. cbn [digits_acc].
  pose proof (Z.mod_pos_bound n 10 ltac:(lia)) as Hm.
  destruct (digit_byte (n mod 10) Hm) as [Hd _].
  destruct (n / 10 =? 0); [by eauto|].
  destruct f as [|f]; [by eauto|]. apply IH; [|done]. apply Z.div_pos; lia.
Qed.

Lemma parse_nat10_itoa n :
  0 <= n < 10 ^ 20 -> parse_nat10 (digits_acc 20 n "") = Some n.
Proof.
  intros H. unfold parse_nat10.
  destruct (digits_acc_head 20 n "") as (c & t & E & _); [lia|done|].
  rewrite E at 1. cbn [String.eqb]. by rewrite parse_digits_acc.
Qed.

Lemma atoi_digit c t :
  is_digit c = true ->
  atoi (String c t) =
  match parse_nat10 (String c t) with
  | None => None
  | Some n => if (min_int64 <=? n) && (n <=? max_int64) then Some n else None
  end.
Proof. byte_cases c; cbn; done. Qed.

(** Printing and reading back a 64-bit integer. *)
Lemma atoi_itoa n : is_int64 n -> atoi (itoa n) = Some n.
Proof.
  unfold is_int64, min_int64, max_int64. intros H. unfold itoa.
  destruct (Z.ltb_spec n 0) as [Hn|Hn].
  - unfold atoi. rewrite parse_nat10_itoa by lia.
    rewrite Z.opp_involutive. unfold min_int64, max_int64.
    destruct (Z.leb_spec (- 2 ^ 63) n); [|lia]. destruct (Z.leb_spec n (2 ^ 63 - 1)); [done|lia].
  - destruct (digits_acc_head 20 n "") as (c & t & E & Hd); [lia|done|].
    rewrite E, atoi_digit, <- E by done. rewrite parse_nat10_itoa by lia.
    unfold min_int64, max_int64.
    destruct (Z.leb_spec (- 2 ^ 63) n); [|lia]. destruct (Z.leb_spec n (2 ^ 63 - 1)); [done|lia].
Qed.

Lemma atoi_int64 s n : atoi s = Some n -> is_int64 n.
Proof.
  unfold atoi. intros H. repeat split_match_in H; simplify_eq; bool_prop; by split.
Qed.

Lemma parse_digits_bound s a n : 0 <= a -> parse_digits a s = Some n -> 0 <= n.
Proof.
  revert a. induction s as [|c s IH]; cbn; intros a Ha; [intros [= <-]; done|].
  destruct (is_digit c) eqn:E; [|done]. apply IH.
  unfold is_digit, in_range in E. unfold digit_val. bool_prop. lia.
Qed.

Lemma parse_uint64_bound s n : parse_uint64 s = Some n -> 0 <= n <= max_uint64.
Proof.
  unfold parse_uint64, parse_nat10. intros H. repeat split_match_in H; simplify_eq.
  bool_prop. split; [|done]. eapply parse_digits_bound; [|done]. lia.
Qed.

(** ** Lemmas: case mapping and hex *)

Lemma ascii_lower_idem c : ascii_lower (ascii_lower c) = ascii_lower c.
Proof. byte_cases c; reflexivity. Qed.

Lemma ascii_lower_is_ascii c : is_ascii_byte (ascii_lower c) = is_ascii_byte c.
Proof. byte_cases c; reflexivity. Qed.

Lemma str_map_lower_idem s : str_map ascii_lower (str_map ascii_lower s) = str_map ascii_lower s.
Proof. induction s as [|c s IH]; [done|]. cbn. by rewrite ascii_lower_idem, IH. Qed.

Lemma to_lower_ascii `{UnicodeTables} s :
  str_forall is_ascii_byte s = true -> to_lower s = str_map ascii_lower s.
Proof. unfold to_lower. by intros ->. Qed.

Lemma to_lower_ascii_idem `{UnicodeTables} s :
  str_forall is_ascii_byte s = true -> to_lower (to_lower s) = to_lower s.
Proof.
  intros H0. rewrite (to_lower_ascii s), to_lower_ascii; [apply str_map_lower_idem| |done].
  rewrite str_forall_map. eapply str_forall_impl; [|done].
  intros c. by rewrite ascii_lower_is_ascii.
Qed.

Definition is_hex_lower (c : ascii) : bool := is_digit c || in_range 97 102 c.

Lemma hex_digit_lower n : 0 <= n < 16 -> is_hex_lower (hex_digit n) = true.
Proof.
  intros H. unfold is_hex_lower, is_digit, hex_digit, in_range.
  destruct (Z.ltb_spec n 10); rewrite bval_byte_of_Z by lia;
    apply orb_true_iff; [left|right]; apply andb_true_iff; split; apply Z.leb_le; lia.
Qed.

Lemma hex_encode_spec s :
  String.length (hex_encode s) = (2 * String.length s)%nat /\
  str_forall is_hex_lower (hex_encode s) = true.
Proof.
  induction s as [|c s [IH1 IH2]]; [done|]. cbn -[Nat.mul].
  pose proof (bval_bounds c).
  rewrite IH1, IH2, !hex_digit_lower; [split; [lia|done]| |].
  - apply Z.mod_pos_bound. lia.
  - split; [apply Z.div_pos; lia|apply Z.div_lt_upper_bound; lia].
Qed.
