(* ===== verification/GoNet.v ===== *)
(** * Go's [net] and [net/netip] address functions, as used here

    [net.SplitHostPort], [net.JoinHostPort], [netip.ParseAddr],
    [netip.ParsePrefix], [Prefix.Contains], [net.ParseIP], [net.ParseCIDR] and
    [IPNet.Contains].  Errors carry no text the proxy inspects, so a failing
    parse is [None]. *)

From S2P Require Import Prelude GoStrings.

(** ** Host and port *)

(** [net.SplitHostPort] *)
Definition split_host_port (hostport : string) : option (string * string) :=
  match last_index_byte hostport ":" with
  | None => None (* missing port *)
  | Some i =>
      let port := str_drop (S i) hostport in
      match hostport with
      | String "[" _ =>
          match index_byte hostport "]" with
          | None => None (* missing ']' *)
          | Some e =>
              if (S e =? String.length hostport)%nat then None
              else if (S e =? i)%nat then
                let host := str_drop 1 (str_take e hostport) in
                if has_byte (str_drop 1 hostport) "[" then None
                else if has_byte (str_drop (S e) hostport) "]" then None
                else Some (host, port)
              else None (* too many colons, or missing port *)
          end
      | _ =>
          let host := str_take i hostport in
          if has_byte host ":" then None (* too many colons *)
          else if has_byte hostport "[" then None
          else if has_byte hostport "]" then None
          else Some (host, port)
      end
  end.

(** [net.JoinHostPort] *)
Definition join_host_port (host port : string) : string :=
  if has_byte host ":" then "[" +:+ host +:+ "]:" +:+ port
  else host +:+ ":" +:+ port.

(** ** IP addresses *)

(** A valid [netip.Addr]: 32-bit value, or 128-bit value with its zone. *)
Inductive addr :=
| Addr4 (v : Z)
| Addr6 (v : Z) (zone : string).

#[export] Instance addr_eq_dec : EqDecision addr.
Proof. solve_decision. Defined.

Definition bit_len (a : addr) : Z := match a with Addr4 _ => 32 | Addr6 _ _ => 128 end.
Definition addr_zone (a : addr) : string := match a with Addr4 _ => "" | Addr6 _ z => z end.

(** Big-endian value of an octet list. *)
Definition be_value (bs : list Z) : Z := fold_left (fun a b => a * 256 + b) bs 0.

(** [parseIPv4Fields]: [first] and [prevdot] stand for [i == 0] and
    [s\[i-1\] == '.']. *)
Fixpoint parse_ipv4_fields (s : string) (first prevdot : bool) (val pos dig_len : Z)
    (fields : list Z) : option (list Z) :=
  match s with
  | EmptyString => if pos <? 3 then None else Some (fields ++ [val])
  | String c t =>
      if is_digit c then
        if (dig_len =? 1) && (val =? 0) then None (* leading zero *)
        else let val := val * 10 + digit_val c in
             if 255 <? val then None
             else parse_ipv4_fields t false false val pos (dig_len + 1) fields
      else if Ascii.eqb c "." then
        if first || String.eqb t "" || prevdot then None
        else if pos =? 3 then None
        else parse_ipv4_fields t false true 0 (pos + 1) 0 (fields ++ [val])
      else None
  end.

Definition parse_ipv4_bytes (s : string) : option (list Z) :=
  parse_ipv4_fields s true false 0 0 0 [].

Definition hex_val (c : ascii) : option Z :=
  if is_digit c then Some (bval c - 48)
  else if in_range 97 102 c then Some (bval c - 87)
  else if in_range 65 70 c then Some (bval c - 55)
  else None.

(** The inner loop of [parseIPv6]: number of digits, value, rest. *)
Fixpoint scan_hex (s : string) (off acc : Z) : option (Z * Z * string) :=
  match s with
  | EmptyString => Some (off, acc, s)
  | String c t =>
      match hex_val c with
      | None => Some (off, acc, s)
      | Some d =>
          let acc := acc * 16 + d in
          if 3 <? off then None
          else if 65535 <? acc then None
          else scan_hex t (off + 1) acc
      end
  end.

(** The outer loop of [parseIPv6], one iteration per 16-bit group: at most 8,
    the loop bound [i < 16].  Result: unread rest, octets, ellipsis position. *)
Fixpoint ipv6_loop (fuel : nat) (s : string) (bytes : list Z) (ellipsis : option nat)
    : option (string * list Z * option nat) :=
  match fuel with
  | O => Some (s, bytes, ellipsis)
  | S fuel =>
      match scan_hex s 0 0 with
      | None => None
      | Some (off, acc, rest) =>
          if off =? 0 then None else
          match rest with
          | String "." _ =>
              if negb (bool_decide (is_Some ellipsis)) && negb (length bytes =? 12)%nat then None
              else if (16 <? length bytes + 4)%nat then None
              else match parse_ipv4_bytes s with
                   | None => None
                   | Some fs => Some ("", bytes ++ fs, ellipsis)
                   end
          | EmptyString => Some ("", bytes ++ [acc / 256; acc mod 256], ellipsis)
          | String ":" EmptyString => None
          | String ":" (String c t as s') =>
              let bytes := bytes ++ [acc / 256; acc mod 256] in
              if Ascii.eqb c ":" then
                match ellipsis with
                | Some _ => None
                | None =>
                    if String.eqb t "" then Some ("", bytes, Some (length bytes))
                    else ipv6_loop fuel t bytes (Some (length bytes))
                end
              else ipv6_loop fuel s' bytes ellipsis
          | _ => None
          end
      end
  end.

(** [parseIPv6] on the part before the zone. *)
Definition parse_ipv6_bytes (s : string) : option (list Z) :=
  let '(s, ellipsis) :=
    match s with
    | String ":" (String ":" t) => (t, Some O)
    | _ => (s, None)
    end in
  if bool_decide (is_Some ellipsis) && String.eqb s "" then Some (replicate 16 0)
  else
    match ipv6_loop 8 s [] ellipsis with
    | None => None
    | Some (rest, bytes, ellipsis) =>
        if negb (String.eqb rest "") then None
        else if (length bytes <? 16)%nat then
          match ellipsis with
          | None => None
          | Some e => Some (take e bytes ++ replicate (16 - length bytes) 0 ++ drop e bytes)
          end
        else match ellipsis with Some _ => None | None => Some bytes end
    end.

Definition parse_ipv6 (s : string) : option addr :=
  match index_byte s "%" with
  | None => (fun bs => Addr6 (be_value bs) "") <$> parse_ipv6_bytes s
  | Some i =>
      let zone := str_drop (S i) s in
      if String.eqb zone "" then None
      else (fun bs => Addr6 (be_value bs) zone) <$> parse_ipv6_bytes (str_take i s)
  end.

(** [netip.ParseAddr]: the first of '.', ':' and '%' decides the family. *)
Fixpoint parse_addr_kind (s : string) : option ascii :=
  match s with
  | EmptyString => None
  | String c s =>
      if Ascii.eqb c "." || Ascii.eqb c ":" || Ascii.eqb c "%" then Some c
      else parse_addr_kind s
  end.

Definition parse_addr (s : string) : option addr :=
  match parse_addr_kind s with
  | Some "."%char => (fun bs => Addr4 (be_value bs)) <$> parse_ipv4_bytes s
  | Some ":"%char => parse_ipv6 s
  | _ => None
  end.

(** ** [netip.Prefix] *)

Record prefix := mk_prefix { pfx_addr : addr; pfx_bits : Z }.

(** [netip.ParsePrefix] *)
Definition parse_prefix (s : string) : option prefix :=
  match last_index_byte s "/" with
  | None => None
  | Some i =>
      match parse_addr (str_take i s) with
      | None => None
      | Some ip =>
          if negb (String.eqb (addr_zone ip) "") then None else
          let bits_str := str_drop (S i) s in
          let bad_first :=
            match bits_str with
            | String c (String _ _) => negb (in_range 49 57 c)
            | _ => false
            end in
          if (bad_first : bool) then None else
          match atoi bits_str with
          | None => None
          | Some bits =>
              if (bits <? 0) || (bit_len ip <? bits) then None
              else Some (mk_prefix ip bits)
          end
      end
  end.

(** The [n] leading ones of a [w]-bit word. *)
Definition high_mask (w n : Z) : Z := 2 ^ w - 2 ^ (w - n).

(** [Prefix.Contains]; [None] is the zero (invalid) [Addr]. *)
Definition prefix_contains (p : prefix) (ip : option addr) : bool :=
  match ip with
  | None => false
  | Some (Addr4 v) =>
      match pfx_addr p with
      | Addr4 n => Z.shiftr (Z.lxor v n) (32 - pfx_bits p) =? 0
      | Addr6 _ _ => false
      end
  | Some (Addr6 v zone) =>
      String.eqb zone "" &&
      match pfx_addr p with
      | Addr4 _ => false
      | Addr6 n _ => Z.land (Z.lxor v n) (high_mask 128 (pfx_bits p)) =? 0
      end
  end.

(** ** [net.IP] and [net.IPNet] *)

(** [net.IP]: octets, 4 or 16 of them, or none for the nil address. *)
Definition ip := list Z.

Definition v4_in_v6_prefix : list Z := [0; 0; 0; 0; 0; 0; 0; 0; 0; 0; 255; 255].

(** [IP.To4] *)
Definition to4 (a : ip) : option ip :=
  if (length a =? 4)%nat then Some a
  else if (length a =? 16)%nat && bool_decide (take 12 a = v4_in_v6_prefix)
  then Some (drop 12 a) else None.

(** Big-endian octets of a value. *)
Fixpoint be_bytes (n : nat) (v : Z) : list Z :=
  match n with
  | O => []
  | S n => be_bytes n (v / 256) ++ [v mod 256]
  end.

(** [Addr.As16] *)
Definition as16 (a : addr) : ip :=
  match a with
  | Addr4 v => v4_in_v6_prefix ++ be_bytes 4 v
  | Addr6 v _ => be_bytes 16 v
  end.

(** [net.ParseIP]; nil is the empty list. *)
Definition parse_ip (s : string) : ip :=
  match parse_addr s with
  | Some a => if String.eqb (addr_zone a) "" then as16 a else []
  | None => []
  end.

Record ip_net := mk_ip_net { net_ip : ip; net_mask : list Z }.

(** [net.CIDRMask] for [0 <= ones <= bits]. *)
Definition cidr_mask (ones bits : Z) : list Z :=
  (fun i => let n := Z.min 8 (Z.max 0 (ones - 8 * Z.of_nat i)) in 255 - (2 ^ (8 - n) - 1))
    <$> seq 0 (Z.to_nat (bits / 8)).

Definition and_bytes (a m : list Z) : list Z := zip_with Z.land a m.

(** [IP.Mask] *)
Definition ip_mask (a : ip) (m : list Z) : ip :=
  let m := if (length m =? 16)%nat && (length a =? 4)%nat &&
              bool_decide (take 12 m = replicate 12 255) then drop 12 m else m in
  let a := if (length m =? 4)%nat && (length a =? 16)%nat &&
              bool_decide (take 12 a = v4_in_v6_prefix) then drop 12 a else a in
  if (length a =? length m)%nat then and_bytes a m else [].

(** [dtoi]: [net]'s bounded decimal parser; value and digits consumed. *)
Fixpoint dtoi (s : string) (n i : Z) : option (Z * Z) :=
  match s with
  | String c t =>
      if is_digit c then
        let n := n * 10 + digit_val c in
        if 16777215 <=? n then None else dtoi t n (i + 1)
      else if i =? 0 then None else Some (n, i)
  | EmptyString => if i =? 0 then None else Some (n, i)
  end.

(** [net.ParseCIDR], the network only. *)
Definition parse_cidr (s : string) : option ip_net :=
  match index_byte s "/" with
  | None => None
  | Some k =>
      match parse_addr (str_take k s) with
      | None => None
      | Some a =>
          if negb (String.eqb (addr_zone a) "") then None else
          let mask_str := str_drop (S k) s in
          match dtoi mask_str 0 0 with
          | None => None
          | Some (n, i) =>
              if negb (i =? Z.of_nat (String.length mask_str)) || (n <? 0) || (bit_len a <? n)
              then None
              else let m := cidr_mask n (bit_len a) in
                   Some (mk_ip_net (ip_mask (as16 a) m) m)
          end
      end
  end.

(** [networkNumberAndMask] *)
Definition network_number_and_mask (n : ip_net) : ip * list Z :=
  match to4 (net_ip n) with
  | Some a4 =>
      if (length (net_mask n) =? 4)%nat then (a4, net_mask n)
      else if (length (net_mask n) =? 16)%nat then (a4, drop 12 (net_mask n))
      else ([], [])
  | None =>
      if negb (length (net_ip n) =? 16)%nat then ([], [])
      else if (length (net_mask n) =? 16)%nat then (net_ip n, net_mask n)
      else ([], [])
  end.

(** [IPNet.Contains] *)
Definition net_contains (n : ip_net) (a : ip) : bool :=
  let '(nn, m) := network_number_and_mask n in
  let a := default a (to4 a) in
  if negb (length a =? length nn)%nat then false
  else bool_decide (and_bytes nn m = and_bytes a m).

(** ** Lemmas: host and port *)

Lemma no_byte_app c a b : no_byte c (a +:+ b) = no_byte c a && no_byte c b.
Proof. apply str_forall_app. Qed.

Lemma no_byte_take c n s : no_byte c s = true -> no_byte c (str_take n s) = true.
Proof. apply str_forall_take. Qed.

Lemma no_byte_drop c n s : no_byte c s = true -> no_byte c (str_drop n s) = true.
Proof. apply str_forall_drop. Qed.

(** Discharge a [no_byte] test on a literal and on assumed strings. *)
Ltac rewrite_no_byte :=
  unfold no_byte in *; cbn;
  repeat match goal with H : str_forall _ _ = true |- _ => rewrite H; clear H end.

#[export] Hint Resolve no_byte_take no_byte_drop : spnego.

(** No octet of [s] is one of ':', '\[' and '\]'. *)
Definition plain_port (s : string) : bool :=
  no_byte ":" s && no_byte "[" s && no_byte "]" s.

Definition no_brackets (s : string) : bool := no_byte "[" s && no_byte "]" s.

Lemma split_join_v6 h p :
  no_brackets h = true -> plain_port p = true ->
  split_host_port ("[" +:+ h +:+ "]:" +:+ p) = Some (h, p).
Proof.
  unfold no_brackets, plain_port. intros Hh Hp. bool_prop.
  set (s := "[" +:+ h +:+ "]:" +:+ p).
  assert (Es : s = ("[" +:+ h +:+ "]") +:+ String ":" p).
  { subst s. by rewrite <- !str_app_assoc. }
  assert (Ei : last_index_byte s ":" = Some (S (S (String.length h)))).
  { rewrite Es, last_index_byte_app by done. f_equal.
    rewrite !str_length_app. cbn. lia. }
  assert (Ee : index_byte s "]" = Some (S (String.length h))).
  { change s with (String "[" (h +:+ String "]" (String ":" p))). cbn.
    by rewrite index_byte_app. }
  unfold split_host_port. rewrite Ei.
  change s with (String "[" (h +:+ String "]" (String ":" p))) at 1.
  cbv beta iota. rewrite Ee.
  assert (El : String.length s = (String.length h + 3 + String.length p)%nat).
  { subst s. rewrite !str_length_app. cbn. lia. }
  rewrite El. destruct (Nat.eqb_spec (S (S (String.length h))) (String.length h + 3 + String.length p)); [lia|].
  rewrite Nat.eqb_refl.
  assert (E1 : str_drop 1 s = h +:+ String "]" (String ":" p)) by done.
  assert (E2 : str_drop (S (S (String.length h))) s = String ":" p).
  { rewrite Es. replace (S (S (String.length h))) with (String.length ("[" +:+ h +:+ "]")).
    { by rewrite str_drop_app. } rewrite !str_length_app. cbn. lia. }
  assert (E3 : str_drop 1 (str_take (S (String.length h)) s) = h).
  { change s with (String "[" (h +:+ String "]" (String ":" p))). cbn [str_take str_drop].
    rewrite str_take_app. by destruct h. }
  assert (E4 : str_drop (S (S (S (String.length h)))) s = p).
  { assert (Es' : s = ("[" +:+ h +:+ "]:") +:+ p) by (subst s; by rewrite <- !str_app_assoc).
    rewrite Es'. replace (S (S (S (String.length h)))) with (String.length ("[" +:+ h +:+ "]:")).
    { by rewrite str_drop_app. } rewrite !str_length_app. cbn. lia. }
  rewrite E1, E2, E3, E4, !has_byte_no_byte, no_byte_app.
  by rewrite_no_byte.
Qed.

Lemma split_join_name h p :
  no_byte ":" h = true -> no_brackets h = true -> plain_port p = true ->
  split_host_port (h +:+ ":" +:+ p) = Some (h, p).
Proof.
  unfold no_brackets, plain_port. intros Hc Hh Hp. bool_prop.
  set (s := h +:+ ":" +:+ p).
  assert (Es : s = h +:+ String ":" p) by done.
  assert (Ei : last_index_byte s ":" = Some (String.length h)).
  { by rewrite Es, last_index_byte_app. }
  assert (E2 : str_drop (S (String.length h)) s = p).
  { replace (S (String.length h)) with (String.length (h +:+ ":")).
    { subst s. by rewrite str_app_assoc, str_drop_app. } rewrite str_length_app. cbn. lia. }
  assert (E1 : str_take (String.length h) s = h) by (subst s; apply str_take_app).
  assert (N1 : has_byte s "[" = false).
  { rewrite has_byte_no_byte, Es, no_byte_app. by rewrite_no_byte. }
  assert (N2 : has_byte s "]" = false).
  { rewrite has_byte_no_byte, Es, no_byte_app. by rewrite_no_byte. }
  assert (N3 : has_byte h ":" = false) by (by rewrite has_byte_no_byte, Hc).
  unfold split_host_port. rewrite Ei, E1, E2, N1, N2, N3.
  destruct s as [|c s'] eqn:E; [done|].
  destruct (Ascii.eqb_spec c "[") as [->|Hne]; [done|].
  byte_cases c; try done.
Qed.

(** [net.SplitHostPort] inverts [net.JoinHostPort]. *)
Lemma split_join_host_port h p :
  no_brackets h = true -> plain_port p = true ->
  split_host_port (join_host_port h p) = Some (h, p).
Proof.
  intros Hh Hp. unfold join_host_port. rewrite has_byte_no_byte.
  destruct (no_byte ":" h) eqn:E; cbn [negb].
  - by apply split_join_name.
  - by apply split_join_v6.
Qed.

(** A successful split leaves a port free of ':'. *)
Lemma split_host_port_port s h p :
  split_host_port s = Some (h, p) -> no_byte ":" p = true.
Proof.
  unfold split_host_port. destruct (last_index_byte s ":") as [i|] eqn:E; [|done].
  apply last_index_byte_Some in E as (_ & H & _). intros Hs.
  repeat split_match_in Hs; by simplify_eq.
Qed.

(** ** Lemmas: prefixes *)

Lemma shiftr_lxor_eq0 a b k :
  0 <= k -> 0 <= a -> 0 <= b ->
  (Z.shiftr (Z.lxor a b) k = 0 <-> a / 2 ^ k = b / 2 ^ k).
Proof.
  intros Hk Ha Hb. rewrite Z.shiftr_lxor, <- !Z.shiftr_div_pow2 by done.
  split; [apply Z.lxor_eq|intros ->; apply Z.lxor_nilpotent].
Qed.

(** An IPv4 prefix contains exactly the addresses that agree with it on their
    [bits] leading bits. *)
Lemma prefix_contains4_iff v n bits :
  0 <= v -> 0 <= n -> bits <= 32 ->
  prefix_contains (mk_prefix (Addr4 n) bits) (Some (Addr4 v)) = true <->
  v / 2 ^ (32 - bits) = n / 2 ^ (32 - bits).
Proof.
  intros. cbn. rewrite Z.eqb_eq. apply shiftr_lxor_eq0; lia.
Qed.

Lemma land_high_mask x w n :
  0 <= x < 2 ^ w -> 0 <= n <= w ->
  (Z.land x (high_mask w n) = 0 <-> Z.shiftr x (w - n) = 0).
Proof.
  intros Hx Hn. unfold high_mask.
  assert (E : 2 ^ w - 2 ^ (w - n) = Z.shiftl (Z.ones n) (w - n)).
  { rewrite Z.shiftl_mul_pow2, Z.ones_equiv by lia.
    replace w with (n + (w - n)) at 1 by lia. rewrite Z.pow_add_r by lia. lia. }
  rewrite E. split; intros H.
  - apply Z.bits_inj_0. intros i. destruct (Z.ltb_spec i 0) as [Hi|Hi]; [by rewrite Z.testbit_neg_r|].
    rewrite Z.shiftr_spec by lia.
    destruct (Z.ltb_spec (i + (w - n)) w) as [Hlt|Hge].
    + apply (f_equal (fun z => Z.testbit z (i + (w - n)))) in H.
      rewrite Z.land_spec, Z.bits_0, Z.shiftl_spec in H by lia.
      replace (i + (w - n) - (w - n)) with i in H by lia.
      rewrite Z.ones_spec_low in H by lia. by rewrite andb_true_r in H.
    + apply Z.testbit_false; [lia|]. rewrite Z.div_small; [done|].
      split; [lia|]. apply Z.lt_le_trans with (2 ^ w); [lia|]. apply Z.pow_le_mono_r; lia.
  - apply Z.bits_inj_0. intros i. rewrite Z.land_spec.
    destruct (Z.ltb_spec i (w - n)) as [Hi|Hi].
    + destruct (Z.ltb_spec i 0); [by rewrite Z.testbit_neg_r|].
      rewrite Z.shiftl_spec_low by lia. by rewrite andb_false_r.
    + replace i with ((i - (w - n)) + (w - n)) at 1 by lia.
      rewrite <- Z.shiftr_spec by lia. by rewrite H, Z.bits_0.
Qed.

Lemma prefix_contains6_iff v n bits :
  0 <= v < 2 ^ 128 -> 0 <= n < 2 ^ 128 -> 0 <= bits <= 128 ->
  prefix_contains (mk_prefix (Addr6 n "") bits) (Some (Addr6 v "")) = true <->
  v / 2 ^ (128 - bits) = n / 2 ^ (128 - bits).
Proof.
  intros. cbn. rewrite Z.eqb_eq, land_high_mask, shiftr_lxor_eq0; try lia.
  split; [apply Z.lxor_nonneg; lia|].
  destruct (Z.eq_dec (Z.lxor v n) 0) as [->|]; [lia|].
  apply Z.log2_lt_pow2.
  - assert (0 <= Z.lxor v n) by (apply Z.lxor_nonneg; lia). lia.
  - eapply Z.le_lt_trans; [apply Z.log2_lxor; lia|].
    apply Z.max_lub_lt; (destruct (Z.eq_dec v 0), (Z.eq_dec n 0); subst; cbn; try lia;
      apply Z.log2_lt_pow2; lia).
Qed.

(** ** Lemmas: IPv4-mapped addresses *)

Lemma to4_mapped b : length b = 4%nat -> to4 (v4_in_v6_prefix ++ b) = Some b.
Proof.
  intros H. unfold to4. rewrite length_app, H. cbn -[take drop v4_in_v6_prefix].
  rewrite take_app_length', drop_app_length' by done. by rewrite bool_decide_eq_true_2.
Qed.

Lemma to4_v4 b : length b = 4%nat -> to4 b = Some b.
Proof. intros H. unfold to4. by rewrite H. Qed.

Lemma to4_length a b : to4 a = Some b -> length b = 4%nat.
Proof.
  unfold to4. intros H. repeat split_match_in H; simplify_eq.
  - by bool_prop.
  - bool_prop. rewrite length_drop. lia.
Qed.

Lemma be_bytes_length n v : length (be_bytes n v) = n.
Proof. revert v. induction n as [|n IH]; intros v; [done|]. cbn. rewrite length_app, IH. cbn. lia. Qed.

(** ** Lemmas: octet masks *)

Definition bytes_ok (l : list Z) : Prop := Forall (fun b => 0 <= b < 256) l.

Lemma be_value_app l x : be_value (l ++ [x]) = be_value l * 256 + x.
Proof. unfold be_value. by rewrite fold_left_app. Qed.

Lemma be_value_cons x l :
  be_value (x :: l) = x * 256 ^ Z.of_nat (length l) + be_value l.
Proof.
  induction l as [|y l IH] using rev_ind; [cbn; lia|].
  rewrite app_comm_cons, !be_value_app, IH, length_app. cbn [length].
  rewrite Nat2Z.inj_add, Z.pow_add_r by lia. lia.
Qed.

Lemma be_value_bounds l : bytes_ok l -> 0 <= be_value l < 256 ^ Z.of_nat (length l).
Proof.
  induction 1 as [|x l Hx _ IH]; [cbn; lia|].
  rewrite be_value_cons. cbn [length]. rewrite Nat2Z.inj_succ, Z.pow_succ_r by lia. nia.
Qed.

Lemma be_bytes_ok n v : bytes_ok (be_bytes n v).
Proof.
  revert v. induction n as [|n IH]; intros v; [constructor|]. cbn.
  apply Forall_app. split; [apply IH|]. repeat constructor; apply Z.mod_pos_bound; lia.
Qed.

Lemma be_value_be_bytes n v :
  0 <= v < 256 ^ Z.of_nat n -> be_value (be_bytes n v) = v.
Proof.
  revert v. induction n as [|n IH]; intros v Hv; [cbn in *; unfold be_value; cbn; lia|].
  cbn [be_bytes]. rewrite be_value_app.
  rewrite Nat2Z.inj_succ, Z.pow_succ_r in Hv by lia.
  rewrite IH; [pose proof (Z.div_mod v 256); lia|].
  split; [apply Z.div_pos; lia|apply Z.div_lt_upper_bound; lia].
Qed.

(** Keeping the [n] leading bits of a [w]-bit word. *)
Lemma land_high_mask_div x w n :
  0 <= x < 2 ^ w -> 0 <= n <= w ->
  Z.land x (high_mask w n) = x / 2 ^ (w - n) * 2 ^ (w - n).
Proof.
  intros Hx Hn. unfold high_mask.
  assert (E : 2 ^ w - 2 ^ (w - n) = Z.shiftl (Z.ones n) (w - n)).
  { rewrite Z.shiftl_mul_pow2, Z.ones_equiv by lia.
    replace w with (n + (w - n)) at 1 by lia. rewrite Z.pow_add_r by lia. lia. }
  rewrite E, <- Z.shiftr_div_pow2, <- Z.shiftl_mul_pow2 by lia.
  replace x with (Z.lor (Z.shiftl (Z.shiftr x (w - n)) (w - n)) (Z.land x (Z.ones (w - n)))) at 1.
  2: { apply Z.bits_inj'. intros i Hi. rewrite Z.lor_spec, Z.land_spec.
       destruct (Z.ltb_spec i (w - n)).
       - rewrite Z.shiftl_spec_low, Z.ones_spec_low by lia. by rewrite andb_true_r.
       - rewrite Z.shiftl_spec, Z.shiftr_spec, Z.ones_spec_high by lia.
         rewrite andb_false_r, orb_false_r. f_equal. lia. }
  rewrite Z.land_lor_distr_l, <- Z.shiftl_land.
  rewrite Z.land_ones by lia.
  rewrite (Z.mod_small (Z.shiftr x (w - n))).
  2: { split; [apply Z.shiftr_nonneg; lia|]. rewrite Z.shiftr_div_pow2 by lia.
       apply Z.div_lt_upper_bound; [lia|]. rewrite <- Z.pow_add_r by lia.
       replace (w - n + n) with w by lia. lia. }
  rewrite <- Z.land_assoc. replace (Z.land (Z.ones (w - n)) (Z.shiftl (Z.ones n) (w - n))) with 0.
  { by rewrite Z.land_0_r, Z.lor_0_r. }
  symmetry. apply Z.bits_inj_0. intros i. rewrite Z.land_spec.
  destruct (Z.ltb_spec i 0); [by rewrite Z.testbit_neg_r|].
  destruct (Z.ltb_spec i (w - n)).
  - rewrite (Z.shiftl_spec_low _ _ i) by lia. by rewrite andb_false_r.
  - by rewrite Z.ones_spec_high by lia.
Qed.

(** [net.CIDRMask], octet by octet. *)
Fixpoint mask_rec (len : nat) (n : Z) : list Z :=
  match len with
  | O => []
  | S len => high_mask 8 (Z.min 8 (Z.max 0 n)) :: mask_rec len (n - 8)
  end.

Lemma cidr_mask_rec n bits : cidr_mask n bits = mask_rec (Z.to_nat (bits / 8)) n.
Proof.
  unfold cidr_mask. generalize (Z.to_nat (bits / 8)) as len. intros len.
  transitivity (mask_rec len (n - 8 * Z.of_nat 0)); [|f_equal; lia].
  generalize 0%nat as k. revert n. induction len as [|len IH]; intros n k; [done|].
  cbn [seq]. rewrite fmap_cons, IH. cbn [mask_rec]. f_equal; [unfold high_mask; lia|]. f_equal. lia.
Qed.

Lemma mask_rec_length len n : length (mask_rec len n) = len.
Proof. revert n. induction len as [|len IH]; intros n; [done|]. cbn. by rewrite IH. Qed.

Lemma mask_rec_zero a n : n <= 0 -> and_bytes a (mask_rec (length a) n) = replicate (length a) 0.
Proof.
  revert n. induction a as [|x a IH]; intros n Hn; [done|]. cbn.
  rewrite IH by lia. f_equal. rewrite Z.max_l, Z.min_r by lia. unfold high_mask. cbn.
  apply Z.land_0_r.
Qed.

Lemma div_split x X m k :
  0 <= m -> 0 <= k -> (x * 2 ^ (m + k) + X) / 2 ^ k = x * 2 ^ m + X / 2 ^ k.
Proof.
  intros. rewrite Z.pow_add_r by lia.
  replace (x * (2 ^ m * 2 ^ k) + X) with (X + x * 2 ^ m * 2 ^ k) by lia.
  rewrite Z.div_add by lia. lia.
Qed.

Lemma pow256 n : 0 <= n -> 256 ^ n = 2 ^ (8 * n).
Proof. intros. change 256 with (2 ^ 8). by rewrite <- Z.pow_mul_r by lia. Qed.

(** One octet in front of lists that already satisfy the statement below. *)
Lemma masked_cons_ge8 x y a b n :
  length a = length b -> bytes_ok a -> bytes_ok b -> 0 <= x < 256 -> 0 <= y < 256 ->
  8 <= n <= 8 + 8 * Z.of_nat (length a) ->
  be_value (x :: a) / 2 ^ (8 * Z.of_nat (S (length a)) - n) =
  be_value (y :: b) / 2 ^ (8 * Z.of_nat (S (length a)) - n) <->
  x = y /\ be_value a / 2 ^ (8 * Z.of_nat (length a) - (n - 8)) =
           be_value b / 2 ^ (8 * Z.of_nat (length a) - (n - 8)).
Proof.
  intros L Ha Hb Hx Hy Hn. rewrite !be_value_cons, <- L, pow256 by lia.
  set (k := 8 * Z.of_nat (length a) - (n - 8)).
  replace (8 * Z.of_nat (S (length a)) - n) with k by lia.
  replace (8 * Z.of_nat (length a)) with ((n - 8) + k) by lia.
  rewrite !div_split by lia.
  assert (Hk : forall l, bytes_ok l -> length l = length a ->
            0 <= be_value l / 2 ^ k < 2 ^ (n - 8)).
  { intros l Hl E. pose proof (be_value_bounds l Hl) as B. rewrite E, pow256 in B by lia.
    split; [apply Z.div_pos; lia|]. apply Z.div_lt_upper_bound; [lia|].
    rewrite <- Z.pow_add_r by lia. replace (k + (n - 8)) with (8 * Z.of_nat (length a)) by lia. lia. }
  pose proof (Hk a Ha eq_refl). pose proof (Hk b Hb (eq_sym L)). clearbody k.
  split; [|intros [-> ->]; done]. intros E. assert (x = y) by nia. subst. split; [done|lia].
Qed.

Lemma masked_cons_lt8 x a n :
  bytes_ok a -> 0 <= x < 256 -> 0 <= n < 8 ->
  be_value (x :: a) / 2 ^ (8 * Z.of_nat (S (length a)) - n) = x / 2 ^ (8 - n).
Proof.
  intros Ha Hx Hn. rewrite be_value_cons, pow256 by lia.
  replace (8 * Z.of_nat (S (length a)) - n) with (8 * Z.of_nat (length a) + (8 - n)) by lia.
  rewrite Z.pow_add_r, <- Z.div_div by lia. f_equal.
  rewrite Z.div_add_l by lia. pose proof (be_value_bounds a Ha) as B. rewrite pow256 in B by lia.
  rewrite Z.div_small by lia. lia.
Qed.

(** Masked octets agree exactly when the leading [n] bits of the values do. *)
Lemma masked_eq_iff a b n :
  length a = length b -> bytes_ok a -> bytes_ok b -> 0 <= n <= 8 * Z.of_nat (length a) ->
  and_bytes a (mask_rec (length a) n) = and_bytes b (mask_rec (length a) n) <->
  be_value a / 2 ^ (8 * Z.of_nat (length a) - n) = be_value b / 2 ^ (8 * Z.of_nat (length a) - n).
Proof.
  intros L Ha. revert b n L. induction Ha as [|x a Hx Ha IH]; intros b n L Hb Hn.
  { destruct b; [|done]. done. }
  destruct b as [|y b]; [done|]. cbn [length] in L. injection L as L.
  inversion Hb as [|? ? Hy Hb']; subst.
  cbn [length mask_rec and_bytes zip_with].
  fold (and_bytes a (mask_rec (length a) (n - 8))) (and_bytes b (mask_rec (length a) (n - 8))).
  destruct (Z.le_gt_cases 8 n) as [Hge|Hlt].
  - rewrite masked_cons_ge8 by (done || cbn [length] in *; lia).
    rewrite <- (IH b (n - 8)) by (done || cbn [length] in *; lia).
    rewrite Z.min_l, !land_high_mask_div by lia. cbn [Z.sub Z.pow]. rewrite !Z.div_1_r, !Z.mul_1_r.
    split; [intros [= ->]; done|intros [-> ->]; done].
  - pose proof (masked_cons_lt8 y b n Hb' Hy ltac:(lia)) as Eb.
    pose proof (mask_rec_zero b (n - 8) ltac:(lia)) as Zb. rewrite <- L in Eb, Zb.
    rewrite Eb, Zb, masked_cons_lt8, (mask_rec_zero a) by (done || lia).
    rewrite (Z.max_r 0 n), Z.min_r, !land_high_mask_div by lia.
    split; [intros [= E]|intros ->; done]. nia.
Qed.

(** ** Lemmas: parsed addresses are in range *)

Lemma parse_ipv4_fields_ok s first prevdot val pos dig fields bs :
  parse_ipv4_fields s first prevdot val pos dig fields = Some bs ->
  0 <= val <= 255 -> bytes_ok fields -> Z.of_nat (length fields) = pos -> pos <= 3 ->
  bytes_ok bs /\ length bs = 4%nat.
Proof.
  revert first prevdot val pos dig fields.
  induction s as [|c s IH]; cbn; intros first prevdot val pos dig fields H Hv Hf Hl Hp.
  - destruct (Z.ltb_spec pos 3); simplify_eq. split; [|rewrite length_app; cbn; lia].
    apply Forall_app. split; [done|]. repeat constructor; lia.
  - destruct (is_digit c) eqn:Ed.
    + destruct ((dig =? 1) && (val =? 0)); [done|].
      destruct (Z.ltb_spec 255 (val * 10 + digit_val c)); [done|].
      unfold is_digit, in_range in Ed. bool_prop.
      eapply IH; [done| |done|done|done]. unfold digit_val in *. lia.
    + destruct (Ascii.eqb c "."); [|done].
      destruct (first || String.eqb s "" || prevdot); [done|].
      destruct (Z.eqb_spec pos 3); [done|].
      eapply IH; [done|lia| | |lia].
      * apply Forall_app. split; [done|]. repeat constructor; lia.
      * rewrite length_app. cbn. lia.
Qed.

Lemma parse_ipv4_bytes_ok s bs : parse_ipv4_bytes s = Some bs -> bytes_ok bs /\ length bs = 4%nat.
Proof.
  intros H. eapply parse_ipv4_fields_ok; [exact H|lia|constructor|done|lia].
Qed.

Lemma scan_hex_ok s off acc off' acc' rest :
  scan_hex s off acc = Some (off', acc', rest) -> 0 <= acc <= 65535 -> 0 <= acc' <= 65535.
Proof.
  revert off acc. induction s as [|c s IH]; cbn; intros off acc H Ha; [by simplify_eq|].
  destruct (hex_val c) as [d|] eqn:E; [|by simplify_eq].
  destruct (3 <? off); [done|]. destruct (Z.ltb_spec 65535 (acc * 16 + d)); [done|].
  eapply IH; [done|]. unfold hex_val, is_digit, in_range in E.
  repeat split_match_in E; simplify_eq; bool_prop; lia.
Qed.

Lemma group_ok bytes acc :
  bytes_ok bytes -> 0 <= acc <= 65535 -> bytes_ok (bytes ++ [acc / 256; acc mod 256]).
Proof.
  intros Hb Ha. apply Forall_app. split; [done|].
  repeat constructor; try (apply Z.mod_pos_bound; lia);
    [apply Z.div_pos; lia|apply Z.div_lt_upper_bound; lia].
Qed.

Lemma ipv6_loop_ok fuel s bytes e rest bs e' :
  ipv6_loop fuel s bytes e = Some (rest, bs, e') ->
  bytes_ok bytes -> (length bytes + 2 * fuel <= 16)%nat ->
  bytes_ok bs /\ (length bs <= 16)%nat.
Proof.
  revert s bytes e. induction fuel as [|f IH]; intros s bytes e H Hb Hl.
  { cbn in H. simplify_eq. split; [done|lia]. }
  cbn [ipv6_loop] in H.
  destruct (scan_hex s 0 0) as [[[off acc] r]|] eqn:E; [|done].
  apply scan_hex_ok in E; [|lia]. pose proof (group_ok bytes acc Hb E) as Hg.
  assert (Hgl : length (bytes ++ [acc / 256; acc mod 256]) = (length bytes + 2)%nat)
    by (rewrite length_app; done).
  destruct (off =? 0); [done|].
  repeat split_match_in H; simplify_eq;
    try (split; [done|lia]);
    try (eapply IH; [exact H|done|lia]).
  match goal with H' : parse_ipv4_bytes _ = Some _ |- _ =>
    apply parse_ipv4_bytes_ok in H' as [? ?] end.
  match goal with H' : (_ <? _)%nat = false |- _ => apply Nat.ltb_ge in H' end.
  split; [by apply Forall_app|]. rewrite length_app. lia.
Qed.

Lemma parse_ipv6_bytes_ok s bs : parse_ipv6_bytes s = Some bs -> bytes_ok bs /\ length bs = 16%nat.
Proof.
  unfold parse_ipv6_bytes.
  destruct (match s with String ":" (String ":" t) => (t, Some O) | _ => (s, None) end) as [s' e].
  destruct (bool_decide (is_Some e) && String.eqb s' "").
  { intros [= <-]. split; [repeat (constructor; [lia|]); constructor|done]. }
  destruct (ipv6_loop 8 s' [] e) as [[[rest l] e']|] eqn:E; [|done].
  apply ipv6_loop_ok in E as [Hl Hn]; [|constructor|cbn; lia].
  destruct (negb (String.eqb rest "")); [done|].
  destruct (Nat.ltb_spec (length l) 16); destruct e' as [k|]; intros [= <-].
  - split.
    + apply Forall_app. split; [by apply Forall_take|]. apply Forall_app.
      split; [apply Forall_replicate; lia|by apply Forall_drop].
    + rewrite !length_app, length_take, length_replicate, length_drop. lia.
  - split; [done|lia].
Qed.

Definition addr_ok (a : addr) : Prop :=
  match a with Addr4 v => 0 <= v < 2 ^ 32 | Addr6 v _ => 0 <= v < 2 ^ 128 end.

Lemma parse_ipv6_ok s a : parse_ipv6 s = Some a -> addr_ok a.
Proof.
  assert (H6 : forall s z a, (fun bs => Addr6 (be_value bs) z) <$> parse_ipv6_bytes s = Some a -> addr_ok a).
  { intros s' z a' (bs & [H L]%parse_ipv6_bytes_ok & ->)%fmap_Some.
    pose proof (be_value_bounds bs H) as B. by rewrite L in B. }
  unfold parse_ipv6. destruct (index_byte s "%"); [|apply H6].
  destruct (String.eqb _ ""); [done|]. apply H6.
Qed.

Lemma parse_addr_ok s a : parse_addr s = Some a -> addr_ok a.
Proof.
  unfold parse_addr. destruct (parse_addr_kind s) as [c|]; [|done].
  destruct (Ascii.eqb_spec c ".") as [->|].
  - intros (bs & [H L]%parse_ipv4_bytes_ok & ->)%fmap_Some.
    pose proof (be_value_bounds bs H) as B. by rewrite L in B.
  - destruct (Ascii.eqb_spec c ":") as [->|]; [apply parse_ipv6_ok|].
    byte_cases c; done.
Qed.
