(* ===== verification/GoHttp.v ===== *)
(** * Go's [net/http] and [net/textproto] data, as used here

    Headers, requests and responses as [http.ReadRequest] and
    [http.ReadResponse] return them, canonical header keys, and the
    serialisation of a header ([Header.WriteSubset]). *)

From S2P Require Import Prelude GoStrings.

(** ** Header keys *)

(** RFC 9110 [tchar], the table of [textproto] and [httpguts]. *)
Definition is_tchar (c : ascii) : bool :=
  is_digit c || is_upper c || is_lower c ||
  existsb (Ascii.eqb c)
    ["!"; "#"; "$"; "%"; "&"; "'"; "*"; "+"; "-"; "."; "^"; "_"; "`"; "|"; "~"]%char.

(** Capitalise the first letter and every letter after a hyphen. *)
Fixpoint canonical_go (upper : bool) (s : string) : string :=
  match s with
  | EmptyString => ""
  | String c s =>
      let c := if upper then ascii_upper c else ascii_lower c in
      String c (canonical_go (Ascii.eqb c "-") s)
  end.

(** [textproto.CanonicalMIMEHeaderKey]: a key with an invalid octet is left
    unchanged. *)
Definition canonical_key (s : string) : string :=
  if str_forall is_tchar s then canonical_go true s else s.

(** ** Headers *)

Abbreviation header := (gmap string (list string)).

(** [h.Get(k)]: first value, or the empty string. *)
Definition hget (h : header) (k : string) : string :=
  match h !! canonical_key k with
  | Some (v :: _) => v
  | _ => ""
  end.

(** [h.Set(k, v)] *)
Definition hset (h : header) (k v : string) : header := <[canonical_key k := [v]]> h.

(** [h.Del(k)] *)
Definition hdel (h : header) (k : string) : header := delete (canonical_key k) h.

(** [h.Values(k)] *)
Definition hvalues (h : header) (k : string) : list string :=
  default [] (h !! canonical_key k).

(** [h\[k\]]: map access with no canonicalisation. *)
Definition hraw (h : header) (k : string) : list string := default [] (h !! k).

(** What [ReadRequest] and [ReadResponse] guarantee of a header: its keys are
    in canonical form. *)
Definition canonical_header (h : header) : Prop := map_Forall (fun k _ => canonical_key k = k) h.

(** ** Requests and responses *)

(** [Body]: absent ([nil] or [http.NoBody]) or the octets still to be read. *)
Record request := mk_request {
  req_method : string;
  req_uri : string;
  req_proto : string;
  req_major : Z;
  req_minor : Z;
  req_host : string;
  req_header : header;
  req_te : list string;          (* TransferEncoding *)
  req_trailer : option header;   (* Trailer *)
  req_body : option string;
  req_close : bool
}.

Record response := mk_response {
  resp_status : string;
  resp_code : Z;
  resp_proto : string;
  resp_major : Z;
  resp_minor : Z;
  resp_header : header;
  resp_te : list string;
  resp_length : Z;               (* ContentLength; -1 is unknown *)
  resp_close : bool;
  resp_body : string
}.

Definition with_header (r : request) (h : header) : request :=
  mk_request (req_method r) (req_uri r) (req_proto r) (req_major r) (req_minor r)
    (req_host r) h (req_te r) (req_trailer r) (req_body r) (req_close r).

Definition with_trailer (r : request) (t : option header) : request :=
  mk_request (req_method r) (req_uri r) (req_proto r) (req_major r) (req_minor r)
    (req_host r) (req_header r) (req_te r) t (req_body r) (req_close r).

Definition with_resp_header (r : response) (h : header) : response :=
  mk_response (resp_status r) (resp_code r) (resp_proto r) (resp_major r) (resp_minor r)
    h (resp_te r) (resp_length r) (resp_close r) (resp_body r).

Definition with_resp_length (r : response) (n : Z) : response :=
  mk_response (resp_status r) (resp_code r) (resp_proto r) (resp_major r) (resp_minor r)
    (resp_header r) (resp_te r) n (resp_close r) (resp_body r).

Definition with_resp_close (r : response) (b : bool) : response :=
  mk_response (resp_status r) (resp_code r) (resp_proto r) (resp_major r) (resp_minor r)
    (resp_header r) (resp_te r) (resp_length r) b (resp_body r).

(** [r.ProtoAtLeast(major, minor)] *)
Definition proto_at_least (r : request) (major minor : Z) : bool :=
  (major <? req_major r) || ((req_major r =? major) && (minor <=? req_minor r)).

(** [http.StatusText] *)
Definition status_text (code : Z) : string :=
  match code with
  | 100 => "Continue" | 101 => "Switching Protocols" | 102 => "Processing"
  | 103 => "Early Hints"
  | 200 => "OK" | 201 => "Created" | 202 => "Accepted"
  | 203 => "Non-Authoritative Information" | 204 => "No Content"
  | 205 => "Reset Content" | 206 => "Partial Content" | 207 => "Multi-Status"
  | 208 => "Already Reported" | 226 => "IM Used"
  | 300 => "Multiple Choices" | 301 => "Moved Permanently" | 302 => "Found"
  | 303 => "See Other" | 304 => "Not Modified" | 305 => "Use Proxy"
  | 307 => "Temporary Redirect" | 308 => "Permanent Redirect"
  | 400 => "Bad Request" | 401 => "Unauthorized" | 402 => "Payment Required"
  | 403 => "Forbidden" | 404 => "Not Found" | 405 => "Method Not Allowed"
  | 406 => "Not Acceptable" | 407 => "Proxy Authentication Required"
  | 408 => "Request Timeout" | 409 => "Conflict" | 410 => "Gone"
  | 411 => "Length Required" | 412 => "Precondition Failed"
  | 413 => "Request Entity Too Large" | 414 => "Request URI Too Long"
  | 415 => "Unsupported Media Type" | 416 => "Requested Range Not Satisfiable"
  | 417 => "Expectation Failed" | 418 => "I'm a teapot"
  | 421 => "Misdirected Request" | 422 => "Unprocessable Entity" | 423 => "Locked"
  | 424 => "Failed Dependency" | 425 => "Too Early" | 426 => "Upgrade Required"
  | 428 => "Precondition Required" | 429 => "Too Many Requests"
  | 431 => "Request Header Fields Too Large" | 451 => "Unavailable For Legal Reasons"
  | 500 => "Internal Server Error" | 501 => "Not Implemented" | 502 => "Bad Gateway"
  | 503 => "Service Unavailable" | 504 => "Gateway Timeout"
  | 505 => "HTTP Version Not Supported" | 506 => "Variant Also Negotiates"
  | 507 => "Insufficient Storage" | 508 => "Loop Detected" | 510 => "Not Extended"
  | 511 => "Network Authentication Required"
  | _ => ""
  end.

(** ** Serialising a header *)

Definition CR : ascii := "013".
Definition LF : ascii := "010".
Definition crlf : string := String CR (String LF "").

(** [headerNewlineToSpace.Replace] *)
Definition newline_to_space (v : string) : string :=
  str_map (fun c => if Ascii.eqb c LF || Ascii.eqb c CR then " "%char else c) v.

(** [textproto.TrimString]: SP, HT, LF and CR at both ends. *)
Definition lws (c : ascii) : bool :=
  Ascii.eqb c " " || Ascii.eqb c "009" || Ascii.eqb c LF || Ascii.eqb c CR.

Fixpoint trim_left_lws (s : string) : string :=
  match s with
  | String c t => if lws c then trim_left_lws t else s
  | EmptyString => ""
  end.

Definition trim_string (s : string) : string :=
  str_rev (trim_left_lws (str_rev (trim_left_lws s))).

(** Keys in octet order ([sortedKeyValues]). *)
Fixpoint insert_key (kv : string * list string) (l : list (string * list string))
    : list (string * list string) :=
  match l with
  | [] => [kv]
  | kv' :: l' => if String.leb kv.1 kv'.1 then kv :: l else kv' :: insert_key kv l'
  end.

Definition sorted_key_values (h : header) (exclude : list string)
    : list (string * list string) :=
  foldr insert_key []
    (filter (fun kv => bool_decide (kv.1 ∉ exclude)) (map_to_list h)).

(** One "Key: value" line per value; a key that is no token is skipped. *)
Definition header_lines (kv : string * list string) : list string :=
  if negb (String.eqb kv.1 "") && str_forall is_tchar kv.1 then
    (fun v => kv.1 +:+ ": " +:+ trim_string (newline_to_space v)) <$> kv.2
  else [].

(** [h.WriteSubset(w, exclude)] into a buffer. *)
Definition write_subset (h : header) (exclude : list string) : string :=
  str_concat ((fun l => l +:+ crlf) <$>
              (sorted_key_values h exclude ≫= header_lines)).

(** ** Lemmas: keys *)

Lemma ascii_upper_idem c : ascii_upper (ascii_upper c) = ascii_upper c.
Proof. byte_cases c; reflexivity. Qed.

Lemma tchar_upper c : is_tchar (ascii_upper c) = is_tchar c.
Proof. byte_cases c; reflexivity. Qed.

Lemma tchar_lower c : is_tchar (ascii_lower c) = is_tchar c.
Proof. byte_cases c; reflexivity. Qed.

Lemma canonical_go_tchar u s : str_forall is_tchar (canonical_go u s) = str_forall is_tchar s.
Proof.
  revert u. induction s as [|c s IH]; intros u; [done|]. cbn.
  rewrite IH. by destruct u; rewrite ?tchar_upper, ?tchar_lower.
Qed.

Lemma canonical_go_idem u s : canonical_go u (canonical_go u s) = canonical_go u s.
Proof.
  revert u. induction s as [|c s IH]; intros u; [done|]. cbn.
  by destruct u; rewrite ?ascii_upper_idem, ?ascii_lower_idem, IH.
Qed.

Lemma canonical_key_idem s : canonical_key (canonical_key s) = canonical_key s.
Proof.
  unfold canonical_key. destruct (str_forall is_tchar s) eqn:E; [|by rewrite E].
  by rewrite canonical_go_tchar, E, canonical_go_idem.
Qed.

(** Two spellings of a token that differ in letter case share a canonical key. *)
Lemma canonical_go_lower u s t :
  str_map ascii_lower s = str_map ascii_lower t -> canonical_go u s = canonical_go u t.
Proof.
  revert u t. induction s as [|c s IH]; intros u [|d t]; cbn; try done.
  intros [= Hc Hs].
  assert (E : forall u : bool, (if u then ascii_upper c else ascii_lower c) =
                        (if u then ascii_upper d else ascii_lower d)).
  { assert (L : forall x, ascii_upper (ascii_lower x) = ascii_upper x)
      by (intros x; byte_cases x; reflexivity).
    intros []; [|done]. by rewrite <- (L c), Hc, L. }
  rewrite (E u). f_equal. by apply IH.
Qed.

Lemma canonical_key_case s t :
  str_map ascii_lower s = str_map ascii_lower t -> str_forall is_tchar s = true ->
  canonical_key s = canonical_key t.
Proof.
  intros E Hs. unfold canonical_key.
  assert (Ht : str_forall is_tchar t = true).
  { rewrite <- Hs. transitivity (str_forall is_tchar (str_map ascii_lower t)).
    - rewrite str_forall_map. clear. induction t as [|c t IH]; [done|]. cbn.
      by rewrite tchar_lower, IH.
    - rewrite <- E, str_forall_map. clear. induction s as [|c s IH]; [done|]. cbn.
      by rewrite tchar_lower, IH. }
  rewrite Hs, Ht. by apply canonical_go_lower.
Qed.

(** ** Lemmas: header operations *)

Lemma hget_hset h k v : hget (hset h k v) k = v.
Proof. unfold hget, hset. by rewrite lookup_insert_eq. Qed.

Lemma hget_hset_ne h k k' v :
  canonical_key k <> canonical_key k' -> hget (hset h k v) k' = hget h k'.
Proof. intros H. unfold hget, hset. by rewrite lookup_insert_ne. Qed.

Lemma hget_hdel h k : hget (hdel h k) k = "".
Proof. unfold hget, hdel. by rewrite lookup_delete_eq. Qed.

Lemma lookup_hdel_None h k x : h !! x = None -> hdel h k !! x = None.
Proof.
  intros H. unfold hdel. destruct (decide (canonical_key k = x)) as [->|];
    [apply lookup_delete_eq|by rewrite lookup_delete_ne].
Qed.

Lemma lookup_hdel_Some h k x v :
  hdel h k !! x = Some v <-> canonical_key k <> x /\ h !! x = Some v.
Proof. apply lookup_delete_Some. Qed.

Lemma lookup_hset_ne h k v x :
  canonical_key k <> x -> hset h k v !! x = h !! x.
Proof. intros H. unfold hset. by rewrite lookup_insert_ne. Qed.

Lemma lookup_hset_eq h k v : hset h k v !! canonical_key k = Some [v].
Proof. apply lookup_insert_eq. Qed.

Lemma canonical_header_hset h k v : canonical_header h -> canonical_header (hset h k v).
Proof.
  intros H. unfold canonical_header, hset. apply map_Forall_insert_2; [|done].
  apply canonical_key_idem.
Qed.

Lemma canonical_header_hdel h k : canonical_header h -> canonical_header (hdel h k).
Proof. intros H. by apply map_Forall_delete. Qed.

#[export] Hint Resolve canonical_header_hset canonical_header_hdel lookup_hdel_None : spnego.

(** ** Lemmas: serialisation *)

Definition no_crlf (s : string) : bool :=
  str_forall (fun c => negb (Ascii.eqb c CR) && negb (Ascii.eqb c LF)) s.

Lemma no_crlf_app a b : no_crlf (a +:+ b) = no_crlf a && no_crlf b.
Proof. apply str_forall_app. Qed.

Lemma newline_to_space_no_crlf v : no_crlf (newline_to_space v) = true.
Proof.
  unfold no_crlf, newline_to_space. rewrite str_forall_map.
  eapply (str_forall_impl (fun _ => true)); [|by induction v].
  intros c _. byte_cases c; reflexivity.
Qed.

Lemma trim_left_lws_forall P s :
  str_forall P s = true -> str_forall P (trim_left_lws s) = true.
Proof.
  induction s as [|c s IH]; [done|]. cbn. intros H.
  destruct (lws c); [|done]. apply IH. by apply andb_true_iff in H as [_ ?].
Qed.

Lemma trim_string_forall P s :
  str_forall P s = true -> str_forall P (trim_string s) = true.
Proof.
  intros H. unfold trim_string. rewrite str_forall_rev. apply trim_left_lws_forall.
  rewrite str_forall_rev. by apply trim_left_lws_forall.
Qed.

Lemma tchar_no_crlf s : str_forall is_tchar s = true -> no_crlf s = true.
Proof. apply str_forall_impl. intros c. byte_cases c; cbn; done. Qed.

(** No header line contains CR or LF, whatever the values hold. *)
Lemma header_lines_no_crlf kv : Forall (fun l => no_crlf l = true) (header_lines kv).
Proof.
  destruct kv as [k vs]. unfold header_lines. cbn.
  destruct (negb (String.eqb k "") && str_forall is_tchar k) eqn:E; [|constructor].
  apply andb_true_iff in E as [_ Hk]. apply Forall_fmap, Forall_true. intros v. cbn.
  rewrite !no_crlf_app, (tchar_no_crlf k Hk). cbn.
  apply trim_string_forall, newline_to_space_no_crlf.
Qed.

Lemma write_subset_lines h ex :
  exists ls, write_subset h ex = str_concat ((fun l => l +:+ crlf) <$> ls) /\
             Forall (fun l => no_crlf l = true) ls.
Proof.
  exists (sorted_key_values h ex ≫= header_lines). split; [done|].
  apply Forall_forall. intros l Hl. apply list_elem_of_bind in Hl as (kv & Hl & _).
  pose proof (header_lines_no_crlf kv) as F. rewrite Forall_forall in F. by apply F.
Qed.
