(* ===== verification/GoFlag.v ===== *)
(** * Go's [flag] package and the parsers behind it

    [strconv.ParseInt] in base 0, [strconv.ParseBool], [time.ParseDuration] with
    its float64 fractions, [time.Duration.String], and [flag.FlagSet.Parse]
    with [flag.ContinueOnError]. *)

From Stdlib Require Import SpecFloat.
From S2P Require Import Prelude GoStrings.

(** ** Integers *)

(** [c | 0x20] *)
Definition lower_byte (c : ascii) : Z := Z.lor (bval c) 32.

(** The digit a byte stands for, in bases up to 36. *)
Definition base_digit (c : ascii) : option Z :=
  if is_digit c then Some (digit_val c)
  else if (97 <=? lower_byte c) && (lower_byte c <=? 122) then Some (lower_byte c - 87)
  else None.

(** The digit loop of [strconv.ParseUint]: the value and whether an underscore
    was seen.  [None] covers the syntax and the range error. *)
Fixpoint uint_loop (base maxVal n : Z) (underscores : bool) (s : string) : option (Z * bool) :=
  match s with
  | EmptyString => Some (n, underscores)
  | String c s =>
      if Ascii.eqb c "_" then uint_loop base maxVal n true s
      else match base_digit c with
      | None => None
      | Some d =>
          if base <=? d then None
          else if maxVal <? n * base + d then None
          else uint_loop base maxVal (n * base + d) underscores s
      end
  end.

(** The base prefix. *)
Definition base_prefix (s : string) : Z * string :=
  match s with
  | String "0" t =>
      match t with
      | String c (String d u) =>
          if lower_byte c =? 98 then (2, String d u)
          else if lower_byte c =? 111 then (8, String d u)
          else if lower_byte c =? 120 then (16, String d u)
          else (8, t)
      | _ => (8, t)
      end
  | _ => (10, s)
  end.

(** What [underscoreOK] saw last: the beginning, a digit or the base prefix, an
    underscore, anything else. *)
Inductive seen := SawStart | SawDigit | SawUnderscore | SawOther.

Fixpoint underscore_loop (hex : bool) (saw : seen) (s : string) : bool :=
  match s with
  | EmptyString => match saw with SawUnderscore => false | _ => true end
  | String c s =>
      if is_digit c || (hex && (97 <=? lower_byte c) && (lower_byte c <=? 102))
      then underscore_loop hex SawDigit s
      else if Ascii.eqb c "_" then
        match saw with SawDigit => underscore_loop hex SawUnderscore s | _ => false end
      else match saw with SawUnderscore => false | _ => underscore_loop hex SawOther s end
  end.

Definition underscore_ok (s : string) : bool :=
  let s := match s with String "-" t | String "+" t => t | _ => s end in
  match s with
  | String "0" (String c t) =>
      if (lower_byte c =? 98) || (lower_byte c =? 111) || (lower_byte c =? 120)
      then underscore_loop (lower_byte c =? 120) SawDigit t
      else underscore_loop false SawStart s
  | _ => underscore_loop false SawStart s
  end.

(** [strconv.ParseUint(s, 0, 64)] *)
Definition parse_uint0 (s : string) : option Z :=
  if String.eqb s "" then None
  else
    let '(base, t) := base_prefix s in
    match uint_loop base max_uint64 0 false t with
    | None => None
    | Some (n, underscores) =>
        if (underscores : bool) && negb (underscore_ok s) then None else Some n
    end.

(** [strconv.ParseInt(s, 0, 64)] *)
Definition parse_int0 (s : string) : option Z :=
  let '(neg, body) :=
    match s with
    | String "+" t => (false, t)
    | String "-" t => (true, t)
    | _ => (false, s)
    end in
  match parse_uint0 body with
  | None => None
  | Some un =>
      if (neg : bool) then if 2 ^ 63 <? un then None else Some (- un)
      else if 2 ^ 63 <=? un then None else Some un
  end.

(** ** Booleans *)

(** [strconv.ParseBool] *)
Definition parse_bool (s : string) : option bool :=
  if bool_decide (s ∈ ["1"; "t"; "T"; "true"; "TRUE"; "True"]) then Some true
  else if bool_decide (s ∈ ["0"; "f"; "F"; "false"; "FALSE"; "False"]) then Some false
  else None.

(** ** Durations *)

(** float64 arithmetic, rounding to nearest even. *)
Definition f64_of_Z (z : Z) : spec_float := binary_normalize 53 1024 z 0 false.
Definition f64_mul : spec_float -> spec_float -> spec_float := SFmul 53 1024.
Definition f64_div : spec_float -> spec_float -> spec_float := SFdiv 53 1024.

(** [uint64(x)] of a non-negative float64 in range. *)
Definition f64_trunc (x : spec_float) : Z :=
  match x with
  | S754_finite false m e => Z.shiftl (Zpos m) e
  | _ => 0
  end.

(** [time.leadingInt] *)
Fixpoint leading_int (x : Z) (s : string) : option (Z * string) :=
  match s with
  | String c t =>
      if is_digit c then
        if 2 ^ 63 / 10 <? x then None
        else
          let x := x * 10 + digit_val c in
          if 2 ^ 63 <? x then None else leading_int x t
      else Some (x, s)
  | EmptyString => Some (x, s)
  end.

(** [time.leadingFraction] *)
Fixpoint leading_fraction (x : Z) (scale : spec_float) (overflow : bool) (s : string)
    : Z * spec_float * string :=
  match s with
  | String c t =>
      if is_digit c then
        if overflow then leading_fraction x scale true t
        else if (2 ^ 63 - 1) / 10 <? x then leading_fraction x scale true t
        else
          let y := x * 10 + digit_val c in
          if 2 ^ 63 <? y then leading_fraction x scale true t
          else leading_fraction y (f64_mul scale (f64_of_Z 10)) false t
      else (x, scale, s)
  | EmptyString => (x, scale, s)
  end.

(** The unit: everything up to the next digit or period. *)
Fixpoint split_unit (s : string) : string * string :=
  match s with
  | String c t =>
      if Ascii.eqb c "." || is_digit c then ("", s)
      else let '(u, r) := split_unit t in (String c u, r)
  | EmptyString => ("", "")
  end.

(** [unitMap]; the two micro signs are U+00B5 and U+03BC. *)
Definition unit_of (u : string) : option Z :=
  if String.eqb u "ns" then Some 1
  else if String.eqb u "us" || String.eqb u (encode_rune 0xB5 +:+ "s") || String.eqb u (encode_rune 0x3BC +:+ "s")
  then Some 1000
  else if String.eqb u "ms" then Some 1000000
  else if String.eqb u "s" then Some 1000000000
  else if String.eqb u "m" then Some 60000000000
  else if String.eqb u "h" then Some 3600000000000
  else None.

(** The optional fraction after the integer part. *)
Definition fraction_part (s : string) : Z * spec_float * string * bool :=
  match s with
  | String "." t =>
      let '(f, scale, r) := leading_fraction 0 (f64_of_Z 1) false t in
      (f, scale, r, negb (String.length t =? String.length r)%nat)
  | _ => (0, f64_of_Z 1, s, false)
  end.

(** One number with its unit: its value and the rest. *)
Definition duration_item (s : string) : option (Z * string) :=
  match s with
  | EmptyString => None
  | String c _ =>
      if negb (Ascii.eqb c "." || is_digit c) then None
      else match leading_int 0 s with
      | None => None
      | Some (v, s1) =>
          let pre := negb (String.length s =? String.length s1)%nat in
          let '(f, scale, s2, post) := fraction_part s1 in
          if negb pre && negb post then None
          else
            let '(u, s3) := split_unit s2 in
            if String.eqb u "" then None
            else match unit_of u with
            | None => None
            | Some unit =>
                if 2 ^ 63 / unit <? v then None
                else
                  let v := v * unit in
                  if 0 <? f then
                    let v := v + f64_trunc (f64_mul (f64_of_Z f) (f64_div (f64_of_Z unit) scale)) in
                    if 2 ^ 63 <? v then None else Some (v, s3)
                  else Some (v, s3)
            end
      end
  end.

(** The loop over the items; the sum is a uint64.  Every item consumes input,
    so the length of the string is fuel enough. *)
Fixpoint duration_loop (fuel : nat) (d : Z) (s : string) : option Z :=
  if String.eqb s "" then Some d
  else match fuel with
  | O => None
  | S fuel =>
      match duration_item s with
      | None => None
      | Some (v, s) =>
          let d := (d + v) mod 2 ^ 64 in
          if 2 ^ 63 <? d then None else duration_loop fuel d s
      end
  end.

(** [time.ParseDuration] *)
Definition parse_duration (s : string) : option Z :=
  let '(neg, s) :=
    match s with
    | String "-" t => (true, t)
    | String "+" t => (false, t)
    | _ => (false, s)
    end in
  if String.eqb s "0" then Some 0
  else if String.eqb s "" then None
  else match duration_loop (String.length s) 0 s with
  | None => None
  | Some d =>
      if (neg : bool) then Some (wrap64 (- d))
      else if 2 ^ 63 - 1 <? d then None else Some d
  end.

(** [fmtFrac]: the fraction of [v / 10^prec] without trailing zeros, and the
    integer part.  [text] is what follows. *)
Fixpoint fmt_frac (prec : nat) (v : Z) (printing : bool) (text : string) : string * Z :=
  match prec with
  | O => (if printing then String "." text else text, v)
  | S prec =>
      let digit := v mod 10 in
      let printing := printing || negb (digit =? 0) in
      fmt_frac prec (v / 10) printing (if printing then String (byte_of_Z (48 + digit)) text else text)
  end.

(** [time.Duration.String] *)
Definition duration_string (d : Z) : string :=
  let u := Z.abs d in
  let body :=
    if u <? 1000000000 then
      if u =? 0 then "0s"
      else
        let '(prec, unit) := if u <? 1000 then (0%nat, "ns")
                             else if u <? 1000000 then (3%nat, encode_rune 0xB5 +:+ "s")
                             else (6%nat, "ms") in
        let '(frac, n) := fmt_frac prec u false unit in
        itoa n +:+ frac
    else
      let '(frac, secs) := fmt_frac 9 u false "s" in
      let text := itoa (secs mod 60) +:+ frac in
      let mins := secs / 60 in
      if 0 <? mins then
        let text := itoa (mins mod 60) +:+ "m" +:+ text in
        let hours := mins / 60 in
        if 0 <? hours then itoa hours +:+ "h" +:+ text else text
      else text in
  if d <? 0 then String "-" body else body.

(** Values from the documentation of the package. *)
Example parse_duration_fraction :
  parse_duration "1h15m30.918273645s" = Some 4530918273645 /\
  parse_duration "-1.5h" = Some (-5400000000000) /\
  parse_duration "0.3333333333333333333h" = Some 1200000000000 /\
  parse_duration "39h9m14.425s" = Some 140954425000000 /\
  parse_duration "9223372036854775807ns" = Some max_int64 /\
  parse_duration "-9223372036854775808ns" = Some min_int64 /\
  parse_duration "9223372036854775808ns" = None /\ parse_duration "3" = None /\ parse_duration ".s" = None.
Proof. vm_compute. auto 10. Qed.

Example duration_string_forms :
  duration_string 1100 = "1.1" +:+ encode_rune 0xB5 +:+ "s" /\ duration_string 2200000 = "2.2ms" /\
  duration_string 3300000000 = "3.3s" /\ duration_string 245000000000 = "4m5s" /\
  duration_string (-300000000000) = "-5m0s" /\ duration_string 18367001000000 = "5h6m7.001s".
Proof. vm_compute. auto 10. Qed.

(** ** [flag.FlagSet] *)

(** The variables a flag can set; [int] has 64 bits. *)
Inductive flag_value := VString (s : string) | VBool (b : bool) | VInt (z : Z) | VDuration (z : Z).

#[export] Instance flag_value_eq_dec : EqDecision flag_value.
Proof. solve_decision. Defined.

(** The variables by flag name, with their current values. *)
Notation store := (gmap string flag_value).

(** [flag.Value.Set] of the variable that holds [old]. *)
Definition flag_set (old : flag_value) (s : string) : option flag_value :=
  match old with
  | VString _ => Some (VString s)
  | VBool _ => VBool <$> parse_bool s
  | VInt _ => VInt <$> parse_int0 s
  | VDuration _ => VDuration <$> parse_duration s
  end.

Definition is_bool_flag (v : flag_value) : bool := match v with VBool _ => true | _ => false end.

(** What one argument is: no flag, the terminator, a syntax error, or a flag
    with the value after its equals sign. *)
Inductive argument := ArgNonFlag | ArgTerminator | ArgBad | ArgFlag (name : string) (value : option string).

(** The text after the minus signs; an equals sign cannot come first. *)
Definition flag_argument (text : string) : argument :=
  match text with
  | EmptyString => ArgBad
  | String c t =>
      if Ascii.eqb c "-" || Ascii.eqb c "=" then ArgBad
      else match index_byte t "=" with
      | Some i => ArgFlag (String c (str_take i t)) (Some (str_drop (S i) t))
      | None => ArgFlag text None
      end
  end.

Definition classify (s : string) : argument :=
  match s with
  | String "-" (String c t) =>
      if Ascii.eqb c "-" then
        if String.eqb t "" then ArgTerminator else flag_argument t
      else flag_argument (String c t)
  | _ => ArgNonFlag
  end.

Inductive parse_result := ParseOK (st : store) (rest : list string) | ParseHelp | ParseError.

(** [FlagSet.Parse] *)
Fixpoint flag_parse (st : store) (args : list string) : parse_result :=
  match args with
  | [] => ParseOK st []
  | s :: rest =>
      match classify s with
      | ArgNonFlag => ParseOK st args
      | ArgTerminator => ParseOK st rest
      | ArgBad => ParseError
      | ArgFlag name value =>
          match st !! name with
          | None => if String.eqb name "help" || String.eqb name "h" then ParseHelp else ParseError
          | Some old =>
              match value with
              | Some v =>
                  match flag_set old v with
                  | Some new => flag_parse (<[name := new]> st) rest
                  | None => ParseError
                  end
              | None =>
                  if is_bool_flag old then
                    match flag_set old "true" with
                    | Some new => flag_parse (<[name := new]> st) rest
                    | None => ParseError
                    end
                  else match rest with
                  | [] => ParseError
                  | v :: rest =>
                      match flag_set old v with
                      | Some new => flag_parse (<[name := new]> st) rest
                      | None => ParseError
                      end
                  end
              end
          end
      end
  end.

(** ** Printing values back *)

(** A text of the value that [Set] accepts. *)
Definition flag_show (v : flag_value) : string :=
  match v with
  | VString s => s
  | VBool b => if b then "true" else "false"
  | VInt z => itoa z
  | VDuration z => itoa z +:+ "ns"
  end.

(** Values of the variables' types, and two values of the same type. *)
Definition value_ok (v : flag_value) : Prop :=
  match v with VString _ | VBool _ => True | VInt z | VDuration z => is_int64 z end.

Definition same_type (v w : flag_value) : Prop :=
  match v, w with
  | VString _, VString _ | VBool _, VBool _ | VInt _, VInt _ | VDuration _, VDuration _ => True
  | _, _ => False
  end.

Lemma base_digit_decimal c : is_digit c = true -> base_digit c = Some (digit_val c) /\ Ascii.eqb c "_" = false.
Proof. intros H. unfold base_digit. rewrite H. split; [done|]. by destruct (Ascii.eqb_spec c "_") as [->|]. Qed.

Lemma digit_val_bounds c : is_digit c = true -> 0 <= digit_val c < 10.
Proof. unfold is_digit, in_range, digit_val. intros H. bool_prop. lia. Qed.

Lemma parse_digits_ge s a n : 0 <= a -> parse_digits a s = Some n -> a <= n.
Proof.
  revert a. induction s as [|c s IH]; cbn; intros a Ha; [intros [= <-]; lia|].
  destruct (is_digit c) eqn:E; [|done]. apply digit_val_bounds in E. intros H%IH; lia.
Qed.

(** Decimal digits below the limit are read by the base-0 loop. *)
Lemma uint_loop_digits maxVal n s r :
  0 <= n -> parse_digits n s = Some r -> r <= maxVal ->
  uint_loop 10 maxVal n false s = Some (r, false).
Proof.
  revert n. induction s as [|c s IH]; intros n Hn; cbn [parse_digits uint_loop]; [by intros [= <-]|].
  destruct (is_digit c) eqn:Hd; [|done]. intros Hr Hm. destruct (base_digit_decimal c Hd) as [-> ->].
  apply digit_val_bounds in Hd. destruct (Z.leb_spec 10 (digit_val c)); [lia|].
  assert (n * 10 + digit_val c <= r) by (eapply parse_digits_ge; [|exact Hr]; lia).
  destruct (Z.ltb_spec maxVal (n * 10 + digit_val c)); [lia|]. apply IH; [lia|done..].
Qed.

Lemma leading_int_digits x s t r :
  0 <= x -> parse_digits x s = Some r -> r <= 2 ^ 63 ->
  match t with EmptyString => True | String c _ => is_digit c = false end ->
  leading_int x (s +:+ t) = Some (r, t).
Proof.
  intros Hx Hr Hm Ht. revert x Hx Hr. induction s as [|c s IH]; intros x Hx; cbn [parse_digits].
  - intros [= <-]. rewrite str_nil_app. destruct t as [|c t]; [done|]. cbn. by rewrite Ht.
  - destruct (is_digit c) eqn:Hd; [|done]. intros Hr. rewrite str_app_cons. cbn [leading_int]. rewrite Hd.
    apply digit_val_bounds in Hd.
    assert (x * 10 + digit_val c <= r) by (eapply parse_digits_ge; [|exact Hr]; lia).
    destruct (Z.ltb_spec (2 ^ 63 / 10) x).
    { assert (2 ^ 63 < 10 * (2 ^ 63 / 10 + 1)) by (vm_compute; reflexivity). lia. }
    destruct (Z.ltb_spec (2 ^ 63) (x * 10 + digit_val c)); [lia|]. apply IH; [lia|done].
Qed.

(** A positive number prints without a leading zero. *)
Lemma digits_acc_lead fuel n acc :
  0 < n < 10 ^ Z.of_nat fuel ->
  exists c t, digits_acc fuel n acc = String c t /\ is_digit c = true /\ c <> "0"%char.
Proof.
  revert n acc. induction fuel as [|f IH]; [cbn; lia|]. intros n acc Hn. cbn [digits_acc].
  pose proof (Z.mod_pos_bound n 10 ltac:(lia)) as Hm. pose proof (Z.div_mod n 10 ltac:(lia)) as E.
  destruct (digit_byte (n mod 10) Hm) as [Hd Hv]. destruct (Z.eqb_spec (n / 10) 0) as [H0|H0].
  - eexists _, _. split; [done|]. split; [done|]. intros Hc. rewrite Hc in Hv.
    change (digit_val "0") with 0 in Hv. lia.
  - apply IH. split; [pose proof (Z.div_pos n 10); lia|]. apply Z.div_lt_upper_bound; [lia|].
    rewrite Nat2Z.inj_succ, Z.pow_succ_r in Hn by lia. lia.
Qed.

Lemma base_prefix_decimal c t : c <> "0"%char -> base_prefix (String c t) = (10, String c t).
Proof. by byte_cases c. Qed.

Lemma pow10_20 : 10 ^ Z.of_nat 20 = 100000000000000000000.
Proof. reflexivity. Qed.

Lemma parse_uint0_digits n : 0 <= n <= 2 ^ 63 -> parse_uint0 (digits_acc 20 n "") = Some n.
Proof.
  intros Hn. destruct (decide (n = 0)) as [->|Hz]; [vm_compute; reflexivity|].
  assert (Hb : 0 < n < 10 ^ Z.of_nat 20) by (rewrite pow10_20; lia).
  destruct (digits_acc_lead 20 n "" Hb) as (c & t & E & Hd & Hc). unfold parse_uint0.
  rewrite E, base_prefix_decimal by done. cbn [String.eqb]. rewrite <- E.
  rewrite (uint_loop_digits max_uint64 0 _ n); [done|lia| |unfold max_uint64; lia].
  apply parse_digits_acc; [lia|done].
Qed.

(** ** The round trip of a value *)

Lemma parse_int0_body c t :
  is_digit c = true ->
  parse_int0 (String c t) =
  match parse_uint0 (String c t) with
  | None => None
  | Some un => if 2 ^ 63 <=? un then None else Some un
  end.
Proof. byte_cases c; cbn; done. Qed.

Lemma parse_int0_itoa n : is_int64 n -> parse_int0 (itoa n) = Some n.
Proof.
  unfold is_int64, min_int64, max_int64. intros Hn. unfold itoa. destruct (Z.ltb_spec n 0).
  - unfold parse_int0. rewrite parse_uint0_digits by lia.
    destruct (Z.ltb_spec (2 ^ 63) (- n)); [lia|]. by rewrite Z.opp_involutive.
  - destruct (digits_acc_head 20 n "") as (c & t & E & Hd); [lia|done|].
    rewrite E, parse_int0_body, <- E by done. rewrite parse_uint0_digits by lia.
    by destruct (Z.leb_spec (2 ^ 63) n); [lia|].
Qed.

(** One item in nanoseconds. *)
Lemma duration_item_ns n :
  0 <= n <= 2 ^ 63 -> duration_item (digits_acc 20 n "" +:+ "ns") = Some (n, "").
Proof.
  intros Hn. destruct (digits_acc_head 20 n "") as (c & t & E & Hd); [lia|done|].
  assert (Hl : leading_int 0 (digits_acc 20 n "" +:+ "ns") = Some (n, "ns")).
  { apply leading_int_digits; [lia| |lia|done]. apply parse_digits_acc; [|done].
    rewrite pow10_20. lia. }
  unfold duration_item. rewrite E in *. rewrite str_app_cons in *. rewrite Hd, orb_true_r, Hl. cbn [negb].
  assert (Hlen : (String.length (String c (t +:+ "ns")) =? String.length "ns")%nat = false).
  { apply Nat.eqb_neq. cbn [String.length]. rewrite str_length_app. cbn. lia. }
  rewrite Hlen. cbn [fraction_part negb andb]. change (split_unit "ns") with ("ns", "").
  cbv beta iota. change (String.eqb "ns" "") with false. change (unit_of "ns") with (Some 1). change (0 <? 0) with false.
  cbv beta iota. rewrite Z.div_1_r, Z.mul_1_r.
  by destruct (Z.ltb_spec (2 ^ 63) n); [lia|].
Qed.

Lemma parse_duration_ns n neg :
  0 <= n <= 2 ^ 63 -> (neg = false -> n < 2 ^ 63) ->
  parse_duration ((if neg : bool then "-" else "") +:+ digits_acc 20 n "" +:+ "ns") =
    Some (if neg then wrap64 (- n) else n).
Proof.
  intros Hn Hs. destruct (digits_acc_head 20 n "") as (c & t & E & Hd); [lia|done|].
  pose proof (duration_item_ns n Hn) as Hi. set (s := digits_acc 20 n "" +:+ "ns") in *.
  assert (Hc : s = String c (t +:+ "ns")) by (subst s; by rewrite E).
  assert (H0 : String.eqb s "0" = false).
  { apply String.eqb_neq. intros Es. rewrite Hc in Es. injection Es as -> Et. by destruct t. }
  assert (Hloop : duration_loop (String.length s) 0 s = Some n).
  { rewrite Hc. cbn [String.length duration_loop String.eqb]. rewrite <- Hc, Hi. cbv zeta.
    rewrite Z.add_0_l, Z.mod_small by lia. destruct (Z.ltb_spec (2 ^ 63) n); [lia|].
    by destruct (String.length (t +:+ "ns")). }
  assert (Hne : String.eqb s "" = false) by (by rewrite Hc). unfold parse_duration. destruct neg.
  - change ("-" +:+ s) with (String "-" s). cbv beta iota. by rewrite H0, Hne, Hloop.
  - rewrite str_nil_app.
    assert (Hsign : (match s with String "-" u => (true, u) | String "+" u => (false, u) | _ => (false, s) end)
                    = (false, s)) by (rewrite Hc; clear -Hd; revert Hd; byte_cases c; done).
    rewrite Hsign. cbv beta iota. rewrite H0, Hne, Hloop. destruct (Z.ltb_spec (2 ^ 63 - 1) n); [|done]. specialize (Hs eq_refl). lia.
Qed.

Lemma parse_duration_itoa n : is_int64 n -> parse_duration (itoa n +:+ "ns") = Some n.
Proof.
  intros Hn. pose proof Hn as Hn'. unfold is_int64, min_int64, max_int64 in Hn'. unfold itoa.
  destruct (Z.ltb_spec n 0).
  - change (String "-" (digits_acc 20 (- n) "") +:+ "ns") with ("-" +:+ digits_acc 20 (- n) "" +:+ "ns").
    rewrite (parse_duration_ns (- n) true) by (done || lia). by rewrite Z.opp_involutive, wrap64_id.
  - apply (parse_duration_ns n false); lia.
Qed.

(** [Set] reads back what [flag_show] prints. *)
Lemma flag_set_show old v : same_type old v -> value_ok v -> flag_set old (flag_show v) = Some v.
Proof.
  destruct old, v; cbn; try done; intros _ Hv.
  - by destruct b0.
  - by rewrite parse_int0_itoa.
  - by rewrite parse_duration_itoa.
Qed.

(** ** Values stay in the range of their types *)

Lemma base_digit_nonneg c d : base_digit c = Some d -> 0 <= d.
Proof.
  unfold base_digit. destruct (is_digit c) eqn:Hd; [intros [= <-]; apply digit_val_bounds in Hd; lia|].
  destruct ((97 <=? lower_byte c) && _) eqn:E; [|done]. intros [= <-]. bool_prop. lia.
Qed.

Lemma uint_loop_bounds base maxVal n u s r u' :
  0 <= base -> 0 <= n <= maxVal -> uint_loop base maxVal n u s = Some (r, u') -> 0 <= r <= maxVal.
Proof.
  intros Hb. revert n u. induction s as [|c s IH]; intros n u Hn; cbn [uint_loop]; [by intros [= <- <-]|].
  destruct (Ascii.eqb c "_"); [by apply IH|]. destruct (base_digit c) as [d|] eqn:Hd; [|done].
  apply base_digit_nonneg in Hd. destruct (base <=? d); [done|].
  destruct (Z.ltb_spec maxVal (n * base + d)); [done|]. apply IH. nia.
Qed.

Lemma parse_uint0_bounds s n : parse_uint0 s = Some n -> 0 <= n <= max_uint64.
Proof.
  unfold parse_uint0. destruct (String.eqb s ""); [done|]. destruct (base_prefix s) as [base t] eqn:Eb.
  assert (Hb : 0 <= base).
  { revert Eb. unfold base_prefix.
    repeat case_match; intros [= <- <-]; lia. }
  destruct (uint_loop base max_uint64 0 false t) as [[r u]|] eqn:E; [|done].
  apply uint_loop_bounds in E; [|done|unfold max_uint64; lia].
  destruct (u && _); [done|]. by intros [= <-].
Qed.

Lemma parse_int0_range s z : parse_int0 s = Some z -> is_int64 z.
Proof.
  unfold parse_int0. match goal with |- context [match ?p with (x, y) => _ end] => destruct p as [neg body] end.
  destruct (parse_uint0 body) as [un|] eqn:E; [|done]. apply parse_uint0_bounds in E.
  unfold is_int64, min_int64, max_int64. destruct neg.
  - destruct (Z.ltb_spec (2 ^ 63) un); [done|]. intros [= <-]. lia.
  - destruct (Z.leb_spec (2 ^ 63) un); [done|]. intros [= <-]. lia.
Qed.

Lemma duration_loop_bounds fuel d s r :
  0 <= d <= 2 ^ 63 -> duration_loop fuel d s = Some r -> 0 <= r <= 2 ^ 63.
Proof.
  revert d s. induction fuel as [|f IH]; intros d s Hd; cbn [duration_loop].
  - destruct (String.eqb s ""); [by intros [= <-]|done].
  - destruct (String.eqb s ""); [by intros [= <-]|]. destruct (duration_item s) as [[v s']|]; [|done].
    destruct (Z.ltb_spec (2 ^ 63) ((d + v) mod 2 ^ 64)); [done|]. apply IH. split; [|done].
    by apply Z.mod_pos_bound.
Qed.

Lemma parse_duration_range s z : parse_duration s = Some z -> is_int64 z.
Proof.
  unfold parse_duration. match goal with |- context [match ?p with (x, y) => _ end] => destruct p as [neg body] end.
  destruct (String.eqb body "0"); [intros [= <-]; by vm_compute|]. destruct (String.eqb body ""); [done|].
  destruct (duration_loop _ 0 body) as [d|] eqn:E; [|done]. apply duration_loop_bounds in E; [|lia].
  destruct neg; [intros [= <-]; apply wrap64_is_int64|].
  destruct (Z.ltb_spec (2 ^ 63 - 1) d); [done|]. intros [= <-]. unfold is_int64, min_int64, max_int64. lia.
Qed.

(** [Set] keeps the variable's type and stores a value of that type. *)
Lemma flag_set_typed old s v : flag_set old s = Some v -> same_type old v /\ value_ok v.
Proof.
  destruct old; cbn; [by intros [= <-]|..]; intros (x & Hx & ->)%fmap_Some; split; try done; cbn.
  - by eapply parse_int0_range.
  - by eapply parse_duration_range.
Qed.

(** ** Command lines that set flags *)

(** A name that an argument can spell. *)
Definition flag_name_ok (n : string) : bool :=
  match n with
  | EmptyString => false
  | String c t => negb (Ascii.eqb c "-") && negb (Ascii.eqb c "=") && no_byte "=" t
  end.

(** The spellings of one setting. *)
Inductive spelling := Joined | JoinedLong | Split | SplitLong | Switch | SwitchLong.

Definition spell (how : spelling) (n v : string) : list string :=
  match how with
  | Joined => ["-" +:+ n +:+ "=" +:+ v]
  | JoinedLong => ["--" +:+ n +:+ "=" +:+ v]
  | Split => ["-" +:+ n; v]
  | SplitLong => ["--" +:+ n; v]
  | Switch => ["-" +:+ n]
  | SwitchLong => ["--" +:+ n]
  end.

(** A boolean flag has no split form, and only a boolean flag is a switch. *)
Definition spelling_ok (how : spelling) (old : flag_value) (v : string) : bool :=
  match how with
  | Joined | JoinedLong => true
  | Split | SplitLong => negb (is_bool_flag old)
  | Switch | SwitchLong => is_bool_flag old && String.eqb v "true"
  end.

Lemma flag_name_ok_cons c t :
  flag_name_ok (String c t) = true -> Ascii.eqb c "-" = false /\ Ascii.eqb c "=" = false /\ no_byte "=" t = true.
Proof. cbn. intros [[H1%negb_true_iff H2%negb_true_iff]%andb_true_iff H3]%andb_true_iff. done. Qed.

Lemma flag_argument_joined n v : flag_name_ok n = true -> flag_argument (n +:+ "=" +:+ v) = ArgFlag n (Some v).
Proof.
  destruct n as [|c t]; [done|]. intros (H1 & H2 & H3)%flag_name_ok_cons.
  rewrite str_app_cons. cbn [flag_argument]. rewrite H1, H2. cbn [orb].
  change (t +:+ "=" +:+ v) with (t +:+ String "=" v). rewrite index_byte_app by done.
  rewrite str_take_app. f_equal. f_equal. change (String "=" v) with ("=" +:+ v).
  rewrite str_app_assoc. replace (S (String.length t)) with (String.length (t +:+ "=")).
  - apply str_drop_app.
  - rewrite str_length_app. cbn. lia.
Qed.

Lemma flag_argument_alone n : flag_name_ok n = true -> flag_argument n = ArgFlag n None.
Proof.
  destruct n as [|c t]; [done|]. intros (H1 & H2 & H3)%flag_name_ok_cons. cbn [flag_argument].
  rewrite H1, H2. cbn [orb]. apply index_byte_None in H3. by rewrite H3.
Qed.

Lemma classify_short n x : flag_name_ok n = true -> classify ("-" +:+ n +:+ x) = flag_argument (n +:+ x).
Proof.
  destruct n as [|c t]; [done|]. intros (H1 & H2 & H3)%flag_name_ok_cons.
  change ("-" +:+ String c t +:+ x) with (String "-" (String c (t +:+ x))). cbn [classify].
  by rewrite H1.
Qed.

Lemma classify_long n x : flag_name_ok n = true -> classify ("--" +:+ n +:+ x) = flag_argument (n +:+ x).
Proof. by destruct n. Qed.

(** Every spelling of a setting does the same: it sets the variable. *)
Lemma flag_parse_spell how st n old v new rest :
  flag_name_ok n = true -> st !! n = Some old -> spelling_ok how old v = true ->
  flag_set old v = Some new ->
  flag_parse st (spell how n v ++ rest) = flag_parse (<[n := new]> st) rest.
Proof.
  intros Hn Ho Hk Hs.
  pose proof (classify_short n ("=" +:+ v) Hn) as C1. pose proof (classify_long n ("=" +:+ v) Hn) as C2.
  pose proof (classify_short n "" Hn) as C3. pose proof (classify_long n "" Hn) as C4.
  rewrite flag_argument_joined in C1, C2 by done. rewrite str_app_nil_r, flag_argument_alone in C3, C4 by done.
  destruct how; cbn [spelling_ok] in Hk; cbn [spell app flag_parse]; rewrite ?C1, ?C2, ?C3, ?C4, Ho;
    try (apply negb_true_iff in Hk as ->); try (apply andb_true_iff in Hk as [-> ->%String.eqb_eq]);
    by rewrite Hs.
Qed.
