(* ===== verification/Errors.v ===== *)
(** * Error values and the client-visible error catalogue

    [errors.go], [errors_proxy.go] and the error predicates of [connect.go].
    A Go error is a chain of concrete errors linked by [Unwrap]; [errors.Is]
    and [errors.As] walk that chain. *)

From S2P Require Import Prelude GoStrings GoHttp.

(** ** Error chains *)

(** The concrete errors the proxy distinguishes. *)
Inductive err_kind :=
| KEOF                     (* io.EOF *)
| KNetClosed               (* net.ErrClosed *)
| KConnReset               (* syscall.ECONNRESET *)
| KPipe                    (* syscall.EPIPE *)
| KNet (timeout : bool)    (* another net.Error, with its Timeout() *)
| KTunnelIdle              (* errTunnelIdle *)
| KSessionShutdown         (* errSessionShutdown *)
| KNoProgress              (* io.ErrNoProgress *)
| KContentLengthInvalid    (* errContentLengthInvalid *)
| KMalformedResponse       (* errMalformedResponse *)
| KCredential              (* *CredentialError *)
| KNegotiation             (* *NegotiationError *)
| KCircuitBreaker          (* *CircuitBreakerError *)
| KBreakerOpen             (* gobreaker.ErrOpenState *)
| KBreakerTooMany          (* gobreaker.ErrTooManyRequests *)
| KOther.                  (* any other error value *)

#[export] Instance err_kind_eq_dec : EqDecision err_kind.
Proof. solve_decision. Defined.

(** [Error()] text and [Unwrap()] cause. *)
Inductive error := Err (kind : err_kind) (msg : string) (cause : option error).

Definition err_msg (e : error) : string := match e with Err _ m _ => m end.
Definition err_cause (e : error) : option error := match e with Err _ _ c => c end.

(** [authError], the base of the three authentication errors. *)
Definition authError (k : err_kind) (msg : string) (cause : option error) : error :=
  Err k msg cause.

Fixpoint chain (e : error) : list err_kind :=
  match e with
  | Err k _ None => [k]
  | Err k _ (Some c) => k :: chain c
  end.

(** [errors.Is] for a sentinel, [errors.As] for a concrete type. *)
Definition errors_is (e : error) (k : err_kind) : bool := bool_decide (k ∈ chain e).

(** [net.Error]: the kinds that implement it, with their [Timeout()]. *)
Definition net_error (k : err_kind) : option bool :=
  match k with
  | KNet t => Some t
  | KNetClosed | KConnReset | KPipe => Some false
  | _ => None
  end.

(** [var ne net.Error; errors.As(err, &ne) && ne.Timeout()]: the first
    [net.Error] of the chain decides. *)
Fixpoint first_net_error (ks : list err_kind) : option bool :=
  match ks with
  | [] => None
  | k :: ks => match net_error k with Some t => Some t | None => first_net_error ks end
  end.

Definition isTimeoutError (e : error) : bool :=
  default false (first_net_error (chain e)).

Definition isExpectedCloseError (e : error) : bool :=
  if errors_is e KEOF || errors_is e KNetClosed then true
  else if errors_is e KConnReset || errors_is e KPipe then true
  else false.

(** Log level of a data-forwarding error. *)
Inductive log_level := LevelDebug | LevelWarn | LevelError.

Definition logForwardError (err : option error) : option log_level :=
  match err with
  | None => None
  | Some e =>
      if errors_is e KTunnelIdle then Some LevelDebug
      else if isTimeoutError e || isExpectedCloseError e then Some LevelDebug
      else Some LevelError
  end.

(** [logDirectError]: the level and the message. *)
Definition logDirectError (what : string) (err : error) : log_level * string :=
  if isExpectedCloseError err then (LevelDebug, what +:+ " closed") else (LevelError, what +:+ " failed").

(** ** The catalogue of [errors_proxy.go] *)

Record proxyError := mk_proxyError {
  statusCode : Z;
  errorType : string;
  message : string;
  action : string
}.

Definition nl : string := String LF "".

Definition body (e : proxyError) : string :=
  if String.eqb (action e) "" then
    "spnego-proxy error: " +:+ errorType e +:+ nl +:+ nl +:+ message e +:+ nl
  else
    "spnego-proxy error: " +:+ errorType e +:+ nl +:+ nl +:+ message e +:+ nl +:+ nl +:+
    "Suggested action: " +:+ action e +:+ nl.

Definition errorTypeConnectionTimeout := "connection_timeout".
Definition errorTypeConnectionRefused := "connection_refused".
Definition errorTypeConnectionTerminated := "connection_terminated".
Definition errorTypeProxyInternalError := "proxy_internal_error".
Definition errorTypeHTTPRequestError := "http_request_error".
Definition errorTypeProxyLoopDetected := "proxy_loop_detected".
Definition errorTypeHTTPProtocolError := "http_protocol_error".
Definition errorTypeHTTPRequestDenied := "http_request_denied".

Definition errConnectionTimeout := mk_proxyError 504 errorTypeConnectionTimeout
  "The proxy timed out connecting to the upstream proxy."
  "Verify the upstream proxy address and that it is reachable from this host. Check for network connectivity issues or firewall rules.".
Definition errConnectionRefused := mk_proxyError 502 errorTypeConnectionRefused
  "The upstream proxy refused the connection."
  "Verify the upstream proxy is running and listening on the configured address. Check firewall rules and network connectivity.".
Definition errTokenAcquisition := mk_proxyError 502 errorTypeProxyInternalError
  "The proxy failed to acquire a SPNEGO authentication token."
  "Check Kerberos credentials. Run 'klist' to verify a valid ticket exists, or 'kinit' to obtain a new one.".
Definition errCredentialFailure := mk_proxyError 502 errorTypeProxyInternalError
  "Kerberos credentials are expired or unavailable."
  "Run 'kinit' to obtain or refresh Kerberos credentials, then retry. Run 'klist' to check current ticket status.".
Definition errNegotiationFailure := mk_proxyError 502 errorTypeProxyInternalError
  "SPNEGO negotiation with the KDC failed."
  "Check the service principal name (-spn flag) and Kerberos realm configuration. Verify the KDC is reachable.".
Definition errCircuitBreakerOpen := mk_proxyError 502 errorTypeProxyInternalError
  "Token acquisition is temporarily disabled after repeated failures (circuit breaker open)."
  "The proxy will automatically retry after a cooldown period. Check Kerberos credentials and the KDC. Run 'klist' to verify ticket status.".
Definition errHTTPRequestError := mk_proxyError 400 errorTypeHTTPRequestError
  "The proxy could not read or parse the HTTP request."
  "Verify the client is sending a well-formed HTTP request to the proxy.".
Definition errConnectionTerminated := mk_proxyError 502 errorTypeConnectionTerminated
  "The connection to the upstream proxy was lost while relaying the request."
  "The upstream proxy may have closed the connection unexpectedly. Retry the request.".
Definition errProxyLoopDetected := mk_proxyError 502 errorTypeProxyLoopDetected
  "A routing loop was detected: the request has already passed through this proxy instance."
  "Check the proxy chain configuration for circular routing. The Via header in the request contains this proxy's identity.".
Definition errInvalidContentLength := mk_proxyError 502 errorTypeHTTPProtocolError
  "The upstream proxy sent a response with an invalid Content-Length header."
  "This may indicate a misconfigured upstream proxy or an attempt at response splitting. Contact the upstream proxy administrator.".
Definition errMalformedResponseHeader := mk_proxyError 502 errorTypeHTTPProtocolError
  "The upstream proxy sent a response containing a header field with a malformed name or a forbidden control character in its value."
  "This may indicate a misconfigured upstream proxy or an attempt at response splitting. Contact the upstream proxy administrator.".
Definition errForbiddenPort := mk_proxyError 403 errorTypeHTTPRequestDenied
  "CONNECT to the requested port is not allowed."
  "The proxy restricts CONNECT tunneling to specific ports. Contact the proxy administrator.".
Definition errUnparseableResponse := mk_proxyError 502 errorTypeHTTPProtocolError
  "The upstream proxy sent a response that could not be parsed as valid HTTP."
  "This may indicate a misconfigured upstream proxy. Contact the upstream proxy administrator.".
Definition errClientDenied := mk_proxyError 403 errorTypeHTTPRequestDenied
  "Client IP is not in the allowlist."
  "Contact the proxy administrator to add your IP to the -allowed-ips list.".
Definition errMismatchedTarget := mk_proxyError 400 errorTypeHTTPRequestDenied
  "Pipelined request is incompatible with the existing direct connection."
  "Open a new connection to the proxy and retry.".

Definition proxy_errors : list proxyError :=
  [errConnectionTimeout; errConnectionRefused; errTokenAcquisition; errCredentialFailure;
   errNegotiationFailure; errCircuitBreakerOpen; errHTTPRequestError; errConnectionTerminated;
   errProxyLoopDetected; errInvalidContentLength; errMalformedResponseHeader; errForbiddenPort;
   errUnparseableResponse; errClientDenied; errMismatchedTarget].

(** ** Header name and value constants ([headers_const.go]) *)

Definition headerForwarded := "Forwarded".
Definition headerXForwardedFor := "X-Forwarded-For".
Definition headerXForwardedProto := "X-Forwarded-Proto".
Definition headerXForwardedHost := "X-Forwarded-Host".
Definition headerVia := "Via".
Definition headerConnection := "Connection".
Definition headerKeepAlive := "Keep-Alive".
Definition headerProxyConnection := "Proxy-Connection".
Definition headerTE := "TE".
Definition headerTrailer := "Trailer".
Definition headerUpgrade := "Upgrade".
Definition headerProxyAuthorization := "Proxy-Authorization".
Definition headerProxyAuthenticate := "Proxy-Authenticate".
Definition headerContentLength := "Content-Length".
Definition headerContentType := "Content-Type".
Definition headerAllow := "Allow".
Definition headerMaxForwards := "Max-Forwards".
Definition headerProxyStatus := "Proxy-Status".

Definition negotiateScheme := "Negotiate ".
Definition connectionClose := "close".
Definition contentTypeTextUTF8 := "text/plain; charset=utf-8".
Definition proxyStatusPrefix := "spnego-proxy; error=".
Definition schemeHTTP := "http".
Definition allowMethods := "GET, HEAD, POST, PUT, DELETE, PATCH, OPTIONS, TRACE, CONNECT".

(** The response of [writeHTTPError]. *)
Definition writeHTTPError (pe : proxyError) : response :=
  mk_response "" (statusCode pe) "" 1 1
    (<[headerContentType := [contentTypeTextUTF8]]>
     (<[headerConnection := [connectionClose]]>
      (<[headerProxyStatus := [proxyStatusPrefix +:+ errorType pe]]> ∅)))
    [] (Z.of_nat (String.length (body pe))) false (body pe).

(** ** Mapping failures to the catalogue *)

Definition tokenErrorToProxyError (err : error) : proxyError :=
  if errors_is err KCircuitBreaker then errCircuitBreakerOpen
  else if errors_is err KCredential then errCredentialFailure
  else if errors_is err KNegotiation then errNegotiationFailure
  else errTokenAcquisition.

(** The error [handleUpstreamResponseError] answers with, and its log level. *)
Definition upstream_response_error (err : error) : proxyError * log_level :=
  if errors_is err KContentLengthInvalid then (errInvalidContentLength, LevelError)
  else if errors_is err KMalformedResponse then (errMalformedResponseHeader, LevelError)
  else (errUnparseableResponse, LevelWarn).

(** The error [handleDialError] answers with. *)
Definition dial_error (err : error) : proxyError :=
  if isTimeoutError err then errConnectionTimeout else errConnectionRefused.

(** ** Properties *)

Lemma in_chain_wrap k msg c k' : k' ∈ chain (Err k msg (Some c)) <-> k' = k \/ k' ∈ chain c.
Proof. cbn. apply elem_of_cons. Qed.

Lemma chain_head k msg c : k ∈ chain (Err k msg c).
Proof. destruct c; cbn; set_solver. Qed.

Lemma errors_is_iff e k : errors_is e k = true <-> k ∈ chain e.
Proof. apply bool_decide_eq_true. Qed.

(** Wrapping an error in one that is not itself an authentication error
    does not change the answer of [tokenErrorToProxyError]. *)
Lemma tokenErrorToProxyError_wrap k msg e :
  k <> KCircuitBreaker -> k <> KCredential -> k <> KNegotiation ->
  tokenErrorToProxyError (Err k msg (Some e)) = tokenErrorToProxyError e.
Proof.
  intros H1 H2 H3. unfold tokenErrorToProxyError, errors_is.
  rewrite !(bool_decide_ext _ _ (in_chain_wrap k msg e _)).
  rewrite !(bool_decide_ext (_ = k \/ _ ∈ chain e) (_ ∈ chain e)) by naive_solver. done.
Qed.

(** Every error answer carries Connection: close, its exact body length, the
    catalogue's status and a Proxy-Status naming its error type. *)
Lemma writeHTTPError_shape pe :
  resp_code (writeHTTPError pe) = statusCode pe /\
  hget (resp_header (writeHTTPError pe)) headerConnection = "close" /\
  hget (resp_header (writeHTTPError pe)) headerProxyStatus = proxyStatusPrefix +:+ errorType pe /\
  resp_length (writeHTTPError pe) = Z.of_nat (String.length (resp_body (writeHTTPError pe))).
Proof. by split_and!. Qed.

(** The catalogue uses four status codes and its error types are RFC 9209
    tokens: lower-case letters and underscores. *)
Lemma proxy_errors_wf :
  Forall (fun pe => statusCode pe ∈ [400; 403; 502; 504] /\
                    str_forall (fun c => is_lower c || Ascii.eqb c "_") (errorType pe) = true /\
                    action pe <> "") proxy_errors.
Proof. repeat constructor; vm_compute; (done || set_solver). Qed.
