(* ===== verification/Config.v ===== *)
(** * Configuration values: [config.go]

    SPN normalisation, comma-separated lists, the client IP allow-list and the
    CONNECT port allow-list. *)

From S2P Require Import Prelude GoStrings GoNet.

(** ** Operations *)

Definition ConnectPortWildcard := "*".

(** Both flags default to false. *)
Record ForwardingConfig := mk_ForwardingConfig {
  ForwardedEnabled : bool;
  XForwardedForEnabled : bool
}.

(** [string(targetSep)] of a byte is the UTF-8 encoding of that code point. *)
Definition normalizeSPN (spn : string) (targetSep alternateSep : ascii) : string :=
  match index_byte spn targetSep with
  | Some _ => spn
  | None =>
      match index_byte spn alternateSep with
      | Some i => str_take i spn +:+ encode_rune (bval targetSep) +:+ str_drop (S i) spn
      | None => spn
      end
  end.

Definition SplitCSV (s : string) : list string :=
  filter (fun p => p <> "") (trim_space <$> split_byte "," s).

(** One entry of the allow-list. *)
Definition parse_allow_entry (entry : string) : option ip_net :=
  if contains entry "/" then parse_cidr entry
  else
    let a := parse_ip entry in
    if (length a =? 0)%nat then None
    else
      let bits := match to4 a with None => 128 | Some _ => 32 end in
      Some (mk_ip_net a (cidr_mask bits bits)).

(** [None] is the error return (invalid CIDR or address). *)
Definition ParseAllowList (s : string) : option (list ip_net) :=
  mapM parse_allow_entry (SplitCSV s).

Definition ipAllowed (a : ip) (allowList : list ip_net) : bool :=
  if (length allowList =? 0)%nat then true
  else
    let a := default a (to4 a) in
    existsb (fun n => net_contains n a) allowList.

Definition connectPortAllowed (port : string) (allowedPorts : list string) : bool :=
  (length allowedPorts =? 0)%nat ||
  existsb (fun p => String.eqb p ConnectPortWildcard || String.eqb p port) allowedPorts.

(** ** SPN normalisation *)

Lemma normalizeSPN_spec spn t a :
  is_ascii_byte t = true ->
  (no_byte t spn = false -> normalizeSPN spn t a = spn) /\
  (no_byte t spn = true -> no_byte a spn = true -> normalizeSPN spn t a = spn) /\
  (forall u v, spn = u +:+ String a v -> no_byte a u = true -> no_byte t spn = true ->
     normalizeSPN spn t a = u +:+ String t v).
Proof.
  intros Ht. unfold normalizeSPN. split_and!.
  - intros H. destruct (index_byte spn t) eqn:E; [done|].
    apply index_byte_None in E. congruence.
  - intros H1%index_byte_None H2%index_byte_None. by rewrite H1, H2.
  - intros u v -> Hu H1%index_byte_None. rewrite H1, index_byte_app by done.
    rewrite str_take_app.
    assert (E : str_drop (S (String.length u)) (u +:+ String a v) = v).
    { change (String a v) with (String a "" +:+ v). rewrite str_app_assoc.
      replace (S (String.length u)) with (String.length (u +:+ String a ""))
        by (rewrite str_length_app; cbn; lia). apply str_drop_app. }
    rewrite E. f_equal. unfold encode_rune.
    unfold is_ascii_byte in Ht. bool_prop. pose proof (bval_bounds t).
    destruct (Z.leb_spec 0 (bval t)); [|lia]. destruct (Z.ltb_spec (bval t) 128); [|lia].
    cbn [andb]. assert (byte_of_Z (bval t) = t) as -> by (apply bval_inj, bval_byte_of_Z; lia).
    done.
Qed.

(** Converting a service/host name for one backend and back restores it. *)
Lemma normalizeSPN_roundtrip service host t a :
  is_ascii_byte t = true -> is_ascii_byte a = true ->
  no_byte t service = true -> no_byte a service = true ->
  no_byte t host = true -> no_byte a host = true ->
  normalizeSPN (normalizeSPN (service +:+ String a host) t a) a t = service +:+ String a host.
Proof.
  intros Ht Ha S1 S2 H1 H2. destruct (Ascii.eqb_spec t a) as [->|Hne].
  - assert (E : no_byte a (service +:+ String a host) = false).
    { rewrite no_byte_app, S1. unfold no_byte. cbn. by rewrite Ascii.eqb_refl. }
    destruct (normalizeSPN_spec (service +:+ String a host) a a Ha) as (-> & _); [|done].
    destruct (normalizeSPN_spec (service +:+ String a host) a a Ha) as (-> & _); done.
  - assert (N : forall x y, x <> y -> no_byte x service = true -> no_byte x host = true ->
                  no_byte x (service +:+ String y host) = true).
    { intros x y Hxy Hs Hh. rewrite no_byte_app, Hs. unfold no_byte in *. cbn.
      rewrite Hh. destruct (Ascii.eqb_spec y x); [congruence|done]. }
    destruct (normalizeSPN_spec (service +:+ String a host) t a Ht) as (_ & _ & E1).
    rewrite (E1 service host) by auto.
    destruct (normalizeSPN_spec (service +:+ String t host) a t Ha) as (_ & _ & E2).
    by rewrite (E2 service host) by auto.
Qed.

(** ** Comma-separated lists *)

Lemma SplitCSV_elem s p :
  p ∈ SplitCSV s -> p <> "" /\ exists q, q ∈ split_byte "," s /\ p = trim_space q.
Proof.
  unfold SplitCSV. intros [H1 H2]%list_elem_of_filter.
  apply list_elem_of_fmap in H2 as (q & -> & Hq). split; [done|]. by exists q.
Qed.

(** Tokens are non-empty and comma-free. *)
Lemma SplitCSV_tokens s p : p ∈ SplitCSV s -> p <> "" /\ no_byte "," p = true.
Proof.
  intros (H & q & Hq & ->)%SplitCSV_elem. split; [done|]. apply trim_space_forall.
  pose proof (split_byte_no_sep "," s) as F. rewrite Forall_forall in F. by apply F.
Qed.

Fixpoint join_comma (l : list string) : string :=
  match l with
  | [] => ""
  | [p] => p
  | p :: l => p +:+ "," +:+ join_comma l
  end.

(** A list of graphic tokens survives printing and parsing. *)
Definition csv_token (p : string) : Prop :=
  p <> "" /\ str_forall graphic p = true /\ no_byte "," p = true.

Lemma split_join_comma l :
  l <> [] -> Forall csv_token l -> split_byte "," (join_comma l) = l.
Proof.
  intros Hne H. induction H as [|p l (Hp & _ & Hc) Hl IH]; [done|].
  destruct l as [|q l]; [by apply split_byte_single|].
  change (join_comma (p :: q :: l)) with (p +:+ String "," (join_comma (q :: l))).
  rewrite split_byte_app by done. by rewrite IH.
Qed.

Lemma SplitCSV_join l : Forall csv_token l -> SplitCSV (join_comma l) = l.
Proof.
  intros H. destruct l as [|p l]; [done|].
  unfold SplitCSV. rewrite split_join_comma by done.
  induction H as [|q l' (Hne & Hg & _) _ IH]; [done|]. rewrite fmap_cons.
  rewrite trim_space_graphic, filter_cons_True by done. by rewrite IH.
Qed.

(** ** CONNECT ports *)

Lemma connectPortAllowed_iff port allowed :
  connectPortAllowed port allowed = true <->
  allowed = [] \/ "*" ∈ allowed \/ port ∈ allowed.
Proof.
  unfold connectPortAllowed. rewrite orb_true_iff, existsb_exists.
  split.
  - intros [H|(p & Hp & H)].
    + left. apply Nat.eqb_eq in H. by destruct allowed.
    + apply list_elem_of_In in Hp. apply orb_true_iff in H as [->%String.eqb_eq| ->%String.eqb_eq]; auto.
  - intros [->|[H|H]]; [by left| |]; right; (eexists; split; [by apply list_elem_of_In|]);
      rewrite String.eqb_refl; auto using orb_true_r.
Qed.

(** ** The client allow-list *)

Lemma ipAllowed_iff a nets :
  nets <> [] ->
  ipAllowed a nets = true <-> exists n, n ∈ nets /\ net_contains n (default a (to4 a)) = true.
Proof.
  intros Hne. unfold ipAllowed. destruct (length nets =? 0)%nat eqn:E.
  { apply Nat.eqb_eq in E. by destruct nets. }
  rewrite existsb_exists. by setoid_rewrite list_elem_of_In.
Qed.

Lemma net_contains_to4 n a b : to4 a = Some b -> net_contains n a = net_contains n b.
Proof.
  intros H. unfold net_contains. rewrite H.
  by rewrite (to4_v4 b) by (by eapply to4_length).
Qed.

(** The network an entry denotes: base address and prefix length. *)
Definition entry_parts (entry : string) : option (addr * Z) :=
  if contains entry "/" then
    match index_byte entry "/" with
    | None => None
    | Some k =>
        match parse_addr (str_take k entry), dtoi (str_drop (S k) entry) 0 0 with
        | Some a, Some (n, _) => Some (a, n)
        | _, _ => None
        end
    end
  else (fun a => (a, bit_len a)) <$> parse_addr entry.

Lemma and_bytes_idem a m :
  and_bytes (and_bytes a m) m = and_bytes a m.
Proof.
  revert m. induction a as [|x a IH]; intros [|y m]; try done. cbn.
  by rewrite IH, <- Z.land_assoc, Z.land_diag.
Qed.

Lemma and_bytes_length a m : length a = length m -> length (and_bytes a m) = length a.
Proof. intros H. unfold and_bytes. rewrite length_zip_with. lia. Qed.

Lemma and_bytes_ones a : bytes_ok a -> and_bytes a (mask_rec (length a) (8 * Z.of_nat (length a))) = a.
Proof.
  induction 1 as [|x a Hx Ha IH]; [done|]. cbn [length mask_rec and_bytes zip_with].
  replace (8 * Z.of_nat (S (length a)) - 8) with (8 * Z.of_nat (length a)) by lia.
  fold (and_bytes a (mask_rec (length a) (8 * Z.of_nat (length a)))). rewrite IH. f_equal.
  rewrite Z.max_r, Z.min_l, land_high_mask_div by lia.
  rewrite Z.sub_diag, Z.pow_0_r, Z.div_1_r. lia.
Qed.

Lemma ip_mask_mapped b m :
  length b = 4%nat -> length m = 4%nat -> ip_mask (v4_in_v6_prefix ++ b) m = and_bytes b m.
Proof.
  intros Hb Hm. unfold ip_mask. cbv zeta. rewrite length_app, Hb, Hm.
  change (length v4_in_v6_prefix) with 12%nat. cbn [Nat.eqb andb Nat.add].
  rewrite take_app_length', drop_app_length' by done.
  rewrite bool_decide_eq_true_2, Hm by done. cbn [Nat.eqb andb]. by rewrite Hb.
Qed.

(** What [parse_allow_entry] builds for an IPv4 entry: a network number that
    masks to the base address, and the 4-octet mask. *)
Lemma parse_allow_entry4 entry net base k :
  parse_allow_entry entry = Some net -> entry_parts entry = Some (Addr4 base, k) ->
  0 <= base < 2 ^ 32 /\ 0 <= k <= 32 /\ net_mask net = mask_rec 4 k /\
  exists nn, to4 (net_ip net) = Some nn /\
             and_bytes nn (mask_rec 4 k) = and_bytes (be_bytes 4 base) (mask_rec 4 k).
Proof.
  unfold parse_allow_entry, entry_parts, parse_cidr, parse_ip.
  destruct (contains entry "/").
  - destruct (index_byte entry "/") as [i|]; [|done].
    destruct (parse_addr (str_take i entry)) as [a|] eqn:Ea; [|done].
    apply parse_addr_ok in Ea. intros H E.
    destruct (dtoi (str_drop (S i) entry) 0 0) as [[n j]|]; [|by repeat split_match_in H].
    injection E as -> ->. cbn [addr_zone bit_len] in H. cbn in Ea.
    destruct (negb (String.eqb "" "")) eqn:Ez; [done|].
    destruct (_ || (k <? 0) || (32 <? k)) eqn:Eb; [done|]. apply (inj Some) in H as <-. bool_prop.
    cbn [net_ip net_mask]. rewrite cidr_mask_rec. change (Z.to_nat (32 / 8)) with 4%nat.
    split; [done|]. split; [lia|]. split; [done|].
    cbn [as16]. rewrite ip_mask_mapped by (apply mask_rec_length || apply be_bytes_length).
    exists (and_bytes (be_bytes 4 base) (mask_rec 4 k)).
    rewrite and_bytes_idem. split; [|done]. apply to4_v4.
    by rewrite and_bytes_length; rewrite ?mask_rec_length, be_bytes_length.
  - intros H (a & Ea & [= <- ->])%fmap_Some. rewrite Ea in H. apply parse_addr_ok in Ea.
    cbn [addr_zone as16 String.eqb bit_len] in *. cbn in Ea.
    rewrite to4_mapped in H by apply be_bytes_length.
    rewrite length_app in H. cbn -[be_bytes cidr_mask] in H. simplify_eq.
    cbn [net_ip net_mask]. rewrite cidr_mask_rec.
    split; [done|]. split; [lia|]. split; [done|].
    exists (be_bytes 4 base). split; [|done]. apply to4_mapped, be_bytes_length.
Qed.

(** An IPv4 entry, address or CIDR, admits exactly the IPv4 clients that
    agree with it on the leading bits. *)
Lemma allow_entry4_iff entry net base k v :
  parse_allow_entry entry = Some net -> entry_parts entry = Some (Addr4 base, k) ->
  0 <= v < 2 ^ 32 ->
  net_contains net (be_bytes 4 v) = true <-> v / 2 ^ (32 - k) = base / 2 ^ (32 - k).
Proof.
  intros H E Hv. destruct (parse_allow_entry4 _ _ _ _ H E) as (Hb & Hk & Hm & nn & Hn & Ha).
  unfold net_contains, network_number_and_mask. rewrite Hn, Hm, mask_rec_length.
  cbn [Nat.eqb]. rewrite (to4_v4 (be_bytes 4 v)) by apply be_bytes_length.
  change (default (be_bytes 4 v) (Some (be_bytes 4 v))) with (be_bytes 4 v).
  rewrite be_bytes_length, (to4_length _ _ Hn). cbn [negb Nat.eqb].
  rewrite bool_decide_eq_true, Ha.
  pose proof (masked_eq_iff (be_bytes 4 base) (be_bytes 4 v) k) as M.
  rewrite !be_bytes_length in M. rewrite M; [|done|apply be_bytes_ok..|lia].
  rewrite !be_value_be_bytes by done. done.
Qed.

Lemma ParseAllowList_elem s nets n :
  ParseAllowList s = Some nets ->
  n ∈ nets <-> exists e, e ∈ SplitCSV s /\ parse_allow_entry e = Some n.
Proof.
  unfold ParseAllowList. intros H. apply mapM_Some in H.
  generalize dependent (SplitCSV s). intros l F. clear s.
  induction F as [|e m l nets He F IH]; [set_solver|].
  rewrite elem_of_cons, IH. setoid_rewrite elem_of_cons. split.
  - intros [->|(e' & ? & ?)]; eauto 6.
  - intros (e' & [->|?] & ?); [left; congruence|eauto].
Qed.

Lemma to4_as16_4 v : to4 (as16 (Addr4 v)) = Some (be_bytes 4 v).
Proof. apply to4_mapped, be_bytes_length. Qed.

(** ** Networks of IPv6 entries, which may be IPv4-mapped *)

Lemma drop_mask_rec i len n : drop i (mask_rec (i + len) n) = mask_rec len (n - 8 * Z.of_nat i).
Proof.
  revert n. induction i as [|i IH]; intros n; [by rewrite Z.sub_0_r|]. cbn [Nat.add mask_rec drop].
  rewrite IH. f_equal. lia.
Qed.

Lemma take_mask_rec i len n : take i (mask_rec (i + len) n) = mask_rec i n.
Proof. revert n. induction i as [|i IH]; intros n; [done|]. cbn [Nat.add mask_rec take]. by rewrite IH. Qed.

(** A masked number is IPv4-mapped only if the mask leaves the prefix alone. *)
Lemma mapped_prefix_len l k :
  bytes_ok l -> length l = 12%nat -> and_bytes l (mask_rec 12 k) = v4_in_v6_prefix -> 96 <= k.
Proof.
  intros Hl Hn E. destruct (Z.le_gt_cases 96 k) as [|Hk]; [done|]. exfalso.
  apply (f_equal (fun m => m !! 11%nat)) in E. unfold and_bytes in E. rewrite lookup_zip_with in E.
  destruct (lookup_lt_is_Some_2 l 11) as [x Hx]; [lia|]. rewrite Hx in E. cbn [mbind option_bind] in E.
  assert (Hm : mask_rec 12 k !! 11%nat = Some (high_mask 8 (Z.min 8 (Z.max 0 (k - 88))))).
  { cbn [mask_rec lookup list_lookup]. do 2 f_equal. lia. }
  rewrite Hm in E. injection E as E. apply (f_equal (fun z => Z.testbit z 0)) in E. rewrite Z.land_spec in E.
  set (n := Z.min 8 (Z.max 0 (k - 88))) in E. assert (Hn8 : 0 <= n <= 7) by lia.
  assert (Hev : Z.testbit (high_mask 8 n) 0 = false).
  { unfold high_mask. replace (2 ^ 8 - 2 ^ (8 - n)) with ((2 ^ 7 - 2 ^ (7 - n)) * 2).
    - rewrite <- (Z.pow_1_r 2) at 3. by apply Z.mul_pow2_bits_low.
    - replace (8 - n) with (Z.succ (7 - n)) by lia. rewrite Z.pow_succ_r by lia. lia. }
  rewrite Hev, andb_false_r in E. discriminate E.
Qed.

Lemma mapped_value v : be_value (v4_in_v6_prefix ++ be_bytes 4 v) = 0xffff * 2 ^ 32 + be_value (be_bytes 4 v).
Proof.
  unfold v4_in_v6_prefix. cbn [app]. rewrite !be_value_cons. cbn [length]. rewrite !be_bytes_length. cbn. lia.
Qed.

(** What [Contains] compares for an IPv6 entry. *)
Lemma entry6_network entry net base z k :
  parse_allow_entry entry = Some net -> entry_parts entry = Some (Addr6 base z, k) ->
  0 <= base < 2 ^ 128 /\ 0 <= k <= 128 /\
  let N := and_bytes (be_bytes 16 base) (mask_rec 16 k) in
  network_number_and_mask net =
    match to4 N with Some nn => (nn, mask_rec 4 (k - 96)) | None => (N, mask_rec 16 k) end.
Proof.
  unfold parse_allow_entry, entry_parts, parse_cidr, parse_ip. intros H E.
  destruct (contains entry "/").
  - destruct (index_byte entry "/") as [i|]; [|done].
    destruct (parse_addr (str_take i entry)) as [a|] eqn:Ea; [|done]. apply parse_addr_ok in Ea.
    destruct (dtoi (str_drop (S i) entry) 0 0) as [[n j]|]; [|by repeat split_match_in H].
    injection E as -> ->. cbn [addr_zone bit_len] in H. cbn in Ea.
    destruct (negb (String.eqb z "")); [done|]. destruct (_ || (k <? 0) || (128 <? k)) eqn:Eb; [done|].
    apply (inj Some) in H as <-. bool_prop. split; [lia|]. split; [lia|].
    rewrite cidr_mask_rec. change (Z.to_nat (128 / 8)) with 16%nat. cbn [as16].
    assert (Em : ip_mask (be_bytes 16 base) (mask_rec 16 k) = and_bytes (be_bytes 16 base) (mask_rec 16 k))
      by (unfold ip_mask; by rewrite !be_bytes_length, !mask_rec_length).
    unfold network_number_and_mask. cbn [net_ip net_mask]. rewrite Em, mask_rec_length.
    destruct (to4 _); cbn [Nat.eqb negb].
    + by rewrite (drop_mask_rec 12 4).
    + by rewrite and_bytes_length, be_bytes_length by (by rewrite be_bytes_length, mask_rec_length).
  - apply fmap_Some in E as (a & Ea & [= <- ->]). rewrite Ea in H. apply parse_addr_ok in Ea.
    cbn [addr_zone as16 bit_len] in *. cbn in Ea. destruct (String.eqb z ""); [|done].
    rewrite be_bytes_length in H. cbn [Nat.eqb] in H. split; [done|]. split; [lia|].
    assert (EN : and_bytes (be_bytes 16 base) (mask_rec 16 128) = be_bytes 16 base).
    { pose proof (and_bytes_ones (be_bytes 16 base) (be_bytes_ok 16 base)) as E. by rewrite be_bytes_length in E. }
    rewrite EN. unfold network_number_and_mask. destruct (to4 (be_bytes 16 base)) as [nn|] eqn:E4;
      apply (inj Some) in H as <-; cbn [net_ip net_mask]; rewrite E4, cidr_mask_rec, mask_rec_length; [done|].
    by rewrite be_bytes_length.
Qed.

Lemma masked_split (x : list Z) k :
  length x = 16%nat ->
  and_bytes x (mask_rec 16 k) = and_bytes (take 12 x) (mask_rec 12 k) ++ and_bytes (drop 12 x) (mask_rec 4 (k - 96)).
Proof.
  intros Hx. unfold and_bytes. rewrite <- (take_drop 12 x) at 1. rewrite <- (take_drop 12 (mask_rec 16 k)).
  rewrite (take_mask_rec 12 4), (drop_mask_rec 12 4), zip_with_app; [f_equal; f_equal; lia|].
  rewrite length_take, mask_rec_length. lia.
Qed.

(** A masked number is IPv4-mapped exactly if the number is and the mask leaves
    the prefix alone. *)
Lemma to4_masked x k nn :
  bytes_ok x -> length x = 16%nat -> to4 (and_bytes x (mask_rec 16 k)) = Some nn ->
  96 <= k /\ and_bytes (take 12 x) (mask_rec 12 k) = v4_in_v6_prefix /\ nn = and_bytes (drop 12 x) (mask_rec 4 (k - 96)).
Proof.
  intros Hb Hx E. rewrite masked_split in E by done. unfold to4 in E.
  assert (Hl : length (and_bytes (take 12 x) (mask_rec 12 k)) = 12%nat).
  { rewrite and_bytes_length; rewrite length_take, ?mask_rec_length; lia. }
  assert (Hr : length (and_bytes (drop 12 x) (mask_rec 4 (k - 96))) = 4%nat).
  { rewrite and_bytes_length; rewrite length_drop, ?mask_rec_length; lia. }
  rewrite length_app, Hl, Hr in E. cbn [Nat.add Nat.eqb andb] in E.
  rewrite take_app_length', drop_app_length' in E by done. case_bool_decide as Hp; [|done].
  injection E as <-. split; [|done]. eapply mapped_prefix_len; [..|exact Hp]; [by apply Forall_take|rewrite length_take; lia].
Qed.

Lemma mapped_ones k : 96 <= k -> and_bytes v4_in_v6_prefix (mask_rec 12 k) = v4_in_v6_prefix.
Proof.
  intros Hk. cbn [mask_rec]. repeat rewrite (Z.max_r 0) by lia. repeat rewrite (Z.min_l 8) by lia. reflexivity.
Qed.

(** Agreement of two masked IPv6 numbers. *)
Lemma masked16_iff x y k :
  bytes_ok x -> bytes_ok y -> length x = 16%nat -> length y = 16%nat -> 0 <= k <= 128 ->
  and_bytes x (mask_rec 16 k) = and_bytes y (mask_rec 16 k) <-> be_value x / 2 ^ (128 - k) = be_value y / 2 ^ (128 - k).
Proof.
  intros Hx Hy Lx Ly Hk. pose proof (masked_eq_iff x y k) as M. rewrite Lx in M.
  apply M; [congruence|done|done|lia].
Qed.

(** ** Clients *)

(** The client [c] agrees with an entry in the entry's prefix bits.  An IPv6
    entry covers IPv4 clients only if it lies within the IPv4-mapped addresses. *)
Definition covers (c : addr) (entry : addr * Z) : Prop :=
  match c, entry with
  | Addr4 v, (Addr4 b, k) => v / 2 ^ (32 - k) = b / 2 ^ (32 - k)
  | Addr4 v, (Addr6 b _, k) => 96 <= k /\ (0xffff * 2 ^ 32 + v) / 2 ^ (128 - k) = b / 2 ^ (128 - k)
  | Addr6 v _, (Addr6 b _, k) => v / 2 ^ (128 - k) = b / 2 ^ (128 - k)
  | Addr6 _ _, (Addr4 _, _) => False
  end.

(** The octets [net.ParseIP] makes of a client's address, or has made of it
    elsewhere (IPv4 in 4 octets); none for an address it refuses. *)
Definition client_octets (c : option addr) (a : ip) : Prop :=
  match c with
  | None => a = []
  | Some (Addr4 v) => 0 <= v < 2 ^ 32 /\ (a = as16 (Addr4 v) \/ a = be_bytes 4 v)
  | Some (Addr6 v _) => 0 <= v < 2 ^ 128 /\ a = be_bytes 16 v /\ to4 a = None
  end.

Lemma mapped_octets v k :
  96 <= k -> and_bytes (v4_in_v6_prefix ++ be_bytes 4 v) (mask_rec 16 k) =
             v4_in_v6_prefix ++ and_bytes (be_bytes 4 v) (mask_rec 4 (k - 96)).
Proof.
  intros Hk. rewrite masked_split by (rewrite length_app, be_bytes_length; done).
  rewrite take_app_length', drop_app_length' by done. by rewrite mapped_ones.
Qed.

Lemma mapped_ok v : bytes_ok (v4_in_v6_prefix ++ be_bytes 4 v).
Proof. apply Forall_app. split; [repeat constructor; lia|apply be_bytes_ok]. Qed.

(** An IPv4 client and an IPv6 entry. *)
Lemma allow_entry64_iff entry net b z k v :
  parse_allow_entry entry = Some net -> entry_parts entry = Some (Addr6 b z, k) -> 0 <= v < 2 ^ 32 ->
  net_contains net (be_bytes 4 v) = true <-> covers (Addr4 v) (Addr6 b z, k).
Proof.
  intros H E Hv. destruct (entry6_network _ _ _ _ _ H E) as (Hb & Hk & Hn). cbn [covers].
  set (x := v4_in_v6_prefix ++ be_bytes 4 v).
  assert (Hx : be_value x = 0xffff * 2 ^ 32 + v) by (unfold x; by rewrite mapped_value, be_value_be_bytes).
  assert (Lx : length x = 16%nat) by (unfold x; by rewrite length_app, be_bytes_length).
  pose proof (masked16_iff x (be_bytes 16 b) k (mapped_ok v) (be_bytes_ok 16 b) Lx (be_bytes_length 16 b) Hk) as M.
  rewrite Hx, be_value_be_bytes in M by done. rewrite <- M. clear M.
  unfold net_contains. rewrite Hn, (to4_v4 (be_bytes 4 v)) by apply be_bytes_length. cbv zeta.
  change (default (be_bytes 4 v) (Some (be_bytes 4 v))) with (be_bytes 4 v).
  destruct (to4 (and_bytes (be_bytes 16 b) (mask_rec 16 k))) as [nn|] eqn:E4.
  - destruct (to4_masked _ _ _ (be_bytes_ok 16 b) (be_bytes_length 16 b) E4) as (H96 & Hp & ->).
    rewrite be_bytes_length, and_bytes_length by (by rewrite length_drop, be_bytes_length, mask_rec_length).
    rewrite length_drop, be_bytes_length. cbn [Nat.sub Nat.eqb negb]. rewrite bool_decide_eq_true, and_bytes_idem.
    unfold x. rewrite mapped_octets, (masked_split (be_bytes 16 b)), Hp by (done || apply be_bytes_length).
    split; [by intros ->|]. by intros [_ Heq%app_inv_head].
  - rewrite be_bytes_length, and_bytes_length by (by rewrite be_bytes_length, mask_rec_length).
    rewrite be_bytes_length. cbn [Nat.eqb negb]. split; [done|]. intros [H96 Heq]. exfalso.
    rewrite <- Heq in E4. unfold x in E4. rewrite mapped_octets, to4_mapped in E4; [done| |done].
    by rewrite and_bytes_length; rewrite ?mask_rec_length, be_bytes_length.
Qed.

(** An IPv6 client. *)
Lemma allow_entry66_iff entry net b z k v zv :
  parse_allow_entry entry = Some net -> entry_parts entry = Some (Addr6 b z, k) -> 0 <= v < 2 ^ 128 ->
  to4 (be_bytes 16 v) = None ->
  net_contains net (be_bytes 16 v) = true <-> covers (Addr6 v zv) (Addr6 b z, k).
Proof.
  intros H E Hv H4. destruct (entry6_network _ _ _ _ _ H E) as (Hb & Hk & Hn). cbn [covers].
  pose proof (masked16_iff (be_bytes 16 v) (be_bytes 16 b) k (be_bytes_ok 16 v) (be_bytes_ok 16 b)
    (be_bytes_length 16 v) (be_bytes_length 16 b) Hk) as M.
  rewrite !be_value_be_bytes in M by done. rewrite <- M. clear M.
  unfold net_contains. rewrite Hn, H4. cbv zeta. change (default (be_bytes 16 v) None) with (be_bytes 16 v).
  destruct (to4 (and_bytes (be_bytes 16 b) (mask_rec 16 k))) as [nn|] eqn:E4.
  - cbv beta iota. rewrite be_bytes_length, (to4_length _ _ E4). cbn [Nat.eqb negb]. split; [done|]. intros Heq. exfalso.
    rewrite <- Heq in E4.
    destruct (to4_masked _ _ _ (be_bytes_ok 16 v) (be_bytes_length 16 v) E4) as (H96 & Hp & _).
    assert (Ht : take 12 (be_bytes 16 v) = v4_in_v6_prefix).
    { rewrite <- Hp. symmetry. pose proof (and_bytes_ones (take 12 (be_bytes 16 v))) as Ho.
      assert (L : length (take 12 (be_bytes 16 v)) = 12%nat) by (by rewrite length_take, be_bytes_length).
      rewrite L in Ho. rewrite <- Ho at 2 by (apply Forall_take, be_bytes_ok). f_equal.
      cbn [mask_rec]. repeat rewrite (Z.max_r 0) by lia. by repeat rewrite (Z.min_l 8) by lia. }
    unfold to4 in H4. rewrite be_bytes_length in H4. cbn [Nat.eqb andb] in H4.
    by rewrite bool_decide_eq_true_2 in H4.
  - rewrite be_bytes_length, and_bytes_length by (by rewrite be_bytes_length, mask_rec_length).
    rewrite be_bytes_length. cbn [Nat.eqb negb]. rewrite bool_decide_eq_true, and_bytes_idem.
    split; congruence.
Qed.

(** An IPv6 client and an IPv4 entry. *)
Lemma allow_entry46 entry net b k v :
  parse_allow_entry entry = Some net -> entry_parts entry = Some (Addr4 b, k) ->
  to4 (be_bytes 16 v) = None -> net_contains net (be_bytes 16 v) = false.
Proof.
  intros H E H4. destruct (parse_allow_entry4 _ _ _ _ H E) as (_ & _ & Hm & nn & Hn & _).
  unfold net_contains, network_number_and_mask. rewrite Hn, Hm, mask_rec_length, H4. cbn [Nat.eqb].
  change (default (be_bytes 16 v) None) with (be_bytes 16 v). by rewrite be_bytes_length, (to4_length _ _ Hn).
Qed.

Lemma entry_parsed entry net : parse_allow_entry entry = Some net -> exists p, entry_parts entry = Some p.
Proof.
  unfold parse_allow_entry, entry_parts, parse_cidr, parse_ip. destruct (contains entry "/").
  - destruct (index_byte entry "/") as [i|]; [|done]. destruct (parse_addr _) as [a|]; [|done].
    destruct (negb _); [done|]. destruct (dtoi _ 0 0) as [[n j]|]; [|done]. by eexists.
  - destruct (parse_addr entry) as [a|]; [|done]. by eexists.
Qed.

Lemma allow_entry_covers entry net p c a :
  parse_allow_entry entry = Some net -> entry_parts entry = Some p -> client_octets (Some c) a ->
  net_contains net (default a (to4 a)) = true <-> covers c p.
Proof.
  intros H E Ha. destruct p as [[b|b z] k], c as [v|v zv]; cbn [client_octets] in Ha.
  - destruct Ha as [Hv Ha]. assert (Ht : to4 a = Some (be_bytes 4 v)).
    { destruct Ha as [->| ->]; [apply to4_as16_4|apply to4_v4, be_bytes_length]. }
    rewrite Ht. by apply (allow_entry4_iff entry).
  - destruct Ha as (Hv & -> & H4). rewrite H4. cbn [covers default].
    change (default (be_bytes 16 v) None) with (be_bytes 16 v). by rewrite (allow_entry46 _ _ _ _ _ H E H4).
  - destruct Ha as [Hv Ha]. assert (Ht : to4 a = Some (be_bytes 4 v)).
    { destruct Ha as [->| ->]; [apply to4_as16_4|apply to4_v4, be_bytes_length]. }
    rewrite Ht. by apply (allow_entry64_iff entry).
  - destruct Ha as (Hv & -> & H4). rewrite H4. change (default (be_bytes 16 v) None) with (be_bytes 16 v).
    by apply (allow_entry66_iff entry).
Qed.

(** The nil address is in no network. *)
Lemma contains_nil entry net : parse_allow_entry entry = Some net -> net_contains net [] = false.
Proof.
  intros H. destruct (entry_parsed _ _ H) as [[[b|b z] k] E]; unfold net_contains.
  - destruct (parse_allow_entry4 _ _ _ _ H E) as (_ & _ & Hm & nn & Hn & _).
    unfold network_number_and_mask. rewrite Hn, Hm, mask_rec_length. cbn. by rewrite (to4_length _ _ Hn).
  - destruct (entry6_network _ _ _ _ _ H E) as (_ & _ & ->). destruct (to4 _) as [nn|] eqn:E4; cbn [default to4].
    + change (to4 []) with (@None ip). cbn [default]. by rewrite (to4_length _ _ E4).
    + change (to4 []) with (@None ip). cbn [default]. rewrite and_bytes_length by (by rewrite be_bytes_length, mask_rec_length).
      by rewrite be_bytes_length.
Qed.

(** C31 (ipAllowed_covers): the allow-list decision.  For every list that can be parsed, of addresses
    and ranges of both families, and every client: an empty list admits
    everybody; otherwise a client is admitted exactly when it agrees with some
    entry's address in the entry's prefix length (all bits for an address).  An
    IPv4 client is the same whether its address is held in 4 octets or
    IPv4-mapped in 16, and is covered by an IPv6 entry only within the
    IPv4-mapped addresses; an IPv6 client is not covered by IPv4 entries; and a
    client whose address cannot be parsed by no entry. *)
Theorem ipAllowed_covers s nets c a :
  ParseAllowList s = Some nets -> client_octets c a ->
  ipAllowed a nets = true <->
  SplitCSV s = [] \/
  exists e p d, e ∈ SplitCSV s /\ entry_parts e = Some p /\ c = Some d /\ covers d p.
Proof.
  intros Hp Hc. pose proof (ParseAllowList_elem s nets) as Hel.
  assert (Hnil : nets = [] <-> SplitCSV s = []).
  { unfold ParseAllowList in Hp. apply mapM_Some in Hp. destruct Hp; split; done. }
  destruct (decide (nets = [])) as [->|Hne]; [split; [by left; apply Hnil|done]|].
  rewrite ipAllowed_iff by done. split.
  - intros (n & Hn & Ht). apply (Hel n Hp) in Hn as (e & He & Hpe). destruct (entry_parsed _ _ Hpe) as [p Ep]. right.
    destruct c as [d|]; [|cbn in Hc; subst a; change (net_contains n [] = true) in Ht; by rewrite (contains_nil _ _ Hpe) in Ht].
    exists e, p, d. split_and!; [done..|]. by apply (allow_entry_covers e n p d a).
  - intros [Hs|(e & p & d & He & Ep & -> & Hcov)]; [by apply Hnil in Hs|].
    assert (exists n, n ∈ nets /\ parse_allow_entry e = Some n) as (n & Hn & Hpe).
    { unfold ParseAllowList in Hp. apply mapM_Some in Hp. apply list_elem_of_lookup in He as (i & Hi).
      destruct (Forall2_lookup_l _ _ _ _ _ Hp Hi) as (n & Hn & E).
      exists n. split; [by eapply list_elem_of_lookup_2|done]. }
    exists n. split; [done|]. by apply (allow_entry_covers e n p d a).
Qed.

(** ** Witness: a list of both families *)

Lemma ipAllowed_covers_witness :
  exists nets, ParseAllowList "10.0.0.0/8, ::1, ::ffff:192.168.0.0/112" = Some nets /\
  (ipAllowed (be_bytes 4 (192 * 2 ^ 24 + 168 * 2 ^ 16 + 7)) nets = true <->
   SplitCSV "10.0.0.0/8, ::1, ::ffff:192.168.0.0/112" = [] \/
   exists e p d, e ∈ SplitCSV "10.0.0.0/8, ::1, ::ffff:192.168.0.0/112" /\ entry_parts e = Some p /\
     Some (Addr4 (192 * 2 ^ 24 + 168 * 2 ^ 16 + 7)) = Some d /\ covers d p).
Proof.
  destruct (ParseAllowList "10.0.0.0/8, ::1, ::ffff:192.168.0.0/112") as [nets|] eqn:E; [|vm_compute in E; discriminate E].
  exists nets. split; [reflexivity|]. apply (ipAllowed_covers _ _ (Some (Addr4 _)) _ E). split; [lia|by right].
Defined.

Example ipAllowed_mapped :
  (ipAllowed (be_bytes 4 (192 * 2 ^ 24 + 168 * 2 ^ 16 + 7)) <$> ParseAllowList "10.0.0.0/8, ::1, ::ffff:192.168.0.0/112",
   ipAllowed (be_bytes 4 7) <$> ParseAllowList "::/0", ipAllowed [] <$> ParseAllowList " , ") =
  (Some true, Some false, Some true).
Proof. vm_compute. reflexivity. Qed.
