(* ===== verification/Hosts.v ===== *)
(** * Host values: [extractHost] of [dial.go], the host helpers of [direct.go]

    [sameHost] decides whether a pipelined request may use the direct
    connection dialled for another request; [dial_target] is the address
    [dialDirect] hands to the dialer.  The theorems relate the two. *)

From S2P Require Import Prelude GoStrings GoNet.

Section Hosts.
Context `{UnicodeTables}.

(** ** Operations *)

Definition extractHost (a : string) : string :=
  match split_host_port a with
  | Some (h, _) => h
  | None => a
  end.

Definition stripIPv6Brackets (host : string) : string :=
  if has_prefix host "[" && has_suffix host "]"
  then str_drop 1 (str_take (String.length host - 1) host)
  else host.

(** [canon] of [sameHost] *)
Definition canon_host (defaultPort h : string) : string :=
  let h := to_lower (trim_space h) in
  match split_host_port h with
  | Some (host, port) => join_host_port host port
  | None => join_host_port (stripIPv6Brackets h) defaultPort
  end.

Definition sameHost (a b defaultPort : string) : bool :=
  String.eqb (canon_host defaultPort a) (canon_host defaultPort b).

(** The address [dialDirect] dials. *)
Definition dial_target (host defaultPort : string) : string :=
  match split_host_port host with
  | Some _ => host
  | None => join_host_port host defaultPort
  end.

(** ** Shape of a successful [SplitHostPort] *)

Lemma has_byte_false s c : has_byte s c = false <-> no_byte c s = true.
Proof. rewrite has_byte_no_byte. destruct (no_byte c s); cbn; split; done. Qed.

Lemma str_take_pred n s : str_take (n - 1) (str_drop 1 s) = str_drop 1 (str_take n s).
Proof.
  destruct n as [|n]; [by destruct (str_drop 1 s)|]. destruct s as [|c s]; cbn.
  - by destruct (n - 0)%nat.
  - by rewrite Nat.sub_0_r.
Qed.

Lemma split_host_port_plain s h p :
  split_host_port s = Some (h, p) -> no_brackets h = true /\ plain_port p = true.
Proof.
  unfold split_host_port. destruct (last_index_byte s ":") as [i|] eqn:El; [|done].
  pose proof (last_index_byte_Some _ _ _ El) as (_ & Hc & _).
  destruct (match s with String "[" _ => true | _ => false end) eqn:Eb.
  - destruct s as [|c s']; [done|]. assert (c = "["%char) as -> by (byte_cases c; done).
    cbv beta iota. remember (String "[" s') as s eqn:Es.
    destruct (index_byte s "]") as [e|] eqn:Ee; [|done].
    pose proof (index_byte_Some _ _ _ Ee) as (_ & He & _).
    destruct (S e =? _)%nat; [done|]. destruct (Nat.eqb_spec (S e) i) as [<-|]; [|done].
    destruct (has_byte (str_drop 1 s) "[") eqn:E1; [done|].
    destruct (has_byte (str_drop (S e) s) "]") eqn:E2; [done|].
    intros Hq. assert (h = str_drop 1 (str_take e s)) as -> by congruence.
    assert (p = str_drop (S (S e)) s) as -> by congruence. clear Hq.
    apply has_byte_false in E1, E2. unfold no_brackets, plain_port.
    rewrite Hc, (no_byte_drop _ 1 _ He), andb_true_r. split.
    + rewrite <- str_take_pred. by apply no_byte_take.
    + pose proof (str_drop_drop (S e) 1 s) as D1. pose proof (str_drop_drop 1 (S e) s) as D2.
      replace (S e + 1)%nat with (S (S e)) in D1 by lia. replace (1 + S e)%nat with (S (S e)) in D2 by lia.
      rewrite <- D1 at 2. rewrite (no_byte_drop _ 1 _ E2), <- D2.
      by rewrite (no_byte_drop _ _ _ E1).
  - intros Hs. assert (G : (if has_byte (str_take i s) ":" then None
      else if has_byte s "[" then None else if has_byte s "]" then None
      else Some (str_take i s, str_drop (S i) s)) = Some (h, p)).
    { destruct s as [|c s']; [done|]. byte_cases c; done. }
    clear Hs. destruct (has_byte _ ":"); [done|].
    destruct (has_byte s "[") eqn:E1; [done|]. destruct (has_byte s "]") eqn:E2; [done|].
    assert (h = str_take i s) as -> by congruence.
    assert (p = str_drop (S i) s) as -> by congruence. apply has_byte_false in E1, E2. unfold no_brackets, plain_port.
    by rewrite !no_byte_take, Hc, !no_byte_drop.
Qed.

(** ** Lower-casing commutes with splitting *)

Definition lower (s : string) : string := str_map ascii_lower s.

Lemma ascii_lower_sep c d :
  is_upper d = false -> is_lower d = false -> Ascii.eqb (ascii_lower c) d = Ascii.eqb c d.
Proof.
  intros Hu Hl. destruct (Ascii.eqb_spec c d) as [->|Hne].
  - assert (ascii_lower d = d) as -> by (unfold ascii_lower; by rewrite Hu). apply Ascii.eqb_refl.
  - apply Ascii.eqb_neq. unfold ascii_lower. destruct (is_upper c) eqn:E; [|done].
    intros <-. unfold is_lower, is_upper, in_range in *. bool_prop.
    rewrite bval_byte_of_Z in Hl by lia. apply andb_false_iff in Hl as [?|?]; bool_prop; lia.
Qed.

Definition sep_byte (d : ascii) : Prop := is_upper d = false /\ is_lower d = false.

Lemma index_byte_lower s d : sep_byte d -> index_byte (lower s) d = index_byte s d.
Proof.
  intros [Hu Hl]. induction s as [|c s IH]; [done|]. cbn.
  rewrite ascii_lower_sep by done. by fold (lower s); rewrite IH.
Qed.

Lemma last_index_byte_lower s d : sep_byte d -> last_index_byte (lower s) d = last_index_byte s d.
Proof.
  intros [Hu Hl]. induction s as [|c s IH]; [done|]. cbn. fold (lower s).
  by rewrite ascii_lower_sep, IH by done.
Qed.

Lemma has_byte_lower s d : sep_byte d -> has_byte (lower s) d = has_byte s d.
Proof.
  intros Hd. rewrite !has_byte_no_byte. f_equal.
  pose proof (index_byte_lower s d Hd) as E.
  destruct (no_byte d s) eqn:E1.
  - apply index_byte_None in E1. rewrite E1 in E. by apply index_byte_None.
  - destruct (no_byte d (lower s)) eqn:E2; [|done].
    apply index_byte_None in E2. rewrite E2 in E. symmetry in E.
    apply index_byte_None in E. congruence.
Qed.

Lemma lower_take n s : str_take n (lower s) = lower (str_take n s).
Proof. revert s. induction n as [|n IH]; intros [|c s]; try done. cbn. by rewrite <- IH. Qed.

Lemma lower_drop n s : str_drop n (lower s) = lower (str_drop n s).
Proof. revert s. induction n as [|n IH]; intros [|c s]; try done. apply IH. Qed.

Lemma lower_length s : String.length (lower s) = String.length s.
Proof. apply str_length_map. Qed.

Lemma sep_colon : sep_byte ":". Proof. done. Qed.
Lemma sep_open : sep_byte "[". Proof. done. Qed.
Lemma sep_close : sep_byte "]". Proof. done. Qed.

Lemma split_host_port_lower s :
  split_host_port (lower s) = (fun hp => (lower hp.1, lower hp.2)) <$> split_host_port s.
Proof.
  destruct s as [|c s']; [done|].
  unfold split_host_port. rewrite last_index_byte_lower by apply sep_colon.
  destruct (last_index_byte (String c s') ":") as [i|]; [|done].
  destruct (Ascii.eqb_spec c "[") as [->|Hne].
  - change (lower (String "[" s')) with (String "[" (lower s')) at 1. cbv iota beta.
    change (String "[" (lower s')) with (lower (String "[" s')).
    rewrite index_byte_lower by apply sep_close.
    destruct (index_byte (String "[" s') "]") as [e|]; [|done].
    rewrite lower_length, !lower_take, !lower_drop, !has_byte_lower by (apply sep_open || apply sep_close).
    by repeat case_match.
  - assert (Hne' : ascii_lower c <> "["%char).
    { pose proof (ascii_lower_sep c "[" eq_refl eq_refl) as E.
      intros E'. rewrite E' in E. cbn in E. symmetry in E. apply Ascii.eqb_eq in E. done. }
    assert (R : forall (A : Type) (x y : string -> A) d t, d <> "["%char ->
      match String d t with String "[" u => x u | _ => y (String d t) end = y (String d t)).
    { intros A x y d t Hd. byte_cases d; done. }
    change (lower (String c s')) with (String (ascii_lower c) (lower s')).
    rewrite !(R _ (fun _ => _) (fun _ => _)) by done.
    change (String (ascii_lower c) (lower s')) with (lower (String c s')).
    rewrite !lower_take, !lower_drop, !has_byte_lower
      by (apply sep_open || apply sep_close || apply sep_colon).
    by repeat case_match.
Qed.

(** ** [sameHost] against the address that is dialled *)

(** The (lower-case host, port) a dial of [h] resolves to. *)
Definition endpoint (h defaultPort : string) : option (string * string) :=
  split_host_port (lower (dial_target h defaultPort)).

(** Host values with a usable dial target: host:port, or no bracket at all. *)
Definition dialable (h : string) : Prop :=
  is_Some (split_host_port h) \/ no_brackets h = true.

Definition ascii_trimmed (h : string) : Prop :=
  str_forall is_ascii_byte h = true /\ trim_space h = h.

Lemma lower_join h p : lower (join_host_port h p) = join_host_port (lower h) (lower p).
Proof.
  unfold join_host_port. rewrite has_byte_lower by apply sep_colon.
  destruct (has_byte h ":"); unfold lower; by rewrite !str_map_app.
Qed.

Lemma no_byte_lower d s : sep_byte d -> no_byte d (lower s) = no_byte d s.
Proof.
  intros Hd. pose proof (has_byte_lower s d Hd) as E. rewrite !has_byte_no_byte in E.
  by destruct (no_byte d (lower s)), (no_byte d s).
Qed.

Lemma strip_no_brackets h : no_brackets h = true -> stripIPv6Brackets h = h.
Proof.
  unfold no_brackets, stripIPv6Brackets. intros Hb. bool_prop.
  destruct (has_prefix h "[") eqn:E; [|done].
  apply has_prefix_spec in E as [t ->]. discriminate.
Qed.

Lemma canon_host_endpoint h dp :
  ascii_trimmed h -> dialable h -> plain_port dp = true -> lower dp = dp ->
  exists a b, endpoint h dp = Some (a, b) /\ canon_host dp h = join_host_port a b /\
              no_brackets a = true /\ plain_port b = true.
Proof.
  intros [Ha Ht] Hd Hp Hdp. unfold endpoint, canon_host, dial_target.
  rewrite Ht, to_lower_ascii by done. fold (lower h). rewrite (split_host_port_lower h).
  destruct (split_host_port h) as [[a b]|] eqn:E; cbn [fmap option_fmap option_map fst snd].
  - exists (lower a), (lower b). rewrite split_host_port_lower, E. cbn.
    apply split_host_port_plain in E as [H1 H2]. unfold no_brackets, plain_port in *.
    rewrite !no_byte_lower by (apply sep_open || apply sep_close || apply sep_colon). done.
  - destruct Hd as [[? Hd]|Hd]; [congruence|].
    assert (Hl : no_brackets (lower h) = true).
    { unfold no_brackets in *. by rewrite !no_byte_lower by (apply sep_open || apply sep_close). }
    exists (lower h), dp. rewrite lower_join, Hdp, split_join_host_port by done.
    by rewrite strip_no_brackets by done.
Qed.

(** Two host values are the same host exactly when dialling either of them
    reaches the same (case-folded) host and port. *)
Lemma sameHost_iff_endpoint a b dp :
  ascii_trimmed a -> ascii_trimmed b -> dialable a -> dialable b ->
  plain_port dp = true -> lower dp = dp ->
  sameHost a b dp = true <-> endpoint a dp = endpoint b dp.
Proof.
  intros Ha Hb Da Db Hp Hl.
  destruct (canon_host_endpoint a dp Ha Da Hp Hl) as (h1 & p1 & E1 & C1 & N1 & P1).
  destruct (canon_host_endpoint b dp Hb Db Hp Hl) as (h2 & p2 & E2 & C2 & N2 & P2).
  unfold sameHost. rewrite C1, C2, E1, E2, String.eqb_eq. split; [|congruence].
  intros E. rewrite <- (split_join_host_port h1 p1), <- (split_join_host_port h2 p2) by done.
  by rewrite E.
Qed.

Lemma sameHost_refl a dp : sameHost a a dp = true.
Proof. apply String.eqb_refl. Qed.

Lemma sameHost_trans a b c dp :
  sameHost a b dp = true -> sameHost b c dp = true -> sameHost a c dp = true.
Proof. unfold sameHost. rewrite !String.eqb_eq. congruence. Qed.

(** A leading '\[' whose first '\]' is not just before the last ':' is refused. *)
Lemma split_bracket_None s t e i :
  s = String "[" t -> index_byte s "]" = Some e -> last_index_byte s ":" = Some i -> S e <> i ->
  split_host_port s = None.
Proof.
  intros -> He Hi Hne. unfold split_host_port. rewrite Hi, He.
  destruct (_ =? _)%nat; [done|]. by destruct (Nat.eqb_spec (S e) i).
Qed.

Lemma split_bare_bracketed h :
  no_byte "]" h = true -> split_host_port ("[" +:+ h +:+ "]") = None.
Proof.
  intros Hb. set (s := "[" +:+ h +:+ "]"). destruct (last_index_byte s ":") as [i|] eqn:Ei.
  - eapply (split_bracket_None s (h +:+ "]") (S (String.length h)) i); try done.
    + change s with (String "[" (h +:+ String "]" "")). cbn. by rewrite index_byte_app.
    + apply last_index_byte_Some in Ei as (_ & _ & L). subst s.
      rewrite !str_length_app in L. cbn in L. lia.
  - unfold split_host_port. by rewrite Ei.
Qed.

(** a defect.  For a Host that is a bracketed IPv6 literal without a port,
    [dialDirect] dials the literal in two pairs of brackets, an address from
    which no host and port can be read. *)
Lemma bare_ipv6_dial_target h dp :
  no_brackets h = true -> no_byte ":" h = false -> plain_port dp = true ->
  dial_target ("[" +:+ h +:+ "]") dp = "[[" +:+ h +:+ "]]:" +:+ dp /\
  split_host_port (dial_target ("[" +:+ h +:+ "]") dp) = None.
Proof.
  unfold no_brackets, plain_port. intros Hb Hc Hp. bool_prop.
  unfold dial_target. rewrite split_bare_bracketed by done. unfold join_host_port.
  assert (J : has_byte ("[" +:+ h +:+ "]") ":" = true).
  { rewrite has_byte_no_byte, !no_byte_app, Hc. done. }
  rewrite J.
  assert (E1 : "[" +:+ ("[" +:+ h +:+ "]") +:+ "]:" +:+ dp = ("[[" +:+ h +:+ "]]") +:+ String ":" dp)
    by (by rewrite <- !str_app_assoc).
  assert (E2 : "[" +:+ ("[" +:+ h +:+ "]") +:+ "]:" +:+ dp =
               String "[" (String "[" (h +:+ String "]" (String "]" (String ":" dp)))))
    by (by rewrite <- !str_app_assoc).
  split; [by rewrite E1, <- !str_app_assoc|].
  eapply (split_bracket_None _ _ (S (S (String.length h)))); [exact E2| | |].
  - rewrite E2. cbn. by rewrite index_byte_app.
  - rewrite E1. by apply last_index_byte_app.
  - rewrite !str_length_app. cbn. lia.
Qed.

Lemma bare_ipv6_dial_target_witness :
  dial_target "[::1]" "80" = "[[::1]]:80" /\ split_host_port (dial_target "[::1]" "80") = None.
Proof. apply (bare_ipv6_dial_target "::1" "80"); vm_compute; reflexivity. Defined.

End Hosts.
