(* ===== verification/NoProxy.v ===== *)
(** * The no-proxy matcher: [noproxy.go] *)

From S2P Require Import Prelude GoStrings GoNet Config Hosts.

(** ** Data *)

Inductive noProxyRuleKind := ruleHostname | ruleWildcard | ruleIP | ruleCIDR | ruleAll.

(** [ip] and [prefix] are [None] when they hold Go's zero value. *)
Record noProxyRule := mk_rule {
  raw : string;
  kind : noProxyRuleKind;
  host : string;
  suffix : string;
  rule_ip : option addr;
  rule_prefix : option prefix
}.

Record NoProxyMatcher := mk_matcher { rules : list noProxyRule }.

Section NoProxy.
Context `{UnicodeTables}.

(** ** Operations *)

(** One iteration of the loop of [NewNoProxyMatcher]. *)
Definition parse_rule (pat : string) : noProxyRule :=
  if String.eqb pat "*" then mk_rule pat ruleAll "" "" None None
  else match parse_prefix pat with
  | Some p => mk_rule pat ruleCIDR "" "" None (Some p)
  | None =>
      match parse_addr pat with
      | Some a => mk_rule pat ruleIP "" "" (Some a) None
      | None =>
          let sfx := trim_prefix pat "*" in
          if has_prefix sfx "." then mk_rule pat ruleWildcard "" (to_lower sfx) None None
          else mk_rule pat ruleHostname (to_lower pat) "" None None
      end
  end.

Definition NewNoProxyMatcher (patterns : string) : NoProxyMatcher :=
  mk_matcher (parse_rule <$> SplitCSV patterns).

Definition matches (r : noProxyRule) (h : string) (hostIP : option addr) : bool :=
  match kind r with
  | ruleAll => true
  | ruleHostname => String.eqb h (host r)
  | ruleWildcard => String.eqb h (str_drop 1 (suffix r)) || has_suffix h (suffix r)
  | ruleIP => bool_decide (hostIP = rule_ip r)
  | ruleCIDR => match rule_prefix r with
                | Some p => prefix_contains p hostIP
                | None => false
                end
  end.

(** The host without its port and in lower case. *)
Definition match_host (h : string) : string :=
  to_lower (match split_host_port h with
            | Some (h, _) => h
            | None => stripIPv6Brackets h
            end).

(** The loop of [Match] over the rules. *)
Fixpoint match_rules (rs : list noProxyRule) (h : string) (hostIP : option addr) : bool * string :=
  match rs with
  | [] => (false, "")
  | r :: rs => if matches r h hostIP then (true, raw r) else match_rules rs h hostIP
  end.

Definition Match (m : NoProxyMatcher) (h : string) : bool * string :=
  let h := match_host h in
  match_rules (rules m) h (parse_addr h).

(** [cmp.Or(flag, $NO_PROXY, $no_proxy)] *)
Definition ResolveNoProxy (flagValue env_NO_PROXY env_no_proxy : string) : string :=
  if negb (String.eqb flagValue "") then flagValue
  else if negb (String.eqb env_NO_PROXY "") then env_NO_PROXY
  else env_no_proxy.

(** ** Specification *)

(** A name is [d] itself or ends in a whole label boundary followed by [d]. *)
Definition in_domain (d h : string) : Prop := h = d \/ exists sub, h = sub +:+ "." +:+ d.

(** What a single pattern denotes. *)
Definition covers (pat h : string) : Prop :=
  if String.eqb pat "*" then True
  else match parse_prefix pat, parse_addr pat with
  | Some p, _ => exists a, parse_addr h = Some a /\ prefix_contains p (Some a) = true
  | None, Some a => parse_addr h = Some a
  | None, None =>
      match trim_prefix pat "*" with
      | String "." d => in_domain (to_lower d) h
      | _ => h = to_lower pat
      end
  end.

(** Lower-casing a leading dot leaves it in place. *)
Lemma to_lower_dot d : to_lower (String "." d) = String "." (to_lower d).
Proof.
  unfold to_lower. cbn [str_forall is_ascii_byte].
  change (is_ascii_byte "." && str_forall is_ascii_byte d) with (str_forall is_ascii_byte d).
  by destruct (str_forall is_ascii_byte d).
Qed.

Lemma has_suffix_dot h d : has_suffix h (String "." d) = true <-> exists sub, h = sub +:+ "." +:+ d.
Proof. apply has_suffix_spec. Qed.

(** The compiled rule matches exactly the hosts its pattern covers. *)
Lemma matches_covers pat h :
  matches (parse_rule pat) h (parse_addr h) = true <-> covers pat h.
Proof.
  unfold parse_rule, covers. destruct (String.eqb pat "*"); [done|].
  destruct (parse_prefix pat) as [p|].
  { cbn. destruct (parse_addr h) as [a|]; split.
    - by exists a.
    - intros (a' & [= <-] & ?). done.
    - done.
    - intros (a' & ? & _). done. }
  destruct (parse_addr pat) as [a|].
  { cbn. rewrite bool_decide_eq_true. done. }
  destruct (has_prefix (trim_prefix pat "*") ".") eqn:E.
  - apply has_prefix_spec in E as [d E]. rewrite E. cbn [kind suffix matches].
    change ("." +:+ d) with (String "." d). rewrite to_lower_dot. cbn [str_drop].
    unfold matches. cbn [kind suffix str_drop].
    rewrite orb_true_iff, String.eqb_eq, has_suffix_dot. unfold in_domain.
    by destruct (to_lower d).
  - unfold matches. cbn [kind host]. rewrite String.eqb_eq.
    destruct (trim_prefix pat "*") as [|c d]; [done|].
    assert (c <> "."%char).
    { intros ->. cbn in E. by rewrite has_prefix_nil in E. }
    byte_cases c; done.
Qed.

Lemma match_rules_true rs h a :
  (match_rules rs h a).1 = true <-> exists r, r ∈ rs /\ matches r h a = true.
Proof.
  induction rs as [|r rs IH]; cbn; [set_solver|].
  destruct (matches r h a) eqn:E; cbn.
  - split; [|done]. intros _. exists r. by rewrite elem_of_cons; auto.
  - rewrite IH. setoid_rewrite elem_of_cons. split; [naive_solver|].
    intros (r' & [->|Hr] & Hm); [congruence|eauto].
Qed.

(** C30 (Match_covers): the no-proxy decision.  A host bypasses the upstream proxy exactly when some
    pattern of the list covers it: [*] covers every host, a CIDR range the
    addresses in it, an address itself, [.domain] and [*.domain] the domain and
    everything below it at a label boundary, and another pattern the host of
    that name, letter case apart. *)
Lemma Match_covers patterns h :
  (Match (NewNoProxyMatcher patterns) h).1 = true <->
  exists pat, pat ∈ SplitCSV patterns /\ covers pat (match_host h).
Proof.
  unfold Match, NewNoProxyMatcher. cbn [rules]. rewrite match_rules_true. split.
  - intros (r & (pat & -> & Hp)%list_elem_of_fmap & Hm). exists pat.
    split; [done|]. by apply matches_covers.
  - intros (pat & Hp & Hc). exists (parse_rule pat).
    split; [by apply list_elem_of_fmap_2|]. by apply matches_covers.
Qed.

Lemma parse_rule_raw pat : raw (parse_rule pat) = pat.
Proof. unfold parse_rule. by repeat case_match. Qed.

(** The reported pattern is the first one of the list that covers the host. *)
Lemma Match_first patterns h pat :
  Match (NewNoProxyMatcher patterns) h = (true, pat) ->
  exists before after, SplitCSV patterns = before ++ pat :: after /\
    covers pat (match_host h) /\ forall q, q ∈ before -> ~ covers q (match_host h).
Proof.
  unfold Match, NewNoProxyMatcher. cbn [rules].
  generalize (SplitCSV patterns) as l. intros l. induction l as [|p l IH]; cbn; [done|].
  destruct (matches (parse_rule p) (match_host h) (parse_addr (match_host h))) eqn:E.
  - rewrite parse_rule_raw. intros [= <-]. exists [], l. split_and!; [done| |set_solver].
    by apply matches_covers.
  - intros (b & a & -> & Hc & Hb)%IH. exists (p :: b), a. split_and!; [done..|].
    intros q [->|Hq]%elem_of_cons; [|by apply Hb].
    rewrite <- matches_covers. congruence.
Qed.

(** A wildcard never matches across a label boundary. *)
Lemma in_domain_boundary d h :
  in_domain d h -> h <> d -> exists sub, h = (sub +:+ ".") +:+ d.
Proof. intros [->|[sub ->]] Hne; [done|]. exists sub. by rewrite str_app_assoc. Qed.

(** The port does not matter: a host with a port matches like the bare host. *)
Lemma match_host_port h p :
  no_brackets h = true -> plain_port p = true ->
  match_host (join_host_port h p) = to_lower h.
Proof. intros Hh Hp. unfold match_host. by rewrite split_join_host_port. Qed.

Lemma match_host_bare h : no_byte ":" h = true -> no_brackets h = true -> match_host h = to_lower h.
Proof.
  intros Hc Hb. unfold match_host, split_host_port.
  apply last_index_byte_None in Hc. rewrite Hc. by rewrite strip_no_brackets.
Qed.

Lemma match_host_bracketed h :
  no_brackets h = true -> match_host ("[" +:+ h +:+ "]") = to_lower h.
Proof.
  intros Hb. unfold match_host.
  assert (Hs : stripIPv6Brackets ("[" +:+ h +:+ "]") = h).
  { unfold stripIPv6Brackets.
    assert (has_suffix ("[" +:+ h +:+ "]") "]" = true) as ->.
    { apply has_suffix_spec. exists ("[" +:+ h). by rewrite <- str_app_assoc. }
    rewrite has_prefix_app. cbn [andb].
    replace (String.length ("[" +:+ h +:+ "]") - 1)%nat with (String.length ("[" +:+ h))
      by (rewrite !str_length_app; cbn; lia).
    rewrite str_app_assoc, str_take_app. change ("[" +:+ h) with (String "[" h). cbn. by destruct h. }
  destruct (split_host_port ("[" +:+ h +:+ "]")) as [[a b]|] eqn:E; [|by rewrite Hs].
  exfalso. unfold no_brackets in Hb. bool_prop.
  destruct (last_index_byte ("[" +:+ h +:+ "]") ":") as [i|] eqn:Ei.
  - rewrite (split_bracket_None _ (h +:+ "]") (S (String.length h)) i) in E; try done.
    + change ("[" +:+ h +:+ "]") with (String "[" (h +:+ String "]" "")). cbn. by rewrite index_byte_app.
    + apply last_index_byte_Some in Ei as (_ & _ & L). rewrite !str_length_app in L. cbn in L. lia.
  - unfold split_host_port in E. by rewrite Ei in E.
Qed.

(** Precedence of the three sources. *)
Lemma ResolveNoProxy_spec f e1 e2 :
  (f <> "" -> ResolveNoProxy f e1 e2 = f) /\
  (f = "" -> e1 <> "" -> ResolveNoProxy f e1 e2 = e1) /\
  (f = "" -> e1 = "" -> ResolveNoProxy f e1 e2 = e2).
Proof.
  unfold ResolveNoProxy. split_and!.
  - by intros ->%String.eqb_neq.
  - intros -> ->%String.eqb_neq. done.
  - by intros -> ->.
Qed.

End NoProxy.
