(* ===== verification/Headers.v ===== *)
(** * Header rewriting: [headers.go]

    Via and forwarding headers, hop-by-hop sanitisation, the raw CONNECT
    answer and the local Max-Forwards answer. *)

From S2P Require Import Prelude GoStrings GoNet GoHttp Errors Config Hosts.

(** ** Operations *)

(** [randomHex(n)] for the [n] octets read from the entropy source. *)
Definition randomHex (rnd : string) : string := hex_encode rnd.

Definition generateObfuscatedID (rnd : string) : string := "_" +:+ randomHex rnd.

Definition GenerateViaPseudonym (rnd : string) : string := "spnego-proxy-" +:+ randomHex rnd.

Definition appendHeaderValue (h : header) (key value : string) : header :=
  let existing := hget h key in
  if negb (String.eqb existing "") then hset h key (existing +:+ ", " +:+ value)
  else hset h key value.

(** [rnd] is the 4 random octets of [generateObfuscatedID]. *)
Definition injectForwardingHeaders (req : request) (clientAddr : string)
    (fwdCfg : ForwardingConfig) (rnd : string) : request :=
  if negb (ForwardedEnabled fwdCfg) && negb (XForwardedForEnabled fwdCfg) then req
  else
    let h := req_header req in
    let h := if ForwardedEnabled fwdCfg
             then appendHeaderValue h headerForwarded
                    ("for=" +:+ generateObfuscatedID rnd +:+ ";proto=http")
             else h in
    let h := if XForwardedForEnabled fwdCfg then
               let h := appendHeaderValue h headerXForwardedFor (extractHost clientAddr) in
               let h := if String.eqb (hget h headerXForwardedProto) ""
                        then hset h headerXForwardedProto schemeHTTP else h in
               if String.eqb (hget h headerXForwardedHost) ""
               then hset h headerXForwardedHost (req_host req) else h
             else h in
    with_header req h.

Definition injectVia (h : header) (proto pseudonym : string) : header :=
  appendHeaderValue h headerVia (proto +:+ " " +:+ pseudonym).

(** The octets [writeConnectOK] writes. *)
Definition writeConnectOK (resp : response) : string :=
  let via := hget (resp_header resp) headerVia in
  "HTTP/" +:+ itoa (resp_major resp) +:+ "." +:+ itoa (resp_minor resp) +:+ " " +:+
  itoa (resp_code resp) +:+ " " +:+ status_text (resp_code resp) +:+ crlf +:+
  (if negb (String.eqb via "") then "Via: " +:+ via +:+ crlf else "") +:+
  crlf.

(** The field names the Connection header nominates. *)
Definition connection_tokens (h : header) : list string :=
  filter (fun name => name <> "")
    (trim_space <$> (hraw h headerConnection ≫= split_byte ",")).

Definition hop_by_hop : list string :=
  [headerConnection; headerKeepAlive; headerProxyConnection;
   headerTE; headerTrailer; headerUpgrade; headerProxyAuthorization].

Definition del_all (names : list string) (h : header) : header := fold_left hdel names h.

Definition sanitizeHopByHop (req : request) : request :=
  let h := req_header req in
  let h := del_all (connection_tokens h) h in
  let h := del_all hop_by_hop h in
  let h := if negb (length (req_te req) =? 0)%nat && negb (String.eqb (hget h headerContentLength) "")
           then hdel h headerContentLength else h in
  with_trailer (with_header req h) None.

Definition writeMaxForwardsResponse (req : request) : response :=
  let h := <[headerContentType := [contentTypeTextUTF8]]>
             (<[headerConnection := [connectionClose]]> ∅) in
  let h := if String.eqb (req_method req) "OPTIONS" then hset h headerAllow allowMethods else h in
  mk_response "" 200 "" 1 1 h [] 0 false "".

(** ** Appending to a header *)

Lemma hget_appendHeaderValue h k v :
  hget (appendHeaderValue h k v) k =
  if String.eqb (hget h k) "" then v else hget h k +:+ ", " +:+ v.
Proof.
  unfold appendHeaderValue. destruct (String.eqb (hget h k) ""); cbn [negb]; apply hget_hset.
Qed.

Lemma lookup_appendHeaderValue_ne h k v x :
  canonical_key k <> x -> appendHeaderValue h k v !! x = h !! x.
Proof.
  intros Hne. unfold appendHeaderValue.
  destruct (negb _); by apply lookup_hset_ne.
Qed.

Lemma appendHeaderValue_suffix h k v :
  exists p, hget (appendHeaderValue h k v) k = p +:+ v.
Proof.
  rewrite hget_appendHeaderValue. destruct (String.eqb (hget h k) ""); [by exists ""|].
  exists (hget h k +:+ ", "). by rewrite <- str_app_assoc.
Qed.

(** The header ends up with a single line. *)
Lemma hvalues_appendHeaderValue h k v :
  hvalues (appendHeaderValue h k v) k = [hget (appendHeaderValue h k v) k].
Proof.
  unfold appendHeaderValue, hvalues.
  destruct (negb _); by rewrite hget_hset; unfold hset; rewrite lookup_insert_eq.
Qed.

Lemma injectVia_contains h proto ps :
  contains (hget (injectVia h proto ps) headerVia) ps = true.
Proof.
  unfold injectVia. destruct (appendHeaderValue_suffix h headerVia (proto +:+ " " +:+ ps)) as [p ->].
  rewrite !str_app_assoc. apply contains_app_r.
Qed.

Lemma lookup_injectVia_ne h proto ps x : "Via" <> x -> injectVia h proto ps !! x = h !! x.
Proof. intros. by apply lookup_appendHeaderValue_ne. Qed.

(** ** Deleting names *)

Lemma del_all_lookup names h x :
  del_all names h !! x =
  if bool_decide (x ∈ canonical_key <$> names) then None else h !! x.
Proof.
  unfold del_all. revert h. induction names as [|n names IH]; intros h; [done|].
  cbn [fold_left fmap list_fmap]. rewrite IH.
  destruct (decide (canonical_key n = x)) as [E|E].
  - rewrite bool_decide_eq_true_2 with (P := x ∈ _ :: _) by (rewrite E; set_solver).
    case_bool_decide; [done|]. unfold hdel. rewrite E. apply lookup_delete_eq.
  - rewrite (bool_decide_ext (x ∈ canonical_key n :: _) (x ∈ canonical_key <$> names)) by set_solver.
    case_bool_decide; [done|]. unfold hdel. by rewrite lookup_delete_ne.
Qed.

Lemma del_all_canonical names h : canonical_header h -> canonical_header (del_all names h).
Proof.
  unfold del_all. revert h. induction names as [|n names IH]; intros h Hh; [done|].
  cbn. apply IH. auto with spnego.
Qed.

(** Canonical keys [sanitizeHopByHop] removes whatever the framing. *)
Definition removed_keys (h : header) : list string :=
  (canonical_key <$> connection_tokens h) ++ (canonical_key <$> hop_by_hop).

Lemma sanitize_pre_lookup h x :
  del_all hop_by_hop (del_all (connection_tokens h) h) !! x =
  if bool_decide (x ∈ removed_keys h) then None else h !! x.
Proof.
  rewrite !del_all_lookup. unfold removed_keys.
  destruct (decide (x ∈ canonical_key <$> connection_tokens h)) as [H1|H1];
  destruct (decide (x ∈ canonical_key <$> hop_by_hop)) as [H2|H2];
    rewrite ?(bool_decide_eq_true_2 _ H1), ?(bool_decide_eq_true_2 _ H2),
            ?(bool_decide_eq_false_2 _ H1), ?(bool_decide_eq_false_2 _ H2);
    case_bool_decide; try done; set_solver.
Qed.

(** Exact effect on every key other than Content-Length. *)
Lemma sanitize_lookup req x :
  x <> "Content-Length" ->
  req_header (sanitizeHopByHop req) !! x =
  if bool_decide (x ∈ removed_keys (req_header req)) then None else req_header req !! x.
Proof.
  intros Hx. unfold sanitizeHopByHop. cbn [req_header with_trailer with_header].
  destruct (negb _ && negb _); [|apply sanitize_pre_lookup].
  unfold hdel. rewrite lookup_delete_ne by (intros <-; done). apply sanitize_pre_lookup.
Qed.

Lemma sanitize_removed req x :
  x ∈ removed_keys (req_header req) -> req_header (sanitizeHopByHop req) !! x = None.
Proof.
  intros Hx. unfold sanitizeHopByHop. cbn [req_header with_trailer with_header].
  destruct (negb _ && negb _); [apply lookup_hdel_None|];
    rewrite sanitize_pre_lookup; by rewrite bool_decide_eq_true_2.
Qed.

Lemma sanitize_canonical req :
  canonical_header (req_header req) -> canonical_header (req_header (sanitizeHopByHop req)).
Proof.
  intros Hh. unfold sanitizeHopByHop. cbn [req_header with_trailer with_header].
  destruct (negb _ && negb _); auto using del_all_canonical with spnego.
Qed.

Lemma hop_key_removed h x : x ∈ hop_by_hop -> canonical_key x ∈ removed_keys h.
Proof. intros Hx. unfold removed_keys. apply elem_of_app. right. by apply list_elem_of_fmap_2. Qed.

(** No spelling of a hop-by-hop name survives in a header read from the wire. *)
Lemma sanitize_no_hop req n k :
  canonical_header (req_header req) -> n ∈ hop_by_hop ->
  str_map ascii_lower k = str_map ascii_lower n ->
  req_header (sanitizeHopByHop req) !! k = None.
Proof.
  intros Hc Hn Hk.
  destruct (req_header (sanitizeHopByHop req) !! k) as [v|] eqn:E; [|done]. exfalso.
  pose proof (sanitize_canonical req Hc k v E) as Hck. cbn in Hck.
  assert (Ht : str_forall is_tchar n = true).
  { unfold hop_by_hop in Hn. rewrite !elem_of_cons, elem_of_nil in Hn.
    by repeat destruct Hn as [->|Hn]. }
  assert (canonical_key n = k) as <-.
  { rewrite <- Hck. symmetry. rewrite (canonical_key_case n k); [done..|by symmetry|done]. }
  rewrite sanitize_removed in E; [done|]. by apply hop_key_removed.
Qed.

(** Framing: with a Transfer-Encoding no Content-Length value is left. *)
Lemma sanitize_te_cl req :
  req_te req <> [] -> hget (req_header (sanitizeHopByHop req)) headerContentLength = "".
Proof.
  intros Hte. unfold sanitizeHopByHop. cbn [req_header with_trailer with_header].
  destruct (Nat.eqb_spec (length (req_te req)) 0) as [E|E]; [by destruct (req_te req)|]. cbn [negb andb].
  destruct (String.eqb _ "") eqn:Ec; cbn [negb]; [by apply String.eqb_eq|apply hget_hdel].
Qed.

Lemma sanitize_fields req :
  let r := sanitizeHopByHop req in
  req_method r = req_method req /\ req_uri r = req_uri req /\ req_proto r = req_proto req /\
  req_host r = req_host req /\ req_te r = req_te req /\ req_body r = req_body req /\
  req_close r = req_close req /\ req_trailer r = None /\
  req_major r = req_major req /\ req_minor r = req_minor req.
Proof. by split_and!. Qed.

(** Sanitising twice is sanitising once. *)
Lemma connection_tokens_sanitized req : connection_tokens (req_header (sanitizeHopByHop req)) = [].
Proof.
  unfold connection_tokens, hraw.
  rewrite sanitize_removed; [done|]. apply (hop_key_removed _ headerConnection).
  unfold hop_by_hop. set_solver.
Qed.

Lemma sanitize_idem req : sanitizeHopByHop (sanitizeHopByHop req) = sanitizeHopByHop req.
Proof.
  set (r := sanitizeHopByHop req).
  assert (Hd : del_all hop_by_hop (del_all (connection_tokens (req_header r)) (req_header r)) = req_header r).
  { subst r. rewrite connection_tokens_sanitized. cbn [del_all fold_left].
    apply map_eq. intros x. rewrite del_all_lookup. case_bool_decide as Hx; [|done].
    symmetry. apply sanitize_removed. unfold removed_keys. apply elem_of_app. by right. }
  unfold sanitizeHopByHop at 1. cbv zeta. rewrite Hd.
  assert (negb (length (req_te r) =? 0)%nat && negb (String.eqb (hget (req_header r) headerContentLength) "") = false) as ->.
  { apply andb_false_iff. destruct (req_te req) eqn:Et.
    - left. subst r. destruct (sanitize_fields req) as (_ & _ & _ & _ & -> & _). by rewrite Et.
    - right. subst r. rewrite sanitize_te_cl by (by rewrite Et). done. }
  subst r. by destruct req.
Qed.

(** ** Forwarding headers *)

Definition forwarding_keys : list string :=
  ["Forwarded"; "X-Forwarded-For"; "X-Forwarded-Proto"; "X-Forwarded-Host"].

Lemma injectForwardingHeaders_other req ca cfg rnd x :
  x ∉ forwarding_keys ->
  req_header (injectForwardingHeaders req ca cfg rnd) !! x = req_header req !! x.
Proof.
  unfold forwarding_keys. intros Hx. rewrite !not_elem_of_cons in Hx.
  destruct Hx as (H1 & H2 & H3 & H4 & _).
  unfold injectForwardingHeaders. destruct (_ && _); [done|]. cbn [req_header with_header].
  destruct (ForwardedEnabled cfg), (XForwardedForEnabled cfg); repeat case_match;
    rewrite ?lookup_hset_ne, ?lookup_appendHeaderValue_ne by (intros E; by rewrite <- E in *);
    done.
Qed.

Lemma injectForwardingHeaders_fields req ca cfg rnd :
  let r := injectForwardingHeaders req ca cfg rnd in
  req_method r = req_method req /\ req_uri r = req_uri req /\ req_proto r = req_proto req /\
  req_host r = req_host req /\ req_te r = req_te req /\ req_body r = req_body req /\
  req_close r = req_close req /\ req_trailer r = req_trailer req /\
  req_major r = req_major req /\ req_minor r = req_minor req.
Proof. unfold injectForwardingHeaders. destruct (_ && _); by split_and!. Qed.

(** Forwarding headers.  With X-Forwarded-* enabled the client's address is
    appended to the X-Forwarded-For list, and X-Forwarded-Proto and
    X-Forwarded-Host are set only when the request has none, whether or not the
    Forwarded header is injected too. *)
Lemma injectForwardingHeaders_xff req ca fwd rnd :
  let h := req_header req in
  let h' := req_header (injectForwardingHeaders req ca (mk_ForwardingConfig fwd true) rnd) in
  hget h' headerXForwardedFor =
    (if String.eqb (hget h headerXForwardedFor) "" then extractHost ca
     else hget h headerXForwardedFor +:+ ", " +:+ extractHost ca) /\
  hget h' headerXForwardedProto =
    (if String.eqb (hget h headerXForwardedProto) "" then "http" else hget h headerXForwardedProto) /\
  hget h' headerXForwardedHost =
    (if String.eqb (hget h headerXForwardedHost) "" then req_host req
     else hget h headerXForwardedHost).
Proof.
  unfold injectForwardingHeaders. cbn [ForwardedEnabled XForwardedForEnabled negb].
  rewrite andb_false_r. cbn [req_header with_header].
  set (h1 := if fwd then _ else _).
  assert (Hg : forall k, canonical_key headerForwarded <> canonical_key k -> hget h1 k = hget (req_header req) k).
  { intros k Hk. subst h1. destruct fwd; [|done]. unfold hget. by rewrite lookup_appendHeaderValue_ne. }
  assert (Ha : forall k v k', canonical_key k <> canonical_key k' -> hget (appendHeaderValue h1 k v) k' = hget h1 k').
  { intros k v k' Hk. unfold hget. by rewrite lookup_appendHeaderValue_ne. }
  rewrite !(Ha headerXForwardedFor _ headerXForwardedProto), Hg by done.
  destruct (String.eqb (hget (req_header req) headerXForwardedProto) "") eqn:E1;
    [rewrite !(hget_hset_ne _ headerXForwardedProto headerXForwardedHost) by done|];
    rewrite !(Ha headerXForwardedFor _ headerXForwardedHost), Hg by done;
    (destruct (String.eqb (hget (req_header req) headerXForwardedHost) "") eqn:E2);
    rewrite ?(hget_hset_ne _ headerXForwardedHost headerXForwardedFor),
            ?(hget_hset_ne _ headerXForwardedProto headerXForwardedFor),
            ?(hget_hset_ne _ headerXForwardedHost headerXForwardedProto),
            ?(hget_hset_ne _ headerXForwardedProto headerXForwardedHost), ?hget_hset,
            ?(Ha headerXForwardedFor _ headerXForwardedProto),
            ?(Ha headerXForwardedFor _ headerXForwardedHost),
            ?hget_appendHeaderValue, ?Hg by done; done.
Qed.

Lemma generateObfuscatedID_shape rnd :
  String.length rnd = 4%nat ->
  exists hex, generateObfuscatedID rnd = String "_" hex /\ String.length hex = 8%nat /\
              str_forall is_hex_lower hex = true.
Proof.
  intros Hl. exists (hex_encode rnd). destruct (hex_encode_spec rnd) as [H1 H2].
  rewrite Hl in H1. by split_and!.
Qed.

(** Distinct entropy gives distinct pseudonyms. *)
Lemma hex_digit_inj a b : 0 <= a < 16 -> 0 <= b < 16 -> hex_digit a = hex_digit b -> a = b.
Proof.
  unfold hex_digit. intros Ha Hb E. apply (f_equal bval) in E.
  destruct (Z.ltb_spec a 10), (Z.ltb_spec b 10);
    rewrite !bval_byte_of_Z in E by lia; lia.
Qed.

Lemma hex_encode_inj s t : hex_encode s = hex_encode t -> s = t.
Proof.
  revert t. induction s as [|c s IH]; intros [|d t]; cbn; try done. intros [= E1 E2 E3].
  assert (B : forall x, 0 <= bval x / 16 < 16 /\ 0 <= bval x mod 16 < 16).
  { intros x. pose proof (bval_bounds x). split; [|apply Z.mod_pos_bound; lia].
    split; [apply Z.div_pos; lia|apply Z.div_lt_upper_bound; lia]. }
  destruct (B c), (B d). apply hex_digit_inj in E1, E2; try done.
  f_equal; [|by apply IH]. apply bval_inj.
  rewrite (Z.div_mod (bval c) 16), (Z.div_mod (bval d) 16) by lia. congruence.
Qed.

(** ** The CONNECT answer *)

(** The head written for a successful CONNECT: the status line and, when the
    response has one, its Via line; nothing else. *)
Definition connect_lines (resp : response) : list string :=
  let via := hget (resp_header resp) headerVia in
  ("HTTP/" +:+ itoa (resp_major resp) +:+ "." +:+ itoa (resp_minor resp) +:+ " " +:+
   itoa (resp_code resp) +:+ " " +:+ status_text (resp_code resp)) ::
  (if negb (String.eqb via "") then ["Via: " +:+ via] else []).

Lemma writeConnectOK_lines resp :
  writeConnectOK resp = str_concat ((fun l => l +:+ crlf) <$> connect_lines resp) +:+ crlf.
Proof.
  unfold writeConnectOK, connect_lines. destruct (negb _); cbn [fmap list_fmap str_concat];
    by rewrite ?str_app_nil_r, <- !str_app_assoc.
Qed.

Lemma digits_acc_no_crlf fuel n acc :
  no_crlf acc = true -> no_crlf (digits_acc fuel n acc) = true.
Proof.
  revert n acc. induction fuel as [|f IH]; intros n acc Ha; [done|]. cbn [digits_acc].
  pose proof (Z.mod_pos_bound n 10 ltac:(lia)) as Hm.
  assert (N : no_crlf (String (byte_of_Z (48 + n mod 10)) acc) = true).
  { destruct (digit_byte (n mod 10) Hm) as [Hd _]. unfold no_crlf in *. cbn. rewrite Ha, andb_true_r.
    revert Hd. generalize (byte_of_Z (48 + n mod 10)). intros c. byte_cases c; done. }
  destruct (n / 10 =? 0); [done|]. by apply IH.
Qed.

Lemma itoa_no_crlf n : no_crlf (itoa n) = true.
Proof.
  unfold itoa. destruct (n <? 0).
  - pose proof (digits_acc_no_crlf 20 (- n) "" eq_refl) as E. unfold no_crlf in *. cbn in E |- *. done.
  - by apply digits_acc_no_crlf.
Qed.

Lemma status_text_no_crlf code : no_crlf (status_text code) = true.
Proof. unfold status_text. repeat case_match; reflexivity. Qed.

Lemma connect_lines_no_crlf resp :
  no_crlf (hget (resp_header resp) headerVia) = true ->
  Forall (fun l => no_crlf l = true) (connect_lines resp).
Proof.
  intros Hv. unfold connect_lines. constructor.
  - rewrite !no_crlf_app, !itoa_no_crlf, status_text_no_crlf. done.
  - destruct (negb _); repeat constructor. by rewrite no_crlf_app, Hv.
Qed.
