(* ===== verification/Response.v ===== *)
(** * Upstream responses: the pure part of [response.go]

    Validation of header octets and Content-Length, the rewriting done by
    [readUpstreamResponse], and the serialisation of interim responses.  The
    loops that read from a connection are in the session model. *)

From S2P Require Import Prelude GoStrings GoHttp Errors Headers.

(** ** Operations *)

(** The two switches of [isValidFieldName]. *)
Definition field_name_byte (c : ascii) : bool :=
  in_range 97 122 c || in_range 65 90 c || in_range 48 57 c ||
  existsb (Ascii.eqb c)
    ["!"; "#"; "$"; "%"; "&"; "'"; "*"; "+"; "-"; "."; "^"; "_"; "`"; "|"; "~"]%char.

Definition isValidFieldName (name : string) : bool :=
  if String.eqb name "" then false else str_forall field_name_byte name.

(** Loop body of [hasForbiddenFieldValueByte]. *)
Definition forbidden_value_byte (c : ascii) : bool :=
  if Ascii.eqb c "009" then false else (bval c <? 32) || (bval c =? 127).

Definition hasForbiddenFieldValueByte (v : string) : bool := str_exists forbidden_value_byte v.

Definition field_ok (kv : string * list string) : bool :=
  isValidFieldName kv.1 && negb (existsb hasForbiddenFieldValueByte kv.2).

(** The map is ranged over in an unspecified order; the verdict does not
    depend on it. *)
Definition validateResponseHeaderBytes (resp : response) : option proxyError :=
  if forallb field_ok (map_to_list (resp_header resp)) then None
  else Some errMalformedResponseHeader.

(** The comma-separated Content-Length parts, trimmed and non-empty. *)
Definition content_length_parts (h : header) : list string :=
  filter (fun p => p <> "") (trim_space <$> (hraw h headerContentLength ≫= split_byte ",")).

(** [first] is [None] while [seen] is false. *)
Fixpoint check_content_lengths (first : option Z) (parts : list string) : option proxyError :=
  match parts with
  | [] => None
  | part :: parts =>
      match parse_uint64 part with
      | None => Some errInvalidContentLength
      | Some n =>
          match first with
          | None => check_content_lengths (Some n) parts
          | Some m => if n =? m then check_content_lengths first parts
                      else Some errInvalidContentLength
          end
      end
  end.

Definition validateResponseContentLength (resp : response) : option proxyError :=
  check_content_lengths None (content_length_parts (resp_header resp)).

Definition errContentLengthInvalid : error :=
  Err KContentLengthInvalid "invalid Content-Length in upstream response" None.
Definition errMalformedResponse : error :=
  Err KMalformedResponse "malformed upstream response header" None.

(** Transfer-Encoding / Content-Length conflict of a response. *)
Definition resolve_te_cl (resp : response) : response :=
  if negb (length (resp_te resp) =? 0)%nat &&
     negb (String.eqb (hget (resp_header resp) headerContentLength) "")
  then with_resp_length (with_resp_header resp (hdel (resp_header resp) headerContentLength)) (-1)
  else resp.

(** [readUpstreamResponse] on the outcome of [http.ReadResponse]. *)
Definition readUpstreamResponse (rr : error + response) (pseudonym : string) : error + response :=
  match rr with
  | inl err =>
      if contains (err_msg err) "Content-Length" then inl errContentLengthInvalid else inl err
  | inr resp =>
      match validateResponseContentLength resp with
      | Some _ => inl errContentLengthInvalid
      | None =>
          match validateResponseHeaderBytes resp with
          | Some _ => inl errMalformedResponse
          | None =>
              let resp := resolve_te_cl resp in
              let h := hdel (resp_header resp) headerProxyAuthenticate in
              inr (with_resp_header resp (injectVia h (resp_proto resp) pseudonym))
          end
      end
  end.

Definition isInterimResponse (resp : response) : bool :=
  (100 <=? resp_code resp) && (resp_code resp <? 200) && negb (resp_code resp =? 101).

Definition clientCannotParseInterim (req : request) : bool := negb (proto_at_least req 1 1).

Definition interim_excluded : list string :=
  [headerContentLength; "Transfer-Encoding"; headerTrailer].

(** The octets [relayInterimResponse] writes; [None] when it drops the
    response because the client speaks HTTP/1.0. *)
Definition interim_bytes (req : request) (resp : response) : option string :=
  if clientCannotParseInterim req then None
  else Some (resp_proto resp +:+ " " +:+ resp_status resp +:+ crlf +:+
             write_subset (resp_header resp) interim_excluded +:+ crlf).

(** Does the request carry "Expect: 100-continue"? *)
Definition expects_continue (req : request) : bool :=
  existsb (fun value =>
    existsb (fun token => equal_fold_ascii (trim_space token) "100-continue")
      (split_byte "," value))
    (hvalues (req_header req) "Expect").

(** ** Header octets *)

(** The hand-written byte tests coincide with the token table of [net/http]
    and with "control octet other than HTAB". *)
Lemma field_name_byte_tchar c : field_name_byte c = is_tchar c.
Proof. byte_cases c; reflexivity. Qed.

Lemma isValidFieldName_token name :
  isValidFieldName name = negb (String.eqb name "") && str_forall is_tchar name.
Proof.
  unfold isValidFieldName. destruct (String.eqb name ""); [done|]. cbn.
  clear. induction name as [|c s IH]; [done|]. cbn. by rewrite field_name_byte_tchar, IH.
Qed.

Definition safe_value_byte (c : ascii) : bool :=
  Ascii.eqb c "009" || in_range 32 126 c || in_range 128 255 c.

Lemma forbidden_value_byte_safe c : negb (forbidden_value_byte c) = safe_value_byte c.
Proof. byte_cases c; reflexivity. Qed.

Lemma hasForbidden_false v :
  hasForbiddenFieldValueByte v = false <-> str_forall safe_value_byte v = true.
Proof.
  unfold hasForbiddenFieldValueByte, str_exists. rewrite negb_false_iff.
  assert (E : str_forall (fun c => negb (forbidden_value_byte c)) v = str_forall safe_value_byte v).
  { induction v as [|c s IH]; [done|]. cbn. by rewrite forbidden_value_byte_safe, IH. }
  by rewrite E.
Qed.

(** A header all of whose names are tokens and whose values are free of
    control octets. *)
Definition safe_header (h : header) : Prop :=
  map_Forall (fun k vs => k <> "" /\ str_forall is_tchar k = true /\
                          Forall (fun v => str_forall safe_value_byte v = true) vs) h.

Lemma field_ok_iff k vs :
  field_ok (k, vs) = true <->
  k <> "" /\ str_forall is_tchar k = true /\
  Forall (fun v => str_forall safe_value_byte v = true) vs.
Proof.
  unfold field_ok. cbn. rewrite andb_true_iff, isValidFieldName_token, andb_true_iff.
  rewrite !negb_true_iff, String.eqb_neq.
  assert (E : existsb hasForbiddenFieldValueByte vs = false <->
              Forall (fun v => str_forall safe_value_byte v = true) vs).
  { induction vs as [|v vs IH]; cbn; [split; [constructor|done]|].
    rewrite orb_false_iff, IH, hasForbidden_false, Forall_cons. done. }
  rewrite E. tauto.
Qed.

Lemma validateResponseHeaderBytes_iff resp :
  validateResponseHeaderBytes resp = None <-> safe_header (resp_header resp).
Proof.
  unfold validateResponseHeaderBytes, safe_header, map_Forall.
  destruct (forallb field_ok _) eqn:E; (split; [|done || intros H]).
  - intros _ k vs Hk. apply field_ok_iff. rewrite forallb_forall in E. apply E.
    by apply list_elem_of_In, elem_of_map_to_list.
  - discriminate.
  - exfalso. apply not_true_iff_false in E. apply E. apply forallb_forall.
    intros [k vs] Hk. apply list_elem_of_In, elem_of_map_to_list in Hk.
    apply field_ok_iff. by apply H.
Qed.

(** ** Content-Length *)

Lemma check_content_lengths_None first parts :
  check_content_lengths first parts = None <->
  exists n, (first = None \/ first = Some n) /\
            Forall (fun p => parse_uint64 p = Some n) parts.
Proof.
  revert first. induction parts as [|p parts IH]; intros first; cbn.
  - split; [|done]. intros _. exists (default 0 first). split; [destruct first; auto|constructor].
  - destruct (parse_uint64 p) as [n|] eqn:Ep.
    2: { split; [done|]. intros (n & _ & F). inversion F; congruence. }
    destruct first as [m|].
    + destruct (Z.eqb_spec n m) as [->|Hne].
      * rewrite IH. split; intros (k & [Hk|Hk] & F); try done; exists k;
          simplify_eq; (split; [by right|]); [by constructor|by inversion F].
      * split; [done|]. intros (k & [Hk|Hk] & F); [done|]. simplify_eq.
        inversion F; by simplify_eq.
    + rewrite IH. split.
      * intros (k & [Hk|Hk] & F); [done|]. simplify_eq. exists k. split; [by left|by constructor].
      * intros (k & _ & F). inversion F as [|? ? E F']; subst. rewrite Ep in E. simplify_eq.
        exists k. split; [by right|done].
Qed.

(** Content-Length is accepted exactly when all of its values are the same
    64-bit number. *)
Lemma validateResponseContentLength_iff resp :
  validateResponseContentLength resp = None <->
  exists n, Forall (fun p => parse_uint64 p = Some n) (content_length_parts (resp_header resp)).
Proof.
  unfold validateResponseContentLength. rewrite check_content_lengths_None. naive_solver.
Qed.

(** ** What [readUpstreamResponse] lets through *)

Lemma resolve_te_cl_fields resp :
  let r := resolve_te_cl resp in
  resp_status r = resp_status resp /\ resp_code r = resp_code resp /\
  resp_proto r = resp_proto resp /\ resp_te r = resp_te resp /\
  resp_close r = resp_close resp /\ resp_body r = resp_body resp /\
  resp_major r = resp_major resp /\ resp_minor r = resp_minor resp.
Proof. unfold resolve_te_cl. destruct (_ && _); by split_and!. Qed.

Lemma resolve_te_cl_header resp :
  resp_header (resolve_te_cl resp) = resp_header resp \/
  resp_header (resolve_te_cl resp) = hdel (resp_header resp) headerContentLength.
Proof. unfold resolve_te_cl. destruct (_ && _); [by right|by left]. Qed.

Lemma resolve_te_cl_framing resp :
  resp_te resp <> [] -> hget (resp_header (resolve_te_cl resp)) headerContentLength = "".
Proof.
  intros Hte. unfold resolve_te_cl.
  destruct (Nat.eqb_spec (length (resp_te resp)) 0) as [E|E]; [by destruct (resp_te resp)|].
  cbn [negb andb]. destruct (String.eqb _ "") eqn:Ec; cbn [negb]; [by apply String.eqb_eq|].
  apply hget_hdel.
Qed.

Lemma safe_header_hdel h k : safe_header h -> safe_header (hdel h k).
Proof. apply map_Forall_delete. Qed.

Lemma safe_header_hget h k : safe_header h -> str_forall safe_value_byte (hget h k) = true.
Proof.
  intros Hs. unfold hget. destruct (h !! canonical_key k) as [[|v vs]|] eqn:E; [done| |done].
  apply Hs in E as (_ & _ & F). by inversion F.
Qed.

Lemma safe_header_injectVia h proto ps :
  safe_header h -> str_forall safe_value_byte proto = true -> str_forall safe_value_byte ps = true ->
  safe_header (injectVia h proto ps).
Proof.
  intros Hs Hp Hq. unfold injectVia, appendHeaderValue.
  assert (E : forall v, str_forall safe_value_byte v = true -> safe_header (hset h headerVia v)).
  { intros v Hv. unfold hset. apply map_Forall_insert_2; [|done]. split_and!; [done..|].
    by repeat constructor. }
  destruct (negb _); apply E; rewrite !str_forall_app, ?Hp, ?Hq, ?(safe_header_hget _ _ Hs); done.
Qed.

Lemma readUpstreamResponse_inv rr ps r' :
  readUpstreamResponse rr ps = inr r' ->
  exists resp, rr = inr resp /\ safe_header (resp_header resp) /\
    validateResponseContentLength resp = None /\
    r' = with_resp_header (resolve_te_cl resp)
           (injectVia (hdel (resp_header (resolve_te_cl resp)) headerProxyAuthenticate)
                      (resp_proto (resolve_te_cl resp)) ps).
Proof.
  unfold readUpstreamResponse. destruct rr as [e|resp]; [by case_match|].
  destruct (validateResponseContentLength resp) eqn:Ec; [done|].
  destruct (validateResponseHeaderBytes resp) eqn:Eh; [done|].
  intros [= <-]. exists resp. split_and!; try done. by apply validateResponseHeaderBytes_iff.
Qed.

(** An accepted response keeps its status, body and close flag and every
    header other than Via, Proxy-Authenticate and Content-Length; it names this
    proxy in Via, carries no Proxy-Authenticate, and has no Content-Length
    value beside a Transfer-Encoding. *)
Lemma readUpstreamResponse_ok rr ps r' :
  readUpstreamResponse rr ps = inr r' ->
  exists resp, rr = inr resp /\
    resp_code r' = resp_code resp /\ resp_body r' = resp_body resp /\
    resp_close r' = resp_close resp /\ resp_te r' = resp_te resp /\
    contains (hget (resp_header r') headerVia) ps = true /\
    resp_header r' !! "Proxy-Authenticate" = None /\
    (resp_te r' <> [] -> hget (resp_header r') headerContentLength = "") /\
    (forall k, k ∉ ["Via"; "Proxy-Authenticate"; "Content-Length"] ->
       resp_header r' !! k = resp_header resp !! k).
Proof.
  intros (resp & -> & Hs & _ & ->)%readUpstreamResponse_inv. exists resp.
  destruct (resolve_te_cl_fields resp) as (F1 & F2 & F3 & F4 & F5 & F6 & _).
  cbn [resp_code resp_body resp_close resp_te resp_header with_resp_header].
  split_and!; try done.
  - apply injectVia_contains.
  - rewrite lookup_injectVia_ne by done. apply lookup_delete_eq.
  - rewrite F4. intros Hte. unfold hget. rewrite lookup_injectVia_ne by done.
    unfold hdel. rewrite lookup_delete_ne by done. by apply resolve_te_cl_framing.
  - intros k Hk. rewrite !not_elem_of_cons in Hk. destruct Hk as (K1 & K2 & K3 & _).
    rewrite lookup_injectVia_ne by (intros <-; done). unfold hdel at 1.
    rewrite lookup_delete_ne by (intros <-; done).
    destruct (resolve_te_cl_header resp) as [->| ->]; [done|].
    unfold hdel. by rewrite lookup_delete_ne by (intros <-; done).
Qed.

Lemma readUpstreamResponse_safe rr ps r' :
  readUpstreamResponse rr ps = inr r' ->
  str_forall safe_value_byte ps = true -> str_forall safe_value_byte (resp_proto r') = true ->
  safe_header (resp_header r').
Proof.
  intros (resp & -> & Hs & _ & ->)%readUpstreamResponse_inv Hp Hq.
  cbn [resp_header with_resp_header resp_proto] in *.
  apply safe_header_injectVia; [|done..]. apply safe_header_hdel.
  destruct (resolve_te_cl_header resp) as [->| ->]; [done|]. by apply safe_header_hdel.
Qed.

(** Which error a rejected response is reported with. *)
Lemma readUpstreamResponse_error rr ps e :
  readUpstreamResponse rr ps = inl e ->
  (e = errContentLengthInvalid /\
     ((exists e0, rr = inl e0 /\ contains (err_msg e0) "Content-Length" = true) \/
      (exists resp, rr = inr resp /\ validateResponseContentLength resp <> None))) \/
  (e = errMalformedResponse /\
     exists resp, rr = inr resp /\ ~ safe_header (resp_header resp)) \/
  (rr = inl e /\ contains (err_msg e) "Content-Length" = false).
Proof.
  unfold readUpstreamResponse. destruct rr as [e0|resp].
  - destruct (contains (err_msg e0) "Content-Length") eqn:E; intros [= <-]; naive_solver.
  - destruct (validateResponseContentLength resp) eqn:Ec.
    { intros [= <-]. left. split; [done|]. right. exists resp. by rewrite Ec. }
    destruct (validateResponseHeaderBytes resp) eqn:Eh; [|done].
    intros [= <-]. right. left. split; [done|]. exists resp. split; [done|].
    rewrite <- validateResponseHeaderBytes_iff. congruence.
Qed.

(** C32 (upstream_response_checked): what is let through from the upstream proxy.  A parsed response is accepted
    exactly when its Content-Length values are one 64-bit number and all of its
    header octets are legal, and the two defects are told apart.  An accepted
    response keeps its status, body, close flag and every header other than
    Via, Proxy-Authenticate and Content-Length; it names this proxy in Via,
    carries no Proxy-Authenticate challenge, and has no Content-Length next to
    a Transfer-Encoding. *)
Theorem upstream_response_checked resp ps :
  let lengths_agree :=
    exists n, Forall (fun p => parse_uint64 p = Some n) (content_length_parts (resp_header resp)) in
  match readUpstreamResponse (inr resp) ps with
  | inl e => e = errContentLengthInvalid /\ ~ lengths_agree \/
             e = errMalformedResponse /\ lengths_agree /\ ~ safe_header (resp_header resp)
  | inr r' => lengths_agree /\ safe_header (resp_header resp) /\
      resp_code r' = resp_code resp /\ resp_body r' = resp_body resp /\ resp_close r' = resp_close resp /\
      contains (hget (resp_header r') headerVia) ps = true /\
      resp_header r' !! "Proxy-Authenticate" = None /\
      (resp_te resp <> [] -> hget (resp_header r') headerContentLength = "") /\
      (forall k, k ∉ ["Via"; "Proxy-Authenticate"; "Content-Length"] ->
         resp_header r' !! k = resp_header resp !! k)
  end.
Proof.
  cbn zeta. destruct (readUpstreamResponse (inr resp) ps) as [e|r'] eqn:E;
    rewrite <- validateResponseContentLength_iff, <- validateResponseHeaderBytes_iff.
  - unfold readUpstreamResponse in E. repeat case_match; simplify_eq; naive_solver.
  - destruct (readUpstreamResponse_inv _ _ _ E) as (r0 & [= <-] & Hs & Hc & _).
    destruct (readUpstreamResponse_ok _ _ _ E) as (r0 & [= <-] & K1 & K2 & K3 & K4 & K5 & K6 & K7 & K8).
    rewrite K4 in K7. apply validateResponseHeaderBytes_iff in Hs. by split_and!.
Qed.

(** ** Interim responses *)

(** the octets of an interim response are well framed.  What is written to the
    client is the status line and the header lines, each ended by one CRLF and
    containing no other line break, and one empty line; given a status line
    without line breaks no header value can inject a line. *)
Lemma interim_bytes_lines req resp s :
  interim_bytes req resp = Some s ->
  no_crlf (resp_proto resp) = true -> no_crlf (resp_status resp) = true ->
  exists ls, s = str_concat ((fun l => l +:+ crlf) <$> ls) +:+ crlf /\
    Forall (fun l => no_crlf l = true) ls /\
    head ls = Some (resp_proto resp +:+ " " +:+ resp_status resp).
Proof.
  unfold interim_bytes. destruct (clientCannotParseInterim req); [done|].
  intros [= <-] Hp Hs. destruct (write_subset_lines (resp_header resp) interim_excluded) as (ls & -> & F).
  exists ((resp_proto resp +:+ " " +:+ resp_status resp) :: ls). split_and!.
  - cbn. by rewrite <- !str_app_assoc.
  - constructor; [|done]. by rewrite !no_crlf_app, Hp, Hs.
  - done.
Qed.

Lemma insert_key_elem kv kv' l : kv' ∈ insert_key kv l <-> kv' = kv \/ kv' ∈ l.
Proof.
  induction l as [|x l IH]; cbn; [set_solver|]. case_match; [set_solver|].
  rewrite !elem_of_cons, IH. naive_solver.
Qed.

Lemma sorted_key_values_elem h ex k vs :
  (k, vs) ∈ sorted_key_values h ex <-> h !! k = Some vs /\ k ∉ ex.
Proof.
  unfold sorted_key_values.
  assert (E : forall l kv, kv ∈ foldr insert_key [] l <-> kv ∈ l).
  { intros l kv. induction l as [|x l IH]; [done|]. cbn. rewrite insert_key_elem, IH, elem_of_cons. done. }
  rewrite E, list_elem_of_filter, elem_of_map_to_list. cbn.
  rewrite bool_decide_spec. tauto.
Qed.

(** Body framing headers are never part of an interim response. *)
Lemma interim_excludes_framing h k vs :
  (k, vs) ∈ sorted_key_values h interim_excluded ->
  k <> "Content-Length" /\ k <> "Transfer-Encoding" /\ k <> "Trailer".
Proof.
  rewrite sorted_key_values_elem. unfold interim_excluded.
  rewrite !not_elem_of_cons. tauto.
Qed.

(** ** Witness *)

Definition demo_interim : response :=
  mk_response "103 Early Hints" 103 "HTTP/1.1" 1 1 (<["Link" := ["</a.css>; rel=preload"]]> ∅) [] 0 false "".
Definition demo_get : request :=
  mk_request "GET" "/" "HTTP/1.1" 1 1 "a.example" ∅ [] None None false.

Lemma interim_bytes_lines_witness :
  exists ls, "HTTP/1.1 103 Early Hints" +:+ crlf +:+ "Link: </a.css>; rel=preload" +:+ crlf +:+ crlf =
      str_concat ((fun l => l +:+ crlf) <$> ls) +:+ crlf /\
    Forall (fun l => no_crlf l = true) ls /\ head ls = Some "HTTP/1.1 103 Early Hints".
Proof.
  exact (interim_bytes_lines demo_get demo_interim
    ("HTTP/1.1 103 Early Hints" +:+ crlf +:+ "Link: </a.css>; rel=preload" +:+ crlf +:+ crlf)
    ltac:(vm_compute; reflexivity) eq_refl eq_refl).
Defined.
