(* ===== verification/Validate.v ===== *)
(** * Request validation: [validateRequest], [applyMaxForwards] and
    [connectionWillClose] of [forward.go] *)

From S2P Require Import Prelude GoStrings GoNet GoHttp Errors Config Hosts NoProxy Headers.

(** ** Data *)

(** [Config], less the token provider and the TLS settings, which belong to
    the environment of a session.  Durations are in nanoseconds. *)
Record Config := mk_Config {
  Upstream : string;
  Pseudonym : string;
  DialTimeout : Z;
  ReadTimeout : Z;
  KeepAlive : Z;
  IdleTimeout : Z;
  ConnectPorts : list string;
  AllowedIPs : list ip_net;
  NoProxy : option NoProxyMatcher;
  Forwarding : ForwardingConfig
}.

(** The three return shapes of [validateRequest]. *)
Inductive validation :=
| VProceed (req : request)     (* proceed=true, pe=nil *)
| VLocal (resp : response)     (* proceed=false, pe=nil: local response to write *)
| VReject (pe : proxyError).   (* proceed=false, pe!=nil *)

(** ** Operations *)

(** [inl] is the local answer, [inr] the request to forward. *)
Definition applyMaxForwards (req : request) : response + request :=
  if negb (String.eqb (req_method req) "TRACE") && negb (String.eqb (req_method req) "OPTIONS")
  then inr req
  else
    let mf := hget (req_header req) headerMaxForwards in
    if String.eqb mf "" then inr req
    else match atoi mf with
    | None => inr req
    | Some n =>
        if n <=? 0 then inl (writeMaxForwardsResponse req)
        else inr (with_header req (hset (req_header req) headerMaxForwards (itoa (n - 1))))
    end.

(** The port a CONNECT request asks for. *)
Definition connect_port (host : string) : string :=
  match split_host_port host with
  | Some (_, port) => port
  | None => "443"
  end.

Definition via_loop (pseudonym : string) (req : request) : bool :=
  let prior := hget (req_header req) headerVia in
  negb (String.eqb prior "") && contains prior pseudonym.

Definition port_denied (cfg : Config) (req : request) : bool :=
  String.eqb (req_method req) "CONNECT" && negb (length (ConnectPorts cfg) =? 0)%nat &&
  negb (connectPortAllowed (connect_port (req_host req)) (ConnectPorts cfg)).

Definition validateRequest (cfg : Config) (req : request) : validation :=
  if via_loop (Pseudonym cfg) req then VReject errProxyLoopDetected
  else if port_denied cfg req then VReject errForbiddenPort
  else match applyMaxForwards req with
  | inl resp => VLocal resp
  | inr req => VProceed (sanitizeHopByHop req)
  end.

Definition connectionWillClose (req : request) (resp : response) : bool :=
  if (req_major req =? 1) && (req_minor req =? 0) then true
  else req_close req || resp_close resp.

(** ** Max-Forwards *)

Definition is_trace_options (req : request) : bool :=
  String.eqb (req_method req) "TRACE" || String.eqb (req_method req) "OPTIONS".

Lemma applyMaxForwards_other req : is_trace_options req = false -> applyMaxForwards req = inr req.
Proof.
  unfold is_trace_options, applyMaxForwards. intros [-> ->]%orb_false_iff. done.
Qed.

(** Max-Forwards on TRACE and OPTIONS.  A count that can be read is answered
    locally when it is used up, and otherwise forwarded as one less, re-read as
    exactly that number, with every other header unchanged. *)
Lemma applyMaxForwards_count req n :
  is_trace_options req = true -> atoi (hget (req_header req) headerMaxForwards) = Some n ->
  (n <= 0 -> applyMaxForwards req = inl (writeMaxForwardsResponse req)) /\
  (0 < n -> exists req', applyMaxForwards req = inr req' /\
     atoi (hget (req_header req') headerMaxForwards) = Some (n - 1) /\
     forall k, k <> "Max-Forwards" -> req_header req' !! k = req_header req !! k).
Proof.
  intros Hm Ha. unfold applyMaxForwards.
  assert (E : negb (String.eqb (req_method req) "TRACE") && negb (String.eqb (req_method req) "OPTIONS") = false).
  { unfold is_trace_options in Hm. by rewrite <- negb_orb, Hm. }
  rewrite E. destruct (String.eqb _ "") eqn:Es.
  { apply String.eqb_eq in Es. rewrite Es in Ha. done. }
  rewrite Ha. split; intros Hn.
  - by destruct (Z.leb_spec n 0); [|lia].
  - destruct (Z.leb_spec n 0); [lia|]. eexists. split; [done|]. cbn [req_header with_header]. split.
    + rewrite hget_hset. apply atoi_itoa. apply atoi_int64 in Ha.
      unfold is_int64, min_int64, max_int64 in *. lia.
    + intros k Hk. apply lookup_hset_ne. intros <-. by apply Hk.
Qed.

Lemma applyMaxForwards_inr req req' :
  applyMaxForwards req = inr req' ->
  (forall k, k <> "Max-Forwards" -> req_header req' !! k = req_header req !! k) /\
  req_method req' = req_method req /\ req_host req' = req_host req /\
  req_te req' = req_te req /\ req_proto req' = req_proto req /\ req_body req' = req_body req /\
  req_close req' = req_close req /\ req_major req' = req_major req /\ req_minor req' = req_minor req /\
  (canonical_header (req_header req) -> canonical_header (req_header req')).
Proof.
  unfold applyMaxForwards. intros E.
  repeat split_match_in E; simplify_eq; split_and!; try done.
  - intros k Hk. apply lookup_hset_ne. by intros <-.
  - apply canonical_header_hset.
Qed.

(** [applyMaxForwards] leaves the other fields, and what Connection names. *)
Lemma applyMaxForwards_keys req req' :
  applyMaxForwards req = inr req' ->
  (forall k, k <> "Max-Forwards" -> req_header req' !! k = req_header req !! k) /\
  connection_tokens (req_header req') = connection_tokens (req_header req).
Proof.
  intros [Hk _]%applyMaxForwards_inr. split; [done|]. unfold connection_tokens, hraw. by rewrite Hk.
Qed.

(** ** The pipeline *)

Lemma validateRequest_proceed cfg req req' :
  validateRequest cfg req = VProceed req' ->
  via_loop (Pseudonym cfg) req = false /\ port_denied cfg req = false /\
  exists r, applyMaxForwards req = inr r /\ req' = sanitizeHopByHop r.
Proof.
  unfold validateRequest. destruct (via_loop _ _); [done|]. destruct (port_denied _ _); [done|].
  destruct (applyMaxForwards req) as [|r]; [done|]. intros [= <-]. eauto.
Qed.

Lemma validateRequest_fields cfg req req' :
  validateRequest cfg req = VProceed req' ->
  req_method req' = req_method req /\ req_host req' = req_host req /\
  req_proto req' = req_proto req /\ req_te req' = req_te req /\ req_body req' = req_body req /\
  req_close req' = req_close req /\ req_major req' = req_major req /\ req_minor req' = req_minor req /\
  req_trailer req' = None.
Proof.
  intros (_ & _ & r & Hr & ->)%validateRequest_proceed.
  apply applyMaxForwards_inr in Hr as (_ & ? & ? & ? & ? & ? & ? & ? & ? & _). by split_and!.
Qed.

Lemma validateRequest_local cfg req resp :
  validateRequest cfg req = VLocal resp -> resp = writeMaxForwardsResponse req.
Proof.
  unfold validateRequest, applyMaxForwards. intros E. repeat split_match_in E; by simplify_eq.
Qed.

Lemma validateRequest_reject cfg req pe :
  validateRequest cfg req = VReject pe -> pe ∈ proxy_errors.
Proof.
  unfold validateRequest. intros E. repeat split_match_in E; simplify_eq; unfold proxy_errors; set_solver.
Qed.

(** No hop-by-hop field survives validation, in any spelling. *)
Lemma validateRequest_no_hop cfg req req' n k :
  validateRequest cfg req = VProceed req' -> canonical_header (req_header req) ->
  n ∈ hop_by_hop -> str_map ascii_lower k = str_map ascii_lower n ->
  req_header req' !! k = None.
Proof.
  intros (_ & _ & r & Hr & ->)%validateRequest_proceed Hc Hn Hk.
  apply applyMaxForwards_inr in Hr as (_ & _ & _ & _ & _ & _ & _ & _ & _ & Hc').
  eapply sanitize_no_hop; eauto.
Qed.

(** Without any assumption on the header, the canonical key of a hop-by-hop
    name is gone. *)
Lemma validateRequest_hop_key cfg req req' n :
  validateRequest cfg req = VProceed req' -> n ∈ hop_by_hop ->
  req_header req' !! canonical_key n = None.
Proof.
  intros (_ & _ & r & _ & ->)%validateRequest_proceed Hn.
  by apply sanitize_removed, hop_key_removed.
Qed.

Lemma connect_port_allowed cfg req req' :
  validateRequest cfg req = VProceed req' -> req_method req = "CONNECT" ->
  connectPortAllowed (connect_port (req_host req)) (ConnectPorts cfg) = true.
Proof.
  intros (_ & Hp & _)%validateRequest_proceed Hm. unfold port_denied in Hp. rewrite Hm in Hp.
  cbn in Hp. destruct (ConnectPorts cfg) as [|p ps] eqn:E; [done|]. cbn [length Nat.eqb negb andb] in Hp.
  by apply negb_false_iff in Hp.
Qed.

(** ** Witness *)

Definition demo_trace : request :=
  mk_request "TRACE" "/" "HTTP/1.1" 1 1 "a.example" (<["Max-Forwards" := ["10"]]> ∅) [] None None false.

Lemma applyMaxForwards_count_witness :
  (10 <= 0 -> applyMaxForwards demo_trace = inl (writeMaxForwardsResponse demo_trace)) /\
  (0 < 10 -> exists req', applyMaxForwards demo_trace = inr req' /\
     atoi (hget (req_header req') headerMaxForwards) = Some 9 /\
     forall k, k <> "Max-Forwards" -> req_header req' !! k = req_header demo_trace !! k).
Proof.
  apply (applyMaxForwards_count demo_trace 10); vm_compute; reflexivity.
Defined.
