(* ===== verification/Effects.v ===== *)
(** * Effects of a session: environment, trace and the session monad

    A session talks to a client connection, dialled connections, the token
    provider, the context and the entropy source.  [Env] is the interface to
    all of them; every call is recorded, with its result, as one event of the
    trace.  The session theorems are about traces and hold for every
    environment. *)

From S2P Require Import Prelude GoStrings GoHttp Errors.

(** ** Data *)

(** Dialled connections, numbered in dial order. *)
Abbreviation conn := nat.

(** [req.WriteProxy] (absolute form) and [req.Write] (origin form). *)
Inductive wire := ProxyForm | OriginForm.

(** The upstream proxy, or a direct dial: the host it was dialled for and
    the address given to the dialer. *)
Inductive dial_kind :=
| DialUpstream
| DialDirect (bound target : string).

(** What is written to the client: a response serialised by [resp.Write], or
    octets serialised by hand, for an interim response and for a successful
    CONNECT. *)
Inductive client_msg :=
| CResponse (r : response)
| CInterim (s : string)
| CConnect (s : string).

Inductive event :=
| EvRead (r : error + request)                        (* http.ReadRequest(reqReader) *)
| EvCtx (isdone : bool)                               (* select on ctx.Done() *)
| EvToken (r : error + string)                        (* Provider.GetToken() *)
| EvDial (c : conn) (k : dial_kind) (e : option error)
| EvSend (c : conn) (f : wire) (req : request)        (* a request write starts *)
| EvSent (c : conn) (e : option error)                (* ... and its result *)
| EvPoll (c : conn) (r : option (option error))       (* select on written *)
| EvResp (c : conn) (r : error + response)            (* http.ReadResponse *)
| EvClient (m : client_msg) (e : option error)        (* a write to the client *)
| EvTunnel (c : conn)                                 (* forwardTunnel, run to its end *)
| EvRandom (s : string)                               (* crypto/rand *)
| EvReadDeadlineClient (armed : bool)
| EvReadDeadline (c : conn) (armed : bool)
| EvWriteDeadline (c : conn) (armed : bool)
| EvKeepAliveClient
| EvKeepAlive (c : conn)
| EvIdle (b : bool)                                   (* s.idle, under s.mu *)
| EvDrainClient                                       (* io.Copy(io.Discard, conn) *)
| EvClose (c : conn)
| EvCloseWriteClient
| EvCloseClient.

Class Env (W : Type) := {
  env_read_request : W -> (error + request) * W;
  env_ctx_done : W -> bool * W;
  env_get_token : W -> (error + string) * W;
  env_dial : dial_kind -> W -> option error * W;
  env_write_request : conn -> wire -> request -> W -> option error * W;
  env_start_upload : conn -> wire -> request -> W -> W;
  env_poll_upload : conn -> W -> option (option error) * W;
  env_join_upload : conn -> W -> option error * W;
  env_read_response : conn -> request -> W -> (error + response) * W;
  env_write_client : client_msg -> W -> option error * W;
  env_tunnel : conn -> W -> W;
  env_random : W -> string * W
}.

(** ** The monad *)

(** The session's mutable state: [st_proxy] is [s.proxyConn] (its reader is
    created with it), [st_next] numbers the next dialled connection. *)
Record st (W : Type) := mk_st {
  st_world : W;
  st_trace : list event;
  st_next : conn;
  st_proxy : option conn
}.
Arguments mk_st {W}.
Arguments st_world {W}.
Arguments st_trace {W}.
Arguments st_next {W}.
Arguments st_proxy {W}.

(** [OutOfFuel]: the bounded run stopped while a loop was still going. *)
Inductive outcome (A : Type) := Done (a : A) | OutOfFuel.
Arguments Done {A}.
Arguments OutOfFuel {A}.

Definition M (W A : Type) : Type := st W -> outcome A * st W.

Definition ret {W A} (a : A) : M W A := fun s => (Done a, s).

Definition bind {W A B} (m : M W A) (k : A -> M W B) : M W B := fun s =>
  match m s with
  | (Done a, s') => k a s'
  | (OutOfFuel, s') => (OutOfFuel, s')
  end.

Definition out_of_fuel {W A} : M W A := fun s => (OutOfFuel, s).

Declare Scope session_scope.
Delimit Scope session_scope with session.
Notation "x <- m ;; k" := (bind m (fun x => k))
  (at level 100, m at next level, right associativity) : session_scope.
Notation "m ;; k" := (bind m (fun _ => k))
  (at level 100, right associativity) : session_scope.
Open Scope session_scope.

Definition emit {W} (e : event) : M W unit := fun s =>
  (Done tt, mk_st (st_world s) (st_trace s ++ [e]) (st_next s) (st_proxy s)).

(** A call to the environment, recorded with its result. *)
Definition call {W X} (f : W -> X * W) (ev : X -> event) : M W X := fun s =>
  let '(x, w) := f (st_world s) in
  (Done x, mk_st w (st_trace s ++ [ev x]) (st_next s) (st_proxy s)).

Definition get_proxy {W} : M W (option conn) := fun s => (Done (st_proxy s), s).
Definition set_proxy {W} (p : option conn) : M W unit := fun s =>
  (Done tt, mk_st (st_world s) (st_trace s) (st_next s) p).

Section Prims.
Context {W : Type} `{Env W}.

Definition read_request : M W (error + request) := call env_read_request EvRead.
Definition ctx_done : M W bool := call env_ctx_done EvCtx.
Definition get_token : M W (error + string) := call env_get_token EvToken.
Definition read_response (c : conn) (req : request) : M W (error + response) :=
  call (env_read_response c req) (EvResp c).
Definition write_client (m : client_msg) : M W (option error) :=
  call (env_write_client m) (EvClient m).
Definition random : M W string := call env_random EvRandom.
Definition poll_upload (c : conn) : M W (option (option error)) :=
  call (env_poll_upload c) (EvPoll c).
Definition join_upload (c : conn) : M W (option error) :=
  call (env_join_upload c) (EvSent c).
Definition tunnel (c : conn) : M W unit :=
  call (fun w => (tt, env_tunnel c w)) (fun _ => EvTunnel c).

(** A dial takes the next connection number, whether or not it succeeds. *)
Definition dial (k : dial_kind) : M W (error + conn) := fun s =>
  let c := st_next s in
  let '(e, w) := env_dial k (st_world s) in
  (Done (match e with Some err => inl err | None => inr c end),
   mk_st w (st_trace s ++ [EvDial c k e]) (S c) (st_proxy s)).

(** A blocking request write. *)
Definition send (c : conn) (f : wire) (req : request) : M W (option error) :=
  emit (EvSend c f req) ;; call (env_write_request c f req) (EvSent c).

(** A request write running in its own goroutine. *)
Definition start_upload (c : conn) (f : wire) (req : request) : M W unit :=
  call (fun w => (tt, env_start_upload c f req w)) (fun _ => EvSend c f req).

End Prims.

(** ** A unary logic for the monad *)

(** From a state satisfying [P], a finished run satisfies [Q], and a run cut
    short by its fuel satisfies [R]. *)
Definition triple {W A} (P : st W -> Prop) (m : M W A) (Q : A -> st W -> Prop)
    (R : st W -> Prop) : Prop :=
  forall s, P s -> match m s with
                   | (Done a, s') => Q a s'
                   | (OutOfFuel, s') => R s'
                   end.

Section Logic.
Context {W : Type}.

Lemma triple_ret {A} (a : A) (P : st W -> Prop) Q R : (forall s, P s -> Q a s) -> triple P (ret a) Q R.
Proof. intros H s Hs. by apply H. Qed.

Lemma triple_bind {A B} (m : M W A) (k : A -> M W B) P Q' Q R :
  triple P m Q' R -> (forall a, triple (Q' a) (k a) Q R) -> triple P (bind m k) Q R.
Proof.
  intros Hm Hk s Hs. unfold bind. specialize (Hm s Hs).
  destruct (m s) as [[a|] s']; [by apply Hk|done].
Qed.

Lemma triple_conseq {A} (m : M W A) P P' Q Q' R R' :
  triple P' m Q' R' -> (forall s, P s -> P' s) -> (forall a s, Q' a s -> Q a s) ->
  (forall s, R' s -> R s) -> triple P m Q R.
Proof.
  intros Hm HP HQ HR s Hs. specialize (Hm s (HP s Hs)). destruct (m s) as [[a|] s']; auto.
Qed.

Lemma triple_pre {A} (m : M W A) P P' Q R :
  triple P' m Q R -> (forall s, P s -> P' s) -> triple P m Q R.
Proof. intros Hm HP s Hs. by apply Hm, HP. Qed.

Lemma triple_emit e (P : st W -> Prop) (Q : unit -> st W -> Prop) R :
  (forall s, P s -> Q tt (mk_st (st_world s) (st_trace s ++ [e]) (st_next s) (st_proxy s))) ->
  triple P (emit e) Q R.
Proof. intros H s Hs. by apply H. Qed.

Lemma triple_call {X} (f : W -> X * W) ev (P : st W -> Prop) (Q : X -> st W -> Prop) R :
  (forall s x w, P s -> f (st_world s) = (x, w) ->
     Q x (mk_st w (st_trace s ++ [ev x]) (st_next s) (st_proxy s))) ->
  triple P (call f ev) Q R.
Proof.
  intros H s Hs. unfold call. destruct (f (st_world s)) as [x w] eqn:E. by eapply H.
Qed.

Lemma triple_fuel {A} (P : st W -> Prop) (Q : A -> st W -> Prop) (R : st W -> Prop) :
  (forall s, P s -> R s) -> triple P out_of_fuel Q R.
Proof. intros H s Hs. by apply H. Qed.

End Logic.
