(* ===== verification/Session.v ===== *)
(** * A client session: [session.go], [forward.go], [direct.go], and the
    parts of [connect.go] and [response.go] that talk to connections

    The operations of [ClientSession], composed as in the source, in the
    monad of [Effects].  Logging is left out; every other effect is an event.
    Loops take a fuel argument: a run that ends in [OutOfFuel] is a prefix of
    a longer run. *)

From S2P Require Import Prelude GoStrings GoNet GoHttp Errors Config Hosts NoProxy Headers.
From S2P Require Import Response Validate Effects.

(** Outcome of [readThroughInterim]: exactly one of its three results. *)
Inductive through :=
| TResp (r : response)
| TClientErr (e : error)
| TErr (e : error).

Section Session.
Context `{UnicodeTables} {W : Type} `{Env W}.
Variable cfg : Config.
Variable clientAddr : string.

(** ** Writing to the client *)

(** [writeHTTPError(s.conn, pe)]: write failures are ignored. *)
Definition client_error (pe : proxyError) : M W unit :=
  _ <- write_client (CResponse (writeHTTPError pe)) ;; ret tt.

Definition keep_alive (c : conn) : M W unit :=
  if 0 <? KeepAlive cfg then emit EvKeepAliveClient ;; emit (EvKeepAlive c) else ret tt.

(** [writeResponse]: the response with the close flag it was written with, and
    the write error. *)
Definition writeResponse (resp : response) : M W (response * option error) :=
  isdone <- ctx_done ;;
  let resp := if (isdone : bool) then with_resp_close resp true else resp in
  e <- write_client (CResponse resp) ;;
  ret (resp, e).

Definition handleDialError (err : error) : M W unit := client_error (dial_error err).

Definition handleUpstreamResponseError (err : error) : M W unit :=
  client_error (upstream_response_error err).1.

(** ** Reading requests *)

Definition errSessionShutdown : error := Err KSessionShutdown "proxy: shutdown" None.

Definition readRequest : M W (error + request) :=
  emit (EvReadDeadlineClient true) ;;
  isdone <- ctx_done ;;
  if (isdone : bool) then ret (inl errSessionShutdown)
  else
    emit (EvIdle true) ;;
    r <- read_request ;;
    emit (EvIdle false) ;;
    emit (EvReadDeadlineClient false) ;;
    isdone <- ctx_done ;;
    if (isdone : bool) then ret (inl errSessionShutdown) else ret r.

Definition readNextRequest (iter : nat) : M W (option request) :=
  r <- readRequest ;;
  match r with
  | inr req => ret (Some req)
  | inl err =>
      if errors_is err KSessionShutdown then ret None
      else if (0 <? iter)%nat then ret None
      else if isExpectedCloseError err then ret None
      else client_error errHTTPRequestError ;; ret None
  end.

(** ** Reading responses *)

(** [relayInterimResponse] *)
Definition relayInterimResponse (req : request) (resp : response) : M W (option error) :=
  match interim_bytes req resp with
  | None => ret None
  | Some s => write_client (CInterim s)
  end.

(** [post] is what [readOne] does to the outcome of [http.ReadResponse]. *)
Fixpoint readThroughInterim (fuel : nat) (c : conn) (req : request)
    (post : error + response -> error + response) : M W through :=
  match fuel with
  | O => out_of_fuel
  | S fuel =>
      rr <- read_response c req ;;
      match post rr with
      | inl e => ret (TErr e)
      | inr resp =>
          if negb (isInterimResponse resp) then ret (TResp resp)
          else match validateResponseHeaderBytes resp with
          | Some _ => ret (TErr errMalformedResponse)
          | None =>
              werr <- relayInterimResponse req resp ;;
              match werr with
              | Some e => ret (TClientErr e)
              | None => readThroughInterim fuel c req post
              end
          end
      end
  end.

(** The [select] on [written] that joins the upload: [EvPoll] is the
    non-blocking receive and [EvSent] the blocking one; the goroutine arms the
    read deadline when its write fails. *)
Definition await_upload (c : conn) (t : through) : M W (through * option error) :=
  p <- poll_upload c ;;
  match p with
  | Some (Some e) => emit (EvReadDeadline c true) ;; ret (t, Some e)
  | Some None => ret (t, None)
  | None =>
      emit (EvReadDeadlineClient true) ;;
      emit (EvWriteDeadline c true) ;;
      j <- join_upload c ;;
      match j with
      | None =>
          emit (EvReadDeadlineClient false) ;;
          emit (EvWriteDeadline c false) ;;
          ret (match t with TResp r => TResp (with_resp_close r true) | _ => t end, None)
      | Some e =>
          emit (EvReadDeadline c true) ;;
          ret (t, match t with TResp _ => Some e | _ => None end)
      end
  end.

(** [exchangeRequest]: the read outcome and [requestWriteErr]. *)
Definition exchangeRequest (fuel : nat) (c : conn) (f : wire) (req : request)
    (post : error + response -> error + response) : M W (through * option error) :=
  if negb (bool_decide (is_Some (req_body req))) || negb (expects_continue req) then
    werr <- send c f req ;;
    match werr with
    | Some e => ret (TErr e, Some e)
    | None => t <- readThroughInterim fuel c req post ;; ret (t, None)
    end
  else
    start_upload c f req ;;
    t <- readThroughInterim fuel c req post ;;
    tw <- await_upload c t ;;
    emit (EvReadDeadline c false) ;;
    ret (match tw with
         | (TResp r, Some _) => (TResp (with_resp_close r true), None)
         | _ => tw
         end).

(** ** The upstream path *)

(** [dialAndAuthUpstream]: the connection and the request with its token. *)
Definition dialAndAuthUpstream (req : request) : M W (option (conn * request)) :=
  t <- get_token ;;
  match t with
  | inl terr => client_error (tokenErrorToProxyError terr) ;; ret None
  | inr token =>
      let req := with_header req
        (hset (req_header req) headerProxyAuthorization (negotiateScheme +:+ token)) in
      d <- dial DialUpstream ;;
      match d with
      | inl derr => handleDialError derr ;; ret None
      | inr c => keep_alive c ;; ret (Some (c, req))
      end
  end.

(** [injectForwardingHeaders] with its call to the entropy source. *)
Definition inject_forwarding (req : request) : M W request :=
  if ForwardedEnabled (Forwarding cfg) then
    rnd <- random ;; ret (injectForwardingHeaders req clientAddr (Forwarding cfg) rnd)
  else ret (injectForwardingHeaders req clientAddr (Forwarding cfg) "").

Definition inject_via (req : request) : request :=
  with_header req (injectVia (req_header req) (req_proto req) (Pseudonym cfg)).

Definition upstream_post (rr : error + response) : error + response :=
  readUpstreamResponse rr (Pseudonym cfg).

(** [s.proxyConn], dialled on first use. *)
Definition upstream_conn (req : request) : M W (option (conn * request)) :=
  p <- get_proxy ;;
  match p with
  | Some c => ret (Some (c, req))
  | None =>
      d <- dialAndAuthUpstream req ;;
      match d with
      | None => ret None
      | Some (c, req) => set_proxy (Some c) ;; ret (Some (c, req))
      end
  end.

Definition relayViaUpstream (fuel : nat) (req : request) : M W bool :=
  req <- inject_forwarding req ;;
  u <- upstream_conn req ;;
  match u with
  | None => ret false
  | Some (c, req) =>
      let req := inject_via req in
      x <- exchangeRequest fuel c ProxyForm req upstream_post ;;
      match x with
      | (_, Some _) => client_error errConnectionTerminated ;; ret false
      | (TClientErr _, None) => ret false
      | (TErr e, None) => handleUpstreamResponseError e ;; ret false
      | (TResp resp, None) =>
          w <- writeResponse resp ;;
          match w with
          | (_, Some _) => ret false
          | (resp, None) => ret (negb (connectionWillClose req resp))
          end
      end
  end.

(** [handleConnectTunnel] *)
Definition handleConnectTunnel (fuel : nat) (c : conn) (req : request) : M W unit :=
  t <- readThroughInterim fuel c req upstream_post ;;
  match t with
  | TClientErr _ => ret tt
  | TErr e => handleUpstreamResponseError e
  | TResp resp =>
      if (resp_code resp <? 200) || (300 <=? resp_code resp) then
        _ <- write_client (CResponse resp) ;; ret tt
      else
        e <- write_client (CConnect (writeConnectOK resp)) ;;
        match e with
        | Some _ => ret tt
        | None => tunnel c
        end
  end.

Definition tunnelViaUpstream (fuel : nat) (req : request) : M W unit :=
  req <- inject_forwarding req ;;
  d <- dialAndAuthUpstream req ;;
  match d with
  | None => ret tt
  | Some (c, req) =>
      let req := inject_via req in
      werr <- send c ProxyForm req ;;
      match werr with
      | Some _ => client_error errConnectionTerminated ;; emit (EvClose c)
      | None => handleConnectTunnel fuel c req ;; emit (EvClose c)
      end
  end.

(** ** The direct path *)

Definition dialDirect (host defaultPort : string) : M W (error + conn) :=
  dial (DialDirect host (dial_target host defaultPort)).

(** The [readOne] of [relayDirect]: no validation beyond [http.ReadResponse]. *)
Definition direct_post (rr : error + response) : error + response :=
  match rr with
  | inl e => inl e
  | inr resp =>
      inr (with_resp_header resp (injectVia (resp_header resp) (resp_proto resp) (Pseudonym cfg)))
  end.

Definition relayDirect (fuel : nat) (c : conn) (req : request) : M W bool :=
  x <- exchangeRequest fuel c OriginForm req direct_post ;;
  match x with
  | (_, Some _) => client_error errConnectionTerminated ;; ret false
  | (TClientErr _, None) => ret false
  | (TErr _, None) => ret false
  | (TResp resp, None) =>
      w <- writeResponse resp ;;
      match w with
      | (_, Some _) => ret false
      | (resp, None) => ret (negb (connectionWillClose req resp))
      end
  end.

(** [nextDirectRequest]: the request and its [reroute] flag. *)
Definition nextDirectRequest (boundHost : string) : M W (option (request * bool)) :=
  r <- readRequest ;;
  match r with
  | inl _ => ret None
  | inr req =>
      if negb (sameHost (req_host req) boundHost "80") then ret (Some (req, true))
      else match validateRequest cfg req with
      | VReject pe => client_error pe ;; ret None
      | VLocal resp => _ <- write_client (CResponse resp) ;; ret None
      | VProceed req =>
          if String.eqb (req_method req) "CONNECT" then
            client_error errMismatchedTarget ;; ret None
          else ret (Some (inject_via req, false))
      end
  end.

(** The keep-alive loop of [forwardDirect], from the relay of one request. *)
Fixpoint direct_loop (fuel : nat) (c : conn) (boundHost : string) (req : request)
    : M W (option request * bool) :=
  match fuel with
  | O => out_of_fuel
  | S fuel =>
      ok <- relayDirect fuel c req ;;
      if negb (ok : bool) then ret (None, false)
      else
        n <- nextDirectRequest boundHost ;;
        match n with
        | None => ret (None, false)
        | Some (req, true) => ret (Some req, true)
        | Some (req, false) => direct_loop fuel c boundHost req
        end
  end.

Definition forwardDirect (fuel : nat) (req : request) : M W (option request * bool) :=
  d <- dialDirect (req_host req) "80" ;;
  match d with
  | inl err => handleDialError err ;; ret (None, false)
  | inr c =>
      keep_alive c ;;
      r <- direct_loop fuel c (req_host req) req ;;
      emit (EvClose c) ;;
      ret r
  end.

(** The answer of [tunnelDirect]. *)
Definition connect_ok (req : request) : response :=
  mk_response "" 200 "" 1 1 (injectVia ∅ (req_proto req) (Pseudonym cfg)) [] 0 false "".

Definition tunnelDirect (req : request) : M W unit :=
  d <- dialDirect (req_host req) "443" ;;
  match d with
  | inl err => handleDialError err
  | inr c =>
      e <- write_client (CConnect (writeConnectOK (connect_ok req))) ;;
      match e with
      | Some _ => emit (EvClose c)
      | None => keep_alive c ;; tunnel c ;; emit (EvClose c)
      end
  end.

(** ** Routing and the session loop *)

Definition noproxy_match (h : string) : bool :=
  match NoProxy cfg with
  | Some m => (Match m h).1
  | None => false
  end.

Definition routeRequest (fuel : nat) (req : request) : M W (option request * bool) :=
  if noproxy_match (req_host req) then
    if String.eqb (req_method req) "CONNECT" then tunnelDirect req ;; ret (None, false)
    else forwardDirect fuel (inject_via req)
  else if String.eqb (req_method req) "CONNECT" then
    tunnelViaUpstream fuel req ;; ret (None, false)
  else
    ok <- relayViaUpstream fuel req ;;
    ret (None, ok).

(** One round of [run] on a request that has been read. *)
Definition serve_one (fuel : nat) (req : request) : M W (option request * bool) :=
  match validateRequest cfg req with
  | VReject pe => client_error pe ;; ret (None, false)
  | VLocal resp => _ <- write_client (CResponse resp) ;; ret (None, false)
  | VProceed req => routeRequest fuel req
  end.

Fixpoint run (fuel : nat) (iter : nat) (pending : option request) : M W unit :=
  match fuel with
  | O => out_of_fuel
  | S fuel =>
      r <- match pending with
           | Some req => ret (Some req)
           | None => readNextRequest iter
           end ;;
      match r with
      | None => ret tt
      | Some req =>
          x <- serve_one fuel req ;;
          match x with
          | (_, false) => ret tt
          | (next, true) => run fuel (S iter) next
          end
      end
  end.

(** ** The session entry point *)

(** The deferred close of [s.proxyConn]. *)
Definition close_proxy : M W unit :=
  p <- get_proxy ;;
  match p with
  | Some c => emit (EvClose c) ;; set_proxy None
  | None => ret tt
  end.

Definition ip_denied : bool :=
  negb (length (AllowedIPs cfg) =? 0)%nat &&
  negb (ipAllowed (parse_ip (extractHost clientAddr)) (AllowedIPs cfg)).

(** [handleClientCtx]; the two last events are the deferred half-close and
    close of the client connection, in that order. *)
Definition handleClientCtx (fuel : nat) : M W unit :=
  (if String.eqb (Pseudonym cfg) "" then ret tt
   else if ip_denied then
     client_error errClientDenied ;;
     emit (EvReadDeadlineClient true) ;;
     emit EvDrainClient
   else run fuel 0 None ;; close_proxy) ;;
  emit EvCloseWriteClient ;;
  emit EvCloseClient.

(** The state a session starts in. *)
Definition init_st (w : W) : st W := mk_st w [] 0 None.

End Session.

(** The environment of a session that is given [context.Background()], which is
    never done. *)
Definition background {W} (E : Env W) : Env W := {|
  env_read_request := env_read_request;
  env_ctx_done w := (false, w);
  env_get_token := env_get_token;
  env_dial := env_dial;
  env_write_request := env_write_request;
  env_start_upload := env_start_upload;
  env_poll_upload := env_poll_upload;
  env_join_upload := env_join_upload;
  env_read_response := env_read_response;
  env_write_client := env_write_client;
  env_tunnel := env_tunnel;
  env_random := env_random
|}.

(** [handleClient]: a session outside the shutdown of [Serve].  It is a session
    of an environment, so every theorem about [handleClientCtx] is one about
    it. *)
Definition handleClient `{UnicodeTables} {W} (E : Env W) (cfg : Config) (clientAddr : string) (fuel : nat)
  : M W unit :=
  @handleClientCtx _ W (background E) cfg clientAddr fuel.
