(* ===== verification/SessionInv.v ===== *)
(** * Session invariants

    The monitor [allowed] says which event may follow a given history; the
    invariant [Inv] says that every event of the trace was allowed when it
    happened and relates the session state to the trace.  Every operation of
    [Session] preserves it, for every environment. *)

From S2P Require Import Prelude GoStrings GoNet GoHttp Errors Config Hosts NoProxy Headers.
From S2P Require Import Response Validate Effects Session.

(** ** Histories *)

(** Connection [c] was dialled successfully and has not been closed. *)
Definition dialled (tr : list event) (c : conn) : Prop := exists k, EvDial c k None ∈ tr.
Definition opened (tr : list event) (c : conn) : Prop := dialled tr c /\ EvClose c ∉ tr.

(** A request write was started on [c]. *)
Definition sent_on (tr : list event) (c : conn) : Prop := exists f r, EvSend c f r ∈ tr.

(** No shutdown observed and no tunnel run yet. *)
Definition running (tr : list event) : Prop :=
  (EvCtx true ∉ tr) /\ (forall c, EvTunnel c ∉ tr).

Definition is_read_ok (e : event) : bool :=
  match e with EvRead (inr _) => true | _ => false end.

(** Final answers to a request: everything but interim responses. *)
Definition is_final (e : event) : bool :=
  match e with
  | EvClient (CResponse _) _ | EvClient (CConnect _) _ => true
  | _ => false
  end.

Definition count (p : event -> bool) (tr : list event) : nat := length (List.filter p tr).
Definition nreads := count is_read_ok.
Definition nfinals := count is_final.

Lemma count_snoc p tr e : count p (tr ++ [e]) = (count p tr + if p e then 1 else 0)%nat.
Proof.
  unfold count. rewrite List.filter_app, length_app. cbn. by destruct (p e).
Qed.

Section Monitor.
Context `{UnicodeTables}.
Variable cfg : Config.
Variable clientAddr : string.

(** The request with the token in its Proxy-Authorization header. *)
Definition with_token (req : request) (token : string) : request :=
  with_header req (hset (req_header req) headerProxyAuthorization (negotiateScheme +:+ token)).

(** [req] is a request read from the client, validated, with the forwarding
    headers, the token if [c] carries its first request, and Via. *)
Definition sent_upstream (tr : list event) (c : conn) (req : request) : Prop :=
  exists r0 r1 rnd,
    EvRead (inr r0) ∈ tr /\ validateRequest cfg r0 = VProceed r1 /\
    noproxy_match cfg (req_host r1) = false /\
    let r2 := injectForwardingHeaders r1 clientAddr (Forwarding cfg) rnd in
    (sent_on tr c /\ req = inject_via cfg r2) \/
    (~ sent_on tr c /\ exists token, EvToken (inr token) ∈ tr /\ req = inject_via cfg (with_token r2 token)).

(** [req] is a request read from the client, validated, with Via. *)
Definition sent_direct (tr : list event) (req : request) : Prop :=
  exists r0 r1, EvRead (inr r0) ∈ tr /\ validateRequest cfg r0 = VProceed r1 /\
    req_method r1 <> "CONNECT" /\ req = inject_via cfg r1.

(** [r1] is what the proxy makes of response [rr] of connection [c]. *)
Definition relayed (tr : list event) (c : conn) (rr r1 : response) : Prop :=
  (EvDial c DialUpstream None ∈ tr /\ upstream_post cfg (inr rr) = inr r1) \/
  (exists b t, EvDial c (DialDirect b t) None ∈ tr /\ direct_post cfg (inr rr) = inr r1).

Definition final_from (tr : list event) (c : conn) (r : response) : Prop :=
  exists rr, EvResp c (inr rr) ∈ tr /\ relayed tr c rr r /\ isInterimResponse r = false.

Definition success (r : response) : Prop := 200 <= resp_code r < 300.

(** What may be written to the client. *)
Definition client_ok (tr : list event) (m : client_msg) : Prop :=
  match m with
  | CResponse r =>
      (exists pe, pe ∈ proxy_errors /\ r = writeHTTPError pe) \/
      (exists r0, EvRead (inr r0) ∈ tr /\ r = writeMaxForwardsResponse r0) \/
      (exists c r1, final_from tr c r1 /\ (r = r1 \/ r = with_resp_close r1 true))
  | CInterim s =>
      exists c rr r1 req, EvResp c (inr rr) ∈ tr /\ relayed tr c rr r1 /\
        isInterimResponse r1 = true /\ safe_header (resp_header r1) /\
        interim_bytes req r1 = Some s
  | CConnect s =>
      exists r, s = writeConnectOK r /\ success r /\
        ((exists c, EvDial c DialUpstream None ∈ tr /\ final_from tr c r) \/
         (exists r0, EvRead (inr r0) ∈ tr /\ r = connect_ok cfg r0))
  end.

(** A tunnel may start once the client was told that CONNECT succeeded. *)
Definition tunnel_ok (tr : list event) (c : conn) : Prop :=
  exists r, EvClient (CConnect (writeConnectOK r)) None ∈ tr /\ success r /\
    (EvDial c DialUpstream None ∈ tr -> final_from tr c r).

(** A direct dial is for the host of a validated request that the no-proxy
    rules match, at its default port for the method; an upstream dial follows
    the acquisition of a token. *)
Definition dial_ok (tr : list event) (k : dial_kind) : Prop :=
  match k with
  | DialUpstream => exists token, EvToken (inr token) ∈ tr
  | DialDirect b t =>
      noproxy_match cfg b = true /\
      exists r0 r1, EvRead (inr r0) ∈ tr /\ validateRequest cfg r0 = VProceed r1 /\
        b = req_host r1 /\
        t = dial_target b (if String.eqb (req_method r1) "CONNECT" then "443" else "80")
  end.

Definition allowed (tr : list event) (e : event) : Prop :=
  match e with
  | EvRead _ => running tr /\ nreads tr = nfinals tr
  | EvToken _ => running tr
  | EvDial c k _ => running tr /\ ~ dialled tr c /\ dial_ok tr k
  | EvSend c ProxyForm req =>
      running tr /\ opened tr c /\ EvDial c DialUpstream None ∈ tr /\ sent_upstream tr c req
  | EvSend c OriginForm req =>
      running tr /\ opened tr c /\ sent_direct tr req /\
      exists b, EvDial c (DialDirect b (dial_target b "80")) None ∈ tr /\
                  sameHost (req_host req) b "80" = true /\ noproxy_match cfg b = true
  | EvResp c _ => running tr /\ opened tr c
  | EvTunnel c => running tr /\ opened tr c /\ tunnel_ok tr c
  | EvClose c => opened tr c
  | EvClient m _ => client_ok tr m
  | _ => True
  end.

Definition ok_trace (tr : list event) : Prop :=
  forall pre e post, tr = pre ++ e :: post -> allowed pre e.

Lemma ok_trace_nil : ok_trace [].
Proof. intros pre e post E. by destruct pre. Qed.

Lemma ok_trace_snoc tr e : ok_trace tr -> allowed tr e -> ok_trace (tr ++ [e]).
Proof.
  intros Htr He pre e' post. induction post as [|x post _] using rev_ind; intros E.
  - apply app_inj_tail in E as [<- <-]. done.
  - rewrite app_comm_cons, app_assoc in E. apply app_inj_tail in E as [-> _]. by eapply Htr.
Qed.

Lemma ok_trace_init tr e : ok_trace (tr ++ [e]) -> ok_trace tr /\ allowed tr e.
Proof.
  intros Ht. split; [|by apply (Ht tr e [])].
  intros pre x post ->. apply (Ht pre x (post ++ [e])). by rewrite <- app_assoc.
Qed.

Lemma ok_trace_elem tr e : ok_trace tr -> e ∈ tr -> exists pre post, tr = pre ++ e :: post /\ allowed pre e.
Proof.
  intros Htr (pre & post & ->)%list_elem_of_split. exists pre, post. split; [done|]. by eapply Htr.
Qed.

(** ** Histories only grow *)

Lemma elem_snoc_l (x y : event) tr : x ∈ tr -> x ∈ tr ++ [y].
Proof. intros. apply elem_of_app. by left. Qed.

Lemma elem_snoc_r (x : event) tr : x ∈ tr ++ [x].
Proof. apply elem_of_app. right. by apply list_elem_of_singleton. Qed.

Lemma elem_snoc (x y : event) tr : x ∈ tr ++ [y] <-> x ∈ tr \/ x = y.
Proof. by rewrite elem_of_app, list_elem_of_singleton. Qed.

Lemma dialled_mono tr e c : dialled tr c -> dialled (tr ++ [e]) c.
Proof. intros [k Hk]. exists k. by apply elem_snoc_l. Qed.

Lemma sent_on_mono tr e c : sent_on tr c -> sent_on (tr ++ [e]) c.
Proof. intros (f & r & Hk). exists f, r. by apply elem_snoc_l. Qed.

Lemma relayed_mono tr e c rr r : relayed tr c rr r -> relayed (tr ++ [e]) c rr r.
Proof.
  intros [[? ?]|(b & t & ? & ?)]; [left|right]; eauto using elem_snoc_l.
Qed.

Lemma final_from_mono tr e c r : final_from tr c r -> final_from (tr ++ [e]) c r.
Proof. intros (rr & ? & ? & ?). exists rr. eauto using elem_snoc_l, relayed_mono. Qed.

Lemma opened_snoc tr e c :
  e <> EvClose c -> opened tr c -> opened (tr ++ [e]) c.
Proof.
  intros Hne [Hd Hc]. split; [by apply dialled_mono|]. rewrite elem_snoc. intros [?|E]; congruence.
Qed.

Lemma running_snoc tr e :
  running tr -> e <> EvCtx true -> (forall c, e <> EvTunnel c) -> running (tr ++ [e]).
Proof.
  intros [H1 H2] He1 He2. split.
  - rewrite elem_snoc. intros [?|E]; congruence.
  - intros c. rewrite elem_snoc. intros [?|E]; [by eapply H2|]. by apply (He2 c).
Qed.

End Monitor.

(** ** The invariant *)

Section Inv.
Context `{UnicodeTables} {W : Type}.
Variable cfg : Config.
Variable clientAddr : string.

(** [X] are the connections held by the running operation. *)
Record Inv (X : list conn) (s : st W) : Prop := {
  inv_trace : ok_trace cfg clientAddr (st_trace s);
  inv_fresh : forall c k e, EvDial c k e ∈ st_trace s -> (c < st_next s)%nat;
  inv_open : forall c, opened (st_trace s) c <-> st_proxy s = Some c \/ c ∈ X;
  inv_proxy : forall c, st_proxy s = Some c -> EvDial c DialUpstream None ∈ st_trace s
}.

(** Appending an event that neither dials nor closes. *)
Definition neutral (e : event) : Prop :=
  match e with EvDial _ _ _ | EvClose _ => False | _ => True end.

Definition snoc (s : st W) (w : W) (e : event) : st W :=
  mk_st w (st_trace s ++ [e]) (st_next s) (st_proxy s).

Lemma Inv_snoc X s w e :
  Inv X s -> neutral e -> allowed cfg clientAddr (st_trace s) e -> Inv X (snoc s w e).
Proof.
  intros [Ht Hf Ho Hp] Hn Ha. constructor; cbn [snoc st_trace st_next st_proxy].
  - by apply ok_trace_snoc.
  - intros c k x. rewrite elem_snoc. intros [?|E]; [by eapply Hf|]. by rewrite <- E in Hn.
  - intros c. rewrite <- Ho. unfold opened, dialled. setoid_rewrite elem_snoc.
    split; intros [(k & Hk) Hc]; (split; [|by intuition (subst; auto)]).
    + destruct Hk as [Hk|Hk]; [eauto|]. by rewrite <- Hk in Hn.
    + eauto.
  - intros c Hc. apply elem_snoc_l. by apply Hp.
Qed.

Lemma Inv_close X c s w :
  Inv (c :: X) s -> c ∉ X -> st_proxy s <> Some c ->
  Inv X (snoc s w (EvClose c)).
Proof.
  intros [Ht Hf Ho Hp] HX Hne. constructor; cbn [snoc st_trace st_next st_proxy].
  - apply ok_trace_snoc; [done|]. apply Ho. right. by apply elem_of_cons; left.
  - intros d k x. rewrite elem_snoc. intros [?|E]; [by eapply Hf|]. done.
  - intros d. destruct (decide (d = c)) as [->|Hd].
    + split; [|naive_solver]. intros [_ Hc]. exfalso. apply Hc, elem_snoc_r.
    + specialize (Ho d). rewrite elem_of_cons in Ho.
      assert (opened (st_trace s ++ [EvClose c]) d <-> opened (st_trace s) d) as ->; [|naive_solver].
      unfold opened, dialled. setoid_rewrite elem_snoc. split; intros [(k & Hk) Hc]; naive_solver.
  - intros d Hd. apply elem_snoc_l. by apply Hp.
Qed.

Lemma Inv_not_dialled X s : Inv X s -> ~ dialled (st_trace s) (st_next s).
Proof. intros [_ Hf _ _] [k Hk]. apply Hf in Hk. lia. Qed.

Lemma Inv_not_closed X s c :
  Inv X s -> ~ dialled (st_trace s) c -> EvClose c ∉ st_trace s.
Proof.
  intros [Ht _ _ _] Hd Hc. destruct (ok_trace_elem _ _ _ _ Ht Hc) as (pre & post & E & Ha).
  apply Hd. destruct Ha as [[k Hk] _]. exists k. rewrite E. apply elem_of_app. by left.
Qed.

Lemma Inv_not_sent X s c :
  Inv X s -> ~ dialled (st_trace s) c -> ~ sent_on (st_trace s) c.
Proof.
  intros [Ht _ _ _] Hd (f & r & Hs). destruct (ok_trace_elem _ _ _ _ Ht Hs) as (pre & post & E & Ha).
  apply Hd. assert (dialled pre c) as [k Hk].
  { destruct f; cbn in Ha; by destruct Ha as (_ & [? _] & _). }
  exists k. rewrite E. apply elem_of_app. by left.
Qed.

Lemma Inv_proxy_lt X s c : Inv X s -> st_proxy s = Some c -> (c < st_next s)%nat.
Proof. intros [_ Hf _ Hp] Hc. eapply Hf. by apply Hp. Qed.

(** A dial: on success the new connection is held by the operation. *)
Lemma Inv_dial X s w k e :
  Inv X s -> running (st_trace s) -> dial_ok cfg (st_trace s) k ->
  Inv (match e with None => st_next s :: X | Some _ => X end)
      (mk_st w (st_trace s ++ [EvDial (st_next s) k e]) (S (st_next s)) (st_proxy s)).
Proof.
  intros HI Hr Hdk. pose proof (Inv_not_dialled _ _ HI) as Hnd.
  pose proof (Inv_not_closed _ _ _ HI Hnd) as Hnc. pose proof HI as [Ht Hf Ho Hp].
  constructor; cbn [st_trace st_next st_proxy].
  - by apply ok_trace_snoc.
  - intros c k' x. rewrite elem_snoc. intros [Hc|[= -> _ _]]; [|lia]. apply Hf in Hc. lia.
  - intros c. destruct (decide (c = st_next s)) as [->|Hne].
    + destruct e as [err|].
      * rewrite <- Ho. unfold opened, dialled. setoid_rewrite elem_snoc.
        split; intros [(k' & Hk) Hc]; naive_solver.
      * split; [|intros _; split]; [intros _; right; apply elem_of_cons; by left| |].
        -- exists k. apply elem_snoc_r.
        -- rewrite elem_snoc. naive_solver.
    + transitivity (opened (st_trace s) c).
      * unfold opened, dialled. setoid_rewrite elem_snoc. split; intros [(k' & Hk) Hc]; naive_solver.
      * rewrite Ho. destruct e; [done|]. rewrite elem_of_cons. naive_solver.
  - intros c Hc. apply elem_snoc_l. by apply Hp.
Qed.

End Inv.
