(* ===== verification/SessionSpec.v ===== *)
(** * Specifications of the session operations

    One triple per operation of [Session]: from a state of the invariant it
    ends in a state of the invariant, says whether the session may go on, and
    what it learnt. *)

From S2P Require Import Prelude GoStrings GoNet GoHttp Errors Config Hosts NoProxy Headers.
From S2P Require Import Response Validate Effects Session SessionInv.

(** ** Facts that survive further events *)

Definition stable (F : list event -> Prop) : Prop := forall tr e, F tr -> F (tr ++ [e]).

Lemma stable_true : stable (fun _ => True).
Proof. done. Qed.

Lemma stable_and F G : stable F -> stable G -> stable (fun tr => F tr /\ G tr).
Proof. intros HF HG tr e [? ?]. split; [by apply HF|by apply HG]. Qed.

Lemma stable_elem e : stable (fun tr => e ∈ tr).
Proof. intros tr x. apply elem_snoc_l. Qed.

Lemma stable_sent c : stable (fun tr => sent_on tr c).
Proof. intros tr x. apply sent_on_mono. Qed.

Lemma stable_forall {A} (P : A -> Prop) (F : A -> list event -> Prop) :
  (forall a, stable (F a)) -> stable (fun tr => forall a, P a -> F a tr).
Proof. intros HF tr e Ha a Pa. by apply HF, Ha. Qed.

Lemma stable_ex {A} (F : A -> list event -> Prop) :
  (forall a, stable (F a)) -> stable (fun tr => exists a, F a tr).
Proof. intros HF tr e [a Ha]. exists a. by apply HF. Qed.

Lemma stable_pure (P : Prop) : stable (fun _ => P).
Proof. by intros tr e. Qed.

#[export] Hint Resolve stable_true stable_and stable_elem stable_sent stable_forall stable_ex
  stable_pure : spnego.

Section Spec.
Context `{UnicodeTables} {W : Type} `{Env W}.
Variable cfg : Config.
Variable clientAddr : string.

Abbreviation Inv := (Inv (W := W) cfg clientAddr).
Abbreviation allowed := (allowed cfg clientAddr).

(** A run cut short by its fuel has a good trace. *)
Definition R0 (s : st W) : Prop := ok_trace cfg clientAddr (st_trace s).

(** The session may be over. *)
Definition Stop (F : list event -> Prop) (X : list conn) (p : option conn) (s : st W) : Prop :=
  Inv X s /\ F (st_trace s) /\ st_proxy s = p.

(** The session goes on and [b] requests wait for their answer. *)
Definition Active (F : list event -> Prop) (X : list conn) (b : nat) (p : option conn)
    (s : st W) : Prop :=
  Stop F X p s /\ running (st_trace s) /\
  nreads (st_trace s) = (nfinals (st_trace s) + b)%nat.

Lemma Active_Stop F X b p s : Active F X b p s -> Stop F X p s.
Proof. by intros [? _]. Qed.

Lemma Stop_R0 F X p s : Stop F X p s -> R0 s.
Proof. by intros [[? _ _ _] _]. Qed.

Lemma Stop_impl (F G : list event -> Prop) X p s :
  (forall tr, F tr -> G tr) -> Stop F X p s -> Stop G X p s.
Proof. intros HF (? & ? & ?). split_and!; auto. Qed.

Lemma Active_impl (F G : list event -> Prop) X b p s :
  (forall tr, F tr -> G tr) -> Active F X b p s -> Active G X b p s.
Proof. intros HF (HS & ? & ?). split_and!; [by eapply Stop_impl|done..]. Qed.

Lemma Active_and F (G : list event -> Prop) X b p s :
  Active F X b p s -> G (st_trace s) -> Active (fun tr => F tr /\ G tr) X b p s.
Proof. intros ((? & ? & ?) & ? & ?) HG. by split_and!. Qed.

(** Events that leave the session going and answer nothing. *)
Definition quiet (e : event) : Prop :=
  match e with
  | EvDial _ _ _ | EvClose _ | EvTunnel _ | EvRead (inr _) => False
  | EvCtx b => b = false
  | EvClient (CResponse _) _ | EvClient (CConnect _) _ => False
  | _ => True
  end.

Lemma Stop_snoc F X p s w e :
  stable F -> Stop F X p s -> neutral e -> allowed (st_trace s) e -> Stop F X p (snoc s w e).
Proof.
  intros HF (HI & HFs & Hp) Hn Ha. split_and!; [by apply Inv_snoc|by apply HF|done].
Qed.

Lemma Active_snoc F X b p s w e :
  stable F -> Active F X b p s -> quiet e -> allowed (st_trace s) e -> Active F X b p (snoc s w e).
Proof.
  intros HF (HS & Hr & Hb) Hq Ha. split_and!.
  - apply Stop_snoc; [done..| |done]. by destruct e.
  - apply running_snoc; [done|by intros ->|by intros c ->].
  - cbn [snoc st_trace]. unfold nreads, nfinals in *. rewrite !count_snoc.
    destruct e as [[|]| | | | | | | |[]| | | | | | | | | | | |]; cbn; (done || lia).
Qed.

Lemma held_opened F X p s c :
  Stop F X p s -> p = Some c \/ c ∈ X -> opened (st_trace s) c.
Proof. intros ([_ _ Ho _] & _ & Hp) Hc. apply Ho. by rewrite Hp. Qed.

(** ** Rules for single events *)

Lemma spec_emit_stop F X p e :
  stable F -> neutral e -> (forall s, Stop F X p s -> allowed (st_trace s) e) ->
  triple (Stop F X p) (emit e) (fun _ => Stop F X p) R0.
Proof.
  intros HF Hn Ha. apply triple_emit. intros s Hs. apply (Stop_snoc F X p s (st_world s) e); auto.
Qed.

Lemma spec_emit_active F X b p e :
  stable F -> quiet e -> (forall s, Active F X b p s -> allowed (st_trace s) e) ->
  triple (Active F X b p) (emit e) (fun _ => Active F X b p) R0.
Proof.
  intros HF Hn Ha. apply triple_emit. intros s Hs. apply (Active_snoc F X b p s (st_world s) e); auto.
Qed.

(** Closing a connection the operation holds. *)
Lemma spec_close F X p c :
  stable F -> c ∉ X -> p <> Some c ->
  triple (Stop F (c :: X) p) (emit (EvClose c)) (fun _ => Stop F X p) R0.
Proof.
  intros HF HX Hp. apply triple_emit. intros s (HI & HFs & Hps).
  split_and!; [|by apply HF|done].
  apply (Inv_close cfg clientAddr X c s (st_world s)); [done..|]. by rewrite Hps.
Qed.

Lemma spec_close_active F X b p c :
  stable F -> c ∉ X -> p <> Some c ->
  triple (Active F (c :: X) b p) (emit (EvClose c)) (fun _ => Active F X b p) R0.
Proof.
  intros HF HX Hp. apply triple_emit. intros s ((HI & HFs & Hps) & Hr & Hb).
  split_and!; [split_and!; [|by apply HF|done]| |].
  - apply (Inv_close cfg clientAddr X c s (st_world s)); [done..|]. by rewrite Hps.
  - by apply running_snoc.
  - cbn [st_trace]. unfold nreads, nfinals in *. rewrite !count_snoc. cbn. lia.
Qed.

Lemma spec_write_client F X p m :
  stable F ->
  triple (fun s => Stop F X p s /\ client_ok cfg (st_trace s) m) (write_client m)
    (fun e s => Stop F X p s /\ EvClient m e ∈ st_trace s) R0.
Proof.
  intros HF. apply triple_call. intros s e w [Hs Hm] _. split; [|apply elem_snoc_r].
  by apply (Stop_snoc F X p s w (EvClient m e)).
Qed.

(** Any entry of the error catalogue may be written at any time. *)
Lemma spec_client_error F X p pe :
  stable F -> pe ∈ proxy_errors ->
  triple (Stop F X p) (client_error pe) (fun _ => Stop F X p) R0.
Proof.
  intros HF Hpe. eapply triple_bind.
  - eapply triple_pre; [by apply spec_write_client|]. intros s Hs. split; [done|]. left. eauto.
  - intros e. apply triple_ret. by intros s [? _].
Qed.

Lemma tokenError_in e : tokenErrorToProxyError e ∈ proxy_errors.
Proof. unfold tokenErrorToProxyError, proxy_errors. repeat case_match; set_solver. Qed.

Lemma dial_error_in e : dial_error e ∈ proxy_errors.
Proof. unfold dial_error, proxy_errors. case_match; set_solver. Qed.

Lemma upstream_response_error_in e : (upstream_response_error e).1 ∈ proxy_errors.
Proof. unfold upstream_response_error, proxy_errors. repeat case_match; cbn; set_solver. Qed.

Lemma spec_keep_alive F X b p c :
  stable F -> triple (Active F X b p) (keep_alive cfg c) (fun _ => Active F X b p) R0.
Proof.
  intros HF. unfold keep_alive. case_match.
  - eapply triple_bind; [by apply spec_emit_active|]. intros []. by apply spec_emit_active.
  - by apply triple_ret.
Qed.

(** ** Reading requests *)

(** What a request read from the client establishes. *)
Definition was_read (req : request) (tr : list event) : Prop := EvRead (inr req) ∈ tr.

Lemma spec_ctx_done F X b p :
  stable F ->
  triple (Active F X b p) ctx_done
    (fun d s => if (d : bool) then Stop F X p s else Active F X b p s) R0.
Proof.
  intros HF. apply triple_call. intros s d w Hs _. destruct d.
  - apply (Stop_snoc F X p s w (EvCtx true)); [done| |done..]. by eapply Active_Stop.
  - by apply (Active_snoc F X b p s w (EvCtx false)).
Qed.

Lemma spec_read_request F X p :
  stable F ->
  triple (Active F X 0 p) read_request
    (fun r s => match r with
                | inl _ => Active F X 0 p s
                | inr req => Active (fun tr => F tr /\ was_read req tr) X 1 p s
                end) R0.
Proof.
  intros HF. apply triple_call. intros s r w (HS & Hr & Hb) _.
  rewrite Nat.add_0_r in Hb. destruct r as [e|req].
  - apply (Active_snoc F X 0 p s w (EvRead (inl e))); [done| |done|done].
    split_and!; [done..|]. by rewrite Nat.add_0_r.
  - split_and!.
    + destruct HS as (HI & HFs & Hp). split_and!; [|by apply HF|apply elem_snoc_r|done].
      by apply (Inv_snoc cfg clientAddr X s w (EvRead (inr req))).
    + by apply running_snoc.
    + cbn [st_trace]. unfold nreads, nfinals in *. rewrite !count_snoc. cbn. lia.
Qed.

Lemma spec_readRequest F X p :
  stable F ->
  triple (Active F X 0 p) readRequest
    (fun r s => match r with
                | inl _ => Stop F X p s
                | inr req => Active (fun tr => F tr /\ was_read req tr) X 1 p s
                end) R0.
Proof.
  intros HF. unfold readRequest.
  eapply triple_bind; [by apply spec_emit_active|]. intros [].
  eapply triple_bind; [by apply spec_ctx_done|]. intros [|]; [by apply triple_ret|].
  eapply triple_bind; [by apply spec_emit_active|]. intros [].
  eapply triple_bind; [by apply spec_read_request|]. intros [e|req].
  - eapply triple_bind; [by apply spec_emit_active|]. intros [].
    eapply triple_bind; [by apply spec_emit_active|]. intros [].
    eapply triple_bind; [by apply spec_ctx_done|]. intros [|]; apply triple_ret; [done|].
    intros s. apply Active_Stop.
  - assert (HF' : stable (fun tr => F tr /\ was_read req tr)) by (unfold was_read; auto with spnego).
    eapply triple_bind; [by apply spec_emit_active|]. intros [].
    eapply triple_bind; [by apply spec_emit_active|]. intros [].
    eapply triple_bind; [by apply spec_ctx_done|]. intros [|]; apply triple_ret; [|done].
    intros s. apply Stop_impl. tauto.
Qed.

Lemma spec_readNextRequest F X p iter :
  stable F ->
  triple (Active F X 0 p) (readNextRequest iter)
    (fun r s => match r with
                | None => Stop F X p s
                | Some req => Active (fun tr => F tr /\ was_read req tr) X 1 p s
                end) R0.
Proof.
  intros HF. unfold readNextRequest.
  eapply triple_bind; [by apply spec_readRequest|]. intros [e|req]; [|by apply triple_ret].
  repeat case_match; try by apply triple_ret.
  eapply triple_bind; [apply spec_client_error; [done|]|].
  { unfold proxy_errors. set_solver. }
  intros []. by apply triple_ret.
Qed.

(** ** Reading responses *)

(** The post-processing that belongs to connection [c]. *)
Definition conn_post (c : conn) (post : error + response -> error + response)
    (tr : list event) : Prop :=
  (post = upstream_post cfg /\ EvDial c DialUpstream None ∈ tr) \/
  (post = direct_post cfg /\ exists b t, EvDial c (DialDirect b t) None ∈ tr).

Lemma conn_post_relayed c post tr rr r :
  conn_post c post tr -> post (inr rr) = inr r -> relayed cfg tr c rr r.
Proof. intros [[-> ?]|[-> (b & t & ?)]] Hp; [left|right]; eauto. Qed.

Lemma conn_post_inl c post tr e r : conn_post c post tr -> post (inl e) = inr r -> False.
Proof.
  intros [[-> _]|[-> _]]; unfold upstream_post, readUpstreamResponse; cbn; [by case_match|done].
Qed.

Lemma spec_read_response F X b p c req :
  stable F -> p = Some c \/ c ∈ X ->
  triple (Active F X b p) (read_response c req)
    (fun rr s => Active F X b p s /\ EvResp c rr ∈ st_trace s) R0.
Proof.
  intros HF Hc. apply triple_call. intros s rr w Hs _. split; [|apply elem_snoc_r].
  apply (Active_snoc F X b p s w (EvResp c rr)); [done..|].
  split; [by destruct Hs as (_ & ? & _)|]. eapply held_opened; [by eapply Active_Stop|done].
Qed.

Lemma spec_write_interim F X b p s0 :
  stable F ->
  triple (fun s => Active F X b p s /\ client_ok cfg (st_trace s) (CInterim s0))
    (write_client (CInterim s0)) (fun _ => Active F X b p) R0.
Proof.
  intros HF. apply triple_call. intros s e w [Hs Hm] _.
  by apply (Active_snoc F X b p s w (EvClient (CInterim s0) e)).
Qed.

Lemma spec_readThroughInterim F X b p c req post fuel :
  stable F -> p = Some c \/ c ∈ X -> (forall tr, F tr -> conn_post c post tr) ->
  triple (Active F X b p) (readThroughInterim fuel c req post)
    (fun t s => Active F X b p s /\ forall r, t = TResp r -> final_from cfg (st_trace s) c r) R0.
Proof.
  intros HF Hc Hpost. induction fuel as [|fuel IH]; cbn [readThroughInterim].
  { apply triple_fuel. intros s Hs. eapply Stop_R0, Active_Stop, Hs. }
  eapply triple_bind; [by apply spec_read_response|]. intros rr. cbn beta.
  destruct (post rr) as [e|resp] eqn:Ep.
  { apply triple_ret. intros s [Hs _]. by split. }
  destruct (isInterimResponse resp) eqn:Ei; cbn [negb].
  2: { apply triple_ret. intros s [Hs Hrr]. split; [done|]. intros r [= <-].
       assert (HFs := Hs). destruct HFs as ((_ & HFs & _) & _ & _). apply Hpost in HFs.
       destruct rr as [e0|rr]; [by destruct (conn_post_inl _ _ _ _ _ HFs Ep)|].
       exists rr. split_and!; [done| |done]. by eapply conn_post_relayed. }
  destruct (validateResponseHeaderBytes resp) eqn:Ev.
  { apply triple_ret. intros s [Hs _]. by split. }
  apply validateResponseHeaderBytes_iff in Ev. unfold relayInterimResponse.
  eapply triple_bind with (Q' := fun _ => Active F X b p).
  - destruct (interim_bytes req resp) as [s0|] eqn:Es; [|apply triple_ret; by intros s [? _]].
    eapply triple_pre; [by apply spec_write_interim|]. intros s [Hs Hrr]. split; [done|].
    assert (HFs := Hs). destruct HFs as ((_ & HFs & _) & _ & _). apply Hpost in HFs.
    destruct rr as [e0|rr]; [by destruct (conn_post_inl _ _ _ _ _ HFs Ep)|].
    exists c, rr, resp, req. split_and!; try done. by eapply conn_post_relayed.
  - intros [e|]; [|done]. apply triple_ret. intros s Hs. by split.
Qed.

End Spec.
