(* ===== verification/SessionSafe.v ===== *)
(** * The session keeps its invariant

    Triples for the relaying operations of [Session], up to the session loop
    and its entry point, and the lemma the session theorems project from:
    every event of a session was allowed by the monitor of [SessionInv]. *)

From S2P Require Import Prelude GoStrings GoNet GoHttp Errors Config Hosts NoProxy Headers.
From S2P Require Import Response Validate Effects Session SessionInv SessionSpec.

Lemma triple_ex {W A B} (P : B -> st W -> Prop) (m : M W A) Q R :
  (forall b, triple (P b) m Q R) -> triple (fun s => exists b, P b s) m Q R.
Proof. intros Hm s [b Hb]. by apply (Hm b). Qed.

Lemma triple_pure {W A} (P : Prop) (P' : st W -> Prop) (m : M W A) Q R :
  (P -> triple P' m Q R) -> triple (fun s => P' s /\ P) m Q R.
Proof. intros Hm s [Hs HP]. by apply Hm. Qed.

Section Safe.
Context `{UnicodeTables} {W : Type} `{Env W}.
Variable cfg : Config.
Variable clientAddr : string.

Abbreviation Inv := (Inv (W := W) cfg clientAddr).
Abbreviation Stop := (Stop (W := W) cfg clientAddr).
Abbreviation Active := (Active (W := W) cfg clientAddr).
Abbreviation R0 := (R0 (W := W) cfg clientAddr).
Abbreviation allowed := (allowed cfg clientAddr).

(** ** Final answers *)

Lemma spec_write_final F X p m :
  stable F -> is_final (EvClient m None) = true ->
  triple (fun s => Active F X 1 p s /\ client_ok cfg (st_trace s) m) (write_client m)
    (fun e s => Active F X 0 p s /\ EvClient m e ∈ st_trace s) R0.
Proof.
  intros HF Hm. apply triple_call. intros s e w [(HS & Hr & Hb) Hok] _.
  split; [|apply elem_snoc_r]. split_and!.
  - by apply (Stop_snoc cfg clientAddr F X p s w (EvClient m e)).
  - by apply running_snoc.
  - cbn [st_trace]. unfold nreads, nfinals in *. rewrite !count_snoc.
    destruct m; cbn in Hm |- *; (done || lia).
Qed.

Lemma with_close_idem r r1 :
  r = r1 \/ r = with_resp_close r1 true -> with_resp_close r true = with_resp_close r1 true.
Proof. by intros [-> | ->]. Qed.

(** The response a caller of [exchangeRequest] gets. *)
Definition relayable (tr : list event) (c : conn) (r : response) : Prop :=
  exists r1, final_from cfg tr c r1 /\ (r = r1 \/ r = with_resp_close r1 true).

Lemma stable_relayable c r : stable (fun tr => relayable tr c r).
Proof. intros tr e (r1 & ? & ?). exists r1. split; [by apply final_from_mono|done]. Qed.

Lemma relayable_client_ok tr c r : relayable tr c r -> client_ok cfg tr (CResponse r).
Proof. intros (r1 & ? & ?). right. right. by exists c, r1. Qed.

Lemma relayable_close tr c r : relayable tr c r -> relayable tr c (with_resp_close r true).
Proof. intros (r1 & ? & Hr). exists r1. split; [done|]. right. by apply with_close_idem. Qed.

Lemma spec_writeResponse F X p c resp :
  stable F ->
  triple (fun s => Active F X 1 p s /\ relayable (st_trace s) c resp) (writeResponse resp)
    (fun re s => Stop F X p s /\ (resp_close re.1 = false -> Active F X 0 p s)) R0.
Proof.
  intros HF. unfold writeResponse.
  assert (HF' : stable (fun tr => F tr /\ relayable tr c resp)) by (auto using stable_relayable with spnego).
  eapply triple_bind.
  { eapply triple_pre; [by apply spec_ctx_done|]. intros s [Hs Hr]. by apply Active_and. }
  intros [|]; cbn beta iota zeta.
  - eapply triple_bind.
    { eapply triple_pre; [by apply spec_write_client|]. intros s Hs. split; [exact Hs|].
      destruct Hs as (_ & [_ Hr] & _). eapply relayable_client_ok, relayable_close, Hr. }
    intros e. apply triple_ret. intros s [Hs _]. split; [|done]. eapply Stop_impl; [|exact Hs]. by intros tr [? _].
  - eapply triple_bind.
    { eapply triple_pre; [by apply spec_write_final|]. intros s Hs. split; [exact Hs|].
      destruct Hs as ((_ & [_ Hr] & _) & _). by eapply relayable_client_ok. }
    intros e. apply triple_ret. intros s [Hs _].
    assert (Active F X 0 p s) by (eapply Active_impl; [|exact Hs]; by intros tr [? _]).
    split; [by eapply Active_Stop|done].
Qed.

(** ** Exchanging a request for its final response *)

Lemma spec_start F X p c f req w' (s : st W) :
  stable F -> Active F X 1 p s -> allowed (st_trace s) (EvSend c f req) ->
  Active (fun tr => F tr /\ sent_on tr c) X 1 p (snoc s w' (EvSend c f req)).
Proof.
  intros HF Hs Ha. apply Active_and; [by apply Active_snoc|]. exists f, req. apply elem_snoc_r.
Qed.

Lemma spec_send F X p c f req :
  stable F ->
  triple (fun s => Active F X 1 p s /\ allowed (st_trace s) (EvSend c f req)) (send c f req)
    (fun _ => Active (fun tr => F tr /\ sent_on tr c) X 1 p) R0.
Proof.
  intros HF. unfold send.
  eapply triple_bind with (Q' := fun _ => Active (fun tr => F tr /\ sent_on tr c) X 1 p).
  - apply triple_emit. intros s [Hs Ha]. exact (spec_start F X p c f req (st_world s) s HF Hs Ha).
  - intros []. apply triple_call. intros s e w Hs _.
    apply (Active_snoc cfg clientAddr _ X 1 p s w (EvSent c e)); [auto with spnego|done..].
Qed.

Lemma spec_event F X b p {A} (f : W -> A * W) (ev : A -> event) :
  stable F -> (forall a, quiet (ev a)) -> (forall a tr, allowed tr (ev a)) ->
  triple (Active F X b p) (call f ev) (fun _ => Active F X b p) R0.
Proof.
  intros HF Hq Ha. apply triple_call. intros s a w Hs _.
  by apply (Active_snoc cfg clientAddr F X b p s w (ev a)).
Qed.

(** Post-condition of [exchangeRequest]. *)
Definition exchanged (F : list event -> Prop) X p (c : conn) (tw : through * option error)
    (s : st W) : Prop :=
  Active (fun tr => F tr /\ sent_on tr c) X 1 p s /\
  forall r, tw.1 = TResp r -> relayable (st_trace s) c r.

(** [t'] carries the response of [t], perhaps marked to close. *)
Definition same_resp (t t' : through) : Prop :=
  forall r, t' = TResp r -> exists r0, t = TResp r0 /\ (r = r0 \/ r = with_resp_close r0 true).

Lemma same_resp_refl t : same_resp t t.
Proof. intros r ->. eauto. Qed.

Ltac step_emit := eapply triple_bind; [by apply spec_emit_active|intros []].

Lemma spec_await_upload F X p c t :
  stable F ->
  triple (Active F X 1 p) (await_upload c t)
    (fun tw s => Active F X 1 p s /\ same_resp t tw.1) R0.
Proof.
  intros HF. unfold await_upload. pose proof (same_resp_refl t) as Ht.
  eapply triple_bind; [by apply spec_event|]. intros [[e|]|]; cbn beta iota.
  - step_emit. by apply triple_ret.
  - by apply triple_ret.
  - do 2 step_emit. eapply triple_bind; [by apply spec_event|]. intros [e|]; cbn beta.
    + step_emit. by apply triple_ret.
    + do 2 step_emit. apply triple_ret. intros s Hs. split; [exact Hs|].
      intros r. cbn. destruct t; naive_solver.
Qed.

Lemma exchanged_intro F X p c t tw s :
  Active (fun tr => (F tr /\ sent_on tr c) /\ forall r, t = TResp r -> relayable tr c r) X 1 p s ->
  same_resp t tw.1 -> exchanged F X p c tw s.
Proof.
  intros Hs Htw. split; [eapply Active_impl; [|exact Hs]; by intros tr [? _]|].
  intros r Hr. destruct Hs as ((_ & [_ Hs] & _) & _).
  destruct (Htw r Hr) as (r0 & Ht & [-> | ->]); [by apply Hs|]. by apply relayable_close, Hs.
Qed.

Lemma spec_exchangeRequest F X p c f req post fuel :
  stable F -> p = Some c \/ c ∈ X -> (forall tr, F tr -> conn_post cfg c post tr) ->
  triple (fun s => Active F X 1 p s /\ allowed (st_trace s) (EvSend c f req))
    (exchangeRequest fuel c f req post) (exchanged F X p c) R0.
Proof.
  intros HF Hc Hpost. unfold exchangeRequest.
  set (F' := fun tr => F tr /\ sent_on tr c).
  assert (HF' : stable F') by (unfold F'; auto with spnego).
  assert (Hread : triple (Active F' X 1 p) (readThroughInterim fuel c req post)
    (fun t s => Active F' X 1 p s /\ forall r, t = TResp r -> relayable (st_trace s) c r) R0).
  { eapply triple_conseq; [apply spec_readThroughInterim; [done..|]| done| |done].
    - intros tr [? _]. auto.
    - intros t s [Hs Ht]. split; [exact Hs|]. intros r Hr. exists r. auto. }
  case_match.
  - eapply triple_bind; [by apply spec_send|]. intros [e|].
    + apply triple_ret. intros s Hs. by split.
    + eapply triple_bind; [exact Hread|]. intros t. by apply triple_ret.
  - eapply triple_bind with (Q' := fun _ => Active F' X 1 p).
    { apply triple_call. intros s [] w [Hs Ha] _. exact (spec_start F X p c f req w s HF Hs Ha). }
    intros []. eapply triple_bind; [exact Hread|]. intros t. cbn beta.
    assert (HG : stable (fun tr => F' tr /\ forall r, t = TResp r -> relayable tr c r)).
    { apply stable_and; [done|]. apply stable_forall. intros r. apply stable_relayable. }
    eapply triple_bind.
    { eapply triple_pre; [apply (spec_await_upload _ X p c t HG)|].
      intros s [Hs Ht]. by apply Active_and. }
    intros tw. cbn beta. apply triple_pure. intros Htw.
    step_emit. apply triple_ret. intros s Hs. apply (exchanged_intro F X p c t); [exact Hs|].
    destruct tw as [[r1| |] [e|]]; cbn in *; try done.
    intros r [= <-]. destruct (Htw r1 eq_refl) as (r0 & Hr0 & Hor). exists r0.
    split; [done|]. right. by apply with_close_idem.
Qed.

(** ** The upstream path *)

Lemma spec_inject_forwarding F X b p req :
  stable F ->
  triple (Active F X b p) (inject_forwarding cfg clientAddr req)
    (fun req' s => Active F X b p s /\
       exists rnd, req' = injectForwardingHeaders req clientAddr (Forwarding cfg) rnd) R0.
Proof.
  intros HF. unfold inject_forwarding. case_match.
  - eapply triple_bind; [by apply spec_event|]. intros rnd. apply triple_ret. eauto.
  - apply triple_ret. eauto.
Qed.

(** A dial from a running session. *)
Lemma spec_dial F X b p k :
  stable F -> (forall tr, F tr -> dial_ok cfg tr k) ->
  triple (Active F X b p) (dial k)
    (fun d s => match d with
       | inl _ => Active F X b p s
       | inr c => Active (fun tr => F tr /\ EvDial c k None ∈ tr) (c :: X) b p s /\
                  ~ sent_on (st_trace s) c /\ c ∉ X /\ p <> Some c
       end) R0.
Proof.
  intros HF Hk s ((HI & HFs & Hp) & Hr & Hb). unfold dial.
  destruct (env_dial k (st_world s)) as [e w]. pose proof (Inv_dial cfg clientAddr X s w k e HI Hr (Hk _ HFs)) as HI'.
  pose proof (Inv_not_dialled _ _ _ _ HI) as Hnd.
  set (ev := EvDial (st_next s) k e) in *.
  assert (Hrun : running (st_trace s ++ [ev])) by (by apply running_snoc).
  assert (Hcnt : nreads (st_trace s ++ [ev]) = (nfinals (st_trace s ++ [ev]) + b)%nat).
  { unfold nreads, nfinals in *. rewrite !count_snoc. cbn. lia. }
  assert (HF' : F (st_trace s ++ [ev])) by (by apply HF).
  destruct e as [err|]; [by split_and!|]. split_and!.
  - split_and!; [split_and!; [exact HI'|exact HF'|apply elem_snoc_r|exact Hp]|done..].
  - cbn [st_trace]. intros (f & r & Hs). apply elem_snoc in Hs as [Hs|Hs]; [|done].
    eapply Inv_not_sent; [exact HI|exact Hnd|by exists f, r].
  - intros Hc. apply Hnd. apply (inv_open _ _ _ _ HI). by right.
  - intros Hc. apply Hnd. apply (inv_open _ _ _ _ HI). left. by rewrite Hp.
Qed.

Lemma keep_alive_unsent F X b p c d :
  stable F ->
  triple (fun s => Active F X b p s /\ ~ sent_on (st_trace s) d) (keep_alive cfg c)
    (fun _ s => Active F X b p s /\ ~ sent_on (st_trace s) d) R0.
Proof.
  intros HF s [Hs Hn]. pose proof (spec_keep_alive cfg clientAddr F X b p c HF s Hs) as Hk.
  unfold keep_alive in *. destruct (0 <? KeepAlive cfg); cbn in Hk |- *; [|done].
  split; [exact Hk|]. intros (f & r & Hin). apply Hn. exists f, r.
  rewrite !elem_snoc in Hin. naive_solver.
Qed.

(** What a successful [dialAndAuthUpstream] establishes. *)
Definition authed (req : request) (c : conn) (req' : request) (tr : list event) : Prop :=
  EvDial c DialUpstream None ∈ tr /\
  exists token, EvToken (inr token) ∈ tr /\ req' = with_token req token.

Lemma stable_authed req c req' : stable (authed req c req').
Proof.
  intros tr e (? & token & ? & ?). split; [by apply elem_snoc_l|].
  exists token. split; [by apply elem_snoc_l|done].
Qed.

Lemma spec_dialAndAuthUpstream F X p req :
  stable F ->
  triple (Active F X 1 p) (dialAndAuthUpstream cfg req)
    (fun d s => match d with
       | None => Stop F X p s
       | Some (c, req') =>
           Active (fun tr => F tr /\ authed req c req' tr) (c :: X) 1 p s /\
           ~ sent_on (st_trace s) c /\ c ∉ X /\ p <> Some c
       end) R0.
Proof.
  intros HF. unfold dialAndAuthUpstream.
  eapply triple_bind with (Q' := fun r s => match r with
    | inl _ => Active F X 1 p s
    | inr token => Active (fun tr => F tr /\ EvToken (inr token) ∈ tr) X 1 p s end).
  { apply triple_call. intros s r w Hs _.
    assert (Active F X 1 p (snoc s w (EvToken r))).
    { apply Active_snoc; [done..|]. by destruct Hs as (_ & ? & _). }
    destruct r; [done|]. apply Active_and; [done|]. apply elem_snoc_r. }
  intros [e|token].
  { eapply triple_bind with (Q' := fun _ => Stop F X p).
    - eapply triple_pre; [apply spec_client_error; [done|apply tokenError_in]|].
      intros s Hs. by eapply Active_Stop.
    - intros []. by apply triple_ret. }
  eapply triple_bind.
  { apply (spec_dial (fun tr => F tr /\ EvToken (inr token) ∈ tr)); [auto with spnego|].
    intros tr [_ ?]. by exists token. }
  intros [e|c]; cbn beta iota.
  { eapply triple_bind with (Q' := fun _ => Stop F X p).
    - eapply triple_pre; [apply spec_client_error; [done|apply dial_error_in]|].
      intros s Hs. eapply Stop_impl; [|by eapply Active_Stop]. by intros tr [? _].
    - intros []. by apply triple_ret. }
  eapply triple_pre; [apply (triple_pure (c ∉ X /\ p <> Some c))|].
  2: { intros s (HA & Hn & HX & Hp). split; [|split; [exact HX|exact Hp]].
       instantiate (1 := fun s => _ s /\ ~ sent_on (st_trace s) c). split; [exact HA|exact Hn]. }
  intros [HX Hp]. eapply triple_bind; [apply keep_alive_unsent; auto with spnego|]. intros [].
  apply triple_ret. intros s [Hs Hn]. split_and!; [|done..].
  eapply Active_impl; [|exact Hs]. intros tr [[? ?] ?]. split; [done|].
  split; [done|]. by exists token.
Qed.

(** The stored upstream connection has carried a request. *)
Definition used (p : option conn) (tr : list event) : Prop := forall c, p = Some c -> sent_on tr c.

Lemma stable_used p : stable (used p).
Proof. intros tr e Hu c Hc. by apply sent_on_mono, Hu. Qed.

(** The token a request carries on connection [c], by whether it is the first. *)
Definition token_once (req : request) (c : conn) (req' : request) (tr : list event) : Prop :=
  (sent_on tr c /\ req' = req) \/
  (~ sent_on tr c /\ exists token, EvToken (inr token) ∈ tr /\ req' = with_token req token).

Lemma spec_upstream_conn F p req :
  stable F -> (forall tr, F tr -> used p tr) ->
  triple (Active F [] 1 p) (upstream_conn cfg req)
    (fun u s => match u with
       | None => Stop F [] p s
       | Some (c, req') =>
           Active (fun tr => F tr /\ EvDial c DialUpstream None ∈ tr) [] 1 (Some c) s /\
           token_once req c req' (st_trace s)
       end) R0.
Proof.
  intros HF Hu. unfold upstream_conn.
  eapply triple_bind with (Q' := fun q s => Active F [] 1 p s /\ q = p).
  { intros s Hs. split; [exact Hs|]. by destruct Hs as ((_ & _ & ?) & _). }
  intros q. apply triple_pure. intros ->. destruct p as [c|].
  - apply triple_ret. intros s Hs. destruct Hs as ((HI & HFs & Hp) & Hr & Hb).
    split; [split_and!; [split_and!|..]; try done|].
    + by apply (inv_proxy _ _ _ _ HI).
    + left. split; [by apply (Hu _ HFs)|done].
  - eapply triple_bind; [by apply spec_dialAndAuthUpstream|]. intros [[c req']|]; [|by apply triple_ret].
    eapply triple_bind with (Q' := fun _ s =>
      Active (fun tr => F tr /\ EvDial c DialUpstream None ∈ tr) [] 1 (Some c) s /\
      token_once req c req' (st_trace s)); [|intros []; by apply triple_ret].
    intros s ((([Ht Hf Ho Hpx] & [HFs [Hd Htok]] & Hp) & Hr & Hb) & Hns & _). cbn.
    split; [|by right]. split_and!; [split_and!|..]; try done.
    constructor; cbn [st_trace st_next st_proxy]; [done|done| |by intros d [= <-]].
    intros d. rewrite Ho, Hp. set_unfold. naive_solver.
Qed.

(** A request that was validated and goes through the upstream proxy. *)
Definition for_upstream (r1 : request) (tr : list event) : Prop :=
  exists r0, was_read r0 tr /\ validateRequest cfg r0 = VProceed r1 /\
    noproxy_match cfg (req_host r1) = false.

Lemma stable_for_upstream r1 : stable (for_upstream r1).
Proof. intros tr e (r0 & ? & ? & ?). exists r0. split_and!; [by apply elem_snoc_l|done..]. Qed.

Lemma upstream_allowed F X p c r1 rnd req' (s : st W) :
  Active F X 1 p s -> p = Some c \/ c ∈ X -> EvDial c DialUpstream None ∈ st_trace s ->
  for_upstream r1 (st_trace s) ->
  token_once (injectForwardingHeaders r1 clientAddr (Forwarding cfg) rnd) c req' (st_trace s) ->
  allowed (st_trace s) (EvSend c ProxyForm (inject_via cfg req')).
Proof.
  intros Hs Hc Hd (r0 & Hr0 & Hv & Hn) Ht. split_and!.
  - by destruct Hs as (_ & ? & _).
  - eapply held_opened; [by eapply Active_Stop|done].
  - done.
  - exists r0, r1, rnd. split_and!; [done..|]. cbn zeta.
    destruct Ht as [[? ->]|[? (token & ? & ->)]]; [left|right]; eauto.
Qed.

(** [connectionWillClose] is true of a response marked to close. *)
Lemma will_close_resp req resp : connectionWillClose req resp = false -> resp_close resp = false.
Proof. unfold connectionWillClose. case_match; [done|]. by destruct (req_close req). Qed.

(** The end of a relay: the response is written, and the session goes on only
    if neither side closes. *)
Lemma spec_relay_end F X p c resp req :
  stable F ->
  triple (fun s => Active F X 1 p s /\ relayable (st_trace s) c resp)
    (w <- writeResponse resp ;;
     match w with
     | (_, Some _) => ret false
     | (resp, None) => ret (negb (connectionWillClose req resp))
     end)
    (fun ok s => Stop F X p s /\ (ok = true -> Active F X 0 p s)) R0.
Proof.
  intros HF. eapply triple_bind; [by apply spec_writeResponse|]. intros [resp' [e|]]; apply triple_ret.
  - by intros s [? _].
  - intros s [Hs Ha]. split; [done|]. intros Hw%negb_true_iff. eapply Ha, will_close_resp, Hw.
Qed.

(** An error answer after which the session stops. *)
Lemma spec_answer_stop {A} F X b p pe (a : A) :
  stable F -> pe ∈ proxy_errors ->
  triple (Active F X b p) (client_error pe ;; ret a) (fun x s => Stop F X p s /\ x = a) R0.
Proof.
  intros HF Hpe. eapply triple_bind with (Q' := fun _ => Stop F X p).
  - eapply triple_pre; [by apply spec_client_error|]. intros s Hs. by eapply Active_Stop.
  - intros []. apply triple_ret. done.
Qed.

Lemma terminated_in : errConnectionTerminated ∈ proxy_errors.
Proof. unfold proxy_errors. set_solver. Qed.

Lemma spec_relayViaUpstream F p req fuel :
  stable F -> (forall tr, F tr -> used p tr /\ for_upstream req tr) ->
  triple (Active F [] 1 p) (relayViaUpstream cfg clientAddr fuel req)
    (fun ok s => exists p', Stop F [] p' s /\
       (ok = true -> Active (fun tr => F tr /\ used p' tr) [] 0 p' s)) R0.
Proof.
  intros HF Hreq. unfold relayViaUpstream.
  eapply triple_bind; [by apply spec_inject_forwarding|]. intros req2. cbn beta.
  apply triple_pure. intros [rnd ->].
  eapply triple_bind; [apply spec_upstream_conn; [done|intros; by apply Hreq]|].
  intros [[c req3]|]; [|by apply triple_ret; intros s Hs; exists p].
  cbn beta iota zeta. set (G := fun tr => F tr /\ EvDial c DialUpstream None ∈ tr).
  assert (HG : stable G) by (unfold G; auto with spnego).
  set (G' := fun tr => G tr /\ sent_on tr c).
  assert (HG' : stable G') by (unfold G'; auto with spnego).
  assert (Hst : forall s, Stop G' [] (Some c) s -> exists p', Stop F [] p' s /\
       (false = true -> Active (fun tr => F tr /\ used p' tr) [] 0 p' s)).
  { intros s Hs. exists (Some c). split; [|done]. eapply Stop_impl; [|exact Hs]. by intros tr [[? _] _]. }
  eapply triple_bind with (Q' := exchanged G [] (Some c) c).
  { eapply triple_pre; [apply spec_exchangeRequest; [done|by left|]|].
    - intros tr [_ ?]. by left.
    - intros s [Hs Ht]. split; [exact Hs|].
      assert (HGs : G (st_trace s)) by (by destruct Hs as ((_ & ? & _) & _)).
      eapply upstream_allowed; [exact Hs|by left|apply HGs|apply Hreq, HGs|exact Ht]. }
  intros tw. assert (Hans : forall pe, pe ∈ proxy_errors ->
    triple (exchanged G [] (Some c) c tw) (client_error pe ;; ret false)
      (fun ok s => exists p', Stop F [] p' s /\
         (ok = true -> Active (fun tr => F tr /\ used p' tr) [] 0 p' s)) R0).
  { intros pe Hpe.
    eapply triple_conseq; [by apply (spec_answer_stop G' [] 1 (Some c))|by intros s [? _]| |done].
    intros ok s [Hs ->]. by apply Hst. }
  destruct tw as [[resp|e|e] [e'|]]; try (by apply Hans, terminated_in).
  - eapply triple_conseq; [apply (spec_relay_end G' [] (Some c) c resp); done| | |done].
    + intros s [Hs Hr]. split; [exact Hs|]. by apply Hr.
    + intros ok s [Hs Ha]. exists (Some c). split; [eapply Stop_impl; [|exact Hs]; by intros tr [[? _] _]|].
      intros Hok. eapply Active_impl; [|by apply Ha]. intros tr [[? _] Hsent].
      split; [done|]. by intros d [= <-].
  - apply triple_ret. intros s [Hs _]. eapply Hst, Active_Stop, Hs.
  - by apply Hans, upstream_response_error_in.
Qed.

End Safe.
