(* ===== verification/SessionLoop.v ===== *)
(** * Tunnels, direct connections and the session loop keep the invariant

    The second half of the proof begun in [SessionSafe]: CONNECT tunnels, the
    no-proxy path, routing, the keep-alive loop and the session entry point.
    [session_ok] is the lemma the session theorems project from. *)

From S2P Require Import Prelude GoStrings GoNet GoHttp Errors Config Hosts NoProxy Headers.
From S2P Require Import Response Validate Effects Session SessionInv SessionSpec SessionSafe.

Section Loop.
Context `{UnicodeTables} {W : Type} `{Env W}.
Variable cfg : Config.
Variable clientAddr : string.

Abbreviation Inv := (Inv (W := W) cfg clientAddr).
Abbreviation Stop := (Stop (W := W) cfg clientAddr).
Abbreviation Active := (Active (W := W) cfg clientAddr).
Abbreviation R0 := (R0 (W := W) cfg clientAddr).
Abbreviation allowed := (allowed cfg clientAddr).

(** ** Tunnels *)

Lemma spec_tunnel F X b p c :
  stable F -> p = Some c \/ c ∈ X ->
  triple (fun s => Active F X b p s /\ tunnel_ok cfg (st_trace s) c) (tunnel c)
    (fun _ => Stop F X p) R0.
Proof.
  intros HF Hc. apply triple_call. intros s [] w [Hs Ht] _.
  apply (Stop_snoc cfg clientAddr F X p s w (EvTunnel c)); [done| |done|].
  - by eapply Active_Stop.
  - split_and!; [by destruct Hs as (_ & ? & _)| |done].
    eapply held_opened; [by eapply Active_Stop|done].
Qed.

Lemma spec_handleConnectTunnel F X p c req fuel :
  stable F -> p = Some c \/ c ∈ X -> (forall tr, F tr -> EvDial c DialUpstream None ∈ tr) ->
  triple (Active F X 1 p) (handleConnectTunnel cfg fuel c req) (fun _ => Stop F X p) R0.
Proof.
  intros HF Hc Hd. unfold handleConnectTunnel.
  eapply triple_bind.
  { apply spec_readThroughInterim; [done..|]. intros tr HFt. left. auto. }
  intros [resp|e|e]; cbn beta.
  - set (G := fun tr => F tr /\ final_from cfg tr c resp).
    assert (HG : stable G).
    { unfold G. apply stable_and; [done|]. intros tr e. apply final_from_mono. }
    assert (Hpre : forall s, Active F X 1 p s /\ (forall r, TResp resp = TResp r -> final_from cfg (st_trace s) c r) ->
      Active G X 1 p s) by (intros s [Hs Hr]; apply Active_and; auto).
    destruct ((resp_code resp <? 200) || (300 <=? resp_code resp)) eqn:Ecode.
    + eapply triple_bind.
      { eapply triple_pre; [by apply spec_write_final|]. intros s Hs%Hpre. split; [exact Hs|].
        destruct Hs as ((_ & [_ Hff] & _) & _). right. right. eauto. }
      intros e. apply triple_ret. intros s [Hs _]. eapply Stop_impl; [|by eapply Active_Stop].
      by intros tr [? _].
    + assert (Hsucc : success resp) by (unfold success; bool_prop; lia).
      eapply triple_bind.
      { eapply triple_pre; [by apply spec_write_final|]. intros s Hs%Hpre. split; [exact Hs|].
        destruct Hs as ((_ & [HFs Hff] & _) & _). exists resp. split_and!; [done..|]. left. eauto. }
      intros [e|].
      * apply triple_ret. intros s [Hs _]. eapply Stop_impl; [|by eapply Active_Stop]. by intros tr [? _].
      * eapply triple_conseq; [apply (spec_tunnel G X 0 p c); done| | |done].
        -- intros s [Hs Hcl]. split; [exact Hs|]. exists resp. split_and!; [done..|].
           by destruct Hs as ((_ & [_ ?] & _) & _).
        -- intros [] s Hs. eapply Stop_impl; [|exact Hs]. by intros tr [? _].
  - apply triple_ret. intros s [Hs _]. by eapply Active_Stop.
  - eapply triple_pre; [apply spec_client_error; [done|apply upstream_response_error_in]|].
    intros s [Hs _]. by eapply Active_Stop.
Qed.

Lemma spec_tunnelViaUpstream F p req fuel :
  stable F -> (forall tr, F tr -> for_upstream cfg req tr) ->
  triple (Active F [] 1 p) (tunnelViaUpstream cfg clientAddr fuel req) (fun _ => Stop F [] p) R0.
Proof.
  intros HF Hreq. unfold tunnelViaUpstream.
  eapply triple_bind; [by apply spec_inject_forwarding|]. intros req2. cbn beta.
  apply triple_pure. intros [rnd ->].
  eapply triple_bind; [by apply spec_dialAndAuthUpstream|].
  intros [[c req3]|]; [|by apply triple_ret]. cbn beta iota zeta.
  set (r2 := injectForwardingHeaders req clientAddr (Forwarding cfg) rnd).
  set (G := fun tr => F tr /\ authed r2 c req3 tr).
  assert (HG : stable G) by (unfold G; auto using stable_authed with spnego).
  assert (HG' : stable (fun tr => G tr /\ sent_on tr c)) by (auto with spnego).
  eapply triple_pre; [apply (triple_pure (c ∉ [] /\ p <> Some c))|].
  2: { intros s (HA & Hn & HX & Hp). split; [|split; [exact HX|exact Hp]].
       instantiate (1 := fun s => Active G [c] 1 p s /\ ~ sent_on (st_trace s) c). split; [exact HA|exact Hn]. }
  intros [HX Hp].
  assert (Hclose : triple (Stop (fun tr => G tr /\ sent_on tr c) [c] p) (emit (EvClose c)) (fun _ => Stop F [] p) R0).
  { eapply triple_conseq; [by apply spec_close|done| |done].
    intros [] s Hs. eapply Stop_impl; [|exact Hs]. by intros tr [[? _] _]. }
  eapply triple_bind.
  { eapply triple_pre; [apply (spec_send cfg clientAddr G [c] p)|]; [done|].
    intros s [Hs Hn]. split; [exact Hs|].
    assert (HGs : G (st_trace s)) by (by destruct Hs as ((_ & ? & _) & _)).
    destruct HGs as (HFs & Hd & Htok).
    eapply upstream_allowed; [exact Hs|right; by apply list_elem_of_singleton|done|by apply Hreq|].
    right. split; [exact Hn|exact Htok]. }
  intros [e|].
  - eapply triple_bind with (Q' := fun _ => Stop (fun tr => G tr /\ sent_on tr c) [c] p);
      [|intros []; exact Hclose].
    eapply triple_pre; [apply spec_client_error; [done|apply terminated_in]|].
    intros s Hs. by eapply Active_Stop.
  - eapply triple_bind with (Q' := fun _ => Stop (fun tr => G tr /\ sent_on tr c) [c] p);
      [|intros []; exact Hclose].
    apply spec_handleConnectTunnel; [done|right; by apply list_elem_of_singleton|].
    by intros tr [(_ & ? & _) _].
Qed.

(** ** The direct path *)

(** A connection is dialled once. *)
Lemma dial_unique tr c k k' :
  ok_trace cfg clientAddr tr -> EvDial c k None ∈ tr -> EvDial c k' None ∈ tr -> k = k'.
Proof.
  induction tr as [|e tr IH] using rev_ind; intros Ht Hk Hk'; [by apply not_elem_of_nil in Hk|].
  apply ok_trace_init in Ht as [Ht' He]. apply elem_snoc in Hk, Hk'.
  destruct Hk as [Hk|<-], Hk' as [Hk'|Hk']; [by apply IH| | |by injection Hk'].
  - rewrite <- Hk' in He. destruct He as (_ & Hnd & _). exfalso. apply Hnd. by exists k.
  - destruct He as (_ & Hnd & _). exfalso. apply Hnd. by exists k'.
Qed.

(** A validated request, ready for the direct connection dialled for [b]. *)
Definition for_direct (b : string) (req : request) (tr : list event) : Prop :=
  sent_direct cfg tr req /\ sameHost (req_host req) b "80" = true.

Lemma stable_for_direct b req : stable (for_direct b req).
Proof.
  intros tr e [(r0 & r1 & ? & ? & ? & ?) ?]. split; [|done]. exists r0, r1.
  split_and!; [by apply elem_snoc_l|done..].
Qed.

(** [c] was dialled for a host the no-proxy rules match. *)
Definition bound (c : conn) (b : string) (tr : list event) : Prop :=
  noproxy_match cfg b = true /\ EvDial c (DialDirect b (dial_target b "80")) None ∈ tr.

Lemma stable_bound c b : stable (bound c b).
Proof. intros tr e [? ?]. split; [done|]. by apply elem_snoc_l. Qed.

Lemma spec_relayDirect F X p c b req fuel :
  stable F -> p = Some c \/ c ∈ X -> (forall tr, F tr -> bound c b tr) ->
  triple (fun s => Active F X 1 p s /\ for_direct b req (st_trace s)) (relayDirect cfg fuel c req)
    (fun ok s => Stop F X p s /\ (ok = true -> Active F X 0 p s)) R0.
Proof.
  intros HF Hc Hb. unfold relayDirect.
  set (F' := fun tr => F tr /\ sent_on tr c).
  assert (HF' : stable F') by (unfold F'; auto with spnego).
  assert (HS : forall s, Stop F' X p s -> Stop F X p s).
  { intros s Hs. eapply Stop_impl; [|exact Hs]. by intros tr [? _]. }
  eapply triple_bind with (Q' := exchanged cfg clientAddr F X p c).
  { eapply triple_pre; [apply spec_exchangeRequest; [done..|]|].
    - intros tr [_ ?]%Hb. right. split; [done|]. eauto.
    - intros s [Hs [Hd Hh]]. split; [exact Hs|]. split_and!.
      + by destruct Hs as (_ & ? & _).
      + eapply held_opened; [by eapply Active_Stop|done].
      + done.
      + destruct Hs as ((_ & [Hn Ht]%Hb & _) & _). by exists b. }
  intros tw. assert (Hans : triple (exchanged cfg clientAddr F X p c tw)
    (client_error errConnectionTerminated ;; ret false)
    (fun ok s => Stop F X p s /\ (ok = true -> Active F X 0 p s)) R0).
  { eapply triple_conseq; [apply (spec_answer_stop cfg clientAddr F' X 1 p); [done|apply terminated_in]
      |by intros s [? _]| |done].
    intros ok s [Hs ->]. split; [by apply HS|done]. }
  destruct tw as [[resp|e|e] [e'|]]; try exact Hans.
  - eapply triple_conseq; [apply (spec_relay_end cfg clientAddr F' X p c resp); done| | |done].
    + intros s [Hs Hr]. split; [exact Hs|]. by apply Hr.
    + intros ok s [Hs Ha]. split; [by apply HS|]. intros Hok. eapply Active_impl; [|by apply Ha].
      by intros tr [? _].
  - apply triple_ret. intros s [Hs _]. split; [|done]. eapply HS, Active_Stop, Hs.
  - apply triple_ret. intros s [Hs _]. split; [|done]. eapply HS, Active_Stop, Hs.
Qed.

Lemma spec_nextDirectRequest F X p b :
  stable F ->
  triple (Active F X 0 p) (nextDirectRequest cfg b)
    (fun n s => match n with
       | None => Stop F X p s
       | Some (req, true) => Active (fun tr => F tr /\ was_read req tr) X 1 p s
       | Some (req, false) => Active F X 1 p s /\ for_direct b req (st_trace s)
       end) R0.
Proof.
  intros HF. unfold nextDirectRequest.
  eapply triple_bind; [by apply spec_readRequest|]. intros [e|req]; [by apply triple_ret|].
  destruct (sameHost (req_host req) b "80") eqn:Eh; cbn [negb]; [|by apply triple_ret].
  set (G := fun tr => F tr /\ was_read req tr).
  assert (HG : stable G) by (unfold G, was_read; auto with spnego).
  assert (HS : forall s, Stop G X p s -> Stop F X p s).
  { intros s Hs. eapply Stop_impl; [|exact Hs]. by intros tr [? _]. }
  assert (Hans : forall pe, pe ∈ proxy_errors ->
    triple (Active G X 1 p) (client_error pe ;; ret None)
    (fun (n : option (request * bool)) s => match n with
       | None => Stop F X p s
       | Some (req, true) => Active (fun tr => F tr /\ was_read req tr) X 1 p s
       | Some (req, false) => Active F X 1 p s /\ for_direct b req (st_trace s)
       end) R0).
  { intros pe Hpe. eapply triple_conseq; [by apply (spec_answer_stop cfg clientAddr G X 1 p)|done| |done].
    intros n s [Hs ->]. by apply HS. }
  destruct (validateRequest cfg req) as [req'|resp|pe] eqn:Ev.
  - destruct (String.eqb_spec (req_method req') "CONNECT") as [Em|Em].
    + apply Hans. unfold proxy_errors. set_solver.
    + apply triple_ret. intros s Hs. split; [eapply Active_impl; [|exact Hs]; by intros tr [? _]|].
      pose proof (validateRequest_fields _ _ _ Ev) as (_ & Hh & _).
      destruct Hs as ((_ & [_ Hr] & _) & _). split; [by exists req, req'|]. cbn. by rewrite Hh.
  - eapply triple_bind.
    { eapply triple_pre; [apply (spec_write_client cfg clientAddr G X p); done|].
      intros s Hs. split; [by eapply Active_Stop|]. right. left. exists req.
      split; [by destruct Hs as ((_ & [_ ?] & _) & _)|]. by eapply validateRequest_local. }
    intros e. apply triple_ret. intros s [Hs _]. by apply HS.
  - apply Hans. by eapply validateRequest_reject.
Qed.

Lemma spec_direct_loop F X p c b req fuel :
  stable F -> p = Some c \/ c ∈ X -> (forall tr, F tr -> bound c b tr) ->
  triple (fun s => Active F X 1 p s /\ for_direct b req (st_trace s)) (direct_loop cfg fuel c b req)
    (fun nc s => Stop F X p s /\
       (nc.2 = true -> exists r, nc.1 = Some r /\ Active (fun tr => F tr /\ was_read r tr) X 1 p s)) R0.
Proof.
  intros HF Hc Hb. revert req. induction fuel as [|fuel IH]; intros req; cbn [direct_loop].
  { apply triple_fuel. intros s [Hs _]. eapply Stop_R0, Active_Stop, Hs. }
  eapply triple_bind; [by apply spec_relayDirect|]. intros [|]; cbn [negb].
  2: { apply triple_ret. by intros s [? _]. }
  eapply triple_bind with (Q' := fun n s => match n with
       | None => Stop F X p s
       | Some (req, true) => Active (fun tr => F tr /\ was_read req tr) X 1 p s
       | Some (req, false) => Active F X 1 p s /\ for_direct b req (st_trace s)
       end).
  { eapply triple_pre; [by apply spec_nextDirectRequest|]. intros s [_ Ha]. by apply Ha. }
  intros [[r [|]]|].
  - apply triple_ret. intros s Hs. cbn. split; [|by eauto].
    eapply Stop_impl; [|by eapply Active_Stop]. by intros tr [? _].
  - apply IH.
  - by apply triple_ret.
Qed.

Lemma spec_forwardDirect F p req r1 fuel :
  stable F -> noproxy_match cfg (req_host r1) = true -> req = inject_via cfg r1 ->
  (forall tr, F tr -> sent_direct cfg tr req) ->
  triple (Active F [] 1 p) (forwardDirect cfg fuel req)
    (fun nc s => Stop F [] p s /\
       (nc.2 = true -> exists r, nc.1 = Some r /\ Active (fun tr => F tr /\ was_read r tr) [] 1 p s)) R0.
Proof.
  intros HF Hn Hreq Hsd. unfold forwardDirect, dialDirect.
  assert (Hh : req_host req = req_host r1) by (by rewrite Hreq).
  eapply triple_bind; [apply (spec_dial cfg clientAddr F); [done|]|].
  { intros tr (r0 & r & ? & ? & Hm & Hr)%Hsd. split; [by rewrite Hh|]. exists r0, r.
    split_and!; [done|done|by rewrite Hr|]. destruct (String.eqb_spec (req_method r) "CONNECT"); [done|].
    by rewrite Hr. }
  intros [e|c].
  { eapply triple_conseq; [apply (spec_answer_stop cfg clientAddr F [] 1 p); [done|apply dial_error_in]|done| |done].
    intros nc s [Hs ->]. by split. }
  cbn beta iota. set (dk := DialDirect _ _).
  set (G := fun tr => F tr /\ EvDial c dk None ∈ tr).
  assert (HG : stable G) by (unfold G; auto with spnego).
  eapply triple_pre; [apply (triple_pure (c ∉ [] /\ p <> Some c) (Active G [c] 1 p))|].
  2: { intros s (HA & _ & HX & Hp). split; [exact HA|done]. }
  intros [HX Hp]. eapply triple_bind; [by apply spec_keep_alive|]. intros [].
  eapply triple_bind.
  { eapply triple_pre; [apply (spec_direct_loop G [c] p c (req_host req)); [done|right; by apply list_elem_of_singleton|]|].
    - intros tr [_ Hd]. split; [by rewrite Hh|done].
    - intros s Hs. split; [exact Hs|]. split; [apply Hsd; by destruct Hs as ((_ & [? _] & _) & _)|].
      apply sameHost_refl. }
  intros [n [|]]; cbn beta.
  - eapply triple_bind with (Q' := fun _ s => exists r, n = Some r /\ Active (fun tr => G tr /\ was_read r tr) [] 1 p s).
    + eapply triple_pre; [apply (triple_ex (fun r s => n = Some r /\ Active (fun tr => G tr /\ was_read r tr) [c] 1 p s))|].
      2: { intros s [_ Ha]. by apply Ha. }
      intros r s [-> Hs]. eapply (spec_close_active cfg clientAddr (fun tr => G tr /\ was_read r tr) [] 1 p c) in Hs; [|unfold was_read; auto with spnego|done|done].
      exists r. by split.
    + intros []. apply triple_ret. intros s (r & -> & Hs). cbn. split.
      * eapply Stop_impl; [|by eapply Active_Stop]. by intros tr [[? _] _].
      * intros _. exists r. split; [done|]. eapply Active_impl; [|exact Hs]. by intros tr [[? _] ?].
  - eapply triple_bind with (Q' := fun _ => Stop G [] p).
    + eapply triple_pre; [by apply spec_close|]. by intros s [? _].
    + intros []. apply triple_ret. intros s Hs. split; [|done].
      eapply Stop_impl; [|exact Hs]. by intros tr [? _].
Qed.

Lemma connect_ok_success req : success (connect_ok cfg req).
Proof. unfold success. cbn. lia. Qed.

Lemma spec_tunnelDirect F p r0 req :
  stable F -> (forall tr, F tr -> was_read r0 tr) -> validateRequest cfg r0 = VProceed req ->
  noproxy_match cfg (req_host req) = true -> req_method req = "CONNECT" ->
  triple (Active F [] 1 p) (tunnelDirect cfg req) (fun _ => Stop F [] p) R0.
Proof.
  intros HF Hr0 Hv Hn Hmeth. unfold tunnelDirect, dialDirect.
  assert (Hok : connect_ok cfg req = connect_ok cfg r0).
  { unfold connect_ok. by destruct (validateRequest_fields _ _ _ Hv) as (_ & _ & -> & _). }
  eapply triple_bind; [apply (spec_dial cfg clientAddr F); [done|]|].
  { intros tr Htr. split; [done|]. exists r0, req. rewrite Hmeth. split_and!; auto. by apply Hr0. }
  intros [e|c].
  { eapply triple_pre; [apply spec_client_error; [done|apply dial_error_in]|].
    intros s Hs. by eapply Active_Stop. }
  cbn beta iota. set (dk := DialDirect _ _).
  set (G := fun tr => F tr /\ EvDial c dk None ∈ tr).
  assert (HG : stable G) by (unfold G; auto with spnego).
  set (m := CConnect (writeConnectOK (connect_ok cfg req))).
  set (G' := fun tr => G tr /\ EvClient m None ∈ tr).
  assert (HG' : stable G') by (unfold G'; auto with spnego).
  eapply triple_pre; [apply (triple_pure (c ∉ [] /\ p <> Some c) (Active G [c] 1 p))|].
  2: { intros s (HA & _ & HX & Hp). split; [exact HA|done]. }
  intros [HX Hp].
  assert (Hclose : triple (Stop G [c] p) (emit (EvClose c)) (fun _ => Stop F [] p) R0).
  { eapply triple_conseq; [by apply (spec_close cfg clientAddr G [] p c)|done| |done].
    intros [] s Hs. eapply Stop_impl; [|exact Hs]. by intros tr [? _]. }
  eapply triple_bind.
  { eapply triple_pre; [by apply (spec_write_final cfg clientAddr G [c] p m)|]. intros s Hs.
    split; [exact Hs|]. exists (connect_ok cfg req). split_and!; [done|apply connect_ok_success|].
    right. exists r0. split; [|done]. apply Hr0. by destruct Hs as ((_ & [? _] & _) & _). }
  intros [e|].
  { eapply triple_pre; [exact Hclose|]. intros s [Hs _]. by eapply Active_Stop. }
  eapply triple_bind with (Q' := fun _ => Active G' [c] 0 p).
  { eapply triple_pre; [by apply spec_keep_alive|]. intros s [Hs Hm]. by apply Active_and. }
  intros []. eapply triple_bind with (Q' := fun _ => Stop G [c] p); [|intros []; exact Hclose].
  eapply triple_conseq; [apply (spec_tunnel G' [c] 0 p c)| | |done]; [done|right; by apply list_elem_of_singleton| |].
  - intros s Hs. split; [exact Hs|]. destruct Hs as ((HI & ((_ & Hd) & Hm) & _) & _).
    exists (connect_ok cfg req). split_and!; [done|apply connect_ok_success|].
    intros Hu. by pose proof (dial_unique _ _ _ _ (inv_trace _ _ _ _ HI) Hd Hu).
  - intros [] s Hs. eapply Stop_impl; [|exact Hs]. by intros tr [? _].
Qed.

(** ** Routing and the loop *)

(** The session is over, or goes on with [b] requests waiting for an answer. *)
Definition Over (s : st W) : Prop := exists p, Stop (fun _ => True) [] p s.
Definition Ready (G : list event -> Prop) (b : nat) (s : st W) : Prop :=
  exists p, Active (fun tr => used p tr /\ G tr) [] b p s.

Lemma Stop_Over F p s : Stop F [] p s -> Over s.
Proof. intros Hs. exists p. by eapply Stop_impl. Qed.

Lemma Ready_Over G b s : Ready G b s -> Over s.
Proof. intros [p Hs]. eapply Stop_Over, Active_Stop, Hs. Qed.

(** After a round: what [run] goes on with. *)
Definition round (nc : option request * bool) (s : st W) : Prop :=
  if nc.2 then match nc.1 with
               | None => Ready (fun _ => True) 0 s
               | Some r => Ready (was_read r) 1 s
               end
  else Over s.

Lemma Active_Ready (F G : list event -> Prop) b p s :
  (forall tr, F tr -> used p tr /\ G tr) -> Active F [] b p s -> Ready G b s.
Proof. intros HF Hs. exists p. by eapply Active_impl. Qed.

Lemma spec_routeRequest r0 req fuel :
  validateRequest cfg r0 = VProceed req ->
  triple (Ready (was_read r0) 1) (routeRequest cfg clientAddr fuel req) round R0.
Proof.
  intros Hv. unfold routeRequest. apply triple_ex. intros p.
  set (F := fun tr => used p tr /\ was_read r0 tr).
  assert (HF : stable F) by (apply stable_and; [apply stable_used|unfold was_read; auto with spnego]).
  destruct (noproxy_match cfg (req_host req)) eqn:En; destruct (String.eqb_spec (req_method req) "CONNECT") as [Em|Em].
  - eapply triple_bind with (Q' := fun _ => Stop F [] p).
    { apply (spec_tunnelDirect F p r0 req); [done| |done..]. by intros tr [_ ?]. }
    intros []. apply triple_ret. intros s Hs. eapply Stop_Over, Hs.
  - eapply triple_conseq; [apply (spec_forwardDirect F p (inject_via cfg req) req)|done| |done]; [done..| |].
    + intros tr [_ Hr]. by exists r0, req.
    + intros [n [|]] s [Hs Ha]; cbn in *; [|by eapply Stop_Over].
      destruct (Ha eq_refl) as (r & -> & Hr). cbn. eapply Active_Ready, Hr. by intros tr [[? _] ?].
  - eapply triple_bind with (Q' := fun _ => Stop F [] p).
    { apply (spec_tunnelViaUpstream F p req fuel); [done|]. intros tr [_ ?]. by exists r0. }
    intros []. apply triple_ret. intros s Hs. eapply Stop_Over, Hs.
  - eapply triple_bind; [apply (spec_relayViaUpstream cfg clientAddr F p req fuel); [done|]|].
    + intros tr [? ?]. split; [done|]. by exists r0.
    + intros [|]; apply triple_ret; intros s (p' & Hs & Ha); cbn.
      * eapply Active_Ready, Ha; [|done]. by intros tr [_ ?].
      * eapply Stop_Over, Hs.
Qed.

Lemma spec_serve_one req fuel :
  triple (Ready (was_read req) 1) (serve_one cfg clientAddr fuel req) round R0.
Proof.
  unfold serve_one. destruct (validateRequest cfg req) as [req'|resp|pe] eqn:Ev.
  - by apply spec_routeRequest.
  - eapply triple_bind with (Q' := fun _ => Over).
    + apply triple_ex. intros p.
      eapply triple_conseq; [apply (spec_write_client cfg clientAddr (was_read req) [] p)| | |done].
      * unfold was_read. auto with spnego.
      * intros s Hs. assert (HS : Stop (was_read req) [] p s).
        { eapply Stop_impl; [|by eapply Active_Stop]. by intros tr [_ ?]. }
        split; [exact HS|]. right. left. exists req. destruct HS as (_ & ? & _).
        split; [done|]. by eapply validateRequest_local.
      * intros e s [Hs _]. by eapply Stop_Over.
    + intros e. by apply triple_ret.
  - apply triple_ex. intros p.
    eapply triple_conseq; [apply (spec_answer_stop cfg clientAddr (fun _ => True) [] 1 p pe (None, false))| | |done].
    + done.
    + by eapply validateRequest_reject.
    + intros s Hs. by eapply Active_impl.
    + intros nc s [Hs ->]. by eapply Stop_Over.
Qed.

Lemma spec_run fuel iter pending :
  triple (match pending with
          | None => Ready (fun _ => True) 0
          | Some r => Ready (was_read r) 1
          end) (run cfg clientAddr fuel iter pending) (fun _ => Over) R0.
Proof.
  revert iter pending. induction fuel as [|fuel IH]; intros iter pending; cbn [run].
  { apply triple_fuel. intros s Hs. destruct pending, Hs as [p Hs]; eapply Stop_R0, Active_Stop, Hs. }
  eapply triple_bind with (Q' := fun r s => match r with
    | None => Over s | Some req => Ready (was_read req) 1 s end).
  - destruct pending as [req|]; [by apply triple_ret|]. apply triple_ex. intros p.
    eapply triple_conseq; [apply (spec_readNextRequest cfg clientAddr (used p) [] p)| | |done].
    + apply stable_used.
    + intros s Hs. eapply Active_impl; [|exact Hs]. by intros tr [? _].
    + intros [req|] s Hs; [by exists p|by eapply Stop_Over].
  - intros [req|]; [|by apply triple_ret].
    eapply triple_bind; [apply spec_serve_one|]. intros [n [|]]; [|by apply triple_ret].
    eapply triple_pre; [apply IH|]. intros s Hs. by destruct n.
Qed.

(** ** The session entry point *)

Lemma spec_close_proxy :
  triple Over close_proxy (fun _ => Stop (fun _ => True) [] None) R0.
Proof.
  intros s [p (HI & _ & Hp)]. unfold close_proxy, bind, get_proxy. rewrite Hp. destruct p as [c|]; cbn.
  - split_and!; [|done..]. assert (Ho : opened (st_trace s) c).
    { apply (inv_open _ _ _ _ HI). by left. }
    constructor; cbn [st_trace st_next st_proxy]; [| | |done].
    + by apply ok_trace_snoc; [apply HI|].
    + intros d k x. rewrite elem_snoc. intros [?|E]; [|done]. by eapply (inv_fresh _ _ _ _ HI).
    + intros d. split; [|set_unfold; naive_solver]. intros [[k Hk] Hc].
      rewrite elem_snoc in Hc. apply elem_snoc in Hk as [Hk|Hk]; [|done].
      assert (opened (st_trace s) d) as [Hd|Hd]%(inv_open _ _ _ _ HI).
      { split; [by exists k|]. intros ?. apply Hc. by left. }
      * exfalso. apply Hc. right. congruence.
      * by apply not_elem_of_nil in Hd.
  - by split_and!.
Qed.

Lemma Inv_init (w : W) : Inv [] (init_st w).
Proof.
  constructor; cbn; [apply ok_trace_nil|..].
  - intros c k e Hc. by apply not_elem_of_nil in Hc.
  - intros c. split; [|set_unfold; naive_solver]. intros [[k Hk] _]. by apply not_elem_of_nil in Hk.
  - done.
Qed.

Lemma spec_handleClientCtx fuel :
  triple (fun s => exists w, s = init_st w) (handleClientCtx cfg clientAddr fuel)
    (fun _ => Stop (fun _ => True) [] None) R0.
Proof.
  unfold handleClientCtx. set (P := Stop (fun _ => True) [] None).
  assert (Hp : forall s, (exists w, s = init_st w) -> P s).
  { intros s [w ->]. split_and!; [apply Inv_init|done..]. }
  assert (Hemit : forall e, neutral e -> (forall tr, allowed tr e) -> triple P (emit e) (fun _ => P) R0).
  { intros e He Ha. by apply spec_emit_stop. }
  eapply triple_bind with (Q' := fun _ => P).
  - case_match; [by apply triple_ret|]. case_match.
    + eapply triple_bind with (Q' := fun _ => P).
      { eapply triple_pre; [apply spec_client_error; [done|]|exact Hp]. unfold proxy_errors. set_solver. }
      intros []. eapply triple_bind with (Q' := fun _ => P); [by apply Hemit|]. intros []. by apply Hemit.
    + eapply triple_bind; [eapply triple_pre; [apply (spec_run fuel 0 None)|]|intros []; apply spec_close_proxy].
      intros s [w ->]. exists None. split_and!; [split_and!|..]; try done; [apply Inv_init|].
      split; [|intros c]; apply not_elem_of_nil.
  - intros []. eapply triple_bind with (Q' := fun _ => P); [by apply Hemit|]. intros []. by apply Hemit.
Qed.

(** A whole session: its outcome and its trace. *)
Definition session (fuel : nat) (w : W) : outcome unit * st W :=
  handleClientCtx cfg clientAddr fuel (init_st w).

Definition session_trace (fuel : nat) (w : W) : list event := st_trace (session fuel w).2.

(** Every event of a session, finished or not, was allowed when it happened. *)
Lemma session_ok fuel w : ok_trace cfg clientAddr (session_trace fuel w).
Proof.
  unfold session_trace, session.
  pose proof (spec_handleClientCtx fuel (init_st w) (ex_intro _ w eq_refl)) as Hs.
  destruct (handleClientCtx cfg clientAddr fuel (init_st w)) as [[[]|] s]; cbn; [|done].
  by eapply Stop_R0.
Qed.

(** A finished session holds no connection. *)
Lemma session_closed fuel w c :
  (session fuel w).1 = Done tt -> ~ opened (session_trace fuel w) c.
Proof.
  unfold session_trace, session.
  pose proof (spec_handleClientCtx fuel (init_st w) (ex_intro _ w eq_refl)) as Hs.
  destruct (handleClientCtx cfg clientAddr fuel (init_st w)) as [[[]|] s]; cbn; [|done].
  intros _ Ho. destruct Hs as (HI & _ & Hp). apply (inv_open _ _ _ _ HI) in Ho as [Ho|Ho].
  - congruence.
  - by apply not_elem_of_nil in Ho.
Qed.

End Loop.
