(* ===== verification/SessionHalt.v ===== *)
(** * Sessions end

    The loops of a session ([run], [forwardDirect], [readThroughInterim]) end
    when their peers deliver finitely many messages.  [Budget] bounds what the
    client and the dialled connections still deliver; a session with more fuel
    than its budget runs to its end. *)

From S2P Require Import Prelude GoStrings GoNet GoHttp Errors Config Hosts NoProxy Headers.
From S2P Require Import Response Validate Effects Session SessionLoop.

(** [bud w] bounds the messages still to be delivered: a message that is read
    uses some of it, and no other call adds to it. *)
Class Budget (W : Type) `{Env W} := {
  bud : W -> nat;
  bud_read : forall w r w', env_read_request w = (r, w') ->
    (bud w' <= bud w)%nat /\ forall q, r = inr q -> (bud w' < bud w)%nat;
  bud_response : forall c req w r w', env_read_response c req w = (r, w') ->
    (bud w' <= bud w)%nat /\ forall q, r = inr q -> (bud w' < bud w)%nat;
  bud_ctx : forall w x w', env_ctx_done w = (x, w') -> (bud w' <= bud w)%nat;
  bud_token : forall w x w', env_get_token w = (x, w') -> (bud w' <= bud w)%nat;
  bud_dial : forall k w x w', env_dial k w = (x, w') -> (bud w' <= bud w)%nat;
  bud_write : forall c f q w x w', env_write_request c f q w = (x, w') -> (bud w' <= bud w)%nat;
  bud_start : forall c f q w, (bud (env_start_upload c f q w) <= bud w)%nat;
  bud_poll : forall c w x w', env_poll_upload c w = (x, w') -> (bud w' <= bud w)%nat;
  bud_join : forall c w x w', env_join_upload c w = (x, w') -> (bud w' <= bud w)%nat;
  bud_client : forall m w x w', env_write_client m w = (x, w') -> (bud w' <= bud w)%nat;
  bud_tunnel : forall c w, (bud (env_tunnel c w) <= bud w)%nat;
  bud_random : forall w x w', env_random w = (x, w') -> (bud w' <= bud w)%nat
}.

Section Halt.
Context `{UnicodeTables} {W : Type} `{Budget W}.
Variable cfg : Config.
Variable clientAddr : string.
Open Scope nat_scope.

(** From a budget of at most [B], the run finishes, and [Q] relates its result
    and the budget left. *)
Definition costs {A} (B : nat) (m : M W A) (Q : A -> nat -> Prop) : Prop :=
  forall s, bud (st_world s) <= B -> exists a s', m s = (Done a, s') /\ Q a (bud (st_world s')).

(** The operation finishes and does not add to the budget. *)
Definition halts {A} (m : M W A) : Prop := forall B, costs B m (fun _ B' => B' <= B).

Lemma costs_ret {A} B (a : A) (Q : A -> nat -> Prop) : (forall B', B' <= B -> Q a B') -> costs B (ret a) Q.
Proof. intros HQ s Hs. exists a, s. auto. Qed.

Lemma costs_bind {A C} B (m : M W A) (k : A -> M W C) Q' Q :
  costs B m Q' -> (forall a B', Q' a B' -> costs B' (k a) Q) -> costs B (bind m k) Q.
Proof.
  intros Hm Hk s Hs. unfold bind. destruct (Hm s Hs) as (a & s' & -> & HQ).
  by apply (Hk a _ HQ s').
Qed.

Lemma costs_halts {A C} B (m : M W A) (k : A -> M W C) Q :
  halts m -> (forall a B', B' <= B -> costs B' (k a) Q) -> costs B (bind m k) Q.
Proof. intros Hm Hk. eapply costs_bind; [apply Hm|]. intros a B' HB. by apply Hk. Qed.

Lemma costs_mono {A} B (m : M W A) (Q Q' : A -> nat -> Prop) :
  costs B m Q -> (forall a B', Q a B' -> Q' a B') -> costs B m Q'.
Proof. intros Hm HQ s Hs. destruct (Hm s Hs) as (a & s' & ? & ?). eauto. Qed.

Lemma halts_ret {A} (a : A) : halts (ret a).
Proof. intros B. by apply costs_ret. Qed.

Lemma halts_bind {A C} (m : M W A) (k : A -> M W C) :
  halts m -> (forall a, halts (k a)) -> halts (bind m k).
Proof.
  intros Hm Hk B. apply costs_halts; [done|]. intros a B' HB.
  eapply costs_mono; [apply Hk|]. cbn. lia.
Qed.

Lemma halts_emit e : halts (emit e).
Proof. intros B s Hs. by exists tt, (mk_st (st_world s) (st_trace s ++ [e]) (st_next s) (st_proxy s)). Qed.

Lemma halts_call {X} (f : W -> X * W) ev :
  (forall w x w', f w = (x, w') -> bud w' <= bud w) -> halts (call f ev).
Proof.
  intros Hf B s Hs. unfold call. destruct (f (st_world s)) as [x w] eqn:E. apply Hf in E.
  eexists _, _. split; [done|]. cbn. lia.
Qed.

Lemma halts_if {A} (b : bool) (m m' : M W A) : halts m -> halts m' -> halts (if b then m else m').
Proof. by destruct b. Qed.

Lemma halts_dial k : halts (dial k).
Proof.
  intros B s Hs. unfold dial. destruct (env_dial k (st_world s)) as [e w] eqn:E.
  apply bud_dial in E. eexists _, _. split; [done|]. cbn. lia.
Qed.

Lemma halts_proxy p : halts (set_proxy p).
Proof. intros B s Hs. eexists _, _. split; [done|]. done. Qed.

Lemma halts_get : halts (A := option conn) get_proxy.
Proof. intros B s Hs. eexists _, _. split; [done|]. done. Qed.

Lemma halts_ctx : halts ctx_done.
Proof. apply halts_call. apply bud_ctx. Qed.
Lemma halts_token : halts get_token.
Proof. apply halts_call. apply bud_token. Qed.
Lemma halts_client m : halts (write_client m).
Proof. apply halts_call. apply bud_client. Qed.
Lemma halts_random : halts random.
Proof. apply halts_call. apply bud_random. Qed.
Lemma halts_poll c : halts (poll_upload c).
Proof. apply halts_call. apply bud_poll. Qed.
Lemma halts_join c : halts (join_upload c).
Proof. apply halts_call. apply bud_join. Qed.
Lemma halts_write c f q : halts (call (env_write_request c f q) (EvSent c)).
Proof. apply halts_call. apply bud_write. Qed.
Lemma halts_tunnel c : halts (tunnel c).
Proof. apply halts_call. intros w x w' [= _ <-]. apply bud_tunnel. Qed.
Lemma halts_start c f q : halts (start_upload c f q).
Proof. apply halts_call. intros w x w' [= _ <-]. apply bud_start. Qed.

#[local] Hint Resolve halts_ret halts_emit halts_dial halts_proxy halts_get halts_ctx halts_token
  halts_client halts_random halts_poll halts_join halts_write halts_tunnel halts_start : halts.

(** Finish an operation that reads nothing. *)
Ltac halts_auto :=
  repeat first [ solve [auto with halts] | apply halts_bind; [|intros ?]
               | progress cbn beta zeta | case_match ].

Lemma halts_client_error pe : halts (client_error pe).
Proof. unfold client_error. halts_auto. Qed.
#[local] Hint Resolve halts_client_error : halts.

Lemma halts_keep_alive c : halts (keep_alive cfg c).
Proof. unfold keep_alive. halts_auto. Qed.
#[local] Hint Resolve halts_keep_alive : halts.

Lemma halts_send c f q : halts (send c f q).
Proof. unfold send. halts_auto. Qed.
#[local] Hint Resolve halts_send : halts.

Lemma halts_writeResponse r : halts (writeResponse r).
Proof. unfold writeResponse. halts_auto. Qed.

Lemma halts_await c t : halts (await_upload c t).
Proof. unfold await_upload. halts_auto. Qed.

Lemma halts_upstream_conn q : halts (upstream_conn cfg q).
Proof. unfold upstream_conn, dialAndAuthUpstream, handleDialError. halts_auto. Qed.

Lemma halts_dialAndAuth q : halts (dialAndAuthUpstream cfg q).
Proof. unfold dialAndAuthUpstream, handleDialError. halts_auto. Qed.

Lemma halts_forwarding q : halts (inject_forwarding cfg clientAddr q).
Proof. unfold inject_forwarding. halts_auto. Qed.

Lemma halts_close_proxy : halts close_proxy.
Proof. unfold close_proxy. halts_auto. Qed.
#[local] Hint Resolve halts_writeResponse halts_await halts_upstream_conn halts_dialAndAuth
  halts_forwarding halts_close_proxy : halts.

(** ** Reading *)

(** A successful outcome used some of the budget. *)
Definition spends {A} (ok : A -> Prop) (B : nat) (a : A) (B' : nat) : Prop :=
  B' <= B /\ (ok a -> B' < B).

Lemma costs_call {X} (f : W -> X * W) ev (ok : X -> Prop) B :
  (forall w x w', f w = (x, w') -> bud w' <= bud w /\ (ok x -> bud w' < bud w)) ->
  costs B (call f ev) (spends ok B).
Proof.
  intros Hf s Hs. unfold call. destruct (f (st_world s)) as [x w] eqn:E. apply Hf in E as [? Hx].
  eexists _, _. split; [done|]. split; cbn; [lia|]. intros Hok. specialize (Hx Hok). lia.
Qed.

Definition is_inr {A C} (x : A + C) : Prop := exists y, x = inr y.
Definition is_resp (t : through) : Prop := exists r, t = TResp r.

Lemma costs_read_request B : costs B read_request (spends is_inr B).
Proof.
  apply costs_call. intros w x w' [? Hx]%bud_read. split; [done|]. intros [q ->]. by eapply Hx.
Qed.

Lemma costs_read_response B c q : costs B (read_response c q) (spends is_inr B).
Proof.
  apply costs_call. intros w x w' [? Hx]%bud_response. split; [done|]. intros [r ->]. by eapply Hx.
Qed.

Lemma costs_readRequest B : costs B readRequest (spends is_inr B).
Proof.
  unfold readRequest. apply costs_halts; [halts_auto|]. intros [] B1 ?.
  apply costs_halts; [halts_auto|]. intros [|] B2 ?.
  { apply costs_ret. intros B' ?. split; [lia|]. by intros [? [=]]. }
  apply costs_halts; [halts_auto|]. intros [] B3 ?.
  eapply costs_bind; [apply costs_read_request|]. intros r B4 [? Hr].
  apply costs_halts; [halts_auto|]. intros [] B5 ?.
  apply costs_halts; [halts_auto|]. intros [] B6 ?.
  apply costs_halts; [halts_auto|]. intros [|] B7 ?; apply costs_ret; intros B8 ?.
  - split; [lia|]. by intros [? [=]].
  - split; [lia|]. intros Hi%Hr. lia.
Qed.

Lemma costs_readNextRequest B iter : costs B (readNextRequest iter) (spends is_Some B).
Proof.
  unfold readNextRequest. eapply costs_bind; [apply costs_readRequest|]. intros [e|req] B1 [? Hr].
  - eapply costs_mono with (Q := fun x B' => B' <= B1 /\ x = None).
    + repeat case_match; try (apply costs_ret; auto).
      apply costs_halts; [halts_auto|]. intros [] B2 ?. apply costs_ret. intros. split; [lia|done].
    + intros x B' [? ->]. split; [lia|]. by intros [? [=]].
  - apply costs_ret. intros B' ?. split; [lia|]. intros _. assert (B1 < B) by (apply Hr; eexists; done). lia.
Qed.

(** What [readOne] makes of a failed read is a failure. *)
Definition keeps_failure (post : error + response -> error + response) : Prop :=
  forall e r, post (inl e) <> inr r.

Lemma upstream_keeps : keeps_failure (upstream_post cfg).
Proof. intros e r. unfold upstream_post, readUpstreamResponse. by case_match. Qed.

Lemma direct_keeps : keeps_failure (direct_post cfg).
Proof. by intros e r. Qed.

Lemma costs_readThroughInterim fuel B c req post :
  B < fuel -> keeps_failure post -> costs B (readThroughInterim fuel c req post) (spends is_resp B).
Proof.
  intros HB Hpost. revert B HB. induction fuel as [|fuel IH]; intros B HB; [lia|].
  cbn [readThroughInterim]. eapply costs_bind; [apply costs_read_response|]. intros rr B1 [? Hr].
  destruct (post rr) as [e|resp] eqn:Ep.
  { apply costs_ret. intros B' ?. split; [lia|]. by intros [? [=]]. }
  assert (B1 < B).
  { destruct rr as [e|rr]; [by apply Hpost in Ep|]. apply Hr. by eexists. }
  case_match; [apply costs_ret; intros B' ?; split; [lia|]; lia|].
  case_match; [apply costs_ret; intros B' ?; split; [lia|]; lia|].
  apply costs_halts; [unfold relayInterimResponse; halts_auto|]. intros [e'|] B2 ?.
  - apply costs_ret. intros B' ?. split; lia.
  - eapply costs_mono; [apply IH; lia|]. intros t B' [? ?]. split; lia.
Qed.

Lemma costs_exchangeRequest fuel B c f req post :
  B < fuel -> keeps_failure post ->
  costs B (exchangeRequest fuel c f req post) (fun tw => spends (fun t => is_resp t) B tw.1).
Proof.
  intros HB Hpost. unfold exchangeRequest. case_match.
  - apply costs_halts; [halts_auto|]. intros [e|] B1 ?.
    + apply costs_ret. intros B' ?. split; [cbn; lia|]. by intros [? [=]].
    + eapply costs_bind; [apply costs_readThroughInterim; [lia|done]|]. intros t B2 [? Ht].
      apply costs_ret. intros B' ?. split; cbn; [lia|]. intros Hi%Ht. lia.
  - apply costs_halts; [halts_auto|]. intros [] B1 ?.
    eapply costs_bind; [apply costs_readThroughInterim; [lia|done]|]. intros t B2 [? Ht].
    eapply costs_bind with (Q' := fun tw B' => B' <= B2 /\ (is_resp tw.1 -> is_resp t)).
    + intros s Hs. destruct (halts_await c t B2 s Hs) as (tw & s' & E & ?).
      exists tw, s'. split_and!; [done..|]. revert E. unfold await_upload, bind, emit, ret.
      unfold poll_upload, join_upload, call, is_resp.
      destruct t; [by eauto|..]; repeat case_match; intros; simplify_eq; naive_solver.
    + intros tw B3 [? Htw]. apply costs_halts; [halts_auto|]. intros [] B4 ?. apply costs_ret.
      intros B' ?. split; [lia|]. intros Hi. enough (B2 < B1) by lia. apply Ht, Htw.
      destruct tw as [[r| |] [e|]]; cbn in *; try done. by eexists.
Qed.

(** ** Relaying *)

Lemma halts_relay_end req resp :
  halts (w <- writeResponse resp ;;
     match w with
     | (_, Some _) => ret false
     | (resp, None) => ret (negb (connectionWillClose req resp))
     end).
Proof. halts_auto. Qed.

Lemma costs_answer {A} B pe (a : A) : costs B (client_error pe ;; ret a) (fun x B' => B' <= B /\ x = a).
Proof. apply costs_halts; [halts_auto|]. intros [] B1 ?. apply costs_ret. intros B' ?. split; [lia|done]. Qed.

Definition goes_on (ok : bool) : Prop := ok = true.

Lemma costs_refuse B B0 pe : B <= B0 -> costs B (client_error pe ;; ret false) (spends goes_on B0).
Proof. intros HB. eapply costs_mono; [apply costs_answer|]. intros ok B' [? ->]. split; [lia|done]. Qed.

Lemma costs_stop B B0 : B <= B0 -> costs B (ret false) (spends goes_on B0).
Proof. intros HB. apply costs_ret. intros B' ?. split; [lia|done]. Qed.

Lemma costs_relayed B B0 req resp :
  B < B0 -> costs B (w <- writeResponse resp ;;
     match w with
     | (_, Some _) => ret false
     | (resp, None) => ret (negb (connectionWillClose req resp))
     end) (spends goes_on B0).
Proof. intros HB. eapply costs_mono; [apply halts_relay_end|]. intros ok B' ?. cbn in *. split; lia. Qed.

#[local] Hint Resolve costs_refuse costs_stop costs_relayed : halts.

Lemma costs_relayViaUpstream fuel B req :
  B < fuel -> costs B (relayViaUpstream cfg clientAddr fuel req) (spends goes_on B).
Proof.
  intros HB. unfold relayViaUpstream, handleUpstreamResponseError.
  apply costs_halts; [halts_auto|]. intros req2 B1 ?.
  apply costs_halts; [halts_auto|]. intros [[c req3]|] B2 ?; [|apply costs_stop; lia].
  eapply costs_bind; [apply costs_exchangeRequest; [lia|apply upstream_keeps]|].
  intros [[resp|e|e] [e'|]] B3 [? Hr]; auto with halts lia.
  apply costs_relayed. assert (B3 < B2) by (apply Hr; by eexists). lia.
Qed.

Lemma costs_relayDirect fuel B c req :
  B < fuel -> costs B (relayDirect cfg fuel c req) (spends goes_on B).
Proof.
  intros HB. unfold relayDirect.
  eapply costs_bind; [apply costs_exchangeRequest; [lia|apply direct_keeps]|].
  intros [[resp|e|e] [e'|]] B3 [? Hr]; auto with halts lia.
  apply costs_relayed. assert (B3 < B) by (apply Hr; by eexists). lia.
Qed.

Lemma costs_nextDirectRequest B b : costs B (nextDirectRequest cfg b) (spends is_Some B).
Proof.
  unfold nextDirectRequest. eapply costs_bind; [apply costs_readRequest|]. intros [e|req] B1 [? Hr].
  { apply costs_ret. intros B' ?. split; [lia|]. by intros [? [=]]. }
  assert (B1 < B) by (apply Hr; by eexists).
  assert (Hh : forall m : M W (option (request * bool)), halts m -> costs B1 m (spends is_Some B)).
  { intros m Hm. eapply costs_mono; [apply Hm|]. intros x B' ?. cbn in *. split; lia. }
  apply Hh. halts_auto.
Qed.

Lemma costs_direct_loop fuel B c b req :
  B + 1 < fuel ->
  costs B (direct_loop cfg fuel c b req) (fun nc B' => B' <= B /\ (nc.2 = true -> B' + 2 <= B)).
Proof.
  revert B req. induction fuel as [|fuel IH]; intros B req HB; [lia|]. cbn [direct_loop].
  eapply costs_bind; [apply costs_relayDirect; lia|]. intros [|] B1 [? Hok]; cbn [negb].
  2: { apply costs_ret. intros. split; [lia|done]. }
  assert (B1 < B) by (by apply Hok).
  eapply costs_bind; [apply costs_nextDirectRequest|]. intros [[r [|]]|] B2 [? Hr].
  - assert (B2 < B1) by (apply Hr; by eexists). apply costs_ret. intros. cbn. lia.
  - assert (B2 < B1) by (apply Hr; by eexists). eapply costs_mono; [apply IH; lia|].
    intros nc B' [? Hnc]. split; [lia|]. intros ?%Hnc. lia.
  - apply costs_ret. intros. split; [lia|done].
Qed.

(** What a round of [run] uses up when the session goes on. *)
Definition round_cost (B : nat) (nc : option request * bool) (B' : nat) : Prop :=
  B' <= B /\ (nc.2 = true -> B' + (if nc.1 then 2 else 1) <= B).

Lemma costs_round_stop B (m : M W unit) (n : option request) :
  costs B m (fun _ B' => B' <= B) -> costs B (m ;; ret (n, false)) (round_cost B).
Proof.
  intros Hm. eapply costs_bind; [exact Hm|]. intros [] B1 ?. apply costs_ret. intros. split; [lia|done].
Qed.

Lemma costs_forwardDirect fuel B req :
  B + 1 < fuel -> costs B (forwardDirect cfg fuel req) (round_cost B).
Proof.
  intros HB. unfold forwardDirect, dialDirect, handleDialError.
  apply costs_halts; [halts_auto|]. intros [e|c] B1 ?.
  { eapply costs_mono; [apply costs_answer|]. intros nc B' [? ->]. split; [lia|done]. }
  apply costs_halts; [halts_auto|]. intros [] B2 ?.
  eapply costs_bind; [apply costs_direct_loop; lia|]. intros nc B3 [? Hnc].
  apply costs_halts; [halts_auto|]. intros [] B4 ?. apply costs_ret. intros B' ?.
  split; [lia|]. intros ?%Hnc. case_match; lia.
Qed.

Lemma costs_handleConnectTunnel fuel B c req :
  B < fuel -> costs B (handleConnectTunnel cfg fuel c req) (fun _ B' => B' <= B).
Proof.
  intros HB. unfold handleConnectTunnel, handleUpstreamResponseError.
  eapply costs_bind; [apply costs_readThroughInterim; [lia|apply upstream_keeps]|]. intros t B1 [? _].
  match goal with |- costs _ ?m _ => assert (Hm : halts m) by halts_auto end.
  eapply costs_mono; [apply Hm|]. cbn. lia.
Qed.

Lemma costs_tunnelViaUpstream fuel B req :
  B < fuel -> costs B (tunnelViaUpstream cfg clientAddr fuel req) (fun _ B' => B' <= B).
Proof.
  intros HB. unfold tunnelViaUpstream. apply costs_halts; [halts_auto|]. intros req2 B1 ?.
  apply costs_halts; [halts_auto|]. intros [[c req3]|] B2 ?; [|apply costs_ret; lia].
  apply costs_halts; [halts_auto|]. intros [e|] B3 ?.
  - match goal with |- costs _ ?m _ => assert (Hm : halts m) by halts_auto end.
    eapply costs_mono; [apply Hm|]. cbn. lia.
  - eapply costs_bind; [apply costs_handleConnectTunnel; lia|]. intros [] B4 ?.
    eapply costs_mono; [apply halts_emit|]. cbn in *. lia.
Qed.

Lemma halts_tunnelDirect req : halts (tunnelDirect cfg req).
Proof. unfold tunnelDirect, dialDirect, handleDialError. halts_auto. Qed.

Lemma costs_serve_one fuel B req :
  B + 1 < fuel -> costs B (serve_one cfg clientAddr fuel req) (round_cost B).
Proof.
  intros HB. unfold serve_one, routeRequest. destruct (validateRequest cfg req) as [req'|resp|pe].
  - destruct (noproxy_match _ _), (String.eqb _ _).
    + apply costs_round_stop, halts_tunnelDirect.
    + by apply costs_forwardDirect.
    + apply costs_round_stop, costs_tunnelViaUpstream. lia.
    + eapply costs_bind; [apply costs_relayViaUpstream; lia|]. intros ok B1 [? Hok].
      apply costs_ret. intros B' ?. split; [lia|]. intros ?%Hok. cbn. lia.
  - eapply costs_mono with (Q := fun nc B' => B' <= B /\ nc.2 = false).
    + apply costs_halts; [halts_auto|]. intros e B1 ?. apply costs_ret. intros. split; [lia|done].
    + intros nc B' [? Hnc]. split; [lia|]. by rewrite Hnc.
  - eapply costs_mono; [apply costs_answer|]. intros nc B' [? ->]. split; [lia|done].
Qed.

Lemma costs_run fuel B iter (pending : option request) :
  B + (if pending then 2 else 1) < fuel ->
  costs B (run cfg clientAddr fuel iter pending) (fun _ B' => B' <= B).
Proof.
  revert B iter pending. induction fuel as [|fuel IH]; intros B iter pending HB; [lia|]. cbn [run].
  eapply costs_bind with (Q' := fun r B' => B' <= B /\ (is_Some r -> B' + 1 < fuel)).
  { destruct pending as [req|]; [apply costs_ret; lia|].
    eapply costs_mono; [apply costs_readNextRequest|]. intros r B' [? Hr]. split; [lia|]. intros ?%Hr. lia. }
  intros [req|] B1 [? Hr]; [|apply costs_ret; lia].
  assert (B1 + 1 < fuel) by (apply Hr; by eexists).
  eapply costs_bind; [by apply costs_serve_one|]. intros [n [|]] B2 [? Hnc]; [|apply costs_ret; lia].
  specialize (Hnc eq_refl). cbn in Hnc. eapply costs_mono; [apply IH; destruct n; lia|]. cbn. lia.
Qed.

Lemma session_halts fuel w :
  bud w + 1 < fuel -> (session cfg clientAddr fuel w).1 = Done tt.
Proof.
  intros HB. assert (Hc : costs (bud w) (handleClientCtx cfg clientAddr fuel) (fun _ B' => B' <= bud w)).
  { unfold handleClientCtx. eapply costs_bind with (Q' := fun _ B' => B' <= bud w).
    - case_match; [by apply costs_ret|]. case_match.
      + match goal with |- costs _ ?m _ => assert (Hm : halts m) by halts_auto end. apply Hm.
      + eapply costs_bind; [apply costs_run; lia|]. intros [] B1 ?.
        eapply costs_mono; [apply halts_close_proxy|]. cbn in *. lia.
    - intros [] B1 ?. match goal with |- costs _ ?m _ => assert (Hm : halts m) by halts_auto end.
      eapply costs_mono; [apply Hm|]. cbn. lia. }
  destruct (Hc (init_st w)) as ([] & s' & E & _); [done|]. unfold session. by rewrite E.
Qed.

End Halt.
