(* ===== verification/Script.v ===== *)
(** * A scripted environment

    An executable [Env]: what the client sends, what the dialled connections
    answer and when shutdown is observed are lists, read in order.  It has a
    [Budget], so its sessions end, and concrete sessions evaluate in it. *)

From S2P Require Import Prelude GoStrings GoNet GoHttp Errors Config Hosts NoProxy Headers.
From S2P Require Import Response Validate Effects Session SessionLoop SessionHalt.

Record script := mk_script {
  sc_requests : list (error + request);
  sc_done : list bool;
  sc_tokens : list (error + string);
  sc_dials : list (option error);
  sc_responses : list (error + response)
}.

Definition eof : error := Err KEOF "EOF" None.
Definition no_token : error := Err KCredential "no credentials" None.

(** The head of a list and the rest, [d] for ever when it is empty. *)
Definition pop {A} (d : A) (l : list A) : A * list A :=
  match l with [] => (d, []) | x :: l => (x, l) end.

#[export] Instance script_env : Env script := {
  env_read_request w := let '(x, l) := pop (inl eof) (sc_requests w) in
    (x, mk_script l (sc_done w) (sc_tokens w) (sc_dials w) (sc_responses w));
  env_ctx_done w := let '(x, l) := pop false (sc_done w) in
    (x, mk_script (sc_requests w) l (sc_tokens w) (sc_dials w) (sc_responses w));
  env_get_token w := let '(x, l) := pop (inl no_token) (sc_tokens w) in
    (x, mk_script (sc_requests w) (sc_done w) l (sc_dials w) (sc_responses w));
  env_dial _ w := let '(x, l) := pop None (sc_dials w) in
    (x, mk_script (sc_requests w) (sc_done w) (sc_tokens w) l (sc_responses w));
  env_write_request _ _ _ w := (None, w);
  env_start_upload _ _ _ w := w;
  env_poll_upload _ w := (Some None, w);
  env_join_upload _ w := (None, w);
  env_read_response _ _ w := let '(x, l) := pop (inl eof) (sc_responses w) in
    (x, mk_script (sc_requests w) (sc_done w) (sc_tokens w) (sc_dials w) l);
  env_write_client _ w := (None, w);
  env_tunnel _ w := w;
  env_random w := ("0123456789abcdef", w)
}.

Lemma pop_length {A B} (d : A + B) e l x l' :
  d = inl e -> pop d l = (x, l') ->
  (length l' <= length l)%nat /\ forall q, x = inr q -> (length l' < length l)%nat.
Proof. intros -> E. destruct l; cbn in E; simplify_eq; cbn; split; auto with lia; done. Qed.

(** A scripted session is bounded by the messages of its script. *)
#[export, refine] Instance script_budget : Budget script := {
  bud w := (length (sc_requests w) + length (sc_responses w))%nat
}.
Proof.
  all: intros; cbn in *; repeat case_match; simplify_eq; cbn; try lia.
  - edestruct (pop_length (A:=error) (B:=request)) as [H1 H2]; [done|eassumption|]. split; [lia|].
    intros q Hq. specialize (H2 q Hq). lia.
  - edestruct (pop_length (A:=error) (B:=response)) as [H1 H2]; [done|eassumption|]. split; [lia|].
    intros q Hq. specialize (H2 q Hq). lia.
Defined.

(** Unicode tables for ASCII inputs: no other rune is mapped. *)
#[export] Instance ascii_tables : UnicodeTables := {| rune_lower r := r |}.

(** ** A concrete configuration and its messages *)

Definition demo_config : Config :=
  mk_Config "proxy.corp:8080" "spnego-proxy-demo" 0 0 30 0 ["443"] []
    (Some (NewNoProxyMatcher "internal.corp")) (mk_ForwardingConfig true true).

Definition demo_request (method host : string) (h : header) : request :=
  mk_request method ("http://" +:+ host +:+ "/") "HTTP/1.1" 1 1 host h [] None None false.

Definition demo_response (code : Z) (h : header) : response :=
  mk_response "" code "HTTP/1.1" 1 1 h [] 0 false "".

(** Two requests through the upstream proxy, with a smuggled credential on the
    second, then one for a no-proxy host, then one that goes back upstream. *)
Definition demo_script : script :=
  mk_script
    [inr (demo_request "GET" "a.example" ∅);
     inr (demo_request "GET" "b.example" (<["Proxy-Authorization" := ["Basic x"]]> ∅));
     inr (demo_request "GET" "internal.corp" (<["Proxy-Authorization" := ["Basic x"]]> ∅));
     inr (demo_request "GET" "INTERNAL.corp:80" ∅);
     inr (demo_request "GET" "c.example" ∅)]
    [] [inr "token"] []
    [inr (demo_response 200 ∅); inr (demo_response 103 ∅); inr (demo_response 404 ∅);
     inr (demo_response 200 ∅); inr (demo_response 200 ∅); inr (demo_response 200 ∅)].

(** A CONNECT through the upstream proxy. *)
Definition tunnel_script : script :=
  mk_script [inr (demo_request "CONNECT" "a.example:443" ∅)] [] [inr "token"] []
    [inr (demo_response 200 ∅)].

Definition demo_addr : string := "127.0.0.1:50000".
