(* ===== verification/SessionThms.v ===== *)
(** * What a session guarantees

    Theorems about the traces of [handleClientCtx], for every environment:
    whatever the client, the peers, the token provider and the shutdown
    signal do, and however far the session has got. *)

From S2P Require Import Prelude GoStrings GoNet GoHttp Errors Config Hosts NoProxy Headers.
From S2P Require Import Response Validate Effects Session SessionInv SessionLoop SessionHalt.
From S2P Require Import Script.

(** ** Headers of a forwarded request *)

Lemma lookup_injectForwarding_hop req ca cfg rnd n :
  n ∈ hop_by_hop ->
  req_header (injectForwardingHeaders req ca cfg rnd) !! canonical_key n =
  req_header req !! canonical_key n.
Proof.
  intros Hn. apply injectForwardingHeaders_other. unfold hop_by_hop in Hn.
  repeat (apply elem_of_cons in Hn as [->|Hn]; [unfold forwarding_keys; set_solver|]).
  by apply not_elem_of_nil in Hn.
Qed.

Lemma lookup_inject_via_hop cfg req n :
  n ∈ hop_by_hop ->
  req_header (inject_via cfg req) !! canonical_key n = req_header req !! canonical_key n.
Proof.
  intros Hn. apply lookup_injectVia_ne. unfold hop_by_hop in Hn.
  repeat (apply elem_of_cons in Hn as [->|Hn]; [done|]). by apply not_elem_of_nil in Hn.
Qed.

Lemma auth_hop : headerProxyAuthorization ∈ hop_by_hop.
Proof. unfold hop_by_hop. set_solver. Qed.

Lemma validateRequest_te_cl cfg r0 r1 :
  validateRequest cfg r0 = VProceed r1 -> req_te r1 <> [] ->
  hget (req_header r1) headerContentLength = "".
Proof.
  intros (_ & _ & r & _ & ->)%validateRequest_proceed Hte. apply sanitize_te_cl.
  by destruct (sanitize_fields r) as (_ & _ & _ & _ & <- & _).
Qed.

(** The fields the proxy itself sets or extends. *)
Definition own_fields : list string :=
  canonical_key headerProxyAuthorization :: canonical_key headerVia :: forwarding_keys.

(** [r2] is [r1] but for those. *)
Definition carries (r1 r2 : request) : Prop :=
  req_method r2 = req_method r1 /\ req_host r2 = req_host r1 /\ req_proto r2 = req_proto r1 /\
  req_te r2 = req_te r1 /\ req_body r2 = req_body r1 /\ req_trailer r2 = req_trailer r1 /\
  (forall x, x ∉ own_fields -> req_header r2 !! x = req_header r1 !! x).

Lemma carries_refl r : carries r r.
Proof. by split_and!. Qed.

Lemma carries_trans r1 r2 r3 : carries r1 r2 -> carries r2 r3 -> carries r1 r3.
Proof.
  intros (? & ? & ? & ? & ? & ? & Ha) (? & ? & ? & ? & ? & ? & Hb).
  split_and!; try congruence. intros x ?. rewrite Hb, Ha; done.
Qed.

Lemma carries_via cfg r : carries r (inject_via cfg r).
Proof.
  split_and!; try done. intros x Hx. apply lookup_injectVia_ne. intros <-. apply Hx. unfold own_fields. set_solver.
Qed.

Lemma carries_forwarding r ca cfg rnd : carries r (injectForwardingHeaders r ca cfg rnd).
Proof.
  destruct (injectForwardingHeaders_fields r ca cfg rnd) as (? & ? & ? & ? & ? & ? & ? & ? & _).
  split_and!; try done. intros x Hx. apply injectForwardingHeaders_other. unfold own_fields in Hx. set_solver.
Qed.

Lemma carries_token r token : carries r (with_token r token).
Proof.
  split_and!; try done. intros x Hx. apply lookup_hset_ne. intros <-. apply Hx. unfold own_fields. set_solver.
Qed.

(** What validation leaves of a field. *)
Lemma validateRequest_lookup cfg r0 r1 x :
  validateRequest cfg r0 = VProceed r1 -> x ∉ removed_keys (req_header r0) -> x <> "Content-Length" -> x <> "Max-Forwards" ->
  req_header r1 !! x = req_header r0 !! x.
Proof.
  intros (_ & _ & r & Hr & ->)%validateRequest_proceed Hx Hc Hm.
  apply applyMaxForwards_keys in Hr as [Hk Ht]. rewrite sanitize_lookup by done.
  unfold removed_keys in *. rewrite Ht, bool_decide_eq_false_2 by done. by apply Hk.
Qed.

Lemma validateRequest_removed cfg r0 r1 x :
  validateRequest cfg r0 = VProceed r1 -> x ∈ removed_keys (req_header r0) -> req_header r1 !! x = None.
Proof.
  intros (_ & _ & r & Hr & ->)%validateRequest_proceed Hx. apply applyMaxForwards_keys in Hr as [_ Ht].
  apply sanitize_removed. unfold removed_keys in *. by rewrite Ht.
Qed.

Lemma injectVia_nonempty h proto ps :
  String.eqb (hget (injectVia h proto ps) headerVia) "" = false.
Proof.
  unfold injectVia. destruct (appendHeaderValue_suffix h headerVia (proto +:+ " " +:+ ps)) as [p ->].
  by destruct p, proto.
Qed.

(** Closes of connection [c]. *)
Definition is_close (c : conn) (e : event) : bool :=
  match e with EvClose d => (c =? d)%nat | _ => false end.

Lemma count_close_0 c tr : count (is_close c) tr = 0%nat <-> EvClose c ∉ tr.
Proof.
  induction tr as [|e tr IH] using rev_ind; [split; [intros _; apply not_elem_of_nil|done]|].
  rewrite count_snoc, elem_snoc. destruct e; cbn; try (rewrite Nat.add_0_r, IH; naive_solver).
  destruct (Nat.eqb_spec c c0) as [<-|Hne]; [split; [lia|naive_solver]|].
  rewrite Nat.add_0_r, IH. naive_solver.
Qed.

Lemma close_once `{UnicodeTables} cfg clientAddr c tr :
  ok_trace cfg clientAddr tr -> (count (is_close c) tr <= 1)%nat.
Proof.
  induction tr as [|e tr IH] using rev_ind; intros Ht; [cbn; lia|]. rewrite count_snoc.
  apply ok_trace_init in Ht as [Ht' He]. specialize (IH Ht').
  destruct (is_close c e) eqn:E; [|lia]. destruct e; try done. apply Nat.eqb_eq in E as <-.
  destruct He as [_ Hc]. apply count_close_0 in Hc. lia.
Qed.

Section Theorems.
Context `{UnicodeTables} {W : Type} `{Env W}.
Variable cfg : Config.
Variable clientAddr : string.

Abbreviation trace := (session_trace (W := W) cfg clientAddr).

(** The events before the [i]-th. *)
Definition history (fuel : nat) (w : W) (i : nat) : list event := take i (trace fuel w).

Lemma session_allowed fuel w i e :
  trace fuel w !! i = Some e -> allowed cfg clientAddr (history fuel w i) e.
Proof.
  intros Hi. apply (session_ok cfg clientAddr fuel w _ _ (drop (S i) (trace fuel w))).
  symmetry. by apply take_drop_middle.
Qed.

(** The request read from the client behind a request that was sent. *)
Definition origin (hist : list event) (req : request) : Prop :=
  exists r0 r1, EvRead (inr r0) ∈ hist /\ validateRequest cfg r0 = VProceed r1 /\
    ((exists rnd, req = inject_via cfg (injectForwardingHeaders r1 clientAddr (Forwarding cfg) rnd)) \/
     (exists rnd token, EvToken (inr token) ∈ hist /\
        req = inject_via cfg (with_token (injectForwardingHeaders r1 clientAddr (Forwarding cfg) rnd) token)) \/
     req = inject_via cfg r1).

Lemma sent_origin fuel w i c f req :
  trace fuel w !! i = Some (EvSend c f req) -> origin (history fuel w i) req.
Proof.
  intros Ha%session_allowed. destruct f.
  - destruct Ha as (_ & _ & _ & r0 & r1 & rnd & ? & ? & _ & Hr). exists r0, r1. split_and!; [done..|].
    destruct Hr as [[_ ->]|[_ (token & ? & ->)]]; eauto 10.
  - destruct Ha as (_ & _ & (r0 & r1 & ? & ? & _ & ->) & _). exists r0, r1. eauto 10.
Qed.

Lemma sent_carries fuel w i c f req :
  trace fuel w !! i = Some (EvSend c f req) ->
  exists r0 r1, EvRead (inr r0) ∈ history fuel w i /\ validateRequest cfg r0 = VProceed r1 /\ carries r1 req.
Proof.
  intros (r0 & r1 & ? & ? & Hreq)%sent_origin. exists r0, r1. split_and!; [done..|].
  destruct Hreq as [[rnd ->]|[(rnd & token & _ & ->)| ->]].
  - eapply carries_trans; [apply carries_forwarding|apply carries_via].
  - eapply carries_trans; [apply carries_forwarding|].
    eapply carries_trans; [apply carries_token|apply carries_via].
  - apply carries_via.
Qed.

Lemma hop_not_own n : n ∈ hop_by_hop -> n <> headerProxyAuthorization -> canonical_key n ∉ own_fields.
Proof.
  unfold hop_by_hop, own_fields, forwarding_keys. intros Hn Hne.
  repeat (apply elem_of_cons in Hn as [->|Hn]; [first [done|set_solver]|]). by apply not_elem_of_nil in Hn.
Qed.

(** The Proxy-Authorization of a request that is sent. *)
Lemma sent_auth fuel w i c f req :
  trace fuel w !! i = Some (EvSend c f req) ->
  req_header req !! canonical_key headerProxyAuthorization = None \/
  f = ProxyForm /\ exists token, EvToken (inr token) ∈ history fuel w i /\
    req_header req !! canonical_key headerProxyAuthorization = Some [negotiateScheme +:+ token].
Proof.
  intros Ha%session_allowed. destruct f.
  - destruct Ha as (_ & _ & ? & r0 & r1 & rnd & _ & Hv & _ & Hr).
    destruct Hr as [[? ->]|[? (token & ? & ->)]]; [left|right; split; [done|exists token; split; [done|]]];
      rewrite (lookup_inject_via_hop _ _ _ auth_hop).
    + rewrite (lookup_injectForwarding_hop _ _ _ _ _ auth_hop).
      by apply (validateRequest_hop_key _ _ _ _ Hv), auth_hop.
    + apply lookup_hset_eq.
  - destruct Ha as (_ & _ & (r0 & r1 & _ & Hv & _ & ->) & _). left.
    rewrite (lookup_inject_via_hop _ _ _ auth_hop). by apply (validateRequest_hop_key _ _ _ _ Hv), auth_hop.
Qed.

(** C1 (credentials_only_upstream): credentials.  A request written to a directly dialled host carries
    no Proxy-Authorization; a request written to the upstream proxy carries
    exactly the Negotiate token obtained from the provider when it is the
    first on its connection, and none afterwards.  What the client put in
    that header is never forwarded. *)
Theorem credentials_only_upstream fuel w i c f req :
  trace fuel w !! i = Some (EvSend c f req) ->
  let hist := history fuel w i in
  let auth := req_header req !! "Proxy-Authorization" in
  match f with
  | OriginForm => (exists b t, EvDial c (DialDirect b t) None ∈ hist) /\ auth = None
  | ProxyForm =>
      EvDial c DialUpstream None ∈ hist /\
      ((sent_on hist c /\ auth = None) \/
       (~ sent_on hist c /\ exists token,
          EvToken (inr token) ∈ hist /\ auth = Some ["Negotiate " +:+ token]))
  end.
Proof.
  intros Ha%session_allowed. cbn zeta. change "Proxy-Authorization" with (canonical_key headerProxyAuthorization).
  destruct f.
  - destruct Ha as (_ & _ & ? & r0 & r1 & rnd & _ & Hv & _ & Hr). split; [done|].
    destruct Hr as [[? ->]|[? (token & ? & ->)]]; [left|right; split; [done|exists token]]; (split; [done|]);
      rewrite (lookup_inject_via_hop _ _ _ auth_hop).
    + rewrite (lookup_injectForwarding_hop _ _ _ _ _ auth_hop).
      by apply (validateRequest_hop_key _ _ _ _ Hv), auth_hop.
    + apply lookup_hset_eq.
  - destruct Ha as (_ & _ & (r0 & r1 & _ & Hv & _ & ->) & b & ? & _). split; [by eauto|].
    rewrite (lookup_inject_via_hop _ _ _ auth_hop). by apply (validateRequest_hop_key _ _ _ _ Hv), auth_hop.
Qed.

(** C3 (forwarded_request_clean): what is forwarded of a request.  A forwarded request, on either path,
    comes from a request read from the client, with its method, host, protocol,
    body and transfer coding.  Of its header, no field of the hop-by-hop list is
    left and none that a Connection field of the client names, unless the proxy
    sets it itself (Via, the forwarding fields, Proxy-Authorization); of the
    latter there is none, or, on the way to the upstream proxy, only the
    Negotiate value of a token obtained before.  It has no trailer and no
    Content-Length next to a transfer coding.  Every other field that the proxy
    does not set itself is there with the client's values, but for Content-Length
    and Max-Forwards. *)
Theorem forwarded_request_clean fuel w i c f req :
  trace fuel w !! i = Some (EvSend c f req) ->
  (forall n, n ∈ hop_by_hop -> n <> headerProxyAuthorization -> req_header req !! canonical_key n = None) /\
  (req_header req !! canonical_key headerProxyAuthorization = None \/
   f = ProxyForm /\ exists token, EvToken (inr token) ∈ history fuel w i /\
     req_header req !! canonical_key headerProxyAuthorization = Some [negotiateScheme +:+ token]) /\
  req_trailer req = None /\
  (req_te req <> [] -> hget (req_header req) headerContentLength = "") /\
  exists r0, EvRead (inr r0) ∈ history fuel w i /\
    req_method req = req_method r0 /\ req_host req = req_host r0 /\ req_proto req = req_proto r0 /\
    req_body req = req_body r0 /\ req_te req = req_te r0 /\
    (forall n, n ∈ connection_tokens (req_header r0) -> canonical_key n ∉ own_fields ->
       req_header req !! canonical_key n = None) /\
    (forall x, x ∉ canonical_key <$> hop_by_hop -> x ∉ canonical_key <$> connection_tokens (req_header r0) ->
       x ∉ own_fields -> x <> "Content-Length" -> x <> "Max-Forwards" ->
       req_header req !! x = req_header r0 !! x).
Proof.
  intros Hi. pose proof (sent_auth _ _ _ _ _ _ Hi) as Hauth. apply sent_carries in Hi as (r0 & r1 & Hr0 & Hv & Hc).
  pose proof (validateRequest_fields _ _ _ Hv) as (Hm & Hh & Hp & Ht & Hb & _ & _ & _ & Htr).
  destruct Hc as (Em & Eh & Ep & Et & Eb & Etr & Hf). split_and!.
  - intros n Hn Hne. rewrite Hf by (by apply hop_not_own). by apply (validateRequest_hop_key _ _ _ _ Hv).
  - exact Hauth.
  - congruence.
  - intros Hte. unfold hget. rewrite Hf by (unfold own_fields, forwarding_keys; set_solver).
    apply (validateRequest_te_cl _ _ _ Hv). congruence.
  - exists r0. split_and!; [done|congruence..| |].
    + intros n Hn Ho. rewrite Hf by done. apply (validateRequest_removed _ _ _ _ Hv). unfold removed_keys. set_solver.
    + intros x Hx1 Hx2 Ho Hcl Hmf. rewrite Hf by done. apply (validateRequest_lookup _ _ _ _ Hv); [|done..].
      unfold removed_keys. set_solver.
Qed.

(** a direct connection serves one host.  A request in origin form is
    written only on a connection dialled for a host that the no-proxy rules
    match, and only if its own host names the same host and port; for hosts
    that are well formed this is the endpoint the request itself would have
    been dialled at. *)
Theorem direct_connection_bound fuel w i c req :
  trace fuel w !! i = Some (EvSend c OriginForm req) ->
  exists b, EvDial c (DialDirect b (dial_target b "80")) None ∈ history fuel w i /\
    noproxy_match cfg b = true /\ sameHost (req_host req) b "80" = true /\
    (ascii_trimmed (req_host req) -> ascii_trimmed b -> dialable (req_host req) -> dialable b ->
     endpoint (req_host req) "80" = endpoint b "80").
Proof.
  intros Ha%session_allowed. destruct Ha as (_ & _ & _ & b & ? & Hs & ?). exists b. split_and!; [done..|].
  intros ????. by apply sameHost_iff_endpoint.
Qed.

(** C17 (direct_dials_matched): who is dialled.  A direct dial is only made for the host of a
    validated request that the no-proxy rules match, at port 443 for CONNECT
    and 80 otherwise unless the host names one, and for CONNECT only at an
    allowed port; the upstream proxy is only
    dialled once a token has been obtained. *)
Theorem direct_dials_matched fuel w i c k e :
  trace fuel w !! i = Some (EvDial c k e) ->
  match k with
  | DialUpstream => exists token, EvToken (inr token) ∈ history fuel w i
  | DialDirect b t =>
      noproxy_match cfg b = true /\
      exists r0, EvRead (inr r0) ∈ history fuel w i /\ b = req_host r0 /\
        t = dial_target b (if String.eqb (req_method r0) "CONNECT" then "443" else "80") /\
        (req_method r0 = "CONNECT" -> connectPortAllowed (connect_port b) (ConnectPorts cfg) = true)
  end.
Proof.
  intros Ha%session_allowed. destruct Ha as (_ & _ & Hk). destruct k as [|b t]; [done|].
  destruct Hk as (? & r0 & r1 & ? & Hv & -> & ->). split; [done|]. exists r0.
  pose proof (validateRequest_fields _ _ _ Hv) as (Hm & Hh & _). rewrite Hm, Hh.
  split_and!; [done..|]. by eapply connect_port_allowed.
Qed.

(** C18 (quiet_after_shutdown): shutdown and tunnels end the session.  After the session has
    observed the cancelled context, or after a tunnel, it reads no request or
    response, acquires no token, dials nothing, writes no request and starts
    no tunnel. *)
Theorem quiet_after_shutdown fuel w i e :
  trace fuel w !! i = Some e ->
  EvCtx true ∈ history fuel w i \/ (exists c, EvTunnel c ∈ history fuel w i) ->
  match e with
  | EvRead _ | EvResp _ _ | EvToken _ | EvDial _ _ _ | EvSend _ _ _ | EvTunnel _ => False
  | _ => True
  end.
Proof.
  intros Ha%session_allowed Hq.
  assert (Hn : ~ running (history fuel w i)).
  { intros [H1 H2]. destruct Hq as [?|[c ?]]; [done|by eapply H2]. }
  destruct e as [| | | |c [] req| | | | | | | | | | | | | | | |]; try done; apply Hn, Ha.
Qed.

(** C5 (one_answer_per_request): requests are answered one by one.  Whenever the session reads a
    request, every request it read before has had exactly one final answer
    written to the client. *)
Theorem one_answer_per_request fuel w i r :
  trace fuel w !! i = Some (EvRead r) ->
  nreads (history fuel w i) = nfinals (history fuel w i).
Proof. by intros Ha%session_allowed; destruct Ha. Qed.

Lemma relayed_direct fuel w i c rr r1 :
  let hist := history fuel w i in
  EvDial c DialUpstream None ∈ hist -> relayed cfg hist c rr r1 -> upstream_post cfg (inr rr) = inr r1.
Proof.
  intros hist Hd [[_ Hp]|(b & t & Hb & _)]; [done|exfalso].
  assert (Hin : forall x, x ∈ hist -> x ∈ trace fuel w) by (intros x Hx; by eapply subseteq_take).
  by pose proof (dial_unique cfg clientAddr _ _ _ _ (session_ok cfg clientAddr fuel w) (Hin _ Hd) (Hin _ Hb)).
Qed.

(** C14 (tunnel_after_success): a tunnel runs on an open connection after the client was told that
    its CONNECT succeeded, and on the upstream path that answer is the
    upstream's own 2xx response. *)
Theorem tunnel_after_success fuel w i c :
  trace fuel w !! i = Some (EvTunnel c) ->
  let hist := history fuel w i in
  opened hist c /\
  exists r, 200 <= resp_code r < 300 /\ EvClient (CConnect (writeConnectOK r)) None ∈ hist /\
    (EvDial c DialUpstream None ∈ hist ->
     exists rr, EvResp c (inr rr) ∈ hist /\ resp_code rr = resp_code r).
Proof.
  intros Ha%session_allowed. destruct Ha as (_ & Ho & r & ? & Hs & Hf). split; [done|]. exists r.
  split_and!; [apply Hs|apply Hs|done|]. intros Hd. destruct (Hf Hd) as (rr & ? & Hrel & _). exists rr.
  split; [done|]. pose proof (relayed_direct fuel w i c rr r Hd Hrel) as Hp. unfold upstream_post in Hp.
  by apply readUpstreamResponse_ok in Hp as (resp & [= ->] & -> & _).
Qed.

(** a CONNECT is only sent upstream for an allowed port. *)
Theorem connect_ports_enforced fuel w i c f req :
  trace fuel w !! i = Some (EvSend c f req) -> req_method req = "CONNECT" ->
  f = ProxyForm /\ connectPortAllowed (connect_port (req_host req)) (ConnectPorts cfg) = true.
Proof.
  intros Hi Hm. split.
  - destruct f; [done|]. apply session_allowed in Hi. destruct Hi as (_ & _ & (r0 & r1 & _ & _ & Hne & ->) & _).
    done.
  - apply sent_carries in Hi as (r0 & r1 & _ & Hv & Em & Eh & _).
    pose proof (validateRequest_fields _ _ _ Hv) as (Hm' & Hh & _). rewrite Eh, Hh.
    eapply connect_port_allowed; [exact Hv|]. congruence.
Qed.

(** C19 (forwarded_request_loops): loop detection.  Every request the proxy forwards carries its
    pseudonym in Via, so that the proxy rejects it with
    [proxy_loop_detected] should it come back unchanged. *)
Theorem forwarded_request_loops fuel w i c f req :
  trace fuel w !! i = Some (EvSend c f req) ->
  contains (hget (req_header req) headerVia) (Pseudonym cfg) = true /\
  validateRequest cfg req = VReject errProxyLoopDetected.
Proof.
  intros (r0 & r1 & _ & _ & Hreq)%sent_origin.
  assert (Hr : exists r2, req = inject_via cfg r2).
  { destruct Hreq as [[rnd ->]|[(rnd & token & _ & ->)| ->]]; eauto. }
  destruct Hr as [r2 ->]. cbn [inject_via with_header req_header].
  pose proof (injectVia_contains (req_header r2) (req_proto r2) (Pseudonym cfg)) as Hc. split; [done|].
  unfold validateRequest, via_loop. cbn [inject_via with_header req_header]. rewrite Hc.
  by rewrite injectVia_nonempty.
Qed.

Lemma finished_closed fuel w c k :
  (session cfg clientAddr fuel w).1 = Done tt -> EvDial c k None ∈ trace fuel w ->
  count (is_close c) (trace fuel w) = 1%nat.
Proof.
  intros Hdone Hd. pose proof (close_once cfg clientAddr c _ (session_ok cfg clientAddr fuel w)) as Hle.
  enough (count (is_close c) (trace fuel w) <> 0%nat) by (unfold count in *; lia).
  intros Hz. apply (session_closed cfg clientAddr fuel w c Hdone). split; [by exists k|].
  by apply count_close_0.
Qed.

(** C15 (no_use_after_close): no request is written, no response read, no tunnel run and no second
    close made on a connection that was closed or never dialled. *)
Theorem no_use_after_close fuel w i e c :
  trace fuel w !! i = Some e ->
  (exists f req, e = EvSend c f req) \/ (exists r, e = EvResp c r) \/ e = EvTunnel c \/ e = EvClose c ->
  dialled (history fuel w i) c /\ EvClose c ∉ history fuel w i.
Proof.
  intros Ha%session_allowed He.
  destruct He as [([] & req & ->)|[(r & ->)|[-> | ->]]]; cbn in Ha; unfold opened in Ha; tauto.
Qed.

(** What the client may get as a relayed response [r]: the status and body of
    a response of connection [c], with the proxy's Via; from the upstream
    proxy also without its challenge, with one framing and with header octets
    that were checked. *)
Definition relayed_response (hist : list event) (r : response) : Prop :=
  exists c rr, EvResp c (inr rr) ∈ hist /\
    resp_code r = resp_code rr /\ resp_body r = resp_body rr /\ isInterimResponse r = false /\
    (resp_close rr = true -> resp_close r = true) /\
    contains (hget (resp_header r) headerVia) (Pseudonym cfg) = true /\
    (EvDial c DialUpstream None ∈ hist ->
       safe_header (resp_header rr) /\
       resp_header r !! "Proxy-Authenticate" = None /\
       (resp_te r <> [] -> hget (resp_header r) headerContentLength = "")).

Lemma final_relayed_response fuel w i c r1 r :
  let hist := history fuel w i in
  final_from cfg hist c r1 -> r = r1 \/ r = with_resp_close r1 true -> relayed_response hist r.
Proof.
  intros hist (rr & Hrr & Hrel & Hi) Hr. exists c, rr.
  assert (Hpost : resp_code r1 = resp_code rr /\ resp_body r1 = resp_body rr /\
    resp_close r1 = resp_close rr /\ contains (hget (resp_header r1) headerVia) (Pseudonym cfg) = true).
  { destruct Hrel as [[_ Hp]|(b & t & _ & [= <-])].
    - unfold upstream_post in Hp.
      apply readUpstreamResponse_ok in Hp as (resp & [= ->] & ? & ? & ? & _ & ? & _). done.
    - cbn. split_and!; [done..|]. apply injectVia_contains. }
  destruct Hpost as (Hc & Hb & Hcl & Hv).
  assert (Hup : EvDial c DialUpstream None ∈ hist -> safe_header (resp_header rr) /\
    resp_header r1 !! "Proxy-Authenticate" = None /\
    (resp_te r1 <> [] -> hget (resp_header r1) headerContentLength = "")).
  { intros Hd. pose proof (relayed_direct fuel w i c rr r1 Hd Hrel) as Hp.
    unfold upstream_post in Hp. pose proof (readUpstreamResponse_inv _ _ _ Hp) as (? & [= <-] & ? & _).
    apply readUpstreamResponse_ok in Hp as (resp & _ & _ & _ & _ & _ & _ & ? & ? & _). done. }
  destruct Hr as [-> | ->]; cbn; split_and!; try done; by rewrite Hcl.
Qed.

(** C16 (client_output): everything written to the client is an entry of the error
    catalogue, the local answer to Max-Forwards, a response of a dialled
    connection as relayed by the proxy, an interim response with checked
    header octets and without framing fields, or the announcement of a tunnel. *)
Theorem client_output fuel w i m e :
  trace fuel w !! i = Some (EvClient m e) ->
  let hist := history fuel w i in
  match m with
  | CResponse r =>
      (exists pe, pe ∈ proxy_errors /\ r = writeHTTPError pe) \/
      (exists r0, EvRead (inr r0) ∈ hist /\ r = writeMaxForwardsResponse r0) \/
      relayed_response hist r
  | CInterim s =>
      exists c rr h, EvResp c (inr rr) ∈ hist /\ 100 <= resp_code rr < 200 /\ resp_code rr <> 101 /\
        safe_header h /\
        s = resp_proto rr +:+ " " +:+ resp_status rr +:+ crlf +:+ write_subset h interim_excluded +:+ crlf
  | CConnect s => exists r, s = writeConnectOK r /\ 200 <= resp_code r < 300
  end.
Proof.
  intros Hi hist. apply session_allowed in Hi. fold hist in Hi. destruct m as [r|s|s].
  - destruct Hi as [?|[?|(c & r1 & Hf & Hr)]]; [by left|by right; left|].
    right. right. by eapply final_relayed_response.
  - destruct Hi as (c & rr & r1 & req & Hrr & Hrel & Hint & Hsafe & Hs).
    exists c, rr, (resp_header r1).
    assert (Hf : resp_code r1 = resp_code rr /\ resp_proto r1 = resp_proto rr /\ resp_status r1 = resp_status rr).
    { destruct Hrel as [[_ Hp]|(b & t & _ & [= <-])]; [|done].
      unfold upstream_post in Hp. apply readUpstreamResponse_inv in Hp as (? & [= <-] & _ & _ & ->). cbn.
      destruct (resolve_te_cl_fields rr) as (? & ? & ? & _). done. }
    destruct Hf as (Hc & Hp & Hst). unfold isInterimResponse in Hint. unfold interim_bytes in Hs.
    bool_prop. case_match; [done|]. injection Hs as <-. rewrite Hp, Hst. split_and!; try done; lia.
  - destruct Hi as (r & -> & Hs & _). by exists r.
Qed.

(** a client whose address the allow list does not contain gets the 403 of
    [errClientDenied] and is closed: nothing is parsed, dialled or
    authenticated for it. *)
Theorem denied_client fuel w :
  Pseudonym cfg <> "" -> ip_denied cfg clientAddr = true ->
  exists e, trace fuel w =
    [EvClient (CResponse (writeHTTPError errClientDenied)) e; EvReadDeadlineClient true;
     EvDrainClient; EvCloseWriteClient; EvCloseClient].
Proof.
  intros Hps%String.eqb_neq Hden. unfold session_trace, session, handleClientCtx.
  rewrite Hps, Hden. unfold client_error, write_client, call, emit, bind, ret. cbn.
  destruct (env_write_client _ w) as [e w']. by exists e.
Qed.

End Theorems.

(** C13 (session_terminates): sessions end and leak nothing.  When the client and the dialled
    connections deliver finitely many messages, a session with fuel for them
    runs to its end, and there every connection that was dialled successfully
    has been closed exactly once. *)
Theorem session_terminates `{UnicodeTables} {W} `{Budget W} cfg clientAddr fuel (w : W) :
  (bud w + 1 < fuel)%nat ->
  (session cfg clientAddr fuel w).1 = Done tt /\
  forall c k, EvDial c k None ∈ session_trace cfg clientAddr fuel w ->
    count (is_close c) (session_trace cfg clientAddr fuel w) = 1%nat.
Proof.
  intros Hf. pose proof (session_halts cfg clientAddr fuel w Hf) as Hd. split; [done|].
  intros c k. by apply finished_closed.
Qed.

(** ** Witnesses on concrete sessions *)

Abbreviation demo_trace := (session_trace demo_config demo_addr 20 demo_script).

(** The third request of the concrete session: its client sent a credential
    of its own and its host is a no-proxy host. *)
Lemma credentials_only_upstream_witness :
  exists c req, demo_trace !! 42%nat = Some (EvSend c OriginForm req) /\
    req_header req !! "Proxy-Authorization" = None.
Proof.
  eexists _, _. split; [vm_compute; reflexivity|].
  eapply (credentials_only_upstream demo_config demo_addr 20 demo_script 42 _ OriginForm).
  vm_compute. reflexivity.
Defined.

(** Its second request, reusing the upstream connection. *)
Lemma forwarded_request_clean_witness :
  exists c f req, demo_trace !! 25%nat = Some (EvSend c f req) /\ req_trailer req = None.
Proof.
  eexists _, _, _. split; [vm_compute; reflexivity|].
  eapply (forwarded_request_clean demo_config demo_addr 20 demo_script 25).
  vm_compute. reflexivity.
Defined.

(** Its fourth request, for the same host in another spelling. *)
Lemma direct_connection_bound_witness :
  exists c req, demo_trace !! 54%nat = Some (EvSend c OriginForm req) /\
    exists b, sameHost (req_host req) b "80" = true.
Proof.
  eexists _, _. split; [vm_compute; reflexivity|].
  edestruct (direct_connection_bound demo_config demo_addr 20 demo_script 54) as (b & _ & _ & Hb & _).
  - vm_compute. reflexivity.
  - exists b. exact Hb.
Defined.

Lemma direct_dials_matched_witness :
  exists c b t e, demo_trace !! 39%nat = Some (EvDial c (DialDirect b t) e) /\
    noproxy_match demo_config b = true.
Proof.
  eexists _, _, _, _. split; [vm_compute; reflexivity|].
  eapply (direct_dials_matched demo_config demo_addr 20 demo_script 39 _ (DialDirect _ _)).
  vm_compute. reflexivity.
Defined.

(** A session that observes shutdown while it reads its second request. *)
Definition shutdown_script : script :=
  mk_script (sc_requests demo_script) [false; false; false; false; true]
    (sc_tokens demo_script) [] (sc_responses demo_script).

Lemma quiet_after_shutdown_witness :
  exists e, session_trace demo_config demo_addr 20 shutdown_script !! 24%nat = Some e /\
    match e with
    | EvRead _ | EvResp _ _ | EvToken _ | EvDial _ _ _ | EvSend _ _ _ | EvTunnel _ => False
    | _ => True
    end.
Proof.
  eexists. split; [vm_compute; reflexivity|].
  eapply (quiet_after_shutdown demo_config demo_addr 20 shutdown_script 24).
  - vm_compute. reflexivity.
  - left. apply (list_elem_of_lookup_2 _ 23). vm_compute. reflexivity.
Defined.

Lemma one_answer_per_request_witness :
  exists r, demo_trace !! 62%nat = Some (EvRead r) /\
    nreads (history demo_config demo_addr 20 demo_script 62) =
    nfinals (history demo_config demo_addr 20 demo_script 62).
Proof.
  eexists. split; [vm_compute; reflexivity|].
  eapply (one_answer_per_request demo_config demo_addr 20 demo_script 62).
  vm_compute. reflexivity.
Defined.

Abbreviation tunnel_trace := (session_trace demo_config demo_addr 20 tunnel_script).

Lemma tunnel_after_success_witness :
  exists c r, tunnel_trace !! 16%nat = Some (EvTunnel c) /\ 200 <= resp_code r < 300.
Proof.
  eexists. edestruct (tunnel_after_success demo_config demo_addr 20 tunnel_script 16) as (_ & r & Hr & _).
  - vm_compute. reflexivity.
  - exists r. split; [vm_compute; reflexivity|exact Hr].
Defined.

Lemma connect_ports_enforced_witness :
  exists c f req, tunnel_trace !! 12%nat = Some (EvSend c f req) /\
    connectPortAllowed (connect_port (req_host req)) (ConnectPorts demo_config) = true.
Proof.
  eexists _, _, _. split; [vm_compute; reflexivity|].
  eapply (connect_ports_enforced demo_config demo_addr 20 tunnel_script 12); vm_compute; reflexivity.
Defined.

Lemma forwarded_request_loops_witness :
  exists c f req, demo_trace !! 12%nat = Some (EvSend c f req) /\
    validateRequest demo_config req = VReject errProxyLoopDetected.
Proof.
  eexists _, _, _. split; [vm_compute; reflexivity|].
  eapply (forwarded_request_loops demo_config demo_addr 20 demo_script 12).
  vm_compute. reflexivity.
Defined.

Lemma no_use_after_close_witness :
  demo_trace !! 80%nat = Some (EvClose 0) /\
  EvClose 0 ∉ history demo_config demo_addr 20 demo_script 80.
Proof.
  split; [vm_compute; reflexivity|].
  apply (no_use_after_close demo_config demo_addr 20 demo_script 80 (EvClose 0)).
  - vm_compute. reflexivity.
  - right. right. right. reflexivity.
Defined.

(** The 103 of the concrete session. *)
Lemma client_output_witness :
  exists s e, demo_trace !! 28%nat = Some (EvClient (CInterim s) e) /\
    exists c rr, EvResp c (inr rr) ∈ history demo_config demo_addr 20 demo_script 28 /\
      100 <= resp_code rr < 200.
Proof.
  eexists _, _. split; [vm_compute; reflexivity|].
  edestruct (fun s e => client_output demo_config demo_addr 20 demo_script 28 (CInterim s) e)
    as (c & rr & h & H1 & H2 & _).
  - vm_compute. reflexivity.
  - exists c, rr. split; [exact H1|exact H2].
Defined.

(** A client outside the allow list. *)
Definition guarded_config : Config :=
  mk_Config "proxy.corp:8080" "spnego-proxy-demo" 0 0 0 0 [] (default [] (ParseAllowList "10.0.0.0/8"))
    None (mk_ForwardingConfig false false).

Lemma denied_client_witness :
  exists e, session_trace guarded_config demo_addr 5 demo_script =
    [EvClient (CResponse (writeHTTPError errClientDenied)) e; EvReadDeadlineClient true;
     EvDrainClient; EvCloseWriteClient; EvCloseClient].
Proof.
  apply (denied_client guarded_config demo_addr 5 demo_script); [discriminate|vm_compute; reflexivity].
Defined.

Lemma session_terminates_witness :
  (session demo_config demo_addr 13 demo_script).1 = Done tt.
Proof. apply (session_terminates demo_config demo_addr 13 demo_script). vm_compute. lia. Defined.
