(* ===== verification/SessionSecret.v ===== *)
(** * The token influences nothing but its header

    Noninterference of a session with respect to the tokens it is given.  Two
    worlds that answer alike, whatever the token in the Proxy-Authorization
    field of a request sent to the upstream proxy, give traces that are equal
    once the tokens are hidden: no answer to the client, no direct connection,
    no routing decision and no end of a session depends on a token. *)

From S2P Require Import Prelude GoStrings GoNet GoHttp Errors Config Hosts NoProxy Headers.
From S2P Require Import Response Validate Effects Session SessionLoop Script.

(** ** Requests up to their credential *)

Definition without_token (r : request) : request :=
  with_header r (hdel (req_header r) headerProxyAuthorization).

Definition token_equiv (r1 r2 : request) : Prop := without_token r1 = without_token r2.

#[export] Instance token_equiv_equiv : Equivalence token_equiv.
Proof. split; unfold token_equiv; [by intros r|by intros r1 r2|intros r1 r2 r3; congruence]. Qed.

Lemma token_equiv_set r v1 v2 :
  token_equiv (with_header r (hset (req_header r) headerProxyAuthorization v1))
              (with_header r (hset (req_header r) headerProxyAuthorization v2)).
Proof.
  unfold token_equiv, without_token, hset, hdel, with_header. cbn. by rewrite !delete_insert_eq.
Qed.

(** Everything but the header, and every other field of it. *)
Lemma token_equiv_fields r1 r2 :
  token_equiv r1 r2 ->
  (req_method r1, req_uri r1, req_proto r1, req_major r1, req_minor r1, req_host r1) =
  (req_method r2, req_uri r2, req_proto r2, req_major r2, req_minor r2, req_host r2) /\
  (req_te r1, req_trailer r1, req_body r1, req_close r1) = (req_te r2, req_trailer r2, req_body r2, req_close r2).
Proof. unfold token_equiv, without_token, with_header. intros [= -> -> -> -> -> -> _ -> -> -> ->]. done. Qed.

Lemma token_equiv_lookup r1 r2 k :
  token_equiv r1 r2 -> k <> canonical_key headerProxyAuthorization -> req_header r1 !! k = req_header r2 !! k.
Proof.
  intros E Hk. apply (f_equal req_header) in E. cbn in E. unfold hdel in E.
  rewrite <- (lookup_delete_ne (req_header r1) (canonical_key headerProxyAuthorization) k) by done.
  by rewrite E, lookup_delete_ne.
Qed.

#[export] Instance expects_continue_proper : Proper (token_equiv ==> eq) expects_continue.
Proof.
  intros r1 r2 E. unfold expects_continue, hvalues.
  rewrite (token_equiv_lookup r1 r2 (canonical_key "Expect") E); [done|]. by vm_compute.
Qed.

#[export] Instance req_body_proper : Proper (token_equiv ==> eq) req_body.
Proof. by intros r1 r2 [_ [= _ _ -> _]]%token_equiv_fields. Qed.

#[export] Instance connectionWillClose_proper : Proper (token_equiv ==> eq ==> eq) connectionWillClose.
Proof.
  intros r1 r2 [E1 E2]%token_equiv_fields resp ? <-. unfold connectionWillClose.
  injection E1 as _ _ _ -> -> _. by injection E2 as _ _ _ ->.
Qed.

#[export] Instance interim_bytes_proper : Proper (token_equiv ==> eq ==> eq) interim_bytes.
Proof.
  intros r1 r2 [E1 _]%token_equiv_fields resp ? <-. unfold interim_bytes, clientCannotParseInterim, proto_at_least.
  by injection E1 as _ _ _ -> -> _.
Qed.

Lemma inject_via_equiv cfg r1 r2 : token_equiv r1 r2 -> token_equiv (inject_via cfg r1) (inject_via cfg r2).
Proof.
  intros E. destruct (token_equiv_fields _ _ E) as [E1 E2].
  assert (Hv : hget (req_header r1) headerVia = hget (req_header r2) headerVia).
  { unfold hget. rewrite (token_equiv_lookup r1 r2 (canonical_key headerVia) E); [done|]. by vm_compute. }
  apply (f_equal req_header) in E. unfold token_equiv, without_token, inject_via, with_header in *. cbn in *.
  injection E1 as -> -> -> -> -> ->. injection E2 as -> -> -> ->. f_equal.
  unfold injectVia, appendHeaderValue. rewrite Hv. unfold hset, hdel in *.
  case_match; rewrite !delete_insert_ne by (by vm_compute); by rewrite E.
Qed.

(** ** Traces with their tokens hidden *)

Definition hide (e : event) : event :=
  match e with
  | EvToken (inr _) => EvToken (inr "")
  | EvSend c ProxyForm r => EvSend c ProxyForm (without_token r)
  | _ => e
  end.

(** Requests that may be sent in place of one another. *)
Definition wire_equiv (f : wire) (r1 r2 : request) : Prop :=
  match f with ProxyForm => token_equiv r1 r2 | OriginForm => r1 = r2 end.

#[export] Instance wire_equiv_refl f : Reflexive (wire_equiv f).
Proof. by destruct f. Qed.

Lemma wire_token f r1 r2 : wire_equiv f r1 r2 -> token_equiv r1 r2.
Proof. by destruct f; [|intros ->]. Qed.

Lemma hide_send c f r1 r2 : wire_equiv f r1 r2 -> hide (EvSend c f r1) = hide (EvSend c f r2).
Proof. destruct f; cbn; [by intros ->|by intros ->]. Qed.

(** Both tokens, or the same error. *)
Definition token_result (x1 x2 : error + string) : Prop :=
  match x1, x2 with inr _, inr _ => True | _, _ => x1 = x2 end.

(** A world in which nothing that happens depends on a token. *)
Class Oblivious (W : Type) `{Env W} := {
  alike : W -> W -> Prop;
  alike_read : forall w1 w2, alike w1 w2 ->
    (env_read_request w1).1 = (env_read_request w2).1 /\ alike (env_read_request w1).2 (env_read_request w2).2;
  alike_done : forall w1 w2, alike w1 w2 ->
    (env_ctx_done w1).1 = (env_ctx_done w2).1 /\ alike (env_ctx_done w1).2 (env_ctx_done w2).2;
  alike_token : forall w1 w2, alike w1 w2 ->
    token_result (env_get_token w1).1 (env_get_token w2).1 /\ alike (env_get_token w1).2 (env_get_token w2).2;
  alike_dial : forall k w1 w2, alike w1 w2 ->
    (env_dial k w1).1 = (env_dial k w2).1 /\ alike (env_dial k w1).2 (env_dial k w2).2;
  alike_write : forall c f r1 r2 w1 w2, wire_equiv f r1 r2 -> alike w1 w2 ->
    (env_write_request c f r1 w1).1 = (env_write_request c f r2 w2).1 /\
    alike (env_write_request c f r1 w1).2 (env_write_request c f r2 w2).2;
  alike_start : forall c f r1 r2 w1 w2, wire_equiv f r1 r2 -> alike w1 w2 ->
    alike (env_start_upload c f r1 w1) (env_start_upload c f r2 w2);
  alike_poll : forall c w1 w2, alike w1 w2 ->
    (env_poll_upload c w1).1 = (env_poll_upload c w2).1 /\ alike (env_poll_upload c w1).2 (env_poll_upload c w2).2;
  alike_join : forall c w1 w2, alike w1 w2 ->
    (env_join_upload c w1).1 = (env_join_upload c w2).1 /\ alike (env_join_upload c w1).2 (env_join_upload c w2).2;
  alike_resp : forall c r1 r2 w1 w2, token_equiv r1 r2 -> alike w1 w2 ->
    (env_read_response c r1 w1).1 = (env_read_response c r2 w2).1 /\
    alike (env_read_response c r1 w1).2 (env_read_response c r2 w2).2;
  alike_client : forall m w1 w2, alike w1 w2 ->
    (env_write_client m w1).1 = (env_write_client m w2).1 /\
    alike (env_write_client m w1).2 (env_write_client m w2).2;
  alike_tunnel : forall c w1 w2, alike w1 w2 -> alike (env_tunnel c w1) (env_tunnel c w2);
  alike_random : forall w1 w2, alike w1 w2 ->
    (env_random w1).1 = (env_random w2).1 /\ alike (env_random w1).2 (env_random w2).2
}.

(** ** A relational logic for the session monad *)

Section Relational.
Context {W : Type} `{Oblivious W}.

Definition st_alike (s1 s2 : st W) : Prop :=
  alike (st_world s1) (st_world s2) /\ hide <$> st_trace s1 = hide <$> st_trace s2 /\
  st_next s1 = st_next s2 /\ st_proxy s1 = st_proxy s2.

(** Two programs that run in step and end in results related by [R]. *)
Definition rel {A} (R : A -> A -> Prop) (m1 m2 : M W A) : Prop :=
  forall s1 s2, st_alike s1 s2 ->
  match m1 s1, m2 s2 with
  | (Done a1, t1), (Done a2, t2) => R a1 a2 /\ st_alike t1 t2
  | (OutOfFuel, t1), (OutOfFuel, t2) => st_alike t1 t2
  | _, _ => False
  end.

Lemma rel_ret {A} (R : A -> A -> Prop) a1 a2 : R a1 a2 -> rel R (ret a1) (ret a2).
Proof. by intros HR s1 s2 Hs. Qed.

Lemma rel_fuel {A} (R : A -> A -> Prop) : rel R out_of_fuel out_of_fuel.
Proof. by intros s1 s2 Hs. Qed.

Lemma rel_bind {A B} (R : A -> A -> Prop) (Q : B -> B -> Prop) m1 m2 k1 k2 :
  rel R m1 m2 -> (forall a1 a2, R a1 a2 -> rel Q (k1 a1) (k2 a2)) -> rel Q (bind m1 k1) (bind m2 k2).
Proof.
  intros Hm Hk s1 s2 Hs. specialize (Hm s1 s2 Hs). unfold bind.
  destruct (m1 s1) as [[a1|] t1], (m2 s2) as [[a2|] t2]; try done. destruct Hm as [Ha Ht]. by apply (Hk a1 a2 Ha).
Qed.

Lemma rel_bind_eq {A B} (Q : B -> B -> Prop) (m : M W A) k1 k2 :
  rel eq m m -> (forall a, rel Q (k1 a) (k2 a)) -> rel Q (bind m k1) (bind m k2).
Proof. intros Hm Hk. eapply rel_bind; [exact Hm|]. by intros a ? <-. Qed.

Lemma st_alike_snoc s1 s2 w1 w2 e1 e2 n :
  st_alike s1 s2 -> alike w1 w2 -> hide e1 = hide e2 ->
  st_alike (mk_st w1 (st_trace s1 ++ [e1]) n (st_proxy s1)) (mk_st w2 (st_trace s2 ++ [e2]) n (st_proxy s2)).
Proof. intros (_ & Ht & _ & Hp) Hw He. split_and!; cbn; [done| |done..]. by rewrite !fmap_app, Ht, !fmap_cons, He. Qed.

Lemma rel_emit e1 e2 : hide e1 = hide e2 -> rel eq (emit e1) (emit e2).
Proof.
  intros He s1 s2 Hs. split; [done|]. cbn. destruct Hs as (Hw & Ht & Hn & Hp). rewrite <- Hn.
  by apply st_alike_snoc.
Qed.

Lemma rel_call {X} (R : X -> X -> Prop) f1 f2 ev1 ev2 :
  (forall w1 w2, alike w1 w2 -> R (f1 w1).1 (f2 w2).1 /\ alike (f1 w1).2 (f2 w2).2) ->
  (forall x1 x2, R x1 x2 -> hide (ev1 x1) = hide (ev2 x2)) -> rel R (call f1 ev1) (call f2 ev2).
Proof.
  intros Hf He s1 s2 Hs. unfold call. destruct (Hf _ _ (proj1 Hs)) as [HR Hw].
  destruct (f1 (st_world s1)) as [x1 w1], (f2 (st_world s2)) as [x2 w2]. cbn in *. split; [done|].
  pose proof Hs as (_ & _ & Hn & _). rewrite <- Hn. by apply st_alike_snoc; [| |apply He].
Qed.

Lemma rel_call_eq {X} f1 f2 (ev : X -> event) :
  (forall w1 w2, alike w1 w2 -> (f1 w1).1 = (f2 w2).1 /\ alike (f1 w1).2 (f2 w2).2) ->
  rel eq (call f1 ev) (call f2 ev).
Proof. intros Hf. apply rel_call; [exact Hf|]. by intros x ? <-. Qed.

Lemma rel_get_proxy : rel eq get_proxy get_proxy.
Proof. intros s1 s2 Hs. split; [apply Hs|done]. Qed.

Lemma rel_set_proxy p : rel eq (set_proxy p) (set_proxy p).
Proof. intros s1 s2 (Hw & Ht & Hn & Hp). by split_and!. Qed.

Lemma rel_dial k : rel eq (dial k) (dial k).
Proof.
  intros s1 s2 Hs. unfold dial. destruct (alike_dial k _ _ (proj1 Hs)) as [Hx Hw].
  destruct (env_dial k (st_world s1)) as [e w1], (env_dial k (st_world s2)) as [e2 w2]. cbn in *. subst e2.
  pose proof Hs as (_ & _ & Hn & _). rewrite <- Hn. split; [done|]. by apply st_alike_snoc.
Qed.

Lemma rel_start_upload c f r1 r2 : wire_equiv f r1 r2 -> rel eq (start_upload c f r1) (start_upload c f r2).
Proof.
  intros Hr. apply rel_call; [|intros; by apply hide_send]. intros w1 w2 Hw. split; [done|]. by apply alike_start.
Qed.

Lemma rel_send c f r1 r2 : wire_equiv f r1 r2 -> rel eq (send c f r1) (send c f r2).
Proof.
  intros Hr. eapply rel_bind; [by apply rel_emit, hide_send|]. intros _ _ _. apply rel_call_eq.
  intros w1 w2. by apply alike_write.
Qed.

Lemma rel_get_token : rel token_result get_token get_token.
Proof.
  apply rel_call; [exact alike_token|]. by intros [e1|t1] [e2|t2]; cbn; [intros [= ->]|..].
Qed.

Lemma rel_tunnel c : rel eq (tunnel c) (tunnel c).
Proof. apply rel_call_eq. intros w1 w2 Hw. split; [done|]. by apply alike_tunnel. Qed.
End Relational.

(** ** Every operation of a session *)

Section Session.
Context `{UnicodeTables} {W : Type} `{Oblivious W}.
Variable cfg : Config.
Variable clientAddr : string.

Create HintDb obl.
#[local] Hint Resolve rel_fuel rel_get_proxy rel_set_proxy rel_dial rel_tunnel alike_read alike_done alike_poll
  alike_join alike_client alike_random : obl.
#[local] Hint Extern 1 (rel eq (emit _) (emit _)) => apply rel_emit; reflexivity : obl.
#[local] Hint Extern 2 (rel eq (ret _) (ret _)) => apply rel_ret; reflexivity : obl.
#[local] Hint Extern 1 (wire_equiv _ _ _) => reflexivity : obl.
#[local] Hint Extern 3 (rel eq (call _ _) (call _ _)) => apply rel_call_eq : obl.

(** A program run twice: bind by bind, branch by branch. *)
Ltac obl :=
  repeat first [ solve [eauto 3 with obl] | progress intros | apply rel_bind_eq | case_match ].

Lemma obl_client_error pe : rel eq (client_error pe) (client_error pe).
Proof. unfold client_error, write_client. obl. Qed.

Lemma obl_write_client m : rel eq (write_client m) (write_client m).
Proof. unfold write_client. obl. Qed.

Lemma obl_ctx_done : rel eq ctx_done ctx_done.
Proof. unfold ctx_done. obl. Qed.

#[local] Hint Resolve obl_client_error obl_write_client obl_ctx_done : obl.

Lemma obl_keep_alive c : rel eq (keep_alive cfg c) (keep_alive cfg c).
Proof. unfold keep_alive. obl. Qed.

Lemma obl_readRequest : rel eq readRequest readRequest.
Proof. unfold readRequest, read_request. obl. Qed.

#[local] Hint Resolve obl_keep_alive obl_readRequest : obl.

Lemma obl_readNextRequest iter : rel eq (readNextRequest iter) (readNextRequest iter).
Proof. unfold readNextRequest. obl. Qed.

Lemma obl_readThroughInterim fuel c r1 r2 post :
  token_equiv r1 r2 -> rel eq (readThroughInterim fuel c r1 post) (readThroughInterim fuel c r2 post).
Proof.
  intros Hr. induction fuel as [|fuel IH]; cbn [readThroughInterim]; [apply rel_fuel|].
  eapply rel_bind; [apply rel_call_eq; intros w1 w2; by apply alike_resp|]. intros rr ? <-.
  unfold relayInterimResponse. destruct (post rr) as [e|resp]; [obl|]. rewrite (interim_bytes_proper r1 r2 Hr resp resp eq_refl). obl.
Qed.

Lemma obl_await_upload c t : rel eq (await_upload c t) (await_upload c t).
Proof. unfold await_upload, poll_upload, join_upload. obl. Qed.

#[local] Hint Resolve obl_readNextRequest obl_readThroughInterim obl_await_upload : obl.

Lemma obl_exchangeRequest fuel c f r1 r2 post :
  wire_equiv f r1 r2 -> rel eq (exchangeRequest fuel c f r1 post) (exchangeRequest fuel c f r2 post).
Proof.
  intros Hf. pose proof (wire_token _ _ _ Hf) as Hr. unfold exchangeRequest.
  rewrite (expects_continue_proper _ _ Hr), (req_body_proper _ _ Hr). case_match.
  - eapply rel_bind; [by apply rel_send|]. intros [e|] ? <-; [obl|].
    eapply rel_bind; [by apply obl_readThroughInterim|]. intros t ? <-. obl.
  - eapply rel_bind; [by apply rel_start_upload|]. intros _ _ _.
    eapply rel_bind; [by apply obl_readThroughInterim|]. intros t ? <-. obl.
Qed.

Lemma obl_writeResponse resp : rel eq (writeResponse resp) (writeResponse resp).
Proof. unfold writeResponse. obl. Qed.

Lemma obl_inject_forwarding r : rel eq (inject_forwarding cfg clientAddr r) (inject_forwarding cfg clientAddr r).
Proof. unfold inject_forwarding, random. obl. Qed.

#[local] Hint Resolve obl_exchangeRequest obl_writeResponse obl_inject_forwarding : obl.

(** A connection and the request to send on it, up to the token. *)
Definition conn_equiv (x1 x2 : option (conn * request)) : Prop :=
  match x1, x2 with
  | Some (c1, r1), Some (c2, r2) => c1 = c2 /\ token_equiv r1 r2
  | None, None => True
  | _, _ => False
  end.

#[local] Instance conn_equiv_refl : Reflexive conn_equiv.
Proof. by intros [[c r]|]. Qed.

Lemma obl_dialAndAuth r : rel conn_equiv (dialAndAuthUpstream cfg r) (dialAndAuthUpstream cfg r).
Proof.
  unfold dialAndAuthUpstream, handleDialError. eapply rel_bind; [apply rel_get_token|].
  intros [e1|t1] [e2|t2] Ht; cbn in Ht; try discriminate.
  - injection Ht as ->. apply rel_bind_eq; [obl|]. intros _. by apply rel_ret.
  - apply rel_bind_eq; [obl|]. intros [e|c].
    + apply rel_bind_eq; [obl|]. intros _. by apply rel_ret.
    + apply rel_bind_eq; [obl|]. intros _. apply rel_ret. split; [done|]. apply token_equiv_set.
Qed.

Lemma obl_upstream_conn r : rel conn_equiv (upstream_conn cfg r) (upstream_conn cfg r).
Proof.
  unfold upstream_conn. apply rel_bind_eq; [obl|]. intros [c|]; [by apply rel_ret|].
  eapply rel_bind; [apply obl_dialAndAuth|]. intros [[c1 r1]|] [[c2 r2]|] Hx; cbn in Hx; try contradiction; [|by apply rel_ret].
  destruct Hx as [<- Hr]. apply rel_bind_eq; [obl|]. intros _. by apply rel_ret.
Qed.

Lemma obl_relayViaUpstream fuel r :
  rel eq (relayViaUpstream cfg clientAddr fuel r) (relayViaUpstream cfg clientAddr fuel r).
Proof.
  unfold relayViaUpstream, handleUpstreamResponseError. apply rel_bind_eq; [obl|]. intros q.
  eapply rel_bind; [apply obl_upstream_conn|]. intros [[c1 r1]|] [[c2 r2]|] Hx; cbn in Hx; try contradiction; [|obl].
  destruct Hx as [<- Hr%(inject_via_equiv cfg)]. eapply rel_bind; [by apply obl_exchangeRequest|].
  intros [t e] ? <-. destruct e, t; try (by obl). apply rel_bind_eq; [obl|].
  intros [w [e|]]; [obl|]. rewrite (connectionWillClose_proper _ _ Hr w w eq_refl). obl.
Qed.

Lemma obl_handleConnectTunnel fuel c r1 r2 :
  token_equiv r1 r2 -> rel eq (handleConnectTunnel cfg fuel c r1) (handleConnectTunnel cfg fuel c r2).
Proof.
  intros Hr. unfold handleConnectTunnel, handleUpstreamResponseError.
  eapply rel_bind; [by apply obl_readThroughInterim|]. intros t ? <-. obl.
Qed.

Lemma obl_tunnelViaUpstream fuel r :
  rel eq (tunnelViaUpstream cfg clientAddr fuel r) (tunnelViaUpstream cfg clientAddr fuel r).
Proof.
  unfold tunnelViaUpstream. apply rel_bind_eq; [obl|]. intros q.
  eapply rel_bind; [apply obl_dialAndAuth|]. intros [[c1 r1]|] [[c2 r2]|] Hx; cbn in Hx; try contradiction; [|obl].
  destruct Hx as [<- Hr%(inject_via_equiv cfg)]. eapply rel_bind; [by apply rel_send|].
  intros e ? <-. case_match; [obl|]. eapply rel_bind; [by apply obl_handleConnectTunnel|]. obl.
Qed.

#[local] Hint Resolve obl_relayViaUpstream obl_tunnelViaUpstream : obl.

Lemma obl_relayDirect fuel c r : rel eq (relayDirect cfg fuel c r) (relayDirect cfg fuel c r).
Proof. unfold relayDirect. obl. Qed.

Lemma obl_nextDirectRequest h : rel eq (nextDirectRequest cfg h) (nextDirectRequest cfg h).
Proof. unfold nextDirectRequest. obl. Qed.

#[local] Hint Resolve obl_relayDirect obl_nextDirectRequest : obl.

Lemma obl_direct_loop fuel c h r : rel eq (direct_loop cfg fuel c h r) (direct_loop cfg fuel c h r).
Proof. revert r. induction fuel as [|fuel IH]; intros r; cbn [direct_loop]; [apply rel_fuel|]. obl. Qed.

#[local] Hint Resolve obl_direct_loop : obl.

Lemma obl_serve_one fuel r : rel eq (serve_one cfg clientAddr fuel r) (serve_one cfg clientAddr fuel r).
Proof. unfold serve_one, routeRequest, forwardDirect, tunnelDirect, dialDirect, handleDialError. obl. Qed.

#[local] Hint Resolve obl_serve_one : obl.

Lemma obl_run fuel iter pending : rel eq (run cfg clientAddr fuel iter pending) (run cfg clientAddr fuel iter pending).
Proof.
  revert iter pending. induction fuel as [|fuel IH]; intros iter pending; cbn [run]; [apply rel_fuel|]. obl.
Qed.

#[local] Hint Resolve obl_run : obl.

Lemma obl_handleClientCtx fuel : rel eq (handleClientCtx cfg clientAddr fuel) (handleClientCtx cfg clientAddr fuel).
Proof. unfold handleClientCtx, close_proxy. obl. Qed.
End Session.

(** ** The theorem *)

Section Noninterference.
Context `{UnicodeTables} {W : Type} `{Oblivious W}.

(** C2 (token_noninterference): the token influences nothing but its header.  For two worlds that
    react alike whatever token a request to the upstream proxy carries, a
    session gives the same outcome and the same trace up to the tokens:
    everything the client is sent, every dial and every request on a direct
    connection is equal, octet by octet, and a request to the upstream proxy
    differs at most in its Proxy-Authorization field. *)
Theorem token_noninterference cfg clientAddr fuel (w1 w2 : W) :
  alike w1 w2 ->
  (session cfg clientAddr fuel w1).1 = (session cfg clientAddr fuel w2).1 /\
  hide <$> session_trace cfg clientAddr fuel w1 = hide <$> session_trace cfg clientAddr fuel w2.
Proof.
  intros Hw. unfold session_trace, session.
  pose proof (obl_handleClientCtx cfg clientAddr fuel (init_st w1) (init_st w2)) as Hs.
  destruct (handleClientCtx cfg clientAddr fuel (init_st w1)) as [[a1|] s1],
    (handleClientCtx cfg clientAddr fuel (init_st w2)) as [[a2|] s2]; try (by destruct Hs).
  - destruct Hs as (-> & _ & Ht & _); [by split_and!|]. done.
  - destruct Hs as (_ & Ht & _); [by split_and!|]. done.
Qed.
End Noninterference.

(** ** Witness: the concrete session with two different tokens *)

#[export, refine] Instance script_oblivious : Oblivious script := {
  alike w1 w2 := sc_requests w1 = sc_requests w2 /\ sc_done w1 = sc_done w2 /\ sc_dials w1 = sc_dials w2 /\
    sc_responses w1 = sc_responses w2 /\ Forall2 token_result (sc_tokens w1) (sc_tokens w2)
}.
Proof.
  all: intros; destruct_and?; destruct w1, w2; cbn in *; simplify_eq; repeat case_match; cbn; split_and?; simplify_eq; try done.
  all: repeat match goal with H : pop _ _ = _ |- _ => unfold pop in H end.
  all: match goal with H : Forall2 _ _ _ |- _ => destruct H end; simplify_eq; done.
Defined.

Definition other_token (w : script) : script :=
  mk_script (sc_requests w) (sc_done w) [inr "another"] (sc_dials w) (sc_responses w).

Lemma token_noninterference_witness :
  hide <$> session_trace demo_config demo_addr 20 demo_script =
  hide <$> session_trace demo_config demo_addr 20 (other_token demo_script) /\
  session_trace demo_config demo_addr 20 demo_script <> session_trace demo_config demo_addr 20 (other_token demo_script).
Proof.
  split.
  - apply (token_noninterference demo_config demo_addr 20 demo_script (other_token demo_script)).
    cbn. split_and!; try done. by repeat constructor.
  - intros E. apply (f_equal (omap (fun e => match e with EvToken (inr t) => Some t | _ => None end))) in E.
    vm_compute in E. discriminate E.
Defined.
