(* ===== verification/SessionPair.v ===== *)
(** * Requests and responses stay paired

    An automaton over the events of a session says which exchange is under way:
    none, a request sent whose final response is awaited, with the interim
    response read for it and not yet relayed, if any, or a request with the final
    response read for it.  Every session keeps to it: a request is only sent
    when the one before it has had its final response, a response is only read
    for the request just sent, and what the client is given is made from a
    response to that request. *)

From S2P Require Import Prelude GoStrings GoNet GoHttp Errors Config Hosts NoProxy Headers.
From S2P Require Import Response Validate Effects Session SessionSpec SessionLoop Script.

(** ** The exchange under way *)

Inductive exchange :=
| XNone
| XSent (c : conn) (f : wire) (req : request) (interim : option response)
| XGot (c : conn) (f : wire) (req : request) (rr : response)
| XBroken.

Definition xstep (x : exchange) (e : event) : exchange :=
  match e with
  | EvSend c f req =>
      match x with XNone | XGot _ _ _ _ => XSent c f req None | _ => XBroken end
  | EvResp c (inr rr) =>
      match x with
      | XSent d f req _ =>
          if (c =? d)%nat then if isInterimResponse rr then XSent c f req (Some rr) else XGot c f req rr else XBroken
      | _ => XBroken
      end
  | EvClient (CInterim _) _ => match x with XSent c f req _ => XSent c f req None | _ => x end
  | _ => x
  end.

Definition xrun (tr : list event) : exchange := fold_left xstep tr XNone.

Lemma xrun_snoc tr e : xrun (tr ++ [e]) = xstep (xrun tr) e.
Proof. unfold xrun. by rewrite fold_left_app. Qed.

Section Pair.
Context `{UnicodeTables} {W : Type} `{Env W}.
Variable cfg : Config.
Variable clientAddr : string.

(** What the proxy makes of a response, by the form the request was sent in. *)
Definition post_of (f : wire) : error + response -> error + response :=
  match f with ProxyForm => upstream_post cfg | OriginForm => direct_post cfg end.

Definition answer (f : wire) (rr r : response) : Prop :=
  exists r1, post_of f (inr rr) = inr r1 /\ (r = r1 \/ r = with_resp_close r1 true).

(** Answers the proxy makes itself. *)
Definition own_answer (r : response) : Prop :=
  (exists pe, pe ∈ proxy_errors /\ r = writeHTTPError pe) \/ (exists req, r = writeMaxForwardsResponse req).

(** Which event may come after a history. *)
Definition in_step (tr : list event) (e : event) : Prop :=
  match e with
  | EvSend _ _ _ => xrun tr = XNone \/ exists c f req rr, xrun tr = XGot c f req rr
  | EvResp c (inr _) => exists f req i, xrun tr = XSent c f req i
  | EvClient (CResponse r) _ =>
      own_answer r \/ exists c f req rr, xrun tr = XGot c f req rr /\ answer f rr r
  | EvClient (CInterim s) _ =>
      exists c f req rr r, xrun tr = XSent c f req (Some rr) /\ post_of f (inr rr) = inr r /\ interim_bytes req r = Some s
  | EvClient (CConnect s) _ =>
      (exists req, s = writeConnectOK (connect_ok cfg req)) \/
      exists c req rr r, xrun tr = XGot c ProxyForm req rr /\ answer ProxyForm rr r /\ s = writeConnectOK r
  | _ => True
  end.

Definition in_step_all (tr : list event) : Prop := forall pre e post, tr = pre ++ e :: post -> in_step pre e.

Lemma in_step_snoc tr e : in_step_all tr -> in_step tr e -> in_step_all (tr ++ [e]).
Proof.
  intros Ht He pre x post. induction post as [|y post _] using rev_ind; intros E.
  - by apply app_inj_tail in E as [<- <-].
  - rewrite app_comm_cons, app_assoc in E. apply app_inj_tail in E as [-> _]. by eapply Ht.
Qed.

(** ** Triples: the exchange under way satisfies [F] *)

Definition At (F : exchange -> Prop) (s : st W) : Prop := in_step_all (st_trace s) /\ F (xrun (st_trace s)).
Definition any (x : exchange) : Prop := True.
Definition ready (x : exchange) : Prop := x = XNone \/ exists c f req rr, x = XGot c f req rr.
Definition sent (c : conn) (f : wire) (req : request) (x : exchange) : Prop := exists i, x = XSent c f req i.

Definition paired {A} (F : exchange -> Prop) (m : M W A) (Q : A -> exchange -> Prop) : Prop :=
  triple (At F) m (fun a => At (Q a)) (At any).

Lemma At_any F s : At F s -> At any s.
Proof. by intros [? _]. Qed.

Lemma pair_ret {A} F (a : A) (Q : A -> exchange -> Prop) : (forall x, F x -> Q a x) -> paired F (ret a) Q.
Proof. intros HQ. apply triple_ret. intros s [? ?]. split; auto. Qed.

Lemma pair_fuel {A} F (Q : A -> exchange -> Prop) : paired F out_of_fuel Q.
Proof. apply triple_fuel. apply At_any. Qed.

Lemma pair_bind {A B} F (m : M W A) (k : A -> M W B) Q Q' :
  paired F m Q -> (forall a, paired (Q a) (k a) Q') -> paired F (bind m k) Q'.
Proof. apply triple_bind. Qed.

Lemma pair_conseq {A} (F F' : exchange -> Prop) (m : M W A) (Q Q' : A -> exchange -> Prop) :
  paired F' m Q' -> (forall x, F x -> F' x) -> (forall a x, Q' a x -> Q a x) -> paired F m Q.
Proof.
  intros Hm HF HQ. eapply triple_conseq; [exact Hm|..]; [| |done]; intros; unfold At in *; naive_solver.
Qed.

(** Events that are not part of an exchange. *)
Definition aside (e : event) : Prop :=
  match e with EvSend _ _ _ | EvResp _ (inr _) | EvClient _ _ => False | _ => True end.

Lemma At_aside F s w e n p : At F s -> aside e -> At F (mk_st w (st_trace s ++ [e]) n p).
Proof.
  intros [Ht HF] He. assert (Hx : xrun (st_trace s ++ [e]) = xrun (st_trace s)).
  { rewrite xrun_snoc. by destruct e as [| | | | | | |? []| | | | | | | | | | | | |]. }
  split; cbn [st_trace]; [|by rewrite Hx]. apply in_step_snoc; [done|]. by destruct e as [| | | | | | |? []|[]| | | | | | | | | | | |].
Qed.

Lemma pair_emit F e : aside e -> paired F (emit e) (fun _ => F).
Proof. intros He. apply triple_emit. intros s Hs. by apply At_aside. Qed.

Lemma pair_call {X} F (f : W -> X * W) ev : (forall x, aside (ev x)) -> paired F (call f ev) (fun _ => F).
Proof. intros He. apply triple_call. intros s x w Hs _. by apply At_aside. Qed.

Lemma pair_dial F k : paired F (dial k) (fun _ => F).
Proof. intros s Hs. unfold dial. destruct (env_dial k (st_world s)). by apply At_aside. Qed.

Lemma pair_get_proxy F : paired F get_proxy (fun _ => F).
Proof. intros s Hs. exact Hs. Qed.

Lemma pair_set_proxy F p : paired F (set_proxy p) (fun _ => F).
Proof. intros s Hs. exact Hs. Qed.

(** Writing to the client what the exchange allows. *)
Lemma pair_client (F : exchange -> Prop) m :
  match m with CInterim _ => False | _ => True end ->
  (forall tr e, F (xrun tr) -> in_step tr (EvClient m e)) -> paired F (write_client m) (fun _ => F).
Proof.
  intros Hi Hm. apply triple_call. intros s e w [Ht HF] _. split; cbn [st_trace]; [apply in_step_snoc; auto|].
  rewrite xrun_snoc. by destruct m.
Qed.

(** An interim response is relayed once. *)
Lemma pair_client_interim c f req rr r t :
  post_of f (inr rr) = inr r -> interim_bytes req r = Some t ->
  paired (fun x => x = XSent c f req (Some rr)) (write_client (CInterim t)) (fun _ => sent c f req).
Proof.
  intros Hp Hb. apply triple_call. intros s e w [Ht HF] _. split; cbn [st_trace].
  - apply in_step_snoc; [done|]. cbn. by exists c, f, req, rr, r.
  - rewrite xrun_snoc, HF. cbn. by eexists.
Qed.

Lemma pair_client_error F pe : pe ∈ proxy_errors -> paired F (client_error pe) (fun _ => F).
Proof.
  intros Hpe. eapply pair_bind; [apply pair_client; [done|]|intros e; by apply pair_ret]. intros tr e _. left. left. eauto.
Qed.

(** ** The exchange *)

Lemma send_step (F : exchange -> Prop) s w c f req :
  (forall x, F x -> ready x) -> At F s ->
  At (sent c f req) (mk_st w (st_trace s ++ [EvSend c f req]) (st_next s) (st_proxy s)).
Proof.
  intros HF [Ht Hx]. apply HF in Hx. split; cbn [st_trace]; [by apply in_step_snoc|]. rewrite xrun_snoc. cbn.
  destruct Hx as [->|(? & ? & ? & ? & ->)]; by eexists.
Qed.

Lemma pair_send c f req : paired ready (send c f req) (fun _ => sent c f req).
Proof.
  eapply pair_bind with (Q := fun _ => sent c f req); [|intros []; by apply pair_call].
  apply triple_emit. intros s Hs. by apply (send_step ready).
Qed.

Lemma pair_start_upload c f req : paired ready (start_upload c f req) (fun _ => sent c f req).
Proof. apply triple_call. intros s [] w Hs _. by apply (send_step ready). Qed.

Lemma post_interim f rr r : post_of f (inr rr) = inr r -> isInterimResponse r = isInterimResponse rr.
Proof.
  destruct f; cbn; [|by intros [= <-]]. unfold upstream_post, readUpstreamResponse.
  repeat case_match; try done. intros [= <-]. unfold resolve_te_cl. by case_match.
Qed.

(** [t] is the outcome of reading the response to [req]. *)
Definition through_ok (c : conn) (f : wire) (req : request) (t : through) (x : exchange) : Prop :=
  match t with TResp r => exists rr, x = XGot c f req rr /\ post_of f (inr rr) = inr r | _ => True end.

Lemma pair_readThroughInterim fuel c f req :
  paired (sent c f req) (readThroughInterim fuel c req (post_of f)) (through_ok c f req).
Proof.
  induction fuel as [|fuel IH]; cbn [readThroughInterim]; [apply pair_fuel|].
  eapply pair_bind with (Q := fun rr x => match rr with
    | inl _ => sent c f req x
    | inr r => x = if isInterimResponse r then XSent c f req (Some r) else XGot c f req r end).
  { apply triple_call. intros s rr w [Ht [i Hx]] _. destruct rr as [e|rr].
    - apply (At_aside (sent c f req)); [|done]. split; [done|by exists i].
    - split; cbn [st_trace]; [apply in_step_snoc; [done|cbn; eauto]|]. rewrite xrun_snoc, Hx. cbn. by rewrite Nat.eqb_refl. }
  intros rr. destruct (post_of f rr) as [e|r] eqn:Ep; [by apply pair_ret|].
  destruct rr as [e|rr]; [exfalso; destruct f; cbn in Ep; [by case_match|done]|].
  rewrite <- (post_interim _ _ _ Ep). destruct (isInterimResponse r) eqn:Ei; cbn [negb].
  - destruct (validateResponseHeaderBytes r); [by apply pair_ret|].
    eapply pair_bind with (Q := fun _ => sent c f req).
    + unfold relayInterimResponse. destruct (interim_bytes req r) as [b|] eqn:Eb; [by eapply pair_client_interim|].
      apply pair_ret. intros x ->. by eexists.
    + intros [e|]; [by apply pair_ret|]. exact IH.
  - apply pair_ret. intros x ->. cbn. eauto.
Qed.

(** What a caller of [exchangeRequest] has when there is a response. *)
Definition exchanged (c : conn) (f : wire) (req : request) (tw : through * option error) (x : exchange) : Prop :=
  match tw.1 with TResp r => exists rr, x = XGot c f req rr /\ answer f rr r | _ => True end.

Lemma through_exchanged c f req t e x : through_ok c f req t x -> exchanged c f req (t, e) x.
Proof. destruct t; cbn; [|done..]. intros (rr & -> & Hp). exists rr. split; [done|]. exists r. auto. Qed.

Lemma exchanged_close c f req r e e' x :
  exchanged c f req (TResp r, e) x -> exchanged c f req (TResp (with_resp_close r true), e') x.
Proof.
  cbn. intros (rr & -> & r1 & Hp & Hr). exists rr. split; [done|]. exists r1. split; [done|]. right.
  by destruct Hr as [->| ->].
Qed.

Lemma pair_await_upload c f req t :
  paired (through_ok c f req t) (await_upload c t) (exchanged c f req).
Proof.
  unfold await_upload, poll_upload, join_upload. eapply pair_bind; [by apply pair_call|]. intros [[e|]|].
  - eapply pair_bind; [by apply pair_emit|]. intros []. apply pair_ret. intros x. apply through_exchanged.
  - apply pair_ret. intros x. apply through_exchanged.
  - do 2 (eapply pair_bind; [by apply pair_emit|]; intros []).
    eapply pair_bind; [by apply pair_call|]. intros [e|].
    + eapply pair_bind; [by apply pair_emit|]. intros []. apply pair_ret. intros x. apply through_exchanged.
    + do 2 (eapply pair_bind; [by apply pair_emit|]; intros []). apply pair_ret. intros x Hx.
      destruct t; try done. by eapply exchanged_close, through_exchanged.
  Unshelve. all: exact None.
Qed.

Lemma pair_exchangeRequest fuel c f req :
  paired ready (exchangeRequest fuel c f req (post_of f)) (exchanged c f req).
Proof.
  unfold exchangeRequest. case_match.
  - eapply pair_bind; [apply pair_send|]. intros [e|]; [by apply pair_ret|].
    eapply pair_bind; [apply pair_readThroughInterim|]. intros t. apply pair_ret. intros x. apply through_exchanged.
  - eapply pair_bind; [apply pair_start_upload|]. intros [].
    eapply pair_bind; [apply pair_readThroughInterim|]. intros t.
    eapply pair_bind; [apply pair_await_upload|]. intros [t' e]. eapply pair_bind; [by apply pair_emit|]. intros [].
    apply pair_ret. intros x Hx. destruct t' as [r| |], e; try done. by eapply exchanged_close.
Qed.

(** ** Operations outside an exchange *)

Create HintDb pair.
#[local] Hint Resolve pair_fuel pair_dial pair_get_proxy pair_set_proxy tokenError_in dial_error_in
  upstream_response_error_in : pair.
#[local] Hint Extern 1 (paired _ (emit _) _) => apply pair_emit; exact I : pair.
#[local] Hint Extern 1 (paired _ (call _ _) _) => apply pair_call; done : pair.
#[local] Hint Extern 1 (paired _ (ret _) _) => apply pair_ret; solve [auto | done | naive_solver] : pair.
#[local] Hint Extern 1 (_ ∈ proxy_errors) => unfold proxy_errors; set_solver : pair.
#[local] Hint Extern 2 (paired _ (client_error _) _) => apply pair_client_error : pair.

(** A program that keeps [F] whatever it does. *)
Ltac keep :=
  repeat first [ solve [eauto 3 with pair] | progress intros | case_match
               | match goal with |- paired ?F (bind _ _) _ => eapply (pair_bind F _ _ (fun _ => F)) end ].

Lemma keep_readRequest F : paired F readRequest (fun _ => F).
Proof. unfold readRequest, ctx_done, read_request. keep. Qed.

Lemma keep_keep_alive F c : paired F (keep_alive cfg c) (fun _ => F).
Proof. unfold keep_alive. keep. Qed.

#[local] Hint Resolve keep_readRequest keep_keep_alive : pair.

Lemma keep_readNextRequest F iter : paired F (readNextRequest iter) (fun _ => F).
Proof. unfold readNextRequest. keep. Qed.

Lemma keep_dialAndAuth F req : paired F (dialAndAuthUpstream cfg req) (fun _ => F).
Proof. unfold dialAndAuthUpstream, get_token, handleDialError. keep. Qed.

Lemma keep_inject_forwarding F req : paired F (inject_forwarding cfg clientAddr req) (fun _ => F).
Proof. unfold inject_forwarding, random. keep. Qed.

#[local] Hint Resolve keep_readNextRequest keep_dialAndAuth keep_inject_forwarding : pair.

Lemma keep_upstream_conn F req : paired F (upstream_conn cfg req) (fun _ => F).
Proof. unfold upstream_conn. keep. Qed.

Lemma keep_local F req : paired F (write_client (CResponse (writeMaxForwardsResponse req))) (fun _ => F).
Proof. apply pair_client; [done|]. intros tr e _. left. right. eauto. Qed.

Lemma local_answer req resp : validateRequest cfg req = VLocal resp -> exists r, resp = writeMaxForwardsResponse r.
Proof.
  unfold validateRequest, applyMaxForwards. repeat case_match; try done. intros [= <-].
  match goal with E : _ = inl _ |- _ => repeat case_match; simplify_eq; eauto end.
Qed.

Lemma keep_nextDirectRequest F h : paired F (nextDirectRequest cfg h) (fun _ => F).
Proof.
  unfold nextDirectRequest. eapply (pair_bind F _ _ (fun _ => F)); [apply keep_readRequest|]. intros [e|req]; [keep|].
  case_match; [keep|]. destruct (validateRequest cfg req) as [r|resp|pe] eqn:Ev; [keep| |].
  - destruct (local_answer _ _ Ev) as [r ->]. eapply (pair_bind F _ _ (fun _ => F)); [apply keep_local|]. keep.
  - eapply (pair_bind F _ _ (fun _ => F)); [apply pair_client_error|keep].
    unfold validateRequest in Ev. repeat case_match; simplify_eq; auto with pair.
Qed.

(** ** Relaying *)

#[local] Hint Resolve keep_upstream_conn keep_nextDirectRequest : pair.

(** The exchange is complete and [r] answers it. *)
Definition answered (r : response) (x : exchange) : Prop := exists c f req rr, x = XGot c f req rr /\ answer f rr r.

Lemma answered_ready r x : answered r x -> ready x.
Proof. intros (c & f & req & rr & -> & _). right. eauto. Qed.

Lemma answered_close r x : answered r x -> answered (with_resp_close r true) x.
Proof.
  intros (c & f & req & rr & -> & r1 & Hp & Hr). exists c, f, req, rr. split; [done|]. exists r1. split; [done|]. right.
  by destruct Hr as [->| ->].
Qed.

Lemma exchanged_answered c f req r e x : exchanged c f req (TResp r, e) x -> answered r x.
Proof. intros (rr & -> & Ha). by exists c, f, req, rr. Qed.

Lemma pair_client_answer r : paired (answered r) (write_client (CResponse r)) (fun _ => answered r).
Proof. apply pair_client; [done|]. intros tr e (c & f & req & rr & Hx & Ha). right. eauto 8. Qed.

Lemma pair_writeResponse r : paired (answered r) (writeResponse r) (fun _ => ready).
Proof.
  unfold writeResponse. eapply pair_bind; [by apply pair_call|]. intros [|].
  - eapply pair_conseq with (F' := answered (with_resp_close r true)) (Q' := fun _ => ready);
      [|apply answered_close|done].
    eapply pair_bind; [apply pair_client_answer|]. intros e. apply pair_ret. apply answered_ready.
  - eapply pair_bind; [apply pair_client_answer|]. intros e. apply pair_ret. apply answered_ready.
Qed.

(** Whether the session goes on: then it is ready for another request. *)
Definition goes_on (ok : bool) (x : exchange) : Prop := ok = true -> ready x.

#[local] Hint Extern 1 (paired _ (ret _) _) => apply pair_ret; unfold goes_on, any; by intros : pair.

Lemma pair_relayed c f req r e req' :
  paired (exchanged c f req (TResp r, e))
    (w <- writeResponse r ;;
     match w with
     | (_, Some _) => ret false
     | (resp, None) => ret (negb (connectionWillClose req' resp))
     end) goes_on.
Proof.
  eapply pair_conseq with (F' := answered r); [|intros x; apply exchanged_answered|done].
  eapply pair_bind; [apply pair_writeResponse|]. intros [resp [err|]]; apply pair_ret; by intros x Hx _.
Qed.

Lemma pair_relayViaUpstream fuel req : paired ready (relayViaUpstream cfg clientAddr fuel req) goes_on.
Proof.
  unfold relayViaUpstream, handleUpstreamResponseError.
  eapply pair_bind; [apply keep_inject_forwarding|]. intros q.
  eapply pair_bind; [apply keep_upstream_conn|]. intros [[c q']|]; [|keep].
  eapply pair_bind; [apply (pair_exchangeRequest fuel c ProxyForm)|].
  intros [[r|e|e] [e'|]]; [| |keep..]; [keep|apply pair_relayed].
Qed.

Lemma pair_handleConnectTunnel fuel c req :
  paired (sent c ProxyForm req) (handleConnectTunnel cfg fuel c req) (fun _ => any).
Proof.
  unfold handleConnectTunnel, handleUpstreamResponseError, tunnel.
  eapply pair_bind; [apply (pair_readThroughInterim fuel c ProxyForm)|]. intros [r|e|e]; [|keep|keep].
  case_match.
  - eapply pair_conseq with (F' := answered r) (Q' := fun _ => any); [| |done].
    + eapply pair_bind; [apply pair_client_answer|]. intros e. by apply pair_ret.
    + intros x Hx. by eapply exchanged_answered, through_exchanged.
  - eapply pair_bind with (Q := fun _ => through_ok c ProxyForm req (TResp r)).
    + apply pair_client; [done|]. intros tr e (rr & Hx & Hp). right. exists c, req, rr, r. split_and!; [done| |done].
      exists r. auto.
    + intros [e|]; [keep|]. eapply pair_conseq; [by apply (pair_call any)|done..].
  Unshelve. exact None.
Qed.

Lemma pair_tunnelViaUpstream fuel req : paired ready (tunnelViaUpstream cfg clientAddr fuel req) (fun _ => any).
Proof.
  unfold tunnelViaUpstream. eapply pair_bind; [apply keep_inject_forwarding|]. intros q.
  eapply pair_bind; [apply keep_dialAndAuth|]. intros [[c q']|]; [|keep].
  eapply pair_bind; [apply pair_send|]. intros [e|].
  - eapply pair_bind; [apply (pair_client_error (sent c ProxyForm (inject_via cfg q'))); auto with pair|].
    intros []. eapply pair_conseq; [by apply (pair_emit any)|done..].
  - eapply pair_bind; [apply pair_handleConnectTunnel|]. intros []. by apply pair_emit.
Qed.

Lemma pair_relayDirect fuel c req : paired ready (relayDirect cfg fuel c req) goes_on.
Proof.
  unfold relayDirect. eapply pair_bind; [apply (pair_exchangeRequest fuel c OriginForm)|].
  intros [[r|e|e] [e'|]]; [| |keep..]; [keep|apply pair_relayed].
Qed.

(** A loop that has ended with the request it could not serve, if any. *)
Definition loops_on (r : option request * bool) (x : exchange) : Prop := goes_on r.2 x.

#[local] Hint Extern 1 (paired _ (ret _) _) => apply pair_ret; unfold loops_on, goes_on, any; by intros : pair.

Lemma pair_direct_loop fuel c h req : paired ready (direct_loop cfg fuel c h req) loops_on.
Proof.
  revert req. induction fuel as [|fuel IH]; intros req; cbn [direct_loop]; [apply pair_fuel|].
  eapply pair_bind; [apply pair_relayDirect|]. intros [|]; cbn [negb]; [|keep].
  eapply pair_conseq with (F' := ready); [|intros x Hx; exact (Hx eq_refl)|done].
  eapply pair_bind; [apply keep_nextDirectRequest|]. intros [[q [|]]|]; [keep|apply IH|keep].
Qed.

Lemma pair_forwardDirect fuel req : paired ready (forwardDirect cfg fuel req) loops_on.
Proof.
  unfold forwardDirect, dialDirect, handleDialError. eapply pair_bind; [apply pair_dial|]. intros [e|c]; [keep|].
  eapply pair_bind; [apply keep_keep_alive|]. intros [].
  eapply pair_bind; [apply pair_direct_loop|]. intros r. eapply pair_bind; [by apply pair_emit|]. intros [].
  by apply pair_ret.
Qed.

Lemma pair_tunnelDirect req : paired any (tunnelDirect cfg req) (fun _ => any).
Proof.
  unfold tunnelDirect, dialDirect, handleDialError, tunnel. eapply pair_bind; [apply pair_dial|]. intros [e|c]; [keep|].
  eapply (pair_bind _ _ _ (fun _ => any)); [|intros [e|]; keep].
  apply pair_client; [done|]. intros tr e _. left. eauto.
Qed.

Lemma pair_serve_one fuel req : paired ready (serve_one cfg clientAddr fuel req) loops_on.
Proof.
  unfold serve_one. destruct (validateRequest cfg req) as [r|resp|pe] eqn:Ev.
  - unfold routeRequest. repeat case_match.
    + eapply (pair_bind _ _ _ (fun _ => any)); [|intros []; by apply pair_ret].
      by eapply pair_conseq; [apply pair_tunnelDirect|..].
    + apply pair_forwardDirect.
    + eapply pair_bind; [apply pair_tunnelViaUpstream|]. intros []. by apply pair_ret.
    + eapply pair_bind; [apply pair_relayViaUpstream|]. intros ok. by apply pair_ret.
  - destruct (local_answer _ _ Ev) as [r ->]. eapply pair_bind; [apply keep_local|]. keep.
  - eapply pair_bind; [apply pair_client_error|keep].
    unfold validateRequest in Ev. repeat case_match; simplify_eq; auto with pair.
Qed.

Lemma pair_run fuel iter pending : paired ready (run cfg clientAddr fuel iter pending) (fun _ => any).
Proof.
  revert iter pending. induction fuel as [|fuel IH]; intros iter pending; cbn [run]; [apply pair_fuel|].
  eapply (pair_bind _ _ _ (fun _ => ready)).
  { destruct pending; [by apply pair_ret|apply keep_readNextRequest]. }
  intros [req|]; [|keep]. eapply pair_bind; [apply pair_serve_one|]. intros [next [|]]; [|keep].
  eapply pair_conseq; [apply (IH (S iter) next)|intros x Hx; exact (Hx eq_refl)|done].
Qed.

Lemma pair_handleClientCtx fuel : paired ready (handleClientCtx cfg clientAddr fuel) (fun _ => any).
Proof.
  unfold handleClientCtx, close_proxy. eapply (pair_bind _ _ _ (fun _ => any)); [|keep].
  repeat case_match; [keep| |].
  - eapply (pair_bind _ _ _ (fun _ => any)); [|keep].
    eapply pair_conseq; [apply (pair_client_error any); auto with pair|done..].
  - eapply pair_bind; [apply pair_run|]. keep.
Qed.

(** C6 (responses_paired): requests and responses never get out of step.  In every session, a
    request is sent, on any connection, only when no request was sent before or
    the latest one has had its final response; a response is read only from the
    connection of the latest request, while its final response is awaited; and
    what the client is given is an answer of the proxy's own, or the final
    response read for the latest request as the proxy processes it (also when a
    CONNECT succeeds), or, while that request awaits its final response, the
    interim response read last for it, as the proxy processes it, and that only
    once. *)
Theorem responses_paired fuel w pre e post :
  session_trace cfg clientAddr fuel w = pre ++ e :: post -> in_step pre e.
Proof.
  intros E. unfold session_trace, session in E.
  pose proof (pair_handleClientCtx fuel (init_st w)) as Hs.
  assert (Hinit : At ready (init_st w)) by (split; [intros p x q Hx; by destruct p|by left]).
  specialize (Hs Hinit). destruct (handleClientCtx cfg clientAddr fuel (init_st w)) as [[[]|] s];
    destruct Hs as [Ht _]; by eapply Ht.
Qed.
End Pair.

(** ** Witness: in the concrete session, the answer to the second request *)

(** What the automaton says at the client's second final answer. *)
Definition second_answer : option (list event * event * list event) :=
  (fix find (n : nat) (pre post : list event) :=
     match post with
     | [] => None
     | e :: post =>
         match e, n with
         | EvClient (CResponse _) _, S O => Some (pre, e, post)
         | EvClient (CResponse _) _, S n => find n (pre ++ [e]) post
         | _, _ => find n (pre ++ [e]) post
         end
     end) 2%nat [] (session_trace demo_config demo_addr 20 demo_script).

Lemma responses_paired_witness :
  match second_answer with
  | Some (pre, EvClient (CResponse r) _, _) =>
      resp_code r = 404 /\ in_step demo_config pre (EvClient (CResponse r) None) /\
      exists c f req, xrun pre = XGot c f req (demo_response 404 ∅) /\ req_host req = "b.example"
  | _ => False
  end.
Proof.
  destruct second_answer as [[[pre e] post]|] eqn:E; [|vm_compute in E; discriminate E].
  assert (Ht : session_trace demo_config demo_addr 20 demo_script = pre ++ e :: post).
  { assert (Hx : match second_answer with Some (a, b, d) => a ++ b :: d | None => [] end =
      session_trace demo_config demo_addr 20 demo_script) by (vm_compute; reflexivity).
    rewrite E in Hx. by rewrite Hx. }
  pose proof (responses_paired demo_config demo_addr 20 demo_script pre e post Ht) as Hp.
  vm_compute in E. injection E as <- <- <-. split; [reflexivity|]. split; [exact Hp|].
  do 3 eexists. split; vm_compute; reflexivity.
Defined.
