(* ===== verification/SessionServed.v ===== *)
(** * Sessions do their work

    The safety theorems would also hold of a proxy that answers every request
    with an error.  Here the client, the token provider and the dialled
    connections play along (the class [Willing]), and the session has to serve:
    every request of a keep-alive connection is forwarded once and answered with
    its own response, whichever mixture of upstream and direct hosts the requests
    name.  Total correctness is a [triple] that leaves no run cut short. *)

From S2P Require Import Prelude GoStrings GoNet GoHttp Errors Config Hosts NoProxy Headers.
From S2P Require Import Response Validate Effects Session SessionInv SessionLoop SessionThms SessionPair Script.

(** ** Peers that play along *)

(** [peers w]: the requests the client is going to send before it closes the
    connection, and the responses the dialled connections are going to send. *)
Class Willing (W : Type) `{Env W} := {
  peers : W -> list request * list response;
  wl_read : forall w q qs rs, peers w = (q :: qs, rs) ->
    exists w', env_read_request w = (inr q, w') /\ peers w' = (qs, rs);
  wl_eof : forall w rs, peers w = ([], rs) ->
    exists e w', env_read_request w = (inl e, w') /\ errors_is e KEOF = true /\ peers w' = ([], rs);
  wl_reply : forall c req w qs r rs, peers w = (qs, r :: rs) ->
    exists w', env_read_response c req w = (inr r, w') /\ peers w' = (qs, rs);
  wl_done : forall w, (env_ctx_done w).1 = false /\ peers (env_ctx_done w).2 = peers w;
  wl_token : forall w, (exists t, (env_get_token w).1 = inr t) /\ peers (env_get_token w).2 = peers w;
  wl_dial : forall k w, (env_dial k w).1 = None /\ peers (env_dial k w).2 = peers w;
  wl_write : forall c f q w, (env_write_request c f q w).1 = None /\ peers (env_write_request c f q w).2 = peers w;
  wl_start : forall c f q w, peers (env_start_upload c f q w) = peers w;
  wl_poll : forall c w, (env_poll_upload c w).1 = Some None /\ peers (env_poll_upload c w).2 = peers w;
  wl_client : forall m w, (env_write_client m w).1 = None /\ peers (env_write_client m w).2 = peers w;
  wl_tunnel : forall c w, peers (env_tunnel c w) = peers w;
  wl_random : forall w, peers (env_random w).2 = peers w
}.

(** ** What a trace shows *)

(** What the client is given besides interim responses, in order: responses, the
    announcements of a tunnel, and tunnels. *)
Inductive shown := SResponse (r : response) | SAnnounced (s : string) | STunnel (c : conn).

Definition outs (tr : list event) : list shown :=
  omap (fun e => match e with
    | EvClient (CResponse r) _ => Some (SResponse r)
    | EvClient (CConnect t) _ => Some (SAnnounced t)
    | EvTunnel c => Some (STunnel c)
    | _ => None
    end) tr.
Definition sents (tr : list event) : list (wire * request) :=
  omap (fun e => match e with EvSend _ f req => Some (f, req) | _ => None end) tr.
Definition is_token (e : event) : bool := match e with EvToken _ => true | _ => false end.

(** A request the client sends, and what is sent back for it. *)
Record exch := mk_exch { x_req : request; x_interim : list response; x_final : response }.

Definition x_replies (x : exch) : list response := x_interim x ++ [x_final x].

Definition requests_of (xs : list exch) : list request := x_req <$> xs.
Definition replies_of (xs : list exch) : list response := xs ≫= x_replies.

Section Served.
Context {tables : UnicodeTables} {W : Type} {env : Env W} {willing : Willing W}.
Variable cfg : Config.
Variable clientAddr : string.

(** Requests that can be relayed on a connection that stays open, with answers
    that can be relayed on it. *)
Definition interim_ok (f : wire) (i : response) : Prop :=
  exists i', post_of cfg f (inr i) = inr i' /\ isInterimResponse i' = true /\ validateResponseHeaderBytes i' = None.

Definition final_ok (f : wire) (r : response) : Prop :=
  exists r', post_of cfg f (inr r) = inr r' /\ isInterimResponse r' = false /\ resp_close r' = false.

Record acceptable (x : exch) : Prop := {
  ac_valid : exists r1, validateRequest cfg (x_req x) = VProceed r1;
  ac_method : req_method (x_req x) <> "CONNECT";
  ac_proto : (req_major (x_req x) =? 1) && (req_minor (x_req x) =? 0) = false;
  ac_keep : req_close (x_req x) = false;
  ac_interim : forall f, Forall (interim_ok f) (x_interim x);
  ac_final : forall f, final_ok f (x_final x)
}.

(** The exchange was carried out: the request went out in one of the two forms,
    changed in its header only and there by the proxy's own rules, and the
    client got what the proxy makes of the final response. *)
Definition served (x : exch) (d : (wire * request) * response) : Prop :=
  exists r1, validateRequest cfg (x_req x) = VProceed r1 /\ carries r1 d.1.2 /\
    d.1.2 = with_header r1 (req_header d.1.2) /\ post_of cfg d.1.1 (inr (x_final x)) = inr d.2.

(** ** The state, as far as it matters *)

Record view := mk_view {
  v_read : list request;
  v_reply : list response;
  v_out : list shown;
  v_sent : list (wire * request)
}.

Record at_view (v : view) (p : option conn) (n : nat) (s : st W) : Prop := {
  at_peers : peers (st_world s) = (v_read v, v_reply v);
  at_out : outs (st_trace s) = v_out v;
  at_sent : sents (st_trace s) = v_sent v;
  at_tokens : count is_token (st_trace s) = n;
  at_proxy : st_proxy s = p
}.

Definition total {A} (P : st W -> Prop) (m : M W A) (Q : A -> st W -> Prop) : Prop := triple P m Q (fun _ => False).

(** One more event, and the peers move on. *)
Lemma at_event v p n s w e k qs rs :
  at_view v p n s -> peers w = (qs, rs) ->
  at_view (mk_view qs rs (v_out v ++ outs [e]) (v_sent v ++ sents [e])) p (n + count is_token [e])
    (mk_st w (st_trace s ++ [e]) k (st_proxy s)).
Proof.
  intros [H1 H2 H3 H4 H5] Hp. constructor; cbn [st_world st_trace st_proxy v_read v_reply v_out v_sent]; try done.
  - unfold outs in *. by rewrite omap_app, H2.
  - unfold sents in *. by rewrite omap_app, H3.
  - unfold count in *. by rewrite List.filter_app, length_app, H4.
Qed.

(** Events that show in none of the three lists. *)
Definition quiet (e : event) : bool :=
  match e with
  | EvClient (CResponse _) _ | EvClient (CConnect _) _ | EvTunnel _ | EvSend _ _ _ | EvToken _ => false
  | _ => true
  end.

Lemma at_quiet_moved v p n s w e k qs rs :
  at_view v p n s -> quiet e = true -> peers w = (qs, rs) ->
  at_view (mk_view qs rs (v_out v) (v_sent v)) p n (mk_st w (st_trace s ++ [e]) k (st_proxy s)).
Proof.
  intros Hs Hq Hp. pose proof (at_event v p n s w e k qs rs Hs Hp) as He.
  assert (Hn : outs [e] = [] /\ sents [e] = [] /\ count is_token [e] = 0%nat).
  { destruct e as [| | | | | | | |[]| | | | | | | | | | | |]; done. }
  destruct Hn as (E1 & E2 & E3). by rewrite E1, E2, E3, !app_nil_r, Nat.add_0_r in He.
Qed.

Lemma at_quiet v p n s w e k :
  at_view v p n s -> quiet e = true -> peers w = peers (st_world s) ->
  at_view v p n (mk_st w (st_trace s ++ [e]) k (st_proxy s)).
Proof.
  intros Hs Hq Hp. rewrite (at_peers _ _ _ _ Hs) in Hp. pose proof (at_quiet_moved v p n s w e k _ _ Hs Hq Hp) as He.
  by destruct v.
Qed.

Lemma total_emit v p n e : quiet e = true -> total (at_view v p n) (emit e) (fun _ => at_view v p n).
Proof. intros He. apply triple_emit. intros s Hs. by apply at_quiet. Qed.

Lemma total_call {X} v p n (f : W -> X * W) ev (Q : X -> Prop) :
  (forall w, Q (f w).1 /\ peers (f w).2 = peers w) -> (forall x, quiet (ev x) = true) ->
  total (at_view v p n) (call f ev) (fun x s => Q x /\ at_view v p n s).
Proof.
  intros Hf He. apply triple_call. intros s x w Hs E. destruct (Hf (st_world s)) as [HQ Hp]. rewrite E in HQ, Hp.
  split; [done|]. by apply at_quiet.
Qed.

Lemma total_then {A B} P P' (m : M W A) (k : A -> M W B) (C : A -> Prop) Q :
  total P m (fun a s => C a /\ P' s) -> (forall a, C a -> total P' (k a) Q) -> total P (bind m k) Q.
Proof.
  intros Hm Hk. eapply triple_bind; [exact Hm|]. intros a s [Ha Hs]. by apply (Hk a Ha).
Qed.

Lemma total_seq {A B} P P' (m : M W A) (k : A -> M W B) Q :
  total P m (fun _ => P') -> (forall a, total P' (k a) Q) -> total P (bind m k) Q.
Proof. apply triple_bind. Qed.

Lemma total_ret {A} (P : st W -> Prop) (a : A) (Q : A -> st W -> Prop) : (forall s, P s -> Q a s) -> total P (ret a) Q.
Proof. apply triple_ret. Qed.

Lemma total_emit' v p n e : quiet e = true -> total (at_view v p n) (emit e) (fun a s => True /\ at_view v p n s).
Proof. intros He. apply triple_emit. intros s Hs. split; [done|]. by apply at_quiet. Qed.

Lemma total_ctx v p n : total (at_view v p n) ctx_done (fun b s => b = false /\ at_view v p n s).
Proof. apply (total_call v p n env_ctx_done EvCtx (fun b => b = false)); [apply wl_done|done]. Qed.

Lemma total_random v p n : total (at_view v p n) random (fun _ s => True /\ at_view v p n s).
Proof. apply (total_call v p n env_random EvRandom (fun _ => True)); [|done]. intros w. split; [done|apply wl_random]. Qed.

Lemma total_poll v p n c : total (at_view v p n) (poll_upload c) (fun r s => r = Some None /\ at_view v p n s).
Proof. apply (total_call v p n (env_poll_upload c) (EvPoll c) (fun r => r = Some None)); [apply wl_poll|done]. Qed.

Lemma total_interim v p n t : total (at_view v p n) (write_client (CInterim t)) (fun e s => e = None /\ at_view v p n s).
Proof. apply (total_call v p n _ (EvClient (CInterim t)) (fun e => e = None)); [apply wl_client|done]. Qed.

Lemma total_dial v p n k : total (at_view v p n) (dial k) (fun r s => (exists c, r = inr c) /\ at_view v p n s).
Proof.
  intros s Hs. unfold dial. destruct (wl_dial k (st_world s)) as [He Hp]. destruct (env_dial k (st_world s)) as [e w].
  cbn in He, Hp. subst e. split; [by eexists|]. by apply at_quiet.
Qed.

(** ** Calls that count *)

Lemma total_shown {X} v p n (f : W -> X * W) ev (Q : X -> Prop) o :
  (forall w, Q (f w).1 /\ peers (f w).2 = peers w) ->
  (forall x, outs [ev x] = [o] /\ sents [ev x] = [] /\ count is_token [ev x] = 0%nat) ->
  total (at_view v p n) (call f ev)
    (fun x s => Q x /\ at_view (mk_view (v_read v) (v_reply v) (v_out v ++ [o]) (v_sent v)) p n s).
Proof.
  intros Hf Hev. apply triple_call. intros s x w Hs E. destruct (Hf (st_world s)) as [HQ Hp]. rewrite E in HQ, Hp.
  rewrite (at_peers _ _ _ _ Hs) in Hp. split; [done|]. destruct (Hev x) as (E1 & E2 & E3).
  pose proof (at_event v p n s w (ev x) (st_next s) _ _ Hs Hp) as Hv. by rewrite E1, E2, E3, Nat.add_0_r, app_nil_r in Hv.
Qed.

Lemma total_respond v p n r :
  total (at_view v p n) (write_client (CResponse r))
    (fun e s => e = None /\ at_view (mk_view (v_read v) (v_reply v) (v_out v ++ [SResponse r]) (v_sent v)) p n s).
Proof. apply (total_shown v p n _ (EvClient (CResponse r)) (fun e => e = None)); [apply wl_client|done]. Qed.

Lemma total_connect v p n t :
  total (at_view v p n) (write_client (CConnect t))
    (fun e s => e = None /\ at_view (mk_view (v_read v) (v_reply v) (v_out v ++ [SAnnounced t]) (v_sent v)) p n s).
Proof. apply (total_shown v p n _ (EvClient (CConnect t)) (fun e => e = None)); [apply wl_client|done]. Qed.

Lemma total_tunnel v p n c :
  total (at_view v p n) (tunnel c)
    (fun _ s => True /\ at_view (mk_view (v_read v) (v_reply v) (v_out v ++ [STunnel c]) (v_sent v)) p n s).
Proof.
  apply (total_shown v p n _ (fun _ => EvTunnel c) (fun _ => True)); [|done]. intros w. split; [done|apply wl_tunnel].
Qed.

Lemma at_send v p n s w c f req :
  at_view v p n s -> peers w = peers (st_world s) ->
  at_view (mk_view (v_read v) (v_reply v) (v_out v) (v_sent v ++ [(f, req)])) p n
    (mk_st w (st_trace s ++ [EvSend c f req]) (st_next s) (st_proxy s)).
Proof.
  intros Hs Hp. rewrite (at_peers _ _ _ _ Hs) in Hp.
  pose proof (at_event v p n s w (EvSend c f req) (st_next s) _ _ Hs Hp) as Hv.
  by rewrite Nat.add_0_r, app_nil_r in Hv.
Qed.

Lemma total_send v p n c f req :
  total (at_view v p n) (send c f req)
    (fun e s => e = None /\ at_view (mk_view (v_read v) (v_reply v) (v_out v) (v_sent v ++ [(f, req)])) p n s).
Proof.
  eapply total_seq; [apply triple_emit; intros s Hs; by apply (at_send v p n s _ c f req)|]. intros _.
  apply (total_call _ p n (env_write_request c f req) (EvSent c) (fun e => e = None)); [apply wl_write|done].
Qed.

Lemma total_upload v p n c f req :
  total (at_view v p n) (start_upload c f req)
    (fun _ s => True /\ at_view (mk_view (v_read v) (v_reply v) (v_out v) (v_sent v ++ [(f, req)])) p n s).
Proof.
  apply triple_call. intros s x w Hs [= _ <-]. split; [done|]. apply at_send; [done|apply wl_start].
Qed.

Lemma total_token v p n :
  total (at_view v p n) get_token (fun r s => (exists t, r = inr t) /\ at_view v p (S n) s).
Proof.
  apply triple_call. intros s x w Hs E. destruct (wl_token (st_world s)) as [Ht Hp].
  rewrite E in Ht, Hp. rewrite (at_peers _ _ _ _ Hs) in Hp. split; [done|].
  pose proof (at_event v p n s w (EvToken x) (st_next s) _ _ Hs Hp) as Hv.
  rewrite !app_nil_r, Nat.add_1_r in Hv. by destruct v.
Qed.

Lemma total_set_proxy v p n p' : total (at_view v p n) (set_proxy p') (fun _ s => True /\ at_view v p' n s).
Proof. by intros s [H1 H2 H3 H4 H5]. Qed.

Lemma total_get_proxy v p n : total (at_view v p n) get_proxy (fun x s => x = p /\ at_view v p n s).
Proof. by intros s [H1 H2 H3 H4 H5]. Qed.

Lemma total_read v p n q qs :
  v_read v = q :: qs ->
  total (at_view v p n) read_request
    (fun r s => r = inr q /\ at_view (mk_view qs (v_reply v) (v_out v) (v_sent v)) p n s).
Proof.
  intros Hv. apply triple_call. intros s x w Hs E. pose proof (at_peers _ _ _ _ Hs) as H1. rewrite Hv in H1.
  destruct (wl_read _ _ _ _ H1) as (w' & E' & Hp). rewrite E in E'. injection E' as -> ->. split; [done|].
  by apply at_quiet_moved.
Qed.

Lemma total_read_eof v p n :
  v_read v = [] ->
  total (at_view v p n) read_request (fun r s => (exists e, r = inl e /\ errors_is e KEOF = true) /\ at_view v p n s).
Proof.
  intros Hv. apply triple_call. intros s x w Hs E. pose proof (at_peers _ _ _ _ Hs) as H1. rewrite Hv in H1.
  destruct (wl_eof _ _ H1) as (e & w' & E' & He & Hp). rewrite E in E'. injection E' as -> ->. split; [by exists e|].
  apply at_quiet; [done|done|congruence].
Qed.

Lemma total_response v p n c req r rs :
  v_reply v = r :: rs ->
  total (at_view v p n) (read_response c req)
    (fun x s => x = inr r /\ at_view (mk_view (v_read v) rs (v_out v) (v_sent v)) p n s).
Proof.
  intros Hv. apply triple_call. intros s x w Hs E. pose proof (at_peers _ _ _ _ Hs) as H1. rewrite Hv in H1.
  destruct (wl_reply c req _ _ _ _ H1) as (w' & E' & Hp). rewrite E in E'. injection E' as -> ->. split; [done|].
  by apply at_quiet_moved.
Qed.

(** One call of a program; what is known of its result is kept. *)
Ltac known_more := fail.
Ltac known :=
  first [ apply total_emit'; reflexivity | apply total_ctx | apply total_random | apply total_poll | apply total_interim
        | apply total_connect | apply total_tunnel | apply total_dial | apply total_respond | apply total_send | apply total_upload
        | apply total_token | apply total_set_proxy | apply total_get_proxy | known_more ].
Ltac step := eapply total_then; [known|cbv beta; intros ? ?].

(** ** The handlers *)

Lemma served_readRequest v p n q qs :
  v_read v = q :: qs ->
  total (at_view v p n) readRequest
    (fun r s => r = inr q /\ at_view (mk_view qs (v_reply v) (v_out v) (v_sent v)) p n s).
Proof.
  intros Hv. unfold readRequest. step. step. subst. step.
  eapply total_then; [by apply total_read|cbv beta; intros ? ->]. step. step. step. subst. by apply total_ret.
Qed.

Lemma served_readRequest_eof v p n :
  v_read v = [] ->
  total (at_view v p n) readRequest (fun r s => (exists e, r = inl e /\ errors_is e KEOF = true) /\ at_view v p n s).
Proof.
  intros Hv. unfold readRequest. step. step. subst. step.
  eapply total_then; [by apply total_read_eof|cbv beta; intros ? (e & -> & He)]. step. step. step. subst.
  apply total_ret. eauto.
Qed.

Lemma served_next v p n iter q qs :
  v_read v = q :: qs ->
  total (at_view v p n) (readNextRequest iter)
    (fun r s => r = Some q /\ at_view (mk_view qs (v_reply v) (v_out v) (v_sent v)) p n s).
Proof.
  intros Hv. unfold readNextRequest. eapply total_then; [by apply served_readRequest|cbv beta; intros ? ->].
  by apply total_ret.
Qed.

Lemma served_next_eof v p n iter :
  v_read v = [] -> total (at_view v p n) (readNextRequest iter) (fun r s => r = None /\ at_view v p n s).
Proof.
  intros Hv. unfold readNextRequest. eapply total_then; [by apply served_readRequest_eof|cbv beta; intros ? (e & -> & He)].
  unfold isExpectedCloseError. rewrite He. cbn [orb]. repeat case_match; by apply total_ret.
Qed.

Lemma served_keep_alive v p n c : total (at_view v p n) (keep_alive cfg c) (fun _ s => True /\ at_view v p n s).
Proof. unfold keep_alive. case_match; [step; known|by apply total_ret]. Qed.

Lemma served_writeResponse v p n r :
  total (at_view v p n) (writeResponse r)
    (fun x s => x = (r, None) /\ at_view (mk_view (v_read v) (v_reply v) (v_out v ++ [SResponse r]) (v_sent v)) p n s).
Proof. unfold writeResponse. step. subst. step. subst. by apply total_ret. Qed.

Lemma served_relayInterim v p n req i :
  total (at_view v p n) (relayInterimResponse req i) (fun e s => e = None /\ at_view v p n s).
Proof. unfold relayInterimResponse. case_match; [known|by apply total_ret]. Qed.

Ltac known_more ::= first [apply served_keep_alive|apply served_writeResponse|apply served_relayInterim].

Lemma served_through f c req ims r r' rs p n fuel v :
  Forall (interim_ok f) ims -> post_of cfg f (inr r) = inr r' -> isInterimResponse r' = false ->
  (length ims < fuel)%nat -> v_reply v = ims ++ r :: rs ->
  total (at_view v p n) (readThroughInterim fuel c req (post_of cfg f))
    (fun t s => t = TResp r' /\ at_view (mk_view (v_read v) rs (v_out v) (v_sent v)) p n s).
Proof.
  intros Hi Hr Hn. revert fuel v. induction Hi as [|i ims (i' & Ei & Hi1 & Hi2) _ IH]; intros [|fuel] v Hf Hv;
    cbn [length] in Hf; try lia; cbn [readThroughInterim].
  - eapply total_then; [by apply total_response|cbv beta; intros ? ->]. rewrite Hr, Hn. by apply total_ret.
  - eapply total_then; [by apply total_response|cbv beta; intros ? ->]. rewrite Ei, Hi1. cbn [negb]. rewrite Hi2.
    step. subst. eapply (IH fuel (mk_view _ _ _ _)); [lia|done].
Qed.

Lemma served_exchange f c req ims r r' rs p n fuel v :
  Forall (interim_ok f) ims -> post_of cfg f (inr r) = inr r' -> isInterimResponse r' = false ->
  (length ims < fuel)%nat -> v_reply v = ims ++ r :: rs ->
  total (at_view v p n) (exchangeRequest fuel c f req (post_of cfg f))
    (fun t s => t = (TResp r', None) /\ at_view (mk_view (v_read v) rs (v_out v) (v_sent v ++ [(f, req)])) p n s).
Proof.
  intros Hi Hr Hn Hf Hv. unfold exchangeRequest. case_match.
  - step. subst. eapply total_then; [by eapply (served_through f c req ims)|cbv beta; intros ? ->]. by apply total_ret.
  - step. eapply total_then; [by eapply (served_through f c req ims)|cbv beta; intros ? ->].
    eapply total_then with (C := fun t => t = (TResp r', None)).
    { unfold await_upload. step. subst. by apply total_ret. }
    cbv beta. intros ? ->. step. by apply total_ret.
Qed.
(** ** Relaying one request *)

(** A token is acquired with the upstream connection and only then. *)
Definition ntok (p : option conn) : nat := match p with Some _ => 1 | None => 0 end.
Definition held (v : view) (s : st W) : Prop := exists p, at_view v p (ntok p) s.

Lemma total_held {A} v v' (m : M W A) C :
  (forall p n, total (at_view v p n) m (fun a s => C a /\ at_view v' p n s)) ->
  total (held v) m (fun a s => C a /\ held v' s).
Proof.
  intros Hm s [p Hs]. specialize (Hm p (ntok p) s Hs). destruct (m s) as [[a|] s']; [|done].
  destruct Hm as [HC Hs']. split; [done|by exists p].
Qed.

(** [r2] is [r1] but for the header, which the proxy changed by its rules. *)
Definition recast (r1 r2 : request) : Prop := carries r1 r2 /\ r2 = with_header r1 (req_header r2).

Lemma recast_trans r1 r2 r3 : recast r1 r2 -> recast r2 r3 -> recast r1 r3.
Proof. intros [C1 E1] [C2 E2]. split; [by eapply carries_trans|]. rewrite E2, E1. done. Qed.

Lemma recast_via r : recast r (inject_via cfg r).
Proof. split; [apply carries_via|done]. Qed.

Lemma recast_forwarding r rnd : recast r (injectForwardingHeaders r clientAddr (Forwarding cfg) rnd).
Proof.
  split; [apply carries_forwarding|]. unfold injectForwardingHeaders. case_match; [|done]. by destruct r.
Qed.

Lemma served_forwarding v p n req :
  total (at_view v p n) (inject_forwarding cfg clientAddr req) (fun r s => recast req r /\ at_view v p n s).
Proof.
  unfold inject_forwarding. case_match; [step|]; apply total_ret; intros s Hs; (split; [apply recast_forwarding|done]).
Qed.

Lemma served_dial_upstream v p n req :
  total (at_view v p n) (dialAndAuthUpstream cfg req)
    (fun d s => (exists c r, d = Some (c, r) /\ recast req r) /\ at_view v p (S n) s).
Proof.
  unfold dialAndAuthUpstream. eapply total_then; [apply total_token|cbv beta; intros ? [t ->]].
  eapply total_then; [apply total_dial|cbv beta; intros ? [c ->]]. step. apply total_ret. intros s Hs. split; [|done].
  eexists c, _. split; [done|]. split; [apply (carries_token req t)|done].
Qed.

Lemma served_upstream_conn v req :
  total (held v) (upstream_conn cfg req) (fun d s => (exists c r, d = Some (c, r) /\ recast req r) /\ held v s).
Proof.
  intros s [p Hs]. revert s Hs. change (total (at_view v p (ntok p)) (upstream_conn cfg req)
    (fun d s => (exists c r, d = Some (c, r) /\ recast req r) /\ held v s)).
  unfold upstream_conn. eapply total_then; [apply total_get_proxy|cbv beta; intros ? ->]. destruct p as [c|].
  - apply total_ret. intros s Hs. split; [|by exists (Some c)]. exists c, req. split; [done|]. split; [apply carries_refl|].
    by destruct req.
  - eapply total_then; [apply served_dial_upstream|cbv beta; intros ? (c & r & -> & Hr)].
    step. apply total_ret. intros s Hs. split; [by exists c, r|by exists (Some c)].
Qed.

(** What is left when [x] has been served. *)
Definition after (x : exch) (qs : list request) (rs : list response) (out : list shown)
    (snt : list (wire * request)) (s : st W) : Prop :=
  exists d, served x d /\ held (mk_view qs rs (out ++ [SResponse d.2]) (snt ++ [d.1])) s.

Lemma recast_keep x r1 req r :
  acceptable x -> validateRequest cfg (x_req x) = VProceed r1 -> recast r1 req -> resp_close r = false ->
  connectionWillClose req r = false.
Proof.
  intros Hx Hv [_ E] Hr. apply validateRequest_fields in Hv as (_ & _ & _ & _ & _ & Hc & Hma & Hmi & _).
  unfold connectionWillClose. rewrite E. cbn. by rewrite Hc, Hma, Hmi, (ac_proto _ Hx), (ac_keep _ Hx), Hr.
Qed.

(** The exchange and the answer, in either form. *)
Lemma served_relay {A} x r1 f c req qs rs out snt fuel (k : through * option error -> M W A) Q :
  acceptable x -> validateRequest cfg (x_req x) = VProceed r1 -> recast r1 req ->
  (length (x_interim x) < fuel)%nat ->
  (forall r, connectionWillClose req r = false ->
     total (held (mk_view qs rs out (snt ++ [(f, req)]))) (k (TResp r, None))
       (fun a s => post_of cfg f (inr (x_final x)) = inr r -> Q a s)) ->
  total (held (mk_view qs (x_replies x ++ rs) out snt)) (bind (exchangeRequest fuel c f req (post_of cfg f)) k) Q.
Proof.
  intros Hx Hv Hr Hf Hk. destruct (ac_final _ Hx f) as (r & Er & Hn & Hc).
  eapply total_then with (C := fun t => t = (TResp r, None)) (P' := held (mk_view qs rs out (snt ++ [(f, req)]))).
  - apply (total_held (mk_view qs (x_replies x ++ rs) out snt) (mk_view qs rs out (snt ++ [(f, req)]))). intros p n.
    eapply (served_exchange f c req (x_interim x) (x_final x) r rs p n fuel (mk_view qs (x_replies x ++ rs) out snt));
      [apply (ac_interim _ Hx f)|done..|]. unfold x_replies. cbn. by rewrite <- app_assoc.
  - intros ? ->. intros s Hs. specialize (Hk r (recast_keep x r1 req r Hx Hv Hr Hc) s Hs).
    destruct (k (TResp r, None) s) as [[a|] s']; [by apply Hk|done].
Qed.

Lemma served_upstream x r1 qs rs out snt fuel :
  acceptable x -> validateRequest cfg (x_req x) = VProceed r1 -> (length (x_interim x) < fuel)%nat ->
  total (held (mk_view qs (x_replies x ++ rs) out snt)) (relayViaUpstream cfg clientAddr fuel r1)
    (fun ok s => ok = true /\ after x qs rs out snt s).
Proof.
  intros Hx Hv Hf. unfold relayViaUpstream.
  eapply total_then; [apply total_held; intros p n; apply served_forwarding|cbv beta; intros r2 Hr2].
  eapply total_then; [apply served_upstream_conn|cbv beta; intros ? (c & r3 & -> & Hr3)].
  assert (Hr : recast r1 (inject_via cfg r3)) by (eapply recast_trans; [by eapply recast_trans|apply recast_via]).
  apply (served_relay x r1 ProxyForm c); [done..|]. intros r Hcl.
  eapply total_then; [apply total_held; intros p n; apply served_writeResponse|cbv beta; intros ? ->].
  apply total_ret. intros s Hs Hp. rewrite Hcl. split; [done|]. exists ((ProxyForm, inject_via cfg r3), r).
  split; [|done]. exists r1. by destruct Hr.
Qed.

Lemma served_direct x r1 qs rs out snt fuel c req :
  acceptable x -> validateRequest cfg (x_req x) = VProceed r1 -> recast r1 req -> (length (x_interim x) < fuel)%nat ->
  total (held (mk_view qs (x_replies x ++ rs) out snt)) (relayDirect cfg fuel c req)
    (fun ok s => ok = true /\ after x qs rs out snt s).
Proof.
  intros Hx Hv Hr Hf. unfold relayDirect. apply (served_relay x r1 OriginForm c); [done..|]. intros r Hcl.
  eapply total_then; [apply total_held; intros p n; apply served_writeResponse|cbv beta; intros ? ->].
  apply total_ret. intros s Hs Hp. rewrite Hcl. split; [done|]. exists ((OriginForm, req), r).
  split; [|done]. exists r1. by destruct Hr.
Qed.
(** ** The loops *)

(** Fuel for a list of exchanges. *)
Definition weight (xs : list exch) : nat := sum_list_with (fun x => length (x_interim x) + 2)%nat xs.

Lemma weight_app xs ys : weight (xs ++ ys) = (weight xs + weight ys)%nat.
Proof. apply sum_list_with_app. Qed.

Lemma weight_cons x xs : weight (x :: xs) = (length (x_interim x) + 2 + weight xs)%nat.
Proof. done. Qed.

(** Everything has been served and the client has closed its connection. *)
Definition finished (xs : list exch) (out : list shown) (snt : list (wire * request)) (s : st W) : Prop :=
  exists ds, Forall2 served xs ds /\ held (mk_view [] [] (out ++ (SResponse <$> ds.*2)) (snt ++ ds.*1)) s.

(** A round that started with [x], with [xs] to come: everything was served, or
    [x] was, or some more of [xs] up to a request that is handed back. *)
Definition round (x : exch) (xs : list exch) (out : list shown) (snt : list (wire * request))
    (r : option request * bool) (s : st W) : Prop :=
  match r with
  | (None, false) => finished (x :: xs) out snt s
  | (None, true) => after x (requests_of xs) (replies_of xs) out snt s
  | (Some q, true) => exists ys y zs ds, xs = ys ++ y :: zs /\ q = x_req y /\ Forall2 served (x :: ys) ds /\
      held (mk_view (requests_of zs) (x_replies y ++ replies_of zs) (out ++ (SResponse <$> ds.*2)) (snt ++ ds.*1)) s
  | (Some _, false) => False
  end.

Lemma held_quiet v s e : held v s -> quiet e = true -> held v (mk_st (st_world s) (st_trace s ++ [e]) (st_next s) (st_proxy s)).
Proof. intros [p Hs] He. exists p. by apply at_quiet. Qed.

Lemma round_quiet x xs out snt r s e :
  round x xs out snt r s -> quiet e = true ->
  round x xs out snt r (mk_st (st_world s) (st_trace s ++ [e]) (st_next s) (st_proxy s)).
Proof.
  intros Hr He. destruct r as [[q|] []]; cbn in *; [|done|..].
  - destruct Hr as (ys & y & zs & ds & ? & ? & ? & Hs). exists ys, y, zs, ds. split_and!; try done. by apply held_quiet.
  - destruct Hr as (d & ? & Hs). exists d. split; [done|]. by apply held_quiet.
  - destruct Hr as (ds & ? & Hs). exists ds. split; [done|]. by apply held_quiet.
Qed.

(** One more exchange in front of what a round did. *)
Lemma round_cons x d y xs out snt r s :
  served x d -> round y xs (out ++ [SResponse d.2]) (snt ++ [d.1]) r s -> r <> (None, true) -> round x (y :: xs) out snt r s.
Proof.
  intros Hd Hr Hn. destruct r as [[q|] []]; cbn in *; try done.
  - destruct Hr as (ys & z & zs & ds & -> & -> & F & Hs). exists (y :: ys), z, zs, (d :: ds). split_and!; [done..| |].
    + by constructor.
    + by rewrite <- !app_assoc in Hs.
  - destruct Hr as (ds & F & Hs). exists (d :: ds). split; [by constructor|]. by rewrite <- !app_assoc in Hs.
Qed.

(** The next request on a direct connection. *)
Lemma served_next_direct bound y ys rs out snt :
  acceptable y ->
  total (held (mk_view (x_req y :: ys) rs out snt)) (nextDirectRequest cfg bound)
    (fun r s => (r = Some (x_req y, true) \/
       exists r1 req, r = Some (req, false) /\ validateRequest cfg (x_req y) = VProceed r1 /\ recast r1 req) /\
       held (mk_view ys rs out snt) s).
Proof.
  intros Hy. unfold nextDirectRequest. destruct (ac_valid _ Hy) as [r1 Hv].
  eapply total_then;
    [apply (total_held (mk_view (x_req y :: ys) rs out snt) (mk_view ys rs out snt)); intros p n; by apply served_readRequest
    |cbv beta; intros ? ->].
  case_match; [apply total_ret; auto|]. rewrite Hv.
  assert (Hm : String.eqb (req_method r1) "CONNECT" = false).
  { apply String.eqb_neq. apply validateRequest_fields in Hv as [-> _]. apply (ac_method _ Hy). }
  rewrite Hm. apply total_ret. intros s Hs. split; [|done]. right. exists r1, (inject_via cfg r1).
  split_and!; [done..|apply recast_via].
Qed.

Lemma served_next_direct_eof bound rs out snt :
  total (held (mk_view [] rs out snt)) (nextDirectRequest cfg bound)
    (fun r s => r = None /\ held (mk_view [] rs out snt) s).
Proof.
  unfold nextDirectRequest. eapply total_then; [apply total_held; intros p n; by apply served_readRequest_eof|].
  cbv beta. intros ? (e & -> & _). by apply total_ret.
Qed.

Lemma total_conseq {A} P P' (m : M W A) Q Q' :
  total P' m Q' -> (forall s, P s -> P' s) -> (forall a s, Q' a s -> Q a s) -> total P m Q.
Proof. intros Hm HP HQ. by eapply triple_conseq. Qed.

(** A state that is one of several. *)
Lemma total_exists {A D} (P : D -> st W -> Prop) (m : M W A) Q :
  (forall d, total (P d) m Q) -> total (fun s => exists d, P d s) m Q.
Proof. intros Hm s [d Hs]. by apply (Hm d). Qed.

Lemma total_and {A} (C : Prop) P (m : M W A) Q : (C -> total P m Q) -> total (fun s => C /\ P s) m Q.
Proof. intros Hm s [HC Hs]. by apply Hm. Qed.

Lemma served_direct_loop xs x r1 fuel c bound req out snt :
  Forall acceptable (x :: xs) -> validateRequest cfg (x_req x) = VProceed r1 -> recast r1 req ->
  (weight (x :: xs) <= fuel)%nat ->
  total (held (mk_view (requests_of xs) (x_replies x ++ replies_of xs) out snt)) (direct_loop cfg fuel c bound req)
    (fun r s => r <> (None, true) /\ round x xs out snt r s).
Proof.
  revert x r1 fuel req out snt. induction xs as [|y xs IH]; intros x r1 [|fuel] req out snt Hx Hv Hr Hw;
    cbn in Hw; try lia; cbn [direct_loop]; pose proof (Forall_inv Hx) as Hx0.
  - eapply total_then; [eapply (served_direct x r1); [done..|lia]|cbv beta; intros ? ->]. apply total_exists. intros d. apply total_and. intros Hd.
    eapply total_then; [apply served_next_direct_eof|cbv beta; intros ? ->]. apply total_ret. intros s Hs. split; [done|].
    exists [d]. split; [by repeat constructor|done].
  - eapply total_then; [eapply (served_direct x r1); [done..|lia]|cbv beta; intros ? ->]. apply total_exists. intros d. apply total_and. intros Hd.
    pose proof (Forall_inv_tail Hx) as Hys. pose proof (Forall_inv Hys) as Hy.
    eapply total_then; [by apply served_next_direct|cbv beta]. intros ? [->|(r2 & req2 & -> & Hv2 & Hr2)].
    + apply total_ret. intros s Hs. split; [done|]. exists [], y, xs, [d]. by split_and!; [..|repeat constructor|].
    + eapply total_conseq; [eapply (IH y r2); try done; cbn in *; lia|done|]. cbv beta. intros r s [Hn Hs]. split; [done|].
      by eapply round_cons.
Qed.
Lemma served_forwardDirect xs x r1 fuel out snt :
  Forall acceptable (x :: xs) -> validateRequest cfg (x_req x) = VProceed r1 -> (weight (x :: xs) <= fuel)%nat ->
  total (held (mk_view (requests_of xs) (x_replies x ++ replies_of xs) out snt)) (forwardDirect cfg fuel (inject_via cfg r1))
    (round x xs out snt).
Proof.
  intros Hx Hv Hw. unfold forwardDirect, dialDirect.
  eapply total_then; [apply total_held; intros p n; apply total_dial|cbv beta; intros ? [c ->]].
  eapply total_then; [apply total_held; intros p n; apply served_keep_alive|cbv beta; intros _ _].
  eapply triple_bind; [eapply served_direct_loop; [done|done|apply recast_via|done]|cbv beta; intros r].
  apply (triple_bind _ _ _ (fun _ => round x xs out snt r)); [apply triple_emit; intros s [_ Hs]; by apply round_quiet|].
  intros _. by apply total_ret.
Qed.

Lemma served_one xs x fuel out snt :
  Forall acceptable (x :: xs) -> (weight (x :: xs) <= fuel)%nat ->
  total (held (mk_view (requests_of xs) (x_replies x ++ replies_of xs) out snt)) (serve_one cfg clientAddr fuel (x_req x))
    (round x xs out snt).
Proof.
  intros Hx Hw. pose proof (Forall_inv Hx) as Hx0. unfold serve_one. destruct (ac_valid _ Hx0) as [r1 Hv]. rewrite Hv.
  assert (Hm : String.eqb (req_method r1) "CONNECT" = false).
  { apply String.eqb_neq. pose proof Hv as Hv'. apply validateRequest_fields in Hv' as [-> _]. apply (ac_method _ Hx0). }
  unfold routeRequest. rewrite Hm. case_match; [by apply served_forwardDirect|].
  eapply total_then; [eapply (served_upstream x r1); [done..|cbn in Hw; lia]|cbv beta; intros ? ->]. by apply total_ret.
Qed.

(** [finished] after some exchanges more. *)
Lemma finished_after ys zs ds out snt s :
  Forall2 served ys ds -> finished zs (out ++ (SResponse <$> ds.*2)) (snt ++ ds.*1) s -> finished (ys ++ zs) out snt s.
Proof.
  intros F (es & G & Hs). exists (ds ++ es). split; [by apply Forall2_app|].
  by rewrite !fmap_app, !app_assoc.
Qed.

(** The rounds of [run], from a request that has been read or is to be read. *)
Lemma served_run fuel :
  (forall xs iter out snt, Forall acceptable xs -> (weight xs < fuel)%nat ->
     total (held (mk_view (requests_of xs) (replies_of xs) out snt)) (run cfg clientAddr fuel iter None)
       (fun _ => finished xs out snt)) /\
  (forall x xs iter out snt, Forall acceptable (x :: xs) -> (weight (x :: xs) < fuel)%nat ->
     total (held (mk_view (requests_of xs) (x_replies x ++ replies_of xs) out snt))
       (run cfg clientAddr fuel iter (Some (x_req x))) (fun _ => finished (x :: xs) out snt)).
Proof.
  induction fuel as [|fuel [IH1 IH2]]; [split; intros; lia|].
  assert (Hround : forall x xs iter out snt, Forall acceptable (x :: xs) -> (weight (x :: xs) < S fuel)%nat ->
    total (held (mk_view (requests_of xs) (x_replies x ++ replies_of xs) out snt))
      (r <- serve_one cfg clientAddr fuel (x_req x) ;;
       match r with (_, false) => ret tt | (next, true) => run cfg clientAddr fuel (S iter) next end)
      (fun _ => finished (x :: xs) out snt)).
  { intros x xs iter out snt Hx Hw. eapply triple_bind; [apply served_one; [done|lia]|]. intros [[q|] []]; cbn [round].
    - apply total_exists. intros ys. apply total_exists. intros y. apply total_exists. intros zs. apply total_exists. intros ds.
      apply total_and. intros ->. apply total_and. intros ->. apply total_and. intros F.
      rewrite app_comm_cons in Hx. apply Forall_app in Hx as [_ Hz]. rewrite app_comm_cons, weight_app, weight_cons in Hw.
      eapply total_conseq; [apply (IH2 y zs); [done|lia]|done|]. cbv beta. intros _ s Hs.
      by apply (finished_after (x :: ys) (y :: zs) ds).
    - by intros s [].
    - apply total_exists. intros d. apply total_and. intros Hd.
      eapply total_conseq; [apply (IH1 xs); [by apply Forall_inv_tail in Hx|rewrite weight_cons in Hw; lia]|done|]. cbv beta. intros _ s Hs.
      apply (finished_after [x] xs [d]); [by repeat constructor|done].
    - by apply total_ret. }
  split.
  - intros [|x xs] iter out snt Hx Hw; cbn [run].
    + eapply total_then; [apply total_held; intros p n; by apply served_next_eof|cbv beta; intros ? ->]. apply total_ret.
      intros s Hs. exists []. split; [done|]. by rewrite !app_nil_r.
    + eapply total_then;
        [apply (total_held (mk_view (requests_of (x :: xs)) (replies_of (x :: xs)) out snt)
           (mk_view (requests_of xs) (x_replies x ++ replies_of xs) out snt)); intros p n; by apply served_next
        |cbv beta; intros ? ->]. by apply Hround.
  - intros x xs iter out snt Hx Hw. cbn [run].
    eapply total_then with (C := fun r => r = Some (x_req x)); [by apply total_ret|]. intros ? ->. by apply Hround.
Qed.

(** ** Whole sessions *)

(** A session whose rounds come to an end in a state that is known. *)
Lemma session_total v fuel w (C : view -> nat -> Prop) :
  Pseudonym cfg <> "" -> ip_denied cfg clientAddr = false ->
  peers w = (v_read v, v_reply v) -> v_out v = [] -> v_sent v = [] ->
  total (at_view v None 0) (run cfg clientAddr fuel 0 None) (fun _ s => exists v' p n, C v' n /\ at_view v' p n s) ->
  (session cfg clientAddr fuel w).1 = Done tt /\
  exists v', outs (session_trace cfg clientAddr fuel w) = v_out v' /\ sents (session_trace cfg clientAddr fuel w) = v_sent v' /\
    C v' (count is_token (session_trace cfg clientAddr fuel w)).
Proof.
  intros Hps%String.eqb_neq Hip Hw Ho Hsn Hrun.
  assert (Ht : total (at_view v None 0) (handleClientCtx cfg clientAddr fuel)
    (fun _ s => exists v' p n, C v' n /\ at_view v' p n s)).
  { unfold handleClientCtx. rewrite Hps, Hip.
    eapply triple_bind with (Q' := fun _ s => exists v' p n, C v' n /\ at_view v' p n s).
    { eapply triple_bind; [exact Hrun|]. intros _ s (v' & p & n & HC & Hs). unfold close_proxy, bind, get_proxy.
      pose proof (at_proxy _ _ _ _ Hs) as Hp. rewrite Hp.
      destruct p as [c|]; exists v', None, n; (split; [done|]); [|done].
      apply (at_quiet _ _ _ _ (st_world s) (EvClose c) (st_next s)) in Hs; [|done..]. by destruct Hs. }
    intros _. eapply triple_bind with (Q' := fun _ s => exists v' p n, C v' n /\ at_view v' p n s);
      [|intros _]; apply triple_emit; intros s (v' & p & n & HC & Hs); exists v', p, n; (split; [done|by apply at_quiet]). }
  specialize (Ht (init_st w)). unfold session_trace, session.
  assert (Hi : at_view v None 0 (init_st w)) by (by constructor).
  destruct (handleClientCtx cfg clientAddr fuel (init_st w)) as [[[]|] s']; [|by exfalso; apply (Ht Hi)].
  specialize (Ht Hi). cbv beta iota in Ht. split; [done|]. destruct Ht as (v' & p & n & HC & [_ H2 H3 H4 _]). exists v'. cbn. by rewrite H4.
Qed.

(** C7 (requests_served): keep-alive connections are served in full.  When the client and the other
    peers play along, a session carries out every acceptable exchange of a
    connection, for any number of requests, interim responses and any mixture of
    hosts that are reached through the upstream proxy and directly: each request
    is forwarded exactly once and in order, changed in its header only and there
    by the proxy's rules; the client gets, in order, one response per request and
    each is what the proxy makes of that request's own final response, and nothing
    else but interim responses; one token is acquired at most; and the session
    ends when the client closes the connection. *)
Theorem requests_served xs fuel w :
  Pseudonym cfg <> "" -> ip_denied cfg clientAddr = false ->
  peers w = (requests_of xs, replies_of xs) -> Forall acceptable xs -> (weight xs < fuel)%nat ->
  (session cfg clientAddr fuel w).1 = Done tt /\
  exists ds, Forall2 served xs ds /\
    sents (session_trace cfg clientAddr fuel w) = ds.*1 /\
    outs (session_trace cfg clientAddr fuel w) = SResponse <$> ds.*2 /\
    (count is_token (session_trace cfg clientAddr fuel w) <= 1)%nat.
Proof.
  intros Hps Hip Hw Hx Hf.
  destruct (session_total (mk_view (requests_of xs) (replies_of xs) [] []) fuel w (fun v n =>
    (n <= 1)%nat /\ exists ds, Forall2 served xs ds /\ v_out v = SResponse <$> ds.*2 /\ v_sent v = ds.*1))
    as (Hd & v & Ho & Hs & Hn & ds & F & E1 & E2); [done..| |].
  - eapply total_conseq; [by apply (proj1 (served_run fuel))|intros s Hs; by exists None|].
    cbv beta. intros _ s (ds & F & p & Hs). eexists _, p, (ntok p). split; [|exact Hs].
    split; [by destruct p; cbn; lia|by exists ds].
  - split; [done|]. exists ds. rewrite Ho, Hs. done.
Qed.

(** ** CONNECT *)

(** What the client is told, what is sent to the upstream proxy and the tokens
    this takes, when the tunnel of [r1] runs on [c]; [r'] is the upstream's
    answer. *)
Definition connected (r1 : request) (r' : response) (v : view) (n : nat) : Prop :=
  exists c, if noproxy_match cfg (req_host r1)
  then v_out v = [SAnnounced (writeConnectOK (connect_ok cfg r1)); STunnel c] /\ v_sent v = [] /\ n = 0%nat
  else v_out v = [SAnnounced (writeConnectOK r'); STunnel c] /\ n = 1%nat /\
    exists req, v_sent v = [(ProxyForm, req)] /\ carries r1 req /\ req = with_header r1 (req_header req).

Lemma connected_upstream r1 ims r r' fuel rs :
  noproxy_match cfg (req_host r1) = false ->
  Forall (interim_ok ProxyForm) ims -> post_of cfg ProxyForm (inr r) = inr r' -> (200 <= resp_code r' < 300) ->
  (length ims < fuel)%nat ->
  total (at_view (mk_view [] (ims ++ r :: rs) [] []) None 0) (tunnelViaUpstream cfg clientAddr fuel r1)
    (fun _ s => exists v p n, connected r1 r' v n /\ at_view v p n s).
Proof.
  intros Hm Hi Hr Hc Hf. unfold tunnelViaUpstream.
  eapply total_then; [apply served_forwarding|cbv beta; intros r2 Hr2].
  eapply total_then; [apply served_dial_upstream|cbv beta; intros ? (c & r3 & -> & Hr3)].
  assert (Hreq : recast r1 (inject_via cfg r3)) by (eapply recast_trans; [by eapply recast_trans|apply recast_via]).
  cbv zeta. step. subst. eapply total_seq with (P' := fun s => exists v p n, connected r1 r' v n /\ at_view v p n s).
  - unfold handleConnectTunnel. eapply total_then.
    + eapply (served_through ProxyForm c _ ims r r' rs); [done..| |done|done]. unfold isInterimResponse. lia.
    + cbv beta. intros ? ->. assert (Hs : (resp_code r' <? 200) || (300 <=? resp_code r') = false) by lia. rewrite Hs.
      step. subst. eapply total_conseq; [apply total_tunnel|done|]. cbv beta. intros _ s [_ Hv].
      eexists _, _, _. split; [|exact Hv]. exists c. rewrite Hm. split_and!; [done..|]. exists (inject_via cfg r3).
      by destruct Hreq.
  - intros _. apply triple_emit. intros s (v & p & n & HC & Hs). exists v, p, n. split; [done|by apply at_quiet].
Qed.

Lemma connected_direct r1 r' rs :
  noproxy_match cfg (req_host r1) = true ->
  total (at_view (mk_view [] rs [] []) None 0) (tunnelDirect cfg r1)
    (fun _ s => exists v p n, connected r1 r' v n /\ at_view v p n s).
Proof.
  intros Hm. unfold tunnelDirect, dialDirect. eapply total_then; [apply total_dial|cbv beta; intros ? [c ->]].
  step. subst. step. step. apply triple_emit. intros s Hs. eexists _, _, _. split; [|by apply at_quiet].
  exists c. by rewrite Hm.
Qed.

(** C8 (connect_served): a CONNECT gets its tunnel.  When the peers play along and the
    upstream proxy, if the host is not one that is reached directly, accepts
    after any number of interim responses, a session whose client asks for a
    tunnel sends the request at most once, and only upstream, changed in its
    header only and there by the proxy's rules, tells the client once, with the
    upstream's own answer or with the proxy's for a direct host, then runs the
    tunnel once, and ends; the token it takes is one upstream and none directly. *)
Theorem connect_served q r1 ims r r' fuel w :
  Pseudonym cfg <> "" -> ip_denied cfg clientAddr = false -> peers w = ([q], ims ++ [r]) ->
  req_method q = "CONNECT" -> validateRequest cfg q = VProceed r1 ->
  Forall (interim_ok ProxyForm) ims -> post_of cfg ProxyForm (inr r) = inr r' -> (200 <= resp_code r' < 300) ->
  (S (length ims) < fuel)%nat ->
  (session cfg clientAddr fuel w).1 = Done tt /\
  exists v, outs (session_trace cfg clientAddr fuel w) = v_out v /\ sents (session_trace cfg clientAddr fuel w) = v_sent v /\
    connected r1 r' v (count is_token (session_trace cfg clientAddr fuel w)).
Proof.
  intros Hps Hip Hw Hq Hv Hi Hr Hc Hf. apply (session_total (mk_view [q] (ims ++ [r]) [] [])); [done..|].
  destruct fuel as [|fuel]; [lia|]. cbn [run].
  eapply total_then; [by apply served_next|cbv beta; intros ? ->]. unfold serve_one. rewrite Hv.
  assert (Hm : String.eqb (req_method r1) "CONNECT" = true).
  { apply String.eqb_eq. pose proof Hv as Hv'. apply validateRequest_fields in Hv' as [-> _]. done. }
  unfold routeRequest. rewrite Hm.
  eapply total_then with (C := fun x => x = (None, false)) (P' := fun s => exists v p n, connected r1 r' v n /\ at_view v p n s).
  - destruct (noproxy_match cfg (req_host r1)) eqn:Hnp.
    + eapply total_seq; [by apply connected_direct|]. intros _. by apply total_ret.
    + eapply total_seq; [eapply connected_upstream; try done; lia|]. intros _. by apply total_ret.
  - intros ? ->. by apply total_ret.
Qed.
End Served.

(** ** Peers that play along, concretely *)

(** The messages that are left to be read; nothing else ever fails. *)
Record obliging := mk_obliging { ob_requests : list request; ob_responses : list response }.

#[export] Instance obliging_env : Env obliging := {
  env_read_request w := match ob_requests w with
    | [] => (inl eof, w)
    | q :: qs => (inr q, mk_obliging qs (ob_responses w))
    end;
  env_ctx_done w := (false, w);
  env_get_token w := (inr "token", w);
  env_dial _ w := (None, w);
  env_write_request _ _ _ w := (None, w);
  env_start_upload _ _ _ w := w;
  env_poll_upload _ w := (Some None, w);
  env_join_upload _ w := (None, w);
  env_read_response _ _ w := match ob_responses w with
    | [] => (inl eof, w)
    | r :: rs => (inr r, mk_obliging (ob_requests w) rs)
    end;
  env_write_client _ w := (None, w);
  env_tunnel _ w := w;
  env_random w := ("0123456789abcdef", w)
}.

#[export, refine] Instance obliging_willing : Willing obliging := {
  peers w := (ob_requests w, ob_responses w)
}.
Proof.
  all: intros; try destruct w as [qs' rs']; simplify_eq/=; eauto 10.
Defined.

(** An upstream host with an early hint, a no-proxy host twice, and an upstream
    host again. *)
Definition demo_exchanges : list exch :=
  [mk_exch (demo_request "GET" "a.example" ∅) [demo_response 103 ∅] (demo_response 200 ∅);
   mk_exch (demo_request "GET" "internal.corp" ∅) [] (demo_response 404 ∅);
   mk_exch (demo_request "HEAD" "internal.corp:80" ∅) [] (demo_response 204 ∅);
   mk_exch (demo_request "GET" "b.example" ∅) [] (demo_response 200 ∅)].

(** What the proxy makes of a concrete response. *)
Ltac evaluated := eexists; split; [vm_compute; reflexivity|split; vm_compute; reflexivity].

Lemma requests_served_witness :
  (session demo_config demo_addr 20 (mk_obliging (requests_of demo_exchanges) (replies_of demo_exchanges))).1 = Done tt /\
  length (outs (session_trace demo_config demo_addr 20
    (mk_obliging (requests_of demo_exchanges) (replies_of demo_exchanges)))) = 4%nat.
Proof.
  destruct (requests_served demo_config demo_addr demo_exchanges 20
    (mk_obliging (requests_of demo_exchanges) (replies_of demo_exchanges))) as (Hd & ds & F & _ & Ho & _).
  - done.
  - reflexivity.
  - reflexivity.
  - repeat (apply Forall_cons; split); [..|done].
    all: split; cbn [x_req x_interim x_final]; [eexists; vm_compute; reflexivity|discriminate|reflexivity|reflexivity|..].
    all: intros []; lazymatch goal with |- Forall _ _ => repeat apply Forall_cons_2; try apply Forall_nil_2 | _ => idtac end.
    all: evaluated.
  - vm_compute. lia.
  - split; [exact Hd|]. rewrite Ho, !length_fmap. by rewrite <- (Forall2_length _ _ _ F).
Defined.

(** A CONNECT, what validation makes of it, the peers' answers to it (an early
    hint, then the upstream proxy accepts) and what becomes of that answer. *)
Definition demo_connect (host : string) : request := demo_request "CONNECT" host ∅.
Definition demo_validated (q : request) : request :=
  match validateRequest demo_config q with VProceed r1 => r1 | _ => q end.
Definition demo_accepted : response :=
  match post_of demo_config ProxyForm (inr (demo_response 200 ∅)) with inr r' => r' | _ => demo_response 502 ∅ end.
Definition demo_world (host : string) : obliging :=
  mk_obliging [demo_connect host] [demo_response 103 ∅; demo_response 200 ∅].

(** Through the upstream proxy, and to a host that is reached directly. *)
Lemma connect_served_witness :
  (exists v, outs (session_trace demo_config demo_addr 4 (demo_world "a.example:443")) = v_out v /\
     connected demo_config (demo_validated (demo_connect "a.example:443")) demo_accepted v 1) /\
  (exists v, outs (session_trace demo_config demo_addr 4 (demo_world "internal.corp:443")) = v_out v /\
     connected demo_config (demo_validated (demo_connect "internal.corp:443")) demo_accepted v 0).
Proof.
  assert (Hi : Forall (interim_ok demo_config ProxyForm) [demo_response 103 ∅])
    by (repeat apply Forall_cons_2; [evaluated|apply Forall_nil_2]).
  assert (Hc : 200 <= resp_code demo_accepted < 300) by (vm_compute; split; [discriminate|reflexivity]).
  split.
  - destruct (connect_served demo_config demo_addr (demo_connect "a.example:443")
      (demo_validated (demo_connect "a.example:443")) [demo_response 103 ∅] (demo_response 200 ∅) demo_accepted 4
      (demo_world "a.example:443")) as (_ & v & Ho & _ & HC);
      [discriminate|reflexivity|reflexivity|reflexivity|vm_compute; reflexivity|exact Hi|vm_compute; reflexivity|exact Hc|cbn; lia|].
    exists v. split; [exact Ho|exact HC].
  - destruct (connect_served demo_config demo_addr (demo_connect "internal.corp:443")
      (demo_validated (demo_connect "internal.corp:443")) [demo_response 103 ∅] (demo_response 200 ∅) demo_accepted 4
      (demo_world "internal.corp:443")) as (_ & v & Ho & _ & HC);
      [discriminate|reflexivity|reflexivity|reflexivity|vm_compute; reflexivity|exact Hi|vm_compute; reflexivity|exact Hc|cbn; lia|].
    exists v. split; [exact Ho|exact HC].
Defined.
