(* ===== verification/Routing.v ===== *)
(** * Routing: every request goes where the no-proxy rules say

    Host values that [sameHost] identifies are matched alike by the no-proxy
    rules; so the requests of a session that are written on one direct
    connection all belong there. *)

From S2P Require Import Prelude GoStrings GoNet GoHttp Errors Config Hosts NoProxy Headers.
From S2P Require Import Response Validate Effects Session SessionInv SessionLoop SessionHalt.
From S2P Require Import Script SessionThms.

(** ** The no-proxy rules respect [sameHost] *)

(** The host of a successful split is made of octets of the address. *)
Lemma split_host_port_forall P s h p :
  split_host_port s = Some (h, p) -> str_forall P s = true -> str_forall P h = true.
Proof.
  intros Hs HP. unfold split_host_port in Hs. destruct (last_index_byte s ":") as [i|] eqn:El; [|done].
  assert (Hcases : (exists n, h = str_take n s) \/ (exists n, h = str_drop 1 (str_take n s))).
  { destruct s as [|c s']; [done|].
    destruct (Ascii.eqb_spec c "[") as [->|Hc].
    - cbv beta iota in Hs. destruct (index_byte _ "]") as [e|]; [|done]. repeat case_match; simplify_eq. eauto.
    - left. exists i. revert Hs. byte_cases c; try done; repeat case_match; intros [= <- _]; done. }
  destruct Hcases as [[n ->]|[n ->]]; auto with spnego.
Qed.

Lemma bracketed_shape h :
  has_prefix h "[" && has_suffix h "]" = true -> no_brackets (stripIPv6Brackets h) = true ->
  h = "[" +:+ stripIPv6Brackets h +:+ "]".
Proof.
  intros Hb Hn. unfold stripIPv6Brackets in *. rewrite Hb in *. apply andb_true_iff in Hb as [Hp Hs].
  apply has_suffix_spec in Hs as [t ->]. rewrite str_length_app in *. cbn [String.length] in *.
  rewrite Nat.add_sub, str_take_app in *. apply has_prefix_spec in Hp as [u Hu].
  destruct t as [|c t].
  - cbn in Hu. discriminate Hu.
  - rewrite str_app_cons in *. change ("[" +:+ u) with (String "[" u) in Hu. injection Hu as -> _.
    change (str_drop 1 (String "[" t)) with t. done.
Qed.

Section Hosts.
Context `{UnicodeTables}.

(** The forms of a Host value: ASCII without surrounding space, and either
    host:port, without brackets, or one pair of brackets around the rest. *)
Definition host_form (h : string) : bool :=
  str_forall is_ascii_byte h && String.eqb (trim_space h) h &&
  (bool_decide (is_Some (split_host_port h)) || no_brackets h ||
   (has_prefix h "[" && has_suffix h "]" && no_brackets (stripIPv6Brackets h))).

Lemma to_lower_lower s : str_forall is_ascii_byte s = true -> to_lower s = lower s.
Proof. apply to_lower_ascii. Qed.

Lemma lower_lower s : lower (lower s) = lower s.
Proof.
  unfold lower. induction s as [|c s IH]; [done|]. cbn. rewrite IH. f_equal.
  unfold ascii_lower at 1. destruct (is_upper (ascii_lower c)) eqn:E; [|done].
  unfold ascii_lower in E. destruct (is_upper c) eqn:Ec; [|congruence].
  unfold is_upper, in_range in *. bool_prop. rewrite bval_byte_of_Z in * by lia. lia.
Qed.

Lemma no_brackets_lower h : no_brackets (lower h) = no_brackets h.
Proof. unfold no_brackets. by rewrite !no_byte_lower by (apply sep_open || apply sep_close). Qed.

Lemma strip_bracketed h : stripIPv6Brackets ("[" +:+ h +:+ "]") = h.
Proof.
  unfold stripIPv6Brackets.
  assert (has_suffix ("[" +:+ h +:+ "]") "]" = true) as ->.
  { apply has_suffix_spec. exists ("[" +:+ h). by rewrite <- str_app_assoc. }
  rewrite has_prefix_app. cbn [andb].
  replace (String.length ("[" +:+ h +:+ "]") - 1)%nat with (String.length ("[" +:+ h))
    by (rewrite !str_length_app; cbn; lia).
  rewrite str_app_assoc, str_take_app. change ("[" +:+ h) with (String "[" h). cbn. by destruct h.
Qed.

(** The canonical form joins the host the rules are matched against with a port. *)
Lemma canon_host_match h dp :
  host_form h = true -> plain_port dp = true ->
  exists p, canon_host dp h = join_host_port (match_host h) p /\
    no_brackets (match_host h) = true /\ plain_port p = true /\ lower (match_host h) = match_host h /\
    str_forall is_ascii_byte (match_host h) = true.
Proof.
  unfold host_form. intros [[Ha Ht%String.eqb_eq]%andb_true_iff Hf]%andb_true_iff Hp.
  assert (Hlow : forall x, str_forall is_ascii_byte x = true ->
    str_forall is_ascii_byte (lower x) = true).
  { intros x Hx. unfold lower. rewrite str_forall_map. eapply str_forall_impl; [|exact Hx].
    intros c. by byte_cases c. }
  unfold canon_host, match_host. rewrite Ht, to_lower_lower, split_host_port_lower by done.
  destruct (split_host_port h) as [[a b]|] eqn:E; cbn [fmap option_fmap option_map fst snd].
  - pose proof (split_host_port_forall _ _ _ _ E Ha) as Haa. rewrite to_lower_lower by done.
    apply split_host_port_plain in E as [Hb1 Hb2]. exists (lower b). rewrite no_brackets_lower, lower_lower.
    split_and!; try done; [|by apply Hlow].
    unfold plain_port in *. by rewrite !no_byte_lower by (apply sep_open || apply sep_close || apply sep_colon).
  - exists dp. rewrite bool_decide_eq_false_2, orb_false_l in Hf by (by intros [? ?]).
    apply orb_true_iff in Hf as [Hn|[Hb Hn]%andb_true_iff].
    + rewrite !strip_no_brackets by (by rewrite ?no_brackets_lower). rewrite to_lower_lower by done.
      rewrite no_brackets_lower, lower_lower. split_and!; try done. by apply Hlow.
    + pose proof (bracketed_shape h Hb Hn) as Hs. set (x := stripIPv6Brackets h) in *.
      assert (Hx : str_forall is_ascii_byte x = true).
      { rewrite Hs, !str_forall_app in Ha. bool_prop. done. }
      assert (Hl : lower h = "[" +:+ lower x +:+ "]") by (rewrite Hs at 1; unfold lower; by rewrite !str_map_app).
      rewrite Hl, strip_bracketed, to_lower_lower, no_brackets_lower, lower_lower by done.
      split_and!; try done. by apply Hlow.
Qed.

Lemma match_canon_host h dp :
  host_form h = true -> plain_port dp = true -> match_host (canon_host dp h) = match_host h.
Proof.
  intros Hf Hp. destruct (canon_host_match h dp Hf Hp) as (p & -> & Hn & Hpp & Hl & Ha).
  by rewrite match_host_port, to_lower_lower.
Qed.

(** the no-proxy decision does not depend on how a host is written.
    Host values that [sameHost] identifies (letter case, an explicit default
    port, brackets around an IPv6 literal) are matched by the same rule or by
    none, so a request that stays on the direct connection of another one
    would have been routed to a direct connection by itself. *)
Theorem noproxy_same_host m a b dp :
  host_form a = true -> host_form b = true -> plain_port dp = true ->
  sameHost a b dp = true -> Match m a = Match m b.
Proof.
  intros Ha Hb Hp Hs. apply String.eqb_eq in Hs. unfold Match.
  by rewrite <- (match_canon_host a dp), <- (match_canon_host b dp), Hs.
Qed.

Lemma noproxy_canon cfg h : host_form h = true -> noproxy_match cfg (canon_host "80" h) = noproxy_match cfg h.
Proof.
  intros Hf. unfold noproxy_match. destruct (NoProxy cfg) as [m|]; [|done]. unfold Match.
  by rewrite match_canon_host.
Qed.
End Hosts.

(** ** The requests a session writes *)

Section Sessions.
Context `{UnicodeTables} {W : Type} `{Env W}.
Variable cfg : Config.
Variable clientAddr : string.

Abbreviation trace := (session_trace (W := W) cfg clientAddr).

Lemma history_sub fuel w i e : e ∈ history cfg clientAddr fuel w i -> e ∈ trace fuel w.
Proof. intros He. by eapply subseteq_take. Qed.

(** The host of a request sent upstream is not covered by the rules. *)
Lemma upstream_not_matched fuel w i c req :
  trace fuel w !! i = Some (EvSend c ProxyForm req) ->
  EvDial c DialUpstream None ∈ trace fuel w /\ noproxy_match cfg (req_host req) = false.
Proof.
  intros Hi%session_allowed. destruct Hi as (_ & _ & Hd & r0 & r1 & rnd & _ & _ & Hm & Hreq).
  split; [by eapply history_sub|].
  pose proof (carries_forwarding r1 clientAddr (Forwarding cfg) rnd) as (_ & Hh & _).
  destruct Hreq as [[_ ->]|(_ & token & _ & ->)]; cbn [inject_via with_token with_header req_host];
    by rewrite Hh.
Qed.

(** C4 (routing_policy): each request goes where the no-proxy rules say.  A request is written to
    the upstream proxy only if no rule matches its host.  It is written in
    origin form only on a connection dialled directly for a host that a rule
    matches and that its own Host names, as [sameHost] compares them.  When both
    Host values are ASCII without surrounding space and can be dialled, this is
    the endpoint the request itself would have been dialled at.  And when both
    are ASCII without surrounding space and each is a host:port, or has no
    bracket, or has one pair of brackets around the rest ([host_form]), a rule
    matches its own host too; without that it need not (a Host that ends in a
    Unicode space, which [sameHost] trims and [Match] does not). *)
Theorem routing_policy fuel w i c f req :
  trace fuel w !! i = Some (EvSend c f req) ->
  match f with
  | ProxyForm => EvDial c DialUpstream None ∈ trace fuel w /\ noproxy_match cfg (req_host req) = false
  | OriginForm =>
      exists b t, EvDial c (DialDirect b t) None ∈ trace fuel w /\ noproxy_match cfg b = true /\
        sameHost (req_host req) b "80" = true /\
        (ascii_trimmed (req_host req) -> ascii_trimmed b -> dialable (req_host req) -> dialable b ->
         endpoint (req_host req) "80" = endpoint b "80") /\
        (host_form (req_host req) = true -> host_form b = true -> noproxy_match cfg (req_host req) = true)
  end.
Proof.
  intros Hi. destruct f; [by apply (upstream_not_matched _ _ _ _ _ Hi)|].
  apply session_allowed in Hi. destruct Hi as (_ & _ & _ & b & Hd%history_sub & Hs & Hm).
  exists b, (dial_target b "80"). split_and!; [done..| |].
  - intros ????. by apply sameHost_iff_endpoint.
  - intros Hr Hb. rewrite <- noproxy_canon by done. apply String.eqb_eq in Hs. rewrite Hs. by rewrite noproxy_canon.
Qed.
End Sessions.

(** ** Witnesses *)

Lemma noproxy_same_host_witness :
  (Match (NewNoProxyMatcher ".corp, 2001:db8::/32") "Wiki.CORP:80").1 =
  (Match (NewNoProxyMatcher ".corp, 2001:db8::/32") "wiki.corp").1 /\
  Match (NewNoProxyMatcher ".corp, 2001:db8::/32") "[2001:DB8::1]:80" =
  Match (NewNoProxyMatcher ".corp, 2001:db8::/32") "[2001:db8::1]".
Proof.
  split; [f_equal|]; apply (noproxy_same_host _ _ _ "80"); vm_compute; reflexivity.
Defined.

(** The fourth request of the concrete session, in another spelling than the
    third, whose direct connection it uses. *)
Lemma routing_policy_witness :
  exists c req b,
    session_trace demo_config demo_addr 20 demo_script !! 54%nat = Some (EvSend c OriginForm req) /\
    host_form (req_host req) = true /\ noproxy_match demo_config b = true /\
    (host_form b = true -> noproxy_match demo_config (req_host req) = true).
Proof.
  assert (E : exists c req, session_trace demo_config demo_addr 20 demo_script !! 54%nat = Some (EvSend c OriginForm req) /\
    host_form (req_host req) = true) by (eexists _, _; split; vm_compute; reflexivity).
  destruct E as (c & req & E & Hr).
  destruct (routing_policy demo_config demo_addr 20 demo_script 54 c OriginForm req E) as (b & t & _ & Hm & _ & _ & Hf).
  exists c, req, b. split; [exact E|]. split; [exact Hr|]. split; [exact Hm|]. exact (Hf Hr).
Defined.
