(* ===== verification/Breaker.v ===== *)
(** * The circuit breaker around the token provider: [circuit_breaker.go]

    [gobreaker] is a library: its state type and its two halves of [Execute]
    (deciding on a request, recording its result) are the parameter [Breaker],
    with its documented behaviour as [BreakerLaws].  The wrapped provider is
    any [TokenProvider].  [GetToken] is written out on top of both, first for
    one caller, then for concurrent callers that serialise on [mu]. *)

From S2P Require Import Prelude GoStrings Errors.

(** [TokenProvider]: the wrapped provider as a state machine. *)
Class TokenProvider (I : Type) := {
  inner_get : I -> (error + string) * I;
  inner_close : I -> option error * I
}.

(** [gobreaker.Settings], the fields that are set here; the state-change
    callback only logs. *)
Record Settings := mk_Settings {
  Name : string;
  MaxRequests : Z;
  Timeout : Z;
  ReadyToTrip : Z -> bool        (* of counts.ConsecutiveFailures *)
}.

(** [gobreaker.CircuitBreaker] as a state machine; [brk_new] is
    [NewCircuitBreaker], the other two are the halves of [Execute].  [brk_admit] is [Some e] when the request is rejected with [e]; times are
    nanoseconds of a monotonic clock. *)
Class Breaker (B : Type) := {
  brk_new : Settings -> B;
  brk_admit : B -> Z -> option error * B;
  brk_report : B -> Z -> bool -> B
}.

Definition CBConsecutiveFailures : Z := 3.
Definition CBTimeout : Z := 30 * 1000000000.

Definition ErrOpenState : error := Err KBreakerOpen "circuit breaker is open" None.
Definition ErrTooManyRequests : error := Err KBreakerTooMany "too many requests" None.

(** The states of the breaker: consecutive failures while closed, the end of
    the open period, and the single probe of the half-open state. *)
Inductive brk_view :=
| BClosed (failures : Z)
| BOpen (expiry : Z)
| BHalfOpen (probing : bool).

(** What the documentation of [gobreaker] promises, for the settings of
    [NewCircuitBreakerTokenProvider]: one probe at a time and no Interval. *)
Class BreakerLaws (B : Type) `{Breaker B} (timeout : Z) (ready_to_trip : Z -> bool)
    (view : B -> brk_view) : Prop := {
  law_new : forall name, view (brk_new (mk_Settings name 1 timeout ready_to_trip)) = BClosed 0;
  law_admit_closed : forall b now n, view b = BClosed n ->
    (brk_admit b now).1 = None /\ view (brk_admit b now).2 = BClosed n;
  law_admit_open : forall b now t, view b = BOpen t -> now < t ->
    (brk_admit b now).1 = Some ErrOpenState /\ view (brk_admit b now).2 = BOpen t;
  law_admit_expired : forall b now t, view b = BOpen t -> t <= now ->
    ((brk_admit b now).1 = None /\ view (brk_admit b now).2 = BHalfOpen true) \/
    (now = t /\ (brk_admit b now).1 = Some ErrOpenState /\ view (brk_admit b now).2 = BOpen t);
  law_admit_probing : forall b now, view b = BHalfOpen true ->
    (brk_admit b now).1 = Some ErrTooManyRequests /\ view (brk_admit b now).2 = BHalfOpen true;
  law_report_closed : forall b now n ok, view b = BClosed n ->
    view (brk_report b now ok) =
      if (ok : bool) then BClosed 0
      else if ready_to_trip (n + 1) then BOpen (now + timeout) else BClosed (n + 1);
  law_report_probe : forall b now ok, view b = BHalfOpen true ->
    view (brk_report b now ok) = if (ok : bool) then BClosed 0 else BOpen (now + timeout)
}.

(** ** The provider *)

Section Provider.
Context {I B : Type} `{TokenProvider I} `{Breaker B}.

Record CircuitBreakerTokenProvider := mk_CBTP {
  inner : I;
  cb : B;
  threshold : Z
}.

Definition NewCircuitBreakerTokenProvider (i : I) (thr timeout : Z) : CircuitBreakerTokenProvider :=
  let settings := mk_Settings "spnego-token" 1 timeout (fun failures => thr <=? failures) in
  mk_CBTP i (brk_new settings) thr.

(** The constructor with explicit settings. *)
Definition newCircuitBreakerTokenProvider (i : I) (settings : Settings) (thr : Z) : CircuitBreakerTokenProvider :=
  mk_CBTP i (brk_new settings) thr.

(** [*CircuitBreakerError] *)
Definition circuit_breaker_error (msg : string) (err : error) : error := Err KCircuitBreaker msg (Some err).

(** The error mapping at the end of [GetToken]. *)
Definition breaker_error (p : CircuitBreakerTokenProvider) (err : error) : error :=
  if errors_is err KBreakerOpen then
    circuit_breaker_error
      ("circuit breaker open: token acquisition disabled after " +:+ itoa (threshold p) +:+
       " consecutive failures") err
  else if errors_is err KBreakerTooMany then
    circuit_breaker_error
      "circuit breaker half-open: probe in progress, rejecting concurrent request" err
  else err.

Definition succeeded (r : error + string) : bool := match r with inl _ => false | inr _ => true end.

(** [GetToken] entered at [t1], with the inner call, if any, done at [t2].
    The boolean says whether the inner provider was called. *)
Definition GetToken (p : CircuitBreakerTokenProvider) (t1 t2 : Z)
    : (bool * (error + string)) * CircuitBreakerTokenProvider :=
  match brk_admit (cb p) t1 with
  | (Some e, b) => ((false, inl (breaker_error p e)), mk_CBTP (inner p) b (threshold p))
  | (None, b) =>
      let '(r, i) := inner_get (inner p) in
      let b := brk_report b t2 (succeeded r) in
      ((true, match r with inl e => inl (breaker_error p e) | inr token => inr token end),
       mk_CBTP i b (threshold p))
  end.

(** [Close] delegates, without [mu]. *)
Definition Close (p : CircuitBreakerTokenProvider) : option error * CircuitBreakerTokenProvider :=
  let '(e, i) := inner_close (inner p) in (e, mk_CBTP i (cb p) (threshold p)).

(** A sequence of calls. *)
Fixpoint GetTokens (p : CircuitBreakerTokenProvider) (ts : list (Z * Z))
    : list (bool * (error + string)) * CircuitBreakerTokenProvider :=
  match ts with
  | [] => ([], p)
  | (t1, t2) :: ts =>
      let '(r, p) := GetToken p t1 t2 in
      let '(rs, p) := GetTokens p ts in
      (r :: rs, p)
  end.

(** ** One call *)

Variables (timeout : Z) (view : B -> brk_view).

(** Between calls no probe is in flight, and a closed breaker is below its
    threshold. *)
Definition settled (p : CircuitBreakerTokenProvider) : Prop :=
  match view (cb p) with
  | BClosed n => 0 <= n < threshold p
  | BOpen _ => True
  | BHalfOpen _ => False
  end.

Definition inner_fails (r : bool * (error + string)) : bool := r.1 && negb (succeeded r.2).
Definition inner_succeeds (r : bool * (error + string)) : bool := r.1 && succeeded r.2.

Context (thr : Z) (thr_pos : 0 < thr) (timeout_pos : 0 < timeout)
  `{!BreakerLaws B timeout (fun failures => thr <=? failures) view}.

Lemma New_settled i : settled (NewCircuitBreakerTokenProvider i thr timeout).
Proof using All. unfold settled. cbn. rewrite law_new. lia. Qed.

(** What one call does, by the state of the breaker. *)
Lemma GetToken_cases p t1 t2 r p' :
  threshold p = thr -> settled p -> GetToken p t1 t2 = (r, p') ->
  threshold p' = thr /\ settled p' /\
  ((r.1 = false /\ exists t, view (cb p) = BOpen t /\ t1 <= t /\ view (cb p') = BOpen t /\
      inner p' = inner p /\ r.2 = inl (breaker_error p ErrOpenState)) \/
   (r.1 = true /\ (forall t, view (cb p) = BOpen t -> t <= t1) /\
      exists x, inner_get (inner p) = (x, inner p') /\
        r.2 = match x with inl e => inl (breaker_error p e) | inr token => inr token end /\
        view (cb p') =
          if succeeded x then BClosed 0
          else match view (cb p) with
               | BClosed n => if thr <=? n + 1 then BOpen (t2 + timeout) else BClosed (n + 1)
               | _ => BOpen (t2 + timeout)
               end)).
Proof.
  intros Hthr Hs. unfold GetToken. destruct (brk_admit (cb p) t1) as [rej b] eqn:Ea.
  unfold settled in Hs. destruct (view (cb p)) as [n|t|] eqn:Ev; [| |done].
  - destruct (law_admit_closed _ t1 _ Ev) as [Ha Hb]. rewrite Ea in Ha, Hb. cbn in Ha, Hb. subst rej.
    destruct (inner_get (inner p)) as [x i] eqn:Ei. intros [= <- <-]. cbn.
    pose proof (law_report_closed b t2 n (succeeded x) Hb) as Hr.
    split_and!; [done| |].
    + unfold settled. cbn. rewrite Hr, Hthr. destruct (succeeded x); [lia|].
      destruct (Z.leb_spec thr (n + 1)); [done|lia].
    + right. split_and!; [done..|]. exists x. split_and!; [done..|]. by rewrite Hr.
  - destruct (Z.lt_ge_cases t1 t) as [Hlt|Hge].
    + destruct (law_admit_open _ t1 _ Ev Hlt) as [Ha Hb]. rewrite Ea in Ha, Hb. cbn in Ha, Hb. subst rej.
      intros [= <- <-]. cbn. split_and!; [done|unfold settled; cbn; by rewrite Hb|].
      left. split; [done|]. exists t. split_and!; [done|lia|done..].
    + destruct (law_admit_expired _ t1 _ Ev Hge) as [[Ha Hb]|(-> & Ha & Hb)];
        rewrite Ea in Ha, Hb; cbn in Ha, Hb; subst rej.
      * destruct (inner_get (inner p)) as [x i] eqn:Ei. intros [= <- <-]. cbn.
        pose proof (law_report_probe b t2 (succeeded x) Hb) as Hr.
        split_and!; [done| |].
        -- unfold settled. cbn. rewrite Hr, Hthr. destruct (succeeded x); [lia|done].
        -- right. split_and!; [done|intros ? [= <-]; lia|]. exists x. split_and!; [done..|]. by rewrite Hr.
      * intros [= <- <-]. cbn. split_and!; [done|unfold settled; cbn; by rewrite Hb|].
        left. split; [done|]. exists t. split_and!; [done|lia|done..].
Qed.

(** ** Bounded failures *)

(** How many more failing logins the breaker lets through in the period from
    [T] to [until]: the rest of the threshold, then one probe per cool-down. *)
Definition potential (T until : Z) (v : brk_view) : Z :=
  match v with
  | BClosed n => thr - n + (until - T) / timeout
  | BOpen t => if until <? t then 0 else 1 + (until - Z.max t T) / timeout
  | BHalfOpen _ => 0
  end.

(** Calls in the period of length [D] from [T]. *)
Definition in_period (T D : Z) (tt : Z * Z) : Prop := T <= tt.1 <= tt.2 /\ tt.2 <= T + D.

Definition failures (rs : list (bool * (error + string))) : Z :=
  Z.of_nat (length (List.filter inner_fails rs)).

Lemma breaker_error_fails p x :
  succeeded (match x with inl e => inl (breaker_error p e) | inr token => inr token end) = succeeded x.
Proof using Type. by destruct x. Qed.

(** A failed login uses up one unit, whatever it does to the breaker. *)
Lemma potential_fails T until t1 t2 p :
  threshold p = thr -> settled p -> (forall t, view (cb p) = BOpen t -> t <= t1) ->
  T <= t1 <= t2 -> t2 <= until ->
  potential T until
    (match view (cb p) with
     | BClosed n => if thr <=? n + 1 then BOpen (t2 + timeout) else BClosed (n + 1)
     | _ => BOpen (t2 + timeout)
     end) + 1 <= potential T until (view (cb p)).
Proof using thr_pos timeout_pos.
  intros Hthr Hs Hexp Ht Hu. unfold settled in Hs. rewrite Hthr in Hs.
  assert (Hopen : forall t, T <= t <= t2 -> potential T until (BOpen (t2 + timeout)) <= (until - t) / timeout).
  { intros t Hle. cbn. destruct (Z.ltb_spec until (t2 + timeout)); [apply Z.div_pos; lia|].
    rewrite Z.max_l by lia. replace (until - (t2 + timeout)) with (until - t2 + (-1) * timeout) by lia.
    rewrite Z.div_add by lia. pose proof (Z.div_le_mono (until - t2) (until - t) timeout). lia. }
  destruct (view (cb p)) as [n|t|] eqn:Ev; [| |done].
  - destruct (Z.leb_spec thr (n + 1)); [specialize (Hopen T); cbn [potential] in *; lia|cbn; lia].
  - specialize (Hexp t eq_refl). specialize (Hopen (Z.max t T)). cbn [potential] in *.
    destruct (Z.ltb_spec until t); lia.
Qed.

Lemma potential_pos T until p : threshold p = thr -> settled p -> T <= until -> 0 <= potential T until (view (cb p)).
Proof using thr_pos timeout_pos.
  intros Hthr Hs Hu. unfold settled, potential in *. rewrite Hthr in Hs.
  pose proof (Z.div_pos (until - T) timeout). destruct (view (cb p)) as [n|t|]; [lia| |done].
  destruct (Z.ltb_spec until t); [lia|]. pose proof (Z.div_pos (until - Z.max t T) timeout). lia.
Qed.

Lemma GetTokens_potential T D ts p rs p' :
  0 <= D -> threshold p = thr -> settled p -> Forall (in_period T D) ts ->
  GetTokens p ts = (rs, p') -> Forall (fun r => inner_succeeds r = false) rs ->
  failures rs <= potential T (T + D) (view (cb p)).
Proof using All.
  intros HD. revert p rs. induction ts as [|[t1 t2] ts IH]; intros p rs Hthr Hs Hw E Hns; cbn in E.
  { injection E as <- <-. apply potential_pos; [done..|lia]. }
  destruct (GetToken p t1 t2) as [r p1] eqn:E1. destruct (GetTokens p1 ts) as [rs1 p2] eqn:E2.
  injection E as <- <-. apply Forall_cons in Hw as [[Hw1 Hw2] Hw]. apply Forall_cons in Hns as [Hr Hns].
  destruct (GetToken_cases _ _ _ _ _ Hthr Hs E1) as (Hthr1 & Hs1 & Hc). cbn in Hw1, Hw2.
  specialize (IH p1 rs1 Hthr1 Hs1 Hw E2 Hns). unfold failures in *. cbn [List.filter].
  destruct Hc as [(Hr1 & t & Hv & _ & Hv' & _)|(Hr1 & Hexp & x & _ & Hx & Hv')].
  - assert (Hf : inner_fails r = false) by (unfold inner_fails; by rewrite Hr1).
    rewrite Hf, Hv, <- Hv'. exact IH.
  - unfold inner_succeeds in Hr. rewrite Hr1, Hx, breaker_error_fails in Hr. cbn in Hr.
    assert (Hf : inner_fails r = true) by (unfold inner_fails; by rewrite Hr1, Hx, breaker_error_fails, Hr).
    rewrite Hf, Hr in *. cbn [length]. rewrite Nat2Z.inj_succ.
    pose proof (potential_fails T (T + D) t1 t2 p Hthr Hs Hexp Hw1 Hw2) as Hp. rewrite <- Hv' in Hp. lia.
Qed.

Lemma GetTokens_settled ts p rs p' :
  threshold p = thr -> settled p -> GetTokens p ts = (rs, p') -> threshold p' = thr /\ settled p'.
Proof using All.
  revert p rs. induction ts as [|[t1 t2] ts IH]; intros p rs Hthr Hs E; cbn in E; [by simplify_eq|].
  destruct (GetToken p t1 t2) as [r p1] eqn:E1. destruct (GetTokens p1 ts) as [rs1 p2] eqn:E2.
  injection E as <- <-. destruct (GetToken_cases _ _ _ _ _ Hthr Hs E1) as (Hthr1 & Hs1 & _).
  by eapply IH.
Qed.

Lemma potential_thr T D p :
  0 <= D -> threshold p = thr -> settled p -> potential T (T + D) (view (cb p)) <= thr + D / timeout.
Proof using thr_pos timeout_pos.
  intros HD Hthr Hs. unfold settled, potential in *. rewrite Hthr in Hs.
  replace (T + D - T) with D by lia. pose proof (Z.div_pos D timeout).
  destruct (view (cb p)) as [n|t|]; [lia| |done]. case_match; [lia|].
  pose proof (Z.div_le_mono (T + D - Z.max t T) D timeout). lia.
Qed.

(** The bound of [GetTokens_potential], from any state of a provider. *)
Lemma failures_bounded i ts0 rs0 p T D ts rs p' :
  0 <= D -> GetTokens (NewCircuitBreakerTokenProvider i thr timeout) ts0 = (rs0, p) ->
  Forall (in_period T D) ts -> GetTokens p ts = (rs, p') ->
  Forall (fun r => inner_succeeds r = false) rs -> failures rs <= thr + D / timeout.
Proof using All.
  intros HD E0 Hw E Hns. destruct (GetTokens_settled ts0 (NewCircuitBreakerTokenProvider i thr timeout) rs0 p) as [Hthr Hs];
    [done|apply New_settled|done|].
  etransitivity; [by eapply GetTokens_potential|by apply potential_thr].
Qed.

Lemma GetTokens_length ts p : length (GetTokens p ts).1 = length ts.
Proof using Type.
  revert p. induction ts as [|[t1 t2] ts IH]; intros p; cbn [GetTokens]; [done|].
  destruct (GetToken p t1 t2) as [r p1]. specialize (IH p1). destruct (GetTokens p1 ts). cbn in *. by rewrite IH.
Qed.

Lemma GetTokens_app ts ts' p rs q rs' q' :
  GetTokens p ts = (rs, q) -> GetTokens q ts' = (rs', q') -> GetTokens p (ts ++ ts') = (rs ++ rs', q').
Proof using Type.
  revert p rs. induction ts as [|[t1 t2] ts IH]; intros p rs; cbn [GetTokens app].
  - by intros [= <- <-].
  - destruct (GetToken p t1 t2) as [r p1]. destruct (GetTokens p1 ts) as [rs1 p2] eqn:E.
    intros [= <- <-] E'. by rewrite (IH p1 rs1 E E').
Qed.

Lemma GetTokens_snoc ts t1 t2 p rs p' :
  GetTokens p ts = (rs, p') ->
  GetTokens p (ts ++ [(t1, t2)]) = (rs ++ [(GetToken p' t1 t2).1], (GetToken p' t1 t2).2).
Proof using Type.
  intros E. eapply GetTokens_app; [exact E|]. cbn [GetTokens]. by destruct (GetToken p' t1 t2).
Qed.

(** ** Concurrent callers *)

(** Where a caller is in [GetToken]. *)
Inductive pc :=
| PIdle
| PEntered                (* holds mu, before Execute decides *)
| PCalling (t1 : Z)       (* in inner.GetToken, admitted at t1 *)
| PLeaving.               (* before the deferred Unlock *)

(** The shared state: [c_calls] and [c_results] log the finished calls. *)
Record cstate := mk_cstate {
  c_prov : CircuitBreakerTokenProvider;
  c_lock : option nat;
  c_pc : nat -> pc;
  c_now : Z;
  c_calls : list (Z * Z);
  c_results : list (bool * (error + string))
}.

Inductive cstep : cstate -> cstate -> Prop :=
| step_tick s d : 0 <= d ->
    cstep s (mk_cstate (c_prov s) (c_lock s) (c_pc s) (c_now s + d) (c_calls s) (c_results s))
| step_lock s k : c_lock s = None -> c_pc s k = PIdle ->
    cstep s (mk_cstate (c_prov s) (Some k) (except (c_pc s) k PEntered) (c_now s)
               (c_calls s) (c_results s))
| step_reject s k e b : c_pc s k = PEntered -> brk_admit (cb (c_prov s)) (c_now s) = (Some e, b) ->
    cstep s (mk_cstate (mk_CBTP (inner (c_prov s)) b (threshold (c_prov s))) (c_lock s)
               (except (c_pc s) k PLeaving) (c_now s)
               (c_calls s ++ [(c_now s, c_now s)])
               (c_results s ++ [(false, inl (breaker_error (c_prov s) e))]))
| step_admit s k b : c_pc s k = PEntered -> brk_admit (cb (c_prov s)) (c_now s) = (None, b) ->
    cstep s (mk_cstate (mk_CBTP (inner (c_prov s)) b (threshold (c_prov s))) (c_lock s)
               (except (c_pc s) k (PCalling (c_now s))) (c_now s) (c_calls s) (c_results s))
| step_return s k t1 x i : c_pc s k = PCalling t1 -> inner_get (inner (c_prov s)) = (x, i) ->
    cstep s (mk_cstate
               (mk_CBTP i (brk_report (cb (c_prov s)) (c_now s) (succeeded x)) (threshold (c_prov s)))
               (c_lock s) (except (c_pc s) k PLeaving) (c_now s)
               (c_calls s ++ [(t1, c_now s)])
               (c_results s ++
                [(true, match x with inl e => inl (breaker_error (c_prov s) e) | inr tok => inr tok end)]))
| step_unlock s k : c_pc s k = PLeaving ->
    cstep s (mk_cstate (c_prov s) None (except (c_pc s) k PIdle) (c_now s) (c_calls s) (c_results s)).

Definition cinit (p : CircuitBreakerTokenProvider) (now : Z) : cstate :=
  mk_cstate p None (fun _ => PIdle) now [] [].

(** The calls of a concurrent run, in the order of their decisions, explain
    its state. *)
Definition serialised (p0 : CircuitBreakerTokenProvider) (T : Z) (s : cstate) : Prop :=
  T <= c_now s /\
  (forall k, c_pc s k <> PIdle -> c_lock s = Some k) /\
  Forall (fun c => T <= c.1 <= c.2 /\ c.2 <= c_now s) (c_calls s) /\
  exists q, GetTokens p0 (c_calls s) = (c_results s, q) /\
    ((forall k t1, c_pc s k <> PCalling t1) /\ c_prov s = q \/
     exists k t1 b, c_pc s k = PCalling t1 /\ T <= t1 <= c_now s /\
       brk_admit (cb q) t1 = (None, b) /\ c_prov s = mk_CBTP (inner q) b (threshold q)).

(** Only the caller that holds [mu] is inside [GetToken]. *)
Lemma lock_after s k x j :
  (forall i, c_pc s i <> PIdle -> c_lock s = Some i) -> c_pc s k <> PIdle ->
  except (c_pc s) k x j <> PIdle -> c_lock s = Some j.
Proof using Type.
  intros Hl Hk Hj. destruct (decide (j = k)) as [->|Hne]; [by apply Hl|].
  rewrite except_ne in Hj by done. by apply Hl.
Qed.

Lemma holder_unique s j k :
  (forall i, c_pc s i <> PIdle -> c_lock s = Some i) -> c_pc s j <> PIdle -> c_pc s k <> PIdle -> j = k.
Proof using Type. intros Hl Hj%Hl Hk%Hl. congruence. Qed.

(** The state before a decision is the one the finished calls lead to. *)
Lemma not_calling p0 T s k q :
  serialised p0 T s -> c_pc s k <> PIdle -> (forall t1, c_pc s k <> PCalling t1) ->
  GetTokens p0 (c_calls s) = (c_results s, q) -> c_prov s = q.
Proof using Type.
  intros (_ & Hl & _ & q' & Hq' & Hst) Hk Hnc Hq. assert (q' = q) as -> by congruence.
  destruct Hst as [[_ ?]|(j & t1 & b & Hj & _)]; [done|].
  assert (j = k) as -> by (eapply holder_unique; [exact Hl|by rewrite Hj|done]). by apply Hnc in Hj.
Qed.

(** No other caller is in the inner provider. *)
Lemma none_calling s k x j t1 :
  (forall i, c_pc s i <> PIdle -> c_lock s = Some i) -> c_pc s k <> PIdle ->
  (forall t, x <> PCalling t) -> except (c_pc s) k x j <> PCalling t1.
Proof using Type.
  intros Hl Hk Hx Hj. destruct (decide (j = k)) as [->|Hne]; [rewrite except_eq in Hj; by apply Hx in Hj|].
  rewrite except_ne in Hj by done. apply Hne. eapply holder_unique; [exact Hl|by rewrite Hj|done].
Qed.

Lemma calls_later T (now d : Z) (calls : list (Z * Z)) :
  0 <= d -> Forall (fun c => T <= c.1 <= c.2 /\ c.2 <= now) calls ->
  Forall (fun c => T <= c.1 <= c.2 /\ c.2 <= now + d) calls.
Proof using Type. intros Hd Hc. eapply Forall_impl; [exact Hc|]. cbn. lia. Qed.

Lemma serialised_step p0 T s s' : serialised p0 T s -> cstep s s' -> serialised p0 T s'.
Proof using Type.
  intros Hs Hstep. pose proof Hs as (Hnow & Hl & Hc & q & Hq & Hst). destruct Hstep; cbn.
  - split_and!; cbn; [lia|done|by apply calls_later|]. exists q. split; [done|].
    destruct Hst as [?|(k & t1 & b & ? & ? & ? & ?)]; [by left|]. right. exists k, t1, b. cbn. split_and!; try done; lia.
  - split_and!; cbn; [done| |done|].
    + intros j Hj. destruct (decide (j = k)) as [->|Hne]; [done|]. rewrite except_ne in Hj by done.
      apply Hl in Hj. congruence.
    + exists q. split; [done|]. left. destruct Hst as [[Hn ->]|(j & t1 & b & Hj & _)].
      * split; [|done]. intros j t1 Hj. destruct (decide (j = k)) as [->|Hne]; [by rewrite except_eq in Hj|].
        rewrite except_ne in Hj by done. by apply Hn in Hj.
      * assert (c_lock s = Some j) by (apply Hl; by rewrite Hj). congruence.
  - assert (Hp : c_prov s = q) by (apply (not_calling p0 T s k q Hs); congruence).
    assert (Hk : c_pc s k <> PIdle) by congruence. split_and!; cbn; [done|intros j Hj; by eapply lock_after| |].
    + apply Forall_app. split; [done|]. apply Forall_singleton. cbn. lia.
    + rewrite Hp in *. eexists. rewrite (GetTokens_snoc _ _ _ _ _ _ Hq). unfold GetToken. rewrite H2.
      split; [done|]. left. split; [|done]. intros j t1. by apply none_calling.
  - assert (Hp : c_prov s = q) by (apply (not_calling p0 T s k q Hs); congruence).
    assert (Hk : c_pc s k <> PIdle) by congruence. split_and!; cbn; [done|intros j Hj; by eapply lock_after|done|].
    exists q. split; [done|]. right. rewrite Hp in *. exists k, (c_now s), b. cbn.
    split_and!; [apply except_eq|lia|lia|done|done].
  - assert (Hk : c_pc s k <> PIdle) by congruence.
    destruct Hst as [[Hn _]|(j & t & b & Hj & Ht & Ha & Hp)]; [by apply Hn in H1|].
    assert (j = k) as -> by (eapply holder_unique; [exact Hl|by rewrite Hj|done]).
    assert (t = t1) as -> by congruence. split_and!; cbn; [done|intros j Hjj; by eapply lock_after| |].
    + apply Forall_app. split; [done|]. apply Forall_singleton. cbn. lia.
    + rewrite Hp in *. cbn in *. eexists. rewrite (GetTokens_snoc _ _ _ _ _ _ Hq). unfold GetToken. rewrite Ha, H2.
      split; [done|]. left. split; [|done]. intros i0 t0. by apply none_calling.
  - assert (Hp : c_prov s = q) by (apply (not_calling p0 T s k q Hs); congruence).
    assert (Hk : c_pc s k <> PIdle) by congruence. split_and!; cbn; [done| |done|].
    + intros j Hj. exfalso. destruct (decide (j = k)) as [->|Hne]; [by rewrite except_eq in Hj|].
      rewrite except_ne in Hj by done. apply Hne. by eapply holder_unique.
    + exists q. split; [done|]. left. split; [|done]. intros j t1. by apply none_calling.
Qed.

Lemma serialised_reachable p0 T s :
  rtc cstep (cinit p0 T) s -> serialised p0 T s.
Proof using Type.
  assert (Hi : serialised p0 T (cinit p0 T)).
  { split_and!; cbn; [lia|done|done|]. exists p0. split; [done|]. by left. }
  intros Hr. revert Hi. induction Hr as [|x y z Hxy _ IH]; [done|]. intros Hx.
  by apply IH, (serialised_step p0 T x).
Qed.

(** ** Theorems *)

(** Lockout protection.  Whatever happened before, in any period of length [D]
    in which no login succeeds, the wrapped provider is called, and fails, at
    most [threshold] times, and once more per cool-down that fits in [D]. *)
Theorem lockout_bound i ts0 rs0 p T D ts rs p' :
  0 <= D -> GetTokens (NewCircuitBreakerTokenProvider i thr timeout) ts0 = (rs0, p) ->
  Forall (in_period T D) ts -> GetTokens p ts = (rs, p') ->
  Forall (fun r => inner_succeeds r = false) rs -> failures rs <= thr + D / timeout.
Proof using All. apply failures_bounded. Qed.

(** A burst of concurrent callers cannot exceed that rate either.  The callers
    serialise on [mu], so that in every interleaving the finished calls are
    those of a sequential run. *)
Theorem burst_bound i T s :
  rtc cstep (cinit (NewCircuitBreakerTokenProvider i thr timeout) T) s ->
  Forall (fun r => inner_succeeds r = false) (c_results s) ->
  (exists q, GetTokens (NewCircuitBreakerTokenProvider i thr timeout) (c_calls s) = (c_results s, q)) /\
  failures (c_results s) <= thr + (c_now s - T) / timeout.
Proof using All.
  intros (Hnow & _ & Hc & q & Hq & _)%serialised_reachable Hns. split; [by exists q|].
  apply (failures_bounded i [] [] _ T (c_now s - T) _ _ _ ltac:(lia) eq_refl) in Hq; [done| |done].
  eapply Forall_impl; [exact Hc|]. cbn. unfold in_period. lia.
Qed.

(** C39 (breaker_outcomes): the answers of [GetToken], after any sequence of calls.
    Before the cool-down of an open circuit is over the inner provider is not
    called, nothing changes and the error is one that clients see as "circuit
    breaker open"; after it, and while the circuit is closed, the inner
    provider is called once, its token is returned, and so is its error unless
    it is one of gobreaker's own.  A token closes the circuit and clears the
    count of failures, a failure at the threshold opens it, and a failed probe
    opens it again for the whole cool-down.  No call finds the circuit
    half-open, so the rejection for that state is never given.  (At the very
    end of the cool-down gobreaker's documentation leaves both answers open.) *)
Theorem breaker_outcomes i ts rs p t1 t2 r p' :
  GetTokens (NewCircuitBreakerTokenProvider i thr timeout) ts = (rs, p) ->
  GetToken p t1 t2 = (r, p') ->
  match view (cb p) with
  | BHalfOpen _ => False
  | BOpen t =>
      (t1 < t -> r.1 = false /\ inner p' = inner p /\ view (cb p') = BOpen t /\
         exists e, r.2 = inl e /\ tokenErrorToProxyError e = errCircuitBreakerOpen) /\
      (t < t1 -> r.1 = true /\ view (cb p') = if succeeded r.2 then BClosed 0 else BOpen (t2 + timeout))
  | BClosed n =>
      0 <= n < thr /\ r.1 = true /\
      view (cb p') = if succeeded r.2 then BClosed 0
                     else if thr <=? n + 1 then BOpen (t2 + timeout) else BClosed (n + 1)
  end /\
  (r.1 = true -> exists x, inner_get (inner p) = (x, inner p') /\
     (forall token, x = inr token -> r.2 = inr token) /\
     (forall e, x = inl e -> errors_is e KBreakerOpen = false -> errors_is e KBreakerTooMany = false ->
        r.2 = inl e)).
Proof using All.
  intros E0 E. destruct (GetTokens_settled ts (NewCircuitBreakerTokenProvider i thr timeout) rs p) as [Hthr Hs];
    [done|apply New_settled|done|].
  destruct (GetToken_cases _ _ _ _ _ Hthr Hs E) as (_ & _ & Hc). unfold settled in Hs.
  destruct Hc as [(Hr1 & t & -> & Ht & Hv' & Hi & Hr2)|(Hr1 & Hexp & x & Hx & Hr2 & Hv')].
  - split; [split|by rewrite Hr1].
    + intros _. split_and!; [done..|]. eexists. split; [exact Hr2|]. done.
    + intros Hlt. lia.
  - rewrite Hr2, breaker_error_fails. split.
    + destruct (view (cb p)) as [n|t|]; [by rewrite Hthr in Hs| |done].
      split; [specialize (Hexp t eq_refl); lia|done].
    + intros _. exists x. split_and!; [done|by intros token ->|].
      intros e -> H1 H2. unfold breaker_error. by rewrite H1, H2.
Qed.

End Provider.

(** Runs a concrete step and reduces the state it leads to. *)
Ltac run_caller t :=
  eapply rtc_l; [t|cbn [c_prov c_lock c_pc c_now c_calls c_results inner cb threshold fst snd succeeded]].

(** ** A concrete breaker and provider *)

(** The documented state machine itself, for fixed settings. *)
Definition plain_breaker (timeout : Z) (ready : Z -> bool) : Breaker brk_view := {|
  brk_new _ := BClosed 0;
  brk_admit b now :=
    match b with
    | BClosed _ => (None, b)
    | BOpen t => if t <=? now then (None, BHalfOpen true) else (Some ErrOpenState, b)
    | BHalfOpen false => (None, BHalfOpen true)
    | BHalfOpen true => (Some ErrTooManyRequests, b)
    end;
  brk_report b now ok :=
    match b with
    | BClosed n => if (ok : bool) then BClosed 0
                   else if ready (n + 1) then BOpen (now + timeout) else BClosed (n + 1)
    | BOpen t => BOpen t
    | BHalfOpen _ => if ok then BClosed 0 else BOpen (now + timeout)
    end
|}.

Lemma plain_breaker_laws timeout ready :
  @BreakerLaws brk_view (plain_breaker timeout ready) timeout ready id.
Proof.
  constructor; cbn; intros; simplify_eq; try done.
  - destruct (Z.leb_spec t now); [lia|done].
  - destruct (Z.leb_spec t now); [left|lia]. done.
Qed.

(** A provider that answers from a list and then refuses. *)
Definition list_provider : TokenProvider (list (error + string)) := {|
  inner_get l := match l with
                 | [] => (inl (Err KCredential "no credentials" None), [])
                 | x :: l => (x, l)
                 end;
  inner_close l := (None, [])
|}.

(** Five attempts in one cool-down with bad credentials: three logins. *)
Definition attempts : list (Z * Z) := [(0, 1); (2, 3); (4, 5); (6, 7); (8, 9)].

Lemma lockout_bound_witness :
  failures (@GetTokens _ _ list_provider (plain_breaker CBTimeout (fun n => 3 <=? n))
    (@NewCircuitBreakerTokenProvider _ _ (plain_breaker CBTimeout (fun n => 3 <=? n)) [] 3 CBTimeout)
    attempts).1 <= 3 + 9 / CBTimeout.
Proof.
  eapply (@lockout_bound _ _ list_provider (plain_breaker CBTimeout (fun n => 3 <=? n)) CBTimeout id 3
    ltac:(lia) ltac:(done) (plain_breaker_laws _ _) [] [] [] _ 0 9 attempts).
  - lia.
  - reflexivity.
  - unfold attempts, in_period, CBTimeout. repeat constructor; cbn; lia.
  - apply surjective_pairing.
  - vm_compute. repeat constructor.
Defined.

(** The same provider after three failures. *)
Definition tripped : @CircuitBreakerTokenProvider (list (error + string)) brk_view :=
  (@GetTokens _ _ list_provider (plain_breaker CBTimeout (fun n => 3 <=? n))
    (@NewCircuitBreakerTokenProvider _ _ (plain_breaker CBTimeout (fun n => 3 <=? n)) [] 3 CBTimeout)
    [(0, 1); (2, 3); (4, 5)]).2.

Lemma breaker_outcomes_witness :
  exists e, (@GetToken _ _ list_provider (plain_breaker CBTimeout (fun n => 3 <=? n)) tripped 6 7).1.2 = inl e /\
    tokenErrorToProxyError e = errCircuitBreakerOpen.
Proof.
  set (P := list_provider). set (K := plain_breaker CBTimeout (fun n => 3 <=? n)).
  assert (Ev : id (cb tripped) = BOpen 30000000005) by (vm_compute; reflexivity).
  pose proof (@breaker_outcomes _ _ P K CBTimeout id 3 ltac:(lia) ltac:(done) (plain_breaker_laws _ _) []
    [(0, 1); (2, 3); (4, 5)] _ tripped 6 7 _ _ (surjective_pairing _) (surjective_pairing _)) as [H _].
  rewrite Ev in H. destruct H as [H _]. destruct (H ltac:(lia)) as (_ & _ & _ & e & He).
  exists e. exact He.
Defined.

(** Two callers: the first is admitted while the second waits for [mu]. *)
Lemma burst_bound_witness :
  exists s : @cstate (list (error + string)) brk_view, c_results s <> [] /\
    failures (c_results s) <= 3 + (c_now s - 0) / CBTimeout.
Proof.
  set (P := list_provider). set (K := plain_breaker CBTimeout (fun n => 3 <=? n)).
  eexists. apply and_comm.
  eassert (R : rtc (@cstep _ _ P K) (cinit (@NewCircuitBreakerTokenProvider _ _ K [] 3 CBTimeout) 0) _).
  { run_caller ltac:(apply (step_lock _ 0%nat); reflexivity).
    run_caller ltac:(eapply (step_admit _ 0%nat); reflexivity).
    run_caller ltac:(apply (step_tick _ 5); lia).
    run_caller ltac:(eapply (step_return _ 0%nat); reflexivity).
    apply rtc_refl. }
  split.
  - apply (@burst_bound _ _ P K CBTimeout id 3 ltac:(lia) ltac:(done) (plain_breaker_laws _ _) [] 0 _ R).
    repeat constructor.
  - discriminate.
Defined.
