(* ===== verification/BreakerOpen.v ===== *)
(** * The breaker over a provider that others use as well

    The wrapped provider is not only called through the breaker: its warning
    goroutine and [Close] work on it too, without the breaker's mutex.  Such a
    run looks, to everything but the wrapped provider, like a run over a provider
    that answers from a list of the results to come, so that what holds of the
    breaker alone holds here as well. *)

From S2P Require Import Prelude GoStrings Errors Breaker.

Section Open.
Context {I B : Type} `{TokenProvider I} `{Breaker B}.
Variable outside : I -> I -> Prop.

#[local] Notation istate := (cstate (I := I) (B := B)).
#[local] Notation lstate := (cstate (I := list (error + string)) (B := B)).

Definition with_inner (s : istate) (i : I) : istate :=
  mk_cstate (mk_CBTP i (cb (c_prov s)) (threshold (c_prov s))) (c_lock s) (c_pc s) (c_now s) (c_calls s) (c_results s).

Inductive ostep : istate -> istate -> Prop :=
| o_caller s s' : cstep s s' -> ostep s s'
| o_outside s i : outside (inner (c_prov s)) i -> ostep s (with_inner s i).

(** ** The results to come *)

Definition forget (s : istate) (l : list (error + string)) : lstate :=
  mk_cstate (mk_CBTP l (cb (c_prov s)) (threshold (c_prov s))) (c_lock s) (c_pc s) (c_now s) (c_calls s) (c_results s).

#[local] Notation lstep := (@cstep _ _ list_provider _).

Lemma forget_step s s' l' : ostep s s' -> exists l, rtc lstep (forget s l) (forget s' l').
Proof.
  intros Ho. destruct Ho as [s s' Hs|s i _]; [|exists l'; apply rtc_refl].
  destruct Hs as [s d Hd|s k Hl Hk|s k e b Hk Ha|s k b Hk Ha|s k t1 x i Hk Hx|s k Hk].
  - exists l'. by apply rtc_once, (step_tick (forget s l')).
  - exists l'. by apply rtc_once, (step_lock (forget s l')).
  - exists l'. by apply rtc_once, (step_reject (forget s l')).
  - exists l'. by apply rtc_once, (step_admit (forget s l')).
  - exists (x :: l'). by apply rtc_once, (step_return (forget s (x :: l')) k t1 x l').
  - exists l'. by apply rtc_once, (step_unlock (forget s l')).
Qed.

Lemma forget_run s s' : rtc ostep s s' -> forall l', exists l, rtc lstep (forget s l) (forget s' l').
Proof.
  induction 1 as [s|s1 s2 s3 Hs _ IH]; intros l'; [exists l'; apply rtc_refl|].
  destruct (IH l') as [l Hl]. destruct (forget_step s1 s2 l Hs) as [l0 Hl0]. exists l0. by etransitivity.
Qed.
End Open.

(** ** From a moment at which no caller is inside *)

Section Since.
Context {I B : Type} `{TokenProvider I} `{Breaker B}.

(** What has happened in [s] since [s1]. *)
Record since (s1 s : cstate (I := I) (B := B)) (cs : list (Z * Z)) (rs : list (bool * (error + string))) : Prop := {
  si_now : c_now s1 <= c_now s;
  si_calls : c_calls s = c_calls s1 ++ cs;
  si_results : c_results s = c_results s1 ++ rs;
  si_times : Forall (fun c => c_now s1 <= c.1 <= c.2 /\ c.2 <= c_now s) cs;
  si_calling : forall k t, c_pc s k = PCalling t -> c_now s1 <= t <= c_now s
}.

Lemma since_step s1 s s' cs rs : since s1 s cs rs -> cstep s s' -> exists cs' rs', since s1 s' cs' rs'.
Proof.
  intros [H1 H2 H3 H4 H5] Hs.
  assert (Hk : forall k x j t, (forall t', x = PCalling t' -> c_now s1 <= t' <= c_now s) ->
    except (c_pc s) k x j = PCalling t -> c_now s1 <= t <= c_now s).
  { intros k x j t Hx Hj. destruct (decide (j = k)) as [->|Hne]; [rewrite except_eq in Hj; auto|].
    rewrite except_ne in Hj by done. by eapply H5. }
  destruct Hs as [s d Hd|s k Hl Hp|s k e b Hp Ha|s k b Hp Ha|s k t1 x i Hp Hx|s k Hp].
  - exists cs, rs. constructor; cbn; try done; [lia|by apply calls_later|]. intros k t Hc. specialize (H5 k t Hc). lia.
  - exists cs, rs. constructor; cbn; try done. intros j t. by apply Hk.
  - eexists (cs ++ [_]), (rs ++ [_]). constructor; cbn; [done|by rewrite H2, <- app_assoc|by rewrite H3, <- app_assoc| |].
    + apply Forall_app. split; [done|]. apply Forall_singleton. cbn. lia.
    + intros j t. by apply Hk.
  - exists cs, rs. constructor; cbn; try done. intros j t. apply Hk. intros t' [= <-]. lia.
  - eexists (cs ++ [_]), (rs ++ [_]). constructor; cbn; [done|by rewrite H2, <- app_assoc|by rewrite H3, <- app_assoc| |].
    + apply Forall_app. split; [done|]. apply Forall_singleton. cbn. specialize (H5 k t1 Hp). lia.
    + intros j t. by apply Hk.
  - exists cs, rs. constructor; cbn; try done. intros j t. by apply Hk.
Qed.

Lemma since_run s1 s2 :
  (forall k, c_pc s1 k = PIdle) -> rtc cstep s1 s2 -> exists cs rs, since s1 s2 cs rs.
Proof.
  intros Hi Hr. revert s2 Hr. apply (rtc_ind_r (fun s => exists cs rs, since s1 s cs rs)).
  - exists [], []. constructor; rewrite ?app_nil_r; try done. intros k t. by rewrite Hi.
  - intros s s' _ Hs (cs & rs & Hc). by eapply since_step.
Qed.

Lemma GetTokens_split (p : CircuitBreakerTokenProvider (I := I) (B := B)) ts ts' rs rs' q q' :
  GetTokens p ts = (rs, q) -> GetTokens p (ts ++ ts') = (rs ++ rs', q') -> GetTokens q ts' = (rs', q').
Proof.
  intros E E'. destruct (GetTokens q ts') as [rs2 q2] eqn:E2.
  rewrite (GetTokens_app ts ts' p rs q rs2 q2 E E2) in E'. injection E' as Hr <-. by apply app_inv_head in Hr as ->.
Qed.

Context (thr timeout : Z) (view : B -> brk_view) (thr_pos : 0 < thr) (timeout_pos : 0 < timeout)
  {laws : BreakerLaws B timeout (fun failures => thr <=? failures) view}.

(** The rate of failing logins since [s1], for callers alone. *)
Lemma since_rate i T s1 s2 :
  rtc cstep (cinit (NewCircuitBreakerTokenProvider i thr timeout) T) s1 -> c_lock s1 = None -> rtc cstep s1 s2 ->
  exists rs, c_results s2 = c_results s1 ++ rs /\ c_now s1 <= c_now s2 /\
    (Forall (fun r => inner_succeeds r = false) rs -> failures rs <= thr + (c_now s2 - c_now s1) / timeout).
Proof using All.
  intros R1 Hl R2. pose proof (serialised_reachable _ _ _ R1) as (_ & Hh & _ & q1 & Hq1 & Hst1).
  assert (Hidle : forall k, c_pc s1 k = PIdle).
  { intros k. destruct (c_pc s1 k) eqn:E; [done|..]; (assert (c_lock s1 = Some k) by (apply Hh; by rewrite E)); congruence. }
  destruct (since_run s1 s2 Hidle R2) as (cs & rs & [H1 H2 H3 H4 H5]).
  assert (R : rtc cstep (cinit (NewCircuitBreakerTokenProvider i thr timeout) T) s2) by (by etransitivity).
  pose proof (serialised_reachable _ _ _ R) as (_ & _ & _ & q2 & Hq2 & _).
  rewrite H2, H3 in Hq2. exists rs. split_and!; [done..|]. intros Hns.
  apply (failures_bounded timeout view thr thr_pos timeout_pos i (c_calls s1) (c_results s1) q1 (c_now s1)
    (c_now s2 - c_now s1) cs rs q2); [lia|done| |by eapply GetTokens_split|done].
  eapply Forall_impl; [exact H4|]. cbn. unfold in_period. lia.
Qed.
End Since.

Section Rate.
Context {I B : Type} `{TokenProvider I} `{Breaker B} (outside : I -> I -> Prop).
Context (thr timeout : Z) (view : B -> brk_view) (thr_pos : 0 < thr) (timeout_pos : 0 < timeout)
  {laws : BreakerLaws B timeout (fun failures => thr <=? failures) view}.

(** The rate with the provider in use elsewhere. *)
Lemma open_rate i T s1 s2 :
  rtc (ostep outside) (cinit (NewCircuitBreakerTokenProvider i thr timeout) T) s1 -> c_lock s1 = None ->
  rtc (ostep outside) s1 s2 ->
  exists rs, c_results s2 = c_results s1 ++ rs /\ c_now s1 <= c_now s2 /\
    (Forall (fun r => inner_succeeds r = false) rs -> failures rs <= thr + (c_now s2 - c_now s1) / timeout).
Proof using All.
  intros R1 Hl R2. destruct (forget_run outside s1 s2 R2 []) as [l1 R2']. destruct (forget_run outside _ s1 R1 l1) as [l0 R1'].
  exact (@since_rate _ _ list_provider _ thr timeout view thr_pos timeout_pos laws l0 T _ _ R1' Hl R2').
Qed.
End Rate.
