(* ===== verification/BreakerSpec.v ===== *)
(** * The breaker specification: [formal/m2-token-breaker/Breaker.tla]

    The repository's own specification of concurrent token requests while the
    KDC rejects every login, as a step relation with the constants and actions
    of the TLA+ module, and the promises the module states.  [BreakerRefine]
    shows that the callers of [circuit_breaker.go] refine it. *)

From S2P Require Import Prelude.

Inductive bs_mode := MClosed | MOpen | MHalfOpen.

Inductive bs_pc := CIdle | CAdmitted | CInKdc | CReturned | CFinished.

#[export] Instance bs_mode_eq_dec : EqDecision bs_mode.
Proof. solve_decision. Defined.

Record bs_state := mk_bs {
  bs_mode_of : bs_mode;              (* state *)
  bs_gen : nat;
  bs_requests : Z;
  bs_consec : Z;                     (* consecFail *)
  bs_at : nat -> bs_pc;              (* pc *)
  bs_call_gen : nat -> nat;
  bs_made : nat -> nat;
  bs_inner : option nat;             (* innerHolder *)
  bs_exec : option nat;              (* execHolder *)
  bs_logins : Z;                     (* badLogins *)
  bs_probes : Z;
  bs_started_open : bool
}.

Section Spec.
(** [K] callers with [Calls] calls each; the breaker trips after [Threshold]
    failures and admits [MaxRequests] probes; [Serialize]: a mutex is held
    across the whole call. *)
Context (K Calls : nat) (Threshold MaxRequests : Z) (Serialize : bool).

Definition bs_init : bs_state :=
  mk_bs MClosed 0 0 0 (fun _ => CIdle) (fun _ => 0%nat) (fun _ => 0%nat) None None 0 0 false.

Definition after_call (made : nat -> nat) (c : nat) : bs_pc :=
  if (made c + 1 =? Calls)%nat then CFinished else CIdle.

(** [AfterRequest]: the breaker records the failure, unless its generation has
    passed. *)
Definition bs_record (s : bs_state) (c : nat) : bs_mode * nat * Z * Z :=
  if negb (bs_call_gen s c =? bs_gen s)%nat then (bs_mode_of s, bs_gen s, bs_requests s, bs_consec s)
  else match bs_mode_of s with
       | MHalfOpen => (MOpen, S (bs_gen s), 0, 0)
       | m => if Threshold <=? bs_consec s + 1 then (MOpen, S (bs_gen s), 0, 0)
              else (m, bs_gen s, bs_requests s, bs_consec s + 1)
       end.

Definition rejects (s : bs_state) : Prop :=
  bs_mode_of s = MOpen \/ bs_mode_of s = MHalfOpen /\ MaxRequests <= bs_requests s.

Definition admits (s : bs_state) : Prop :=
  bs_mode_of s = MClosed \/ bs_mode_of s = MHalfOpen /\ bs_requests s < MaxRequests.

Inductive bs_next : bs_state -> bs_state -> Prop :=
| bs_rejected s c : (c < K)%nat -> bs_at s c = CIdle -> (bs_made s c < Calls)%nat ->
    (Serialize = true -> bs_exec s = None) -> rejects s ->
    bs_next s (mk_bs (bs_mode_of s) (bs_gen s) (bs_requests s) (bs_consec s)
      (except (bs_at s) c (after_call (bs_made s) c)) (bs_call_gen s) (except (bs_made s) c (bs_made s c + 1)%nat)
      (bs_inner s) (bs_exec s) (bs_logins s) (bs_probes s) (bs_started_open s))
| bs_admitted s c : (c < K)%nat -> bs_at s c = CIdle -> (bs_made s c < Calls)%nat ->
    (Serialize = true -> bs_exec s = None) -> admits s ->
    bs_next s (mk_bs (bs_mode_of s) (bs_gen s) (bs_requests s + 1) (bs_consec s)
      (except (bs_at s) c CAdmitted) (except (bs_call_gen s) c (bs_gen s)) (bs_made s)
      (bs_inner s) (if Serialize then Some c else bs_exec s) (bs_logins s)
      (match bs_mode_of s with MHalfOpen => bs_probes s + 1 | _ => bs_probes s end) (bs_started_open s))
| bs_sends_login s c : (c < K)%nat -> bs_at s c = CAdmitted -> bs_inner s = None ->
    bs_next s (mk_bs (bs_mode_of s) (bs_gen s) (bs_requests s) (bs_consec s)
      (except (bs_at s) c CInKdc) (bs_call_gen s) (bs_made s) (Some c) (bs_exec s) (bs_logins s + 1) (bs_probes s)
      (bs_started_open s || bool_decide (bs_mode_of s = MOpen)))
| bs_returns_error s c : (c < K)%nat -> bs_at s c = CInKdc ->
    bs_next s (mk_bs (bs_mode_of s) (bs_gen s) (bs_requests s) (bs_consec s)
      (except (bs_at s) c CReturned) (bs_call_gen s) (bs_made s) None (bs_exec s) (bs_logins s) (bs_probes s)
      (bs_started_open s))
| bs_after_request s c m g r f : (c < K)%nat -> bs_at s c = CReturned -> bs_record s c = (m, g, r, f) ->
    bs_next s (mk_bs m g r f
      (except (bs_at s) c (after_call (bs_made s) c)) (bs_call_gen s) (except (bs_made s) c (bs_made s c + 1)%nat)
      (bs_inner s) (if Serialize then None else bs_exec s) (bs_logins s) (bs_probes s) (bs_started_open s))
| bs_timeout s : bs_mode_of s = MOpen ->
    bs_next s (mk_bs MHalfOpen (S (bs_gen s)) 0 0 (bs_at s) (bs_call_gen s) (bs_made s) (bs_inner s) (bs_exec s)
      (bs_logins s) (bs_probes s) (bs_started_open s))
| bs_done s : (forall c, (c < K)%nat -> bs_at s c = CFinished) -> bs_next s s.

(** ** The promises *)

Definition KDCFailuresBounded (s : bs_state) : Prop := bs_logins s <= Threshold + bs_probes s.
Definition NoLoginWhileOpen (s : bs_state) : Prop := bs_started_open s = false.
Definition SingleProbe (s : bs_state) : Prop := bs_mode_of s = MHalfOpen -> bs_requests s <= 1.

(** A caller between its calls, and the login of a caller inside one. *)
Definition resting (p : bs_pc) : Prop := p = CIdle \/ p = CFinished.
Definition sent (p : bs_pc) : Z := match p with CInKdc | CReturned => 1 | _ => 0 end.

(** With the mutex: at most one caller is inside, its generation is the current
    one, and the logins are those of the threshold and of the probes. *)
Record bs_inv (s : bs_state) : Prop := {
  inv_out : forall c, bs_exec s <> Some c -> resting (bs_at s c);
  inv_in : forall c, bs_exec s = Some c -> ~ resting (bs_at s c) /\ bs_call_gen s c = bs_gen s /\
    bs_mode_of s <> MOpen /\ (bs_mode_of s = MHalfOpen -> bs_requests s = 1);
  inv_inner : bs_inner s = None \/ exists c, bs_exec s = Some c /\ bs_at s c = CInKdc /\ bs_inner s = Some c;
  inv_rest : bs_exec s = None -> bs_mode_of s = MHalfOpen -> bs_requests s = 0;
  inv_started : bs_started_open s = false;
  inv_consec : bs_mode_of s = MClosed -> 0 <= bs_consec s < Threshold;
  inv_logins :
    bs_logins s =
      match bs_mode_of s with
      | MClosed => bs_consec s
      | MOpen => Threshold + bs_probes s
      | MHalfOpen => Threshold + bs_probes s - match bs_exec s with Some _ => 1 | None => 0 end
      end + match bs_exec s with Some c => sent (bs_at s c) | None => 0 end;
  inv_probes : bs_mode_of s = MClosed -> bs_probes s = 0
}.

Context (serial : Serialize = true) (one_probe : MaxRequests = 1) (thr_pos : 0 < Threshold).

Lemma inv_init : bs_inv bs_init.
Proof using thr_pos. constructor; cbn; try done; (by left) || lia. Qed.

(** No caller is inside when the mutex is free. *)
Lemma exec_of s c : bs_inv s -> ~ resting (bs_at s c) -> bs_exec s = Some c.
Proof using Type. intros Hi Hc. destruct (decide (bs_exec s = Some c)) as [|Hne]; [done|]. by apply inv_out in Hne. Qed.

Lemma resting_after made c : resting (after_call made c).
Proof using Type. unfold after_call. case_match; [by right|by left]. Qed.

Lemma not_resting s c p : bs_at s c = p -> p <> CIdle -> p <> CFinished -> ~ resting (bs_at s c).
Proof using Type. intros -> H1 H2 [?|?]; done. Qed.

Lemma inv_rejected s c :
  bs_inv s -> bs_exec s = None ->
  bs_inv (mk_bs (bs_mode_of s) (bs_gen s) (bs_requests s) (bs_consec s)
      (except (bs_at s) c (after_call (bs_made s) c)) (bs_call_gen s) (except (bs_made s) c (bs_made s c + 1)%nat)
      (bs_inner s) (bs_exec s) (bs_logins s) (bs_probes s) (bs_started_open s)).
Proof using Type.
  intros Hi He. pose proof (inv_logins _ Hi) as Hl. destruct Hi as [H1 H2 H3 H4 H5 H6 _ H8].
  constructor; cbn; rewrite ?He in *; try done.
  - intros j Hj. destruct (decide (j = c)) as [->|Hne]; [rewrite except_eq; apply resting_after|].
    rewrite except_ne by done. by apply H1.
  - left. destruct H3 as [?|(j & Hj & _)]; done.
Qed.

Lemma inv_admitted s c :
  bs_inv s -> bs_exec s = None -> admits s ->
  bs_inv (mk_bs (bs_mode_of s) (bs_gen s) (bs_requests s + 1) (bs_consec s)
      (except (bs_at s) c CAdmitted) (except (bs_call_gen s) c (bs_gen s)) (bs_made s)
      (bs_inner s) (Some c) (bs_logins s)
      (match bs_mode_of s with MHalfOpen => bs_probes s + 1 | _ => bs_probes s end) (bs_started_open s)).
Proof using Type.
  intros Hi He Ha. pose proof (inv_logins _ Hi) as Hl. destruct Hi as [H1 H2 H3 H4 H5 H6 _ H8].
  rewrite He in *. constructor; cbn; try done.
  - intros j Hj. assert (j <> c) by congruence. rewrite except_ne by done. by apply H1.
  - intros j [= <-]. rewrite !except_eq. split_and!; [by intros [?|?]|done| |].
    + destruct Ha as [->|[-> _]]; done.
    + intros Hm. rewrite (H4 eq_refl Hm). done.
  - left. destruct H3 as [?|(j & Hj & _)]; done.
  - rewrite except_eq. cbn. destruct Ha as [Hm|[Hm _]]; rewrite Hm in *; lia.
  - intros Hm. rewrite Hm. by apply H8.
Qed.

Lemma inv_login s c :
  bs_inv s -> bs_at s c = CAdmitted ->
  bs_inv (mk_bs (bs_mode_of s) (bs_gen s) (bs_requests s) (bs_consec s)
      (except (bs_at s) c CInKdc) (bs_call_gen s) (bs_made s) (Some c) (bs_exec s) (bs_logins s + 1) (bs_probes s)
      (bs_started_open s || bool_decide (bs_mode_of s = MOpen))).
Proof using Type.
  intros Hi Hc. assert (He : bs_exec s = Some c) by (apply exec_of, (not_resting s c _ Hc); done).
  pose proof (inv_logins _ Hi) as Hl. destruct Hi as [H1 H2 H3 H4 H5 H6 _ H8].
  destruct (H2 c He) as (_ & Hg & Hm & Hr). rewrite He in *. constructor; cbn; try done.
  - intros j Hj. assert (j <> c) by congruence. rewrite except_ne by done. by apply H1.
  - intros j [= <-]. rewrite except_eq. split_and!; [by intros [?|?]|done..].
  - right. exists c. by rewrite except_eq.
  - rewrite H5. by rewrite bool_decide_false.
  - rewrite except_eq. rewrite Hc in Hl. cbn in *. lia.
Qed.

Lemma inv_returns s c :
  bs_inv s -> bs_at s c = CInKdc ->
  bs_inv (mk_bs (bs_mode_of s) (bs_gen s) (bs_requests s) (bs_consec s)
      (except (bs_at s) c CReturned) (bs_call_gen s) (bs_made s) None (bs_exec s) (bs_logins s) (bs_probes s)
      (bs_started_open s)).
Proof using Type.
  intros Hi Hc. assert (He : bs_exec s = Some c) by (apply exec_of, (not_resting s c _ Hc); done).
  pose proof (inv_logins _ Hi) as Hl. destruct Hi as [H1 H2 H3 H4 H5 H6 _ H8].
  destruct (H2 c He) as (_ & Hg & Hm & Hr). rewrite He in *. constructor; cbn; try done.
  - intros j Hj. assert (j <> c) by congruence. rewrite except_ne by done. by apply H1.
  - intros j [= <-]. rewrite except_eq. split_and!; [by intros [?|?]|done..].
  - by left.
  - rewrite except_eq. rewrite Hc in Hl. cbn in *. lia.
Qed.

(** What a caller that is inside records. *)
Lemma record_inside s c :
  bs_inv s -> bs_exec s = Some c ->
  bs_record s c =
    if match bs_mode_of s with MHalfOpen => true | _ => Threshold <=? bs_consec s + 1 end
    then (MOpen, S (bs_gen s), 0, 0) else (MClosed, bs_gen s, bs_requests s, bs_consec s + 1).
Proof using Type.
  intros Hi He. destruct (inv_in _ Hi c He) as (_ & Hg & Hm & _). unfold bs_record.
  rewrite Hg, Nat.eqb_refl. by destruct (bs_mode_of s).
Qed.

Lemma inv_after s c m g r f :
  bs_inv s -> bs_at s c = CReturned -> bs_record s c = (m, g, r, f) ->
  bs_inv (mk_bs m g r f
      (except (bs_at s) c (after_call (bs_made s) c)) (bs_call_gen s) (except (bs_made s) c (bs_made s c + 1)%nat)
      (bs_inner s) None (bs_logins s) (bs_probes s) (bs_started_open s)).
Proof using Type.
  intros Hi Hc. assert (He : bs_exec s = Some c) by (apply exec_of, (not_resting s c _ Hc); done).
  rewrite (record_inside s c Hi He). pose proof (inv_logins _ Hi) as Hl. destruct Hi as [H1 H2 H3 H4 H5 H6 _ H8].
  destruct (H2 c He) as (_ & Hg & Hm & Hr). rewrite He, Hc in Hl. cbn in Hl. rewrite He in *.
  intros Hrec. constructor; cbn; try done.
  - intros j _. destruct (decide (j = c)) as [->|Hne]; [rewrite except_eq; apply resting_after|].
    rewrite except_ne by done. apply H1. congruence.
  - left. destruct H3 as [?|(j & [= <-] & Hj & _)]; [done|congruence].
  - intros _ ->. by repeat case_match.
  - destruct (bs_mode_of s); [|done|]; cbn in Hrec; [|by simplify_eq].
    destruct (Z.leb_spec Threshold (bs_consec s + 1)); simplify_eq; [done|]. specialize (H6 eq_refl). lia.
  - destruct (bs_mode_of s); [|done|]; cbn in Hrec; [|simplify_eq; lia].
    specialize (H6 eq_refl). specialize (H8 eq_refl).
    destruct (Z.leb_spec Threshold (bs_consec s + 1)); simplify_eq; lia.
  - destruct (bs_mode_of s); [|done|]; cbn in Hrec; [|by simplify_eq].
    intros _. by apply H8.
Qed.

Lemma inv_timeout s :
  bs_inv s -> bs_mode_of s = MOpen ->
  bs_inv (mk_bs MHalfOpen (S (bs_gen s)) 0 0 (bs_at s) (bs_call_gen s) (bs_made s) (bs_inner s) (bs_exec s)
      (bs_logins s) (bs_probes s) (bs_started_open s)).
Proof using Type.
  intros Hi Hm. pose proof (inv_logins _ Hi) as Hl. destruct Hi as [H1 H2 H3 H4 H5 H6 _ H8].
  assert (He : bs_exec s = None).
  { destruct (bs_exec s) as [c|]; [|done]. by destruct (H2 c eq_refl) as (_ & _ & ? & _). }
  rewrite He, Hm in *. constructor; cbn; try done; lia.
Qed.

Lemma inv_next s s' : bs_inv s -> bs_next s s' -> bs_inv s'.
Proof using serial.
  intros Hi Hs. destruct Hs; rewrite ?serial in *;
    eauto using inv_rejected, inv_admitted, inv_login, inv_returns, inv_after, inv_timeout.
Qed.

Lemma bs_inv_reachable s : rtc bs_next bs_init s -> bs_inv s.
Proof using serial thr_pos.
  intros Hs. pose proof inv_init as Hi. revert Hi. induction Hs; intros Hi; [done|]. by apply IHHs, (inv_next x).
Qed.

(** The specification keeps its promises when calls are serialised. *)
Lemma bs_promises s : rtc bs_next bs_init s -> KDCFailuresBounded s /\ NoLoginWhileOpen s /\ SingleProbe s.
Proof using serial thr_pos.
  intros Hi%bs_inv_reachable. pose proof (inv_logins _ Hi) as Hl. split_and!; [|apply Hi|].
  - unfold KDCFailuresBounded. assert (Hs : match bs_exec s with Some c => sent (bs_at s c) | None => 0 end <= 1).
    { destruct (bs_exec s); [|lia]. by destruct (bs_at s _). }
    destruct (bs_mode_of s) eqn:Em.
    + pose proof (inv_consec _ Hi Em). pose proof (inv_probes _ Hi Em). lia.
    + destruct (bs_exec s) as [c|] eqn:Ee; [|lia]. by destruct (inv_in _ Hi c Ee) as (_ & _ & ? & _).
    + destruct (bs_exec s); lia.
  - intros Hm. destruct (bs_exec s) as [c|] eqn:Ee.
    + destruct (inv_in _ Hi c Ee) as (_ & _ & _ & Hr). rewrite (Hr Hm). done.
    + by rewrite (inv_rest _ Hi Ee Hm).
Qed.
End Spec.
