(* ===== verification/BreakerRefine.v ===== *)
(** * The concurrent callers refine the breaker specification

    The callers of [CircuitBreakerTokenProvider.GetToken], in every
    interleaving and for every wrapped provider, also one that others use past
    the breaker, against [BreakerSpec] with serialised calls and one probe: as
    long as no login succeeds every step is matched by steps of the
    specification. *)

From S2P Require Import Prelude GoStrings Errors Breaker BreakerOpen BreakerSpec.

Section Refine.
Context {I B : Type} `{TokenProvider I} `{Breaker B}.
Context (timeout : Z) (view : B -> brk_view) (thr : Z) (thr_pos : 0 < thr) (timeout_pos : 0 < timeout)
  `{!BreakerLaws B timeout (fun failures => thr <=? failures) view}.

(** Where the specification sees a caller. *)
Definition spec_pc (p : pc) : bs_pc := match p with PCalling _ => CInKdc | _ => CIdle end.

Definition spec_view (v : brk_view) (t : bs_state) : Prop :=
  match v with
  | BClosed n => bs_mode_of t = MClosed /\ bs_consec t = n
  | BOpen _ => bs_mode_of t = MOpen
  | BHalfOpen _ => bs_mode_of t = MHalfOpen
  end.

(** The logins of the finished calls and of the caller inside. *)
Definition begun (s : cstate (I := I) (B := B)) : Z :=
  failures (c_results s) +
  match c_lock s with Some k => match c_pc s k with PCalling _ => 1 | _ => 0 end | None => 0 end.

Record matches (s : cstate (I := I) (B := B)) (t : bs_state) : Prop := {
  m_view : spec_view (view (cb (c_prov s))) t;
  m_at : forall k, bs_at t k = spec_pc (c_pc s k);
  m_logins : bs_logins t = begun s;
  m_made : forall k, (bs_made t k <= length (c_results s))%nat
}.

(** ** What the concrete invariants say about a caller *)

Lemma settled_calls i ts rs q :
  GetTokens (NewCircuitBreakerTokenProvider i thr timeout) ts = (rs, q) -> settled view q /\ threshold q = thr.
Proof using All.
  intros Hq. destruct (GetTokens_settled timeout view thr thr_pos timeout_pos ts
    (NewCircuitBreakerTokenProvider i thr timeout) rs q) as [? ?]; [done|by eapply New_settled|done|done].
Qed.

Variables (i : I) (T : Z).
Definition fresh : CircuitBreakerTokenProvider := NewCircuitBreakerTokenProvider i thr timeout.

Lemma view_entered s k :
  serialised fresh T s -> c_pc s k = PEntered ->
  (exists n, view (cb (c_prov s)) = BClosed n) \/ (exists t, view (cb (c_prov s)) = BOpen t).
Proof using All.
  intros Hs Hk. pose proof Hs as (_ & _ & _ & q & Hq & _).
  assert (c_prov s = q) as -> by (apply (not_calling fresh T s k q Hs); congruence).
  destruct (settled_calls i _ _ _ Hq) as [Hv _]. unfold settled in Hv. destruct (view (cb q)); eauto. done.
Qed.

Lemma view_calling s k t1 :
  serialised fresh T s -> c_pc s k = PCalling t1 ->
  (exists n, view (cb (c_prov s)) = BClosed n) \/ view (cb (c_prov s)) = BHalfOpen true.
Proof using All.
  intros (_ & Hl & _ & q & Hq & [[Hn _]|(j & t & b & Hj & _ & Hb & ->)]) Hk; [by apply Hn in Hk|]. cbn.
  destruct (settled_calls i _ _ _ Hq) as [Hv _]. unfold settled in Hv. destruct (view (cb q)) as [n|e|] eqn:Ev; [| |done].
  - destruct (law_admit_closed _ t _ Ev) as [_ Hv']. rewrite Hb in Hv'. eauto.
  - destruct (Z.lt_ge_cases t e) as [Hlt|Hge].
    + destruct (law_admit_open _ t _ Ev Hlt) as [Ha _]. by rewrite Hb in Ha.
    + destruct (law_admit_expired _ t _ Ev Hge) as [[_ Hv']|(_ & Ha & _)]; [|by rewrite Hb in Ha].
      rewrite Hb in Hv'. eauto.
Qed.

Lemma spec_pc_in p : ~ resting (spec_pc p) -> exists t1, p = PCalling t1.
Proof using Type. unfold resting. destruct p; cbn; eauto; intros Hn; destruct Hn; auto. Qed.

(** While a caller decides, the specification's mutex is free. *)
Lemma exec_free s t k :
  matches s t -> bs_inv thr t -> serialised fresh T s -> c_pc s k <> PIdle -> (forall t1, c_pc s k <> PCalling t1) ->
  bs_exec t = None /\ bs_inner t = None.
Proof using Type.
  intros Hm Hi (_ & Hl & _) Hk Hn. assert (He : bs_exec t = None).
  { destruct (bs_exec t) as [c|] eqn:Ee; [|done]. destruct (inv_in _ _ Hi c Ee) as (Hc & _).
    rewrite (m_at _ _ Hm) in Hc. apply spec_pc_in in Hc as [t1 Hc].
    assert (c = k) as -> by (eapply holder_unique; [exact Hl|by rewrite Hc|done]). by apply Hn in Hc. }
  split; [done|]. destruct (inv_inner _ _ Hi) as [?|(c & Hc & _)]; congruence.
Qed.

Lemma begun_at s k :
  serialised fresh T s -> c_pc s k <> PIdle ->
  begun s = failures (c_results s) + match c_pc s k with PCalling _ => 1 | _ => 0 end.
Proof using Type. intros (_ & Hl & _) Hk. unfold begun. by rewrite (Hl k Hk). Qed.

Lemma failures_app rs rs' : failures (rs ++ rs') = failures rs + failures rs'.
Proof using Type. unfold failures. rewrite List.filter_app, length_app. lia. Qed.

Lemma failures_rejected r : failures [(false, r)] = 0.
Proof using Type. done. Qed.

Lemma failures_failed e : failures [(true, inl e)] = 1.
Proof using Type. done. Qed.

Lemma spec_at_set s t k p x :
  matches s t -> x = spec_pc p -> forall j, except (bs_at t) k x j = spec_pc (except (c_pc s) k p j).
Proof using Type.
  intros Hm -> j. destruct (decide (j = k)) as [->|Hne]; [by rewrite except_eq, except_eq|].
  rewrite except_ne, except_ne by done. apply Hm.
Qed.

Lemma made_set s t k n :
  matches s t -> n = S (length (c_results s)) -> forall j, (except (bs_made t) k (bs_made t k + 1)%nat j <= n)%nat.
Proof using Type.
  intros Hm -> j. destruct (decide (j = k)) as [->|Hne]; [rewrite except_eq|rewrite except_ne by done];
    [pose proof (m_made _ _ Hm k)|pose proof (m_made _ _ Hm j)]; lia.
Qed.

(** ** One step *)

Section Step.
Context (K Calls : nat) (s : cstate (I := I) (B := B)) (t : bs_state) (k : nat).
Context (Hm : matches s t) (Hi : bs_inv thr t) (Hs : serialised fresh T s)
  (HK : (k < K)%nat) (HC : (length (c_results s) + 1 < Calls)%nat).

#[local] Notation steps := (rtc (bs_next K Calls thr 1 true)).

Lemma after_idle : after_call Calls (bs_made t) k = CIdle.
Proof using Hm HC HK. unfold after_call. pose proof (m_made _ _ Hm k). destruct (Nat.eqb_spec (bs_made t k + 1) Calls); [lia|done]. Qed.

Lemma made_less : (bs_made t k < Calls)%nat.
Proof using Hm HC HK. pose proof (m_made _ _ Hm k). lia. Qed.

Lemma refine_reject e b :
  c_pc s k = PEntered -> brk_admit (cb (c_prov s)) (c_now s) = (Some e, b) ->
  exists t', steps t t' /\
    matches (mk_cstate (mk_CBTP (inner (c_prov s)) b (threshold (c_prov s))) (c_lock s)
               (except (c_pc s) k PLeaving) (c_now s) (c_calls s ++ [(c_now s, c_now s)])
               (c_results s ++ [(false, inl (breaker_error (c_prov s) e))])) t'.
Proof using All.
  intros Hk Ha. destruct (exec_free s t k) as [He _]; try done; try congruence.
  assert (Hv : exists x, view (cb (c_prov s)) = BOpen x /\ view b = BOpen x).
  { destruct (view_entered s k Hs Hk) as [[n Ev]|[x Ev]].
    - destruct (law_admit_closed _ (c_now s) _ Ev) as [Hn _]. by rewrite Ha in Hn.
    - exists x. split; [done|]. destruct (Z.lt_ge_cases (c_now s) x) as [Hlt|Hge].
      + destruct (law_admit_open _ (c_now s) _ Ev Hlt) as [_ Hb]. by rewrite Ha in Hb.
      + destruct (law_admit_expired _ (c_now s) _ Ev Hge) as [[Hn _]|(_ & _ & Hb)]; [by rewrite Ha in Hn|by rewrite Ha in Hb]. }
  destruct Hv as (x & Ev & Eb). pose proof (m_view _ _ Hm) as Hview. rewrite Ev in Hview.
  eexists. split.
  { apply rtc_once, (bs_rejected _ _ _ _ _ t k HK); [rewrite (m_at _ _ Hm), Hk; done|apply made_less|done|by left]. }
  constructor; cbn.
  - by rewrite Eb.
  - apply spec_at_set; [done|]. apply after_idle.
  - rewrite (m_logins _ _ Hm), (begun_at s k) by (done || congruence). unfold begun. cbn.
    rewrite (proj1 (proj2 Hs) k) by congruence. rewrite except_eq, Hk, failures_app. rewrite failures_rejected. lia.
  - rewrite length_app. apply (made_set s); [done|cbn; lia].
Qed.

(** Admission, with the expiry of the open period before it if there is one,
    then the login. *)
Lemma refine_admit b :
  c_pc s k = PEntered -> brk_admit (cb (c_prov s)) (c_now s) = (None, b) ->
  exists t', steps t t' /\
    matches (mk_cstate (mk_CBTP (inner (c_prov s)) b (threshold (c_prov s))) (c_lock s)
               (except (c_pc s) k (PCalling (c_now s))) (c_now s) (c_calls s) (c_results s)) t'.
Proof using All.
  intros Hk Ha. destruct (exec_free s t k) as [He Hin]; try done; try congruence.
  assert (Hidle : bs_at t k = CIdle) by (by rewrite (m_at _ _ Hm), Hk).
  assert (Hd : exists t1, steps t t1 /\ admits 1 t1 /\ spec_view (view b) t1 /\
    (bs_at t1, bs_exec t1, bs_inner t1, bs_logins t1, bs_made t1) = (bs_at t, None, None, bs_logins t, bs_made t)).
  { destruct (view_entered s k Hs Hk) as [[n Ev]|[x Ev]]; pose proof (m_view _ _ Hm) as Hview; rewrite Ev in Hview.
    - destruct (law_admit_closed _ (c_now s) _ Ev) as [_ Hb]. rewrite Ha in Hb. cbn in Hb. rewrite Hb.
      exists t. split_and!; [apply rtc_refl|left; apply Hview|done|by rewrite He, Hin].
    - eexists. split; [by apply rtc_once, bs_timeout|].
      assert (Hb : view b = BHalfOpen true).
      { destruct (Z.lt_ge_cases (c_now s) x) as [Hlt|Hge].
        - destruct (law_admit_open _ (c_now s) _ Ev Hlt) as [Hn _]. by rewrite Ha in Hn.
        - destruct (law_admit_expired _ (c_now s) _ Ev Hge) as [[_ Hb]|(_ & Hn & _)]; [by rewrite Ha in Hb|by rewrite Ha in Hn]. }
      rewrite Hb. split_and!; [by right|done|]. cbn. by rewrite He, Hin. }
  destruct Hd as (t1 & Hst & Hadm & Hv & [= Eat Ee Ei El Emade]). eexists. split.
  { etransitivity; [exact Hst|]. eapply rtc_l; [apply (bs_admitted _ _ _ _ _ t1 k HK); try done|].
    - by rewrite Eat.
    - rewrite Emade. apply made_less.
    - apply rtc_once, (bs_sends_login _ _ _ _ _ _ k HK); [apply except_eq|done]. }
  constructor; cbn.
  - destruct (view b); exact Hv.
  - intros j. rewrite <- (spec_at_set s t k (PCalling (c_now s)) CInKdc Hm eq_refl j).
    unfold except. rewrite Eat. by destruct (j =? k)%nat.
  - rewrite El, (m_logins _ _ Hm), (begun_at s k) by (done || congruence). unfold begun. cbn.
    rewrite (proj1 (proj2 Hs) k) by congruence. rewrite except_eq, Hk. lia.
  - intros j. rewrite Emade. apply Hm.
Qed.

(** The error comes back and is recorded. *)
Lemma refine_return t1 e i' :
  c_pc s k = PCalling t1 ->
  exists t', steps t t' /\
    matches (mk_cstate (mk_CBTP i' (brk_report (cb (c_prov s)) (c_now s) false) (threshold (c_prov s)))
               (c_lock s) (except (c_pc s) k PLeaving) (c_now s) (c_calls s ++ [(t1, c_now s)])
               (c_results s ++ [(true, inl e)])) t'.
Proof using All.
  intros Hk. assert (Hin : bs_at t k = CInKdc) by (by rewrite (m_at _ _ Hm), Hk).
  assert (He : bs_exec t = Some k) by (apply (exec_of thr t k Hi), (not_resting t k _ Hin); done).
  pose proof (inv_returns thr t k Hi Hin) as Hi'.
  pose proof (record_inside thr _ k Hi' He) as Hrec. cbn in Hrec.
  destruct (bs_record thr _ k) as [[[m g] r] f] eqn:Er. eexists. split.
  { eapply rtc_l; [apply (bs_returns_error _ _ _ _ _ t k HK Hin)|].
    apply rtc_once, (bs_after_request _ _ _ _ _ _ k m g r f HK); [apply except_eq|exact Er]. }
  constructor; cbn.
  - pose proof (m_view _ _ Hm) as Hview. destruct (view_calling s k t1 Hs Hk) as [[n Ev]|Ev]; rewrite Ev in Hview; cbn in Hview.
    + destruct Hview as [Hmode Hn]. rewrite (law_report_closed _ _ _ _ Ev). rewrite Hmode, Hn in Hrec.
      destruct (thr <=? n + 1); simplify_eq; done.
    + rewrite (law_report_probe _ _ _ Ev). rewrite Hview in Hrec. cbn in *. by simplify_eq.
  - intros j. rewrite <- (spec_at_set s t k PLeaving CIdle Hm eq_refl j). unfold except.
    rewrite after_idle. by destruct (j =? k)%nat.
  - rewrite (m_logins _ _ Hm), (begun_at s k) by (done || congruence). unfold begun. cbn.
    rewrite (proj1 (proj2 Hs) k) by congruence. rewrite except_eq, Hk, failures_app, failures_failed. lia.
  - rewrite length_app. apply (made_set s); [done|cbn; lia].
Qed.

(** Taking and releasing [mu] are no steps of the specification. *)
Lemma refine_stutter lock p :
  spec_pc (c_pc s k) = CIdle -> spec_pc p = CIdle -> lock = Some k \/ lock = None ->
  (c_lock s = None \/ c_lock s = Some k) ->
  matches (mk_cstate (c_prov s) lock (except (c_pc s) k p) (c_now s) (c_calls s) (c_results s)) t.
Proof using Hm.
  intros Hk Hp Hlock Hl. constructor; cbn; try apply Hm.
  - intros j. destruct (decide (j = k)) as [->|Hne]; [rewrite except_eq, Hp, (m_at _ _ Hm), Hk; done|].
    rewrite except_ne by done. apply Hm.
  - rewrite (m_logins _ _ Hm). unfold begun. cbn. f_equal.
    assert (match c_lock s with Some k => match c_pc s k with PCalling _ => 1 | _ => 0 end | None => 0 end = 0) as ->.
    { destruct Hl as [->| ->]; [done|]. by destruct (c_pc s k). }
    destruct Hlock as [->| ->]; [|done]. rewrite except_eq. by destruct p.
Qed.
End Step.

(** A step by caller [k], for any number of callers and calls beyond those seen. *)
Lemma refine_step s s' :
  cstep s s' -> serialised fresh T s -> Forall (fun r => inner_succeeds r = false) (c_results s') ->
  exists k, forall K Calls t, (k < K)%nat -> (length (c_results s) + 1 < Calls)%nat -> bs_inv thr t -> matches s t ->
    exists t', rtc (bs_next K Calls thr 1 true) t t' /\ matches s' t'.
Proof using All.
  intros Hstep Hs Hns. destruct Hstep as [s d ?|s k Hl Hk|s k e b Hk Ha|s k b Hk Ha|s k t1 x i' Hk Hx|s k Hk].
  - exists 0%nat. intros K Calls t _ _ _ Hm. exists t. split; [apply rtc_refl|]. constructor; apply Hm.
  - exists k. intros K Calls t _ _ _ Hm. exists t. split; [apply rtc_refl|].
    apply (refine_stutter s t k Hm); try done; [by rewrite Hk|by left|by left].
  - exists k. intros K Calls t HK HC Hi Hm. by apply refine_reject.
  - exists k. intros K Calls t HK HC Hi Hm. by apply refine_admit.
  - exists k. intros K Calls t HK HC Hi Hm. apply Forall_app in Hns as [_ Hr]. rewrite Forall_singleton in Hr.
    destruct x as [e|token]; [|done]. by apply refine_return.
  - exists k. intros K Calls t _ _ _ Hm. exists t. split; [apply rtc_refl|].
    apply (refine_stutter s t k Hm); try done; [by rewrite Hk|by right|].
    right. apply (proj1 (proj2 Hs)). by rewrite Hk.
Qed.

Lemma results_grow s s' : cstep s s' -> exists l, c_results s' = c_results s ++ l.
Proof using Type. destruct 1; cbn; eauto using app_nil_r; exists []; by rewrite app_nil_r. Qed.

Lemma matches_init : matches (cinit fresh T) bs_init.
Proof using All. constructor; cbn; try done. unfold fresh. cbn. by rewrite law_new. Qed.

Lemma refine_reachable s :
  rtc cstep (cinit fresh T) s -> Forall (fun r => inner_succeeds r = false) (c_results s) ->
  exists N, forall K Calls, (N <= K)%nat -> (N <= Calls)%nat ->
    exists t, rtc (bs_next K Calls thr 1 true) bs_init t /\ matches s t.
Proof using All.
  revert s. apply (rtc_ind_r (fun s => Forall (fun r => inner_succeeds r = false) (c_results s) ->
    exists N, forall K Calls, (N <= K)%nat -> (N <= Calls)%nat ->
      exists t, rtc (bs_next K Calls thr 1 true) bs_init t /\ matches s t)); [intros Hns|intros s s' Hr Hstep IH Hns].
  - exists 0%nat. intros. exists bs_init. split; [apply rtc_refl|apply matches_init].
  - destruct (results_grow _ _ Hstep) as [l El]. pose proof Hns as Hns'. rewrite El in Hns'. apply Forall_app in Hns' as [Hold _].
    destruct (IH Hold) as [N HN].
    destruct (refine_step s s' Hstep (serialised_reachable _ _ _ Hr) Hns) as [k Hk].
    exists (N + S k + (length (c_results s) + 2))%nat. intros K Calls HK HC.
    destruct (HN K Calls ltac:(lia) ltac:(lia)) as (t & Ht & Hm).
    destruct (Hk K Calls t ltac:(lia) ltac:(lia) (bs_inv_reachable K Calls thr 1 true eq_refl thr_pos t Ht) Hm) as (t' & Ht' & Hm').
    exists t'. split; [by etransitivity|done].
Qed.

End Refine.

Section Open.
Context {I B : Type} `{TokenProvider I} `{Breaker B} (outside : I -> I -> Prop).
Context (timeout : Z) (view : B -> brk_view) (thr : Z) (thr_pos : 0 < thr) (timeout_pos : 0 < timeout)
  `{!BreakerLaws B timeout (fun failures => thr <=? failures) view}.
Variables (i : I) (T : Z).

(** The specification does not see the wrapped provider. *)
Lemma matches_forget (s : cstate (I := I) (B := B)) l t : matches view (forget s l) t -> matches view s t.
Proof using Type. by intros [? ? ? ?]. Qed.

(** C12 (breaker_refines_spec): concurrent token requests refine the repository's specification of
    the breaker (Breaker.tla with serialised calls and one probe).  In every
    interleaving of any number of callers in which no login succeeds, also when
    the wrapped provider is changed by others between their steps, the state of
    the callers and of the breaker is one the specification reaches with the
    same logins, so its promises hold: the logins begun, the one in flight
    included, are at most [threshold] and one per probe, none begins while the
    circuit is open, and a half-open circuit lets one probe through. *)
Theorem breaker_refines_spec s :
  rtc (ostep outside) (cinit (NewCircuitBreakerTokenProvider i thr timeout) T) s ->
  Forall (fun r => inner_succeeds r = false) (c_results s) ->
  exists N, forall K Calls, (N <= K)%nat -> (N <= Calls)%nat ->
    exists t, rtc (bs_next K Calls thr 1 true) bs_init t /\ matches view s t /\
      begun s <= thr + bs_probes t /\ NoLoginWhileOpen t /\ SingleProbe t.
Proof using All.
  intros Hr Hns. destruct (forget_run outside _ s Hr []) as [l Hl].
  destruct (@refine_reachable _ _ list_provider _ timeout view thr thr_pos timeout_pos _ l T _ Hl Hns) as [N HN].
  exists N. intros K Calls HK HC. destruct (HN K Calls HK HC) as (t & Ht & Hm%matches_forget).
  destruct (bs_promises K Calls thr 1 true eq_refl thr_pos t Ht) as (H1 & H2 & H3).
  exists t. split_and!; try done. rewrite <- (m_logins _ _ _ Hm). exact H1.
Qed.
End Open.

(** ** Witness: the second caller is inside after the first login failed, and
    the provider is changed in between *)

Definition shortens (l l' : list (error + string)) : Prop := l' = tail l.

Lemma one_failed :
  exists s : cstate (I := list (error + string)) (B := brk_view),
    rtc (@ostep _ _ list_provider (plain_breaker CBTimeout (fun n => 3 <=? n)) shortens)
      (cinit (@NewCircuitBreakerTokenProvider _ _ (plain_breaker CBTimeout (fun n => 3 <=? n)) [] 3 CBTimeout) 0) s /\
    begun s = 2 /\ forallb (fun r => negb (inner_succeeds r)) (c_results s) = true.
Proof.
  eexists. split.
  { run_caller ltac:(apply o_caller, (step_lock _ 0%nat); reflexivity).
    run_caller ltac:(apply o_caller; eapply (step_admit _ 0%nat); reflexivity).
    run_caller ltac:(apply o_caller, (step_tick _ 5); lia).
    run_caller ltac:(by eapply o_outside).
    run_caller ltac:(apply o_caller; eapply (step_return _ 0%nat); reflexivity).
    run_caller ltac:(apply o_caller, (step_unlock _ 0%nat); reflexivity).
    run_caller ltac:(apply o_caller, (step_lock _ 1%nat); reflexivity).
    run_caller ltac:(apply o_caller; eapply (step_admit _ 1%nat); reflexivity).
    apply rtc_refl. }
  split; vm_compute; reflexivity.
Qed.

Lemma breaker_refines_spec_witness :
  exists s : cstate (I := list (error + string)) (B := brk_view), begun s = 2 /\
    exists N, forall K Calls, (N <= K)%nat -> (N <= Calls)%nat ->
      exists t, rtc (bs_next K Calls 3 1 true) bs_init t /\ matches id s t /\
        begun s <= 3 + bs_probes t /\ NoLoginWhileOpen t /\ SingleProbe t.
Proof.
  destruct one_failed as (s & R & Hb & Hf). exists s. split; [exact Hb|].
  apply (@breaker_refines_spec _ _ list_provider (plain_breaker CBTimeout (fun n => 3 <=? n)) shortens CBTimeout id 3
    ltac:(lia) ltac:(done) (plain_breaker_laws _ _) [] 0 s R).
  apply List.Forall_forall. intros r Hr. eapply forallb_forall in Hf; [|exact Hr]. by apply negb_true_iff.
Defined.
