(* ===== verification/TunnelClock.v ===== *)
(** * The activity clock of a tunnel: [tunnelClock] of [connect.go]

    Both directions of a tunnel record progress in one atomic integer and read
    it to decide idleness.  The loads, compare-and-swaps and clock readings of
    [touchAt] and [quietForSince] are single steps, interleaved freely between
    any number of goroutines. *)

From S2P Require Import Prelude.

(** [idle] and [remaining], on the value [quietFor] returned.  Durations are
    int64 and subtraction wraps. *)
Definition quiet_value (elapsed last : Z) : Z := wrap64 (elapsed - last).
Definition idle (timeout quiet : Z) : bool := timeout <=? quiet.
Definition remaining (timeout quiet : Z) : Z := wrap64 (timeout - quiet).

(** ** Goroutines *)

(** Program points of [touchAt(now)] and [quietForSince].  [g] is no variable
    of the code: it is the value of [last] when the clock was read. *)
Inductive tpc :=
| TIdle
| TLoad (now : Z)               (* about to load last *)
| TTry (now last : Z)           (* at the loop test, with last loaded *)
| TTouched (now : Z)            (* touchAt returned *)
| QLoad                         (* about to load last *)
| QSince (last : Z)             (* about to read the clock *)
| QCheck (last elapsed g : Z)   (* about to load last again *)
| QQuiet (last elapsed g : Z).  (* returns elapsed - last *)

(** [tunnelClock.last], the time since [origin], and where every goroutine is. *)
Record kstate := mk_kstate {
  k_last : Z;
  k_time : Z;
  k_pc : nat -> tpc
}.

Definition k_set (f : nat -> tpc) (k : nat) (x : tpc) : nat -> tpc :=
  fun j => if (j =? k)%nat then x else f j.

Inductive kstep : kstate -> kstate -> Prop :=
| k_tick s d : 0 <= d -> kstep s (mk_kstate (k_last s) (k_time s + d) (k_pc s))
| k_touch s k : k_pc s k = TIdle ->
    kstep s (mk_kstate (k_last s) (k_time s) (k_set (k_pc s) k (TLoad (k_time s))))
| k_load s k now : k_pc s k = TLoad now ->
    kstep s (mk_kstate (k_last s) (k_time s) (k_set (k_pc s) k (TTry now (k_last s))))
| k_exit s k now last : k_pc s k = TTry now last -> now <= last ->
    kstep s (mk_kstate (k_last s) (k_time s) (k_set (k_pc s) k (TTouched now)))
| k_swap s k now last : k_pc s k = TTry now last -> last < now -> k_last s = last ->
    kstep s (mk_kstate now (k_time s) (k_set (k_pc s) k (TTouched now)))
| k_retry s k now last : k_pc s k = TTry now last -> last < now -> k_last s <> last ->
    kstep s (mk_kstate (k_last s) (k_time s) (k_set (k_pc s) k (TLoad now)))
| k_quiet s k : k_pc s k = TIdle ->
    kstep s (mk_kstate (k_last s) (k_time s) (k_set (k_pc s) k QLoad))
| k_qload s k : k_pc s k = QLoad ->
    kstep s (mk_kstate (k_last s) (k_time s) (k_set (k_pc s) k (QSince (k_last s))))
| k_since s k last : k_pc s k = QSince last ->
    kstep s (mk_kstate (k_last s) (k_time s) (k_set (k_pc s) k (QCheck last (k_time s) (k_last s))))
| k_same s k last elapsed g : k_pc s k = QCheck last elapsed g -> k_last s = last ->
    kstep s (mk_kstate (k_last s) (k_time s) (k_set (k_pc s) k (QQuiet last elapsed g)))
| k_again s k last elapsed g : k_pc s k = QCheck last elapsed g -> k_last s <> last ->
    kstep s (mk_kstate (k_last s) (k_time s) (k_set (k_pc s) k QLoad))
| k_return s k : (exists now, k_pc s k = TTouched now) \/ (exists l e g, k_pc s k = QQuiet l e g) ->
    kstep s (mk_kstate (k_last s) (k_time s) (k_set (k_pc s) k TIdle)).

(** [newTunnelClock]: [last] is zero at the origin. *)
Definition newTunnelClock : kstate := mk_kstate 0 0 (fun _ => TIdle).

(** ** Invariant *)

(** What holds at a program point when [last] and the time are [L] and [T]. *)
Definition pc_ok (L T : Z) (x : tpc) : Prop :=
  match x with
  | TIdle | QLoad => True
  | TLoad now => 0 <= now <= T
  | TTry now last => 0 <= now <= T /\ last <= L
  | TTouched now => now <= L
  | QSince last => 0 <= last <= L
  | QCheck last elapsed g => 0 <= last <= g /\ g <= L /\ g <= elapsed <= T
  | QQuiet last elapsed g => 0 <= last /\ last = g /\ g <= L /\ g <= elapsed <= T
  end.

Record clock_inv (s : kstate) : Prop := {
  ci_last : 0 <= k_last s <= k_time s;
  ci_pc : forall k, pc_ok (k_last s) (k_time s) (k_pc s k)
}.

Lemma pc_ok_later L L' T T' x : L <= L' -> T <= T' -> pc_ok L T x -> pc_ok L' T' x.
Proof. destruct x; cbn; lia. Qed.

Lemma clock_inv_set s L T k x :
  clock_inv s -> k_last s <= L -> k_time s <= T -> L <= T -> pc_ok L T x ->
  clock_inv (mk_kstate L T (k_set (k_pc s) k x)).
Proof.
  intros [Hl Hp] HL HT HLT Hx. constructor; cbn; [lia|]. intros j. unfold k_set.
  destruct (j =? k)%nat; [done|]. eapply pc_ok_later; [exact HL|exact HT|apply Hp].
Qed.

Lemma kstep_grows s s' : clock_inv s -> kstep s s' -> k_last s <= k_last s' /\ k_time s <= k_time s'.
Proof. intros _ Hs. destruct Hs; cbn; lia. Qed.

Lemma clock_inv_step s s' : clock_inv s -> kstep s s' -> clock_inv s'.
Proof.
  intros Hi Hs. pose proof Hi as [Hl Hp].
  destruct Hs; try match goal with E : k_pc s ?k = _ |- _ => specialize (Hp k); rewrite E in Hp end;
    cbn in Hp; [|apply clock_inv_set; [done|lia|lia|lia|cbn; (done || lia)]..].
  constructor; cbn; [lia|]. intros j. eapply pc_ok_later; [| |apply Hp]; lia.
Qed.

Lemma clock_inv_new : clock_inv newTunnelClock.
Proof. constructor; cbn; [lia|done]. Qed.

Lemma clock_inv_rtc s s' : clock_inv s -> rtc kstep s s' -> clock_inv s' /\ k_last s <= k_last s'.
Proof.
  intros Hi Hr. revert Hi. induction Hr as [|x y z Hxy _ IH]; intros Hi; [split; [done|lia]|].
  pose proof (clock_inv_step _ _ Hi Hxy) as Hy. pose proof (kstep_grows _ _ Hi Hxy).
  destruct (IH Hy). split; [done|lia].
Qed.

(** ** Theorems *)

(** Progress is never lost.  In every interleaving, the recorded time of the
    latest progress never goes back, it is never in the future, and once a
    [touchAt(now)] has returned it is at least [now] for ever. *)
Theorem touch_recorded s s' k now :
  rtc kstep newTunnelClock s -> k_pc s k = TTouched now -> rtc kstep s s' ->
  now <= k_last s /\ k_last s <= k_last s' <= k_time s'.
Proof.
  intros Hs Hk Hs'. destruct (clock_inv_rtc _ _ clock_inv_new Hs) as [Hi _].
  destruct (clock_inv_rtc _ _ Hi Hs') as [[Hl _] ?]. destruct Hi as [_ Hp].
  specialize (Hp k). rewrite Hk in Hp. cbn in Hp. lia.
Qed.

(** idleness is exact.  The duration [quietFor] returns is the time since the
    progress that was the latest recorded at the moment the clock was read
    ([g] is the value of [last] at that moment), without overflow while the
    tunnel is younger than 2^63 ns; so a tunnel is declared idle only if no
    progress was recorded in the last [timeout]. *)
Theorem quiet_exact s k last elapsed g timeout :
  rtc kstep newTunnelClock s -> k_pc s k = QQuiet last elapsed g -> k_time s < 2 ^ 63 ->
  quiet_value elapsed last = elapsed - g /\ 0 <= elapsed - g /\
  (idle timeout (quiet_value elapsed last) = true <-> g <= elapsed - timeout) /\
  (0 <= timeout < 2 ^ 63 ->
   (remaining timeout (quiet_value elapsed last) <= 0 <-> g <= elapsed - timeout)).
Proof.
  intros Hs Hk Ht. destruct (clock_inv_rtc _ _ clock_inv_new Hs) as [[_ Hp] _].
  specialize (Hp k). rewrite Hk in Hp. cbn in Hp. destruct Hp as (? & -> & ? & ?).
  assert (Hq : quiet_value elapsed g = elapsed - g).
  { unfold quiet_value. apply wrap64_id. unfold is_int64, min_int64, max_int64. lia. }
  rewrite Hq. split_and!; [done|lia| |].
  - unfold idle. rewrite Z.leb_le. lia.
  - intros Hto. unfold remaining. rewrite wrap64_id; [lia|].
    unfold is_int64, min_int64, max_int64. lia.
Qed.

Lemma k_set_eq f k x : k_set f k x k = x.
Proof. unfold k_set. by rewrite Nat.eqb_refl. Qed.

(** A goroutine whose load is still current finishes in one step. *)
Lemma solo_try s k now last :
  k_pc s k = TTry now last -> k_last s = last ->
  exists s', rtc kstep s s' /\ k_pc s' k = TTouched now /\ k_last s' = Z.max (k_last s) now.
Proof.
  intros Hk Heq. destruct (Z.le_gt_cases now last) as [Hle|Hgt]; eexists.
  - split; [eapply rtc_once, (k_exit s k); [exact Hk|lia]|]. split; [apply k_set_eq|cbn; lia].
  - split; [eapply rtc_once, (k_swap s k); [exact Hk|lia|done]|]. split; [apply k_set_eq|cbn; lia].
Qed.

(** the CAS loop makes progress.  A failed compare-and-swap means that
    another goroutine has recorded later progress since the load, and a
    goroutine that runs alone finishes with the maximum of both. *)
Theorem touch_progress s k now last :
  rtc kstep newTunnelClock s -> k_pc s k = TTry now last ->
  (k_last s <> last -> last < k_last s) /\
  exists s', rtc kstep s s' /\ k_pc s' k = TTouched now /\ k_last s' = Z.max (k_last s) now.
Proof.
  intros Hs Hk. destruct (clock_inv_rtc _ _ clock_inv_new Hs) as [[_ Hp] _].
  specialize (Hp k). rewrite Hk in Hp. cbn in Hp. split; [lia|].
  destruct (decide (k_last s = last)) as [Heq|Hne]; [by apply (solo_try s k now last)|].
  destruct (Z.le_gt_cases now last) as [Hle|Hgt].
  { eexists. split; [eapply rtc_once, (k_exit s k); [exact Hk|lia]|]. split; [apply k_set_eq|cbn; lia]. }
  set (s1 := mk_kstate (k_last s) (k_time s) (k_set (k_pc s) k (TLoad now))).
  set (s2 := mk_kstate (k_last s) (k_time s) (k_set (k_pc s1) k (TTry now (k_last s)))).
  destruct (solo_try s2 k now (k_last s) (k_set_eq _ _ _) eq_refl) as (s' & Hs' & Hk' & Hl').
  exists s'. split_and!; [|done|exact Hl'].
  apply (rtc_l _ s s1); [by apply (k_retry s k now last); [done|lia|]|].
  apply (rtc_l _ s1 s2); [apply (k_load s1 k now), k_set_eq|exact Hs'].
Qed.

(** ** Witnesses *)

(** One goroutine touches at 7; another reads the clock at 9. *)
Lemma clock_run :
  exists s, rtc kstep newTunnelClock s /\ k_pc s 0%nat = TTouched 7 /\ k_pc s 1%nat = QQuiet 7 9 7 /\
    k_time s = 9.
Proof.
  eassert (R : rtc kstep newTunnelClock _).
  { eapply rtc_l; [apply (k_tick _ 7); lia|].
    eapply rtc_l; [apply (k_touch _ 0%nat); reflexivity|].
    eapply rtc_l; [apply (k_load _ 0%nat 7); reflexivity|].
    eapply rtc_l; [apply (k_swap _ 0%nat 7 0); [reflexivity|lia|reflexivity]|].
    eapply rtc_l; [apply (k_quiet _ 1%nat); reflexivity|].
    eapply rtc_l; [apply (k_qload _ 1%nat); reflexivity|].
    eapply rtc_l; [apply (k_tick _ 2); lia|].
    eapply rtc_l; [apply (k_since _ 1%nat 7); reflexivity|].
    eapply rtc_once. apply (k_same _ 1%nat 7 9 7); reflexivity. }
  eexists. split; [exact R|]. split_and!; reflexivity.
Qed.

Lemma touch_recorded_witness : exists s, rtc kstep newTunnelClock s /\ 7 <= k_last s.
Proof.
  destruct clock_run as (s & Hs & Hk & _). exists s. split; [exact Hs|].
  apply (touch_recorded s s 0%nat 7 Hs Hk (rtc_refl _ _)).
Defined.

Lemma quiet_exact_witness : quiet_value 9 7 = 2.
Proof.
  destruct clock_run as (s & Hs & _ & Hk & Ht).
  apply (quiet_exact s 1%nat 7 9 7 5 Hs Hk). rewrite Ht. lia.
Defined.

(** A goroutine about to swap in 7. *)
Lemma touch_progress_witness :
  exists s s', rtc kstep newTunnelClock s /\ rtc kstep s s' /\ k_last s' = 7.
Proof.
  eassert (Hs : rtc kstep newTunnelClock _).
  { eapply rtc_l; [apply (k_tick _ 7); lia|].
    eapply rtc_l; [apply (k_touch _ 0%nat); reflexivity|].
    eapply rtc_once. apply (k_load _ 0%nat 7). reflexivity. }
  destruct (touch_progress _ 0%nat 7 0 Hs eq_refl) as [_ (s' & Hs' & _ & Hl)].
  eexists _, s'. split_and!; [exact Hs|exact Hs'|]. rewrite Hl. reflexivity.
Defined.
