(* ===== verification/Tunnel.v ===== *)
(** * CONNECT tunnels: [idleCopy], [forwardHalf] and [forwardTunnel] of
    [connect.go], and [tunnel_write.go] with its platform files

    The copy loops of a tunnel in a state monad over an environment [TEnv]:
    the connections, the clock and the timers.  Every call is logged with its
    result.  Idleness itself is the subject of [TunnelClock]; here
    [te_quiet] is what [quietFor] returned. *)

From S2P Require Import Prelude GoStrings Errors TunnelClock.

(** ** Calls *)

(** What one attempt of [syscall.Write] under [RawConn.Write] gave: octets
    written, EINTR, EAGAIN or another errno; or [RawConn.Write] itself failed
    before or while waiting (for instance at the write deadline). *)
Inductive raw_attempt :=
| RawWrote (n : nat)
| RawEINTR
| RawEAGAIN
| RawErrno (msg : string) (k : err_kind)
| RawFailed (e : error).

Inductive tev :=
| TvQuiet (q : Z)                                  (* clock.quietFor() *)
| TvTouch                                          (* clock.touch() *)
| TvArmRead (d : option Z) (e : option error)      (* SetReadDeadline(now + d), or cleared *)
| TvArmWrite (t : Z) (e : option error)            (* SetWriteDeadline(t) *)
| TvNow (t : Z)                                    (* time.Now() *)
| TvRead (s : string) (e : option error)           (* Read *)
| TvWrite (s : string) (n : nat) (e : option error) (* Write of s *)
| TvSyscallConn (e : option error)
| TvCloseWrite (e : option error)                  (* dst.CloseWrite() *)
| TvMarkClosed                                     (* transport.writeClosed.Store(true) *)
| TvClose (e : option error)                       (* Close of the wrapped connection *)
| TvRaw (s : string) (a : raw_attempt).

(** The two sides of a copy and the timers. *)
Class TEnv (W : Type) := {
  te_quiet : W -> Z * W;
  te_touch : W -> W;
  te_arm_read : option Z -> W -> option error * W;
  te_arm_write : Z -> W -> option error * W;
  te_now : W -> Z * W;
  te_read : W -> (string * option error) * W;
  te_write : string -> W -> (nat * option error) * W;
  te_syscall_conn : W -> option error * W;
  te_close_write : W -> option error * W;
  te_close : W -> option error * W;
  te_raw : string -> W -> raw_attempt * W
}.

(** ** The monad *)

Inductive result (A : Type) := Ok (a : A) | NoFuel.
Arguments Ok {A}.
Arguments NoFuel {A}.

Record ts (W : Type) := mk_ts { ts_w : W; ts_log : list tev }.
Arguments mk_ts {W}.
Arguments ts_w {W}.
Arguments ts_log {W}.

Definition TM (W A : Type) : Type := ts W -> result A * ts W.

Definition tret {W A} (a : A) : TM W A := fun s => (Ok a, s).
Definition tbind {W A B} (m : TM W A) (k : A -> TM W B) : TM W B := fun s =>
  match m s with
  | (Ok a, s') => k a s'
  | (NoFuel, s') => (NoFuel, s')
  end.
Definition tfuel {W A} : TM W A := fun s => (NoFuel, s).

Declare Scope tunnel_scope.
Delimit Scope tunnel_scope with tunnel.
Notation "x <~ m ;; k" := (tbind m (fun x => k))
  (at level 100, m at next level, right associativity) : tunnel_scope.
Open Scope tunnel_scope.

Definition tcall {W X} (f : W -> X * W) (ev : X -> tev) : TM W X := fun s =>
  let '(x, w) := f (ts_w s) in (Ok x, mk_ts w (ts_log s ++ [ev x])).

Definition errTunnelIdle : error := Err KTunnelIdle "tunnel idle timeout" None.
Definition errNoProgress : error :=
  Err KNoProgress "multiple Read calls return no data or error" None.
Definition errShortWrite : error := Err KOther "short write" None.

(** ** Connections *)

(** [tunnelConn]: the timeout of the attached clock, if there is one, the
    [writeClosed] flag, and whether the wrapped connection can half-close and
    is a [syscall.Conn]. *)
Record tunnelConn := mk_tunnelConn {
  tc_clock : option Z;
  tc_writeClosed : bool;
  tc_half_closer : bool;
  tc_syscall_conn : bool
}.

(** The connections of a tunnel: one without a wrapper (with or without a
    [CloseWrite] method), a wrapped one, or a TLS connection over a wrapped
    transport. *)
Inductive net_conn :=
| NPlain (half_closer syscall_conn : bool)
| NTunnel (c : tunnelConn)
| NTLS (transport : tunnelConn).

Definition store_clock (timeout : Z) (c : tunnelConn) : tunnelConn :=
  mk_tunnelConn (Some timeout) (tc_writeClosed c) (tc_half_closer c) (tc_syscall_conn c).

Definition mark_closed (c : tunnelConn) : tunnelConn :=
  mk_tunnelConn (tc_clock c) true (tc_half_closer c) (tc_syscall_conn c).

(** [trackTunnelActivity]; a connection that is already wrapped has
    [CloseWrite] and no descriptor of its own. *)
Definition trackTunnelActivity (conn : net_conn) (timeout : Z) : net_conn :=
  if timeout <=? 0 then conn
  else match conn with
  | NTLS transport => NTLS (store_clock timeout transport)
  | NPlain half sc => NTunnel (mk_tunnelConn (Some timeout) false half sc)
  | NTunnel _ => NTunnel (mk_tunnelConn (Some timeout) false true false)
  end.

Section Tunnel.
Context {W : Type} `{TEnv W}.

Definition quietFor : TM W Z := tcall te_quiet TvQuiet.
Definition touch : TM W unit := tcall (fun w => (tt, te_touch w)) (fun _ => TvTouch).
Definition arm_read (d : option Z) : TM W (option error) := tcall (te_arm_read d) (TvArmRead d).
Definition arm_write (t : Z) : TM W (option error) := tcall (te_arm_write t) (TvArmWrite t).
Definition time_now : TM W Z := tcall te_now TvNow.
Definition conn_read : TM W (string * option error) := tcall te_read (fun r => TvRead r.1 r.2).
Definition conn_write (s : string) : TM W (nat * option error) :=
  tcall (te_write s) (fun r => TvWrite s r.1 r.2).

(** ** Copying one direction *)

(** The end of a round of [io.Copy], whose next round is [next]. *)
Definition io_after (next : nat -> TM W (nat * option error)) (readErr : option error) (total : nat)
    : TM W (nat * option error) :=
  match readErr with
  | Some e => if errors_is e KEOF then tret (total, None) else tret (total, Some e)
  | None => next total
  end.

(** [io.Copy(dst, src)], for a tunnel without an idle timeout. *)
Fixpoint io_copy (fuel : nat) (total : nat) : TM W (nat * option error) :=
  match fuel with
  | O => tfuel
  | S fuel =>
      r <~ conn_read ;;
      if (0 <? String.length r.1)%nat then
        wr <~ conn_write r.1 ;;
        match wr.2 with
        | Some e => tret ((total + wr.1)%nat, Some e)
        | None => if (wr.1 =? String.length r.1)%nat then io_after (io_copy fuel) r.2 (total + wr.1)
                  else tret ((total + wr.1)%nat, Some errShortWrite)
        end
      else io_after (io_copy fuel) r.2 total
  end.

(** The end of a round of [idleCopy], from its test of [readErr]. *)
Definition idle_after (next : nat -> TM W (nat * option error)) (timeout : Z)
    (readErr : option error) (total : nat) : TM W (nat * option error) :=
  match readErr with
  | None => next total
  | Some e =>
      _ <~ arm_read None ;;
      if isTimeoutError e then
        q <~ quietFor ;;
        if negb (idle timeout q) then next total
        else tret (total, Some errTunnelIdle)
      else if errors_is e KEOF then tret (total, None)
      else tret (total, Some e)
  end.

(** The loop of [idleCopy]. *)
Fixpoint idle_loop (fuel : nat) (timeout : Z) (total : nat) : TM W (nat * option error) :=
  match fuel with
  | O => tfuel
  | S fuel =>
      q <~ quietFor ;;
      if remaining timeout q <=? 0 then tret (total, Some errTunnelIdle)
      else
        _ <~ arm_read (Some (remaining timeout q)) ;;
        r <~ conn_read ;;
        if (0 <? String.length r.1)%nat then
          _ <~ touch ;;
          wr <~ conn_write r.1 ;;
          match wr.2 with
          | Some e => tret ((total + wr.1)%nat, Some e)
          | None => idle_after (idle_loop fuel timeout) timeout r.2 (total + wr.1)
          end
        else idle_after (idle_loop fuel timeout) timeout r.2 total
  end.

Definition idleCopy (fuel : nat) (timeout : Z) : TM W (nat * option error) :=
  if timeout <=? 0 then io_copy fuel 0 else idle_loop fuel timeout 0.

(** ** [tunnelConn] *)

(** [Read] *)
Fixpoint tunnel_read_loop (fuel : nat) (timeout : Z) : TM W (string * option error) :=
  match fuel with
  | O => tfuel
  | S fuel =>
      q <~ quietFor ;;
      let rem := remaining timeout q in
      if rem <=? 0 then tret ("", Some errTunnelIdle)
      else
        derr <~ arm_read (Some rem) ;;
        match derr with
        | Some e => tret ("", Some e)
        | None =>
            r <~ conn_read ;;
            let '(data, err) := r in
            _ <~ (if (0 <? String.length data)%nat then touch else tret tt) ;;
            match err with
            | Some e =>
                if isTimeoutError e then
                  q <~ quietFor ;;
                  if negb (idle timeout q) then
                    if (0 <? String.length data)%nat then tret (data, None)
                    else tunnel_read_loop fuel timeout
                  else tret (data, err)
                else tret (data, err)
            | None => tret (data, err)
            end
        end
  end.

Definition tunnel_read (fuel : nat) (c : tunnelConn) : TM W (string * option error) :=
  match tc_clock c with
  | None => conn_read
  | Some timeout => if timeout <=? 0 then conn_read else tunnel_read_loop fuel timeout
  end.

(** [writeTunnelBuffered] *)
Fixpoint buffered_loop (fuel : nat) (p : string) (timeout deadline : Z) : TM W (nat * option error) :=
  match fuel with
  | O => tfuel
  | S fuel =>
      now <~ time_now ;;
      let probe := now + Z.quot timeout 4 in
      let probe := if deadline <? probe then deadline else probe in
      derr <~ arm_write probe ;;
      match derr with
      | Some e => tret (O, Some e)
      | None =>
          r <~ conn_write p ;;
          let '(n, err) := r in
          match err with
          | Some e =>
              if isTimeoutError e then
                if (0 <? n)%nat then tret (n, None)
                else
                  now <~ time_now ;;
                  if now <? deadline then buffered_loop fuel p timeout deadline
                  else tret (n, err)
              else tret (n, err)
          | None => tret (n, err)
          end
      end
  end.

Definition writeTunnelBuffered (fuel : nat) (p : string) (timeout : Z) : TM W (nat * option error) :=
  now <~ time_now ;; buffered_loop fuel p timeout (now + timeout).

(** The closure given to [raw.Write], run until it is done: EINTR retries at
    once, EAGAIN waits for the socket. *)
Fixpoint raw_write (fuel : nat) (p : string) : TM W (nat * option error) :=
  match fuel with
  | O => tfuel
  | S fuel =>
      a <~ tcall (te_raw p) (TvRaw p) ;;
      match a with
      | RawWrote n => tret (n, None)
      | RawEINTR | RawEAGAIN => raw_write fuel p
      | RawErrno msg k => tret (O, Some (Err k ("write: " +:+ msg) None))
      | RawFailed e => tret (O, Some e)
      end
  end.

(** [writeTunnelChunk] on Unix: for a connection with a descriptor a single
    write system call, otherwise a buffered write. *)
Definition writeTunnelChunk (fuel : nat) (syscall_conn : bool) (p : string) (timeout : Z)
    : TM W (nat * option error) :=
  if negb syscall_conn then writeTunnelBuffered fuel p timeout
  else
    e <~ tcall te_syscall_conn TvSyscallConn ;;
    match e with
    | Some e => tret (O, Some e)
    | None => raw_write fuel p
    end.

(** [writeTunnelChunk] on other platforms. *)
Definition writeTunnelChunk_other (fuel : nat) (p : string) (timeout : Z) : TM W (nat * option error) :=
  writeTunnelBuffered fuel p timeout.

Definition write_chunk (fuel : nat) (unix syscall_conn : bool) (p : string) (timeout : Z)
    : TM W (nat * option error) :=
  if unix then writeTunnelChunk fuel syscall_conn p timeout else writeTunnelChunk_other fuel p timeout.

(** The loop of [tunnelConn.Write], for any chunk writer. *)
Fixpoint write_loop (fuel : nat) (chunk : string -> TM W (nat * option error)) (p : string)
    (timeout : Z) (total : nat) : TM W (nat * option error) :=
  match fuel with
  | O => tfuel
  | S fuel =>
      if (String.length p =? 0)%nat then tret (total, None)
      else
        now <~ time_now ;;
        derr <~ arm_write (now + timeout) ;;
        match derr with
        | Some e => tret (total, Some e)
        | None =>
            r <~ chunk p ;;
            let '(n, err) := r in
            _ <~ (if (0 <? n)%nat then touch else tret tt) ;;
            let total := (total + n)%nat in
            let p := str_drop n p in
            match err with
            | Some e => tret (total, Some e)
            | None => if (n =? 0)%nat then tret (total, Some errNoProgress)
                      else write_loop fuel chunk p timeout total
            end
        end
  end.

Definition tunnel_write (fuel : nat) (unix : bool) (c : tunnelConn) (p : string)
    : TM W (nat * option error) :=
  match tc_clock c with
  | None => conn_write p
  | Some timeout =>
      if (timeout <=? 0) || tc_writeClosed c then conn_write p
      else write_loop fuel (fun p => write_chunk fuel unix (tc_syscall_conn c) p timeout) p timeout 0
  end.

Definition call_CloseWrite : TM W (option error) := tcall te_close_write TvCloseWrite.
Definition store_writeClosed : TM W unit := tcall (fun w => (tt, w)) (fun _ => TvMarkClosed).

(** [tunnelConn.CloseWrite] *)
Definition tunnelConn_CloseWrite (c : tunnelConn) : TM W (option error) :=
  if tc_half_closer c then call_CloseWrite else tret None.

(** [upstreamTLSConn.CloseWrite]: the close_notify alert goes out under the
    tunnel's write deadline; only then is the write side marked closed. *)
Definition upstreamTLSConn_CloseWrite (transport : tunnelConn) : TM W (option error * tunnelConn) :=
  e <~ call_CloseWrite ;;
  _ <~ store_writeClosed ;;
  tret (e, mark_closed transport).

(** [upstreamTLSConn.Close] *)
Definition upstreamTLSConn_Close (transport : tunnelConn) : TM W (option error * tunnelConn) :=
  _ <~ store_writeClosed ;;
  e <~ tcall te_close TvClose ;;
  tret (e, mark_closed transport).

(** [closeWrite(conn)]: the error, and the connection afterwards. *)
Definition closeWrite (conn : net_conn) : TM W (option error * net_conn) :=
  match conn with
  | NPlain half sc => e <~ (if half then call_CloseWrite else tret None) ;; tret (e, conn)
  | NTunnel c => e <~ tunnelConn_CloseWrite c ;; tret (e, conn)
  | NTLS transport => r <~ upstreamTLSConn_CloseWrite transport ;; tret (r.1, NTLS r.2)
  end.

Definition forwardHalf (fuel : nat) (timeout : Z) (dst : net_conn) : TM W (option error * net_conn) :=
  r <~ idleCopy fuel timeout ;;
  match r.2 with
  | None => closeWrite dst
  | Some e => tret (Some e, dst)
  end.

End Tunnel.

(** ** Both directions *)

(** [forwardTunnel]: the two directions run until both have ended; one that
    ends in an error closes both connections. *)
Inductive side := SConn | SPeer.

Inductive teardown_ev := CloseTransport (c : side) | CloseSide (c : side).

(** The loop over both connections in [forward]; [tls] says which is an
    [upstreamTLSConn]. *)
Definition teardown (tls : side -> bool) : list teardown_ev :=
  [SConn; SPeer] ≫= fun c => (if tls c then [CloseTransport c] else []) ++ [CloseSide c].

(** The results of the two directions, named by their destination, and what
    has been closed. *)
Record tunnel_state := mk_tunnel_state {
  t_to_peer : option (option error);
  t_to_conn : option (option error);
  t_closed : list teardown_ev
}.

Definition close_after (tls : side -> bool) (r : option error) : list teardown_ev :=
  match r with None => [] | Some _ => teardown tls end.

Inductive tunnel_step (tls : side -> bool) : tunnel_state -> tunnel_state -> Prop :=
| finish_to_peer s r : t_to_peer s = None ->
    tunnel_step tls s (mk_tunnel_state (Some r) (t_to_conn s) (t_closed s ++ close_after tls r))
| finish_to_conn s r : t_to_conn s = None ->
    tunnel_step tls s (mk_tunnel_state (t_to_peer s) (Some r) (t_closed s ++ close_after tls r)).

Definition tunnel_start : tunnel_state := mk_tunnel_state None None [].

(** [wg.Wait] returns. *)
Definition forwardTunnel_returns (s : tunnel_state) : Prop :=
  t_to_peer s <> None /\ t_to_conn s <> None.
