(* ===== verification/TunnelThms.v ===== *)
(** * What a tunnel guarantees

    The copy loops lose, duplicate and reorder nothing, report success only at
    the end of the stream, and report idleness only when the clock says so;
    [tunnelConn.Write] keeps the contract of [io.Writer] its callers rely on. *)

From S2P Require Import Prelude GoStrings Errors TunnelClock Tunnel.

(** ** Logs *)

Definition read_of (e : tev) : string := match e with TvRead s _ => s | _ => "" end.
Definition written_of (e : tev) : string :=
  match e with
  | TvWrite s n _ => str_take n s
  | TvRaw s (RawWrote n) => str_take n s
  | _ => ""
  end.

(** The octets read and the octets accepted for writing, in order. *)
Definition bytes_read (l : list tev) : string := str_concat (read_of <$> l).
Definition bytes_written (l : list tev) : string := str_concat (written_of <$> l).

Lemma bytes_read_snoc l e : bytes_read (l ++ [e]) = bytes_read l +:+ read_of e.
Proof. unfold bytes_read. rewrite fmap_app, str_concat_app. cbn. by rewrite str_app_nil_r. Qed.

Lemma bytes_written_snoc l e : bytes_written (l ++ [e]) = bytes_written l +:+ written_of e.
Proof. unfold bytes_written. rewrite fmap_app, str_concat_app. cbn. by rewrite str_app_nil_r. Qed.

#[export] Hint Rewrite bytes_read_snoc bytes_written_snoc str_app_nil_r : tunnel_log.

(** Simplify what an event adds to both streams. *)
Ltac log_simpl := autorewrite with tunnel_log; cbn [read_of written_of]; rewrite ?str_app_nil_r.

(** ** A logic for the tunnel monad *)

(** From a log satisfying [P], a finished run ends in [Q], and a run cut short
    by its fuel in [R]. *)
Definition tspec {W A} (P : list tev -> Prop) (m : TM W A) (Q : A -> list tev -> Prop)
    (R : list tev -> Prop) : Prop :=
  forall w l, P l -> match m (mk_ts w l) with
                     | (Ok a, s) => Q a (ts_log s)
                     | (NoFuel, s) => R (ts_log s)
                     end.

Section Logic.
Context {W : Type}.

Lemma tspec_ret {A} (a : A) P (Q : A -> list tev -> Prop) R :
  (forall l, P l -> Q a l) -> tspec (W := W) P (tret a) Q R.
Proof. intros HQ w l Hl. by apply HQ. Qed.

Lemma tspec_bind {A B} (m : TM W A) (k : A -> TM W B) P Q' Q R :
  tspec P m Q' R -> (forall a, tspec (Q' a) (k a) Q R) -> tspec P (tbind m k) Q R.
Proof.
  intros Hm Hk w l Hl. unfold tbind. specialize (Hm w l Hl).
  destruct (m (mk_ts w l)) as [[a|] [w' l']]; [by apply Hk|done].
Qed.

Lemma tspec_call {X} (f : W -> X * W) ev P (Q : X -> list tev -> Prop) R :
  (forall w x w' l, f w = (x, w') -> P l -> Q x (l ++ [ev x])) -> tspec P (tcall f ev) Q R.
Proof.
  intros HQ w l Hl. unfold tcall. cbn. destruct (f w) as [x w'] eqn:E. by eapply HQ.
Qed.

Lemma tspec_conseq {A} (m : TM W A) P P' Q Q' R R' :
  tspec P' m Q' R' -> (forall l, P l -> P' l) -> (forall a l, Q' a l -> Q a l) ->
  (forall l, R' l -> R l) -> tspec P m Q R.
Proof.
  intros Hm HP HQ HR w l Hl. specialize (Hm w l (HP l Hl)).
  destruct (m (mk_ts w l)) as [[a|] s]; auto.
Qed.

Lemma tspec_pre {A} (m : TM W A) P P' Q R :
  tspec P' m Q R -> (forall l, P l -> P' l) -> tspec P m Q R.
Proof. intros Hm HP w l Hl. by apply Hm, HP. Qed.

Lemma tspec_and {A} (m : TM W A) P P' Q Q' R R' :
  tspec P m Q R -> tspec P' m Q' R' ->
  tspec (fun l => P l /\ P' l) m (fun a l => Q a l /\ Q' a l) (fun l => R l /\ R' l).
Proof.
  intros H1 H2 w l [Hl Hl']. specialize (H1 w l Hl). specialize (H2 w l Hl').
  by destruct (m (mk_ts w l)) as [[a|] s].
Qed.

Lemma tspec_fuel {A} P (Q : A -> list tev -> Prop) (R : list tev -> Prop) :
  (forall l, P l -> R l) -> tspec (W := W) P tfuel Q R.
Proof. intros HR w l Hl. by apply HR. Qed.

End Logic.

(** The contract of [io.Writer] for the destination, and of the write system
    call: no more is accepted than was given, and less only with an error. *)
Class WriterLaws (W : Type) `{TEnv W} : Prop := {
  law_write : forall s w n e w', te_write s w = ((n, e), w') ->
    (n <= String.length s)%nat /\ ((n < String.length s)%nat -> e <> None);
  law_raw : forall s w n w', te_raw s w = (RawWrote n, w') -> (n <= String.length s)%nat
}.

Section Theorems.
Context {W : Type} `{TEnv W} {Laws : WriterLaws W}.

(** ** Copying *)

(** Both streams agree, and [total] counts them. *)
Definition in_step (total : nat) (l : list tev) : Prop :=
  bytes_written l = bytes_read l /\ String.length (bytes_written l) = total.

(** An event that neither reads nor writes. *)
Definition silent (e : tev) : Prop :=
  match e with TvRead _ _ | TvWrite _ _ _ | TvRaw _ _ => False | _ => True end.

Lemma in_step_silent total l e : silent e -> in_step total l -> in_step total (l ++ [e]).
Proof. intros He [H1 H2]. unfold in_step. destruct e; try done; log_simpl; done. Qed.

Lemma spec_silent {X} (f : W -> X * W) ev total R :
  (forall x, silent (ev x)) ->
  tspec (in_step total) (tcall f ev) (fun _ => in_step total) R.
Proof. intros He. apply tspec_call. intros w x w' l _. by apply in_step_silent. Qed.

(** What was written is what was read up to a point, and [total] counts it. *)
Definition prefix_of_read (total : nat) (l : list tev) : Prop :=
  (exists rest, bytes_read l = bytes_written l +:+ rest) /\ String.length (bytes_written l) = total.

Lemma in_step_prefix total l : in_step total l -> prefix_of_read total l.
Proof. intros [H1 H2]. split; [exists ""; by rewrite str_app_nil_r|done]. Qed.

(** The outcome of a copy. *)
Definition copied (r : nat * option error) (l : list tev) : Prop :=
  prefix_of_read r.1 l /\ (r.2 = None -> in_step r.1 l).

(** After a read of [data]: [data] is still to be written. *)
Definition owing (total : nat) (data : string) (l : list tev) : Prop :=
  bytes_read l = bytes_written l +:+ data /\ String.length (bytes_written l) = total.

Lemma spec_read total R :
  tspec (in_step total) conn_read (fun r => owing total r.1) R.
Proof.
  apply tspec_call. intros w r w' l _ [H1 H2]. unfold owing. log_simpl. by rewrite <- H1.
Qed.

Lemma spec_touch total data R :
  tspec (owing total data) touch (fun _ => owing total data) R.
Proof. apply tspec_call. intros w x w' l _ [H1 H2]. unfold owing. by log_simpl. Qed.

Lemma spec_write total data R :
  tspec (owing total data) (conn_write data)
    (fun r l => prefix_of_read (total + r.1) l /\ (r.2 = None -> in_step (total + r.1) l) /\
                (r.1 = String.length data -> in_step (total + r.1) l)) R.
Proof.
  apply tspec_call. intros w [n e] w' l Hw [H1 H2]. destruct (law_write _ _ _ _ _ Hw) as [Hn Hs]. cbn.
  pose proof (str_length_take n data Hn) as Hlen.
  assert (Hfull : n = String.length data -> in_step (total + n) (l ++ [TvWrite data n e])).
  { intros ->. unfold in_step. log_simpl. rewrite str_length_app, str_take_full, H1. split; [done|lia]. }
  split_and!; [split| |done].
  - exists (str_drop n data). log_simpl. by rewrite H1, <- str_app_assoc, str_take_drop.
  - log_simpl. rewrite str_length_app, Hlen. lia.
  - intros He. apply Hfull. destruct (decide (n = String.length data)) as [|Hne]; [done|].
    exfalso. apply Hs; [lia|done].
Qed.

(** A copy cut short. *)
Definition partial (l : list tev) : Prop := exists n, prefix_of_read n l.

Lemma copied_stop total e l : prefix_of_read total l -> copied (total, Some e) l.
Proof. by split. Qed.

Lemma copied_done total l : in_step total l -> copied (total, None) l.
Proof. intros Hl. split; [by apply in_step_prefix|done]. Qed.

Lemma owing_nil total l : owing total "" l -> in_step total l.
Proof. intros [H1 H2]. rewrite str_app_nil_r in H1. by split. Qed.

Lemma not_positive data : (0 <? String.length data)%nat = false -> data = "".
Proof. by destruct data. Qed.

Ltac step_silent := eapply tspec_bind; [apply spec_silent; done|intros ?; cbn beta].

Lemma spec_idle_after next timeout readErr total :
  (forall n, tspec (in_step n) (next n) copied partial) ->
  tspec (in_step total) (idle_after next timeout readErr total) copied partial.
Proof.
  intros Hnext. unfold idle_after. destruct readErr as [e|]; [|apply Hnext]. step_silent. case_match.
  - step_silent. case_match; [apply Hnext|]. apply tspec_ret. intros l Hl. by apply copied_stop, in_step_prefix.
  - case_match; apply tspec_ret; intros l Hl; [by apply copied_done|by apply copied_stop, in_step_prefix].
Qed.

Lemma spec_idle_loop fuel timeout total :
  tspec (in_step total) (idle_loop fuel timeout total) copied partial.
Proof using Laws.
  revert total. induction fuel as [|fuel IH]; intros total; cbn [idle_loop].
  { apply tspec_fuel. intros l Hl. exists total. by apply in_step_prefix. }
  step_silent. case_match.
  { apply tspec_ret. intros l Hl. by apply copied_stop, in_step_prefix. }
  step_silent. eapply tspec_bind; [apply spec_read|]. intros [data readErr]. cbn [fst snd].
  destruct (0 <? String.length data)%nat eqn:Ed.
  - eapply tspec_bind; [apply spec_touch|]. intros [].
    eapply tspec_bind; [apply spec_write|]. intros [nw [e|]]; cbn [fst snd].
    + apply tspec_ret. intros l (Hp & _). by apply copied_stop.
    + eapply tspec_pre; [by apply spec_idle_after|]. intros l (_ & Hn & _). by apply Hn.
  - apply not_positive in Ed as ->. eapply tspec_pre; [by apply spec_idle_after|]. apply owing_nil.
Qed.

Lemma spec_io_copy fuel total :
  tspec (in_step total) (io_copy fuel total) copied partial.
Proof using Laws.
  revert total. induction fuel as [|fuel IH]; intros total; cbn [io_copy].
  { apply tspec_fuel. intros l Hl. exists total. by apply in_step_prefix. }
  eapply tspec_bind; [apply spec_read|]. intros [data readErr]. cbn [fst snd].
  assert (Hfin : forall n, tspec (in_step n) (io_after (io_copy fuel) readErr n) copied partial).
  { intros n. unfold io_after. destruct readErr as [e|]; [|apply IH].
    case_match; apply tspec_ret; intros l Hl; [by apply copied_done|by apply copied_stop, in_step_prefix]. }
  destruct (0 <? String.length data)%nat eqn:Ed.
  - eapply tspec_bind; [apply spec_write|]. intros [nw [e|]]; cbn [fst snd].
    + apply tspec_ret. intros l (Hp & _). by apply copied_stop.
    + case_match; [eapply tspec_pre; [apply Hfin|]; intros l (_ & Hn & _); by apply Hn|].
      apply tspec_ret. intros l (Hp & _). by apply copied_stop.
  - apply not_positive in Ed as ->. eapply tspec_pre; [apply Hfin|]. apply owing_nil.
Qed.

(** C20 (copy_faithful): one direction of a tunnel copies faithfully.  However the two connections
    behave and whenever the copy ends, the octets written are an initial part
    of the octets read, in order, and their number is the count returned; when
    the copy ends without an error, everything read was written. *)
Theorem copy_faithful fuel timeout w :
  let '(r, s) := idleCopy fuel timeout (mk_ts w []) in
  (exists rest, bytes_read (ts_log s) = bytes_written (ts_log s) +:+ rest) /\
  match r with
  | Ok (total, err) =>
      String.length (bytes_written (ts_log s)) = total /\
      (err = None -> bytes_written (ts_log s) = bytes_read (ts_log s))
  | NoFuel => True
  end.
Proof using Laws.
  assert (Hspec : tspec (in_step 0) (idleCopy fuel timeout) copied partial).
  { unfold idleCopy. case_match; [apply spec_io_copy|apply spec_idle_loop]. }
  specialize (Hspec w []). destruct (idleCopy fuel timeout (mk_ts w [])) as [[[total err]|] s].
  - destruct Hspec as [[Hp Hn] Hd]; [done|]. split_and!; [done..|]. intros He. by destruct (Hd He).
  - destruct Hspec as [n [Hp _]]; done.
Qed.

(** ** Why a copy ends *)

(** The events that explain the outcome of a copy with an idle timeout. *)
Definition explained (timeout : Z) (r : nat * option error) (l : list tev) : Prop :=
  match r.2 with
  | None => exists s e, TvRead s (Some e) ∈ l /\ errors_is e KEOF = true /\ isTimeoutError e = false
  | Some e =>
      (e = errTunnelIdle /\ exists q, TvQuiet q ∈ l /\ (remaining timeout q <= 0 \/ timeout <= q)) \/
      (exists s n, TvWrite s n (Some e) ∈ l) \/
      (exists s, TvRead s (Some e) ∈ l /\ errors_is e KEOF = false /\ isTimeoutError e = false)
  end.

Lemma spec_logged {X} (f : W -> X * W) ev P R :
  (forall l e, P l -> P (l ++ [e])) ->
  tspec P (tcall f ev) (fun x l => P l /\ ev x ∈ l) R.
Proof.
  intros HP. apply tspec_call. intros w x w' l _ Hl. split; [by apply HP|].
  apply elem_of_app. right. by apply list_elem_of_singleton.
Qed.

Lemma grows_elem (e : tev) l x : e ∈ l -> e ∈ l ++ [x].
Proof. intros. apply elem_of_app. by left. Qed.

Lemma spec_any {X} (f : W -> X * W) ev (P : list tev -> Prop) R :
  (forall l e, P l -> P (l ++ [e])) -> tspec P (tcall f ev) (fun _ => P) R.
Proof. intros HP. apply tspec_call. intros w x w' l _ Hl. by apply HP. Qed.

Lemma spec_idle_after_explained next timeout readErr total (s : string) :
  (forall n, tspec (fun _ => True) (next n) (explained timeout) (fun _ => True)) ->
  tspec (fun l => TvRead s readErr ∈ l) (idle_after next timeout readErr total) (explained timeout) (fun _ => True).
Proof.
  intros Hnext. unfold idle_after. destruct readErr as [e|].
  2: { eapply tspec_pre; [apply Hnext|done]. }
  eapply tspec_bind; [apply spec_any; intros l x; apply grows_elem|]. intros ?; cbn beta.
  destruct (isTimeoutError e) eqn:Et.
  - eapply tspec_bind; [apply spec_logged; intros l x; apply grows_elem|]. intros q.
    destruct (idle timeout q) eqn:Ei; cbn [negb]; [|eapply tspec_pre; [apply Hnext|done]].
    apply tspec_ret. intros l [_ Hq]. left. split; [done|]. exists q. split; [done|]. right. by apply Z.leb_le.
  - destruct (errors_is e KEOF) eqn:Ee; apply tspec_ret; intros l Hl.
    + by exists s, e.
    + right. right. by exists s.
Qed.

Lemma spec_idle_explained fuel timeout total :
  tspec (fun _ => True) (idle_loop fuel timeout total) (explained timeout) (fun _ => True).
Proof.
  revert total. induction fuel as [|fuel IH]; intros total; cbn [idle_loop]; [by apply tspec_fuel|].
  eapply tspec_bind; [by apply spec_logged|]. intros q. destruct (Z.leb_spec (remaining timeout q) 0).
  { apply tspec_ret. intros l [_ Hq]. left. split; [done|]. exists q. auto. }
  eapply tspec_bind; [eapply tspec_pre; [by apply (spec_any _ _ (fun _ => True))|done]|]. intros ?; cbn beta.
  eapply tspec_bind; [by apply spec_logged|]. intros [data readErr]. cbn [fst snd].
  case_match.
  - eapply tspec_bind.
    { eapply tspec_pre; [apply (spec_any _ _ (fun l => TvRead data readErr ∈ l)); intros l x; apply grows_elem|].
      by intros l [_ ?]. }
    intros ?; cbn beta. eapply tspec_bind; [apply spec_logged; intros l x; apply grows_elem|].
    intros [nw [e|]]; cbn [fst snd].
    + apply tspec_ret. intros l [_ Hw]. right. left. by exists data, nw.
    + eapply tspec_pre; [by apply (spec_idle_after_explained _ _ _ _ data)|]. by intros l [? _].
  - eapply tspec_pre; [by apply (spec_idle_after_explained _ _ _ _ data)|]. by intros l [_ ?].
Qed.

(** C24 (copy_ends_for_a_reason): why a direction ends.  With an idle timeout, a copy succeeds only at the
    end of the source's stream; it ends in [errTunnelIdle] only when the clock
    showed no progress for the timeout; any other error is one a write
    returned, or a read error that is neither the end of the stream nor a
    timeout.  In particular a read that times out while the other direction
    moves data never ends the copy. *)
Theorem copy_ends_for_a_reason fuel timeout w r s :
  0 < timeout -> idleCopy fuel timeout (mk_ts w []) = (Ok r, s) -> explained timeout r (ts_log s).
Proof.
  intros Ht E. unfold idleCopy in E. destruct (Z.leb_spec timeout 0); [lia|].
  pose proof (spec_idle_explained fuel timeout 0 w [] I) as Hs. by rewrite E in Hs.
Qed.

(** ** Half-close *)

(** An event of a copy loop. *)
Definition copying (e : tev) : Prop :=
  match e with TvCloseWrite _ | TvMarkClosed | TvClose _ => False | _ => True end.

(** A log of a copy loop that has read the end of the stream. *)
Definition saw_eof (l : list tev) : Prop := exists s e, TvRead s (Some e) ∈ l /\ errors_is e KEOF = true.

Definition ended (r : nat * option error) (l : list tev) : Prop :=
  Forall copying l /\ (r.2 = None -> saw_eof l).

Lemma spec_copying {X} (f : W -> X * W) ev R :
  (forall x, copying (ev x)) ->
  tspec (Forall copying) (tcall f ev) (fun x l => Forall copying l /\ ev x ∈ l) R.
Proof.
  intros He. apply tspec_call. intros w x w' l _ Hl. split.
  - apply Forall_app_2; [done|]. by constructor.
  - apply elem_of_app. right. by apply list_elem_of_singleton.
Qed.

Lemma spec_copying_after {X} (f : W -> X * W) ev (y : tev) R :
  (forall x, copying (ev x)) ->
  tspec (fun l => Forall copying l /\ y ∈ l) (tcall f ev) (fun _ l => Forall copying l /\ y ∈ l) R.
Proof.
  intros He. apply tspec_call. intros w x w' l _ [Hl Hy]. split; [|by apply grows_elem].
  apply Forall_app_2; [done|]. by constructor.
Qed.

Ltac step_copying := eapply tspec_bind; [apply spec_copying_after; done|intros ?; cbn beta].

(** The end of a round after a read that gave [readErr], for both loops. *)
Lemma spec_after_ended data readErr (after : TM W (nat * option error)) (next : TM W (nat * option error)) :
  tspec (Forall copying) next ended (fun _ => True) ->
  match readErr with
  | None => after = next
  | Some e => tspec (fun l => Forall copying l /\ TvRead data (Some e) ∈ l) after ended (fun _ => True)
  end ->
  tspec (fun l => Forall copying l /\ TvRead data readErr ∈ l) after ended (fun _ => True).
Proof.
  intros Hn Ha. destruct readErr as [e|]; [exact Ha|]. subst. eapply tspec_pre; [exact Hn|]. by intros l [? _].
Qed.

Lemma eof_ended total data e l :
  errors_is e KEOF = true -> Forall copying l /\ TvRead data (Some e) ∈ l -> ended (total, None) l.
Proof. intros He [? ?]. split; [done|]. intros _. by exists data, e. Qed.

Lemma spec_idle_loop_ended fuel timeout total :
  tspec (Forall copying) (idle_loop fuel timeout total) ended (fun _ => True).
Proof.
  revert total. induction fuel as [|fuel IH]; intros total; cbn [idle_loop]; [by apply tspec_fuel|].
  eapply tspec_bind; [by apply spec_copying|]. intros q. cbn beta. case_match; [apply tspec_ret; by intros l [? _]|].
  step_copying. eapply tspec_bind.
  { eapply tspec_pre; [by apply spec_copying|]. by intros l [? _]. }
  intros [data readErr]. cbn [fst snd].
  assert (Hafter : forall n, tspec (fun l => Forall copying l /\ TvRead data readErr ∈ l)
    (idle_after (idle_loop fuel timeout) timeout readErr n) ended (fun _ => True)).
  { intros n. apply (spec_after_ended _ _ _ (idle_loop fuel timeout n)); [apply IH|]. destruct readErr as [e|]; [|done].
    unfold idle_after. step_copying. case_match.
    - step_copying. case_match; [|apply tspec_ret; by intros l [? _]].
      eapply tspec_pre; [apply IH|]. by intros l [? _].
    - destruct (errors_is e KEOF) eqn:Ee; apply tspec_ret; [intros l; by apply eof_ended|by intros l [? _]]. }
  case_match; [|apply Hafter]. step_copying. step_copying. case_match; [apply tspec_ret; by intros l [? _]|apply Hafter].
Qed.

Lemma spec_io_copy_ended fuel total :
  tspec (Forall copying) (io_copy fuel total) ended (fun _ => True).
Proof.
  revert total. induction fuel as [|fuel IH]; intros total; cbn [io_copy]; [by apply tspec_fuel|].
  eapply tspec_bind; [by apply spec_copying|]. intros [data readErr]. cbn [fst snd].
  assert (Hafter : forall n, tspec (fun l => Forall copying l /\ TvRead data readErr ∈ l)
    (io_after (io_copy fuel) readErr n) ended (fun _ => True)).
  { intros n. apply (spec_after_ended _ _ _ (io_copy fuel n)); [apply IH|]. destruct readErr as [e|]; [|done].
    unfold io_after. destruct (errors_is e KEOF) eqn:Ee; apply tspec_ret; [intros l; by apply eof_ended|by intros l [? _]]. }
  case_match; [|apply Hafter]. step_copying.
  repeat case_match; [apply tspec_ret; by intros l [? _]|apply Hafter|apply tspec_ret; by intros l [? _]].
Qed.

(** The calls of [closeWrite] on a destination. *)
Definition half_close (dst : net_conn) (e : option error) : list tev :=
  match dst with
  | NPlain half _ => if half then [TvCloseWrite e] else []
  | NTunnel c => if tc_half_closer c then [TvCloseWrite e] else []
  | NTLS _ => [TvCloseWrite e; TvMarkClosed]
  end.

Lemma closeWrite_log dst w l :
  exists e dst' w', closeWrite dst (mk_ts w l) = (Ok (e, dst'), mk_ts w' (l ++ half_close dst e)) /\
    (half_close dst e = [] -> e = None).
Proof.
  destruct dst as [half sc|c|tr]; cbn; unfold tunnelConn_CloseWrite, upstreamTLSConn_CloseWrite,
    call_CloseWrite, store_writeClosed, tcall, tbind, tret; cbn.
  - destruct half; cbn; [|rewrite app_nil_r; by eexists _, _, _].
    destruct (te_close_write w) as [e w']. by eexists _, _, _.
  - destruct (tc_half_closer c); cbn; [|rewrite app_nil_r; by eexists _, _, _].
    destruct (te_close_write w) as [e w']. by eexists _, _, _.
  - destruct (te_close_write w) as [e w']. cbn. rewrite <- app_assoc. by eexists _, _, _.
Qed.

(** C23 (half_close_after_eof): half-close.  A direction half-closes its destination exactly once, as its
    last act, and only after it has read the end of the source's stream and
    written everything it read; a TLS destination is marked closed for writing
    only after its close_notify was sent.  A direction that fails half-closes
    nothing and reports the error. *)
Theorem half_close_after_eof fuel timeout dst w err dst' s :
  forwardHalf fuel timeout dst (mk_ts w []) = (Ok (err, dst'), s) ->
  (Forall copying (ts_log s) /\ err <> None /\ dst' = dst) \/
  exists l, ts_log s = l ++ half_close dst err /\ Forall copying l /\ saw_eof l /\
    bytes_written l = bytes_read l.
Proof using Laws.
  assert (Hspec : tspec (fun l => in_step 0 l /\ Forall copying l) (idleCopy fuel timeout)
    (fun r l => copied r l /\ ended r l) (fun l => partial l /\ True)).
  { unfold idleCopy. case_match; apply tspec_and.
    - apply spec_io_copy.
    - apply spec_io_copy_ended.
    - apply spec_idle_loop.
    - apply spec_idle_loop_ended. }
  unfold forwardHalf, tbind. specialize (Hspec w []).
  destruct (idleCopy fuel timeout (mk_ts w [])) as [[[total [e|]]|] [w' l]]; [..|done]; cbn [fst snd].
  - intros [= <- <- <-]. left. destruct Hspec as [_ [? _]]; [by repeat constructor|]. done.
  - destruct Hspec as [[_ Hs] [Hc He]]; [by repeat constructor|].
    destruct (closeWrite_log dst w' l) as (e & d & w2 & -> & _). intros [= <- <- <-]. right.
    exists l. split_and!; [done..|by apply He|]. by destruct (Hs eq_refl).
Qed.

(** ** Writing *)

(** After writing [n] octets of [p] on top of [w0]. *)
Definition wrote (w0 p : string) (n : nat) (l : list tev) : Prop :=
  (n <= String.length p)%nat /\ bytes_written l = w0 +:+ str_take n p.

Definition wrote_some (w0 p : string) (l : list tev) : Prop := exists n, wrote w0 p n l.

(** What a chunk writer promises. *)
Definition chunk_spec (chunk : string -> TM W (nat * option error)) : Prop :=
  forall w0 p, tspec (wrote w0 p 0) (chunk p) (fun r => wrote w0 p r.1) (wrote_some w0 p).

Definition no_write (e : tev) : Prop :=
  match e with TvWrite _ _ _ | TvRaw _ (RawWrote _) => False | _ => True end.

Lemma wrote_more w0 p n l e : no_write e -> wrote w0 p n l -> wrote w0 p n (l ++ [e]).
Proof.
  intros He [H1 H2]. split; [done|]. log_simpl. destruct e as [| | | | | | | | | | |? []]; cbn in *; try done;
    by rewrite str_app_nil_r.
Qed.

Lemma spec_nowrite {X} (f : W -> X * W) ev w0 p n R :
  (forall x, no_write (ev x)) -> tspec (wrote w0 p n) (tcall f ev) (fun _ => wrote w0 p n) R.
Proof. intros He. apply tspec_call. intros w x w' l _. by apply wrote_more. Qed.

Lemma wrote_start w0 p l : wrote w0 p 0 l <-> bytes_written l = w0.
Proof. unfold wrote. cbn [str_take]. rewrite str_app_nil_r. split; [by intros [_ ?]|]. intros ->. split; [lia|done]. Qed.

Lemma spec_conn_write w0 p R :
  tspec (wrote w0 p 0) (conn_write p)
    (fun r l => wrote w0 p r.1 l /\ ((r.1 < String.length p)%nat -> r.2 <> None)) R.
Proof using Laws.
  apply tspec_call. intros w [n e] w' l Hw Hl%wrote_start. destruct (law_write _ _ _ _ _ Hw) as [Hn Hs].
  cbn. split; [|done]. split; [done|]. log_simpl. by rewrite Hl.
Qed.

Ltac step_nowrite := eapply tspec_bind; [apply spec_nowrite; done|intros ?; cbn beta].

Lemma spec_buffered fuel timeout : chunk_spec (fun p => writeTunnelBuffered fuel p timeout).
Proof using Laws.
  intros w0 p. unfold writeTunnelBuffered. step_nowrite. generalize (a + timeout) as deadline. intros deadline.
  induction fuel as [|fuel IH]; cbn [buffered_loop]; [apply tspec_fuel; intros l Hl; by exists O|].
  step_nowrite. step_nowrite. destruct a1 as [e|]; [by apply tspec_ret|].
  eapply tspec_bind; [apply spec_conn_write|]. intros [n [e|]]; cbn [fst snd].
  2: { apply tspec_ret. by intros l [? _]. }
  destruct (isTimeoutError e); [|apply tspec_ret; by intros l [? _]].
  destruct n as [|n]; cbn [Nat.ltb Nat.leb]; [|apply tspec_ret; by intros l [? _]].
  eapply tspec_bind; [eapply tspec_pre; [apply (spec_nowrite _ _ w0 p 0); done|by intros l [? _]]|].
  intros ?; cbn beta. case_match; [apply IH|by apply tspec_ret].
Qed.

Lemma spec_raw fuel : chunk_spec (raw_write fuel).
Proof using Laws.
  intros w0 p. induction fuel as [|fuel IH]; cbn [raw_write]; [apply tspec_fuel; intros l Hl; by exists O|].
  eapply tspec_bind with (Q' := fun a l => match a with RawWrote n => wrote w0 p n l | _ => wrote w0 p 0 l end).
  - apply tspec_call. intros w a w' l Ha Hl. destruct a as [n| | | |]; try (by apply wrote_more).
    apply wrote_start in Hl. split; [by eapply law_raw|]. log_simpl. by rewrite Hl.
  - intros [n| | | |]; try apply IH; by apply tspec_ret.
Qed.

Lemma spec_chunk fuel unix sc timeout : chunk_spec (fun p => write_chunk fuel unix sc p timeout).
Proof using Laws.
  intros w0 p. unfold write_chunk, writeTunnelChunk. destruct unix, sc; cbn [negb]; try apply spec_buffered.
  step_nowrite. case_match; [by apply tspec_ret|apply spec_raw].
Qed.

Lemma wrote_chunk w0 p0 total n l :
  (total <= String.length p0)%nat -> wrote (w0 +:+ str_take total p0) (str_drop total p0) n l ->
  wrote w0 p0 (total + n) l.
Proof.
  intros Ht [Hn Hw]. rewrite str_length_drop in Hn. split; [lia|].
  by rewrite Hw, str_take_add, str_app_assoc.
Qed.

Lemma spec_write_loop fuel chunk p0 timeout w0 total :
  chunk_spec chunk ->
  tspec (wrote w0 p0 total) (write_loop fuel chunk (str_drop total p0) timeout total)
    (fun r l => wrote w0 p0 r.1 l /\ (r.2 = None -> r.1 = String.length p0)) (wrote_some w0 p0).
Proof.
  intros Hchunk. revert total. induction fuel as [|fuel IH]; intros total; cbn [write_loop].
  { apply tspec_fuel. intros l Hl. by exists total. }
  rewrite str_length_drop. destruct (Nat.eqb_spec (String.length p0 - total) 0) as [Hz|Hz].
  { apply tspec_ret. intros l Hl. split; [done|]. intros _. destruct Hl as [Hl _]. cbn. lia. }
  step_nowrite. step_nowrite. destruct a0 as [e|]; [by apply tspec_ret|].
  assert (Ht : (total <= String.length p0)%nat) by lia.
  eapply tspec_bind with (Q' := fun r => wrote w0 p0 (total + r.1)).
  - eapply tspec_conseq; [apply (Hchunk (w0 +:+ str_take total p0))| | |].
    + intros l [_ Hl]. by apply wrote_start.
    + intros r l. by apply wrote_chunk.
    + intros l [n Hl]. exists (total + n)%nat. by apply wrote_chunk.
  - intros [n err]. cbn [fst snd].
    eapply tspec_bind with (Q' := fun _ => wrote w0 p0 (total + n)).
    { case_match; [by apply spec_nowrite|by apply tspec_ret]. }
    intros []. destruct err as [e|]; [by apply tspec_ret|].
    destruct (Nat.eqb_spec n 0); [by apply tspec_ret|]. rewrite str_drop_drop. apply IH.
Qed.

(** C25 (tunnel_write_contract): [tunnelConn.Write] keeps the contract of [io.Writer], with or without
    a clock, on Unix and elsewhere: what the kernel accepted is exactly the
    first [n] octets of [p], in order, and [n] is less than the length of [p]
    only together with an error. *)
Theorem tunnel_write_contract fuel unix c p w :
  let '(r, s) := tunnel_write fuel unix c p (mk_ts w []) in
  match r with
  | Ok (n, err) =>
      (n <= String.length p)%nat /\ bytes_written (ts_log s) = str_take n p /\
      ((n < String.length p)%nat -> err <> None)
  | NoFuel => exists n, bytes_written (ts_log s) = str_take n p
  end.
Proof using Laws.
  assert (Hspec : tspec (wrote "" p 0) (tunnel_write fuel unix c p)
    (fun r l => wrote "" p r.1 l /\ ((r.1 < String.length p)%nat -> r.2 <> None)) (wrote_some "" p)).
  { unfold tunnel_write. destruct (tc_clock c) as [timeout|]; [|apply spec_conn_write].
    case_match; [apply spec_conn_write|].
    eapply tspec_conseq; [apply (spec_write_loop fuel _ p timeout "" 0), spec_chunk|done| |done].
    intros r l [Hl Hn]. split; [done|]. intros Hlt He. rewrite (Hn He) in Hlt. lia. }
  specialize (Hspec w []). destruct (tunnel_write _ _ _ _ _) as [[[n err]|] s].
  - destruct Hspec as [[Hn Hw] He]; [by apply wrote_start|]. done.
  - destruct Hspec as [n [_ Hw]]; [by apply wrote_start|]. by exists n.
Qed.

End Theorems.

(** ** Both directions *)

Definition failed (r : option (option error)) : Prop := exists e, r = Some (Some e).

Lemma teardown_closes tls c : CloseSide c ∈ teardown tls.
Proof. unfold teardown. destruct c; cbn; destruct (tls SConn), (tls SPeer); set_solver. Qed.

Definition teardown_inv (s : tunnel_state) : Prop :=
  (failed (t_to_peer s) \/ failed (t_to_conn s) -> forall c, CloseSide c ∈ t_closed s) /\
  (~ failed (t_to_peer s) -> ~ failed (t_to_conn s) -> t_closed s = []).

Lemma teardown_inv_step tls s s' : teardown_inv s -> tunnel_step tls s s' -> teardown_inv s'.
Proof.
  intros [H1 H2] Hs. destruct Hs as [s r Hn|s r Hn]; (split; cbn; [|intros Ha Hb]).
  - intros Hf c. apply elem_of_app. destruct r as [e|]; [right; apply teardown_closes|].
    left. apply H1. destruct Hf as [[e [=]]|?]; by right.
  - destruct r as [e|]; [destruct Ha; by exists e|]. cbn. rewrite app_nil_r. apply H2; [|done].
    intros [e He]. congruence.
  - intros Hf c. apply elem_of_app. destruct r as [e|]; [right; apply teardown_closes|].
    left. apply H1. destruct Hf as [?|[e [=]]]; by left.
  - destruct r as [e|]; [destruct Hb; by exists e|]. cbn. rewrite app_nil_r. apply H2; [done|].
    intros [e He]. congruence.
Qed.

(** the end of a tunnel.  When [forwardTunnel] returns, both directions have
    ended; if one failed, both connections have been closed, and if both
    reached the end of their stream nothing was closed, only half-closed, so
    that no direction cuts off the other. *)
Theorem tunnel_teardown tls s :
  rtc (tunnel_step tls) tunnel_start s -> forwardTunnel_returns s ->
  (t_to_peer s = Some None /\ t_to_conn s = Some None /\ t_closed s = []) \/
  ((failed (t_to_peer s) \/ failed (t_to_conn s)) /\ forall c, CloseSide c ∈ t_closed s).
Proof.
  intros Hr [Hp Hc]. assert (Hi : teardown_inv s).
  { assert (H0 : teardown_inv tunnel_start) by (split; [by intros [[e [=]]|[e [=]]]|done]).
    revert H0. clear Hp Hc. induction Hr as [|x y z Hxy _ IH]; [done|]. intros Hx.
    by apply IH, (teardown_inv_step tls x). }
  destruct Hi as [H1 H2]. destruct (t_to_peer s) as [[e|]|] eqn:Ep; [|destruct (t_to_conn s) as [[e|]|] eqn:Ec|done].
  - right. split; [left; by exists e|]. apply H1. left. by exists e.
  - right. split; [right; by exists e|]. apply H1. right. by exists e.
  - left. split_and!; [done..|]. apply H2; by intros [e [=]].
  - done.
Qed.
