(* ===== verification/TunnelHalt.v ===== *)
(** * Tunnel copies end

    The loops of a tunnel go on as long as their connections keep answering
    with something to retry: octets or timeouts on a read, EINTR, EAGAIN or a
    timeout without progress on a write.  [TBudget] bounds how often that
    happens; more fuel than that is enough.  A scripted environment shows that
    the laws hold of executable connections and gives concrete runs. *)

From S2P Require Import Prelude GoStrings Errors TunnelClock Tunnel TunnelThms.

(** A read after which a copy goes on. *)
Definition read_retries (r : string * option error) : Prop :=
  match r.2 with None => True | Some e => isTimeoutError e = true end.

(** A buffered write that is tried again. *)
Definition write_retries (r : nat * option error) : Prop :=
  r.1 = O /\ exists e, r.2 = Some e /\ isTimeoutError e = true.

Definition raw_retries (a : raw_attempt) : Prop := a = RawEINTR \/ a = RawEAGAIN.

Class TBudget (W : Type) `{TEnv W} := {
  tb : W -> nat;
  tb_quiet : forall w x w', te_quiet w = (x, w') -> (tb w' <= tb w)%nat;
  tb_touch : forall w, (tb (te_touch w) <= tb w)%nat;
  tb_arm_read : forall d w x w', te_arm_read d w = (x, w') -> (tb w' <= tb w)%nat;
  tb_arm_write : forall t w x w', te_arm_write t w = (x, w') -> (tb w' <= tb w)%nat;
  tb_now : forall w x w', te_now w = (x, w') -> (tb w' <= tb w)%nat;
  tb_syscall : forall w x w', te_syscall_conn w = (x, w') -> (tb w' <= tb w)%nat;
  tb_read : forall w r w', te_read w = (r, w') ->
    (tb w' <= tb w)%nat /\ (read_retries r -> (tb w' < tb w)%nat);
  tb_write : forall s w r w', te_write s w = (r, w') ->
    (tb w' <= tb w)%nat /\ (write_retries r -> (tb w' < tb w)%nat);
  tb_raw : forall s w a w', te_raw s w = (a, w') ->
    (tb w' <= tb w)%nat /\ (raw_retries a -> (tb w' < tb w)%nat)
}.

Section Halt.
Context {W : Type} `{TBudget W}.
Open Scope nat_scope.

(** From a budget of at most [B] the run finishes; [Q] relates its result and
    the budget left. *)
Definition tcosts {A} (B : nat) (m : TM W A) (Q : A -> nat -> Prop) : Prop :=
  forall w l, tb w <= B -> exists a s, m (mk_ts w l) = (Ok a, s) /\ Q a (tb (ts_w s)).

Lemma tcosts_ret {A} B (a : A) (Q : A -> nat -> Prop) : (forall B', B' <= B -> Q a B') -> tcosts B (tret a) Q.
Proof. intros HQ w l Hw. exists a, (mk_ts w l). auto. Qed.

Lemma tcosts_bind {A C} B (m : TM W A) (k : A -> TM W C) Q' Q :
  tcosts B m Q' -> (forall a B', Q' a B' -> tcosts B' (k a) Q) -> tcosts B (tbind m k) Q.
Proof.
  intros Hm Hk w l Hw. unfold tbind. destruct (Hm w l Hw) as (a & [w' l'] & -> & HQ).
  by apply (Hk a _ HQ).
Qed.

Lemma tcosts_mono {A} B (m : TM W A) (Q Q' : A -> nat -> Prop) :
  tcosts B m Q -> (forall a B', Q a B' -> Q' a B') -> tcosts B m Q'.
Proof. intros Hm HQ w l Hw. destruct (Hm w l Hw) as (a & s & ? & ?). eauto. Qed.

(** A call of which the outcomes in [retry] use some of the budget. *)
Lemma tcosts_call {X} B (f : W -> X * W) ev (retry : X -> Prop) :
  (forall w x w', f w = (x, w') -> tb w' <= tb w /\ (retry x -> tb w' < tb w)) ->
  tcosts B (tcall f ev) (fun x B' => B' <= B /\ (retry x -> B' < B)).
Proof.
  intros Hf w l Hw. unfold tcall. cbn. destruct (f w) as [x w'] eqn:E. apply Hf in E as [H1 H2].
  eexists _, _. split; [done|]. cbn. split; [lia|]. intros Hr%H2. lia.
Qed.

Lemma tcosts_plain {X} B (f : W -> X * W) ev :
  (forall w x w', f w = (x, w') -> tb w' <= tb w) -> tcosts B (tcall f ev) (fun _ B' => B' <= B).
Proof.
  intros Hf. eapply tcosts_mono; [apply (tcosts_call B f ev (fun _ => False))|by intros x B' [? _]].
  intros w x w' E. split; [by eapply Hf|done].
Qed.

Lemma touch_plain w x w' : (fun w => (tt, te_touch w)) w = (x, w') -> tb w' <= tb w.
Proof. intros [= _ <-]. apply tb_touch. Qed.

#[local] Hint Resolve tb_quiet tb_arm_read tb_arm_write tb_now tb_syscall touch_plain : tb.

Ltac step_plain x B :=
  eapply tcosts_bind; [apply tcosts_plain; eauto with tb|intros x B ?; cbn beta in *].

(** ** Copies *)

Definition finishes {A} (B : nat) (m : TM W A) : Prop := tcosts B m (fun _ B' => B' <= B).

Lemma finishes_weaken {A} B' (m : TM W A) (Q : nat -> Prop) :
  finishes B' m -> (forall b, b <= B' -> Q b) -> tcosts B' m (fun _ b => Q b).
Proof. intros Hm HQ. eapply tcosts_mono; [exact Hm|]. intros a b Hb. by apply HQ. Qed.

Lemma idle_loop_finishes fuel timeout B total :
  B < fuel -> finishes B (idle_loop fuel timeout total).
Proof.
  revert B total. induction fuel as [|fuel IH]; intros B total HB; [lia|]. cbn [idle_loop].
  step_plain q B1. case_match; [apply tcosts_ret; lia|]. step_plain d B2.
  eapply tcosts_bind; [apply (tcosts_call B2 _ _ read_retries), tb_read|].
  intros [data readErr] B3 [? Hr]. cbn [fst snd].
  assert (Hafter : forall B4 n, B4 <= B3 -> tcosts B4 (idle_after (idle_loop fuel timeout) timeout readErr n)
    (fun _ b => b <= B)).
  { intros B4 n ?. unfold idle_after. destruct readErr as [e|].
    - step_plain a B5. destruct (isTimeoutError e) eqn:Et.
      + assert (B3 < B2) by (by apply Hr). step_plain q' B6.
        case_match; [apply finishes_weaken; [apply IH; lia|lia]|apply tcosts_ret; lia].
      + case_match; apply tcosts_ret; lia.
    - assert (B3 < B2) by (by apply Hr). apply finishes_weaken; [apply IH; lia|lia]. }
  case_match; [|apply Hafter; lia]. step_plain u B4.
  eapply tcosts_bind; [apply (tcosts_call B4 _ _ write_retries), tb_write|]. intros [nw [e|]] B5 [? _]; cbn.
  - apply tcosts_ret. lia.
  - apply Hafter. lia.
Qed.

Lemma io_copy_finishes fuel B total : B < fuel -> finishes B (io_copy fuel total).
Proof.
  revert B total. induction fuel as [|fuel IH]; intros B total HB; [lia|]. cbn [io_copy].
  eapply tcosts_bind; [apply (tcosts_call B _ _ read_retries), tb_read|].
  intros [data readErr] B3 [? Hr]. cbn [fst snd].
  assert (Hafter : forall B4 n, B4 <= B3 -> tcosts B4 (io_after (io_copy fuel) readErr n) (fun _ b => b <= B)).
  { intros B4 n ?. unfold io_after. destruct readErr as [e|].
    - case_match; apply tcosts_ret; lia.
    - assert (B3 < B) by (by apply Hr). apply finishes_weaken; [apply IH; lia|lia]. }
  case_match; [|apply Hafter; lia].
  eapply tcosts_bind; [apply (tcosts_call B3 _ _ write_retries), tb_write|]. intros [nw [e|]] B5 [? _]; cbn.
  - apply tcosts_ret. lia.
  - case_match; [apply Hafter; lia|apply tcosts_ret; lia].
Qed.

Lemma idleCopy_finishes fuel timeout B : B < fuel -> finishes B (idleCopy fuel timeout).
Proof. intros HB. unfold idleCopy. case_match; [by apply io_copy_finishes|by apply idle_loop_finishes]. Qed.

(** ** Writes *)

Lemma raw_finishes fuel B p : B < fuel -> finishes B (raw_write fuel p).
Proof.
  revert B. induction fuel as [|fuel IH]; intros B HB; [lia|]. cbn [raw_write].
  eapply tcosts_bind; [apply (tcosts_call B _ _ raw_retries), tb_raw|]. intros a B1 [? Hr].
  destruct a; try (apply tcosts_ret; lia);
    (assert (B1 < B) by (apply Hr; unfold raw_retries; auto));
    (apply finishes_weaken; [apply IH; lia|lia]).
Qed.

Lemma buffered_finishes fuel B p timeout deadline :
  B < fuel -> finishes B (buffered_loop fuel p timeout deadline).
Proof.
  revert B. induction fuel as [|fuel IH]; intros B HB; [lia|]. cbn [buffered_loop].
  step_plain now B1. step_plain d B2. destruct d as [e|]; [apply tcosts_ret; lia|].
  eapply tcosts_bind; [apply (tcosts_call B2 _ _ write_retries), tb_write|].
  intros [n [e|]] B3 [? Hr]; [|apply tcosts_ret; lia].
  destruct (isTimeoutError e) eqn:Et; [|apply tcosts_ret; lia].
  destruct n as [|n]; cbn [Nat.ltb Nat.leb]; [|apply tcosts_ret; lia].
  assert (B3 < B2) by (apply Hr; split; [done|eauto]). step_plain now' B4.
  case_match; [apply finishes_weaken; [apply IH; lia|lia]|apply tcosts_ret; lia].
Qed.

Lemma chunk_finishes fuel B unix sc p timeout :
  B < fuel -> finishes B (write_chunk fuel unix sc p timeout).
Proof.
  intros HB. unfold write_chunk, writeTunnelChunk, writeTunnelChunk_other.
  assert (Hb : finishes B (writeTunnelBuffered fuel p timeout)).
  { unfold writeTunnelBuffered. step_plain now B1. apply finishes_weaken; [apply buffered_finishes; lia|lia]. }
  destruct unix, sc; cbn [negb]; [|exact Hb..]. step_plain e B1. destruct e; [apply tcosts_ret; lia|].
  apply finishes_weaken; [apply raw_finishes; lia|lia].
Qed.

Lemma write_loop_finishes fuel chunk B p timeout total :
  String.length p < fuel -> (forall B' p', B' <= B -> finishes B' (chunk p')) ->
  finishes B (write_loop fuel chunk p timeout total).
Proof.
  revert B p total. induction fuel as [|fuel IH]; intros B p total Hp Hc; [lia|]. cbn [write_loop].
  destruct (Nat.eqb_spec (String.length p) 0) as [Hz|Hz]; [apply tcosts_ret; lia|].
  step_plain now B1. step_plain d B2. destruct d as [e|]; [apply tcosts_ret; lia|].
  eapply tcosts_bind; [apply (Hc B2); lia|]. intros [n err] B3 ?. cbn beta in *.
  eapply tcosts_bind with (Q' := fun _ B' => B' <= B3).
  { case_match; [apply tcosts_plain; eauto with tb|apply tcosts_ret; lia]. }
  intros [] B4 ?. destruct err as [e|]; [apply tcosts_ret; lia|].
  destruct (Nat.eqb_spec n 0); [apply tcosts_ret; lia|].
  apply finishes_weaken; [apply IH; [rewrite str_length_drop; lia|intros; apply Hc; lia]|lia].
Qed.

(** C26 (tunnel_loops_end): the loops of a tunnel return.  With connections that ask for finitely
    many retries, [idleCopy] and [tunnelConn.Write] return a result. *)
Theorem tunnel_loops_end fuel timeout unix c p w :
  tb w + String.length p < fuel ->
  (exists r s, idleCopy fuel timeout (mk_ts w []) = (Ok r, s)) /\
  (exists r s, tunnel_write fuel unix c p (mk_ts w []) = (Ok r, s)).
Proof.
  intros Hf. split.
  - destruct (idleCopy_finishes fuel timeout (tb w) ltac:(lia) w [] ltac:(lia)) as (r & s & E & _). eauto.
  - assert (Hw : finishes (tb w) (tunnel_write fuel unix c p)).
    { assert (Hcw : finishes (tb w) (conn_write p)).
      { eapply tcosts_mono; [apply (tcosts_call (tb w) _ _ write_retries), tb_write|by intros x B' [? _]]. }
      unfold tunnel_write. destruct (tc_clock c); [|done]. case_match; [done|].
      apply write_loop_finishes; [lia|]. intros B' p' ?. apply chunk_finishes. lia. }
    destruct (Hw w [] ltac:(lia)) as (r & s & E & _). eauto.
Qed.

End Halt.

(** ** A scripted pair of connections *)

(** What the source delivers, then the end of its stream, and how many octets
    each write system call accepts. *)
Record tscript := mk_tscript {
  sc_reads : list (string * option error);
  sc_accepts : list nat;
  sc_quiet : list Z
}.

Definition t_eof : error := Err KEOF "EOF" None.
Definition t_timeout : error := Err (KNet true) "i/o timeout" None.

#[export] Instance tscript_env : TEnv tscript := {
  te_quiet w := match sc_quiet w with
                | [] => (0, w)
                | q :: qs => (q, mk_tscript (sc_reads w) (sc_accepts w) qs)
                end;
  te_touch w := w;
  te_arm_read _ w := (None, w);
  te_arm_write _ w := (None, w);
  te_now w := (0, w);
  te_read w := match sc_reads w with
               | [] => (("", Some t_eof), w)
               | r :: rs => (r, mk_tscript rs (sc_accepts w) (sc_quiet w))
               end;
  te_write s w := ((String.length s, None), w);
  te_syscall_conn w := (None, w);
  te_close_write w := (None, w);
  te_close w := (None, w);
  te_raw s w := match sc_accepts w with
                | [] => (RawWrote (String.length s), w)
                | O :: ns => (RawEAGAIN, mk_tscript (sc_reads w) ns (sc_quiet w))
                | n :: ns => (RawWrote (Nat.min n (String.length s)), mk_tscript (sc_reads w) ns (sc_quiet w))
                end
}.

#[export] Instance tscript_laws : WriterLaws tscript.
Proof.
  constructor; cbn -[Nat.min].
  - intros s w n e w' [= <- <- <-]. split; [lia|]. lia.
  - intros s w n w'. destruct (sc_accepts w) as [|[|k] ns]; intros [= Hn _]; [lia|].
    rewrite <- Hn. apply (Nat.le_min_r (S k)).
Qed.

#[export, refine] Instance tscript_budget : TBudget tscript := {
  tb w := (length (sc_reads w) + length (sc_accepts w))%nat
}.
Proof.
  - intros w x w'. cbn. destruct (sc_quiet w); intros [= <- <-]; cbn; lia.
  - intros w. cbn. lia.
  - intros d w x w' [= <- <-]. lia.
  - intros d w x w' [= <- <-]. lia.
  - intros w x w' [= <- <-]. lia.
  - intros w x w' [= <- <-]. lia.
  - intros w r w'. cbn. destruct (sc_reads w) as [|r0 rs] eqn:E; intros [= <- <-]; cbn; rewrite ?E; cbn; [|lia].
    split; [lia|]. intros Hr. discriminate Hr.
  - intros s w r w' [= <- <-]. split; [lia|]. by intros [_ (e & [=] & _)].
  - intros s w a w'. cbn. destruct (sc_accepts w) as [|[|k] ns] eqn:E; intros [= <- <-]; cbn; rewrite ?E; cbn.
    + split; [lia|]. by intros [?|?].
    + lia.
    + split; [lia|]. by intros [?|?].
Defined.

(** Two reads with a timeout between them, while the tunnel is active. *)
Definition copy_script : tscript :=
  mk_tscript [("ab", None); ("", Some t_timeout); ("cd", None)] [] [].

Lemma copy_faithful_witness :
  bytes_written (ts_log (idleCopy 9 10 (mk_ts copy_script [])).2) =
  bytes_read (ts_log (idleCopy 9 10 (mk_ts copy_script [])).2) /\
  (idleCopy 9 10 (mk_ts copy_script [])).1 = Ok (4%nat, None).
Proof.
  split; [|vm_compute; reflexivity].
  pose proof (copy_faithful 9 10 copy_script) as Hc.
  assert (E : (idleCopy 9 10 (mk_ts copy_script [])).1 = Ok (4%nat, None)) by (vm_compute; reflexivity).
  destruct (idleCopy 9 10 (mk_ts copy_script [])) as [r s]. cbn in E. subst r.
  destruct Hc as (_ & _ & Hc). apply Hc. reflexivity.
Defined.

(** The same source on a tunnel that is idle at the timeout. *)
Definition idle_script : tscript :=
  mk_tscript [("ab", None); ("", Some t_timeout); ("cd", None)] [] [0; 0; 10].

Lemma copy_ends_for_a_reason_witness :
  explained 10 (2%nat, Some errTunnelIdle) (ts_log (idleCopy 9 10 (mk_ts idle_script [])).2).
Proof.
  eapply (copy_ends_for_a_reason 9 10 idle_script); [lia|]. vm_compute. reflexivity.
Defined.

Definition demo_conn : tunnelConn := mk_tunnelConn (Some 10) false true true.

(** A write the kernel accepts in three parts. *)
Lemma tunnel_write_contract_witness :
  bytes_written (ts_log (tunnel_write 9 true demo_conn "hello"
    (mk_ts (mk_tscript [] [2; 0; 1]%nat []) [])).2) = "hello".
Proof.
  pose proof (tunnel_write_contract 9 true demo_conn "hello" (mk_tscript [] [2; 0; 1]%nat [])) as Hc.
  assert (E : (tunnel_write 9 true demo_conn "hello"
    (mk_ts (mk_tscript [] [2; 0; 1]%nat []) [])).1 = Ok (5%nat, None)) by (vm_compute; reflexivity).
  destruct (tunnel_write _ _ _ _ _) as [r s]. cbn in E. subst r. apply Hc.
Defined.

(** A copy to a TLS destination that reaches the end of the stream. *)
Lemma half_close_after_eof_witness :
  exists l, ts_log (forwardHalf 9 10 (NTLS demo_conn) (mk_ts copy_script [])).2 =
    l ++ [TvCloseWrite None; TvMarkClosed] /\ bytes_written l = bytes_read l.
Proof.
  destruct (forwardHalf 9 10 (NTLS demo_conn) (mk_ts copy_script [])) as [r s] eqn:E.
  pose proof (f_equal fst E) as Er. vm_compute in Er. rewrite <- Er in E. destruct (half_close_after_eof _ _ _ _ _ _ _ E) as [(_ & Hne & _)|(l & Hl & _ & _ & Hb)].
  - contradiction (Hne eq_refl).
  - exists l. split; [exact Hl|exact Hb].
Defined.

Lemma tunnel_teardown_witness :
  t_closed (mk_tunnel_state (Some None) (Some (Some t_timeout)) (teardown (fun _ => false))) <> [] /\
  CloseSide SConn ∈ teardown (fun _ => false).
Proof.
  split; [discriminate|].
  assert (R : rtc (tunnel_step (fun _ => false)) tunnel_start
    (mk_tunnel_state (Some None) (Some (Some t_timeout)) (teardown (fun _ => false)))).
  { eapply rtc_l; [apply (finish_to_peer _ tunnel_start None); reflexivity|].
    eapply rtc_once. apply (finish_to_conn _ (mk_tunnel_state (Some None) None []) (Some t_timeout)). reflexivity. }
  destruct (tunnel_teardown _ _ R) as [(_ & Hc & _)|[_ Hc]]; [split; discriminate|discriminate Hc|apply Hc].
Defined.

Lemma tunnel_loops_end_witness :
  exists r s, idleCopy 9 10 (mk_ts copy_script []) = (Ok r, s).
Proof.
  destruct (tunnel_loops_end 9 10 false demo_conn "hello" copy_script) as [Hc _]; [cbn; lia|exact Hc].
Defined.
