(* ===== verification/TunnelPair.v ===== *)
(** * Both directions of a tunnel at once

    The two goroutines of [forwardTunnel] run [idleCopy] over one shared clock
    and tear both connections down when either fails.  A state holds the clock
    of [TunnelClock], where each goroutine is in [idleCopy] and in the clock's
    methods, and whether the connections have been closed; one step is one
    atomic action of one goroutine, or the passing of time, in any order.  The
    connections' answers are choices of the scheduler, and the calls that
    [tunnelConn.Read] and [tunnelConn.Write] make on the clock inside a read or
    a write may happen there any number of times. *)

From S2P Require Import Prelude GoStrings Errors TunnelClock Tunnel.

(** ** Goroutines *)

(** Where a goroutine is in [idleCopy]: inside which call.  The clock call of
    such a point is about to start when the goroutine is not in a method of the
    clock.  [t] is no variable of the code: it is when the progress was made. *)
Inductive hpc :=
| HBudget                                       (* clock.remaining() *)
| HRead                                         (* src.Read(buf) *)
| HReadBudget                                   (* ... clock.remaining() in tunnelConn.Read *)
| HReadIdle                                     (* ... clock.idle() in tunnelConn.Read *)
| HReadTouch (t : Z)                            (* ... clock.touch() in tunnelConn.Read *)
| HTouch (t : Z) (readErr : option error)       (* clock.touch() *)
| HWrite (readErr : option error)               (* dst.Write(buf[:n]) *)
| HWriteTouch (t : Z) (readErr : option error)  (* ... clock.touch() in tunnelConn.Write *)
| HIdle                                         (* clock.idle() after a timed out read *)
| HHalfClose                                    (* closeWrite(dst) *)
| HFail (e : error)                             (* forwardHalf returned e *)
| HDone (r : option error).                     (* the goroutine has ended *)

(** The goroutine that reads from a side, as a goroutine of the clock. *)
Definition gid (d : side) : nat := match d with SConn => 0 | SPeer => 1 end.

(** What an observer notes: [PProgress d t now]: direction [d] made progress at
    [t] and its [touch(now)] has returned; [PSample d e]: a [quietFor] of [d]
    read the clock at [e]; [PIdle d e]: [d] gave up because of that reading. *)
Inductive note :=
| PProgress (d : side) (t now : Z)
| PSample (d : side) (elapsed : Z)
| PIdle (d : side) (elapsed : Z).

Record pstate := mk_pstate {
  p_clock : kstate;
  p_half : side -> hpc;
  p_closed : bool;
  p_notes : list note
}.

#[export] Instance side_eq_dec : EqDecision side.
Proof. solve_decision. Defined.

Definition h_set (f : side -> hpc) (d : side) (x : hpc) : side -> hpc :=
  fun j => if bool_decide (j = d) then x else f j.

Definition at_pc (s : pstate) (d : side) : tpc := k_pc (p_clock s) (gid d).

(** The clock with goroutine [d] at [x]. *)
Definition clock_set (K : kstate) (d : side) (last : Z) (x : tpc) : kstate :=
  mk_kstate last (k_time K) (k_set (k_pc K) (gid d) x).

(** One atomic action inside [touchAt] or [quietForSince], when [last] is [L]. *)
Definition inner_next (L : Z) (x : tpc) : option (Z * tpc) :=
  match x with
  | TLoad now => Some (L, TTry now L)
  | TTry now last =>
      if now <=? last then Some (L, TTouched now)
      else if L =? last then Some (now, TTouched now)
      else Some (L, TLoad now)
  | QLoad => Some (L, QSince L)
  | QCheck last elapsed g => if L =? last then Some (L, QQuiet last elapsed g) else Some (L, QLoad)
  | _ => None
  end.

(** The end of a round, from the test of [readErr]. *)
Definition after_read (readErr : option error) : hpc :=
  match readErr with
  | None => HBudget
  | Some e => if isTimeoutError e then HIdle else if errors_is e KEOF then HHalfClose else HFail e
  end.

(** Errors the connections can return: [errTunnelIdle] is made by this package only. *)
Definition idle_error (e : error) : bool := errors_is e KTunnelIdle.
Definition foreign (e : option error) : bool := match e with Some e => negb (idle_error e) | None => true end.

(** What the scheduler chooses: who acts, how long time passes, and what the
    connections answer. *)
Inductive choice :=
| CTick (d : Z)                                       (* time passes *)
| CClock (d : side)                                   (* start, advance or leave a clock method *)
| CRead (d : side) (got : bool) (e : option error)    (* src.Read returns *)
| CInRead (d : side) (what : nat)                     (* a clock call of tunnelConn.Read *)
| CWrote (d : side) (e : option error)                (* dst.Write returns *)
| CInWrite (d : side)                                 (* a clock call of tunnelConn.Write *)
| CHalfClosed (d : side) (e : option error)           (* closeWrite returns *)
| CTearDown (d : side).                               (* the loop that closes both connections *)

Definition goto (s : pstate) (d : side) (x : hpc) : pstate :=
  mk_pstate (p_clock s) (h_set (p_half s) d x) (p_closed s) (p_notes s).

Section Pair.
Context (timeout : Z).

(** Which clock method a program point calls. *)
Inductive clock_call := CallQuiet | CallTouch (t : Z).

Definition call_at (x : hpc) : option clock_call :=
  match x with
  | HBudget | HReadBudget | HReadIdle | HIdle => Some CallQuiet
  | HReadTouch t | HTouch t _ | HWriteTouch t _ => Some (CallTouch t)
  | _ => None
  end.

(** After [quietFor] returned [q]. *)
Definition quiet_ret (x : hpc) (q : Z) : hpc :=
  match x with
  | HBudget => if remaining timeout q <=? 0 then HFail errTunnelIdle else HRead
  | HReadBudget => if remaining timeout q <=? 0 then HFail errTunnelIdle else HRead
  | HReadIdle => HRead
  | HIdle => if negb (idle timeout q) then HBudget else HFail errTunnelIdle
  | _ => x
  end.

(** After [touch] returned. *)
Definition touch_ret (x : hpc) : hpc :=
  match x with
  | HReadTouch _ => HRead
  | HTouch _ readErr => HWrite readErr
  | HWriteTouch _ readErr => HWrite readErr
  | _ => x
  end.

(** An action of [d] in a clock method; [time.Since] is a note. *)
Definition clock_next (s : pstate) (d : side) : option pstate :=
  let K := p_clock s in
  match at_pc s d with
  | TIdle =>
      match call_at (p_half s d) with
      | Some CallQuiet => Some (mk_pstate (clock_set K d (k_last K) QLoad) (p_half s) (p_closed s) (p_notes s))
      | Some (CallTouch _) =>
          Some (mk_pstate (clock_set K d (k_last K) (TLoad (k_time K))) (p_half s) (p_closed s) (p_notes s))
      | None => None
      end
  | QSince last =>
      Some (mk_pstate (clock_set K d (k_last K) (QCheck last (k_time K) (k_last K))) (p_half s) (p_closed s)
              (p_notes s ++ [PSample d (k_time K)]))
  | TTouched now =>
      match call_at (p_half s d) with
      | Some (CallTouch t) =>
          Some (mk_pstate (clock_set K d (k_last K) TIdle) (h_set (p_half s) d (touch_ret (p_half s d)))
                  (p_closed s) (p_notes s ++ [PProgress d t now]))
      | _ => None
      end
  | QQuiet last elapsed _ =>
      match call_at (p_half s d) with
      | Some CallQuiet =>
          let x := quiet_ret (p_half s d) (quiet_value elapsed last) in
          Some (mk_pstate (clock_set K d (k_last K) TIdle) (h_set (p_half s) d x) (p_closed s)
                  (p_notes s ++ match x with HFail _ => [PIdle d elapsed] | _ => [] end))
      | _ => None
      end
  | x =>
      match inner_next (k_last K) x with
      | Some (L, y) => Some (mk_pstate (clock_set K d L y) (p_half s) (p_closed s) (p_notes s))
      | None => None
      end
  end.

Definition pnext (c : choice) (s : pstate) : option pstate :=
  let now := k_time (p_clock s) in
  match c with
  | CTick d =>
      if 0 <=? d
      then Some (mk_pstate (mk_kstate (k_last (p_clock s)) (now + d) (k_pc (p_clock s))) (p_half s) (p_closed s) (p_notes s))
      else None
  | CClock d => clock_next s d
  | CRead d got e =>
      match p_half s d with
      | HRead => if foreign e then Some (goto s d (if got then HTouch now e else after_read e)) else None
      | _ => None
      end
  | CInRead d what =>
      match p_half s d with
      | HRead => Some (goto s d (match what with O => HReadBudget | S O => HReadIdle | _ => HReadTouch now end))
      | _ => None
      end
  | CWrote d e =>
      match p_half s d with
      | HWrite readErr =>
          if foreign e then Some (goto s d (match e with Some e => HFail e | None => after_read readErr end)) else None
      | _ => None
      end
  | CInWrite d =>
      match p_half s d with
      | HWrite readErr => Some (goto s d (HWriteTouch now readErr))
      | _ => None
      end
  | CHalfClosed d e =>
      match p_half s d with
      | HHalfClose =>
          if foreign e then Some (goto s d (match e with Some e => HFail e | None => HDone None end)) else None
      | _ => None
      end
  | CTearDown d =>
      match p_half s d with
      | HFail e => Some (mk_pstate (p_clock s) (h_set (p_half s) d (HDone (Some e))) true (p_notes s))
      | _ => None
      end
  end.

Definition pair_start : pstate := mk_pstate newTunnelClock (fun _ => HBudget) false [].

Definition pstep (s s' : pstate) : Prop := exists c, pnext c s = Some s'.

Fixpoint prun (cs : list choice) (s : pstate) : option pstate :=
  match cs with
  | [] => Some s
  | c :: cs => match pnext c s with Some s' => prun cs s' | None => None end
  end.

Lemma prun_rtc cs s s' : prun cs s = Some s' -> rtc pstep s s'.
Proof.
  revert s. induction cs as [|c cs IH]; cbn; intros s; [intros [= <-]; apply rtc_refl|].
  destruct (pnext c s) as [s1|] eqn:E; [|done]. intros H%IH. eapply rtc_l; [by exists c|done].
Qed.

(** ** Invariant *)

(** [notes] has the clock reading [e] of [d], its latest, and every progress
    noted before it satisfies [P]. *)
Definition sampled (P : Z -> Z -> Prop) (notes : list note) (d : side) (e : Z) : Prop :=
  exists l3 l4, notes = l3 ++ PSample d e :: l4 /\ (forall e', PSample d e' ∉ l4) /\
    forall d' t now, PProgress d' t now ∈ l3 -> P t now.

(** A goroutine inside a clock method. *)
Definition call_ok (notes : list note) (T : Z) (d : side) (c : option clock_call) (x : tpc) : Prop :=
  match c, x with
  | None, TIdle => True
  | Some CallQuiet, (TIdle | QLoad | QSince _) => True
  | Some CallQuiet, (QCheck _ e g | QQuiet _ e g) => sampled (fun t now => t <= now <= g) notes d e
  | Some (CallTouch t), TIdle => t <= T
  | Some (CallTouch t), (TLoad now | TTry now _ | TTouched now) => t <= now
  | _, _ => False
  end.

(** Every decision to give up rests on a clock reading before which no progress
    was noted within the timeout. *)
Definition justified (notes : list note) : Prop :=
  forall l1 d e l2, notes = l1 ++ PIdle d e :: l2 -> sampled (fun t now => t <= now <= e - timeout) l1 d e.

(** The results of a direction. *)
Definition outcome_ok (notes : list note) (d : side) (x : hpc) : Prop :=
  match x with
  | HFail e | HDone (Some e) => idle_error e = true -> exists el, PIdle d el ∈ notes
  | HTouch _ e | HWrite e | HWriteTouch _ e => foreign e = true
  | _ => True
  end.

Record pinv (s : pstate) : Prop := {
  pi_clock : clock_inv (p_clock s);
  pi_progress : forall d t now, PProgress d t now ∈ p_notes s -> t <= now <= k_last (p_clock s);
  pi_call : forall d, call_ok (p_notes s) (k_time (p_clock s)) d (call_at (p_half s d)) (at_pc s d);
  pi_idle : justified (p_notes s);
  pi_outcome : forall d, outcome_ok (p_notes s) d (p_half s d);
  pi_closed : p_closed s = true -> exists d e, p_half s d = HDone (Some e)
}.

Lemma pinv_start : pinv pair_start.
Proof.
  constructor; [apply clock_inv_new| |done| |done|done].
  - intros d t now H. by apply not_elem_of_nil in H.
  - intros l1 d e l2 H. by destruct l1.
Qed.

(** ** The notes only grow *)

Lemma sampled_snoc P notes d e n :
  (forall e', n <> PSample d e') -> sampled P notes d e -> sampled P (notes ++ [n]) d e.
Proof.
  intros Hn (l3 & l4 & -> & H4 & H3). exists l3, (l4 ++ [n]). split_and!; [by rewrite <- app_assoc| |done].
  intros e'. rewrite elem_of_app, list_elem_of_singleton. intros [Hx|Hx]; [exact (H4 e' Hx)|]. by destruct (Hn e').
Qed.

Lemma call_ok_snoc notes T T' d c x n :
  T <= T' -> (forall e', n <> PSample d e') -> call_ok notes T d c x -> call_ok (notes ++ [n]) T' d c x.
Proof. intros HT Hn. destruct c as [[|t]|], x; cbn; try done; try lia; by apply sampled_snoc. Qed.

Lemma outcome_ok_snoc notes d x n : outcome_ok notes d x -> outcome_ok (notes ++ [n]) d x.
Proof.
  assert (Hex : (exists el, PIdle d el ∈ notes) -> exists el, PIdle d el ∈ notes ++ [n]).
  { intros [el He]. exists el. apply elem_of_app. by left. }
  destruct x as [| | | | | | | | | | |[]]; cbn; auto.
Qed.

Lemma justified_snoc notes n :
  justified notes -> (forall d e, n = PIdle d e -> sampled (fun t now => t <= now <= e - timeout) notes d e) ->
  justified (notes ++ [n]).
Proof.
  intros Hj Hn l1 d e l2. induction l2 as [|x l2 _] using rev_ind; intros E.
  - apply app_inj_tail in E as [<- ->]. by apply Hn.
  - rewrite app_comm_cons, app_assoc in E. apply app_inj_tail in E as [-> _]. by eapply Hj.
Qed.

Lemma gid_inj d d' : gid d = gid d' -> d = d'.
Proof. by destruct d, d'. Qed.

Lemma clock_set_eq K d L x : k_pc (clock_set K d L x) (gid d) = x.
Proof. apply k_set_eq. Qed.

Lemma clock_set_ne K d d' L x : d' <> d -> k_pc (clock_set K d L x) (gid d') = k_pc K (gid d').
Proof.
  intros Hne. cbn. unfold k_set. destruct (Nat.eqb_spec (gid d') (gid d)) as [E|]; [|done].
  by apply gid_inj in E.
Qed.

Lemma h_set_eq f d x : h_set f d x d = x.
Proof. unfold h_set. by rewrite bool_decide_eq_true_2. Qed.

Lemma h_set_ne f d d' x : d' <> d -> h_set f d x d' = f d'.
Proof. intros Hne. unfold h_set. by rewrite bool_decide_eq_false_2. Qed.

Lemma inner_next_ok L T x L' y :
  0 <= L <= T -> pc_ok L T x -> inner_next L x = Some (L', y) -> L <= L' <= T /\ pc_ok L' T y.
Proof.
  intros HL Hx. destruct x as [|now|now l|now| |l|l e g|l e g]; cbn in *; try done.
  - intros [= <- <-]. cbn. lia.
  - destruct (Z.leb_spec now l); [intros [= <- <-]; cbn; lia|].
    destruct (Z.eqb_spec L l); intros [= <- <-]; cbn; lia.
  - intros [= <- <-]. cbn. lia.
  - destruct (Z.eqb_spec L l); intros [= <- <-]; cbn; lia.
Qed.

Lemma inner_next_call notes L T d c x L' y :
  call_ok notes T d c x -> x <> TIdle -> inner_next L x = Some (L', y) -> call_ok notes T d c y.
Proof.
  intros Hc Hx. destruct c as [[|t]|], x; cbn in *; try done.
  - by intros [= <- <-].
  - case_match; by intros [= <- <-].
  - by intros [= <- <-].
  - repeat case_match; by intros [= <- <-].
Qed.

(** ** Preservation *)

(** Direction [d] moves; the clock and the notes stay. *)
Lemma pinv_goto s d x :
  pinv s -> (forall e, p_half s d <> HDone e) -> at_pc s d = TIdle ->
  match call_at x with Some (CallTouch t) => t <= k_time (p_clock s) | _ => True end ->
  outcome_ok (p_notes s) d x -> pinv (goto s d x).
Proof.
  intros [H1 H2 H3 H4 H5 H6] Hd Hi Hc Ho. constructor; cbn [goto p_clock p_notes p_half p_closed]; try done.
  - intros d'. unfold at_pc in *. cbn. destruct (decide (d' = d)) as [->|Hne].
    + rewrite h_set_eq, Hi. by destruct (call_at x) as [[]|].
    + rewrite h_set_ne by done. apply H3.
  - intros d'. destruct (decide (d' = d)) as [->|Hne]; [by rewrite h_set_eq|]. by rewrite h_set_ne.
  - intros Hcl. destruct (H6 Hcl) as (d' & e & Hd'). exists d', e.
    rewrite h_set_ne; [done|]. intros ->. by destruct (Hd (Some e)).
Qed.

(** A goroutine outside the clock's methods. *)
Lemma pinv_idle_pc s d : pinv s -> call_at (p_half s d) = None -> at_pc s d = TIdle.
Proof.
  intros [_ _ H3 _ _ _] Hc. specialize (H3 d). rewrite Hc in H3. by destruct (at_pc s d).
Qed.

Lemma foreign_outcome notes d e : foreign (Some e) = true -> outcome_ok notes d (HFail e).
Proof. cbn. intros H%negb_true_iff. congruence. Qed.

Lemma after_read_ok notes d e :
  foreign e = true ->
  outcome_ok notes d (after_read e) /\
  match call_at (after_read e) with Some (CallTouch t) => False | _ => True end.
Proof.
  intros He. unfold after_read. destruct e as [e|]; [|done]. destruct (isTimeoutError e); [done|].
  destruct (errors_is e KEOF); [done|]. split; [by apply foreign_outcome|done].
Qed.

(** A note that direction [d] may add when [last] becomes [L]. *)
Definition note_ok (notes : list note) (L : Z) (d : side) (n : note) : Prop :=
  match n with
  | PProgress _ t now => t <= now <= L
  | PSample d' _ => d' = d
  | PIdle d' e => sampled (fun t now => t <= now <= e - timeout) notes d' e
  end.

Definition notes_grow (notes notes' : list note) (L : Z) (d : side) : Prop :=
  notes' = notes \/ exists n, notes' = notes ++ [n] /\ note_ok notes L d n.

(** Direction [d] takes a step in a clock method. *)
Lemma pinv_clock s d L y half' notes' :
  pinv s -> k_last (p_clock s) <= L <= k_time (p_clock s) -> pc_ok L (k_time (p_clock s)) y ->
  (forall d', d' <> d -> half' d' = p_half s d') -> (forall e, p_half s d <> HDone e) ->
  notes_grow (p_notes s) notes' L d ->
  call_ok notes' (k_time (p_clock s)) d (call_at (half' d)) y -> outcome_ok notes' d (half' d) ->
  pinv (mk_pstate (clock_set (p_clock s) d L y) half' (p_closed s) notes').
Proof.
  intros [H1 H2 H3 H4 H5 H6] HL Hy Hh Hd Hn Hc Ho. constructor; cbn [p_clock p_notes p_half p_closed].
  - apply clock_inv_set; [done|lia|lia|lia|done].
  - cbn [clock_set k_last]. intros d' t now Hp. destruct Hn as [->|(n & -> & Hn)]; [apply H2 in Hp; lia|].
    apply elem_of_app in Hp as [Hp|Hp]; [apply H2 in Hp; lia|]. apply list_elem_of_singleton in Hp as <-.
    exact Hn.
  - intros d'. unfold at_pc. cbn [p_clock]. destruct (decide (d' = d)) as [->|Hne]; [by rewrite clock_set_eq|].
    rewrite clock_set_ne, Hh by done. specialize (H3 d').
    destruct Hn as [->|(n & -> & Hn)]; [exact H3|]. eapply call_ok_snoc; [|by intros e' ->|exact H3]. reflexivity.
  - destruct Hn as [->|(n & -> & Hn)]; [done|]. apply justified_snoc; [done|]. by intros d' e ->.
  - intros d'. destruct (decide (d' = d)) as [->|Hne]; [done|]. rewrite Hh by done. specialize (H5 d').
    destruct Hn as [->|(n & -> & Hn)]; [done|by apply outcome_ok_snoc].
  - intros Hcl. destruct (H6 Hcl) as (d' & e & Hd'). exists d', e. rewrite Hh; [done|].
    intros ->. by destruct (Hd (Some e)).
Qed.

Lemma sampled_weaken (P Q : Z -> Z -> Prop) notes d e :
  (forall t now, P t now -> Q t now) -> sampled P notes d e -> sampled Q notes d e.
Proof. intros HPQ (l3 & l4 & E & H4 & H3). exists l3, l4. split_and!; eauto. Qed.

Lemma call_not_done x : call_at x <> None -> forall e, x <> HDone e.
Proof. by intros H e ->. Qed.

Context (Htimeout : 0 < timeout < 2 ^ 63).

(** Giving up means that the reading was at least the timeout after [g]. *)
Lemma quiet_gives_up x elapsed g e :
  call_at x = Some CallQuiet -> 0 <= g <= elapsed -> elapsed < 2 ^ 63 ->
  quiet_ret x (quiet_value elapsed g) = HFail e -> e = errTunnelIdle /\ g <= elapsed - timeout.
Proof.
  intros Hx Hg He.
  assert (Hq : quiet_value elapsed g = elapsed - g).
  { unfold quiet_value. apply wrap64_id. unfold is_int64, min_int64, max_int64. lia. }
  assert (Hr : remaining timeout (elapsed - g) = timeout - (elapsed - g)).
  { unfold remaining. apply wrap64_id. unfold is_int64, min_int64, max_int64. lia. }
  rewrite Hq. destruct x; try done; cbn [quiet_ret]; rewrite ?Hr.
  - destruct (Z.leb_spec (timeout - (elapsed - g)) 0); [|done]. intros [= <-]. split; [done|lia].
  - destruct (Z.leb_spec (timeout - (elapsed - g)) 0); [|done]. intros [= <-]. split; [done|lia].
  - unfold idle. destruct (Z.leb_spec timeout (elapsed - g)); [|done]. intros [= <-]. split; [done|lia].
Qed.

(** Where a goroutine goes after [quietFor]. *)
Lemma quiet_ret_cases x q :
  call_at x = Some CallQuiet ->
  quiet_ret x q = HRead \/ quiet_ret x q = HBudget \/ exists e, quiet_ret x q = HFail e.
Proof. destruct x; try done; cbn; intros _; repeat case_match; eauto. Qed.

Lemma pinv_quiet_ret s d l e g :
  k_time (p_clock s) < 2 ^ 63 -> pinv s -> at_pc s d = QQuiet l e g -> call_at (p_half s d) = Some CallQuiet ->
  let x := quiet_ret (p_half s d) (quiet_value e l) in
  pinv (mk_pstate (clock_set (p_clock s) d (k_last (p_clock s)) TIdle) (h_set (p_half s) d x) (p_closed s)
          (p_notes s ++ match x with HFail _ => [PIdle d e] | _ => [] end)).
Proof.
  intros Ht Hi Hpc Hcall x. pose proof Hi as [[HL Hp] _ H3 _ _ _]. specialize (Hp (gid d)). specialize (H3 d).
  rewrite Hcall, Hpc in H3. unfold at_pc in Hpc. rewrite Hpc in Hp. cbn in Hp, H3.
  destruct Hp as (Hl & -> & Hg & He).
  assert (Hne : forall e, p_half s d <> HDone e) by (apply call_not_done; by rewrite Hcall).
  destruct (quiet_ret_cases (p_half s d) (quiet_value e g) Hcall) as [E|[E|[e' E]]]; subst x; rewrite E.
  1, 2: rewrite app_nil_r; apply pinv_clock; try done; try lia;
    [intros d' Hd'; by rewrite h_set_ne|by left|by rewrite h_set_eq|by rewrite h_set_eq].
  apply quiet_gives_up in E as [-> Hge]; [|done|lia|lia]. apply pinv_clock; try done; try lia.
  - intros d' Hd'. by rewrite h_set_ne.
  - right. exists (PIdle d e). split; [done|]. eapply sampled_weaken; [|exact H3]. cbn. lia.
  - by rewrite h_set_eq.
  - rewrite h_set_eq. intros _. exists e. apply elem_of_app. right. by apply list_elem_of_singleton.
Qed.

Lemma pinv_touch_ret s d t now :
  pinv s -> at_pc s d = TTouched now -> call_at (p_half s d) = Some (CallTouch t) ->
  pinv (mk_pstate (clock_set (p_clock s) d (k_last (p_clock s)) TIdle)
          (h_set (p_half s) d (touch_ret (p_half s d))) (p_closed s) (p_notes s ++ [PProgress d t now])).
Proof.
  intros Hi Hpc Hcall. pose proof Hi as [[HL Hp] _ H3 _ H5 _]. specialize (Hp (gid d)). specialize (H3 d).
  specialize (H5 d). rewrite Hcall, Hpc in H3. unfold at_pc in Hpc. rewrite Hpc in Hp. cbn in Hp, H3.
  apply pinv_clock; try done; try lia.
  - intros d' Hd'. by rewrite h_set_ne.
  - apply call_not_done. by rewrite Hcall.
  - right. exists (PProgress d t now). split; [done|]. cbn. lia.
  - rewrite h_set_eq. by destruct (p_half s d).
  - rewrite h_set_eq. by destruct (p_half s d).
Qed.

Lemma pinv_sample s d l :
  pinv s -> at_pc s d = QSince l ->
  let K := p_clock s in
  pinv (mk_pstate (clock_set K d (k_last K) (QCheck l (k_time K) (k_last K))) (p_half s) (p_closed s)
          (p_notes s ++ [PSample d (k_time K)])).
Proof.
  intros Hi Hpc K. subst K. pose proof Hi as [[HL Hp] H2 H3 _ H5 _]. specialize (Hp (gid d)). specialize (H3 d).
  rewrite Hpc in H3. unfold at_pc in Hpc. rewrite Hpc in Hp. cbn in Hp.
  assert (Hcall : call_at (p_half s d) = Some CallQuiet) by (by destruct (call_at (p_half s d)) as [[]|]).
  apply pinv_clock; try done; try lia.
  - cbn. lia.
  - apply call_not_done. by rewrite Hcall.
  - right. by exists (PSample d (k_time (p_clock s))).
  - rewrite Hcall. exists (p_notes s), []. split_and!; [done|intros e'; apply not_elem_of_nil|done].
  - by apply outcome_ok_snoc.
Qed.

Lemma clock_next_inv s d s' :
  k_time (p_clock s) < 2 ^ 63 -> pinv s -> clock_next s d = Some s' -> pinv s'.
Proof.
  intros Ht Hi. pose proof Hi as [[HL Hp] _ H3 _ H5 _]. pose proof (Hp (gid d)) as Hpd. pose proof (H3 d) as Hcd.
  unfold clock_next.
  assert (Hinner : at_pc s d <> TIdle -> match inner_next (k_last (p_clock s)) (at_pc s d) with
    | Some (L, y) => Some (mk_pstate (clock_set (p_clock s) d L y) (p_half s) (p_closed s) (p_notes s))
    | None => None end = Some s' -> pinv s').
  { intros Hnt. destruct (inner_next _ _) as [[L y]|] eqn:E; [|done]. intros [= <-].
    destruct (inner_next_ok _ _ _ _ _ HL Hpd E) as [HL' Hy]. apply pinv_clock; try done; [|by left|].
    - apply call_not_done. intros Hn. rewrite Hn in Hcd. by destruct (at_pc s d).
    - by eapply inner_next_call. }
  destruct (at_pc s d) as [|now|now l|now| |l|l e g|l e g] eqn:Epc; try (by apply Hinner).
  - destruct (call_at (p_half s d)) as [[|t]|] eqn:Ec; [..|done]; intros [= <-]; apply pinv_clock; try done; try lia.
    all: first [by left|by apply call_not_done; rewrite Ec|by rewrite Ec|cbn; lia].
  - destruct (call_at (p_half s d)) as [[|t]|] eqn:Ec; try done. intros [= <-]. by apply pinv_touch_ret.
  - intros [= <-]. by apply pinv_sample.
  - destruct (call_at (p_half s d)) as [[|t]|] eqn:Ec; try done. intros [= <-]. by apply (pinv_quiet_ret s d l e g).
Qed.

Lemma pinv_tick s d : 0 <= d -> pinv s ->
  pinv (mk_pstate (mk_kstate (k_last (p_clock s)) (k_time (p_clock s) + d) (k_pc (p_clock s)))
          (p_half s) (p_closed s) (p_notes s)).
Proof.
  intros Hd [H1 H2 H3 H4 H5 H6]. constructor; cbn; try done.
  - eapply clock_inv_step; [exact H1|by apply k_tick].
  - intros d'. specialize (H3 d'). unfold at_pc in *. cbn.
    destruct (call_at (p_half s d')) as [[|t]|], (k_pc (p_clock s) (gid d')); cbn in *; try done; lia.
Qed.

Lemma pinv_teardown s d e :
  pinv s -> p_half s d = HFail e ->
  pinv (mk_pstate (p_clock s) (h_set (p_half s) d (HDone (Some e))) true (p_notes s)).
Proof.
  intros Hi Hd. pose proof (pinv_idle_pc s d Hi) as Hpc. rewrite Hd in Hpc. specialize (Hpc eq_refl).
  destruct Hi as [H1 H2 H3 H4 H5 H6]. constructor; cbn; try done.
  - intros d'. unfold at_pc in *. cbn. destruct (decide (d' = d)) as [->|Hne]; [by rewrite h_set_eq, Hpc|].
    rewrite h_set_ne by done. apply H3.
  - intros d'. destruct (decide (d' = d)) as [->|Hne]; [|by rewrite h_set_ne].
    rewrite h_set_eq. specialize (H5 d). by rewrite Hd in H5.
  - intros _. exists d, e. apply h_set_eq.
Qed.

Lemma pnext_inv c s s' : k_time (p_clock s) < 2 ^ 63 -> pinv s -> pnext c s = Some s' -> pinv s'.
Proof.
  intros Ht Hi. pose proof (pi_outcome s Hi) as Ho.
  assert (Hgo : forall d x, call_at (p_half s d) = None -> (forall e, p_half s d <> HDone e) ->
    match call_at x with Some (CallTouch t) => t = k_time (p_clock s) | _ => True end ->
    outcome_ok (p_notes s) d x -> pinv (goto s d x)).
  { intros d x Hc Hd Hx Hx'. apply pinv_goto; try done; [by apply pinv_idle_pc|].
    destruct (call_at x) as [[|t]|]; try done. lia. }
  destruct c as [d|d|d got e|d what|d e|d|d e|d]; cbn [pnext].
  - destruct (Z.leb_spec 0 d); [|done]. intros [= <-]. by apply pinv_tick.
  - by apply clock_next_inv.
  - destruct (p_half s d) eqn:E; try done. destruct (foreign e) eqn:Ef; [|done]. intros [= <-].
    apply Hgo; try (by rewrite E); destruct got; try done; [|by apply after_read_ok].
    destruct (after_read_ok (p_notes s) d e Ef) as [_ Hc]. by destruct (call_at (after_read e)) as [[]|].
  - destruct (p_half s d) eqn:E; try done. intros [= <-].
    apply Hgo; try (by rewrite E); destruct what as [|[|]]; done.
  - specialize (Ho d). destruct (p_half s d) eqn:E; try done. destruct (foreign e) eqn:Ef; [|done]. intros [= <-].
    destruct (after_read_ok (p_notes s) d readErr Ho) as [Ha Hc].
    apply Hgo; try (by rewrite E); destruct e as [e|]; try done; [|by apply foreign_outcome].
    by destruct (call_at (after_read readErr)) as [[]|].
  - specialize (Ho d). destruct (p_half s d) eqn:E; try done. intros [= <-]. apply Hgo; try (by rewrite E); done.
  - destruct (p_half s d) eqn:E; try done. destruct (foreign e) eqn:Ef; [|done]. intros [= <-].
    apply Hgo; try (by rewrite E); destruct e as [e|]; try done. by apply foreign_outcome.
  - destruct (p_half s d) eqn:E; try done. intros [= <-]. by apply pinv_teardown.
Qed.

Lemma pnext_time c s s' : pnext c s = Some s' -> k_time (p_clock s) <= k_time (p_clock s').
Proof.
  destruct c as [d|d|d got e|d what|d e|d|d e|d]; cbn [pnext]; try (by repeat case_match; intros; simplify_eq).
  - destruct (Z.leb_spec 0 d); [|done]. intros [= <-]. cbn. lia.
  - unfold clock_next. repeat case_match; intros; simplify_eq; cbn; lia.
Qed.

Lemma pinv_reachable s : rtc pstep pair_start s -> k_time (p_clock s) < 2 ^ 63 -> pinv s.
Proof.
  revert s. refine (rtc_ind_r (fun s => k_time (p_clock s) < 2 ^ 63 -> pinv s) _ _ _).
  - intros _. apply pinv_start.
  - intros s1 s2 _ [c Hc] IH Ht. pose proof (pnext_time _ _ _ Hc). eapply pnext_inv; [|apply IH|exact Hc]; lia.
Qed.

(** A direction that has failed has closed both connections. *)
Definition torn_down (s : pstate) : Prop := forall d e, p_half s d = HDone (Some e) -> p_closed s = true.

Lemma torn_down_set s half' K notes d x :
  torn_down s -> (forall e, x <> HDone (Some e)) ->
  (forall d', d' <> d -> half' d' = p_half s d') -> half' d = x ->
  torn_down (mk_pstate K half' (p_closed s) notes).
Proof using Type.
  intros Hi Hx Hne Heq d' e. cbn. destruct (decide (d' = d)) as [->|Hd]; [rewrite Heq; intros E; by apply Hx in E|].
  rewrite Hne by done. apply Hi.
Qed.

Lemma torn_down_same s K notes : torn_down s -> torn_down (mk_pstate K (p_half s) (p_closed s) notes).
Proof using Type. done. Qed.

Lemma torn_down_goto s d x : torn_down s -> (forall e, x <> HDone (Some e)) -> torn_down (goto s d x).
Proof using Type.
  intros Hi Hx. apply (torn_down_set s _ _ _ d x); try done; [intros d' Hd; by apply h_set_ne|apply h_set_eq].
Qed.

Lemma after_read_running e e' : after_read e <> HDone (Some e').
Proof using Type. unfold after_read. by repeat case_match. Qed.

Lemma torn_down_clock s d s' : torn_down s -> clock_next s d = Some s' -> torn_down s'.
Proof using Type.
  intros Hi. unfold clock_next.
  destruct (at_pc s d) as [|now|now l|now| |l|l e g|l e g]; cbn [inner_next];
    try (repeat case_match; intros; simplify_eq; by apply torn_down_same).
  - destruct (call_at (p_half s d)) as [[|t]|] eqn:Ec; try done. intros [= <-].
    apply (torn_down_set s _ _ _ d (touch_ret (p_half s d))); [done| |intros; by apply h_set_ne|apply h_set_eq].
    by destruct (p_half s d).
  - destruct (call_at (p_half s d)) as [[|t]|] eqn:Ec; try done. intros [= <-].
    apply (torn_down_set s _ _ _ d (quiet_ret (p_half s d) (quiet_value e l)));
      [done| |intros; by apply h_set_ne|apply h_set_eq].
    destruct (quiet_ret_cases _ (quiet_value e l) Ec) as [-> | [-> | [e' ->]]]; done.
Qed.

Lemma torn_down_next c s s' : torn_down s -> pnext c s = Some s' -> torn_down s'.
Proof using Type.
  intros Hi. destruct c as [d|d|d got e|d what|d e|d|d e|d]; cbn [pnext].
  - case_match; [|done]. intros [= <-]. by apply torn_down_same.
  - by apply torn_down_clock.
  - destruct (p_half s d); try done. destruct (foreign e); [|done]. intros [= <-].
    apply torn_down_goto; [done|]. destruct got; [done|apply after_read_running].
  - destruct (p_half s d); try done. intros [= <-]. apply torn_down_goto; [done|]. by destruct what as [|[|]].
  - destruct (p_half s d); try done. destruct (foreign e); [|done]. intros [= <-].
    apply torn_down_goto; [done|]. destruct e; [done|apply after_read_running].
  - destruct (p_half s d); try done. intros [= <-]. by apply torn_down_goto.
  - destruct (p_half s d); try done. destruct (foreign e); [|done]. intros [= <-].
    apply torn_down_goto; [done|]. by destruct e.
  - destruct (p_half s d); try done. by intros [= <-].
Qed.

Lemma torn_down_reachable s : rtc pstep pair_start s -> torn_down s.
Proof using Type.
  revert s. refine (rtc_ind_r torn_down _ _ _).
  - done.
  - intros s1 s2 _ [c Hc] IH. by eapply torn_down_next.
Qed.

(** C22 (tunnel_cut_when_idle): a tunnel is cut only when it is idle.  In every interleaving of the two
    directions, the connections are closed exactly when a direction has failed; a
    direction fails with [errTunnelIdle] only on a reading [e] of the clock, its
    latest, before which every recorded progress of either direction, in a
    read, or inside a transport read or write, was made at least the timeout
    before [e]: progress in one direction keeps the other one open. *)
Theorem tunnel_cut_when_idle s :
  rtc pstep pair_start s -> k_time (p_clock s) < 2 ^ 63 ->
  (p_closed s = true <-> exists d e, p_half s d = HDone (Some e)) /\
  (forall d e, p_half s d = HDone (Some e) -> idle_error e = true -> exists el, PIdle d el ∈ p_notes s) /\
  (forall l1 d e l2, p_notes s = l1 ++ PIdle d e :: l2 ->
     exists l3 l4, l1 = l3 ++ PSample d e :: l4 /\ (forall e', PSample d e' ∉ l4) /\
       forall d' t now, PProgress d' t now ∈ l3 -> t <= now <= e - timeout).
Proof using Htimeout.
  intros Hs Ht. destruct (pinv_reachable s Hs Ht) as [_ _ _ Hj Ho Hc]. split; [|split; [|done]].
  - split; [done|]. intros (d & e & Hd). by apply (torn_down_reachable s Hs d e).
  - intros d e Hd. specialize (Ho d). by rewrite Hd in Ho.
Qed.
End Pair.

(** ** Witness: a download of ten time units past the client's timeout *)

(** A method of the clock run by [d] without interference. *)
Definition quiet_alone (d : side) : list choice := replicate 5 (CClock d).
Definition touch_alone (d : side) : list choice := replicate 4 (CClock d).

Definition demo_timeout_error : error := Err (KNet true) "i/o timeout" None.

(** Both directions read; the upstream delivers at 7, which is copied to the
    client; the client's read times out at 10 and goes on; at 17 it times out
    again and gives up. *)
Definition demo_schedule : list choice :=
  quiet_alone SConn ++ quiet_alone SPeer ++
  [CTick 7; CRead SPeer true None] ++ touch_alone SPeer ++ [CWrote SPeer None] ++ quiet_alone SPeer ++
  [CTick 3; CRead SConn false (Some demo_timeout_error)] ++ quiet_alone SConn ++ quiet_alone SConn ++
  [CTick 7; CRead SConn false (Some demo_timeout_error)] ++ quiet_alone SConn ++ [CTearDown SConn].

Definition demo_pair : pstate := default pair_start (prun 10 demo_schedule pair_start).

Lemma tunnel_cut_when_idle_witness :
  p_closed demo_pair = true /\ p_half demo_pair SConn = HDone (Some errTunnelIdle) /\
  PProgress SPeer 7 7 ∈ p_notes demo_pair /\ exists el, PIdle SConn el ∈ p_notes demo_pair.
Proof.
  split; [vm_compute; reflexivity|]. split; [vm_compute; reflexivity|].
  split; [apply (list_elem_of_lookup_2 _ 2); vm_compute; reflexivity|].
  apply (tunnel_cut_when_idle 10) with (e := errTunnelIdle).
  - lia.
  - apply (prun_rtc 10 demo_schedule). unfold demo_pair.
    destruct (prun 10 demo_schedule pair_start) eqn:E; [reflexivity|vm_compute in E; discriminate E].
  - vm_compute. reflexivity.
  - vm_compute. reflexivity.
  - reflexivity.
Defined.
