(* ===== verification/CopyPool.v ===== *)
(** * Copies that share buffers: [copyBufPool] of [config.go]

    Every [idleCopy] of the process takes its buffer from one [sync.Pool] and
    gives it back when it returns.  Here any number of copies run at once over a
    store of buffers: a step is one action of one copy, or the pool forgetting a
    buffer, and what a copy writes is read from its buffer when it is written.
    Sharing does not show: each copy does what [idleCopy] of [Tunnel] does, where
    data are passed by value, with the same answers of its own connections. *)

From S2P Require Import Prelude GoStrings Errors TunnelClock Tunnel TunnelThms.

(** ** Buffers *)

(** The size of the slices made by [copyBufPool.New]. *)
Definition bufsize : nat := Z.to_nat (32 * 1024).
Arguments bufsize : simpl never.

Definition zeros : string := str_concat (replicate bufsize (String Ascii.zero "")).

(** The buffers of the pool and the contents of every buffer made so far. *)
Record store := mk_store { po_free : gset nat; po_heap : gmap nat string }.

Definition buffer (m : store) (b : nat) : string := default "" (po_heap m !! b).

(** [copy(buf, s)] *)
Definition fill (m : store) (b : nat) (s : string) : store :=
  mk_store (po_free m) (<[b := s +:+ str_drop (String.length s) (buffer m b)]> (po_heap m)).

(** [copyBufPool.Get()] returns [b]: a buffer of the pool, or a new one. *)
Definition pool_get (m : store) (b : nat) : option store :=
  if bool_decide (b ∈ po_free m) then Some (mk_store (po_free m ∖ {[b]}) (po_heap m))
  else match po_heap m !! b with
  | None => Some (mk_store (po_free m) (<[b := zeros]> (po_heap m)))
  | Some _ => None
  end.

(** [copyBufPool.Put(b)] *)
Definition pool_put (m : store) (b : nat) : store := mk_store ({[b]} ∪ po_free m) (po_heap m).

(** ** One copy *)

(** Where a copy is in [idleCopy]: the call it is in or about to make, and the
    buffer it holds.  [KWrite b off n e]: [dst.Write(buf[:n])], of which [off]
    octets have been accepted, after a read that returned [e]. *)
Inductive cpc :=
| KGet
| KBudget (b : nat)
| KRead (b : nat)
| KWrite (b off n : nat) (readErr : option error)
| KIdle (b : nat)
| KReturn (b : nat) (r : option error)
| KDone (r : option error).

(** A copy, with the octets its reads have returned and those its writes have
    accepted; [total] is the number of the latter. *)
Record copy := mk_copy { cp_pc : cpc; cp_read : string; cp_written : string }.

Definition new_copy : copy := mk_copy KGet "" "".

(** What a copy can do next, with what the pool, the clock and the connections
    answer.  A read may use the buffer as scratch space before it returns, and
    a write takes its data in pieces. *)
Inductive act :=
| AGet (b : nat)
| ABudget (q : Z)
| AScratch (junk : string)
| ARead (data : string) (e : option error)
| AWriteSome (k : nat)
| AWrote (e : option error)
| AIdle (q : Z)
| APut.

(** The end of a round, from the test of [readErr]. *)
Definition round_end (b : nat) (readErr : option error) : cpc :=
  match readErr with
  | None => KBudget b
  | Some e => if isTimeoutError e then KIdle b else if errors_is e KEOF then KReturn b None else KReturn b (Some e)
  end.

Section Pool.
Context (timeout : Z).

(** [idleCopy] *)
Definition copy_next (m : store) (c : copy) (a : act) : option (store * copy) :=
  let at_ pc := mk_copy pc (cp_read c) (cp_written c) in
  match a, cp_pc c with
  | AGet b, KGet => match pool_get m b with Some m' => Some (m', at_ (KBudget b)) | None => None end
  | ABudget q, KBudget b =>
      Some (m, at_ (if remaining timeout q <=? 0 then KReturn b (Some errTunnelIdle) else KRead b))
  | AScratch junk, KRead b =>
      if (String.length junk <=? bufsize)%nat then Some (fill m b junk, c) else None
  | ARead data e, KRead b =>
      let n := String.length data in
      if (n <=? bufsize)%nat
      then Some (fill m b data,
                 mk_copy (if (0 <? n)%nat then KWrite b 0 n e else round_end b e) (cp_read c +:+ data) (cp_written c))
      else None
  | AWriteSome k, KWrite b off n e =>
      if (off + k <=? n)%nat
      then Some (m, mk_copy (KWrite b (off + k) n e) (cp_read c)
                      (cp_written c +:+ str_take k (str_drop off (str_take n (buffer m b)))))
      else None
  | AWrote (Some e), KWrite b _ _ _ => Some (m, at_ (KReturn b (Some e)))
  | AWrote None, KWrite b off n e => if (off =? n)%nat then Some (m, at_ (round_end b e)) else None
  | AIdle q, KIdle b =>
      Some (m, at_ (if negb (idle timeout q) then KBudget b else KReturn b (Some errTunnelIdle)))
  | APut, KReturn b r => Some (pool_put m b, at_ (KDone r))
  | _, _ => None
  end.

(** ** All copies *)

Record sys := mk_sys { sy_store : store; sy_copies : list copy }.

Definition sys_init : sys := mk_sys (mk_store ∅ ∅) [].

(** A copy starts, the pool forgets a buffer, or a copy acts. *)
Inductive choice := CStart | CForget (b : nat) | CAct (i : nat) (a : act).

Definition sys_next (c : choice) (s : sys) : option sys :=
  match c with
  | CStart => Some (mk_sys (sy_store s) (sy_copies s ++ [new_copy]))
  | CForget b => Some (mk_sys (mk_store (po_free (sy_store s) ∖ {[b]}) (po_heap (sy_store s))) (sy_copies s))
  | CAct i a =>
      match sy_copies s !! i with
      | None => None
      | Some c =>
          match copy_next (sy_store s) c a with
          | None => None
          | Some (m, c') => Some (mk_sys m (<[i := c']> (sy_copies s)))
          end
      end
  end.

End Pool.

(** Runs of a partial step function. *)
Fixpoint orun {S C : Type} (next : C -> S -> option S) (cs : list C) (s : S) : option S :=
  match cs with
  | [] => Some s
  | c :: cs => match next c s with Some s' => orun next cs s' | None => None end
  end.

Lemma orun_snoc {S C} (next : C -> S -> option S) cs c s :
  orun next (cs ++ [c]) s = match orun next cs s with Some s' => next c s' | None => None end.
Proof.
  revert s. induction cs as [|d cs IH]; intros s; cbn; [by destruct (next c s)|]. destruct (next d s); [apply IH|done].
Qed.

(** The actions of one copy. *)
Definition mine (i : nat) (cs : list choice) : list act :=
  omap (fun c => match c with CAct j a => if bool_decide (j = i) then Some a else None | _ => None end) cs.

Lemma mine_snoc i cs c : mine i (cs ++ [c]) = mine i cs ++ mine i [c].
Proof. apply omap_app. Qed.

(** ** A copy on its own *)

(** The same loop with the data it has read as values: no store. *)
Inductive spc :=
| SGet
| SBudget
| SRead
| SWrite (rest : string) (readErr : option error)
| SIdle
| SReturn (r : option error)
| SDone (r : option error).

Record solo := mk_solo { so_pc : spc; so_read : string; so_written : string }.

Definition solo_init : solo := mk_solo SGet "" "".

Definition solo_end (readErr : option error) : spc :=
  match readErr with
  | None => SBudget
  | Some e => if isTimeoutError e then SIdle else if errors_is e KEOF then SReturn None else SReturn (Some e)
  end.

Section Solo.
Context (timeout : Z).

Definition solo_next (a : act) (s : solo) : option solo :=
  let at_ pc := Some (mk_solo pc (so_read s) (so_written s)) in
  match a, so_pc s with
  | AGet _, SGet => at_ SBudget
  | ABudget q, SBudget => at_ (if remaining timeout q <=? 0 then SReturn (Some errTunnelIdle) else SRead)
  | AScratch _, SRead => Some s
  | ARead data e, SRead =>
      Some (mk_solo (if (0 <? String.length data)%nat then SWrite data e else solo_end e) (so_read s +:+ data) (so_written s))
  | AWriteSome k, SWrite rest e =>
      if (k <=? String.length rest)%nat
      then Some (mk_solo (SWrite (str_drop k rest) e) (so_read s) (so_written s +:+ str_take k rest)) else None
  | AWrote (Some e), SWrite _ _ => at_ (SReturn (Some e))
  | AWrote None, SWrite rest e => if String.eqb rest "" then at_ (solo_end e) else None
  | AIdle q, SIdle => at_ (if negb (idle timeout q) then SBudget else SReturn (Some errTunnelIdle))
  | APut, SReturn r => at_ (SDone r)
  | _, _ => None
  end.

End Solo.

(** What a copy amounts to, given the store. *)
Definition solo_pc (m : store) (pc : cpc) : spc :=
  match pc with
  | KGet => SGet
  | KBudget _ => SBudget
  | KRead _ => SRead
  | KWrite b off n e => SWrite (str_drop off (str_take n (buffer m b))) e
  | KIdle _ => SIdle
  | KReturn _ r => SReturn r
  | KDone r => SDone r
  end.

Definition solo_of (m : store) (c : copy) : solo := mk_solo (solo_pc m (cp_pc c)) (cp_read c) (cp_written c).

(** The buffer a copy holds. *)
Definition holding (c : copy) : option nat :=
  match cp_pc c with
  | KGet | KDone _ => None
  | KBudget b | KRead b | KWrite b _ _ _ | KIdle b | KReturn b _ => Some b
  end.

(** ** Buffers have one owner *)

Definition made (m : store) (b : nat) : Prop := String.length <$> po_heap m !! b = Some bufsize.

(** The slice that is being written lies inside the buffer. *)
Definition fits (c : copy) : Prop :=
  match cp_pc c with KWrite _ off n _ => (off <= n <= bufsize)%nat | _ => True end.

Record owned (s : sys) : Prop := {
  ow_once : forall i j c d b, sy_copies s !! i = Some c -> sy_copies s !! j = Some d ->
    holding c = Some b -> holding d = Some b -> i = j;
  ow_free : forall i c b, sy_copies s !! i = Some c -> holding c = Some b -> b ∉ po_free (sy_store s);
  ow_held : forall i c b, sy_copies s !! i = Some c -> holding c = Some b -> made (sy_store s) b;
  ow_pool : forall b, b ∈ po_free (sy_store s) -> made (sy_store s) b;
  ow_fits : forall i c, sy_copies s !! i = Some c -> fits c
}.

Lemma length_zeros : String.length zeros = bufsize.
Proof.
  unfold zeros. induction bufsize as [|n IH]; [done|]. rewrite replicate_S. change (str_concat (?x :: ?l)) with (x +:+ str_concat l).
  rewrite str_length_app, IH. done.
Qed.

Lemma buffer_made m b : made m b -> String.length (buffer m b) = bufsize.
Proof. unfold made, buffer. destruct (po_heap m !! b); [|done]. by intros [= <-]. Qed.

Lemma fill_made m b s b' : (String.length s <= bufsize)%nat -> made m b -> made m b' -> made (fill m b s) b'.
Proof.
  intros Hs Hb Hb'. unfold made, fill. cbn. destruct (decide (b' = b)) as [->|].
  - rewrite lookup_insert_eq. cbn. rewrite str_length_app, str_length_drop, buffer_made by done. f_equal. lia.
  - by rewrite lookup_insert_ne.
Qed.

Lemma fill_other m b s b' : b' <> b -> buffer (fill m b s) b' = buffer m b'.
Proof. intros H. unfold buffer, fill. cbn. by rewrite lookup_insert_ne. Qed.

Lemma fill_take m b s : str_take (String.length s) (buffer (fill m b s) b) = s.
Proof. unfold fill, buffer at 1. cbn. rewrite lookup_insert_eq. cbn. apply str_take_app. Qed.

(** What an action leaves alone, what it can take, and what it can give back. *)
Record polite (m : store) (c : copy) (m' : store) (c' : copy) : Prop := {
  po_other : forall b, made m b -> holding c <> Some b -> made m' b /\ buffer m' b = buffer m b;
  po_took : forall b, holding c' = Some b -> made m' b /\ b ∉ po_free m' /\
    (holding c = Some b \/ b ∈ po_free m \/ po_heap m !! b = None);
  po_gave : forall b, b ∈ po_free m' -> made m' b /\ (b ∈ po_free m \/ holding c = Some b);
  po_fits : fits c'
}.

Definition fine (m : store) (c : copy) : Prop :=
  (forall b, holding c = Some b -> made m b /\ b ∉ po_free m) /\ (forall b, b ∈ po_free m -> made m b) /\ fits c.

Lemma holding_round_end b e x y : holding (mk_copy (round_end b e) x y) = Some b /\ fits (mk_copy (round_end b e) x y).
Proof. unfold round_end. by repeat case_match. Qed.

(** An action that changes neither the pool nor the buffer held. *)
Lemma polite_same m c c' : fine m c -> holding c' = holding c -> fits c' -> polite m c m c'.
Proof.
  intros (H1 & H2 & _) He Hf. split; [done| | |done].
  - intros b Hb. rewrite He in Hb. destruct (H1 b Hb). auto.
  - auto.
Qed.

Lemma polite_fill m c b s c' :
  fine m c -> holding c = Some b -> (String.length s <= bufsize)%nat -> holding c' = Some b -> fits c' ->
  polite m c (fill m b s) c'.
Proof.
  intros (H1 & H2 & _) Hc Hs Hc' Hf. destruct (H1 b Hc) as [Hb Hn]. split; [| | |done].
  - intros b' Hb' Hne. split; [by apply fill_made|]. apply fill_other. congruence.
  - intros b' [= <-]%(eq_trans (eq_sym Hc')). split_and!; [by apply fill_made|done|by left].
  - intros b' Hb'. split; [|by left]. apply fill_made; auto.
Qed.

Lemma polite_get m c b m' c' :
  fine m c -> holding c = None -> pool_get m b = Some m' -> holding c' = Some b -> fits c' -> polite m c m' c'.
Proof.
  intros (_ & H2 & _) Hc Hg Hc' Hf. unfold pool_get in Hg. case_bool_decide as Hb.
  - injection Hg as <-. split; [done| | |done].
    + intros b' [= <-]%(eq_trans (eq_sym Hc')). cbn. split_and!; [by apply H2|set_solver|auto].
    + cbn. intros b' Hb'. split; [apply H2|left]; set_solver.
  - destruct (po_heap m !! b) eqn:Eb; [done|]. injection Hg as <-.
    assert (Hm : forall b', made m b' -> b' <> b) by (intros b' Hb' ->; unfold made in Hb'; by rewrite Eb in Hb').
    split; [| | |done].
    + intros b' Hb' _. pose proof (Hm b' Hb'). unfold made, buffer. cbn. by rewrite !lookup_insert_ne.
    + intros b' [= <-]%(eq_trans (eq_sym Hc')). unfold made. cbn. rewrite lookup_insert_eq. cbn. rewrite length_zeros. auto.
    + cbn. intros b' Hb'. pose proof (Hm b' (H2 b' Hb')). unfold made. cbn. rewrite lookup_insert_ne by done.
      split; [by apply H2|by left].
Qed.

Lemma polite_put m c b c' :
  fine m c -> holding c = Some b -> holding c' = None -> fits c' -> polite m c (pool_put m b) c'.
Proof.
  intros (H1 & H2 & _) Hc Hc' Hf. split; [done| | |done].
  - intros b' Hb'. congruence.
  - cbn. intros b' [->%elem_of_singleton|Hb']%elem_of_union.
    + split; [apply (H1 b Hc)|by right].
    + split; [apply (H2 b' Hb')|by left].
Qed.

Lemma copy_polite timeout m c a m' c' : fine m c -> copy_next timeout m c a = Some (m', c') -> polite m c m' c'.
Proof.
  intros Hm E. pose proof Hm as (_ & _ & Hf). unfold copy_next in E. unfold fits in Hf.
  destruct c as [pc rd wr]. cbn [cp_pc cp_read cp_written] in *.
  destruct a as [b|q|junk|data e|k|[e|]|q|]; destruct pc; simplify_eq/=; try (repeat case_match; simplify_eq).
  all: repeat match goal with H : (_ <=? _)%nat = true |- _ => apply Nat.leb_le in H end.
  all: try (by eapply polite_get); try (by apply polite_put).
  all: try (eapply polite_fill; [done|done|done|..]; try apply holding_round_end; try done; unfold fits; cbn; lia).
  all: apply polite_same; [done|..]; try apply holding_round_end; try done; unfold fits; cbn; lia.
Qed.

(** ** Copies do not notice each other *)

Lemma solo_round_end m b e : solo_pc m (round_end b e) = solo_end e.
Proof. unfold round_end, solo_end. by repeat case_match. Qed.

Lemma slice_length off n s : (n <= String.length s)%nat -> String.length (str_drop off (str_take n s)) = (n - off)%nat.
Proof. intros H. by rewrite str_length_drop, str_length_take. Qed.

(** An action of a copy is the same action of the copy on its own. *)
Lemma copy_solo timeout m c a m' c' :
  fine m c -> copy_next timeout m c a = Some (m', c') -> solo_next timeout a (solo_of m c) = Some (solo_of m' c').
Proof.
  intros (H1 & _ & Hf) E. unfold copy_next in E. unfold fits in Hf. unfold solo_next, solo_of.
  destruct c as [pc rd wr]. cbn [cp_pc cp_read cp_written] in *. cbn [so_pc so_read so_written].
  destruct a as [b|q|junk|data e|k|[e|]|q|]; destruct pc; cbn [solo_pc] in *; try discriminate E.
  - case_match; simplify_eq/=. done.
  - injection E as <- <-. cbn. by repeat case_match.
  - case_match; by simplify_eq/=.
  - case_match; [|done]. injection E as <- <-. cbn [cp_pc cp_read cp_written]. do 2 f_equal. case_match.
    + cbn [solo_pc]. by rewrite fill_take.
    + by rewrite solo_round_end.
  - case_match eqn:Ek; [|done]. apply Nat.leb_le in Ek. injection E as <- <-. cbn [cp_pc cp_read cp_written solo_pc].
    destruct (H1 b eq_refl) as [Hb%buffer_made _]. rewrite slice_length by lia.
    destruct (Nat.leb_spec k (n - off)); [|lia]. by rewrite str_drop_drop.
  - by injection E as <- <-.
  - case_match eqn:Ek; [|done]. apply Nat.eqb_eq in Ek as ->. injection E as <- <-. cbn [cp_pc cp_read cp_written].
    destruct (H1 b eq_refl) as [Hb%buffer_made _].
    assert (Hl : String.length (str_drop n (str_take n (buffer m b))) = 0%nat) by (rewrite slice_length; lia).
    destruct (str_drop n (str_take n (buffer m b))); [|done]. cbn. by rewrite solo_round_end.
  - injection E as <- <-. cbn. by repeat case_match.
  - by injection E as <- <-.
Qed.

(** A copy that keeps still means the same when its buffer is left alone. *)
Lemma solo_of_still m m' c :
  (forall b, holding c = Some b -> buffer m' b = buffer m b) -> solo_of m' c = solo_of m c.
Proof.
  intros H. unfold solo_of. f_equal. unfold holding in H. destruct (cp_pc c); cbn; try done. by rewrite (H b eq_refl).
Qed.

Section System.
Context (timeout : Z).

Lemma owned_fine s i c : owned s -> sy_copies s !! i = Some c -> fine (sy_store s) c.
Proof.
  intros [H1 H2 H3 H4 H5] Hc. split_and!; [|done|by apply (H5 i)]. intros b Hb. split; [by eapply H3|by eapply H2].
Qed.

Lemma owned_init : owned sys_init.
Proof. split; try done; set_solver. Qed.

(** After an action of copy [i]. *)
Lemma owned_act s i c m c' :
  owned s -> sy_copies s !! i = Some c -> polite (sy_store s) c m c' ->
  owned (mk_sys m (<[i := c']> (sy_copies s))).
Proof.
  intros Ho Hc [P1 P2 P3 P4].
  assert (Hother : forall j d b, j <> i -> sy_copies s !! j = Some d -> holding d = Some b ->
    holding c <> Some b /\ made (sy_store s) b /\ b ∉ po_free (sy_store s)).
  { intros j d b Hne Hd Hb. split_and!; [|by eapply ow_held|by eapply ow_free]. intros Hcb. apply Hne. by eapply ow_once. }
  assert (Hnew : forall j d b, j <> i -> sy_copies s !! j = Some d -> holding d = Some b -> holding c' <> Some b).
  { intros j d b Hne Hd Hb Hcb. destruct (Hother j d b Hne Hd Hb) as (Hn1 & Hm & Hn2).
    destruct (P2 b Hcb) as (_ & _ & [?|[?|Hno]]); [done..|]. unfold made in Hm. by rewrite Hno in Hm. }
  assert (Hlook : forall j d, <[i := c']> (sy_copies s) !! j = Some d ->
    (j = i /\ d = c') \/ (j <> i /\ sy_copies s !! j = Some d)).
  { intros j d [(-> & -> & _)|[Hne Hd]]%list_lookup_insert_Some; auto. }
  split; cbn [sy_store sy_copies].
  - intros j k d e b [[-> ->]|[Hj Hd]]%Hlook [[-> ->]|[Hk He]]%Hlook Hb1 Hb2; [done|..].
    + by destruct (Hnew k e b Hk He Hb2).
    + by destruct (Hnew j d b Hj Hd Hb1).
    + by eapply ow_once.
  - intros j d b [[-> ->]|[Hj Hd]]%Hlook Hb; [by apply P2|]. intros [_ Hf]%P3.
    destruct (Hother j d b Hj Hd Hb) as (? & _ & ?). by destruct Hf.
  - intros j d b [[-> ->]|[Hj Hd]]%Hlook Hb; [by apply P2|]. destruct (Hother j d b Hj Hd Hb) as (? & ? & ?). by apply P1.
  - intros b Hb. by apply P3.
  - intros j d [[-> ->]|[Hj Hd]]%Hlook; [done|]. by eapply ow_fits.
Qed.

Lemma owned_start s : owned s -> owned (mk_sys (sy_store s) (sy_copies s ++ [new_copy])).
Proof.
  intros [H1 H2 H3 H4 H5].
  assert (Hlook : forall i c, (sy_copies s ++ [new_copy]) !! i = Some c -> sy_copies s !! i = Some c \/ c = new_copy).
  { intros i c [?|[_ [_ ->]%list_lookup_singleton_Some]]%lookup_app_Some; auto. }
  split; cbn [sy_store sy_copies].
  - intros i j c d b [Hi| ->]%Hlook [Hj| ->]%Hlook; try discriminate. by apply H1.
  - intros i c b [Hi| ->]%Hlook; [by apply (H2 i)|discriminate].
  - intros i c b [Hi| ->]%Hlook; [by apply (H3 i)|discriminate].
  - done.
  - intros i c [Hi| ->]%Hlook; [by apply (H5 i)|done].
Qed.

Lemma owned_forget s b :
  owned s -> owned (mk_sys (mk_store (po_free (sy_store s) ∖ {[b]}) (po_heap (sy_store s))) (sy_copies s)).
Proof.
  intros [H1 H2 H3 H4 H5]. split; cbn; [done| |done| |done].
  - intros i c b' Hc Hb Hin. apply (H2 i c b' Hc Hb). set_solver.
  - intros b' Hb. apply H4. set_solver.
Qed.

(** Each copy is where it would be with its own actions alone. *)
Definition apart (cs : list choice) (s : sys) : Prop :=
  forall i, orun (solo_next timeout) (mine i cs) solo_init =
    Some (match sy_copies s !! i with Some c => solo_of (sy_store s) c | None => solo_init end) /\
    (sy_copies s !! i = None -> mine i cs = []).

Lemma copies_apart cs s : orun (sys_next timeout) cs sys_init = Some s -> owned s /\ apart cs s.
Proof.
  revert s. induction cs as [|c cs IH] using rev_ind; intros s E.
  { injection E as <-. split; [apply owned_init|done]. }
  rewrite orun_snoc in E. destruct (orun (sys_next timeout) cs sys_init) as [s0|]; [|done].
  destruct (IH s0 eq_refl) as [Ho Ha]. destruct c as [|b|i a]; cbn [sys_next] in E.
  - injection E as <-. split; [by apply owned_start|]. intros j. rewrite mine_snoc, app_nil_r. cbn [sy_copies sy_store].
    destruct (Ha j) as [H1 H2]. destruct (sy_copies s0 !! j) as [d|] eqn:Ed.
    + by rewrite (lookup_app_l_Some _ _ _ _ Ed).
    + rewrite (H2 eq_refl). split; [|done]. rewrite lookup_app_r by (by apply lookup_ge_None).
      destruct (j - length (sy_copies s0))%nat as [|x]; [done|]. by destruct x.
  - injection E as <-. split; [by apply owned_forget|]. intros j. by rewrite mine_snoc, app_nil_r.
  - destruct (sy_copies s0 !! i) as [d|] eqn:Ed; [|done].
    destruct (copy_next timeout (sy_store s0) d a) as [[m d']|] eqn:En; [|done]. injection E as <-.
    pose proof (owned_fine _ _ _ Ho Ed) as Hf. pose proof (copy_polite _ _ _ _ _ _ Hf En) as Hp.
    split; [by eapply owned_act|]. intros j. rewrite mine_snoc. cbn [sy_copies sy_store]. destruct (Ha j) as [H1 H2].
    destruct (decide (j = i)) as [->|Hne].
    + rewrite list_lookup_insert_eq by (by eapply lookup_lt_Some). split; [|done].
      unfold mine at 2. cbn. rewrite bool_decide_true by done. rewrite orun_snoc, H1, Ed. by apply copy_solo.
    + rewrite list_lookup_insert_ne by done. unfold mine at 2 4. cbn. rewrite bool_decide_false by done. rewrite app_nil_r.
      split; [|done]. rewrite H1. destruct (sy_copies s0 !! j) as [e|] eqn:Ee; [|done]. f_equal. symmetry. apply solo_of_still.
      intros b Hb. apply (po_other _ _ _ _ Hp); [by eapply ow_held|]. intros Hb'. apply Hne. by eapply ow_once.
Qed.
End System.

(** ** A copy on its own is [idleCopy] *)

(** What the clock and the connections still have to answer. *)
Record answers := mk_answers {
  an_quiet : list Z;
  an_reads : list (string * option error);
  an_writes : list (nat * option error)
}.

Definition next_of {A} (d : A) (l : list A) : A * list A := match l with [] => (d, []) | x :: l => (x, l) end.

(** The calls [idleCopy] does not make have no answers here. *)
#[export] Instance answers_env : TEnv answers := {
  te_quiet w := let '(q, l) := next_of 0 (an_quiet w) in (q, mk_answers l (an_reads w) (an_writes w));
  te_touch w := w;
  te_arm_read _ w := (None, w);
  te_arm_write _ w := (None, w);
  te_now w := (0, w);
  te_read w := let '(r, l) := next_of ("", None) (an_reads w) in (r, mk_answers (an_quiet w) l (an_writes w));
  te_write _ w := let '(r, l) := next_of (0%nat, None) (an_writes w) in (r, mk_answers (an_quiet w) (an_reads w) l);
  te_syscall_conn w := (None, w);
  te_close_write w := (None, w);
  te_close w := (None, w);
  te_raw _ w := (RawEAGAIN, w)
}.

(** The answers in a list of actions; [acc] octets of the first write have been
    accepted before it. *)
Fixpoint writes_of (acc : nat) (l : list act) : list (nat * option error) :=
  match l with
  | [] => []
  | AWriteSome k :: l => writes_of (acc + k) l
  | AWrote e :: l => (acc, e) :: writes_of 0 l
  | _ :: l => writes_of acc l
  end.

Definition answers_of (acc : nat) (l : list act) : answers :=
  mk_answers (omap (fun a => match a with ABudget q | AIdle q => Some q | _ => None end) l)
    (omap (fun a => match a with ARead data e => Some (data, e) | _ => None end) l)
    (writes_of acc l).

Section Sequential.
Context (timeout : Z).

(** The rest of a round of [idleCopy] from its read and from its write. *)
Definition from_write (fuel : nat) (data : string) (readErr : option error) (total : nat)
    : TM answers (nat * option error) :=
  wr <~ conn_write data ;;
  match wr.2 with
  | Some e => tret ((total + wr.1)%nat, Some e)
  | None => idle_after (idle_loop fuel timeout) timeout readErr (total + wr.1)
  end.

Definition from_read (fuel total : nat) : TM answers (nat * option error) :=
  r <~ conn_read ;;
  if (0 <? String.length r.1)%nat then _ <~ touch ;; from_write fuel r.1 r.2 total
  else idle_after (idle_loop fuel timeout) timeout r.2 total.

Definition from_idle (fuel total : nat) : TM answers (nat * option error) :=
  q <~ quietFor ;;
  if negb (idle timeout q) then idle_loop fuel timeout total else tret (total, Some errTunnelIdle).

(** What [idleCopy] has left to do at a point of the copy; of the write in
    progress, if any, [was] has been accepted. *)
Definition rest_of (fuel : nat) (s : solo) (was : string) : TM answers (nat * option error) :=
  let total := (String.length (so_written s) - String.length was)%nat in
  match so_pc s with
  | SGet | SBudget => idle_loop fuel timeout total
  | SRead => from_read fuel total
  | SWrite rest e => from_write fuel (was +:+ rest) e total
  | SIdle => from_idle fuel total
  | SReturn r | SDone r => tret (total, r)
  end.

(** The log agrees with the copy. *)
Definition logged (s : solo) (was : string) (l : list tev) : Prop :=
  bytes_read l = so_read s /\ bytes_written l +:+ was = so_written s /\
  match so_pc s with SWrite _ _ => True | _ => was = "" end.

Definition ends (s : solo) (r : option error) (x : result (nat * option error) * ts answers) : Prop :=
  x.1 = Ok (String.length (so_written s), r) /\
  bytes_read (ts_log x.2) = so_read s /\ bytes_written (ts_log x.2) = so_written s.

Lemma logged_goto s was l pc : logged s was l -> was = "" -> logged (mk_solo pc (so_read s) (so_written s)) "" l.
Proof. intros (H1 & H2 & _) ->. split_and!; [done..|]. by case_match. Qed.

(** An event that moves no data. *)
Lemma logged_silent s was l e : logged s was l -> read_of e = "" -> written_of e = "" -> logged s was (l ++ [e]).
Proof.
  intros (H1 & H2 & H3) E1 E2. unfold logged. by rewrite bytes_read_snoc, bytes_written_snoc, E1, E2, !str_app_nil_r.
Qed.

(** The end of a round, where the loop, the check for idleness or the return is
    next. *)
Lemma rest_after fuel e x y w l z r :
  (forall l', bytes_read l' = bytes_read l -> bytes_written l' = bytes_written l ->
     ends z r (rest_of fuel (mk_solo (solo_end e) x y) "" (mk_ts w l'))) ->
  ends z r (idle_after (idle_loop fuel timeout) timeout e (String.length y) (mk_ts w l)).
Proof.
  unfold idle_after, solo_end, rest_of. cbn [so_pc so_written String.length]. rewrite Nat.sub_0_r.
  destruct e as [e|]; intros H; [|by apply H]. specialize (H (l ++ [TvArmRead None None])).
  rewrite bytes_read_snoc, bytes_written_snoc, !str_app_nil_r in H. specialize (H eq_refl eq_refl).
  unfold tbind at 1, arm_read, tcall. cbn [te_arm_read answers_env ts_w ts_log].
  destruct (isTimeoutError e); [done|]. by destruct (errors_is e KEOF).
Qed.

(** After the write in progress has returned. *)
Lemma rest_wrote fuel was rest e s l acts err z r :
  logged s was l -> so_pc s = SWrite rest e ->
  (forall l', logged (mk_solo (match err with Some e' => SReturn (Some e') | None => solo_end e end) (so_read s) (so_written s)) "" l' ->
     ends z r (rest_of fuel (mk_solo (match err with Some e' => SReturn (Some e') | None => solo_end e end)
       (so_read s) (so_written s)) "" (mk_ts (answers_of 0 acts) l'))) ->
  ends z r (rest_of fuel s was (mk_ts (answers_of (String.length was) (AWrote err :: acts)) l)).
Proof.
  intros (H1 & H2 & _) Hpc Hk. unfold rest_of at 1. rewrite Hpc. unfold from_write, tbind at 1, conn_write, tcall.
  cbn [te_write answers_env answers_of an_writes an_quiet an_reads writes_of next_of ts_w ts_log fst snd omap list_omap].
  assert (Hl : (String.length (so_written s) - String.length was + String.length was)%nat = String.length (so_written s)).
  { rewrite <- H2, str_length_app. lia. }
  rewrite Hl. set (ev := TvWrite _ _ _).
  assert (Hd : forall l', bytes_read l' = bytes_read (l ++ [ev]) -> bytes_written l' = bytes_written (l ++ [ev]) ->
    forall pc, logged (mk_solo pc (so_read s) (so_written s)) "" l').
  { intros l' E1 E2 pc. unfold logged. cbn [so_read so_written so_pc]. rewrite E1, E2, bytes_read_snoc, bytes_written_snoc.
    unfold ev. cbn [read_of written_of]. rewrite str_take_app, !str_app_nil_r. split_and!; [done..|]. by destruct pc. }
  destruct err as [e'|].
  - specialize (Hk (l ++ [ev]) (Hd _ eq_refl eq_refl _)). unfold rest_of in Hk. cbn [so_pc so_written String.length] in Hk.
    by rewrite Nat.sub_0_r in Hk.
  - apply (rest_after fuel e (so_read s)). intros l' E1 E2. by apply Hk, Hd.
Qed.

(** Every run of a copy that returns is a run of [idleCopy]. *)
Lemma solo_sequential acts s z r fuel was l :
  orun (solo_next timeout) acts s = Some z -> so_pc z = SDone r -> (length acts <= fuel)%nat -> logged s was l ->
  ends z r (rest_of fuel s was (mk_ts (answers_of (String.length was) acts) l)).
Proof.
  revert s fuel was l. induction acts as [|a acts IH]; intros s fuel was l E Hz Hf Hl.
  { injection E as ->. destruct Hl as (H1 & H2 & H3). unfold rest_of. rewrite Hz in *. subst was.
    rewrite str_app_nil_r in H2. cbn. rewrite Nat.sub_0_r. done. }
  cbn [length] in Hf. cbn [orun] in E. destruct (solo_next timeout a s) as [s'|] eqn:Es; [|done].
  unfold solo_next in Es. pose proof Hl as (H1 & H2 & H3).
  destruct a as [b|q|junk|data e|k|[e|]|q|]; destruct (so_pc s) as [| | |rest re| |r'|r'] eqn:Epc; try discriminate Es.
  - subst was. injection Es as <-. pose proof (IH _ fuel "" l E Hz ltac:(lia) (logged_goto _ _ _ SBudget Hl eq_refl)) as Hi.
    unfold rest_of in *. by rewrite Epc.
  - subst was. injection Es as <-. destruct fuel as [|fuel]; [lia|]. apply (logged_silent _ _ _ (TvQuiet q)) in Hl; [|done..].
    unfold rest_of. rewrite Epc. cbn [idle_loop]. unfold tbind at 1, quietFor, tcall.
    cbn [te_quiet answers_env answers_of an_writes an_quiet an_reads writes_of next_of ts_w ts_log fst snd omap list_omap].
    destruct (remaining timeout q <=? 0).
    + exact (IH _ fuel "" _ E Hz ltac:(lia) (logged_goto _ _ _ _ Hl eq_refl)).
    + apply (logged_silent _ _ _ (TvArmRead (Some (remaining timeout q)) None)) in Hl; [|done..].
      exact (IH _ fuel "" _ E Hz ltac:(lia) (logged_goto _ _ _ SRead Hl eq_refl)).
  - injection Es as <-. pose proof (IH _ fuel was l E Hz ltac:(lia) Hl) as Hi. done.
  - subst was. injection Es as <-. unfold rest_of. rewrite Epc. unfold from_read, tbind at 1, conn_read, tcall.
    cbn [te_read answers_env answers_of an_writes an_quiet an_reads writes_of next_of ts_w ts_log fst snd omap list_omap].
    assert (Hd : forall l' pc, bytes_read l' = bytes_read (l ++ [TvRead data e]) -> bytes_written l' = bytes_written (l ++ [TvRead data e]) ->
      logged (mk_solo pc (so_read s +:+ data) (so_written s)) "" l').
    { intros l' pc E1 E2. unfold logged. cbn [so_read so_written so_pc].
      rewrite E1, E2, bytes_read_snoc, bytes_written_snoc, H1, str_app_nil_r. split_and!; [done..|]. by destruct pc. }
    destruct (0 <? String.length data)%nat.
    + unfold tbind at 1, touch, tcall. cbn [te_touch answers_env ts_w ts_log].
      refine (IH _ fuel "" _ E Hz ltac:(lia) (Hd _ _ _ _));
        by rewrite ?bytes_read_snoc, ?bytes_written_snoc, ?str_app_nil_r.
    + cbn [String.length]. rewrite Nat.sub_0_r. apply (rest_after fuel e (so_read s +:+ data)). intros l' E1 E2.
      exact (IH _ fuel "" _ E Hz ltac:(lia) (Hd _ _ E1 E2)).
  - case_match eqn:Ek; [|done]. injection Es as <-. apply Nat.leb_le in Ek.
    pose proof (IH _ fuel (was +:+ str_take k rest) l E Hz ltac:(lia)) as Hi.
    assert (Hlen : String.length (was +:+ str_take k rest) = (String.length was + k)%nat)
      by (by rewrite str_length_app, str_length_take).
    unfold rest_of in Hi. cbn [so_pc so_written] in Hi. rewrite Hlen, <- str_app_assoc, str_take_drop in Hi.
    unfold rest_of. rewrite Epc. cbn [answers_of writes_of omap list_omap].
    replace (String.length (so_written s +:+ str_take k rest) - (String.length was + k))%nat
      with (String.length (so_written s) - String.length was)%nat in Hi
      by (rewrite str_length_app, str_length_take by done; lia).
    apply Hi. split_and!; cbn; [done| |done]. by rewrite str_app_assoc, H2.
  - injection Es as <-. eapply rest_wrote; [done..|]. intros l' Hl'. exact (IH _ fuel "" l' E Hz ltac:(lia) Hl').
  - case_match eqn:Er; [|done]. apply String.eqb_eq in Er as ->. injection Es as <-. eapply rest_wrote; [done..|].
    intros l' Hl'. exact (IH _ fuel "" l' E Hz ltac:(lia) Hl').
  - subst was. injection Es as <-. apply (logged_silent _ _ _ (TvQuiet q)) in Hl; [|done..].
    unfold rest_of. rewrite Epc. unfold from_idle, tbind at 1, quietFor, tcall.
    cbn [te_quiet answers_env answers_of an_writes an_quiet an_reads writes_of next_of ts_w ts_log fst snd omap list_omap].
    pose proof (IH _ fuel "" _ E Hz ltac:(lia) (logged_goto _ _ _ _ Hl eq_refl)) as Hi. by destruct (idle timeout q).
  - subst was. injection Es as <-. pose proof (IH _ fuel "" l E Hz ltac:(lia) (logged_goto _ _ _ _ Hl eq_refl)) as Hi.
    unfold rest_of in *. by rewrite Epc.
Qed.
End Sequential.

(** ** What all copies of the process do *)

(** A copy has written what it has read, but for the write in progress or the
    one that failed. *)
Definition in_order (s : solo) : Prop :=
  match so_pc s with
  | SWrite rest _ => so_read s = so_written s +:+ rest
  | SReturn (Some _) | SDone (Some _) => exists rest, so_read s = so_written s +:+ rest
  | _ => so_read s = so_written s
  end.

Lemma in_order_end e x : in_order (mk_solo (solo_end e) x x).
Proof.
  unfold solo_end. destruct e as [e|]; [|done]. destruct (isTimeoutError e); [done|]. destruct (errors_is e KEOF); [done|].
  exists "". by rewrite str_app_nil_r.
Qed.

Lemma in_order_step timeout a s s' : in_order s -> solo_next timeout a s = Some s' -> in_order s'.
Proof.
  destruct s as [pc x y]. unfold in_order at 1, solo_next. cbn [so_pc so_read so_written]. intros Hs E.
  destruct a as [b|q|junk|data e|k|[e|]|q|]; destruct pc as [| | |rest re| |r|r]; try discriminate E;
    repeat case_match; simplify_eq; try done.
  all: try (by exists ""; rewrite str_app_nil_r).
  - apply not_positive in H as ->. rewrite str_app_nil_r. apply in_order_end.
  - unfold in_order. cbn. by rewrite <- str_app_assoc, str_take_drop.
  - by exists rest.
  - apply String.eqb_eq in H as ->. rewrite str_app_nil_r. apply in_order_end.
Qed.

Lemma in_order_run timeout acts s : orun (solo_next timeout) acts solo_init = Some s -> in_order s.
Proof.
  revert s. induction acts as [|a acts IH] using rev_ind; intros s E; [by injection E as <-|].
  rewrite orun_snoc in E. destruct (orun _ acts _) as [s0|]; [|done]. eapply in_order_step; eauto.
Qed.

(** C21 (pooled_copies): copies do not mix their data.  In every interleaving of any number
    of copies that take their buffers from the shared pool, while reads use the
    buffers as scratch space and writes take their data from them piece by piece:
    no two copies hold the same buffer; what a copy has written is an initial
    part of what its own source delivered, and all of it when the copy has
    returned without error; and a copy that has returned did, with the same
    result, what [idleCopy] does when data are values and its own clock readings
    and connections answer in the same way. *)
Theorem pooled_copies timeout cs s i c :
  0 < timeout -> orun (sys_next timeout) cs sys_init = Some s -> sy_copies s !! i = Some c ->
  (forall j d b, sy_copies s !! j = Some d -> holding c = Some b -> holding d = Some b -> i = j) /\
  (exists rest, cp_read c = cp_written c +:+ rest) /\
  forall r fuel, cp_pc c = KDone r -> (length (mine i cs) <= fuel)%nat ->
    (r = None -> cp_read c = cp_written c) /\
    let '(res, t) := idleCopy fuel timeout (mk_ts (answers_of 0 (mine i cs)) []) in
    res = Ok (String.length (cp_written c), r) /\
    bytes_read (ts_log t) = cp_read c /\ bytes_written (ts_log t) = cp_written c.
Proof.
  intros Ht E Hc. destruct (copies_apart timeout cs s E) as [Ho Ha]. destruct (Ha i) as [Hs _]. rewrite Hc in Hs.
  pose proof (in_order_run _ _ _ Hs) as Hi. unfold in_order, solo_of in Hi. cbn [so_pc so_read so_written] in Hi.
  split_and!.
  - intros j d b Hd H1 H2. by eapply ow_once.
  - destruct (cp_pc c) as [| | | | |b [e|]|[e|]]; cbn [solo_pc] in Hi; try done.
    all: try (by exists ""; rewrite str_app_nil_r). by eexists.
  - intros r fuel Hr Hf. rewrite Hr in Hi. cbn [solo_pc] in Hi. split; [by intros ->|].
    pose proof (solo_sequential timeout _ _ _ r fuel "" [] Hs) as Hq. unfold solo_of in Hq. rewrite Hr in Hq.
    specialize (Hq eq_refl Hf). unfold idleCopy. destruct (Z.leb_spec timeout 0); [lia|].
    destruct (idle_loop fuel timeout 0 (mk_ts (answers_of 0 (mine i cs)) [])) as [res t] eqn:Er.
    unfold ends, rest_of, solo_init in Hq. cbn in Hq. rewrite Er in Hq. by apply Hq.
Qed.

(** Two copies at once, the second with the buffer of an earlier one. *)
Definition demo_copies : list choice :=
  [CStart; CStart; CStart;
   CAct 0 (AGet 0); CAct 0 (ABudget 0); CAct 0 (ARead "secret" (Some (Err KEOF "EOF" None)));
   CAct 0 (AWriteSome 6); CAct 0 (AWrote None); CAct 0 APut;
   CAct 1 (AGet 0); CAct 2 (AGet 7); CAct 1 (ABudget 0); CAct 2 (ABudget 1);
   CAct 1 (AScratch "junk"); CAct 1 (ARead "abc" None); CAct 2 (ARead "xy" None);
   CAct 1 (AWriteSome 1); CAct 2 (AWriteSome 2); CAct 1 (AWriteSome 2); CAct 1 (AWrote None);
   CAct 1 (ABudget 3); CAct 1 (ARead "" (Some (Err KEOF "EOF" None))); CAct 1 APut; CForget 0].

Lemma pooled_copies_witness :
  exists s c, orun (sys_next 10) demo_copies sys_init = Some s /\ sy_copies s !! 1%nat = Some c /\
    cp_read c = cp_written c /\ cp_written c = "abc".
Proof.
  assert (Hc : match orun (sys_next 10) demo_copies sys_init with Some s => sy_copies s !! 1%nat | None => None end =
    Some (mk_copy (KDone None) "abc" "abc")) by (vm_compute; reflexivity).
  destruct (orun (sys_next 10) demo_copies sys_init) as [s|] eqn:E; [|discriminate].
  exists s, (mk_copy (KDone None) "abc" "abc"). split; [reflexivity|].
  split; [exact Hc|].
  destruct (pooled_copies 10 demo_copies s 1 (mk_copy (KDone None) "abc" "abc")) as (_ & _ & H).
  - lia.
  - exact E.
  - exact Hc.
  - destruct (H None 20%nat eq_refl) as [H1 _]; [vm_compute; lia|]. split; [exact (H1 eq_refl)|reflexivity].
Defined.
