(* ===== verification/Gokrb5.v ===== *)
(** * The password-based token provider: [auth_gokrb5.go]

    The provider's state and operations in explicit state-passing style.  The
    Kerberos library, the file system, the terminal and the clock are the
    environment [KEnv]; HMAC-SHA256 is a function [hmac] of key and message.
    Every password read, login, warning and ticket destruction is an event of
    the log. *)

From S2P Require Import Prelude GoStrings GoNet GoHttp Errors Config Hosts.

(** ** Data *)

Definition passwordRejectWarnInterval : Z := 5 * 60 * 1000000000.

(** What [getPassword] meets: the terminal, and the file it opens. *)
Record password_io := mk_password_io {
  pi_terminal : bool;                (* term.IsTerminal(stdin) *)
  pi_typed : error + string;         (* term.ReadPassword *)
  pi_open : option error;            (* os.Open *)
  pi_stat : error + Z;               (* permission bits *)
  pi_content : error + string        (* the file's octets *)
}.

(** [rep.DecryptedEncPart]: times in nanoseconds since the zero [time.Time]. *)
Record EncKDCRepPart := mk_EncKDCRepPart { AuthTime : Z; EndTime : Z }.

(** [C] are the library's ticket-cache clients. *)
Class KEnv (W C : Type) := {
  ke_now : W -> Z * W;
  ke_password : W -> password_io * W;
  ke_login : string -> W -> (error + (C * EncKDCRepPart)) * W;    (* AS exchange and NewFromCCache *)
  ke_init : C -> string -> W -> (error + (error + string)) * W    (* InitSecContext, then Marshal *)
}.

Inductive gev :=
| GPassword (r : error + string)                  (* readPassword *)
| GLogin (passwd : string) (e : option error)     (* acquireCredential *)
| GDestroy                                        (* ticketClient.Destroy() *)
| GWarn                                           (* warnPasswordRejected *)
| GTickerStart | GTickerReset | GTickerStop
| GToken (e : option error).                      (* service ticket and token *)

(** ** Pure parts *)

Definition isPasswordRejection (err : error) : bool :=
  contains (err_msg err) "KDC_ERR_PREAUTH_FAILED".

(** [time.Time.Sub] saturates. *)
Definition sat64 (z : Z) : Z := Z.max min_int64 (Z.min max_int64 z).

(** [tgtRefreshDeadline] at time [now]; a zero [time.Time] is 0.  Durations
    are int64 and division truncates. *)
Definition tgtRefreshDeadline (now : Z) (part : EncKDCRepPart) : Z :=
  let lifetime := sat64 (EndTime part - AuthTime part) in
  let lifetime := if (AuthTime part =? 0) || (lifetime <=? 0) then sat64 (EndTime part - now) else lifetime in
  EndTime part + Z.quot (wrap64 (- lifetime)) 6.

(** [bytes.TrimRight(b, "\r\n")] *)
Fixpoint trim_left_crlf (s : string) : string :=
  match s with
  | String c t => if Ascii.eqb c CR || Ascii.eqb c LF then trim_left_crlf t else s
  | EmptyString => ""
  end.
Definition trim_right_crlf (s : string) : string := str_rev (trim_left_crlf (str_rev s)).

Definition wrap_err (msg : string) (e : error) : error := Err KOther (msg +:+ ": " +:+ err_msg e) (Some e).

(** [%04o] of permission bits. *)
Definition octal4 (mode : Z) : string :=
  String "0" (String (byte_of_Z (48 + mode / 64 mod 8))
    (String (byte_of_Z (48 + mode / 8 mod 8)) (String (byte_of_Z (48 + mode mod 8)) ""))).

Definition maxPasswordFileSize : nat := 4096.

Definition getPassword (passwordFile : string) (io : password_io) : error + string :=
  if String.eqb passwordFile "" then
    if negb (pi_terminal io) then
      inl (Err KOther "no password file specified and stdin is not a terminal" None)
    else match pi_typed io with
         | inl e => inl (wrap_err "failed to read password" e)
         | inr password => inr password
         end
  else match pi_open io with
  | Some e => inl (wrap_err "failed to open password file" e)
  | None =>
      match pi_stat io with
      | inl e => inl (wrap_err "failed to stat password file" e)
      | inr mode =>
          if negb (Z.land mode 63 =? 0) then
            inl (Err KOther ("password file " +:+ passwordFile +:+ " has insecure permissions " +:+ octal4 mode +:+
                             "; must not be accessible by group or others (e.g. 0600)") None)
          else match pi_content io with
               | inl e => inl (wrap_err "failed to read password file" e)
               | inr content => inr (trim_right_crlf (str_take maxPasswordFileSize content))
               end
      end
  end.

(** [base64.StdEncoding.EncodeToString] *)
Definition base64_char (v : Z) : ascii :=
  if v <? 26 then byte_of_Z (v + 65)
  else if v <? 52 then byte_of_Z (v + 71)
  else if v <? 62 then byte_of_Z (v - 4)
  else if v =? 62 then "+"%char else "/"%char.

Fixpoint base64_encode (s : string) : string :=
  match s with
  | EmptyString => ""
  | String a EmptyString =>
      let n := bval a * 16 in
      String (base64_char (n / 64)) (String (base64_char (n mod 64)) "==")
  | String a (String b EmptyString) =>
      let n := (bval a * 256 + bval b) * 4 in
      String (base64_char (n / 4096)) (String (base64_char (n / 64 mod 64))
        (String (base64_char (n mod 64)) "="))
  | String a (String b (String c s)) =>
      let n := (bval a * 256 + bval b) * 256 + bval c in
      String (base64_char (n / 262144)) (String (base64_char (n / 4096 mod 64))
        (String (base64_char (n / 64 mod 64)) (String (base64_char (n mod 64)) (base64_encode s))))
  end.

(** ** The provider *)

Section Provider.
Context {W C : Type} `{KEnv W C}.
Variable hmac : string -> string -> string.

(** [rejectWarnTicker] is [None] when nil, else whether it is running. *)
Record Gokrb5TokenProvider := mk_Gokrb5 {
  passwordFile : string;
  spn : string;
  stdinPassword : string;
  closed : bool;
  passwordRejected : bool;
  fingerprintKey : string;
  rejectedFingerprint : string;
  ticketClient : option C;
  ticketRefreshAt : Z;
  rejectWarnTicker : option bool
}.

Definition set_rejected (p : Gokrb5TokenProvider) (b : bool) (fp : string) (t : option bool) : Gokrb5TokenProvider :=
  mk_Gokrb5 (passwordFile p) (spn p) (stdinPassword p) (closed p) b (fingerprintKey p) fp
    (ticketClient p) (ticketRefreshAt p) t.

Definition set_ticket (p : Gokrb5TokenProvider) (c : option C) (t : Z) : Gokrb5TokenProvider :=
  mk_Gokrb5 (passwordFile p) (spn p) (stdinPassword p) (closed p) (passwordRejected p) (fingerprintKey p)
    (rejectedFingerprint p) c t (rejectWarnTicker p).

(** The provider, the world and the log. *)
Record gs := mk_gs { g_prov : Gokrb5TokenProvider; g_world : W; g_log : list gev }.

Definition glog (s : gs) (e : gev) : gs := mk_gs (g_prov s) (g_world s) (g_log s ++ [e]).
Definition with_prov (s : gs) (p : Gokrb5TokenProvider) : gs := mk_gs p (g_world s) (g_log s).
Definition with_world (s : gs) (w : W) : gs := mk_gs (g_prov s) w (g_log s).

(** The SPN of [NewGokrb5TokenProvider]. *)
Definition gokrb5_spn (proxy explicitSPN : string) : string :=
  if String.eqb explicitSPN "" then "HTTP/" +:+ extractHost proxy
  else normalizeSPN explicitSPN "/" "@".

(** [config_err] is the outcome of [config.Load], [key] the fresh random key. *)
Definition NewGokrb5TokenProvider (realm cfgFile pwFile proxy explicitSPN : string)
    (config_err : option error) (io : password_io) (key : string) : error + Gokrb5TokenProvider :=
  if String.eqb cfgFile "" || String.eqb realm "" then
    inl (Err KOther "-config and -realm are required when using password-based authentication" None)
  else match config_err with
  | Some e => inl (wrap_err "failed to load kerberos config" e)
  | None =>
      match getPassword pwFile io with
      | inl e => inl (wrap_err "failed to get password" e)
      | inr passwd =>
          inr (mk_Gokrb5 pwFile (gokrb5_spn proxy explicitSPN)
                 (if String.eqb pwFile "" then passwd else "") false false key "" None 0 None)
      end
  end.

Definition passwordFingerprint (p : Gokrb5TokenProvider) (passwd : string) : string :=
  hmac (fingerprintKey p) passwd.

Definition readPassword (s : gs) : (error + string) * gs :=
  let p := g_prov s in
  if String.eqb (passwordFile p) "" then
    (inr (stdinPassword p), glog s (GPassword (inr (stdinPassword p))))
  else
    let '(io, w) := ke_password (g_world s) in
    let r := getPassword (passwordFile p) io in
    (r, glog (with_world s w) (GPassword r)).

Definition passwordSource (p : Gokrb5TokenProvider) : string :=
  if String.eqb (passwordFile p) "" then "terminal input at start-up" else "password file".

Definition credential_error (msg : string) (cause : option error) : error := authError KCredential msg cause.
Definition negotiation_error (msg : string) (cause : option error) : error := authError KNegotiation msg cause.

Definition checkPasswordRejected (s : gs) : option error * gs :=
  if negb (passwordRejected (g_prov s)) then (None, s)
  else
    let '(r, s) := readPassword s in
    match r with
    | inl _ =>
        (Some (credential_error "KDC rejected the configured password and the password cannot be re-read to check for a correction; check password input and file permissions" None), s)
    | inr passwd =>
        let p := g_prov s in
        if negb (String.eqb (passwordFingerprint p passwd) (rejectedFingerprint p)) then
          (None, glog (with_prov s (set_rejected p false (rejectedFingerprint p)
                                      ((fun _ => false) <$> rejectWarnTicker p))) GTickerStop)
        else
          (Some (credential_error
                   ("KDC rejected the configured password; refusing Kerberos logins until the password changes (source: " +:+
                    passwordSource p +:+ ")") None), s)
    end.

Definition rejectPassword (s : gs) (fingerprint : string) : gs :=
  let p := g_prov s in
  let s := glog s GWarn in
  match rejectWarnTicker p with
  | Some _ => glog (with_prov s (set_rejected p true fingerprint (Some true))) GTickerReset
  | None => glog (with_prov s (set_rejected p true fingerprint (Some true))) GTickerStart
  end.

(** [acquireCredential]: the login and the refresh deadline of its TGT. *)
Definition acquireCredential (s : gs) (passwd : string) : (error + (C * Z)) * gs :=
  let '(r, w) := ke_login passwd (g_world s) in
  match r with
  | inl e => (inl e, glog (with_world s w) (GLogin passwd (Some e)))
  | inr (c, part) =>
      let '(now, w) := ke_now w in
      (inr (c, tgtRefreshDeadline now part), glog (with_world s w) (GLogin passwd None))
  end.

(** The part of [ticketGrantingClient] that logs in. *)
Definition password_login (s : gs) : (error + C) * gs :=
  let '(r, s) := readPassword s in
  match r with
  | inl _ => (inl (credential_error "failed to get password: check password input and file permissions" None), s)
  | inr passwd =>
      let fingerprint := passwordFingerprint (g_prov s) passwd in
      let '(r, s) := acquireCredential s passwd in
      match r with
      | inl err =>
          (inl (credential_error ("could not acquire client credential: " +:+ err_msg err) (Some err)),
           if isPasswordRejection err then rejectPassword s fingerprint else s)
      | inr (c, refreshAt) =>
          let s := match ticketClient (g_prov s) with Some _ => glog s GDestroy | None => s end in
          (inr c, with_prov s (set_ticket (g_prov s) (Some c) refreshAt))
      end
  end.

Definition ticketGrantingClient (s : gs) : (error + C) * gs :=
  match ticketClient (g_prov s) with
  | Some c =>
      let '(now, w) := ke_now (g_world s) in
      if now <? ticketRefreshAt (g_prov s) then (inr c, with_world s w)
      else password_login (with_world s w)
  | None => password_login s
  end.

Definition GetToken (s : gs) : (error + string) * gs :=
  if closed (g_prov s) then (inl (credential_error "token provider is closed" None), s)
  else
    let '(rej, s) := checkPasswordRejected s in
    match rej with
    | Some e => (inl e, s)
    | None =>
        let '(r, s) := ticketGrantingClient s in
        match r with
        | inl e => (inl e, s)
        | inr c =>
            let '(r, w) := ke_init c (spn (g_prov s)) (g_world s) in
            let s := with_world s w in
            match r with
            | inl e => (inl (negotiation_error ("could not initialize context: " +:+ err_msg e) (Some e)),
                        glog s (GToken (Some e)))
            | inr (inl e) => (inl (negotiation_error ("could not marshal SPNEGO token: " +:+ err_msg e) (Some e)),
                              glog s (GToken (Some e)))
            | inr (inr b) => (inr (base64_encode b), glog s (GToken None))
            end
        end
    end.

(** One tick of [repeatPasswordRejectionWarnings], under [mu]. *)
Definition warn_tick (s : gs) : gs :=
  if negb (closed (g_prov s)) && passwordRejected (g_prov s) then
    let '(_, s) := checkPasswordRejected s in
    if passwordRejected (g_prov s) then glog s GWarn else s
  else s.

(** [Close]; a zeroed key or fingerprint is the empty string. *)
Definition Close (s : gs) : gs :=
  let p := g_prov s in
  let s := match ticketClient p with Some _ => glog s GDestroy | None => s end in
  let s := match rejectWarnTicker p with Some _ => glog s GTickerStop | None => s end in
  with_prov s (mk_Gokrb5 (passwordFile p) (spn p) "" true (passwordRejected p) "" "" None
                 (ticketRefreshAt p) None).

(** ** Operations under [mu], in any order *)

Inductive op := OGetToken | OTick | OClose.

Definition apply_op (o : op) (s : gs) : gs :=
  match o with
  | OGetToken => (GetToken s).2
  | OTick => warn_tick s
  | OClose => Close s
  end.

Definition apply_ops (os : list op) (s : gs) : gs := fold_left (fun s o => apply_op o s) os s.

End Provider.
