(* ===== verification/Gokrb5Thms.v ===== *)
(** * What the password-based provider guarantees

    The lockout guard, for every order of token requests, warning ticks and
    [Close]; the reuse of tickets; the refresh deadline; the password file. *)

From S2P Require Import Prelude GoStrings GoNet GoHttp Errors Config Hosts Gokrb5.

Section Guard.
Context {W C : Type} `{KEnv W C}.
Variable hmac : string -> string -> string.
Variable k0 : string.

(** The fingerprint of a rejected password that no later read has been seen to
    differ from. *)
Definition note (f : option string) (e : gev) : option string :=
  match e with
  | GLogin p (Some err) => if isPasswordRejection err then Some (hmac k0 p) else f
  | GPassword (inr x) =>
      match f with
      | Some g => if String.eqb (hmac k0 x) g then f else None
      | None => None
      end
  | _ => f
  end.
Definition pending (l : list gev) : option string := fold_left note l None.

Lemma pending_snoc l e : pending (l ++ [e]) = note (pending l) e.
Proof. unfold pending. by rewrite fold_left_app. Qed.

(** Logins only happen when no rejection is pending. *)
Definition is_login (e : gev) : bool := match e with GLogin _ _ => true | _ => false end.
Definition guarded (l : list gev) : Prop :=
  forall pre e post, l = pre ++ e :: post -> is_login e = true -> pending pre = None.

Lemma guarded_snoc l e : guarded l -> (is_login e = true -> pending l = None) -> guarded (l ++ [e]).
Proof.
  intros Hl He pre x post. induction post as [|y post _] using rev_ind; intros E Hx.
  - apply app_inj_tail in E as [<- <-]. auto.
  - rewrite app_comm_cons, app_assoc in E. apply app_inj_tail in E as [-> _]. by eapply Hl.
Qed.

(** The provider remembers what the log says. *)
Record guard_inv (s : gs (W := W) (C := C)) : Prop := {
  gi_log : guarded (g_log s);
  gi_key : closed (g_prov s) = false -> fingerprintKey (g_prov s) = k0;
  gi_pending : forall f, pending (g_log s) = Some f -> closed (g_prov s) = false ->
    passwordRejected (g_prov s) = true /\ rejectedFingerprint (g_prov s) = f;
  gi_ticker : closed (g_prov s) = false -> passwordRejected (g_prov s) = true -> rejectWarnTicker (g_prov s) <> None
}.

(** Events that are no login and no password read. *)
Definition inert (e : gev) : Prop := match e with GPassword _ | GLogin _ _ => False | _ => True end.

Lemma guard_inert s e : inert e -> guard_inv s -> guard_inv (glog s e).
Proof.
  intros He [H1 H2 H3 H4]. constructor; cbn [glog with_prov with_world g_log g_prov g_world]; [|done| |done].
  - apply guarded_snoc; [done|]. by destruct e.
  - intros f. rewrite pending_snoc. destruct e; try done; apply H3.
Qed.

Lemma guard_world s w : guard_inv s -> guard_inv (with_world s w).
Proof. by intros [? ? ? ?]. Qed.

Lemma guard_ticket s c t : guard_inv s -> guard_inv (with_prov s (set_ticket (g_prov s) c t)).
Proof. by intros [? ? ? ?]. Qed.

(** A read keeps the invariant; afterwards a pending rejection is of the
    password just read. *)
Lemma guard_read s r s' :
  guard_inv s -> readPassword s = (r, s') ->
  guard_inv s' /\ g_prov s' = g_prov s /\
  (forall x, r = inr x -> forall f, pending (g_log s') = Some f -> hmac k0 x = f) /\
  (pending (g_log s) = None -> pending (g_log s') = None).
Proof.
  intros Hi. assert (Hlog : forall w, guard_inv (glog (with_world s w) (GPassword r)) /\
    (forall x, r = inr x -> forall f, pending (g_log s ++ [GPassword r]) = Some f -> hmac k0 x = f) /\
    (pending (g_log s) = None -> pending (g_log s ++ [GPassword r]) = None)).
  { intros w. destruct Hi as [H1 H2 H3 H4]. split_and!; [constructor; cbn [glog with_prov with_world g_log g_prov g_world]; [|done| |done]|..].
    - by apply guarded_snoc.
    - intros f. rewrite pending_snoc. destruct r as [e|x]; cbn; [apply H3|].
      destruct (pending (g_log s)) as [g|] eqn:Ep; [|done]. case_match; [|done]. intros [= <-]. by apply H3.
    - intros x -> f. rewrite pending_snoc. cbn. destruct (pending (g_log s)) as [g|]; [|done].
      destruct (String.eqb_spec (hmac k0 x) g); [|done]. by intros [= <-].
    - rewrite pending_snoc. intros ->. by destruct r. }
  unfold readPassword. destruct (String.eqb _ _).
  - intros [= <- <-]. destruct s as [p w l]. destruct (Hlog w) as (? & ? & ?). by split_and!.
  - destruct (ke_password (g_world s)) as [io w]. intros [= <- <-].
    destruct (Hlog w) as (? & ? & ?). by split_and!.
Qed.

Lemma guard_check s r s' :
  guard_inv s -> closed (g_prov s) = false -> checkPasswordRejected hmac s = (r, s') ->
  guard_inv s' /\ closed (g_prov s') = false /\ (r = None -> pending (g_log s') = None).
Proof.
  intros Hi Hc. unfold checkPasswordRejected. destruct (passwordRejected (g_prov s)) eqn:Er; cbn [negb].
  2: { intros [= <- <-]. split_and!; [done..|]. intros _. destruct (pending (g_log s)) eqn:Ep; [|done].
       destruct Hi as [_ _ H3 _]. destruct (H3 _ Ep Hc). congruence. }
  destruct (readPassword s) as [rp s1] eqn:E1. destruct (guard_read _ _ _ Hi E1) as (Hi1 & Hp1 & Hx & _).
  destruct rp as [e|x]; [intros [= <- <-]; by rewrite Hp1|].
  unfold passwordFingerprint. rewrite Hp1. rewrite (gi_key _ Hi Hc).
  destruct (String.eqb_spec (hmac k0 x) (rejectedFingerprint (g_prov s))) as [Heq|Hne]; cbn [negb].
  { intros [= <- <-]. by rewrite Hp1. }
  intros [= <- <-]. assert (Hn : pending (g_log s1) = None).
  { destruct (pending (g_log s1)) as [f|] eqn:Ep; [|done]. exfalso. apply Hne. rewrite (Hx x eq_refl f eq_refl).
    destruct Hi1 as [_ _ H3 _]. rewrite Hp1 in H3. by destruct (H3 f Ep Hc). }
  split_and!; [apply guard_inert; [done|]|done|].
  - destruct Hi1 as [H1 H2 H3 H4]. constructor; cbn [glog with_prov with_world g_log g_prov g_world]; [done| |congruence|done].
    rewrite Hp1 in H2. done.
  - intros _. cbn [glog with_prov g_log]. by rewrite pending_snoc, Hn.
Qed.

(** A login with no rejection pending. *)
Lemma guard_login s x r s' :
  guard_inv s -> closed (g_prov s) = false -> pending (g_log s) = None ->
  acquireCredential s x = (r, s') ->
  guarded (g_log s') /\ g_prov s' = g_prov s /\
  (match r with inl e => isPasswordRejection e = false | inr _ => True end -> guard_inv s') /\
  (forall e, r = inl e -> isPasswordRejection e = true -> pending (g_log s') = Some (hmac k0 x)).
Proof.
  intros [H1 H2 H3 H4] Hc Hn. unfold acquireCredential. destruct (ke_login x (g_world s)) as [res w].
  assert (Hg : forall oe, guarded (g_log s ++ [GLogin x oe])).
  { intros oe. by apply guarded_snoc. }
  destruct res as [e|[c part]]; [|destruct (ke_now w) as [now w']]; intros [= <- <-];
    cbn [glog with_world g_log g_prov]; rewrite pending_snoc; cbn [note]; split_and!; try done.
  - intros Hr. constructor; cbn [glog with_world g_log g_prov]; [done..| |done].
    intros f. rewrite pending_snoc. cbn [note]. rewrite Hr, Hn. done.
  - intros e' [= <-] Hr. by rewrite Hr.
  - intros _. constructor; cbn [glog with_world g_log g_prov]; [done..| |done].
    intros f. rewrite pending_snoc. cbn [note]. by rewrite Hn.
Qed.

Lemma guard_reject s x :
  guarded (g_log s) -> (closed (g_prov s) = false -> fingerprintKey (g_prov s) = k0) ->
  pending (g_log s) = Some (hmac k0 x) -> guard_inv (rejectPassword s (hmac k0 x)).
Proof.
  intros Hg Hk Hp. unfold rejectPassword.
  assert (Hi : guard_inv (with_prov (glog s GWarn) (set_rejected (g_prov s) true (hmac k0 x) (Some true)))).
  { constructor; cbn [glog with_prov g_log g_prov]; [by apply guarded_snoc|done| |done].
    intros f. rewrite pending_snoc. cbn [note]. rewrite Hp. by intros [= <-]. }
  destruct (rejectWarnTicker (g_prov s)); by apply guard_inert.
Qed.

Lemma guard_destroy s (o : option C) :
  guard_inv s -> guard_inv (match o with Some _ => glog s GDestroy | None => s end).
Proof. destruct o; [by apply guard_inert|done]. Qed.

Lemma guard_password_login s r s' :
  guard_inv s -> closed (g_prov s) = false -> pending (g_log s) = None ->
  password_login hmac s = (r, s') -> guard_inv s'.
Proof.
  intros Hi Hc Hn. unfold password_login.
  destruct (readPassword s) as [rp s1] eqn:E1. destruct (guard_read _ _ _ Hi E1) as (Hi1 & Hp1 & _ & Hn1).
  destruct rp as [e|x]; [by intros [= _ <-]|]. destruct (acquireCredential s1 x) as [ra s2] eqn:E2.
  rewrite <- Hp1 in Hc. destruct (guard_login _ _ _ _ Hi1 Hc (Hn1 Hn) E2) as (Hg & Hp2 & Hok & Hrej).
  unfold passwordFingerprint. rewrite (gi_key _ Hi1 Hc).
  destruct ra as [err|[c t]]; intros [= _ <-].
  - destruct (isPasswordRejection err) eqn:Er; [|by apply Hok].
    apply guard_reject; [done|rewrite Hp2; apply Hi1|by eapply Hrej].
  - apply guard_ticket, guard_destroy. by apply Hok.
Qed.

Lemma guard_tgc s r s' :
  guard_inv s -> closed (g_prov s) = false -> pending (g_log s) = None ->
  ticketGrantingClient hmac s = (r, s') -> guard_inv s'.
Proof.
  intros Hi Hc Hn. unfold ticketGrantingClient.
  destruct (ticketClient (g_prov s)) as [c|]; [|by apply guard_password_login].
  destruct (ke_now (g_world s)) as [now w]. case_match; [intros [= _ <-]; by apply guard_world|].
  apply guard_password_login; [by apply guard_world|done..].
Qed.

Lemma guard_op o s : guard_inv s -> guard_inv (apply_op hmac o s).
Proof.
  intros Hi. destruct o; cbn [apply_op].
  - unfold GetToken. destruct (closed (g_prov s)) eqn:Hc; [done|].
    destruct (checkPasswordRejected hmac s) as [rej s1] eqn:E1.
    destruct (guard_check _ _ _ Hi Hc E1) as (Hi1 & Hc1 & Hn). destruct rej as [e|]; [done|].
    destruct (ticketGrantingClient hmac s1) as [r s2] eqn:E2.
    pose proof (guard_tgc _ _ _ Hi1 Hc1 (Hn eq_refl) E2) as Hi2. destruct r as [e|c]; [done|].
    destruct (ke_init c (spn (g_prov s2)) (g_world s2)) as [[e|[e|b]] w]; cbn [snd];
      by apply guard_inert, guard_world.
  - unfold warn_tick. destruct (closed (g_prov s)) eqn:Hc; [done|]. cbn [negb andb]. case_match; [|done].
    destruct (checkPasswordRejected hmac s) as [rej s1] eqn:E1.
    destruct (guard_check _ _ _ Hi Hc E1) as (Hi1 & _). case_match; [by apply guard_inert|done].
  - unfold Close.
    assert (Hi2 : guard_inv (match rejectWarnTicker (g_prov s) with
      | Some _ => glog (match ticketClient (g_prov s) with Some _ => glog s GDestroy | None => s end) GTickerStop
      | None => match ticketClient (g_prov s) with Some _ => glog s GDestroy | None => s end end)).
    { destruct (rejectWarnTicker (g_prov s)); [apply guard_inert; [done|]|]; by apply guard_destroy. }
    destruct Hi2 as [H1 _ _ _]. constructor; cbn [with_prov g_log g_prov closed]; done.
Qed.

Lemma guard_ops os s : guard_inv s -> guard_inv (apply_ops hmac os s).
Proof.
  unfold apply_ops. revert s. induction os as [|o os IH]; intros s Hi; [done|]. cbn. by apply IH, guard_op.
Qed.

(** A read of a password other than [x], as far as fingerprints tell. *)
Definition differs (x : string) (e : gev) : bool :=
  match e with GPassword (inr z) => negb (String.eqb (hmac k0 z) (hmac k0 x)) | _ => false end.

(** Between a rejection and the next login a different password was read. *)
Lemma pending_between pre x err mid y r post :
  guarded (pre ++ GLogin x (Some err) :: mid ++ GLogin y r :: post) -> isPasswordRejection err = true ->
  exists z, GPassword (inr z) ∈ mid /\ hmac k0 z <> hmac k0 x.
Proof.
  intros Hg Hr. destruct (existsb (differs x) mid) eqn:Ex.
  { apply existsb_exists in Ex as (e & He & Hz). destruct e as [[|z]| | | | | | |]; try done.
    exists z. split; [by apply list_elem_of_In|]. by apply String.eqb_neq, negb_true_iff. }
  exfalso. assert (Hno : Forall (fun e => differs x e = false) mid).
  { apply Forall_forall. intros e He. destruct (differs x e) eqn:Ed; [|done].
    rewrite <- Ex. symmetry. apply existsb_exists. exists e. split; [by apply list_elem_of_In|done]. }
  assert (Hall : forall m rest, mid = m ++ rest ->
    pending (pre ++ GLogin x (Some err) :: m) = Some (hmac k0 x)).
  { intros m. induction m as [|e m IH] using rev_ind; intros rest E.
    - rewrite pending_snoc. cbn [note]. by rewrite Hr.
    - rewrite app_comm_cons, app_assoc, pending_snoc. rewrite <- app_assoc in E.
      rewrite (IH ([e] ++ rest) E). subst mid. apply Forall_app in Hno as [_ Hno].
      apply Forall_cons in Hno as [He _]. destruct e as [[|z]|p o| | | | | |]; try done.
      + cbn in He |- *. by apply negb_false_iff in He as ->.
      + exfalso. specialize (Hg (pre ++ GLogin x (Some err) :: m) (GLogin p o)
          (rest ++ GLogin y r :: post)). rewrite (IH ([GLogin p o] ++ rest) eq_refl) in Hg.
        discriminate Hg; [|done]. by rewrite <- !app_assoc. }
  specialize (Hg (pre ++ GLogin x (Some err) :: mid) (GLogin y r) post).
  rewrite (Hall mid []) in Hg by (by rewrite app_nil_r). discriminate Hg; [|done]. by rewrite <- app_assoc.
Qed.

End Guard.

Section Theorems.
Context {W C : Type} `{KEnv W C}.
Variable hmac : string -> string -> string.

Lemma New_guard realm cfgFile pwFile proxy explicitSPN ce io key p (w : W) :
  NewGokrb5TokenProvider (C := C) realm cfgFile pwFile proxy explicitSPN ce io key = inr p ->
  guard_inv hmac key (mk_gs p w []).
Proof.
  unfold NewGokrb5TokenProvider. intros E. repeat case_match; simplify_eq;
    (constructor; cbn; [intros pre e post Hl; by destruct pre|done..]).
Qed.

(** the lockout guard.  Whatever the order of token requests, warning ticks
    and [Close], once the KDC has rejected a password no further login is sent
    before the provider has read a password with a different fingerprint; in
    particular the rejected password is not sent again until it was seen to
    change. *)
Theorem lockout_guard realm cfgFile pwFile proxy explicitSPN ce io key p w os pre x err mid y r post :
  NewGokrb5TokenProvider (C := C) realm cfgFile pwFile proxy explicitSPN ce io key = inr p ->
  g_log (apply_ops hmac os (mk_gs p w [])) = pre ++ GLogin x (Some err) :: mid ++ GLogin y r :: post ->
  isPasswordRejection err = true ->
  exists z, GPassword (inr z) ∈ mid /\ hmac key z <> hmac key x.
Proof.
  intros Hp E Hr. pose proof (guard_ops hmac key os _ (New_guard _ _ _ _ _ _ _ _ _ w Hp)) as Hi.
  destruct Hi as [Hg _ _ _]. rewrite E in Hg. by eapply pending_between.
Qed.

(** The guard never dereferences a nil ticker: whenever it can find the
    password changed, the warning ticker exists. *)
Theorem ticker_not_nil realm cfgFile pwFile proxy explicitSPN ce io key p w os :
  NewGokrb5TokenProvider (C := C) realm cfgFile pwFile proxy explicitSPN ce io key = inr p ->
  let s := apply_ops hmac os (mk_gs p w []) in
  closed (g_prov s) = false -> passwordRejected (g_prov s) = true -> rejectWarnTicker (g_prov s) <> None.
Proof. intros Hp. apply (guard_ops hmac key os _ (New_guard _ _ _ _ _ _ _ _ _ w Hp)). Qed.

Lemma Close_stable o (s : gs (W := W) (C := C)) : apply_op hmac o (Close s) = Close s.
Proof.
  destruct o; cbn.
  - done.
  - done.
  - unfold Close. cbn. by destruct s.
Qed.

(** [Close] is final and idempotent: afterwards no operation changes the
    provider or logs anything, token requests fail with a CredentialError, and
    neither the typed password, the fingerprint key nor a ticket is kept. *)
Theorem close_is_final os (s : gs (W := W) (C := C)) :
  apply_ops hmac os (Close s) = Close s /\
  (GetToken hmac (Close s)).1 = inl (credential_error "token provider is closed" None) /\
  stdinPassword (g_prov (Close s)) = "" /\ fingerprintKey (g_prov (Close s)) = "" /\
  ticketClient (g_prov (Close s)) = None.
Proof.
  split; [|done]. unfold apply_ops. induction os as [|o os IH]; [done|]. cbn. by rewrite Close_stable.
Qed.

(** a valid ticket costs no login.  While the cached TGT has lifetime left and
    no rejection is recorded, a token request reads no password and sends no
    login; its only event is the token. *)
Theorem ticket_reused (s : gs (W := W) (C := C)) c :
  closed (g_prov s) = false -> passwordRejected (g_prov s) = false ->
  ticketClient (g_prov s) = Some c -> (ke_now (g_world s)).1 < ticketRefreshAt (g_prov s) ->
  exists e, g_log (GetToken hmac s).2 = g_log s ++ [GToken e] /\ g_prov (GetToken hmac s).2 = g_prov s.
Proof.
  intros Hc Hr Ht Hn. unfold GetToken, checkPasswordRejected, ticketGrantingClient. rewrite Hc, Hr. cbn [negb].
  rewrite Ht. destruct (ke_now (g_world s)) as [now w]. cbn in Hn. destruct (Z.ltb_spec now (ticketRefreshAt (g_prov s))); [|lia].
  cbn. destruct (ke_init c _ _) as [[e|[e|b]] w']; cbn; eauto.
Qed.

End Theorems.

(** ** The refresh deadline *)

Lemma sat64_id z : is_int64 z -> sat64 z = z.
Proof. unfold is_int64, sat64. lia. Qed.

(** The deadline computed from the time left. *)
Lemma deadline_until now e :
  is_int64 (e - now) -> now < e + Z.quot (wrap64 (- (e - now))) 6 -> now < e.
Proof.
  unfold is_int64, min_int64, max_int64. intros Hi Hn. destruct (Z.le_gt_cases (e - now) 0); [|lia]. exfalso.
  destruct (decide (e - now = -9223372036854775808)) as [E|E].
  - rewrite E in Hn. vm_compute (Z.quot (wrap64 (- -9223372036854775808)) 6) in Hn. lia.
  - rewrite wrap64_id in Hn by (unfold is_int64, min_int64, max_int64; lia).
    rewrite Z.quot_div_nonneg in Hn by lia.
    pose proof (Z.div_le_upper_bound (- (e - now)) 6 (- (e - now))). lia.
Qed.

(** when a ticket is replaced.  For a ticket with a positive lifetime that
    fits a duration, the deadline is five sixths through the lifetime; and in
    every case, zero or inverted times included, a ticket whose deadline lies
    ahead has not expired. *)
Theorem refresh_deadline now part :
  is_int64 (EndTime part - AuthTime part) -> is_int64 (EndTime part - now) ->
  (AuthTime part <> 0 -> AuthTime part < EndTime part ->
     AuthTime part <= tgtRefreshDeadline now part <= EndTime part /\
     tgtRefreshDeadline now part = EndTime part - (EndTime part - AuthTime part) / 6) /\
  (now < tgtRefreshDeadline now part -> now < EndTime part).
Proof.
  intros H1 H2. unfold tgtRefreshDeadline. rewrite (sat64_id _ H1), (sat64_id _ H2).
  unfold is_int64, min_int64, max_int64 in *.
  assert (Hneg : forall l, 0 < l -> l <= 9223372036854775807 -> Z.quot (wrap64 (- l)) 6 = - (l / 6)).
  { intros l Hl Hm. rewrite wrap64_id by (unfold is_int64, min_int64, max_int64; lia).
    rewrite Z.quot_opp_l by lia. rewrite Z.quot_div_nonneg by lia. done. }
  destruct (Z.eqb_spec (AuthTime part) 0) as [Ha|Ha]; cbn [orb]; [|destruct (Z.leb_spec (EndTime part - AuthTime part) 0)].
  - split; [done|]. by apply deadline_until.
  - split; [lia|]. by apply deadline_until.
  - rewrite Hneg by lia. pose proof (Z.div_pos (EndTime part - AuthTime part) 6).
    pose proof (Z.div_le_upper_bound (EndTime part - AuthTime part) 6 (EndTime part - AuthTime part)).
    split; [intros _ _; lia|lia].
Qed.

Lemma refresh_deadline_witness :
  tgtRefreshDeadline 1000 (mk_EncKDCRepPart 1000 7000) = 6000.
Proof.
  destruct (refresh_deadline 1000 (mk_EncKDCRepPart 1000 7000)) as [H _];
    [unfold is_int64, min_int64, max_int64; cbn; lia..|].
  destruct H as [_ H]; [cbn; lia..|]. rewrite H. reflexivity.
Defined.

(** ** The password file *)

Lemma trim_left_crlf_head s c t : trim_left_crlf s = String c t -> c <> CR /\ c <> LF.
Proof.
  induction s as [|d s IH]; cbn; [done|]. destruct (Ascii.eqb_spec d CR), (Ascii.eqb_spec d LF); cbn; try done.
  intros [= -> ->]. done.
Qed.

Lemma trim_left_crlf_suffix s : exists p, s = p +:+ trim_left_crlf s.
Proof.
  induction s as [|d s [p IH]]; cbn; [by exists ""|]. case_match; [|by exists ""].
  exists (String d p). by rewrite str_app_cons, <- IH.
Qed.

Definition crlf_byte (c : ascii) : bool := Ascii.eqb c CR || Ascii.eqb c LF.

Lemma trim_left_crlf_dropped s : exists p, s = p +:+ trim_left_crlf s /\ str_forall crlf_byte p = true.
Proof.
  induction s as [|d s (p & Hs & Hp)]; cbn; [by exists ""|].
  destruct (Ascii.eqb d CR || Ascii.eqb d LF) eqn:E; [|by exists ""].
  exists (String d p). split; [by rewrite str_app_cons, <- Hs|]. cbn. by rewrite Hp, andb_true_r.
Qed.

Lemma trim_right_crlf_spec s :
  exists tail, s = trim_right_crlf s +:+ tail /\ str_forall crlf_byte tail = true /\
  (forall p c, trim_right_crlf s = p +:+ String c "" -> crlf_byte c = false).
Proof.
  destruct (trim_left_crlf_dropped (str_rev s)) as (p & Hs & Hp). exists (str_rev p). unfold trim_right_crlf.
  split_and!.
  - rewrite <- str_rev_append, <- Hs. by rewrite str_rev_involutive.
  - by rewrite str_forall_rev.
  - intros q c E. apply (f_equal str_rev) in E. rewrite str_rev_involutive, str_rev_append in E. cbn in E.
    apply trim_left_crlf_head in E as [Hc Hl]. unfold crlf_byte.
    by destruct (Ascii.eqb_spec c CR), (Ascii.eqb_spec c LF).
Qed.

(** the password file.  A password is taken from a file only if neither group
    nor others can access it; it is the first 4096 octets of the file without
    the line ends that close them, and never ends in one itself. *)
Theorem password_file file io passwd :
  file <> "" -> getPassword file io = inr passwd ->
  exists mode content tail, pi_stat io = inr mode /\ Z.land mode 63 = 0 /\ pi_content io = inr content /\
    str_take 4096 content = passwd +:+ tail /\ str_forall crlf_byte tail = true /\
    (forall p c, passwd = p +:+ String c "" -> crlf_byte c = false).
Proof.
  intros Hf%String.eqb_neq E. unfold getPassword in E. rewrite Hf in E.
  destruct (pi_open io); [done|]. destruct (pi_stat io) as [|mode]; [done|].
  destruct (Z.eqb_spec (Z.land mode 63) 0); cbn [negb] in E; [|done].
  destruct (pi_content io) as [|content]; [done|]. injection E as <-.
  destruct (trim_right_crlf_spec (str_take maxPasswordFileSize content)) as (tail & H1 & H2 & H3).
  exists mode, content, tail. by split_and!.
Qed.

Definition demo_io : password_io :=
  mk_password_io false (inr "") None (inr 384) (inr ("secret" +:+ crlf)).

Lemma password_file_witness : exists tail, "secret" +:+ crlf = "secret" +:+ tail.
Proof.
  destruct (password_file "pw" demo_io "secret") as (mode & content & tail & _ & _ & Hc & Ht & _);
    [discriminate|vm_compute; reflexivity|].
  exists tail. rewrite <- Ht. injection Hc as <-. vm_compute. reflexivity.
Defined.

(** ** Tokens *)

Definition base64_byte (c : ascii) : bool :=
  is_upper c || is_lower c || is_digit c || Ascii.eqb c "+" || Ascii.eqb c "/" || Ascii.eqb c "=".

Lemma base64_char_byte v : 0 <= v < 64 -> base64_byte (base64_char v) = true.
Proof.
  intros Hv. assert (forallb (fun n => base64_byte (base64_char (Z.of_nat n))) (seq 0 64) = true) as Hall by (vm_compute; reflexivity).
  rewrite forallb_forall in Hall. specialize (Hall (Z.to_nat v)). rewrite Z2Nat.id in Hall by lia.
  apply Hall, in_seq. lia.
Qed.

(** Induction three octets at a time. *)
Lemma octets3_ind (P : string -> Prop) :
  P "" -> (forall a, P (String a "")) -> (forall a b, P (String a (String b ""))) ->
  (forall a b c s, P s -> P (String a (String b (String c s)))) -> forall s, P s.
Proof.
  intros H0 H1 H2 H3. fix IH 1. intros [|a [|b [|c s]]]; [done|apply H1|apply H2|apply H3, IH].
Qed.

(** The sextets of up to three octets are below 64. *)
Ltac base64_side :=
  first [ apply Z.mod_pos_bound; lia
        | split; [apply Z.div_pos; lia | apply Z.div_lt_upper_bound; lia] ].

Lemma base64_encode_text s :
  str_forall base64_byte (base64_encode s) = true /\
  String.length (base64_encode s) = (4 * ((String.length s + 2) / 3))%nat.
Proof.
  induction s as [|a|a b|a b c s [IH1 IH2]] using octets3_ind; [done|..]; cbn [base64_encode str_forall].
  - pose proof (bval_bounds a). rewrite !base64_char_byte by base64_side. done.
  - pose proof (bval_bounds a). pose proof (bval_bounds b). rewrite !base64_char_byte by base64_side. done.
  - pose proof (bval_bounds a). pose proof (bval_bounds b). pose proof (bval_bounds c).
    rewrite !base64_char_byte by base64_side. rewrite IH1. split; [done|]. cbn [String.length]. rewrite IH2.
    replace (S (S (S (String.length s))) + 2)%nat with (String.length s + 2 + 1 * 3)%nat by lia.
    rewrite Nat.div_add by lia. lia.
Qed.

(** The result of a token request is a CredentialError, a NegotiationError,
    or base64 text: four characters per three octets of the token and nothing
    that could end the header line it is put in. *)
Theorem token_outcomes {W C} `{KEnv W C} hmac (s : gs (W := W) (C := C)) :
  match (GetToken hmac s).1 with
  | inl e => errors_is e KCredential = true \/ errors_is e KNegotiation = true
  | inr token => str_forall base64_byte token = true /\ (String.length token mod 4 = 0)%nat
  end.
Proof.
  assert (Hk : forall k m c, errors_is (Err k m c) k = true).
  { intros. apply errors_is_iff, chain_head. }
  unfold GetToken. destruct (closed (g_prov s)); [left; apply Hk|].
  destruct (checkPasswordRejected hmac s) as [[e|] s1] eqn:E1.
  { left. unfold checkPasswordRejected in E1. repeat case_match; simplify_eq; apply Hk. }
  destruct (ticketGrantingClient hmac s1) as [[e|c] s2] eqn:E2.
  { left. unfold ticketGrantingClient, password_login in E2. repeat case_match; simplify_eq; apply Hk. }
  destruct (ke_init c _ _) as [[e|[e|b]] w]; cbn [fst]; [right; apply Hk..|].
  destruct (base64_encode_text b) as [H1 H2]. split; [done|]. rewrite H2, Nat.mul_comm. by apply Nat.Div0.mod_mul.
Qed.

(** ** A scripted KDC *)

(** The passwords the file will hold, and the answers of the KDC. *)
Record kscript := mk_kscript { ks_passwords : list string; ks_logins : list (error + (nat * EncKDCRepPart)) }.

#[export] Instance kscript_env : KEnv kscript nat := {
  ke_now w := (0, w);
  ke_password w := match ks_passwords w with
                   | [] => (mk_password_io false (inr "") (Some (Err KOther "no such file" None)) (inr 0) (inr ""), w)
                   | p :: ps => (mk_password_io false (inr "") None (inr 384) (inr p), mk_kscript ps (ks_logins w))
                   end;
  ke_login _ w := match ks_logins w with
                  | [] => (inl (Err KOther "KDC unreachable" None), w)
                  | r :: rs => (r, mk_kscript (ks_passwords w) rs)
                  end;
  ke_init _ _ w := (inr (inr "tok"), w)
}.

Definition rejection : error := Err KOther "KRB Error: (24) KDC_ERR_PREAUTH_FAILED" None.
Definition demo_ticket : EncKDCRepPart := mk_EncKDCRepPart 1000 7000.

(** A wrong password, which is corrected after one refused request. *)
Definition krb_script : kscript :=
  mk_kscript ["wrong"; "wrong"; "right"; "right"] [inl rejection; inr (7%nat, demo_ticket)].

Definition demo_hmac (key msg : string) : string := key +:+ msg.

Definition demo_provider : Gokrb5TokenProvider (C := nat) :=
  mk_Gokrb5 "pw" "HTTP/proxy.corp" "" false false "k" "" None 0 None.

Definition demo_ops : list op := [OGetToken; OGetToken; OGetToken].

Lemma lockout_guard_witness :
  exists z, GPassword (inr z) ∈ [GWarn; GTickerStart; GPassword (inr "wrong"); GPassword (inr "right");
                                 GTickerStop; GPassword (inr "right")] /\
    demo_hmac "k" z <> demo_hmac "k" "wrong".
Proof.
  apply (lockout_guard demo_hmac "CORP" "krb5.conf" "pw" "proxy.corp:8080" "" None
    (mk_password_io false (inr "") None (inr 384) (inr "wrong")) "k" demo_provider krb_script demo_ops
    [GPassword (inr "wrong")] "wrong" rejection _ "right" None [GToken None]); vm_compute; reflexivity.
Defined.

Lemma ticker_not_nil_witness :
  rejectWarnTicker (g_prov (apply_ops demo_hmac [OGetToken] (mk_gs demo_provider krb_script []))) <> None.
Proof.
  apply (ticker_not_nil demo_hmac "CORP" "krb5.conf" "pw" "proxy.corp:8080" "" None
    (mk_password_io false (inr "") None (inr 384) (inr "wrong")) "k" demo_provider krb_script [OGetToken]);
    vm_compute; reflexivity.
Defined.

Lemma ticket_reused_witness :
  exists e, g_log (GetToken demo_hmac (apply_ops demo_hmac demo_ops (mk_gs demo_provider krb_script []))).2 =
    g_log (apply_ops demo_hmac demo_ops (mk_gs demo_provider krb_script [])) ++ [GToken e].
Proof.
  destruct (ticket_reused demo_hmac (apply_ops demo_hmac demo_ops (mk_gs demo_provider krb_script [])) 7%nat)
    as (e & He & _); [vm_compute; reflexivity..|]. exists e. exact He.
Defined.
