(* ===== verification/Stack.v ===== *)
(** * The token stack: the circuit breaker over the password-based provider

    [buildProvider] of [cli.go] wraps the provider of [auth_gokrb5.go] in the
    breaker of [circuit_breaker.go].  The provider discharges the interface
    the breaker is proved against, and the breaker's bound on failed calls
    becomes a bound on the logins sent to the KDC. *)

From S2P Require Import Prelude GoStrings Errors Breaker Gokrb5 Gokrb5Thms.

Definition logins (l : list gev) : nat := length (List.filter is_login l).

Lemma logins_app l1 l2 : logins (l1 ++ l2) = (logins l1 + logins l2)%nat.
Proof. unfold logins. by rewrite List.filter_app, length_app. Qed.

Section Stack.
Context {W C B : Type} `{KEnv W C} `{Breaker B}.
Variable hmac : string -> string -> string.

#[export] Instance gokrb5_provider : TokenProvider (gs (W := W) (C := C)) :=
  {| inner_get := Gokrb5.GetToken hmac; inner_close s := (None, Gokrb5.Close s) |}.

(** ** One call sends at most one login *)

(** A step from [s] to [s'] that adds at most [n] logins to the log. *)
Definition adds (n : nat) (s s' : gs (W := W) (C := C)) : Prop :=
  exists l, g_log s' = g_log s ++ l /\ (logins l <= n)%nat.

Lemma adds_refl s : adds 0 s s.
Proof. exists []. by rewrite app_nil_r. Qed.

Lemma adds_trans n m s1 s2 s3 : adds n s1 s2 -> adds m s2 s3 -> adds (n + m) s1 s3.
Proof.
  intros (l1 & E1 & H1) (l2 & E2 & H2). exists (l1 ++ l2).
  rewrite E2, E1, <- app_assoc, logins_app. split; [done|lia].
Qed.

Lemma adds_weaken n m s s' : (n <= m)%nat -> adds n s s' -> adds m s s'.
Proof. intros Hn (l & E & Hl). exists l. split; [done|lia]. Qed.

Lemma adds_log e s s1 : g_log s1 = g_log s -> adds (if is_login e then 1 else 0) s (glog s1 e).
Proof. intros E. exists [e]. cbn. rewrite E. split; [done|]. by destruct e. Qed.

Lemma adds_same s s' : g_log s' = g_log s -> adds 0 s s'.
Proof. intros E. exists []. by rewrite E, app_nil_r. Qed.

Lemma adds_read s : adds 0 s (readPassword s).2.
Proof.
  unfold readPassword. destruct (String.eqb _ ""); [by apply (adds_log (GPassword _))|].
  destruct (ke_password _) as [io w]. by apply (adds_log (GPassword _)).
Qed.

Lemma adds_check s : adds 0 s (checkPasswordRejected hmac s).2.
Proof.
  unfold checkPasswordRejected. destruct (passwordRejected (g_prov s)); [|apply adds_refl]. cbn [negb].
  pose proof (adds_read s) as Hr. destruct (readPassword s) as [[e|pw] s1]; [done|]. cbn [snd] in Hr.
  destruct (negb _); [|done]. apply (adds_trans 0 0 _ s1); [done|]. by apply (adds_log GTickerStop).
Qed.

Lemma adds_reject s fp : adds 0 s (rejectPassword s fp).
Proof.
  unfold rejectPassword. destruct (rejectWarnTicker _); apply (adds_trans 0 0 _ (glog s GWarn)).
  1, 3: by apply (adds_log GWarn).
  - by apply (adds_log GTickerReset).
  - by apply (adds_log GTickerStart).
Qed.

Lemma adds_acquire s pw : adds 1 s (acquireCredential s pw).2.
Proof.
  unfold acquireCredential. destruct (ke_login pw _) as [[e|[c part]] w].
  - by apply (adds_log (GLogin pw (Some e))).
  - destruct (ke_now w) as [now w']. by apply (adds_log (GLogin pw None)).
Qed.

Lemma adds_login s : adds 1 s (password_login hmac s).2.
Proof.
  unfold password_login. pose proof (adds_read s) as Hr. destruct (readPassword s) as [[e|pw] s1].
  { by apply (adds_weaken 0); [lia|]. }
  cbn [snd] in Hr. pose proof (adds_acquire s1 pw) as Ha. destruct (acquireCredential s1 pw) as [[e|[c at_]] s2];
    cbn [snd] in Ha; pose proof (adds_trans 0 1 _ _ _ Hr Ha) as Hl; cbn [snd].
  - destruct (isPasswordRejection e); [|done]. apply (adds_trans 1 0 _ s2); [done|apply adds_reject].
  - apply (adds_trans 1 0 _ s2); [done|]. destruct (ticketClient (g_prov s2)).
    + apply (adds_trans 0 0 _ (glog s2 GDestroy)); [by apply (adds_log GDestroy)|by apply adds_same].
    + by apply adds_same.
Qed.

Lemma adds_tgc s : adds 1 s (ticketGrantingClient hmac s).2.
Proof.
  unfold ticketGrantingClient. destruct (ticketClient _); [|apply adds_login].
  destruct (ke_now _) as [now w]. destruct (now <? _).
  - apply (adds_weaken 0); [lia|]. by apply adds_same.
  - apply (adds_trans 0 1 _ (with_world s w)); [by apply adds_same|apply adds_login].
Qed.

Lemma adds_GetToken s : adds 1 s (Gokrb5.GetToken hmac s).2.
Proof.
  unfold Gokrb5.GetToken. destruct (closed _); [apply (adds_weaken 0); [lia|apply adds_refl]|].
  pose proof (adds_check s) as Hc. destruct (checkPasswordRejected hmac s) as [[e|] s1]; cbn [snd] in Hc.
  { by apply (adds_weaken 0); [lia|]. }
  pose proof (adds_tgc s1) as Ht. destruct (ticketGrantingClient hmac s1) as [[e|c] s2]; cbn [snd] in Ht;
    pose proof (adds_trans 0 1 _ _ _ Hc Ht) as Hl; [done|].
  destruct (ke_init c _ _) as [[e|[e|b]] w]; cbn [snd]; apply (adds_trans 1 0 _ s2); try done;
    by apply (adds_log (GToken _)).
Qed.

(** ** A sequence of calls through the breaker *)

Lemma adds_call (p : CircuitBreakerTokenProvider (B := B)) t1 t2 :
  let '(r, p') := Breaker.GetToken p t1 t2 in adds (if r.1 then 1 else 0) (inner p) (inner p').
Proof.
  unfold Breaker.GetToken. destruct (brk_admit (cb p) t1) as [[e|] b]; [apply adds_refl|].
  cbn [inner_get gokrb5_provider]. pose proof (adds_GetToken (inner p)) as Ha.
  by destruct (Gokrb5.GetToken hmac (inner p)) as [r i].
Qed.

Definition admitted (rs : list (bool * (error + string))) : nat := length (List.filter fst rs).

Lemma adds_calls ts (p : CircuitBreakerTokenProvider (B := B)) :
  adds (admitted (GetTokens p ts).1) (inner p) (inner (GetTokens p ts).2).
Proof.
  revert p. induction ts as [|[t1 t2] ts IH]; intros p; cbn [GetTokens]; [apply adds_refl|].
  pose proof (adds_call p t1 t2) as Ha. destruct (Breaker.GetToken p t1 t2) as [r p1]. specialize (IH p1).
  destruct (GetTokens p1 ts) as [rs p2]. cbn [fst snd] in *. unfold admitted in *. cbn.
  pose proof (adds_trans _ _ _ _ _ Ha IH) as Hl. by destruct r as [[] ?].
Qed.

Lemma admitted_failures rs :
  Forall (fun r => inner_succeeds r = false) rs -> Z.of_nat (admitted rs) = failures rs.
Proof.
  intros F. unfold admitted, failures. f_equal. induction F as [|[a r] rs Hr F IH]; [done|].
  unfold inner_succeeds, inner_fails in *. cbn in *. destruct a; cbn in *; [|done].
  rewrite Hr. cbn. by f_equal.
Qed.

(** ** The bound *)

Context (thr timeout : Z) (view : B -> brk_view) (thr_pos : 0 < thr) (timeout_pos : 0 < timeout)
  {laws : BreakerLaws B timeout (fun failures => thr <=? failures) view}.

(** The logins of a sequence of calls through the breaker. *)
Lemma logins_bounded (s : gs (W := W) (C := C)) ts0 rs0 p T D ts rs p' :
  0 <= D -> GetTokens (NewCircuitBreakerTokenProvider s thr timeout) ts0 = (rs0, p) ->
  Forall (in_period T D) ts -> GetTokens p ts = (rs, p') ->
  Forall (fun r => inner_succeeds r = false) rs ->
  exists l, g_log (inner p') = g_log (inner p) ++ l /\ Z.of_nat (logins l) <= thr + D / timeout.
Proof using All.
  intros HD E0 Hw E Hns. pose proof (adds_calls ts p) as Ha. rewrite E in Ha.
  destruct Ha as (l & El & Hl). exists l. split; [done|]. cbn [fst snd] in *.
  pose proof (failures_bounded timeout view thr thr_pos timeout_pos s ts0 rs0 p T D ts rs p' HD E0 Hw E Hns).
  pose proof (admitted_failures rs Hns). lia.
Qed.

(** Lockout protection end to end.  With the password-based provider behind the
    breaker, after any earlier calls, in any period of length [D] in which no
    token is obtained, at most [threshold] logins are sent to the KDC, and one
    more per cool-down that fits in [D], however many requests ask for a token
    and whatever the KDC, the password file and the clock do. *)
Theorem stack_lockout (s : gs (W := W) (C := C)) ts0 rs0 p T D ts rs p' :
  0 <= D -> GetTokens (NewCircuitBreakerTokenProvider s thr timeout) ts0 = (rs0, p) ->
  Forall (in_period T D) ts -> GetTokens p ts = (rs, p') ->
  Forall (fun r => inner_succeeds r = false) rs ->
  exists l, g_log (inner p') = g_log (inner p) ++ l /\ Z.of_nat (logins l) <= thr + D / timeout.
Proof using All. apply logins_bounded. Qed.

(** a burst of concurrent requests cannot lock the account out either.
    After any earlier use of the stack and in every interleaving of any number
    of callers, while no caller has been given a token, the logins that have
    reached the KDC since [T] are at most [threshold], and one more per
    cool-down that has passed. *)
Theorem stack_burst (s0 : gs (W := W) (C := C)) ts0 rs0 p T s :
  GetTokens (NewCircuitBreakerTokenProvider s0 thr timeout) ts0 = (rs0, p) ->
  rtc cstep (cinit p T) s -> Forall (fun r => inner_succeeds r = false) (c_results s) ->
  exists l, g_log (inner (c_prov s)) = g_log (inner p) ++ l /\
    Z.of_nat (logins l) <= thr + (c_now s - T) / timeout.
Proof using All.
  intros E0 (Hnow & _ & Hc & q & Hq & Hst)%serialised_reachable Hns.
  assert (Hin : inner (c_prov s) = inner q) by (destruct Hst as [[_ ->]|(k & t1 & b & _ & _ & _ & ->)]; done).
  rewrite Hin.
  apply (logins_bounded s0 ts0 rs0 p T (c_now s - T) (c_calls s) (c_results s) q); try done; [lia|].
  eapply Forall_impl; [exact Hc|]. cbn. unfold in_period. lia.
Qed.

(** A closed provider is not changed by further calls through the breaker. *)
Lemma closed_call (p : CircuitBreakerTokenProvider (B := B)) s t1 t2 :
  inner p = Gokrb5.Close s ->
  inner (Breaker.GetToken p t1 t2).2 = Gokrb5.Close s /\ succeeded (Breaker.GetToken p t1 t2).1.2 = false.
Proof using Type.
  intros Hp. unfold Breaker.GetToken. destruct (brk_admit (cb p) t1) as [[e|] b]; [by rewrite <- Hp|].
  rewrite Hp. done.
Qed.

(** closing the stack is final.  Once [Close] of the breaker has returned, which
    is what [main] defers, no sequence of token requests obtains a token, reads
    a password or sends a login, whatever state the breaker is in. *)
Theorem stack_close_final (p : CircuitBreakerTokenProvider (B := B)) ts :
  let closed := (Breaker.Close p).2 in
  (Breaker.Close p).1 = None /\
  g_log (inner (GetTokens closed ts).2) = g_log (inner closed) /\
  Forall (fun r => succeeded r.2 = false) (GetTokens closed ts).1.
Proof using Type.
  cbn [Breaker.Close inner_close gokrb5_provider fst snd inner]. split; [done|].
  set (s := inner p). set (q := mk_CBTP (Gokrb5.Close s) (cb p) (threshold p)).
  assert (Hq : inner q = Gokrb5.Close s) by done. clearbody q. revert q Hq.
  induction ts as [|[t1 t2] ts IH]; intros q Hq; cbn [GetTokens]; [cbn [fst snd]; by rewrite Hq|].
  destruct (closed_call q s t1 t2 Hq) as [Hi Hr]. destruct (Breaker.GetToken q t1 t2) as [r q1]. cbn [fst snd] in *.
  destruct (IH q1 Hi) as [Hl Hf]. destruct (GetTokens q1 ts) as [rs q2]. cbn [fst snd] in *.
  split; [done|by constructor].
Qed.

End Stack.

(** ** Witness: five requests while the KDC cannot be reached *)

Definition down : gs (W := kscript) (C := nat) :=
  mk_gs demo_provider (mk_kscript ["a"; "b"; "c"; "d"; "e"] []) [].

Definition down_stack : CircuitBreakerTokenProvider (B := brk_view) :=
  @NewCircuitBreakerTokenProvider _ _ (plain_breaker CBTimeout (fun n => 3 <=? n)) down 3 CBTimeout.

Definition down_run :=
  @GetTokens _ _ (gokrb5_provider demo_hmac) (plain_breaker CBTimeout (fun n => 3 <=? n)) down_stack attempts.

Lemma stack_lockout_witness :
  exists l, g_log (inner down_run.2) = g_log (inner down_stack) ++ l /\ Z.of_nat (logins l) <= 3 + 9 / CBTimeout.
Proof.
  eapply (@stack_lockout _ _ _ _ (plain_breaker CBTimeout (fun n => 3 <=? n)) demo_hmac 3 CBTimeout id
    ltac:(lia) ltac:(done) (plain_breaker_laws _ _) down [] [] down_stack 0 9 attempts down_run.1 down_run.2).
  - lia.
  - reflexivity.
  - unfold attempts, in_period, CBTimeout. repeat constructor; cbn; lia.
  - apply surjective_pairing.
  - vm_compute. repeat constructor.
Defined.

(** Exactly three of the five requests reach the KDC. *)
Example down_logins : logins (g_log (inner down_run.2)) = 3%nat.
Proof. vm_compute. reflexivity. Qed.

(** Two callers: the first one's login has failed, the second one is inside
    [GetToken]. *)
Lemma burst_run :
  exists s : cstate, rtc (@cstep _ _ (gokrb5_provider demo_hmac) (plain_breaker CBTimeout (fun n => 3 <=? n)))
      (cinit down_stack 0) s /\ c_now s = 5 /\ length (c_results s) = 1%nat /\
    forallb (fun r => negb (inner_succeeds r)) (c_results s) = true.
Proof.
  eexists. split; [|].
  { run_caller ltac:(apply (step_lock _ 0%nat); reflexivity).
    run_caller ltac:(eapply (step_admit _ 0%nat); [reflexivity|vm_compute; reflexivity]).
    run_caller ltac:(apply (step_tick _ 5); lia).
    run_caller ltac:(eapply (step_return _ 0%nat); [reflexivity|vm_compute; reflexivity]).
    run_caller ltac:(apply (step_unlock _ 0%nat); reflexivity).
    run_caller ltac:(apply (step_lock _ 1%nat); reflexivity).
    apply rtc_refl. }
  split; [reflexivity|]. split; [reflexivity|]. vm_compute. reflexivity.
Qed.

Lemma stack_burst_witness :
  exists s : cstate (I := gs (W := kscript) (C := nat)) (B := brk_view), length (c_results s) = 1%nat /\
    exists l, g_log (inner (c_prov s)) = g_log down ++ l /\ Z.of_nat (logins l) <= 3 + (c_now s - 0) / CBTimeout.
Proof.
  destruct burst_run as (s & R & Hn & Hl & Hf). exists s. split; [exact Hl|].
  apply (@stack_burst _ _ _ _ (plain_breaker CBTimeout (fun n => 3 <=? n)) demo_hmac 3 CBTimeout id
    ltac:(lia) ltac:(done) (plain_breaker_laws _ _) down [] [] down_stack 0 s eq_refl R).
  apply List.Forall_forall. intros r Hr. eapply forallb_forall in Hf; [|exact Hr]. by apply negb_true_iff.
Defined.
