(* ===== verification/StackRun.v ===== *)
(** * The token stack of a running process

    Everything that happens to the token stack while the proxy runs, in every
    interleaving: any number of callers of [GetToken] behind the breaker's
    mutex, the goroutine that repeats warnings, and [Close], which the breaker
    passes on without taking its mutex.  Each of them works on the provider
    under the provider's own mutex, which makes the provider's operations
    atomic. *)

From S2P Require Import Prelude GoStrings Errors Breaker BreakerOpen Gokrb5 Gokrb5Thms Stack.

Section Run.
Context {W C B : Type} `{KEnv W C} `{Breaker B}.
Variable hmac : string -> string -> string.

#[local] Notation provider := (gs (W := W) (C := C)).
#[local] Notation sstate := (cstate (I := provider) (B := B)).
#[local] Existing Instance gokrb5_provider.

(** What reaches the provider past the breaker. *)
Inductive past_breaker : provider -> provider -> Prop :=
| by_tick s : past_breaker s (warn_tick hmac s)
| by_close s : past_breaker s (inner_close (TokenProvider := gokrb5_provider hmac) s).2.

Definition stack_step : sstate -> sstate -> Prop := @ostep _ _ (gokrb5_provider hmac) _ past_breaker.

Definition provider_of (s : sstate) : provider := inner (c_prov s).

(** [Close] of the stack, with the callers wherever they are. *)
Definition close_stack (s : sstate) : sstate :=
  with_inner s (inner (Breaker.Close (H := gokrb5_provider hmac) (c_prov s)).2).

(** ** The provider sees a sequence of operations *)

Lemma step_op s s' :
  stack_step s s' -> provider_of s' = provider_of s \/ exists o, provider_of s' = apply_op hmac o (provider_of s).
Proof.
  intros Hs. destruct Hs as [s s' Hs|s i Ho].
  - destruct Hs as [| | | |s k t1 x i Hk Hx|]; try (by left). right. exists OGetToken. unfold provider_of. cbn in *.
    by rewrite Hx.
  - right. unfold provider_of. cbn. destruct Ho; [by exists OTick|by exists OClose].
Qed.

Lemma run_ops s s' : rtc stack_step s s' -> exists os, provider_of s' = apply_ops hmac os (provider_of s).
Proof.
  revert s'. apply (rtc_ind_r (fun s' => exists os, provider_of s' = apply_ops hmac os (provider_of s))).
  - by exists [].
  - intros s1 s2 _ Hs [os E]. destruct (step_op s1 s2 Hs) as [E'|[o E']]; [exists os; congruence|].
    exists (os ++ [o]). unfold apply_ops in *. by rewrite fold_left_app, <- E.
Qed.

(** ** Only admitted calls log in *)

Lemma adds_tick s : adds 0 s (warn_tick hmac s).
Proof.
  unfold warn_tick. destruct (negb (closed (g_prov s)) && passwordRejected (g_prov s)); [|apply adds_refl].
  pose proof (adds_check hmac s) as Ha. destruct (checkPasswordRejected hmac s) as [r s1]. cbn [snd] in Ha.
  destruct (passwordRejected (g_prov s1)); [|done].
  apply (adds_trans 0 0 _ s1); [done|by apply (adds_log GWarn)].
Qed.

Lemma adds_close (s : provider) : adds 0 s (Gokrb5.Close s).
Proof.
  unfold Gokrb5.Close. set (s1 := match ticketClient (g_prov s) with Some _ => glog s GDestroy | None => s end).
  assert (H1 : adds 0 s s1).
  { unfold s1. destruct (ticketClient (g_prov s)); [by apply (adds_log GDestroy)|apply adds_refl]. }
  destruct (rejectWarnTicker (g_prov s)).
  - apply (adds_trans 0 0 _ s1); [done|]. apply (adds_trans 0 0 _ (glog s1 GTickerStop)).
    + by apply (adds_log GTickerStop).
    + by apply adds_same.
  - apply (adds_trans 0 0 _ s1); [done|by apply adds_same].
Qed.

Lemma admitted_app rs rs' : admitted (rs ++ rs') = (admitted rs + admitted rs')%nat.
Proof. unfold admitted. by rewrite List.filter_app, length_app. Qed.

(** The results given and the logins sent between two states. *)
Definition between (s s' : sstate) (rs : list (bool * (error + string))) : Prop :=
  c_results s' = c_results s ++ rs /\ adds (admitted rs) (provider_of s) (provider_of s').

Lemma between_step s s' : stack_step s s' -> exists rs, between s s' rs.
Proof.
  intros Hs. unfold between, provider_of. destruct Hs as [s s' Hs|s i Ho].
  - destruct Hs as [s d Hd|s k Hl Hk|s k e b Hk Ha|s k b Hk Ha|s k t1 x i Hk Hx|s k Hk]; cbn;
      try (exists []; rewrite app_nil_r; split; [done|apply adds_refl]).
    + eexists [_]. split; [done|]. apply adds_refl.
    + eexists [_]. split; [done|]. cbn in Hx. pose proof (adds_GetToken hmac (inner (c_prov s))) as Ha. by rewrite Hx in Ha.
  - exists []. rewrite app_nil_r. split; [done|]. cbn. destruct Ho; [apply adds_tick|apply adds_close].
Qed.

Lemma between_run s s' : rtc stack_step s s' -> exists rs, between s s' rs.
Proof.
  revert s'. apply (rtc_ind_r (fun s' => exists rs, between s s' rs)).
  - exists []. split; [by rewrite app_nil_r|apply adds_refl].
  - intros s1 s2 _ Hs [rs [E Ha]]. destruct (between_step s1 s2 Hs) as [rs' [E' Ha']].
    exists (rs ++ rs'). split; [by rewrite E', E, <- app_assoc|].
    rewrite admitted_app. by eapply adds_trans.
Qed.

(** ** Theorems *)

Section Rate.
Context (thr timeout : Z) (view : B -> brk_view) (thr_pos : 0 < thr) (timeout_pos : 0 < timeout)
  {laws : BreakerLaws B timeout (fun failures => thr <=? failures) view}.

(** C10 (stack_rate): account lockout, for the stack as the process uses it.  In every
    interleaving of any number of callers with the warning goroutine and
    [Close], from any moment at which no caller is inside [GetToken] and as long
    as no token is obtained after it, the logins that reach the KDC after that
    moment are at most [threshold], and one more per cool-down that has passed
    since. *)
Theorem stack_rate (i : provider) T s1 s2 :
  rtc stack_step (cinit (NewCircuitBreakerTokenProvider i thr timeout) T) s1 -> c_lock s1 = None ->
  rtc stack_step s1 s2 ->
  exists rs l, c_results s2 = c_results s1 ++ rs /\ g_log (provider_of s2) = g_log (provider_of s1) ++ l /\
    (Forall (fun r => inner_succeeds r = false) rs ->
     Z.of_nat (logins l) <= thr + (c_now s2 - c_now s1) / timeout).
Proof using All.
  intros R1 Hl R2. destruct (between_run s1 s2 R2) as (rs & E & l & El & Hn).
  destruct (open_rate past_breaker thr timeout view thr_pos timeout_pos i T s1 s2 R1 Hl R2) as (rs' & E' & _ & Hb).
  rewrite E in E'. apply app_inv_head in E' as <-. exists rs, l. split_and!; [done..|].
  intros Hns. specialize (Hb Hns). pose proof (admitted_failures rs Hns). lia.
Qed.
End Rate.

(** C9 (stack_guard): the lockout guard, for the stack as the process uses it.  In every
    interleaving of callers, warning ticks and [Close], once the KDC has
    rejected a password no further login is sent before the provider has read a
    password with a different fingerprint. *)
Theorem stack_guard realm cfgFile pwFile proxy explicitSPN ce io key p w thr timeout T s pre x err mid y r post :
  NewGokrb5TokenProvider (C := C) realm cfgFile pwFile proxy explicitSPN ce io key = inr p ->
  rtc stack_step (cinit (NewCircuitBreakerTokenProvider (mk_gs p w []) thr timeout) T) s ->
  g_log (provider_of s) = pre ++ GLogin x (Some err) :: mid ++ GLogin y r :: post ->
  isPasswordRejection err = true ->
  exists z, GPassword (inr z) ∈ mid /\ hmac key z <> hmac key x.
Proof using Type.
  intros Hp R E Hr. destruct (run_ops _ _ R) as [os Eos].
  assert (Hg : guarded hmac key (g_log (provider_of s))).
  { rewrite Eos. apply guard_ops. by eapply New_guard. }
  rewrite E in Hg. by eapply pending_between.
Qed.

(** C33 (stack_closed): closing the stack is final.  After [Close], in every interleaving and
    with callers inside [GetToken] at that moment, the provider does nothing
    more: nothing is logged, so no password is read and no login sent, every
    call that returns fails, and neither the typed password, the fingerprint key
    nor a ticket is kept. *)
Theorem stack_closed s s2 :
  rtc stack_step (close_stack s) s2 ->
  provider_of s2 = Gokrb5.Close (provider_of s) /\
  (exists rs, c_results s2 = c_results s ++ rs /\ Forall (fun r => succeeded r.2 = false) rs) /\
  stdinPassword (g_prov (provider_of s2)) = "" /\ fingerprintKey (g_prov (provider_of s2)) = "" /\
  ticketClient (g_prov (provider_of s2)) = None.
Proof using Type.
  revert s2. change (close_stack s) with (with_inner s (Gokrb5.Close (provider_of s))).
  set (c := Gokrb5.Close (provider_of s)).
  assert (Hgoal : forall s2, rtc stack_step (with_inner s c) s2 -> provider_of s2 = c /\
    exists rs, c_results s2 = c_results s ++ rs /\ Forall (fun r => succeeded r.2 = false) rs).
  { apply (rtc_ind_r (fun s2 => provider_of s2 = c /\
      exists rs, c_results s2 = c_results s ++ rs /\ Forall (fun r => succeeded r.2 = false) rs)).
    - split; [done|]. exists []. by rewrite app_nil_r.
    - intros s2 s3 _ Hs [Hc (rs & E & F)]. split.
      + destruct (step_op s2 s3 Hs) as [->|[o ->]]; [done|]. rewrite Hc. apply Close_stable.
      + unfold provider_of in Hc. destruct Hs as [s2 s3 Hs|s2 i Ho]; [|by exists rs].
        destruct Hs as [| |s2 k e b Hk Ha| |s2 k t1 x i Hk Hx|]; try (by exists rs); cbn.
        * exists (rs ++ [(false, inl (breaker_error (c_prov s2) e))]). rewrite E, app_assoc. split; [done|].
          apply Forall_app. by split; [|apply Forall_singleton].
        * cbn in Hx. rewrite Hc in Hx. injection Hx as <- <-. eexists (rs ++ [_]). rewrite E, app_assoc. split; [done|].
          apply Forall_app. by split; [|apply Forall_singleton]. }
  intros s2 R. destruct (Hgoal s2 R) as [Hc Hrs]. rewrite Hc. by split_and!.
Qed.
End Run.

(** ** Witnesses *)

#[local] Notation demo_breaker := (plain_breaker CBTimeout (fun n => 3 <=? n)).
#[local] Notation demo_step := (@stack_step kscript nat brk_view _ demo_breaker demo_hmac).

Ltac run_stack t :=
  eapply rtc_l; [t|cbn [c_prov c_lock c_pc c_now c_calls c_results inner cb threshold fst snd succeeded with_inner]].
Ltac run_admitted k :=
  run_stack ltac:(apply o_caller, (step_lock _ k); reflexivity);
  run_stack ltac:(apply o_caller; eapply (step_admit _ k); [reflexivity|vm_compute; reflexivity]);
  run_stack ltac:(apply o_caller; eapply (step_return _ k); [reflexivity|vm_compute; reflexivity]);
  run_stack ltac:(apply o_caller, (step_unlock _ k); reflexivity).

(** A stack whose KDC cannot be reached: one failed call, then another one with
    a warning tick while it is inside. *)
Lemma rate_run :
  exists s1 s2, rtc demo_step (cinit down_stack 0) s1 /\ c_lock s1 = None /\ rtc demo_step s1 s2 /\
    length (c_results s2) = 2%nat /\ forallb (fun r => negb (inner_succeeds r)) (c_results s2) = true.
Proof.
  eexists _, _. split; [run_admitted 0%nat; apply rtc_refl|]. split; [reflexivity|]. split.
  { run_stack ltac:(apply o_caller, (step_lock _ 1%nat); reflexivity).
    run_stack ltac:(apply o_caller; eapply (step_admit _ 1%nat); [reflexivity|vm_compute; reflexivity]).
    run_stack ltac:(apply o_outside, by_tick).
    run_stack ltac:(apply o_caller, (step_tick _ 5); lia).
    run_stack ltac:(apply o_caller; eapply (step_return _ 1%nat); [reflexivity|vm_compute; reflexivity]).
    apply rtc_refl. }
  split; vm_compute; reflexivity.
Qed.

Lemma stack_rate_witness :
  exists s1 s2 : cstate (I := gs (W := kscript) (C := nat)) (B := brk_view), length (c_results s2) = 2%nat /\
    exists l, g_log (provider_of s2) = g_log (provider_of s1) ++ l /\
      Z.of_nat (logins l) <= 3 + (c_now s2 - c_now s1) / CBTimeout.
Proof.
  destruct rate_run as (s1 & s2 & R1 & Hl & R2 & Hn & Hf). exists s1, s2. split; [exact Hn|].
  destruct (@stack_rate _ _ _ _ demo_breaker demo_hmac 3 CBTimeout id ltac:(lia) ltac:(done) (plain_breaker_laws _ _)
    down 0 s1 s2 R1 Hl R2) as (rs & l & Ers & El & Hb).
  exists l. split; [exact El|]. apply Hb. rewrite Ers, forallb_app in Hf. apply andb_true_iff in Hf as [_ Hf].
  apply List.Forall_forall. intros r Hr. eapply forallb_forall in Hf; [|exact Hr]. by apply negb_true_iff.
Defined.

(** A wrong password, corrected after one refused request. *)
Definition corrected_stack : CircuitBreakerTokenProvider (B := brk_view) :=
  @NewCircuitBreakerTokenProvider _ _ demo_breaker (mk_gs demo_provider krb_script []) 3 CBTimeout.

Definition corrected_log (mid : list gev) : list gev :=
  [GPassword (inr "wrong")] ++ GLogin "wrong" (Some rejection) :: mid ++ GLogin "right" None :: [GToken None].

Definition corrected_mid : list gev :=
  [GWarn; GTickerStart; GPassword (inr "wrong"); GWarn; GPassword (inr "right"); GTickerStop; GPassword (inr "right")].

Lemma corrected_run :
  exists s, rtc demo_step (cinit corrected_stack 0) s /\ g_log (provider_of s) = corrected_log corrected_mid.
Proof.
  eexists. split.
  { run_admitted 0%nat. run_stack ltac:(apply o_outside, by_tick). run_admitted 1%nat. apply rtc_refl. }
  vm_compute. reflexivity.
Qed.

Lemma stack_guard_witness :
  exists z, GPassword (inr z) ∈ corrected_mid /\ demo_hmac "k" z <> demo_hmac "k" "wrong".
Proof.
  destruct corrected_run as (s & R & E).
  apply (@stack_guard _ _ _ _ demo_breaker demo_hmac "CORP" "krb5.conf" "pw" "proxy.corp:8080" "" None
    (mk_password_io false (inr "") None (inr 384) (inr "wrong")) "k" demo_provider krb_script 3 CBTimeout 0 s
    [GPassword (inr "wrong")] "wrong" rejection corrected_mid "right" None [GToken None]);
    [vm_compute; reflexivity|exact R|exact E|vm_compute; reflexivity].
Defined.

(** [Close] while a caller is inside [GetToken], who then returns. *)
Definition inside : cstate (I := gs (W := kscript) (C := nat)) (B := brk_view) :=
  mk_cstate corrected_stack (Some 0%nat) (except (fun _ => PIdle) 0%nat (PCalling 0)) 0 [] [].

Lemma closed_run :
  exists s, rtc demo_step (close_stack demo_hmac inside) s /\ length (c_results s) = 1%nat.
Proof.
  eexists. split.
  { run_stack ltac:(apply o_caller; eapply (step_return _ 0%nat); [reflexivity|vm_compute; reflexivity]). apply rtc_refl. }
  reflexivity.
Qed.

Lemma stack_closed_witness :
  exists s : cstate (I := gs (W := kscript) (C := nat)) (B := brk_view), length (c_results s) = 1%nat /\
    exists rs, c_results s = [] ++ rs /\ Forall (fun r => succeeded r.2 = false) rs.
Proof.
  destruct closed_run as (s & R & Hn). exists s. split; [exact Hn|].
  apply (@stack_closed _ _ _ _ demo_breaker demo_hmac inside s R).
Defined.
