(* ===== verification/SessionStack.v ===== *)
(** * Sessions over the token stack

    The environment of a session with its token call implemented by the circuit
    breaker over the password-based provider, as [buildProvider] and [Config]
    connect them; everything else a session does is left to another
    environment.  The bound on logins then holds for whole sessions. *)

From S2P Require Import Prelude GoStrings GoNet GoHttp Errors Config Hosts NoProxy Headers.
From S2P Require Import Response Validate Effects Session SessionLoop Script.
From S2P Require Import Breaker Gokrb5 Gokrb5Thms Stack.

(** When a call of [GetToken] decides and when its inner call is done. *)
Class Clocked (X : Type) := { clock_read : X -> (Z * Z) * X }.

(** A world whose token provider is the breaker [sw_stack]; [sw_calls] are the
    times of its calls. *)
Record stack_world (X I B : Type) := mk_sw {
  sw_base : X;
  sw_stack : CircuitBreakerTokenProvider (I := I) (B := B);
  sw_calls : list (Z * Z)
}.
Arguments mk_sw {X I B}.
Arguments sw_base {X I B}.
Arguments sw_stack {X I B}.
Arguments sw_calls {X I B}.

Section Stacked.
Context {X I B : Type} `{Env X} `{Clocked X} `{TokenProvider I} `{Breaker B}.

(** A call that does not concern the provider. *)
Definition lift {A} (f : X -> A * X) (w : stack_world X I B) : A * stack_world X I B :=
  let '(a, x) := f (sw_base w) in (a, mk_sw x (sw_stack w) (sw_calls w)).

(** [s.cfg.Provider.GetToken()] *)
Definition stack_get_token (w : stack_world X I B) : (error + string) * stack_world X I B :=
  let '((t1, t2), x) := clock_read (sw_base w) in
  let '(r, p) := Breaker.GetToken (sw_stack w) t1 t2 in
  (r.2, mk_sw x p (sw_calls w ++ [(t1, t2)])).

#[export] Instance stack_env : Env (stack_world X I B) := {|
  env_read_request := lift env_read_request;
  env_ctx_done := lift env_ctx_done;
  env_get_token := stack_get_token;
  env_dial k := lift (env_dial k);
  env_write_request c f r := lift (env_write_request c f r);
  env_start_upload c f r w := mk_sw (env_start_upload c f r (sw_base w)) (sw_stack w) (sw_calls w);
  env_poll_upload c := lift (env_poll_upload c);
  env_join_upload c := lift (env_join_upload c);
  env_read_response c r := lift (env_read_response c r);
  env_write_client m := lift (env_write_client m);
  env_tunnel c w := mk_sw (env_tunnel c (sw_base w)) (sw_stack w) (sw_calls w);
  env_random := lift env_random
|}.

(** ** The calls of a session are calls of the stack *)

Definition token_of (e : event) : option (error + string) := match e with EvToken r => Some r | _ => None end.
Definition tokens (tr : list event) : list (error + string) := omap token_of tr.

Variable p0 : CircuitBreakerTokenProvider (I := I) (B := B).

(** The provider is where the calls made so far have brought it, and the
    session has been given exactly their results. *)
Definition explained_by (tr : list event) (w : stack_world X I B) : Prop :=
  exists rs, GetTokens p0 (sw_calls w) = (rs, sw_stack w) /\ tokens tr = snd <$> rs.

Definition J (s : st (stack_world X I B)) : Prop := explained_by (st_trace s) (st_world s).

Definition keeps {A} (m : M (stack_world X I B) A) : Prop := triple J m (fun _ => J) J.

Lemma tokens_snoc tr e : tokens (tr ++ [e]) = tokens tr ++ option_list (token_of e).
Proof. unfold tokens. rewrite omap_app. cbn. by destruct (token_of e). Qed.

Lemma explained_snoc tr w w' e :
  token_of e = None -> sw_stack w' = sw_stack w -> sw_calls w' = sw_calls w ->
  explained_by tr w -> explained_by (tr ++ [e]) w'.
Proof.
  intros He Hs Hc (rs & HG & Ht). exists rs. rewrite Hs, Hc, tokens_snoc, He. cbn. by rewrite app_nil_r.
Qed.

Lemma keeps_ret {A} (a : A) : keeps (ret a).
Proof. by apply triple_ret. Qed.

Lemma keeps_bind {A C} (m : M _ A) (k : A -> M _ C) : keeps m -> (forall a, keeps (k a)) -> keeps (bind m k).
Proof. intros Hm Hk. eapply triple_bind; [exact Hm|]. exact Hk. Qed.

Lemma keeps_fuel {A} : keeps (out_of_fuel (A := A)).
Proof. by apply triple_fuel. Qed.

Lemma keeps_emit e : token_of e = None -> keeps (emit e).
Proof. intros He. apply triple_emit. intros s Hs. by apply (explained_snoc _ (st_world s)). Qed.

(** A call whose implementation leaves the provider alone. *)
Definition apart {A} (f : stack_world X I B -> A * stack_world X I B) : Prop :=
  forall w a w', f w = (a, w') -> sw_stack w' = sw_stack w /\ sw_calls w' = sw_calls w.

Lemma apart_lift {A} (f : X -> A * X) : apart (lift f).
Proof. intros w a w'. unfold lift. destruct (f (sw_base w)). by intros [= <- <-]. Qed.

Lemma keeps_call {A} (f : stack_world X I B -> A * stack_world X I B) ev :
  apart f -> (forall a, token_of (ev a) = None) -> keeps (call f ev).
Proof.
  intros Hf He. apply triple_call. intros s a w Hs E. destruct (Hf _ _ _ E).
  by eapply (explained_snoc _ (st_world s)).
Qed.

Lemma keeps_get_proxy : keeps get_proxy.
Proof. intros s Hs. exact Hs. Qed.

Lemma keeps_set_proxy p : keeps (set_proxy p).
Proof. intros s Hs. exact Hs. Qed.

Lemma keeps_dial k : keeps (dial k).
Proof.
  intros s Hs. unfold dial. cbn [env_dial stack_env].
  destruct (lift (env_dial k) (st_world s)) as [e w] eqn:E.
  destruct (apart_lift _ _ _ _ E). cbn. by eapply (explained_snoc _ (st_world s)).
Qed.

Lemma keeps_get_token : keeps get_token.
Proof.
  apply triple_call. intros s r w (rs & HG & Ht) E. cbn [env_get_token stack_env] in E.
  unfold stack_get_token in E. destruct (clock_read _) as [[t1 t2] x].
  destruct (Breaker.GetToken (sw_stack (st_world s)) t1 t2) as [r' p] eqn:Eg. injection E as <- <-.
  exists (rs ++ [r']). cbn. rewrite tokens_snoc, Ht, fmap_app. split; [|done].
  by rewrite (GetTokens_snoc _ _ _ _ _ _ HG), Eg.
Qed.

Lemma apart_plain (f : stack_world X I B -> stack_world X I B) :
  (forall w, sw_stack (f w) = sw_stack w /\ sw_calls (f w) = sw_calls w) -> apart (fun w => (tt, f w)).
Proof. intros Hf w a w' [= <- <-]. apply Hf. Qed.

(** ** Every operation of a session *)

Context `{UnicodeTables}.
Variable cfg : Config.
Variable clientAddr : string.

Create HintDb keeps.
#[local] Hint Resolve keeps_ret keeps_fuel keeps_get_proxy keeps_set_proxy keeps_dial keeps_get_token : keeps.

Ltac keeps_prim :=
  first [ apply keeps_emit; reflexivity
        | apply keeps_call; [first [apply apart_lift | apply apart_plain; done]|done] ].

Ltac keeps :=
  repeat first [ solve [eauto 2 with keeps] | progress intros | apply keeps_bind | keeps_prim | case_match ].

Lemma keeps_client_error pe : keeps (client_error pe).
Proof. unfold client_error, write_client. keeps. Qed.

Lemma keeps_keep_alive c : keeps (keep_alive cfg c).
Proof. unfold keep_alive. keeps. Qed.

Lemma keeps_write_client m : keeps (write_client m).
Proof. unfold write_client. keeps. Qed.

Lemma keeps_ctx_done : keeps ctx_done.
Proof. unfold ctx_done. keeps. Qed.

Lemma keeps_tunnel c : keeps (tunnel c).
Proof. unfold tunnel. keeps. Qed.

#[local] Hint Resolve keeps_client_error keeps_keep_alive keeps_write_client keeps_ctx_done keeps_tunnel : keeps.

Lemma keeps_readRequest : keeps readRequest.
Proof. unfold readRequest, read_request. keeps. Qed.

#[local] Hint Resolve keeps_readRequest : keeps.

Lemma keeps_readNextRequest iter : keeps (readNextRequest iter).
Proof. unfold readNextRequest. keeps. Qed.

Lemma keeps_readThroughInterim fuel c req post : keeps (readThroughInterim fuel c req post).
Proof.
  induction fuel as [|fuel IH]; cbn [readThroughInterim]; [apply keeps_fuel|].
  unfold read_response, relayInterimResponse. keeps.
Qed.

#[local] Hint Resolve keeps_readNextRequest keeps_readThroughInterim : keeps.

Lemma keeps_send c f req : keeps (send c f req).
Proof. unfold send. keeps. Qed.

Lemma keeps_start_upload c f req : keeps (start_upload c f req).
Proof. unfold start_upload. keeps. Qed.

Lemma keeps_await_upload c t : keeps (await_upload c t).
Proof. unfold await_upload, poll_upload, join_upload. keeps. Qed.

#[local] Hint Resolve keeps_send keeps_start_upload keeps_await_upload : keeps.

Lemma keeps_exchangeRequest fuel c f req post : keeps (exchangeRequest fuel c f req post).
Proof. unfold exchangeRequest. keeps. Qed.

Lemma keeps_writeResponse resp : keeps (writeResponse resp).
Proof. unfold writeResponse. keeps. Qed.

Lemma keeps_dialAndAuth req : keeps (dialAndAuthUpstream cfg req).
Proof. unfold dialAndAuthUpstream, handleDialError. keeps. Qed.

Lemma keeps_inject_forwarding req : keeps (inject_forwarding cfg clientAddr req).
Proof. unfold inject_forwarding, random. keeps. Qed.

#[local] Hint Resolve keeps_exchangeRequest keeps_writeResponse keeps_dialAndAuth keeps_inject_forwarding : keeps.

Lemma keeps_relayViaUpstream fuel req : keeps (relayViaUpstream cfg clientAddr fuel req).
Proof. unfold relayViaUpstream, upstream_conn, handleUpstreamResponseError. keeps. Qed.

Lemma keeps_tunnelViaUpstream fuel req : keeps (tunnelViaUpstream cfg clientAddr fuel req).
Proof. unfold tunnelViaUpstream, handleConnectTunnel, handleUpstreamResponseError. keeps. Qed.

Lemma keeps_relayDirect fuel c req : keeps (relayDirect cfg fuel c req).
Proof. unfold relayDirect. keeps. Qed.

Lemma keeps_nextDirectRequest h : keeps (nextDirectRequest cfg h).
Proof. unfold nextDirectRequest. keeps. Qed.

#[local] Hint Resolve keeps_relayViaUpstream keeps_tunnelViaUpstream keeps_relayDirect keeps_nextDirectRequest : keeps.

Lemma keeps_direct_loop fuel c h req : keeps (direct_loop cfg fuel c h req).
Proof. revert req. induction fuel as [|fuel IH]; intros req; cbn [direct_loop]; [apply keeps_fuel|]. keeps. Qed.

#[local] Hint Resolve keeps_direct_loop : keeps.

Lemma keeps_serve_one fuel req : keeps (serve_one cfg clientAddr fuel req).
Proof.
  unfold serve_one, routeRequest, forwardDirect, tunnelDirect, dialDirect, handleDialError. keeps.
Qed.

#[local] Hint Resolve keeps_serve_one : keeps.

Lemma keeps_run fuel iter pending : keeps (run cfg clientAddr fuel iter pending).
Proof.
  revert iter pending. induction fuel as [|fuel IH]; intros iter pending; cbn [run]; [apply keeps_fuel|]. keeps.
Qed.

#[local] Hint Resolve keeps_run : keeps.

Lemma keeps_handleClientCtx fuel : keeps (handleClientCtx cfg clientAddr fuel).
Proof. unfold handleClientCtx, close_proxy. keeps. Qed.

(** A session has called the stack exactly as often as it has been answered. *)
Lemma session_calls fuel x :
  let s := (session cfg clientAddr fuel (mk_sw x p0 [])).2 in explained_by (st_trace s) (st_world s).
Proof.
  pose proof (keeps_handleClientCtx fuel (init_st (mk_sw x p0 []))) as Hk. unfold session.
  destruct (handleClientCtx cfg clientAddr fuel _) as [[a|] s]; apply Hk; by exists [].
Qed.
End Stacked.

(** ** Sessions one after the other on the same stack *)

Section Sessions.
Context {X I B : Type} `{Env X} `{Clocked X} `{TokenProvider I} `{Breaker B} `{UnicodeTables}.
Variable cfg : Config.

(** What the sessions with the given clients, bounds and environments record,
    the times of their calls, and the stack they leave. *)
Fixpoint sessions (p : CircuitBreakerTokenProvider (I := I) (B := B)) (l : list (string * nat * X))
    : list event * list (Z * Z) * CircuitBreakerTokenProvider (I := I) (B := B) :=
  match l with
  | [] => ([], [], p)
  | (clientAddr, fuel, x) :: l =>
      let s := (session cfg clientAddr fuel (mk_sw x p [])).2 in
      let '(tr, calls, q) := sessions (sw_stack (st_world s)) l in
      (st_trace s ++ tr, sw_calls (st_world s) ++ calls, q)
  end.

Lemma sessions_calls l p tr calls q :
  sessions p l = (tr, calls, q) -> exists rs, GetTokens p calls = (rs, q) /\ tokens tr = snd <$> rs.
Proof.
  revert p tr calls. induction l as [|[[addr fuel] x] l IH]; intros p tr calls; cbn [sessions].
  - intros [= <- <- <-]. by exists [].
  - set (s := (session cfg addr fuel _).2). destruct (session_calls p cfg addr fuel x) as (rs & HG & Ht).
    fold s in HG, Ht. destruct (sessions (sw_stack (st_world s)) l) as [[tr' calls'] q'] eqn:E.
    intros [= <- <- <-]. apply IH in E as (rs' & HG' & Ht'). exists (rs ++ rs').
    split; [by eapply GetTokens_app|]. unfold tokens in *. by rewrite omap_app, Ht, Ht', fmap_app.
Qed.
End Sessions.

(** ** The bound on logins *)

Section Lockout.
Context {X W C B : Type} `{Env X} `{Clocked X} `{KEnv W C} `{Breaker B} `{UnicodeTables}.
Variable hmac : string -> string -> string.
Context (thr timeout : Z) (view : B -> brk_view) (thr_pos : 0 < thr) (timeout_pos : 0 < timeout)
  {laws : BreakerLaws B timeout (fun failures => thr <=? failures) view}.

#[local] Instance provider : TokenProvider (gs (W := W) (C := C)) := gokrb5_provider hmac.

(** C11 (sessions_logins_bounded): lockout protection seen from the clients.  Whatever
    clients send in sessions that follow one another, and after any earlier use
    of the stack, as long as none is given a token and the calls lie within a
    period of length [D], the sessions together send at most [threshold] logins
    to the KDC, and one more per cool-down that fits in [D]; and the token
    requests of the sessions are, one for one and in order, the calls of the
    breaker, each answered with what its call returned. *)
Theorem sessions_logins_bounded cfg (l : list (string * nat * X)) (s0 : gs (W := W) (C := C)) ts0 rs0
    (p q : CircuitBreakerTokenProvider (B := B)) T D tr calls :
  0 <= D -> GetTokens (NewCircuitBreakerTokenProvider s0 thr timeout) ts0 = (rs0, p) ->
  sessions cfg p l = (tr, calls, q) ->
  Forall (in_period T D) calls ->
  (forall token, EvToken (inr token) ∉ tr) ->
  (exists rs, GetTokens p calls = (rs, q) /\ tokens tr = snd <$> rs /\ length (tokens tr) = length calls) /\
  exists log, g_log (inner q) = g_log (inner p) ++ log /\ Z.of_nat (logins log) <= thr + D / timeout.
Proof using All.
  intros HD Hp Hl Hw Ht. destruct (sessions_calls _ _ _ _ _ _ Hl) as (rs & HG & Hrs). split.
  - exists rs. split_and!; [done..|]. rewrite Hrs, length_fmap. pose proof (GetTokens_length calls p) as Hlen.
    by rewrite HG in Hlen.
  - eapply (logins_bounded hmac thr timeout view thr_pos timeout_pos s0 ts0 rs0 p T D _ rs); [done..|].
    apply Forall_forall. intros [a r] Hr. unfold inner_succeeds. cbn. destruct r as [e|token]; [by destruct a|].
    exfalso. assert (Hin : inr token ∈ tokens tr).
    { rewrite Hrs. apply list_elem_of_fmap. by exists (a, inr token). }
    apply list_elem_of_omap in Hin as (e & He & Hee). destruct e; try done. cbn in Hee. injection Hee as ->.
    by apply (Ht token).
Qed.
End Lockout.

(** ** Witness: five clients while the KDC cannot be reached *)

#[export] Instance script_clock : Clocked script := {| clock_read w := ((5, 6), w) |}.

Definition down_sessions :=
  @sessions _ _ _ _ _ (gokrb5_provider demo_hmac) (plain_breaker CBTimeout (fun n => 3 <=? n)) _
    demo_config down_stack (replicate 5 (demo_addr, 20%nat, demo_script)).

Definition token_event (e : event) : bool := match e with EvToken (inr _) => true | _ => false end.

Lemma sessions_logins_bounded_witness :
  (exists rs, @GetTokens _ _ (gokrb5_provider demo_hmac) (plain_breaker CBTimeout (fun n => 3 <=? n)) down_stack
       down_sessions.1.2 = (rs, down_sessions.2) /\
     tokens down_sessions.1.1 = snd <$> rs /\ length (tokens down_sessions.1.1) = length down_sessions.1.2) /\
  exists log, g_log (inner down_sessions.2) = g_log (inner down_stack) ++ log /\ Z.of_nat (logins log) <= 3 + 6 / CBTimeout.
Proof.
  eapply (@sessions_logins_bounded _ _ _ _ _ _ _ (plain_breaker CBTimeout (fun n => 3 <=? n)) _ demo_hmac
    3 CBTimeout id ltac:(lia) ltac:(done) (plain_breaker_laws _ _) demo_config (replicate 5 (demo_addr, 20%nat, demo_script))
    down [] [] down_stack _ 0 6).
  - lia.
  - reflexivity.
  - change (down_sessions = (down_sessions.1.1, down_sessions.1.2, down_sessions.2)).
    by rewrite <- !surjective_pairing.
  - assert (E : down_sessions.1.2 = replicate 5 (5, 6)) by (vm_compute; reflexivity). rewrite E.
    apply Forall_replicate. unfold in_period. cbn. lia.
  - intros token Hin. assert (E : existsb token_event down_sessions.1.1 = false) by (vm_compute; reflexivity).
    apply not_true_iff_false in E. apply E, existsb_exists. exists (EvToken (inr token)).
    split; [by apply list_elem_of_In|reflexivity].
Defined.

(** Three of the five clients cause a login. *)
Example down_sessions_logins : logins (g_log (inner down_sessions.2)) = 3%nat.
Proof. vm_compute. reflexivity. Qed.
