(* ===== verification/Server.v ===== *)
(** * The accept loop and shutdown: [server.go], and [readRequest] against
    [beginShutdown] of [forward.go]

    [Serve] as a step relation between its goroutines: the accept loop, the
    sessions (counted by the wait group) and the drain.  A second relation
    interleaves a session's reads with the watcher that closes idle
    connections. *)

From S2P Require Import Prelude.

(** ** Accept-error back-off *)

Module Backoff.

Definition millisecond : Z := 1000000.
Definition acceptBackoffInitial : Z := 5 * millisecond.
Definition acceptBackoffMax : Z := 1000 * millisecond.

(** [next] returns the delay it stores; the product is an int64. *)
Definition next (delay : Z) : Z :=
  if delay =? 0 then acceptBackoffInitial
  else
    let delay := wrap64 (delay * 2) in
    if acceptBackoffMax <? delay then acceptBackoffMax else delay.

Definition reset : Z := 0.

(** The delay after [n] errors in a row. *)
Fixpoint after_errors (n : nat) : Z :=
  match n with O => reset | S n => next (after_errors n) end.

Lemma next_positive d :
  acceptBackoffInitial <= d <= acceptBackoffMax -> next d = Z.min (2 * d) acceptBackoffMax.
Proof.
  intros Hd. unfold next, acceptBackoffInitial, acceptBackoffMax, millisecond in *.
  destruct (Z.eqb_spec d 0); [lia|].
  rewrite wrap64_id by (unfold is_int64, min_int64, max_int64; lia).
  destruct (Z.ltb_spec (1000 * 1000000) (d * 2)); lia.
Qed.

Lemma after_errors_range n :
  acceptBackoffInitial <= after_errors (S n) <= acceptBackoffMax.
Proof.
  induction n as [|n IH]; [by vm_compute|].
  change (after_errors (S (S n))) with (next (after_errors (S n))). rewrite next_positive by done.
  unfold acceptBackoffInitial, acceptBackoffMax, millisecond in *. lia.
Qed.

(** The retry schedule.  The wait after [n + 1] consecutive accept errors is
    5 ms doubled [n] times, capped at one second, without overflow however long
    the errors last. *)
Theorem backoff_schedule n :
  after_errors (S n) = Z.min (acceptBackoffInitial * 2 ^ Z.of_nat n) acceptBackoffMax.
Proof.
  induction n as [|n IH]; [reflexivity|].
  change (after_errors (S (S n))) with (next (after_errors (S n))).
  rewrite (next_positive _ (after_errors_range n)), IH, Nat2Z.inj_succ, Z.pow_succ_r by lia.
  pose proof (Z.pow_pos_nonneg 2 (Z.of_nat n)). unfold acceptBackoffInitial, acceptBackoffMax, millisecond. lia.
Qed.

End Backoff.

(** ** [Serve] *)

Module Serve.
Import Backoff.

(** The accept goroutine: in [Accept], holding an accepted connection, waiting
    after an error, or returned. *)
Inductive accept_pc := Accepting | Accepted | Waiting (delay : Z) | AcceptDone.

(** [Serve] itself: waiting for the context, for [acceptDone], draining, or
    returned ([true]: all connections drained). *)
Inductive main_pc := WaitCtx | WaitAccept | Draining | Returned (drained : bool).

Record state := mk_state {
  cancelled : bool;       (* ctx is done *)
  listening : bool;       (* the listener is open *)
  accept : accept_pc;
  backoff : Z;
  active : nat;           (* sessions the wait group counts *)
  main : main_pc
}.

Definition set_accept (s : state) (a : accept_pc) (b : Z) : state :=
  mk_state (cancelled s) (listening s) a b (active s) (main s).
Definition set_active (s : state) (n : nat) : state :=
  mk_state (cancelled s) (listening s) (accept s) (backoff s) n (main s).
Definition set_main (s : state) (m : main_pc) : state :=
  mk_state (cancelled s) (listening s) (accept s) (backoff s) (active s) m.

Inductive step : state -> state -> Prop :=
| cancel s : cancelled s = false ->
    step s (mk_state true (listening s) (accept s) (backoff s) (active s) (main s))
| accept_conn s : accept s = Accepting -> listening s = true ->
    step s (set_accept s Accepted (backoff s))
| accept_spawn s : accept s = Accepted ->
    step s (set_active (set_accept s Accepting reset) (S (active s)))
| accept_error s : accept s = Accepting -> cancelled s = false ->
    step s (set_accept s (Waiting (next (backoff s))) (next (backoff s)))
| accept_error_stop s : accept s = Accepting -> cancelled s = true ->
    step s (set_accept s AcceptDone (backoff s))
| wait_timer s d : accept s = Waiting d ->
    step s (set_accept s Accepting (backoff s))
| wait_stop s d : accept s = Waiting d -> cancelled s = true ->
    step s (set_accept s AcceptDone (backoff s))
| session_end s n : active s = S n ->
    step s (set_active s n)
| main_close s : main s = WaitCtx -> cancelled s = true ->
    step s (mk_state (cancelled s) false (accept s) (backoff s) (active s) WaitAccept)
| main_accept_done s : main s = WaitAccept -> accept s = AcceptDone ->
    step s (set_main s Draining)
| main_drained s : main s = Draining -> active s = O ->
    step s (set_main s (Returned true))
| main_forced s : main s = Draining ->
    step s (set_main s (Returned false)).

Definition start : state := mk_state false true Accepting reset 0 WaitCtx.

(** ** Invariant *)

Definition past_accept (m : main_pc) : Prop :=
  match m with Draining | Returned _ => True | _ => False end.

Record inv (s : state) : Prop := {
  inv_ctx : main s <> WaitCtx -> cancelled s = true /\ listening s = false;
  inv_done : past_accept (main s) -> accept s = AcceptDone;
  inv_drained : main s = Returned true -> active s = O;
  inv_wait : forall d, accept s = Waiting d -> acceptBackoffInitial <= d <= acceptBackoffMax;
  inv_backoff : backoff s = 0 \/ acceptBackoffInitial <= backoff s <= acceptBackoffMax
}.

Lemma next_range d :
  d = 0 \/ acceptBackoffInitial <= d <= acceptBackoffMax ->
  acceptBackoffInitial <= next d <= acceptBackoffMax.
Proof.
  intros [->|Hd]; [by vm_compute|].
  rewrite next_positive by done. unfold acceptBackoffInitial, acceptBackoffMax, millisecond in *. lia.
Qed.

Lemma inv_start : inv start.
Proof. constructor; cbn; try done. by left. Qed.

Lemma inv_step s s' : inv s -> step s s' -> inv s'.
Proof.
  intros [H1 H2 H3 H4 H5] Hs.
  destruct Hs; (constructor; cbn; [intros Hm|intros Hm|intros Hm|intros dd Hd|]); auto; try congruence;
    try (by left); try (by destruct (H1 Hm); split); try (specialize (H2 Hm); congruence);
    try (specialize (H3 Hm); congruence); try done; try (apply H1; congruence); try (by apply H2; rewrite H).
  - rewrite Hm in H2. specialize (H2 I). congruence.
  - injection Hd as <-. by apply next_range.
  - right. by apply next_range.
Qed.

Lemma inv_reachable s s' : inv s -> rtc step s s' -> inv s'.
Proof. intros Hi Hr. induction Hr; eauto using inv_step. Qed.

(** Past the accept loop no step adds a session or leaves the drain. *)
Lemma drain_step s s' :
  inv s -> past_accept (main s) -> step s s' ->
  past_accept (main s') /\ (active s' <= active s)%nat.
Proof.
  intros Hi Hp Hs. pose proof (inv_done _ Hi Hp) as Ha.
  destruct Hs; cbn in *; try congruence; split; (done || lia || (by rewrite H in Hp)).
Qed.

Lemma drain_steps s s' :
  inv s -> past_accept (main s) -> rtc step s s' ->
  past_accept (main s') /\ (active s' <= active s)%nat.
Proof.
  intros Hi Hp Hr. induction Hr as [|x y z Hxy Hyz IH]; [done|].
  destruct (drain_step _ _ Hi Hp Hxy). destruct IH; eauto using inv_step. split; [done|lia].
Qed.

(** Steps left once the listener is closed: an accepted connection is still
    started, every session ends once, [Serve] moves on twice. *)
Definition accept_weight (a : accept_pc) : nat :=
  match a with Accepted => 5 | Waiting _ => 3 | Accepting => 2 | AcceptDone => 0 end.
Definition main_weight (m : main_pc) : nat :=
  match m with WaitCtx => 3 | WaitAccept => 2 | Draining => 1 | Returned _ => 0 end.
Definition weight (s : state) : nat :=
  (active s + accept_weight (accept s) + main_weight (main s))%nat.

Lemma weight_step s s' :
  inv s -> main s <> WaitCtx -> step s s' ->
  main s' <> WaitCtx /\ (weight s' < weight s)%nat.
Proof.
  intros Hi Hm Hs. destruct (inv_ctx _ Hi Hm) as [Hc Hl].
  destruct Hs; try congruence; unfold weight; cbn; rewrite ?H; cbn; (split; [done|lia]).
Qed.

Lemma weight_bound n s s' :
  inv s -> main s <> WaitCtx -> nsteps step n s s' -> (n + weight s' <= weight s)%nat.
Proof.
  intros Hi Hm Hr. induction Hr as [|n x y z Hxy Hyz IH]; [lia|].
  destruct (weight_step _ _ Hi Hm Hxy) as [Hm' Hw]. specialize (IH (inv_step _ _ Hi Hxy) Hm'). lia.
Qed.

(** ** Theorems *)

(** no session starts during the drain.  In every reachable state past the wait for
    the accept loop the loop has returned, and from then on the number of
    active sessions never grows (no [wg.Go] races with [wg.Wait]); when
    [Serve] reports all connections drained there is no active session, then
    and in every later state. *)
Theorem serve_drain s s' :
  rtc step start s -> past_accept (main s) -> rtc step s s' ->
  accept s' = AcceptDone /\ listening s' = false /\ (active s' <= active s)%nat /\
  (main s = Returned true -> active s' = O).
Proof.
  intros Hr Hp Hs. pose proof (inv_reachable _ _ inv_start Hr) as Hi.
  destruct (drain_steps _ _ Hi Hp Hs) as [Hp' Hle].
  pose proof (inv_reachable _ _ Hi Hs) as Hi'.
  assert (Hm : main s' <> WaitCtx) by (by intros Hm; rewrite Hm in Hp').
  split; [by apply inv_done|]. split; [apply (inv_ctx _ Hi' Hm)|]. split; [done|].
  intros Hd. pose proof (inv_drained _ Hi Hd). lia.
Qed.

(** [Serve] returns.  Once the listener is closed at most [weight s] further steps
    of any kind can happen (one end per session, the start of a connection
    accepted just before, the exit of the accept loop, the drain), and as long
    as [Serve] has not returned one of them, not the end of a session, is
    possible: shutdown cannot be held up by sessions or by accept errors. *)
Theorem serve_returns s :
  rtc step start s -> main s <> WaitCtx ->
  (forall n s', nsteps step n s s' -> (n <= weight s)%nat) /\
  ((exists d, main s = Returned d) \/ exists s', step s s' /\ active s' >= active s)%nat.
Proof.
  intros Hr Hm. pose proof (inv_reachable _ _ inv_start Hr) as Hi. split.
  - intros n s' Hn. pose proof (weight_bound _ _ _ Hi Hm Hn). lia.
  - destruct (inv_ctx _ Hi Hm) as [Hc Hl]. destruct (main s) eqn:Em; [done| | |by left; eexists].
    + right. destruct (accept s) eqn:Ea.
      * exists (set_accept s AcceptDone (backoff s)). split; [by apply accept_error_stop|cbn; lia].
      * exists (set_active (set_accept s Accepting reset) (S (active s))). split; [by apply accept_spawn|cbn; lia].
      * exists (set_accept s AcceptDone (backoff s)). split; [by eapply wait_stop|cbn; lia].
      * exists (set_main s Draining). split; [by apply main_accept_done|cbn; lia].
    + right. exists (set_main s (Returned false)). split; [by apply main_forced|cbn; lia].
Qed.

(** The accept loop never spins.  Whatever happened before, the wait it has
    started after an error is between 5 ms and one second; the wait that
    follows an accepted connection is the initial one again. *)
Theorem accept_wait_bounded s :
  rtc step start s ->
  (forall d, accept s = Waiting d -> acceptBackoffInitial <= d <= acceptBackoffMax) /\
  (forall s', accept s = Accepted -> step s s' -> accept s' = Accepting ->
     next (backoff s') = acceptBackoffInitial).
Proof.
  intros Hr. pose proof (inv_reachable _ _ inv_start Hr) as Hi. split; [apply Hi|].
  intros s' Ha Hs. destruct Hs; cbn; try congruence; done.
Qed.

(** ** Witnesses: a connection is accepted, then the context is cancelled *)

Definition one_session : state := mk_state true true Accepting reset 1 WaitCtx.
Definition closing : state := mk_state true false Accepting reset 1 WaitAccept.
Definition draining : state := mk_state true false AcceptDone reset 1 Draining.

Lemma reach_one_session : rtc step start one_session.
Proof.
  eapply rtc_l; [by apply accept_conn|]. eapply rtc_l; [by apply accept_spawn|].
  eapply rtc_l; [by apply cancel|]. done.
Qed.

Lemma reach_closing : rtc step start closing.
Proof. eapply rtc_r; [apply reach_one_session|]. by apply (main_close one_session). Qed.

Lemma reach_draining : rtc step start draining.
Proof.
  eapply rtc_r; [eapply rtc_r; [apply reach_closing|]|].
  - by apply (accept_error_stop closing).
  - by apply (main_accept_done (set_accept closing AcceptDone reset)).
Qed.

Lemma serve_drain_witness : accept draining = AcceptDone.
Proof. apply (serve_drain draining draining); [apply reach_draining|done|done]. Defined.

Lemma serve_returns_witness :
  (forall n s', nsteps step n closing s' -> (n <= weight closing)%nat) /\
  ((exists d, main closing = Returned d) \/ exists s', step closing s' /\ active s' >= active closing)%nat.
Proof. apply (serve_returns closing); [apply reach_closing|done]. Defined.

Lemma accept_wait_bounded_witness :
  forall d, accept (set_accept start (Waiting (next 0)) (next 0)) = Waiting d ->
    acceptBackoffInitial <= d <= acceptBackoffMax.
Proof.
  apply (accept_wait_bounded (set_accept start (Waiting (next 0)) (next 0))).
  apply rtc_once. by apply (accept_error start).
Defined.

End Serve.

(** ** A session's reads against the shutdown watcher *)

Module Shutdown.

(** The session goroutine, between the statements of [readRequest]:
    [Top] before the first lock, [Locked] and [Checked] inside the first
    critical section (before and after the context check), [Reading] in
    [http.ReadRequest], [Got] after it, [Locked2] inside the second critical
    section, [After] before the second context check; then [Busy] with the
    request, or [Ended] ([stopWatch] is closed). *)
Inductive session_pc := Top | Locked | Checked | Reading | Got | Locked2 | After | Busy | Ended.

(** The watcher goroutine of [handleClientCtx]: in its [select], waiting for
    the mutex in [beginShutdown], holding it, or returned. *)
Inductive watcher_pc := Watching | Waking | Holding | Finished.

Record rw_state := mk_rw_state {
  cancelled : bool;
  held : bool;              (* s.mu *)
  idle : bool;              (* s.idle *)
  shut : bool;              (* beginShutdown has closed s.conn *)
  session : session_pc;
  watcher : watcher_pc
}.

Definition at_session (s : rw_state) (m i : bool) (p : session_pc) : rw_state :=
  mk_rw_state (cancelled s) m i (shut s) p (watcher s).
Definition at_watcher (s : rw_state) (m c : bool) (p : watcher_pc) : rw_state :=
  mk_rw_state (cancelled s) m (idle s) c (session s) p.

(** [readRequest] and the loop around it. *)
Inductive session_step : rw_state -> rw_state -> Prop :=
| s_lock s : session s = Top -> held s = false ->
    session_step s (at_session s true (idle s) Locked)
| s_done s : session s = Locked -> cancelled s = true ->
    session_step s (at_session s false (idle s) Ended)
| s_check s : session s = Locked -> cancelled s = false ->
    session_step s (at_session s true (idle s) Checked)
| s_idle s : session s = Checked ->
    session_step s (at_session s false true Reading)
| s_read s : session s = Reading ->
    session_step s (at_session s (held s) (idle s) Got)
| s_lock2 s : session s = Got -> held s = false ->
    session_step s (at_session s true (idle s) Locked2)
| s_busy s : session s = Locked2 ->
    session_step s (at_session s false false After)
| s_done2 s : session s = After -> cancelled s = true ->
    session_step s (at_session s (held s) (idle s) Ended)
| s_serve s : session s = After -> cancelled s = false ->
    session_step s (at_session s (held s) (idle s) Busy)
| s_next s : session s = Busy ->
    session_step s (at_session s (held s) (idle s) Top)
| s_end s : session s = Busy ->
    session_step s (at_session s (held s) (idle s) Ended).

Inductive watcher_step : rw_state -> rw_state -> Prop :=
| w_wake s : watcher s = Watching -> cancelled s = true ->
    watcher_step s (at_watcher s (held s) (shut s) Waking)
| w_stop s : watcher s = Watching -> session s = Ended ->
    watcher_step s (at_watcher s (held s) (shut s) Finished)
| w_lock s : watcher s = Waking -> held s = false ->
    watcher_step s (at_watcher s true (shut s) Holding)
| w_close s : watcher s = Holding ->
    watcher_step s (at_watcher s false (if idle s then true else shut s) Finished).

Inductive rw_step : rw_state -> rw_state -> Prop :=
| by_context s : rw_step s (mk_rw_state true (held s) (idle s) (shut s) (session s) (watcher s))
| by_session s s' : session_step s s' -> rw_step s s'
| by_watcher s s' : watcher_step s s' -> rw_step s s'.

Definition rw_start (c : bool) : rw_state := mk_rw_state c false false false Top Watching.

Definition in_section (p : session_pc) : bool :=
  match p with Locked | Checked | Locked2 => true | _ => false end.
Definition is_idle (p : session_pc) : bool :=
  match p with Reading | Got | Locked2 => true | _ => false end.
Definition w_holds (p : watcher_pc) : bool := match p with Holding => true | _ => false end.

Record rw_inv (s : rw_state) : Prop := {
  inv_mutex : held s = orb (in_section (session s)) (w_holds (watcher s));
  inv_excl : in_section (session s) = true -> w_holds (watcher s) = true -> False;
  inv_idle : idle s = is_idle (session s);
  inv_shut : shut s = true -> cancelled s = true /\
    match session s with Reading | Got | Locked2 | After | Ended => True | _ => False end;
  inv_awake : (watcher s = Waking \/ watcher s = Holding) -> cancelled s = true;
  inv_finished : watcher s = Finished ->
    session s = Ended \/ cancelled s = true /\
    match session s with Checked => False | Reading | Got | Locked2 => shut s = true | _ => True end
}.

Lemma rw_inv_start c : rw_inv (rw_start c).
Proof. by constructor; cbn; try (intros [?|?]). Qed.

(** Field-by-field case analysis on a concrete program counter. *)
Ltac crush_inv :=
  constructor; cbn in *; intros; subst; cbn in *;
  repeat match goal with
    | H : _ /\ _ |- _ => destruct H
    | H : false = true |- _ => discriminate H
    | H : true = false |- _ => discriminate H
    | H : _ \/ _ |- _ => destruct H; try discriminate
    | H : ?x = ?x -> _ |- _ => specialize (H eq_refl)
    end; try (first [done | tauto | congruence | intuition congruence]).

Lemma inv_context s : rw_inv s -> rw_inv (mk_rw_state true (held s) (idle s) (shut s) (session s) (watcher s)).
Proof.
  intros [H1 H2 H3 H4 H5 H6]. constructor; cbn; try done.
  - intros Hs. split; [done|apply (H4 Hs)].
  - intros Hw. destruct (H6 Hw) as [He|[_ He]]; auto.
Qed.

Lemma inv_session s s' : rw_inv s -> session_step s s' -> rw_inv s'.
Proof.
  intros [H1 H2 H3 H4 H5 H6] Hs.
  destruct Hs as [s|s|s|s|s|s|s|s|s|s|s]; destruct s as [c0 m0 i0 sh0 p0 w0];
    cbn in *; subst; destruct w0; crush_inv.
Qed.

Lemma inv_watcher s s' : rw_inv s -> watcher_step s s' -> rw_inv s'.
Proof.
  intros [H1 H2 H3 H4 H5 H6] Hs.
  destruct Hs as [s|s|s|s]; destruct s as [c0 m0 i0 sh0 p0 w0];
    cbn in *; subst; try destruct p0; crush_inv.
Qed.

Lemma rw_inv_reachable s s' : rw_inv s -> rtc rw_step s s' -> rw_inv s'.
Proof.
  intros Hi Hr. induction Hr as [|x y z Hxy Hyz IH]; [done|]. apply IH.
  destruct Hxy; eauto using inv_context, inv_session, inv_watcher.
Qed.

(** Once the context is cancelled, a session not serving a request never
    serves one again. *)
Lemma cancelled_step s s' : cancelled s = true -> rw_step s s' -> cancelled s' = true.
Proof. intros Hc Hs. destruct Hs as [|s s' Hs|s s' Hs]; [done|by destruct Hs|by destruct Hs]. Qed.

Lemma not_busy_step s s' :
  cancelled s = true -> session s <> Busy -> rw_step s s' -> session s' <> Busy.
Proof.
  intros Hc Hb Hs. destruct Hs as [|s s' Hs|s s' Hs]; [done|..]; destruct Hs; cbn; congruence.
Qed.

Lemma not_busy_steps s s' :
  cancelled s = true -> session s <> Busy -> rtc rw_step s s' -> session s' <> Busy.
Proof.
  intros Hc Hb Hr. induction Hr as [|x y z Hxy Hyz IH]; [done|].
  apply IH; [by eapply cancelled_step|by eapply not_busy_step].
Qed.

(** The watcher's own steps from a read in progress. *)
Lemma watcher_closes s :
  rw_inv s -> cancelled s = true -> session s = Reading ->
  exists n s', (n <= 3)%nat /\ nsteps watcher_step n s s' /\ shut s' = true /\ session s' = Reading.
Proof.
  intros [H1 H2 H3 H4 H5 H6] Hc Hs. destruct s as [c m i sh p w]; cbn in *; subst.
  destruct w; cbn.
  - exists 3%nat. eexists. split; [lia|]. split; [|split].
    + eapply nsteps_l; [by apply w_wake|]. eapply nsteps_l; [by apply w_lock|].
      eapply nsteps_l; [by apply w_close|]. apply nsteps_O.
    + done.
    + done.
  - exists 2%nat. eexists. split; [lia|]. split; [|split].
    + eapply nsteps_l; [by apply w_lock|]. eapply nsteps_l; [by apply w_close|]. apply nsteps_O.
    + done.
    + done.
  - exists 1%nat. eexists. split; [lia|]. split; [|split].
    + eapply nsteps_l; [by apply w_close|]. apply nsteps_O.
    + done.
    + done.
  - exists 0%nat. eexists. split; [lia|]. split; [apply nsteps_O|]. split; [|done].
    destruct (H6 eq_refl) as [?|[_ ?]]; done.
Qed.

(** C27 (busy_left_alone): shutdown never closes a connection whose request is being served.  In every
    interleaving of the session, the watcher and the cancellation, while the
    session is between reading a request and reading the next one the watcher
    has not closed the connection, and no watcher step closes it. *)
Theorem busy_left_alone c s :
  rtc rw_step (rw_start c) s -> session s = Busy \/ session s = Top ->
  shut s = false /\ forall s', watcher_step s s' -> shut s' = false.
Proof.
  intros Hr Hs. destruct (rw_inv_reachable _ _ (rw_inv_start c) Hr) as [H1 H2 H3 H4 H5 H6].
  assert (Hf : shut s = false).
  { destruct (shut s); [|done]. destruct (H4 eq_refl) as [_ H]. by destruct Hs as [Hs|Hs]; rewrite Hs in H. }
  split; [done|]. intros s' Hw. destruct Hw; cbn; try done.
  rewrite H3. by destruct Hs as [Hs|Hs]; rewrite Hs.
Qed.

(** C40 (idle_released): a blocked read never outlives shutdown, and no request is
    served after it.  In every interleaving, when the context is cancelled while
    the session reads a request, three steps of the watcher at most, which nothing
    has to precede, close the connection under the read; if the watcher has returned the connection is closed already; and
    the session never goes on to serve a request. *)
Theorem idle_released c s :
  rtc rw_step (rw_start c) s -> cancelled s = true -> session s = Reading ->
  (exists n s', (n <= 3)%nat /\ nsteps watcher_step n s s' /\ shut s' = true /\ session s' = Reading) /\
  (watcher s = Finished -> shut s = true) /\
  (forall s', rtc rw_step s s' -> session s' <> Busy).
Proof.
  intros Hr Hc Hs. pose proof (rw_inv_reachable _ _ (rw_inv_start c) Hr) as Hi.
  split; [by apply watcher_closes|]. split.
  - intros Hw. destruct (inv_finished _ Hi Hw) as [He|[_ He]]; [congruence|by rewrite Hs in He].
  - intros s' Hr'. apply (not_busy_steps s); [done|congruence|done].
Qed.

(** ** Witnesses *)

Definition reading : rw_state := mk_rw_state true false true false Reading Watching.
Definition serving : rw_state := mk_rw_state false false false false Busy Watching.

Lemma reach_reading : rtc rw_step (rw_start false) reading.
Proof.
  do 3 (eapply rtc_l; [apply by_session; first [by apply s_lock|by apply s_check|by apply s_idle]|]).
  apply rtc_once, by_context.
Qed.

Lemma reach_serving : rtc rw_step (rw_start false) serving.
Proof.
  do 3 (eapply rtc_l; [apply by_session; first [by apply s_lock|by apply s_check|by apply s_idle]|]).
  eapply rtc_l; [by apply by_session, s_read|]. eapply rtc_l; [by apply by_session, s_lock2|].
  eapply rtc_l; [by apply by_session, s_busy|]. by apply rtc_once, by_session, s_serve.
Qed.

Lemma busy_left_alone_witness : shut serving = false.
Proof. exact (proj1 (busy_left_alone false serving reach_serving (or_introl eq_refl))). Defined.

Lemma idle_released_witness :
  exists n s', (n <= 3)%nat /\ nsteps watcher_step n reading s' /\ shut s' = true /\ session s' = Reading.
Proof. exact (proj1 (idle_released false reading reach_reading eq_refl eq_refl)). Defined.

End Shutdown.
