(* ===== verification/ServeSpec.v ===== *)
(** * The shutdown specification: [formal/m4-serve-shutdown/Serve.tla]

    The repository's own specification of the accept loop, the sessions and the
    drain, as a step relation with the constants and actions of the TLA+
    module, and the promises the module states.  [Process] shows that [Serve]
    with any number of sessions refines it. *)

From S2P Require Import Prelude.

Inductive ss_loop := LoopAccepting | LoopSpawning | LoopStopped.
Inductive ss_phase := PhServing | PhClosing | PhAwaitingLoop | PhDraining | PhDrained | PhForced.
Inductive ss_conn := KNone | KBacklog | KAccepted | KWaiting | KBusy | KClosed.

#[export] Instance ss_conn_eq_dec : EqDecision ss_conn.
Proof. solve_decision. Defined.
#[export] Instance ss_phase_eq_dec : EqDecision ss_phase.
Proof. solve_decision. Defined.

Record ss_state := mk_ss {
  ss_ctx : bool;                     (* ctxDone *)
  ss_open : bool;                    (* listener *)
  ss_loop_at : ss_loop;              (* loop *)
  ss_cur : option nat;               (* cur *)
  ss_phase_at : ss_phase;            (* phase *)
  ss_conn_at : nat -> ss_conn;       (* conn *)
  ss_served : nat -> nat;            (* served *)
  ss_wg : nat;                       (* wg *)
  ss_wait : bool;                    (* waitStarted *)
  ss_late_add : bool;                (* addAfterWait *)
  ss_idle_wait : bool                (* waitedOnIdle *)
}.

Section Spec.
(** [K] connections with at most [R] requests each; [WaitAcceptDone]: the drain
    waits for the accept loop; [DrainCloses]: shutdown closes idle connections
    and ends a busy one after its response. *)
Context (K R : nat) (WaitAcceptDone DrainCloses : bool).

Definition ss_init : ss_state :=
  mk_ss false true LoopAccepting None PhServing (fun _ => KNone) (fun _ => 0%nat) 0 false false false.

(** [UNCHANGED] everything but one connection and the wait group. *)
Definition put (t : ss_state) (i : nat) (x : ss_conn) (n wg : nat) : ss_state :=
  mk_ss (ss_ctx t) (ss_open t) (ss_loop_at t) (ss_cur t) (ss_phase_at t) (except (ss_conn_at t) i x)
    (except (ss_served t) i n) wg (ss_wait t) (ss_late_add t) (ss_idle_wait t).

Definition Running (t : ss_state) : Prop := ss_phase_at t <> PhDrained /\ ss_phase_at t <> PhForced.

Definition Idle (t : ss_state) (i : nat) : Prop := ss_conn_at t i = KWaiting /\ (0 < ss_served t i)%nat.

Definition UrgentPending (t : ss_state) : Prop :=
  DrainCloses = true /\ ss_ctx t = true /\ exists i, (i < K)%nat /\ Idle t i.

(** The drain waits for time to pass for idle connections only. *)
Definition waits_on_idle (t : ss_state) : Prop :=
  ss_phase_at t = PhDraining /\ (forall j, (j < K)%nat -> ss_conn_at t j <> KBusy) /\
  exists i, (i < K)%nat /\ Idle t i.

(** [Timed]: the step [t] to [t'] needs time to pass. *)
Definition timed (t t' : ss_state) (u : ss_state) : Prop :=
  exists w, (w = true <-> ss_idle_wait t = true \/ waits_on_idle t) /\
  u = mk_ss (ss_ctx t') (ss_open t') (ss_loop_at t') (ss_cur t') (ss_phase_at t') (ss_conn_at t') (ss_served t')
        (ss_wg t') (ss_wait t') (ss_late_add t') w.

Definition with_phase (t : ss_state) (ph : ss_phase) (wait : bool) : ss_state :=
  mk_ss (ss_ctx t) (ss_open t) (ss_loop_at t) (ss_cur t) ph (ss_conn_at t) (ss_served t) (ss_wg t)
    wait (ss_late_add t) (ss_idle_wait t).

Inductive ss_next : ss_state -> ss_state -> Prop :=
| ss_client_dials t i : (i < K)%nat -> Running t -> ss_conn_at t i = KNone -> ss_open t = true ->
    ss_next t (put t i KBacklog (ss_served t i) (ss_wg t))
| ss_loop_accepts t i : (i < K)%nat -> Running t -> ss_loop_at t = LoopAccepting -> ss_open t = true ->
    ss_conn_at t i = KBacklog ->
    ss_next t (mk_ss (ss_ctx t) (ss_open t) LoopSpawning (Some i) (ss_phase_at t)
      (except (ss_conn_at t) i KAccepted) (ss_served t) (ss_wg t) (ss_wait t) (ss_late_add t) (ss_idle_wait t))
| ss_loop_spawns t i : Running t -> ss_loop_at t = LoopSpawning -> ss_cur t = Some i ->
    ss_next t (mk_ss (ss_ctx t) (ss_open t) LoopAccepting None (ss_phase_at t)
      (except (ss_conn_at t) i KWaiting) (ss_served t) (S (ss_wg t)) (ss_wait t)
      (ss_late_add t || ss_wait t) (ss_idle_wait t))
| ss_loop_stops t : Running t -> ss_loop_at t = LoopAccepting -> ss_open t = false ->
    ss_next t (mk_ss (ss_ctx t) (ss_open t) LoopStopped (ss_cur t) (ss_phase_at t) (ss_conn_at t) (ss_served t)
      (ss_wg t) (ss_wait t) (ss_late_add t) (ss_idle_wait t))
| ss_signal t : ss_phase_at t = PhServing ->
    ss_next t (mk_ss true (ss_open t) (ss_loop_at t) (ss_cur t) PhClosing (ss_conn_at t) (ss_served t) (ss_wg t)
      (ss_wait t) (ss_late_add t) (ss_idle_wait t))
| ss_close_listener t : ss_phase_at t = PhClosing ->
    ss_next t (mk_ss (ss_ctx t) false (ss_loop_at t) (ss_cur t)
      (if WaitAcceptDone then PhAwaitingLoop else PhDraining)
      (fun i => match ss_conn_at t i with KBacklog => KClosed | x => x end) (ss_served t) (ss_wg t)
      (if WaitAcceptDone then ss_wait t else true) (ss_late_add t) (ss_idle_wait t))
| ss_start_drain t : ss_phase_at t = PhAwaitingLoop -> ss_loop_at t = LoopStopped ->
    ss_next t (with_phase t PhDraining true)
| ss_client_sends t i : (i < K)%nat -> Running t -> ss_conn_at t i = KWaiting -> (ss_served t i < R)%nat ->
    ss_next t (put t i KBusy (S (ss_served t i)) (ss_wg t))
| ss_request_done_keep t i : (i < K)%nat -> Running t -> ss_conn_at t i = KBusy ->
    ~ (DrainCloses = true /\ ss_ctx t = true) ->
    ss_next t (put t i KWaiting (ss_served t i) (ss_wg t))
| ss_request_done_end t i : (i < K)%nat -> Running t -> ss_conn_at t i = KBusy ->
    ss_next t (put t i KClosed (ss_served t i) (pred (ss_wg t)))
| ss_client_closes t i : (i < K)%nat -> Running t -> ss_conn_at t i = KWaiting ->
    ss_next t (put t i KClosed (ss_served t i) (pred (ss_wg t)))
| ss_read_timeout t i u : (i < K)%nat -> Running t -> ss_conn_at t i = KWaiting -> ~ UrgentPending t ->
    timed t (put t i KClosed (ss_served t i) (pred (ss_wg t))) u -> ss_next t u
| ss_close_idle t i : (i < K)%nat -> Running t -> DrainCloses = true -> ss_ctx t = true -> Idle t i ->
    ss_next t (put t i KClosed (ss_served t i) (pred (ss_wg t)))
| ss_drained t : ss_phase_at t = PhDraining -> ss_wg t = 0%nat ->
    ss_next t (with_phase t PhDrained (ss_wait t))
| ss_drain_times_out t u : ss_phase_at t = PhDraining -> (0 < ss_wg t)%nat -> ~ UrgentPending t ->
    timed t (with_phase t PhForced (ss_wait t)) u -> ss_next t u
| ss_done t : ~ Running t -> ss_next t t.

(** ** The promises *)

Definition NoAddAfterWait (t : ss_state) : Prop := ss_late_add t = false.
Definition DrainSkipsIdle (t : ss_state) : Prop := ss_idle_wait t = false.

Record ss_inv (t : ss_state) : Prop := {
  ss_inv_wait : ss_wait t = true -> ss_loop_at t = LoopStopped;
  ss_inv_ctx : ss_phase_at t <> PhServing -> ss_ctx t = true;
  ss_inv_late : ss_late_add t = false;
  ss_inv_idle : ss_idle_wait t = false
}.

Context (waits : WaitAcceptDone = true) (closes : DrainCloses = true).

(** A step that needs time finds no idle connection during the drain. *)
Lemma timed_unmarked t t' u :
  ss_inv t -> ~ UrgentPending t -> timed t t' u -> ss_idle_wait t' = ss_idle_wait t ->
  u = t'.
Proof using closes.
  intros Hi Hu (w & Hw & ->) He. destruct t'; cbn in *. f_equal. rewrite He, (ss_inv_idle _ Hi).
  destruct w; [|done]. exfalso. destruct Hw as [Hw _]. destruct (Hw eq_refl) as [E|(Hp & _ & Hid)].
  - by rewrite (ss_inv_idle _ Hi) in E.
  - apply Hu. split_and!; [done| |done]. apply (ss_inv_ctx _ Hi). by rewrite Hp.
Qed.

Lemma ss_inv_next t t' : ss_inv t -> ss_next t t' -> ss_inv t'.
Proof using waits closes.
  intros Hi Hs. pose proof Hi as [H1 H2 H3 H4]. destruct Hs;
    try done;
    try match goal with H : timed _ _ _ |- _ => apply timed_unmarked in H; [subst|done..] end;
    constructor; cbn; rewrite ?waits; auto; try congruence; try (intros; apply H2; congruence).
  - intros Hw. specialize (H1 Hw). congruence.
  - intros Hw. specialize (H1 Hw). congruence.
  - rewrite H3. destruct (ss_wait t); [|done]. by rewrite H1 in H0.
Qed.

Lemma ss_inv_reachable t : rtc ss_next ss_init t -> ss_inv t.
Proof using waits closes.
  intros Hs. assert (Hi : ss_inv ss_init) by (by constructor). revert Hi.
  induction Hs; intros Hi; [done|]. by apply IHHs, (ss_inv_next x).
Qed.
End Spec.
