(* ===== verification/Process.v ===== *)
(** * The serving process: [Serve] with its sessions

    [Serve] of [server.go] and any number of sessions of [handleClientCtx], each
    with its shutdown watcher, over one context: the relations of [Server] side
    by side.  A read deadline and the drain timeout can pass at any moment, as
    when they are set to zero; [timely_step] are the steps of a process in which
    they pass only when no goroutine can go on without waiting, which is how the
    repository's specification treats time.  A client whose address is denied
    gets its answer and is drained without a watcher.  [Accept] may return a
    queued connection at any moment: a limit on open connections, which [main]
    may put in front of it, can only delay it.  [ProcessRefine] has the
    theorems. *)

From S2P Require Import Prelude Server ServeSpec.
Import Server.Backoff.

(** What the last [http.ReadRequest] of a session returned: a request, an error
    after which the session just ends, or an error of the first read other than
    a closed connection, which is answered with a 400. *)
Inductive read_out := NoRead | GotRequest | ReadFailed | ReadRefused.

(** A connection: in the accept queue, reset with the queue, returned by
    [Accept], handled by a session (requests read so far, a refused first one
    included, last read, state of the session and its watcher), answered with a refusal and drained, or done
    with ([wg.Done] has run, after that many exchanges).  [denied]: the client's
    address is not in the allow-list. *)
Inductive conn_state :=
| Queued (denied : bool)
| Refused
| Held (denied : bool)
| Live (served : nat) (out : read_out) (s : Shutdown.rw_state)
| Denied
| Gone (served : nat).

(** The accept goroutine, with the connection it holds. *)
Inductive loop_pc := LAccepting | LSpawning (i : nat) | LWaiting (delay : Z) | LDone.

Record proc := mk_proc {
  p_ctx : bool;
  p_listening : bool;
  p_loop : loop_pc;
  p_backoff : Z;
  p_main : Serve.main_pc;
  p_conns : list conn_state
}.

Definition p_start : proc := mk_proc false true LAccepting reset Serve.WaitCtx [].

Definition set_conn (p : proc) (i : nat) (c : conn_state) : proc :=
  mk_proc (p_ctx p) (p_listening p) (p_loop p) (p_backoff p) (p_main p) (<[i := c]> (p_conns p)).
Definition set_loop (p : proc) (l : loop_pc) (b : Z) : proc :=
  mk_proc (p_ctx p) (p_listening p) l b (p_main p) (p_conns p).
Definition set_phase (p : proc) (m : Serve.main_pc) : proc :=
  mk_proc (p_ctx p) (p_listening p) (p_loop p) (p_backoff p) m (p_conns p).

Definition cancel_conn (c : conn_state) : conn_state :=
  match c with
  | Live n o s => Live n o (Shutdown.mk_rw_state true (Shutdown.held s) (Shutdown.idle s) (Shutdown.shut s)
                              (Shutdown.session s) (Shutdown.watcher s))
  | _ => c
  end.

Definition reset_conn (c : conn_state) : conn_state := match c with Queued _ => Refused | _ => c end.

Definition is_live (c : conn_state) : bool := match c with Live _ _ _ | Denied => true | _ => false end.

(** ** A connection on its own *)

(** The session goes on without waiting for a peer: everywhere but in a read,
    and while it serves a request or answers a first read that failed. *)
Definition unblocked (o : read_out) (a b : Shutdown.session_pc) : bool :=
  match a, o with
  | Shutdown.Reading, _ => false
  | Shutdown.Busy, ReadFailed => match b with Shutdown.Ended => true | _ => false end
  | Shutdown.Busy, _ => false
  | _, _ => true
  end.

(** A new read starts with the check of the context. *)
Definition next_out (o : read_out) (b : Shutdown.session_pc) : read_out :=
  match b with Shutdown.Checked => NoRead | _ => o end.

(** Steps that wait for nothing: of the session, of its watcher, a read of a
    connection the watcher has closed, the end of the goroutine. *)
Inductive free_step : conn_state -> conn_state -> Prop :=
| f_session n o s s' : Shutdown.session_step s s' ->
    unblocked o (Shutdown.session s) (Shutdown.session s') = true ->
    free_step (Live n o s) (Live n (next_out o (Shutdown.session s')) s')
| f_watcher n o s s' : Shutdown.watcher_step s s' -> free_step (Live n o s) (Live n o s')
| f_read_shut n o s s' : Shutdown.session s = Shutdown.Reading -> Shutdown.shut s = true ->
    Shutdown.session_step s s' -> free_step (Live n o s) (Live n ReadFailed s')
| f_done n o s : Shutdown.session s = Shutdown.Ended -> free_step (Live n o s) (Gone n).

(** Steps that wait for a peer: a request arrives, the client closes the
    connection (or sends a later request that cannot be read), its first request
    cannot be read, a request has been served, a refused one has been answered,
    or a denied client has been drained (it has closed the connection, or a
    second has passed). *)
Inductive peer_step : conn_state -> conn_state -> Prop :=
| p_request n o s s' : Shutdown.session s = Shutdown.Reading -> Shutdown.session_step s s' ->
    peer_step (Live n o s) (Live (S n) GotRequest s')
| p_closed n o s s' : Shutdown.session s = Shutdown.Reading -> Shutdown.session_step s s' ->
    peer_step (Live n o s) (Live n ReadFailed s')
| p_malformed o s s' : Shutdown.session s = Shutdown.Reading -> Shutdown.session_step s s' ->
    peer_step (Live 0 o s) (Live 1 ReadRefused s')
| p_served n s s' : Shutdown.session s = Shutdown.Busy -> Shutdown.session_step s s' ->
    peer_step (Live n GotRequest s) (Live n GotRequest s')
| p_answered n s s' : Shutdown.session s = Shutdown.Busy -> Shutdown.session s' = Shutdown.Ended ->
    Shutdown.session_step s s' -> peer_step (Live n ReadRefused s) (Live n ReadRefused s')
| p_drained : peer_step Denied (Gone 1).

(** The read deadline passes: of the first read, whose error is answered, or of
    a later one. *)
Inductive deadline_step : conn_state -> conn_state -> Prop :=
| d_first o s s' : Shutdown.session s = Shutdown.Reading -> Shutdown.session_step s s' ->
    deadline_step (Live 0 o s) (Live 1 ReadRefused s')
| d_later n o s s' : Shutdown.session s = Shutdown.Reading -> Shutdown.session_step s s' ->
    deadline_step (Live (S n) o s) (Live (S n) ReadFailed s').

(** ** The process *)

(** A session starts: the check of the client's address comes before everything
    else. *)
Definition spawned (ctx denied : bool) : conn_state :=
  if denied then Denied else Live 0 NoRead (Shutdown.rw_start ctx).

Inductive free_proc : proc -> proc -> Prop :=
| fp_conn p i c c' : p_conns p !! i = Some c -> free_step c c' -> free_proc p (set_conn p i c')
| fp_spawn p i denied : p_loop p = LSpawning i -> p_conns p !! i = Some (Held denied) ->
    free_proc p (set_conn (set_loop p LAccepting reset) i (spawned (p_ctx p) denied))
| fp_stop_accept p : p_loop p = LAccepting -> p_ctx p = true -> p_listening p = false ->
    free_proc p (set_loop p LDone (p_backoff p))
| fp_stop_wait p d : p_loop p = LWaiting d -> p_ctx p = true -> free_proc p (set_loop p LDone (p_backoff p))
| fp_close p : p_main p = Serve.WaitCtx -> p_ctx p = true ->
    free_proc p (mk_proc (p_ctx p) false (p_loop p) (p_backoff p) Serve.WaitAccept (reset_conn <$> p_conns p))
| fp_accept_done p : p_main p = Serve.WaitAccept -> p_loop p = LDone -> free_proc p (set_phase p Serve.Draining)
| fp_drained p : p_main p = Serve.Draining -> forallb (fun c => negb (is_live c)) (p_conns p) = true ->
    free_proc p (set_phase p (Serve.Returned true)).

Definition waiting (p : proc) : Prop := forall p', ~ free_proc p p'.

(** Everything but the passing of time. *)
Inductive plain_step : proc -> proc -> Prop :=
| ps_free p p' : free_proc p p' -> plain_step p p'
| ps_dial p denied : p_listening p = true ->
    plain_step p (mk_proc (p_ctx p) (p_listening p) (p_loop p) (p_backoff p) (p_main p) (p_conns p ++ [Queued denied]))
| ps_cancel p : p_ctx p = false ->
    plain_step p (mk_proc true (p_listening p) (p_loop p) (p_backoff p) (p_main p) (cancel_conn <$> p_conns p))
| ps_accept p i denied : p_loop p = LAccepting -> p_listening p = true -> p_conns p !! i = Some (Queued denied) ->
    plain_step p (set_conn (set_loop p (LSpawning i) (p_backoff p)) i (Held denied))
| ps_accept_error p : p_loop p = LAccepting -> p_ctx p = false ->
    plain_step p (set_loop p (LWaiting (next (p_backoff p))) (next (p_backoff p)))
| ps_accept_error_stop p : p_loop p = LAccepting -> p_ctx p = true -> plain_step p (set_loop p LDone (p_backoff p))
| ps_timer p d : p_loop p = LWaiting d -> plain_step p (set_loop p LAccepting (p_backoff p))
| ps_peer p i c c' : p_conns p !! i = Some c -> peer_step c c' -> plain_step p (set_conn p i c').

(** A read deadline passes, or [time.After(drainTimeout)] in the drain. *)
Inductive timed_step : proc -> proc -> Prop :=
| ps_deadline p i c c' : p_conns p !! i = Some c -> deadline_step c c' -> timed_step p (set_conn p i c')
| ps_forced p : p_main p = Serve.Draining -> timed_step p (set_phase p (Serve.Returned false)).

Definition proc_step (p p' : proc) : Prop := plain_step p p' \/ timed_step p p'.

Definition p_running (p : proc) : Prop := forall d, p_main p <> Serve.Returned d.

(** A step of the process before [Serve] has returned. *)
Definition run_step (p p' : proc) : Prop := p_running p /\ proc_step p p'.

(** The same when time passes only while every goroutine waits. *)
Definition timely_step (p p' : proc) : Prop := p_running p /\ (plain_step p p' \/ waiting p /\ timed_step p p').

Lemma timely_run p p' : rtc timely_step p p' -> rtc run_step p p'.
Proof.
  intros Hr. induction Hr as [|x y z [H1 [H2|[_ H2]]] _ IH]; [apply rtc_refl|..]; (eapply rtc_l; [|exact IH]);
    (split; [done|]); [by left|by right].
Qed.

(** ** One connection: invariant, progress and what the specification sees *)

Record live_inv (ctx : bool) (n : nat) (o : read_out) (s : Shutdown.rw_state) : Prop := {
  li_rw : Shutdown.rw_inv s;
  li_ctx : Shutdown.cancelled s = ctx;
  li_out : match Shutdown.session s with
           | Shutdown.Top | Shutdown.Locked => o = GotRequest \/ o = NoRead /\ n = 0%nat
           | Shutdown.Checked | Shutdown.Reading => o = NoRead
           | Shutdown.Ended => True
           | _ => o <> NoRead
           end;
  li_served : o = GotRequest \/ o = ReadRefused -> (0 < n)%nat
}.

Definition conn_inv (ctx : bool) (c : conn_state) : Prop :=
  match c with Live n o s => live_inv ctx n o s | _ => True end.

Lemma session_keeps s s' : Shutdown.session_step s s' -> Shutdown.cancelled s' = Shutdown.cancelled s.
Proof. by destruct 1. Qed.

Lemma watcher_keeps s s' :
  Shutdown.watcher_step s s' ->
  Shutdown.cancelled s' = Shutdown.cancelled s /\ Shutdown.session s' = Shutdown.session s.
Proof. by destruct 1. Qed.

(** The successors of a session, by where it is. *)
Lemma session_moves s s' :
  Shutdown.session_step s s' ->
  match Shutdown.session s, Shutdown.session s' with
  | Shutdown.Top, Shutdown.Locked | Shutdown.Checked, Shutdown.Reading | Shutdown.Reading, Shutdown.Got
  | Shutdown.Got, Shutdown.Locked2 | Shutdown.Locked2, Shutdown.After
  | Shutdown.Busy, Shutdown.Top | Shutdown.Busy, Shutdown.Ended => True
  | Shutdown.Locked, Shutdown.Ended | Shutdown.After, Shutdown.Ended => Shutdown.cancelled s = true
  | Shutdown.Locked, Shutdown.Checked | Shutdown.After, Shutdown.Busy => Shutdown.cancelled s = false
  | _, _ => False
  end.
Proof. destruct 1; rewrite ?H; cbn; by rewrite ?H0. Qed.

Ltac by_moves H :=
  let Hm := fresh in pose proof (session_moves _ _ H) as Hm;
  repeat (case_match; try done); simplify_eq; try done.

Lemma free_inv ctx c c' : conn_inv ctx c -> free_step c c' -> conn_inv ctx c'.
Proof.
  intros Hi Hs. destruct Hs as [n o s s' Hs Hu|n o s s' Hs|n o s s' Hr Hsh Hs|n o s He]; cbn in *; [..|done];
    destruct Hi as [H1 H2 H3 H4].
  - constructor; [by eapply Shutdown.inv_session|by rewrite (session_keeps _ _ Hs)| |].
    + unfold next_out, unblocked in *. by_moves Hs.
    + unfold next_out. destruct (Shutdown.session s'); first [exact H4|by intros []].
  - destruct (watcher_keeps _ _ Hs) as [Hc Hp].
    constructor; [by eapply Shutdown.inv_watcher|by rewrite Hc|by rewrite Hp|done].
  - constructor; [by eapply Shutdown.inv_session|by rewrite (session_keeps _ _ Hs)| |by intros []].
    by_moves Hs.
Qed.

Lemma peer_inv ctx c c' : conn_inv ctx c -> peer_step c c' -> conn_inv ctx c'.
Proof.
  intros Hi Hs. destruct Hs as [n o s s' Hr Hs|n o s s' Hr Hs|o s s' Hr Hs|n s s' Hr Hs|n s s' Hr He Hs|]; cbn in *; [..|done];
    destruct Hi as [H1 H2 H3 H4];
    (constructor; [by eapply Shutdown.inv_session|by rewrite (session_keeps _ _ Hs)| |try lia; try done; by intros []]);
    by_moves Hs. by left.
Qed.

Lemma deadline_inv ctx c c' : conn_inv ctx c -> deadline_step c c' -> conn_inv ctx c'.
Proof.
  intros Hi Hs. destruct Hs as [o s s' Hr Hs|n o s s' Hr Hs].
  - eapply (peer_inv _ (Live 0 o s)); [exact Hi|by apply p_malformed].
  - eapply (peer_inv _ (Live (S n) o s)); [exact Hi|by apply p_closed].
Qed.

Lemma cancel_inv c : conn_inv false c -> conn_inv true (cancel_conn c).
Proof.
  destruct c as [|?| |n o s| |]; cbn; try done. intros [H1 H2 H3 H4]. constructor; cbn; try done.
  by apply Shutdown.inv_context.
Qed.

(** After cancellation a session goes on by itself unless it is serving a
    request or answering a failed read. *)
Lemma conn_progress n o s :
  live_inv true n o s ->
  Shutdown.session s = Shutdown.Busy /\ (o = GotRequest \/ o = ReadRefused) \/ exists c', free_step (Live n o s) c'.
Proof.
  intros [[Hm Hex Hid Hsh Haw Hfin] Hc Ho Hn]. destruct s as [c m i sh p w]. cbn in *. subst c.
  assert (Hw : m = true -> w = Shutdown.Holding -> exists c', free_step (Live n o (Shutdown.mk_rw_state true m i sh p w)) c').
  { intros -> ->. eexists. by apply f_watcher, Shutdown.w_close. }
  assert (Hf : forall s', Shutdown.session_step (Shutdown.mk_rw_state true m i sh p w) s' ->
    unblocked o p (Shutdown.session s') = true -> exists c', free_step (Live n o (Shutdown.mk_rw_state true m i sh p w)) c').
  { intros s' Hs Hu. eexists. by apply (f_session n o _ s' Hs). }
  destruct p; cbn in *.
  - right. destruct w; cbn in *; subst m; try (by apply Hw); by eapply Hf; [apply Shutdown.s_lock|].
  - right. by eapply Hf; [apply Shutdown.s_done|].
  - right. by eapply Hf; [apply Shutdown.s_idle|].
  - right. destruct sh; [eexists; by eapply f_read_shut; [..|apply Shutdown.s_read]|].
    destruct w; cbn in *; subst m; eexists; [apply f_watcher, Shutdown.w_wake|apply f_watcher, Shutdown.w_lock
      |apply f_watcher, Shutdown.w_close|]; try done. by destruct (Hfin eq_refl) as [?|[_ ?]].
  - right. destruct w; cbn in *; subst m; try (by apply Hw); by eapply Hf; [apply Shutdown.s_lock2|].
  - right. by eapply Hf; [apply Shutdown.s_busy|].
  - right. by eapply Hf; [apply Shutdown.s_done2|].
  - destruct o; [done|by left; auto|right|by left; auto]. by eapply Hf; [apply Shutdown.s_end|].
  - right. eexists. by apply f_done.
  Unshelve. all: exact (Gone 0).
Qed.

(** What the specification calls the state of a connection. *)
Definition live_status (n : nat) (o : read_out) (p : Shutdown.session_pc) : ss_conn :=
  match p, o with
  | Shutdown.Ended, _ | _, ReadFailed => KClosed
  | (Shutdown.Top | Shutdown.Locked), _ => match n with O => KWaiting | S _ => KBusy end
  | (Shutdown.Checked | Shutdown.Reading), _ => KWaiting
  | _, _ => KBusy
  end.

Definition status (c : conn_state) : ss_conn :=
  match c with
  | Queued _ => KBacklog
  | Held _ => KAccepted
  | Denied => KBusy
  | Live n o s => live_status n o (Shutdown.session s)
  | Refused | Gone _ => KClosed
  end.

Definition served_of (c : conn_state) : nat := match c with Live n _ _ | Gone n => n | Denied => 1%nat | _ => 0%nat end.

(** The effect of a step on what the specification sees. *)
Inductive effect (ctx : bool) (n : nat) : ss_conn -> nat -> ss_conn -> Prop :=
| e_same x : effect ctx n x n x
| e_request : effect ctx n KWaiting (S n) KBusy
| e_keep : ctx = false -> effect ctx n KBusy n KWaiting
| e_end : effect ctx n KBusy n KClosed
| e_closed : effect ctx n KWaiting n KClosed.

Definition has_effect (ctx : bool) (c c' : conn_state) : Prop :=
  effect ctx (served_of c) (status c) (served_of c') (status c').

#[local] Hint Constructors effect : core.

Lemma free_effect ctx c c' : conn_inv ctx c -> free_step c c' -> has_effect ctx c c'.
Proof.
  intros Hi Hs. unfold has_effect.
  destruct Hs as [n o s s' Hs Hu|n o s s' Hs|n o s s' Hr Hsh Hs|n o s He]; cbn in *.
  - destruct Hi as [_ H2 H3 H4]. pose proof (session_moves _ _ Hs) as Hm. unfold unblocked, next_out in *.
    destruct (Shutdown.session s), (Shutdown.session s'); try done; destruct o, n; cbn in *;
      rewrite ?H2 in Hm; auto; try (by destruct H3 as [?|[? ?]]); try done; specialize (H4 eq_refl); lia.
  - destruct (watcher_keeps _ _ Hs) as [_ ->]. auto.
  - destruct Hi as [_ _ H3 _]. rewrite Hr in H3. subst o. rewrite Hr. pose proof (session_moves _ _ Hs) as Hm.
    rewrite Hr in Hm. destruct (Shutdown.session s'); try done; cbn; auto.
  - rewrite He. cbn. auto.
Qed.

Lemma peer_effect ctx c c' : conn_inv ctx c -> peer_step c c' -> has_effect ctx c c'.
Proof.
  intros Hi Hs. unfold has_effect. destruct Hs as [n o s s' Hr Hs|n o s s' Hr Hs|o s s' Hr Hs|n s s' Hr Hs|n s s' Hr He Hs|]; cbn in *; [..|auto];
    destruct Hi as [_ _ H3 H4]; rewrite Hr in *; pose proof (session_moves _ _ Hs) as Hm; rewrite Hr in Hm;
    destruct (Shutdown.session s'); try done; subst; cbn; auto; destruct n; auto; specialize (H4 (or_introl eq_refl)); lia.
Qed.

Lemma deadline_effect ctx c c' :
  conn_inv ctx c -> deadline_step c c' ->
  has_effect ctx c c' \/ status c = KWaiting /\ status c' = KClosed /\ served_of c' = served_of c.
Proof.
  intros Hi Hs. destruct Hs as [o s s' Hr Hs|n o s s' Hr Hs].
  - left. by eapply peer_effect, p_malformed.
  - right. cbn in *. destruct Hi as [_ _ H3 _]. rewrite Hr in *. subst o.
    pose proof (session_moves _ _ Hs) as Hm. rewrite Hr in Hm. destruct (Shutdown.session s'); done.
Qed.

(** ** Invariant of the process *)

Record proc_inv (p : proc) : Prop := {
  pi_conns : forall i c, p_conns p !! i = Some c -> conn_inv (p_ctx p) c;
  pi_held : forall i, p_loop p = LSpawning i -> exists denied, p_conns p !! i = Some (Held denied);
  pi_main : p_main p <> Serve.WaitCtx -> p_ctx p = true /\ p_listening p = false;
  pi_done : Serve.past_accept (p_main p) -> p_loop p = LDone;
  pi_stop : p_loop p = LDone -> p_ctx p = true
}.

Lemma pi_start : proc_inv p_start.
Proof. by constructor; cbn. Qed.

Lemma insert_inv (P : conn_state -> Prop) (l : list conn_state) i c :
  (forall j d, l !! j = Some d -> P d) -> P c -> forall j d, <[i := c]> l !! j = Some d -> P d.
Proof. intros Hl Hc j d Hj. apply list_lookup_insert_Some in Hj as [(_ & <- & _)|(_ & Hj)]; eauto. Qed.

(** A connection moves: what the loop holds stays. *)
Lemma conn_step_inv p i c c' :
  proc_inv p -> p_conns p !! i = Some c -> (forall d, c <> Held d) -> conn_inv (p_ctx p) c' ->
  proc_inv (set_conn p i c').
Proof.
  intros [H1 H2 H3 H4 H5] Hc Hne Hc'. constructor; cbn; try done; [by eapply insert_inv|].
  intros j Hj. destruct (H2 j Hj) as [d Hd]. exists d. rewrite list_lookup_insert_ne; [done|].
  intros ->. apply (Hne d). congruence.
Qed.

Lemma free_not_held c c' : free_step c c' -> forall d, c <> Held d.
Proof. by destruct 1. Qed.

Lemma peer_not_held c c' : peer_step c c' -> forall d, c <> Held d.
Proof. by destruct 1. Qed.

Lemma free_proc_inv p p' : proc_inv p -> free_proc p p' -> proc_inv p'.
Proof.
  intros Hi Hs. pose proof Hi as [H1 H2 H3 H4 H5]. destruct Hs as [p i c c' Hc Hs|p i d Hl Hh|p Hl Hc Hn|p d Hl Hc|p Hm Hc|p Hm Hl|p Hm Hn].
  - eapply conn_step_inv; eauto using free_inv, free_not_held.
  - constructor; cbn; try done.
    + apply insert_inv; [done|]. destruct d; [done|]. constructor; cbn; try done; [apply Shutdown.rw_inv_start|by right|by intros []].
    + intros Hp. specialize (H4 Hp). congruence.
  - constructor; cbn; auto; done.
  - constructor; cbn; auto; done.
  - constructor; cbn; auto; try done.
    + intros i c Hi'. rewrite list_lookup_fmap in Hi'. destruct (p_conns p !! i) as [d|] eqn:Ed; [|done].
      injection Hi' as <-. specialize (H1 i d Ed). by destruct d.
    + intros i Hl. destruct (H2 i Hl) as [d Hd]. exists d. by rewrite list_lookup_fmap, Hd.
  - constructor; cbn; auto. intros _. apply H3. congruence.
  - constructor; cbn; auto; [intros _; apply H3; congruence|]. intros _. apply H4. by rewrite Hm.
Qed.

Lemma plain_inv p p' : proc_inv p -> plain_step p p' -> proc_inv p'.
Proof.
  intros Hi Hs. pose proof Hi as [H1 H2 H3 H4 H5].
  destruct Hs as [p p' Hs|p d Hl|p Hc|p i d Hl Hn Hq|p Hl Hc|p Hl Hc|p d Hl|p i c c' Hc Hs].
  - by eapply free_proc_inv.
  - constructor; cbn; auto.
    + intros i c Hi'. apply lookup_app_Some in Hi' as [Hi'|[_ Hi']]; [eauto|].
      apply list_lookup_singleton_Some in Hi' as [_ <-]. done.
    + intros i Hi'. destruct (H2 i Hi') as [d' Hd]. exists d'. by apply lookup_app_l_Some.
  - constructor; cbn; auto.
    + intros i c Hi'. rewrite list_lookup_fmap in Hi'. destruct (p_conns p !! i) as [d|] eqn:Ed; [|done].
      injection Hi' as <-. apply cancel_inv. rewrite <- Hc. eauto.
    + intros i Hl. destruct (H2 i Hl) as [d Hd]. exists d. by rewrite list_lookup_fmap, Hd.
    + intros Hm. by destruct (H3 Hm).
  - constructor; cbn; auto.
    + by apply insert_inv.
    + intros j [= <-]. exists d. apply list_lookup_insert_eq. by eapply lookup_lt_Some.
    + intros Hp. specialize (H4 Hp). congruence.
    + done.
  - constructor; cbn; auto; try done. intros Hp. specialize (H4 Hp). congruence.
  - constructor; cbn; auto; done.
  - constructor; cbn; auto; try done. intros Hp. specialize (H4 Hp). congruence.
  - eapply conn_step_inv; eauto using peer_inv, peer_not_held.
Qed.

Lemma timed_inv p p' : proc_inv p -> timed_step p p' -> proc_inv p'.
Proof.
  intros Hi Hs. pose proof Hi as [H1 H2 H3 H4 H5]. destruct Hs as [p i c c' Hc Hs|p Hm].
  - eapply conn_step_inv; [done|done| |by eapply deadline_inv; eauto]. by destruct Hs.
  - constructor; cbn; auto; [intros _; apply H3; congruence|]. intros _. apply H4. by rewrite Hm.
Qed.

Lemma run_inv p p' : proc_inv p -> rtc run_step p p' -> proc_inv p'.
Proof.
  intros Hi Hr. induction Hr as [|x y z [_ [Hxy|Hxy]] _ IH]; [done|..]; apply IH; [by eapply plain_inv|by eapply timed_inv].
Qed.
