(* ===== verification/ProcessRefine.v ===== *)
(** * The serving process refines the shutdown specification

    The process of [Process] against [ServeSpec]: the simulation, step by step,
    and what it means for a shutdown: [Serve] returns by itself unless a request
    is being served. *)

From S2P Require Import Prelude Server ServeSpec Process.
Import Server.Backoff.

(** ** The simulation *)

Definition counted (c : conn_state) : nat := match status c with KWaiting | KBusy => 1%nat | _ => 0%nat end.
#[local] Arguments counted : simpl never.
Definition wg_of (l : list conn_state) : nat := sum_list_with counted l.

Definition spec_loop (p : proc) : ss_loop :=
  match p_loop p with
  | LSpawning _ => LoopSpawning
  | LDone => if p_listening p then LoopAccepting else LoopStopped
  | _ => LoopAccepting
  end.

Definition spec_phase (p : proc) : ss_phase :=
  match p_main p with
  | Serve.WaitCtx => if p_ctx p then PhClosing else PhServing
  | Serve.WaitAccept => PhAwaitingLoop
  | Serve.Draining => PhDraining
  | Serve.Returned true => PhDrained
  | Serve.Returned false => PhForced
  end.

Definition spec_wait (m : Serve.main_pc) : bool :=
  match m with Serve.Draining | Serve.Returned _ => true | _ => false end.

Record sim (p : proc) (t : ss_state) : Prop := {
  sim_ctx : ss_ctx t = p_ctx p;
  sim_open : ss_open t = p_listening p;
  sim_loop : ss_loop_at t = spec_loop p;
  sim_cur : ss_cur t = match p_loop p with LSpawning i => Some i | _ => None end;
  sim_phase : ss_phase_at t = spec_phase p;
  sim_conn : forall i, ss_conn_at t i = default KNone (status <$> p_conns p !! i);
  sim_served : forall i, ss_served t i = default 0%nat (served_of <$> p_conns p !! i);
  sim_wg : ss_wg t = wg_of (p_conns p);
  sim_wait : ss_wait t = spec_wait (p_main p)
}.

Lemma wg_insert l i c c' :
  l !! i = Some c -> (wg_of (<[i := c']> l) + counted c = wg_of l + counted c')%nat.
Proof. apply sum_insert. Qed.

Lemma wg_ge l i c : l !! i = Some c -> (counted c <= wg_of l)%nat.
Proof. apply sum_lookup. Qed.

Lemma counted_eq c : counted c = match status c with KWaiting | KBusy => 1%nat | _ => 0%nat end.
Proof. done. Qed.

(** One connection changes, and the specification's entry with it. *)
Lemma sim_put p t i c c' x n wg :
  sim p t -> p_conns p !! i = Some c -> x = status c' -> n = served_of c' ->
  (wg + counted c = wg_of (p_conns p) + counted c')%nat -> sim (set_conn p i c') (put t i x n wg).
Proof.
  intros [] Hc -> -> Hw. constructor; cbn; try done.
  - intros j. destruct (decide (j = i)) as [->|Hne].
    + rewrite except_eq, list_lookup_insert_eq by (by eapply lookup_lt_Some). done.
    + rewrite except_ne, list_lookup_insert_ne by done. done.
  - intros j. destruct (decide (j = i)) as [->|Hne].
    + rewrite except_eq, list_lookup_insert_eq by (by eapply lookup_lt_Some). done.
    + rewrite except_ne, list_lookup_insert_ne by done. done.
  - change (wg = wg_of (<[i := c']> (p_conns p))). pose proof (wg_insert (p_conns p) i c c' Hc). lia.
Qed.

Lemma sim_stutter p t i c c' :
  sim p t -> p_conns p !! i = Some c -> status c' = status c -> served_of c' = served_of c -> sim (set_conn p i c') t.
Proof.
  intros Hs Hc E1 E2. destruct (sim_put p t i c c' (ss_conn_at t i) (ss_served t i) (ss_wg t)) as [F1 F2 F3 F4 F5 F6 F7 F8 F9];
    [done|done|rewrite (sim_conn _ _ Hs), Hc; done|rewrite (sim_served _ _ Hs), Hc; done
    |rewrite (sim_wg _ _ Hs), !counted_eq, E1; done|].
  constructor; try done; intros j; [rewrite <- F6|rewrite <- F7]; cbn;
    (destruct (decide (j = i)) as [->|Hne]; [by rewrite except_eq|by rewrite except_ne]).
Qed.

Lemma sim_at p t i c : sim p t -> p_conns p !! i = Some c -> ss_conn_at t i = status c /\ ss_served t i = served_of c.
Proof. intros Hs Hc. by rewrite (sim_conn _ _ Hs), (sim_served _ _ Hs), Hc. Qed.

Lemma sim_running p t : sim p t -> p_running p -> Running t.
Proof.
  intros Hs Hr. unfold Running. rewrite (sim_phase _ _ Hs). unfold spec_phase.
  destruct (p_main p) as [| | |d] eqn:E; [by case_match|done|done|]. by destruct (Hr d).
Qed.

Section Steps.
Context (K R : nat).
#[local] Notation steps := (rtc (ss_next K R true true)).

Lemma effect_steps p t i c c' :
  sim p t -> p_running p -> p_conns p !! i = Some c -> (i < K)%nat -> (served_of c < R)%nat ->
  has_effect (p_ctx p) c c' -> exists t', steps t t' /\ sim (set_conn p i c') t'.
Proof.
  intros Hs Hr Hc HK HR He. pose proof (sim_running _ _ Hs Hr) as Hrun. destruct (sim_at _ _ _ _ Hs Hc) as [Hx Hn].
  pose proof (sim_wg _ _ Hs) as Hw. pose proof (wg_ge _ _ _ Hc) as Hpos.
  assert (Hput : forall x n wg, x = status c' -> n = served_of c' -> (wg + counted c = wg_of (p_conns p) + counted c')%nat ->
    sim (set_conn p i c') (put t i x n wg)) by (intros; by eapply sim_put).
  assert (Hst : status c' = status c -> served_of c' = served_of c -> sim (set_conn p i c') t) by (by eapply sim_stutter).
  rewrite !counted_eq in *. unfold has_effect in He. revert Hput Hst.
  destruct He as [x| |Hctx| |]; intros Hput Hst.
  - exists t. split; [apply rtc_refl|]. by apply Hst.
  - eexists. split; [apply rtc_once, (ss_client_sends K R _ _ t i HK Hrun Hx); by rewrite Hn|].
    apply Hput; [done|by rewrite Hn|rewrite Hw; lia].
  - eexists. split; [apply rtc_once, (ss_request_done_keep K R _ _ t i HK Hrun Hx)|].
    + intros [_ E]. rewrite (sim_ctx _ _ Hs) in E. congruence.
    + apply Hput; [done|by rewrite Hn|rewrite Hw; lia].
  - eexists. split; [apply rtc_once, (ss_request_done_end K R _ _ t i HK Hrun Hx)|].
    apply Hput; [done|by rewrite Hn|rewrite Hw; lia].
  - eexists. split; [apply rtc_once, (ss_client_closes K R _ _ t i HK Hrun Hx)|].
    apply Hput; [done|by rewrite Hn|rewrite Hw; lia].
Qed.

(** The accept loop between its errors, or after its return with the listener
    still open, is still accepting for the specification. *)
Lemma sim_loop_stutter p t l b :
  sim p t -> p_loop p = LAccepting \/ (exists d, p_loop p = LWaiting d) ->
  l = LAccepting \/ (exists d, l = LWaiting d) \/ l = LDone /\ p_listening p = true -> sim (set_loop p l b) t.
Proof.
  intros [H1 H2 H3 H4 H5 H6 H7 H8 H9] Hp Hl. constructor; try done; cbn.
  - rewrite H3. unfold spec_loop. cbn. destruct Hp as [->|[d ->]], Hl as [->|[[d' ->]|[-> ->]]]; done.
  - rewrite H4. destruct Hp as [->|[d ->]], Hl as [->|[[d' ->]|[-> _]]]; done.
Qed.

Lemma sim_loop_stops p t b :
  sim p t -> p_running p -> p_loop p = LAccepting \/ (exists d, p_loop p = LWaiting d) ->
  exists t', steps t t' /\ sim (set_loop p LDone b) t'.
Proof.
  intros Hs Hr Hp. pose proof Hs as [H1 H2 H3 H4 H5 H6 H7 H8 H9]. destruct (p_listening p) eqn:El.
  - exists t. split; [apply rtc_refl|]. apply sim_loop_stutter; auto.
  - eexists. split.
    { apply rtc_once, ss_loop_stops; [by eapply sim_running| |by rewrite H2].
      rewrite H3. unfold spec_loop. by destruct Hp as [->|[d ->]]. }
    constructor; cbn; try done.
    + by rewrite H2, El.
    + unfold spec_loop. cbn. by rewrite El.
    + rewrite H4. by destruct Hp as [->|[d ->]].
Qed.

(** The connections change together, what the specification sees does not. *)
Lemma lookup_same {A} (g : conn_state -> A) (d : A) (f : conn_state -> conn_state) (l : list conn_state) (i : nat) :
  (forall c, g (f c) = g c) -> default d (g <$> (f <$> l) !! i) = default d (g <$> l !! i).
Proof. intros Hf. rewrite list_lookup_fmap. destruct (l !! i); cbn; [apply Hf|done]. Qed.

Lemma wg_map f (l : list conn_state) : (forall c, counted (f c) = counted c) -> wg_of (f <$> l) = wg_of l.
Proof. apply sum_map. Qed.

Lemma sim_spawn p t i denied :
  sim p t -> p_running p -> p_loop p = LSpawning i -> p_conns p !! i = Some (Held denied) -> (i < K)%nat -> (0 < R)%nat ->
  exists t', steps t t' /\ sim (set_conn (set_loop p LAccepting reset) i (spawned (p_ctx p) denied)) t'.
Proof.
  intros Hs Hr Hl Hc HK HR. pose proof Hs as [H1 H2 H3 H4 H5 H6 H7 H8 H9]. pose proof (sim_running _ _ Hs Hr) as Hrun.
  assert (Hsp : ss_next K R true true t (mk_ss (ss_ctx t) (ss_open t) LoopAccepting None (ss_phase_at t)
    (except (ss_conn_at t) i KWaiting) (ss_served t) (S (ss_wg t)) (ss_wait t) (ss_late_add t || ss_wait t) (ss_idle_wait t))).
  { apply ss_loop_spawns; [done| |by rewrite H4, Hl]. rewrite H3. unfold spec_loop. by rewrite Hl. }
  set (q := set_loop p LAccepting reset) in *.
  assert (Hput : forall c x n, x = status c -> n = served_of c -> counted c = 1%nat ->
    sim (set_conn q i c) (put (mk_ss (ss_ctx t) (ss_open t) LoopAccepting None (ss_phase_at t)
      (ss_conn_at t) (ss_served t) (ss_wg t) (ss_wait t) (ss_late_add t || ss_wait t) (ss_idle_wait t)) i x n (S (ss_wg t)))).
  { intros c x n -> -> Hn. eapply (sim_put q); [|done|done|done|].
    2: { change (p_conns q) with (p_conns p). rewrite H8, Hn, (counted_eq (Held _)). cbn [status]. lia. }
    constructor; cbn; done. }
  assert (Hserved : ss_served t i = 0%nat) by (by rewrite H7, Hc).
  destruct denied; cbn [spawned].
  - eexists. split.
    { eapply rtc_l; [exact Hsp|]. apply rtc_once, (ss_client_sends K R _ _ _ i HK); [exact Hrun|cbn; by rewrite except_eq|cbn; by rewrite Hserved]. }
    destruct (Hput Denied KBusy 1%nat) as [F1 F2 F3 F4 F5 F6 F7 F8 F9]; try done. constructor; try done; cbn.
    + intros j. rewrite <- F6. cbn. destruct (decide (j = i)) as [->|Hne]; [by rewrite !except_eq|by rewrite !except_ne].
    + intros j. rewrite <- F7. cbn. by rewrite Hserved.
  - eexists. split; [by apply rtc_once|].
    destruct (Hput (Live 0 NoRead (Shutdown.rw_start (p_ctx p))) KWaiting 0%nat) as [F1 F2 F3 F4 F5 F6 F7 F8 F9]; try done.
    constructor; try done. intros j. rewrite <- F7. cbn.
    destruct (decide (j = i)) as [->|Hne]; [by rewrite except_eq|by rewrite except_ne].
Qed.

Lemma sim_close p t :
  sim p t -> p_main p = Serve.WaitCtx -> p_ctx p = true ->
  exists t', steps t t' /\
    sim (mk_proc (p_ctx p) false (p_loop p) (p_backoff p) Serve.WaitAccept (reset_conn <$> p_conns p)) t'.
Proof.
  intros [H1 H2 H3 H4 H5 H6 H7 H8 H9] Hm Hc.
  assert (Hph : ss_phase_at t = PhClosing) by (rewrite H5; unfold spec_phase; by rewrite Hm, Hc).
  set (u := mk_ss (ss_ctx t) false (ss_loop_at t) (ss_cur t) PhAwaitingLoop
    (fun i => match ss_conn_at t i with KBacklog => KClosed | x => x end) (ss_served t) (ss_wg t) (ss_wait t)
    (ss_late_add t) (ss_idle_wait t)).
  set (q := mk_proc (p_ctx p) false (p_loop p) (p_backoff p) Serve.WaitAccept (reset_conn <$> p_conns p)).
  assert (Hu : steps t u) by (by apply rtc_once, (ss_close_listener K R true true t)).
  assert (Hq : forall l, l = spec_loop q -> sim q
    (mk_ss (ss_ctx u) false l (ss_cur u) PhAwaitingLoop (ss_conn_at u) (ss_served u) (ss_wg u) (ss_wait u)
      (ss_late_add u) (ss_idle_wait u))).
  { intros l ->. constructor; try done; cbn.
    - intros i. rewrite H6, list_lookup_fmap. destruct (p_conns p !! i) as [c|]; [|done]. cbn.
      destruct c as [| | |n o s| |]; try done. cbn. by destruct (Shutdown.session s), o, n.
    - intros i. rewrite H7. symmetry. apply lookup_same. by intros [].
    - rewrite H8. symmetry. apply wg_map. by intros [].
    - by rewrite H9, Hm. }
  destruct (p_loop p) eqn:El;
    try (exists u; split; [done|]; apply (Hq (ss_loop_at t)); rewrite H3; unfold spec_loop; cbn; by rewrite ?El).
  destruct (p_listening p) eqn:En.
  - eexists. split; [eapply rtc_r; [exact Hu|]; apply ss_loop_stops; [done| |done]|].
    + cbn. rewrite H3. unfold spec_loop. by rewrite ?El, ?En.
    + apply Hq. unfold spec_loop. cbn. by rewrite ?El.
  - exists u. split; [done|]. apply (Hq (ss_loop_at t)). rewrite H3. unfold spec_loop. cbn. by rewrite ?El, ?En.
Qed.

Lemma sim_phase_step p t m ph :
  sim p t -> spec_phase (set_phase p m) = ph -> sim (set_phase p m) (with_phase t ph (spec_wait m)).
Proof. intros [H1 H2 H3 H4 H5 H6 H7 H8 H9] <-. by constructor. Qed.

(** ** Steps that need time *)

(** A connection whose session is serving a request, or answering a denied
    client or a first read that failed: what a shutdown waits for. *)
Definition busy (c : conn_state) : Prop :=
  match c with
  | Live _ (GotRequest | ReadRefused) s => Shutdown.session s = Shutdown.Busy
  | Held denied => denied = true
  | Denied => True
  | _ => False
  end.

Lemma serving_or_free p i n o sh :
  proc_inv p -> p_ctx p = true -> p_conns p !! i = Some (Live n o sh) ->
  busy (Live n o sh) \/ exists p', free_proc p p'.
Proof.
  intros Hi Hc Hl. pose proof (pi_conns _ Hi _ _ Hl) as Hv. rewrite Hc in Hv.
  destruct (conn_progress n o sh Hv) as [[Hb [->| ->]]|[c' Hf]]; [by left..|right]. eexists. by eapply fp_conn.
Qed.

(** No idle connection is pending when time passes. *)
Lemma no_urgent p t : sim p t -> proc_inv p -> waiting p -> ~ UrgentPending K true t.
Proof.
  intros Hs Hi Hw (_ & Hc & i & _ & Hk & Hn). rewrite (sim_ctx _ _ Hs) in Hc.
  rewrite (sim_conn _ _ Hs) in Hk. rewrite (sim_served _ _ Hs) in Hn.
  destruct (p_conns p !! i) as [[| | |n o sh| |]|] eqn:El; cbn in Hk, Hn; try done.
  destruct (serving_or_free p i n o sh Hi Hc El) as [Hb|[p' Hf]]; [|by apply Hw in Hf].
  cbn in Hb. by destruct o; try done; rewrite Hb in Hk.
Qed.

Lemma timed_plain t u :
  ss_inv t -> ~ UrgentPending K true t -> ss_idle_wait u = ss_idle_wait t -> timed K t u u.
Proof.
  intros Hi Hu He. exists false. split.
  - split; [done|]. rewrite (ss_inv_idle _ Hi). intros [|(Hp & _ & Hid)]; [done|]. exfalso. apply Hu.
    split_and!; [done| |done]. apply (ss_inv_ctx _ Hi). by rewrite Hp.
  - rewrite (ss_inv_idle _ Hi) in He. by destruct u; cbn in *; subst.
Qed.

Lemma live_found (l : list conn_state) :
  forallb (fun c => negb (is_live c)) l = false -> exists i c, l !! i = Some c /\ is_live c = true.
Proof.
  induction l as [|c l IH]; [done|]. cbn. intros [E|E]%andb_false_iff.
  - exists 0%nat, c. split; [done|]. by apply negb_false_iff.
  - destruct (IH E) as (i & d & Hi & Hd). by exists (S i), d.
Qed.

Lemma busy_or_free p i c :
  proc_inv p -> p_ctx p = true -> p_conns p !! i = Some c -> is_live c = true -> busy c \/ exists p', free_proc p p'.
Proof.
  intros Hi Hc Hl Hv. destruct c as [| | |n o sh| |]; try done; [|by left].
  by apply (serving_or_free p i n o sh).
Qed.

(** The process waits in the drain only for requests being served and for
    denied clients. *)
Lemma draining_busy p :
  proc_inv p -> waiting p -> p_main p = Serve.Draining ->
  exists i c, p_conns p !! i = Some c /\ busy c /\ is_live c = true.
Proof.
  intros Hi Hw Hm. destruct (pi_main _ Hi) as [Hc _]; [by rewrite Hm|].
  destruct (forallb (fun c => negb (is_live c)) (p_conns p)) eqn:E; [by destruct (Hw _ (fp_drained _ Hm E))|].
  destruct (live_found _ E) as (i & c & Hl & Hv). exists i, c. split_and!; [done| |done].
  destruct (busy_or_free p i c Hi Hc Hl Hv) as [?|[p' Hf]]; [done|by apply Hw in Hf].
Qed.

Lemma busy_counted c : busy c -> is_live c = true -> counted c = 1%nat.
Proof.
  rewrite counted_eq. destruct c as [| | |n o sh| |]; try done. cbn. destruct o; try done; by intros ->.
Qed.

Lemma sim_deadline p t i c c' :
  sim p t -> proc_inv p -> ss_inv t -> p_running p -> waiting p -> p_conns p !! i = Some c -> deadline_step c c' ->
  (i < K)%nat -> (served_of c < R)%nat -> exists t', steps t t' /\ sim (set_conn p i c') t'.
Proof.
  intros Hs Hi Ht Hr Hw Hc Hd HK HR. destruct (sim_at _ _ _ _ Hs Hc) as [Hx Hn].
  destruct (deadline_effect _ _ _ (pi_conns _ Hi _ _ Hc) Hd) as [He|(E1 & E2 & E3)]; [by eapply effect_steps|].
  rewrite E1 in Hx.
  eexists. split.
  { apply rtc_once. eapply (ss_read_timeout K R _ _ t i _ HK); [by eapply sim_running|done|by eapply no_urgent|].
    apply timed_plain; [done|by eapply no_urgent|done]. }
  eapply sim_put; [done|done|done|by rewrite Hn|]. pose proof (wg_ge _ _ _ Hc) as Hge.
  rewrite (sim_wg _ _ Hs), !counted_eq, E1, E2 in *. lia.
Qed.

Lemma sim_forced p t :
  sim p t -> proc_inv p -> ss_inv t -> waiting p -> p_main p = Serve.Draining ->
  exists t', steps t t' /\ sim (set_phase p (Serve.Returned false)) t'.
Proof.
  intros Hs Hi Ht Hw Hm. destruct (draining_busy p Hi Hw Hm) as (i & c & Hc & Hb & Hv).
  assert (Hph : ss_phase_at t = PhDraining) by (rewrite (sim_phase _ _ Hs); unfold spec_phase; by rewrite Hm).
  assert (Hwait : ss_wait t = true) by (rewrite (sim_wait _ _ Hs); by rewrite Hm).
  eexists. split.
  { apply rtc_once. eapply (ss_drain_times_out K R _ _ t _ Hph); [|by eapply no_urgent|].
    - pose proof (wg_ge _ _ _ Hc) as Hge. rewrite (sim_wg _ _ Hs). rewrite (busy_counted c Hb Hv) in Hge. lia.
    - apply timed_plain; [done|by eapply no_urgent|done]. }
  rewrite Hwait. by apply (sim_phase_step p t (Serve.Returned false)).
Qed.

(** ** Every step *)

Definition total (p : proc) : nat := sum_list_with served_of (p_conns p).

Lemma served_total p i c : p_conns p !! i = Some c -> (served_of c <= total p)%nat.
Proof. apply sum_lookup. Qed.

Lemma sim_free p t p' :
  sim p t -> proc_inv p -> p_running p -> free_proc p p' -> (length (p_conns p) <= K)%nat -> (total p < R)%nat ->
  exists t', steps t t' /\ sim p' t'.
Proof.
  intros Hs Hi Hr Hf HK HR. destruct Hf as [p i c c' Hc Hf|p i d Hl Hh|p Hl Hc Hn|p d Hl Hc|p Hm Hc|p Hm Hl|p Hm Hn].
  - pose proof (lookup_lt_Some _ _ _ Hc). pose proof (served_total _ _ _ Hc).
    eapply effect_steps; [done..|lia|lia|]. eapply free_effect; [by eapply pi_conns|done].
  - pose proof (lookup_lt_Some _ _ _ Hh). eapply sim_spawn; try done; lia.
  - by apply sim_loop_stops; [..|left].
  - apply sim_loop_stops; eauto.
  - by apply sim_close.
  - eexists. split; [|by apply (sim_phase_step p t Serve.Draining)]. apply rtc_once, ss_start_drain.
    + rewrite (sim_phase _ _ Hs). unfold spec_phase. by rewrite Hm.
    + rewrite (sim_loop _ _ Hs). unfold spec_loop. rewrite Hl. destruct (pi_main _ Hi) as [_ ->]; [by rewrite Hm|done].
  - assert (Hw : ss_wait t = true) by (rewrite (sim_wait _ _ Hs); by rewrite Hm).
    eexists. split; [apply rtc_once, ss_drained|].
    + rewrite (sim_phase _ _ Hs). unfold spec_phase. by rewrite Hm.
    + rewrite (sim_wg _ _ Hs). unfold wg_of. clear -Hn. induction (p_conns p) as [|c l IH]; [done|].
      cbn in Hn. apply andb_true_iff in Hn as [Hc Hn]. cbn [sum_list_with]. rewrite (IH Hn). by destruct c.
    + rewrite Hw. by apply (sim_phase_step p t (Serve.Returned true)).
Qed.

Lemma sim_dial p t denied :
  sim p t -> p_running p -> p_listening p = true -> (length (p_conns p) < K)%nat ->
  exists t', steps t t' /\
    sim (mk_proc (p_ctx p) (p_listening p) (p_loop p) (p_backoff p) (p_main p) (p_conns p ++ [Queued denied])) t'.
Proof.
  intros Hs Hr Hl HK. pose proof Hs as [H1 H2 H3 H4 H5 H6 H7 H8 H9].
  assert (Hnone : p_conns p !! length (p_conns p) = None) by (by apply lookup_ge_None).
  eexists. split.
  { apply rtc_once, (ss_client_dials K R _ _ t _ HK); [by eapply sim_running| |by rewrite H2].
    by rewrite H6, Hnone. }
  constructor; cbn; try done.
  - intros j. destruct (decide (j = length (p_conns p))) as [->|Hne]; [by rewrite except_eq, list_lookup_middle|].
    rewrite except_ne, H6 by done. destruct (decide (j < length (p_conns p))%nat) as [Hlt|Hge].
    + by rewrite lookup_app_l.
    + rewrite (lookup_ge_None_2 (p_conns p)), (lookup_ge_None_2 (_ ++ _)) by (rewrite ?length_app; cbn; lia). done.
  - intros j. rewrite H7, Hnone. cbn. destruct (decide (j = length (p_conns p))) as [->|Hne];
      [by rewrite except_eq, list_lookup_middle|].
    rewrite except_ne, H7 by done. destruct (decide (j < length (p_conns p))%nat) as [Hlt|Hge].
    + by rewrite lookup_app_l.
    + rewrite (lookup_ge_None_2 (p_conns p)), (lookup_ge_None_2 (_ ++ _)) by (rewrite ?length_app; cbn; lia). done.
  - rewrite H8. unfold wg_of. rewrite sum_list_with_app. cbn [sum_list_with].
    change (counted (Queued denied)) with 0%nat. lia.
Qed.

Lemma sim_plain p t p' :
  sim p t -> proc_inv p -> ss_inv t -> p_running p -> plain_step p p' ->
  (length (p_conns p) < K)%nat -> (total p < R)%nat -> exists t', steps t t' /\ sim p' t'.
Proof.
  intros Hs Hi Ht Hr Hp HK HR. pose proof Hs as [H1 H2 H3 H4 H5 H6 H7 H8 H9].
  destruct Hp as [p p' Hf|p d Hl|p Hc|p i d Hl Hn Hq|p Hl Hc|p Hl Hc|p d Hl|p i c c' Hc Hp].
  - by apply (sim_free p); [..|lia|].
  - by apply sim_dial.
  - assert (Hm : p_main p = Serve.WaitCtx).
    { destruct (p_main p) eqn:Em; [done|..]; destruct (pi_main _ Hi) as [E _]; congruence. }
    eexists. split; [apply rtc_once, ss_signal; rewrite H5; unfold spec_phase; by rewrite Hm, Hc|].
    constructor; cbn; try done.
    + unfold spec_phase. cbn. by rewrite Hm.
    + intros i. rewrite H6. symmetry. apply lookup_same. by intros [].
    + intros i. rewrite H7. symmetry. apply lookup_same. by intros [].
    + rewrite H8. symmetry. apply wg_map. by intros [].
  - pose proof (lookup_lt_Some _ _ _ Hq) as Hlt. destruct (sim_at _ _ _ _ Hs Hq) as [Hx Hs0].
    destruct (sim_put p t i (Queued d) (Held d) KAccepted 0 (ss_wg t)) as [F1 F2 F3 F4 F5 F6 F7 F8 F9]; try done;
      [rewrite H8, !counted_eq; cbn; lia|].
    eexists. split.
    { apply rtc_once, (ss_loop_accepts K R _ _ t i); [lia|by eapply sim_running| |by rewrite H2|done].
      rewrite H3. unfold spec_loop. by rewrite Hl. }
    constructor; try done. intros j. cbn. rewrite H7. destruct (decide (j = i)) as [->|Hne].
    + by rewrite Hq, list_lookup_insert_eq.
    + by rewrite list_lookup_insert_ne.
  - exists t. split; [apply rtc_refl|]. apply sim_loop_stutter; eauto.
  - by apply sim_loop_stops; [..|left].
  - exists t. split; [apply rtc_refl|]. apply sim_loop_stutter; eauto.
  - pose proof (lookup_lt_Some _ _ _ Hc). pose proof (served_total _ _ _ Hc).
    eapply effect_steps; [done..|lia|lia|]. eapply peer_effect; [by eapply pi_conns|done].
Qed.

Lemma sim_timed p t p' :
  sim p t -> proc_inv p -> ss_inv t -> p_running p -> waiting p -> timed_step p p' ->
  (length (p_conns p) < K)%nat -> (total p < R)%nat -> exists t', steps t t' /\ sim p' t'.
Proof.
  intros Hs Hi Ht Hr Hw Hp HK HR. destruct Hp as [p i c c' Hc Hd|p Hm]; [|by apply sim_forced].
  pose proof (lookup_lt_Some _ _ _ Hc). pose proof (served_total _ _ _ Hc). eapply sim_deadline; try done; lia.
Qed.
End Steps.

(** ** Shutdown makes progress by itself *)

Definition serving (p : proc) : Prop := exists i c, p_conns p !! i = Some c /\ busy c.

Definition session_weight (s : Shutdown.session_pc) : nat :=
  match s with
  | Shutdown.Top => 9 | Shutdown.Locked => 8 | Shutdown.Checked => 7 | Shutdown.Reading => 6 | Shutdown.Got => 5
  | Shutdown.Locked2 => 4 | Shutdown.After => 3 | Shutdown.Busy => 2 | Shutdown.Ended => 1
  end%nat.
Definition watcher_weight (w : Shutdown.watcher_pc) : nat :=
  match w with Shutdown.Watching => 3 | Shutdown.Waking => 2 | Shutdown.Holding => 1 | Shutdown.Finished => 0 end%nat.
Definition conn_weight (c : conn_state) : nat :=
  match c with
  | Live _ _ s => session_weight (Shutdown.session s) + watcher_weight (Shutdown.watcher s)
  | _ => 0
  end%nat.
Definition loop_weight (l : loop_pc) : nat :=
  match l with LSpawning _ => 20 | LAccepting | LWaiting _ => 1 | LDone => 0 end%nat.
Definition proc_weight (p : proc) : nat :=
  (sum_list_with conn_weight (p_conns p) + loop_weight (p_loop p) + Serve.main_weight (p_main p))%nat.

#[local] Arguments conn_weight : simpl never.

Lemma session_watcher s s' : Shutdown.session_step s s' -> Shutdown.watcher s' = Shutdown.watcher s.
Proof. by destruct 1. Qed.

Lemma session_lighter o s s' :
  Shutdown.session_step s s' -> unblocked o (Shutdown.session s) (Shutdown.session s') = true \/ Shutdown.session s = Shutdown.Reading ->
  (session_weight (Shutdown.session s') < session_weight (Shutdown.session s))%nat.
Proof.
  intros Hs Hu. pose proof (session_moves _ _ Hs) as Hm. unfold unblocked in Hu.
  destruct (Shutdown.session s), (Shutdown.session s'); cbn; try done; try lia. by destruct Hu as [Hu|Hu], o.
Qed.

Lemma free_lighter c c' : free_step c c' -> (conn_weight c' < conn_weight c)%nat.
Proof.
  intros Hs. destruct Hs as [n o s s' Hs Hu|n o s s' Hs|n o s s' Hr Hsh Hs|n o s He]; unfold conn_weight.
  - rewrite (session_watcher _ _ Hs). pose proof (session_lighter o s s' Hs (or_introl Hu)). lia.
  - destruct (watcher_keeps _ _ Hs) as [_ ->]. destruct Hs; cbn; rewrite H; cbn; lia.
  - rewrite (session_watcher _ _ Hs). pose proof (session_lighter o s s' Hs (or_intror Hr)). lia.
  - rewrite He. cbn. lia.
Qed.

Lemma free_proc_lighter p p' : proc_inv p -> free_proc p p' -> (proc_weight p' < proc_weight p)%nat.
Proof.
  intros Hi Hf. unfold proc_weight.
  destruct Hf as [p i c c' Hc Hf|p i d Hl Hh|p Hl Hc Hn|p d Hl Hc|p Hm Hc|p Hm Hl|p Hm Hn];
    cbn [p_conns p_loop p_main set_conn set_loop set_phase].
  - pose proof (sum_insert conn_weight _ _ _ c' Hc). pose proof (free_lighter _ _ Hf). lia.
  - pose proof (sum_insert conn_weight _ _ _ (spawned (p_ctx p) d) Hh) as Hw.
    rewrite Hl. destruct d; unfold conn_weight in *; cbn in *; lia.
  - rewrite Hl. cbn. lia.
  - rewrite Hl. cbn. lia.
  - rewrite Hm. assert (sum_list_with conn_weight (reset_conn <$> p_conns p) = sum_list_with conn_weight (p_conns p)) as ->.
    { apply sum_map. by intros []. }
    cbn. lia.
  - rewrite Hm. cbn. lia.
  - rewrite Hm. cbn. lia.
Qed.

(** After the signal the process goes on by itself, has returned, or is serving
    a request. *)
Lemma proc_progress p :
  proc_inv p -> p_ctx p = true ->
  (exists d, p_main p = Serve.Returned d) \/ serving p \/ exists p', free_proc p p'.
Proof.
  intros Hi Hc. destruct (p_main p) as [| | |d] eqn:Em.
  - right. right. eexists. by apply fp_close.
  - right. right. destruct (pi_main _ Hi) as [_ Hl]; [by rewrite Em|].
    destruct (p_loop p) as [|i|d|] eqn:El.
    + eexists. by apply fp_stop_accept.
    + destruct (pi_held _ Hi i El) as [d Hd]. eexists. by eapply fp_spawn.
    + eexists. by eapply fp_stop_wait.
    + eexists. by apply fp_accept_done.
  - right. destruct (forallb (fun c => negb (is_live c)) (p_conns p)) eqn:E; [right; eexists; by apply fp_drained|].
    destruct (live_found _ E) as (i & c & Hl & Hv).
    destruct (busy_or_free p i c Hi Hc Hl Hv) as [?|?]; [left; by exists i, c|by right].
  - left. by eexists.
Qed.

Lemma free_ctx p p' : free_proc p p' -> p_ctx p' = p_ctx p.
Proof. by destruct 1. Qed.

(** No step of the process on its own starts serving a request after the
    signal. *)
Lemma free_busy c c' : conn_inv true c -> free_step c c' -> busy c' -> busy c.
Proof.
  intros Hi Hf Hb. destruct Hf as [n o s s' Hs Hu|n o s s' Hs|n o s s' Hr Hsh Hs|n o s He]; try done.
  - exfalso. cbn in Hi, Hb. destruct (next_out o (Shutdown.session s')); try done;
      pose proof (session_moves _ _ Hs) as Hm; rewrite Hb, (li_ctx _ _ _ _ Hi) in Hm; by destruct (Shutdown.session s).
  - cbn in *. by rewrite <- (proj2 (watcher_keeps _ _ Hs)).
Qed.

Lemma free_serving p p' : proc_inv p -> p_ctx p = true -> free_proc p p' -> serving p' -> serving p.
Proof.
  intros Hi Hc Hf (j & e & Hj & Hb). destruct Hf as [p i c c' Hci Hf|p i d Hl Hh|p Hl Hc' Hn|p d Hl Hc'|p Hm Hc'|p Hm Hl|p Hm Hn];
    cbn in Hj; try (by exists j, e).
  - apply list_lookup_insert_Some in Hj as [(-> & -> & _)|(_ & Hj)]; [|by exists j, e].
    exists j, c. split; [done|]. pose proof (pi_conns _ Hi _ _ Hci) as Hinv. rewrite Hc in Hinv. by eapply free_busy.
  - apply list_lookup_insert_Some in Hj as [(-> & <- & _)|(_ & Hj)]; [|by exists j, e].
    exists j, (Held d). split; [done|]. by destruct d.
  - rewrite list_lookup_fmap in Hj. destruct (p_conns p !! j) as [c|] eqn:Ej; [|done]. cbn in Hj. injection Hj as <-.
    exists j, c. by destruct c.
Qed.

Lemma free_running p p' : free_proc p p' -> p_main p <> Serve.Returned false -> p_main p' <> Serve.Returned false.
Proof. by destruct 1. Qed.

(** However the goroutines are scheduled: boundedly many steps, and always one
    more until [Serve] has returned. *)
Lemma shutdown_settles p n q :
  proc_inv p -> p_ctx p = true -> ~ serving p -> p_main p <> Serve.Returned false -> nsteps free_proc n p q ->
  (n + proc_weight q <= proc_weight p)%nat /\ (p_main q = Serve.Returned true \/ exists q', free_proc q q').
Proof.
  intros Hi Hc Hn Hr Hs. revert Hi Hc Hn Hr. induction Hs as [p|n p p1 q Hf _ IH]; intros Hi Hc Hn Hr.
  - split; [lia|]. destruct (proc_progress p Hi Hc) as [[[] Hd]|[?|?]]; try done; [by left|by right].
  - destruct IH as [H1 H2]; [by eapply free_proc_inv|by rewrite (free_ctx _ _ Hf)|intros Hs; by eapply Hn, free_serving
      |by eapply free_running|]. pose proof (free_proc_lighter _ _ Hi Hf). split; [lia|done].
Qed.

(** ** Theorems *)

Lemma process_reachable p :
  rtc timely_step p_start p ->
  exists N, forall K R, (N <= K)%nat -> (N <= R)%nat ->
    exists t, rtc (ss_next K R true true) ss_init t /\ sim p t.
Proof.
  revert p. apply (rtc_ind_r (fun p => exists N, forall K R, (N <= K)%nat -> (N <= R)%nat ->
    exists t, rtc (ss_next K R true true) ss_init t /\ sim p t)).
  - exists 0%nat. intros K R _ _. exists ss_init. split; [apply rtc_refl|]. by constructor.
  - intros p p' Hr [Hrun Hp] [N HN]. exists (N + S (length (p_conns p)) + S (total p))%nat. intros K R HK HR.
    destruct (HN K R ltac:(lia) ltac:(lia)) as (t & Ht & Hs).
    pose proof (run_inv _ _ pi_start (timely_run _ _ Hr)) as Hi.
    pose proof (ss_inv_reachable K R true true eq_refl eq_refl t Ht) as Hit.
    assert (Hstep : exists t', rtc (ss_next K R true true) t t' /\ sim p' t').
    { destruct Hp as [Hp|[Hw Hp]]; [eapply (sim_plain K R p)|eapply (sim_timed K R p)]; try done; lia. }
    destruct Hstep as (t' & Ht' & Hs'). exists t'. split; [by etransitivity|done].
Qed.

(** C28 (process_refines_serve): [Serve] with any number of sessions refines the repository's
    specification of shutdown (Serve.tla, waiting for the accept loop and
    closing idle connections).  Whatever the timing, once the drain has started
    waiting the accept loop has ended, so no session is added any more.  And
    when time passes only while every goroutine waits, which is that
    specification's own treatment of time, every state the process reaches
    before [Serve] returns, and the one it returns in, is seen by the
    specification in a state it reaches, with the same context, listener, phase,
    wait group and state of every connection; so the specification's promises
    hold: no session is added after the drain has started waiting, and the drain
    never waits for time to pass because of connections that are idle between
    requests. *)
Theorem process_refines_serve p :
  rtc run_step p_start p ->
  (Serve.past_accept (p_main p) -> p_loop p = LDone) /\
  (rtc timely_step p_start p ->
   exists N, forall K R, (N <= K)%nat -> (N <= R)%nat ->
     exists t, rtc (ss_next K R true true) ss_init t /\ sim p t /\ NoAddAfterWait t /\ DrainSkipsIdle t).
Proof.
  intros Hrun. split; [apply (pi_done _ (run_inv _ _ pi_start Hrun))|]. intros Hr.
  destruct (process_reachable p Hr) as [N HN]. exists N. intros K R HK HR.
  destruct (HN K R HK HR) as (t & Ht & Hs). pose proof (ss_inv_reachable K R true true eq_refl eq_refl t Ht) as Hi.
  exists t. split_and!; [done|done|apply (ss_inv_late _ Hi)|apply (ss_inv_idle _ Hi)].
Qed.

(** C29 (shutdown_completes): shutdown waits for requests being served and for clients being
    turned away, and for nothing else.  In every state the process can reach
    after the signal, whatever the timing, as long as no session is serving a
    request or answering a denied client or a first read that failed, its own
    goroutines, with no help of a peer and no time passing, bring [Serve] to
    return with every connection drained, however they are scheduled: they take
    at most [proc_weight] steps and can take another one until then.  And when
    the goroutines have come to rest in the drain before the drain timeout
    passes, so that it ends the drain, a session is serving a request or giving
    such an answer; a timeout that passes earlier, such as one of zero, can end
    the drain in any case. *)
Theorem shutdown_completes p :
  rtc run_step p_start p -> p_ctx p = true -> p_running p ->
  (~ serving p -> forall n q, nsteps free_proc n p q ->
     (n <= proc_weight p)%nat /\ (p_main q = Serve.Returned true \/ exists q', free_proc q q')) /\
  (waiting p -> forall p', proc_step p p' -> p_main p' = Serve.Returned false -> serving p) /\
  (p_main p = Serve.Draining -> exists p', proc_step p p' /\ p_main p' = Serve.Returned false).
Proof.
  intros Hr Hc Hrun. pose proof (run_inv _ _ pi_start Hr) as Hi. split_and!.
  - intros Hn n q Hs. destruct (shutdown_settles p n q Hi Hc Hn (Hrun false) Hs). split; [lia|done].
  - intros Hw p' [Hp|Hp] Hm.
    + exfalso. destruct Hp as [p p' Hf| | | | | | |]; try (by apply (Hrun false)). by apply (free_running _ _ Hf (Hrun false)).
    + destruct Hp as [p i c c' _ _|p Hd]; [by destruct (Hrun false)|].
      destruct (draining_busy p Hi Hw Hd) as (i & c & Hl & Hb & _). by exists i, c.
  - intros Hd. eexists. split; [right; by apply ps_forced|done].
Qed.

(** ** Witnesses: one connection is accepted and reads, then the signal comes *)

Definition reading_conn (ctx : bool) : conn_state :=
  Live 0 NoRead (Shutdown.mk_rw_state ctx false true false Shutdown.Reading Shutdown.Watching).
Definition p_signalled : proc := mk_proc true true LAccepting reset Serve.WaitCtx [reading_conn true].

Ltac run_by t := eapply rtc_l; [split; [intros d; discriminate|left; t]|].

Lemma reach_signalled : rtc timely_step p_start p_signalled.
Proof.
  run_by ltac:(by apply (ps_dial _ false)).
  run_by ltac:(by apply (ps_accept _ 0 false)).
  run_by ltac:(by apply ps_free, (fp_spawn _ 0 false)).
  run_by ltac:(by eapply ps_free, fp_conn with (i := 0%nat); [|apply f_session; [apply Shutdown.s_lock|]]).
  run_by ltac:(by eapply ps_free, fp_conn with (i := 0%nat); [|apply f_session; [apply Shutdown.s_check|]]).
  run_by ltac:(by eapply ps_free, fp_conn with (i := 0%nat); [|apply f_session; [apply Shutdown.s_idle|]]).
  run_by ltac:(by apply ps_cancel).
  apply rtc_refl.
Qed.

Lemma process_refines_serve_witness :
  exists N, forall K R, (N <= K)%nat -> (N <= R)%nat ->
    exists t, rtc (ss_next K R true true) ss_init t /\ sim p_signalled t /\ NoAddAfterWait t /\ DrainSkipsIdle t.
Proof. apply (process_refines_serve p_signalled); [apply timely_run|]; apply reach_signalled. Defined.

Lemma shutdown_completes_witness :
  proc_weight p_signalled = 13%nat /\
  forall n q, nsteps free_proc n p_signalled q ->
    (n <= 13)%nat /\ (p_main q = Serve.Returned true \/ exists q', free_proc q q').
Proof.
  split; [reflexivity|].
  destruct (shutdown_completes p_signalled (timely_run _ _ reach_signalled)) as [Hs _]; [reflexivity|intros d; discriminate|].
  apply Hs. intros (i & c & Hl & Hb). destruct i as [|i]; cbn in Hl; [injection Hl as <-; exact Hb|discriminate Hl].
Defined.
