(* ===== verification/Dial.v ===== *)
(** * Dialling the upstream proxy: [dial.go]

    The TLS configuration built once at startup and [dialUpstream], with the
    context deadline it puts on the TCP connect and on the handshake.  Files,
    certificate parsing, the dialer and the handshake are parameters. *)

From S2P Require Import Prelude GoStrings GoNet Errors Hosts.

(** ** Data *)

Definition VersionTLS12 : Z := 0x0303.

(** The fields of [tls.Config] the proxy sets; [Pool] is a certificate pool,
    [RootCAs = None] means the system roots. *)
Record tls_Config (Pool : Type) := mk_tls_Config {
  MinVersion : Z;
  RootCAs : option Pool;
  tls_InsecureSkipVerify : bool;
  ServerName : string
}.
Arguments mk_tls_Config {Pool} _ _ _ _.
Arguments MinVersion {Pool} _.
Arguments RootCAs {Pool} _.
Arguments tls_InsecureSkipVerify {Pool} _.
Arguments ServerName {Pool} _.

(** [net.Dialer]: a zero [Timeout] or [Deadline] ([None]) means none. *)
Record Dialer := mk_Dialer { Timeout : Z; Deadline : option Z }.

Record UpstreamTLSConfig (Pool : Type) := mk_UpstreamTLSConfig {
  Enabled : bool;
  CAFile : string;
  InsecureSkipVerify : bool;
  TLSConfig : option (tls_Config Pool);
  dialer : option Dialer
}.
Arguments mk_UpstreamTLSConfig {Pool} _ _ _ _ _.
Arguments Enabled {Pool} _.
Arguments CAFile {Pool} _.
Arguments InsecureSkipVerify {Pool} _.
Arguments TLSConfig {Pool} _.
Arguments dialer {Pool} _.

(** What is done to the network: a TCP connect and a handshake, each with its
    deadline, and the close of the raw connection. *)
Inductive dev (Pool : Type) :=
| DConnect (addr : string) (deadline : option Z)
| DHandshake (tc : tls_Config Pool) (deadline : option Z)
| DClose.
Arguments DConnect {Pool} _ _.
Arguments DHandshake {Pool} _ _.
Arguments DClose {Pool}.

(** The connection returned: the plain one, or the TLS one over its
    transport. *)
Inductive upstream_conn (Pool : Type) := PlainConn | TLSConn (tc : tls_Config Pool).
Arguments PlainConn {Pool}.
Arguments TLSConn {Pool} _.

(** ** Operations *)

Section Dial.
Context {Pool : Type}.
Variables (read_file : string -> error + string) (append_pem : string -> option Pool).

(** The CA part of [BuildTLSConfig]. *)
Definition load_roots (caFile : string) : error + option Pool :=
  if String.eqb caFile "" then inr None
  else match read_file caFile with
  | inl e => inl (Err KOther ("failed to read upstream CA file: " +:+ err_msg e) (Some e))
  | inr pem =>
      match append_pem pem with
      | None => inl (Err KOther ("failed to parse upstream CA certificate from " +:+ caFile) None)
      | Some pool => inr (Some pool)
      end
  end.

Definition BuildTLSConfig (c : UpstreamTLSConfig Pool) : error + UpstreamTLSConfig Pool :=
  match load_roots (CAFile c) with
  | inl e => inl e
  | inr roots =>
      inr (mk_UpstreamTLSConfig (Enabled c) (CAFile c) (InsecureSkipVerify c)
             (Some (mk_tls_Config VersionTLS12 roots (InsecureSkipVerify c) "")) (dialer c))
  end.

(** The earlier of two optional deadlines. *)
Definition earlier (a b : option Z) : option Z :=
  match a, b with
  | Some x, Some y => Some (Z.min x y)
  | Some x, None => Some x
  | None, b => b
  end.

(** [context.WithTimeout] and [context.WithDeadline], each when set, at time
    [now]. *)
Definition dial_deadline (d : Dialer) (now : Z) : option Z :=
  earlier (if Timeout d =? 0 then None else Some (now + Timeout d)) (Deadline d).

Definition dialUpstream (now : Z) (connect_err handshake_err : option error)
    (addr : string) (tlsCfg : UpstreamTLSConfig Pool)
    : (error + upstream_conn Pool) * list (dev Pool) :=
  let d := match dialer tlsCfg with Some d => d | None => mk_Dialer 0 None end in
  let deadline := dial_deadline d now in
  if negb (Enabled tlsCfg) then
    (match connect_err with Some e => inl e | None => inr PlainConn end, [DConnect addr deadline])
  else
    let tc := match TLSConfig tlsCfg with
              | Some tc => tc
              | None => mk_tls_Config VersionTLS12 None false ""
              end in
    let tc := mk_tls_Config (MinVersion tc) (RootCAs tc) (tls_InsecureSkipVerify tc) (extractHost addr) in
    match connect_err with
    | Some e => (inl e, [DConnect addr deadline])
    | None =>
        match handshake_err with
        | Some e => (inl e, [DConnect addr deadline; DHandshake tc deadline; DClose])
        | None => (inr (TLSConn tc), [DConnect addr deadline; DHandshake tc deadline])
        end
    end.

(** ** Theorems *)

Lemma load_roots_some caFile roots :
  load_roots caFile = inr roots ->
  match roots with
  | None => caFile = ""
  | Some pool => caFile <> "" /\ exists pem, read_file caFile = inr pem /\ append_pem pem = Some pool
  end.
Proof.
  unfold load_roots. destruct (String.eqb_spec caFile "") as [->|Hne]; [by intros [= <-]|].
  destruct (read_file caFile) as [|pem]; [done|]. destruct (append_pem pem) as [pool|] eqn:E; [|done].
  intros [= <-]. eauto.
Qed.

(** C34 (upstream_tls_policy): the TLS policy of upstream connections.  With a configuration built by
    [BuildTLSConfig], a connection that [dialUpstream] returns is plain TCP
    exactly when TLS is not enabled; otherwise its handshake was configured
    for the host of the dialled address, at TLS 1.2 or later, and with the
    certificates of the CA file alone as roots when one is configured.  The
    certificate is verified for that host unless the operator set
    [InsecureSkipVerify] (the flag -upstream-tls-insecure), and only then is
    nothing verified. *)
Theorem upstream_tls_policy now ce he addr c c' conn evs :
  BuildTLSConfig c = inr c' ->
  dialUpstream now ce he addr c' = (inr conn, evs) ->
  match conn with
  | PlainConn => Enabled c = false
  | TLSConn tc =>
      Enabled c = true /\ (exists dl, evs = [DConnect addr dl; DHandshake tc dl]) /\
      ServerName tc = extractHost addr /\ VersionTLS12 <= MinVersion tc /\
      tls_InsecureSkipVerify tc = InsecureSkipVerify c /\
      match RootCAs tc with
      | None => CAFile c = ""
      | Some pool => exists pem, read_file (CAFile c) = inr pem /\ append_pem pem = Some pool
      end
  end.
Proof.
  unfold BuildTLSConfig, dialUpstream. destruct (load_roots (CAFile c)) as [|roots] eqn:El; [done|].
  apply load_roots_some in El. intros [= <-]. cbn.
  destruct (Enabled c), ce, he; cbn; intros [= <- <-]; try done.
  repeat (split; [done || by eexists|]). destruct roots; [|done]. by destruct El.
Qed.

(** No connection is left behind and no step is unbounded.  Whatever the
    outcome, the connect and the handshake run under the same deadline, the
    earlier of the configured timeout and deadline; an error after the TCP
    connect closes the raw connection, and a returned connection is open. *)
Theorem dial_bounded now ce he addr (c : UpstreamTLSConfig Pool) d r evs :
  dialer c = Some d -> dialUpstream now ce he addr c = (r, evs) ->
  (forall e, e ∈ evs -> match e with
     | DConnect a dl => a = addr /\ dl = dial_deadline d now
     | DHandshake _ dl => dl = dial_deadline d now
     | DClose => True end) /\
  (Timeout d <> 0 -> exists dl, dial_deadline d now = Some dl /\ dl <= now + Timeout d) /\
  (DClose ∈ evs <-> ce = None /\ exists e, r = inl e).
Proof.
  clear read_file append_pem. intros Hd. unfold dialUpstream. rewrite Hd.
  assert (Ht : Timeout d <> 0 -> exists dl, dial_deadline d now = Some dl /\ dl <= now + Timeout d).
  { intros Hn. unfold dial_deadline. destruct (Z.eqb_spec (Timeout d) 0); [done|].
    destruct (Deadline d) as [x|]; cbn; eexists; (split; [done|lia]). }
  destruct (Enabled c), ce, he; cbn; intros [= <- <-];
    (split; [intros ev He; rewrite ?elem_of_cons, elem_of_nil in He; naive_solver|]; split; [done|];
     rewrite ?elem_of_cons, elem_of_nil; naive_solver).
Qed.

End Dial.

(** ** Witnesses *)

Definition demo_tls : UpstreamTLSConfig string :=
  mk_UpstreamTLSConfig true "ca.pem" false None (Some (mk_Dialer 30 None)).
Definition demo_read (f : string) : error + string :=
  if String.eqb f "ca.pem" then inr "PEM" else inl (Err KOther "no such file" None).
Definition demo_built : UpstreamTLSConfig string :=
  mk_UpstreamTLSConfig true "ca.pem" false
    (Some (mk_tls_Config VersionTLS12 (Some "PEM") false "")) (Some (mk_Dialer 30 None)).

Lemma upstream_tls_policy_witness :
  let tc := mk_tls_Config VersionTLS12 (Some "PEM") false "proxy.corp" in
  Enabled demo_tls = true /\
  (exists dl, [DConnect "proxy.corp:3128" (Some 40); DHandshake tc (Some 40)] =
              [DConnect "proxy.corp:3128" dl; DHandshake tc dl]) /\
  ServerName tc = "proxy.corp" /\ VersionTLS12 <= MinVersion tc /\
  tls_InsecureSkipVerify tc = false /\
  exists pem, demo_read "ca.pem" = inr pem /\ Some pem = Some "PEM".
Proof.
  refine (upstream_tls_policy demo_read Some 10 None None "proxy.corp:3128" demo_tls demo_built
    (TLSConn (mk_tls_Config VersionTLS12 (Some "PEM") false "proxy.corp")) _ _ _); vm_compute; reflexivity.
Defined.

Lemma dial_bounded_witness :
  let tc := mk_tls_Config VersionTLS12 (Some "PEM") false "proxy.corp" in
  @DClose string ∈ [DConnect "proxy.corp:3128" (Some 40); DHandshake tc (Some 40); DClose].
Proof.
  refine (proj2 (proj2 (proj2 (dial_bounded 10 None (Some (Err KOther "bad certificate" None))
    "proxy.corp:3128" demo_built (mk_Dialer 30 None) (inl (Err KOther "bad certificate" None)) _ _ _))) _).
  - reflexivity.
  - vm_compute; reflexivity.
  - split; [reflexivity|]. by eexists.
Defined.
