(* ===== verification/Gss.v ===== *)
(** * The native provider: [gss_darwin.c], [gss_darwin.h], [auth_gss_darwin.go]
    and its replacements on other builds

    The C functions that talk to the GSS-API, with the buffers they write to as
    arrays in which a write out of bounds, or a read of an unset buffer, is
    undefined behaviour; and the Go provider on top of them.  The framework's
    answers are parameters: each function of it is called at most once per
    token, but for [gss_display_status], whose successive calls for a status
    deliver messages or fail. *)

From S2P Require Import Prelude GoStrings GoNet Errors Hosts Config Gokrb5 Gokrb5Thms.

Module CGss.

(** ** Buffers *)

(** [size_t] has 64 bits. *)
Definition size_t (z : Z) : Z := z mod 2 ^ 64.

(** Assignment to [buf\[i\]]; [None] is undefined behaviour. *)
Definition put (buf : list ascii) (i : Z) (c : ascii) : option (list ascii) :=
  if (0 <=? i) && (i <? Z.of_nat (length buf)) then Some (<[Z.to_nat i := c]> buf) else None.

(** [memcpy(buf + i, src, n)] *)
Fixpoint memcpy (buf : list ascii) (i : Z) (src : string) (n : nat) : option (list ascii) :=
  match n, src with
  | O, _ => Some buf
  | S _, EmptyString => None
  | S n, String c src =>
      match put buf i c with
      | None => None
      | Some buf => memcpy buf (i + 1) src n
      end
  end.

(** ** Status messages *)

(** The separator before a message. *)
Definition separator (buf : list ascii) (buflen offset : Z) : option (list ascii * Z) :=
  if (0 <? offset) && (offset <? size_t (buflen - 2)) then
    match put buf offset ";" with
    | None => None
    | Some buf =>
        match put buf (offset + 1) " " with
        | None => None
        | Some buf => Some (buf, offset + 2)
        end
    end
  else Some (buf, offset).

(** One round of the loop. *)
Definition append_one (msg : string) (buf : list ascii) (buflen offset : Z) : option (list ascii * Z) :=
  match separator buf buflen offset with
  | None => None
  | Some (buf, offset) =>
      let room := size_t (size_t (buflen - offset) - 1) in
      let len := Z.of_nat (String.length msg) in
      let to_copy := if len <? room then len else room in
      match memcpy buf offset msg (Z.to_nat to_copy) with
      | None => None
      | Some buf => Some (buf, size_t (offset + to_copy))
      end
  end.

(** What the calls of [gss_display_status] for one status do, the first and the
    ones after it while there are more messages: set [msg_buf] to a message, or
    fail and leave it as it was. *)
Definition display_calls : Type := option string * list (option string).

(** What [msg_buf] holds after a call: before any call has set it reading it is
    undefined, and after [gss_release_buffer] it is empty. *)
Definition msg_buf (set : bool) (call : option string) : option string :=
  match call with Some msg => Some msg | None => if set then Some "" else None end.

(** The loop of [append_status_messages], whose condition sees another message
    and room for it. *)
Fixpoint append_rounds (set : bool) (call : option string) (calls : list (option string)) (buf : list ascii)
    (buflen offset : Z) : option (list ascii * Z) :=
  match msg_buf set call with
  | None => None
  | Some msg =>
      match append_one msg buf buflen offset with
      | None => None
      | Some (buf, offset) =>
          match calls with
          | [] => Some (buf, offset)
          | call :: calls =>
              if offset <? size_t (buflen - 1) then append_rounds true call calls buf buflen offset
              else Some (buf, offset)
          end
      end
  end.

Definition append_status_messages (d : display_calls) (buf : list ascii) (buflen offset : Z)
    : option (list ascii * Z) := append_rounds false d.1 d.2 buf buflen offset.

Definition GSS_C_GSS_CODE : Z := 1.
Definition GSS_C_MECH_CODE : Z := 2.

Definition format_gss_error (display : Z -> Z -> display_calls) (major minor : Z) (buf : list ascii)
    : option (list ascii) :=
  let buflen := Z.of_nat (length buf) in
  match append_status_messages (display major GSS_C_GSS_CODE) buf buflen 0 with
  | None => None
  | Some (buf, offset) =>
      match (if negb (minor =? 0)
             then append_status_messages (display minor GSS_C_MECH_CODE) buf buflen offset
             else Some (buf, offset)) with
      | None => None
      | Some (buf, offset) => put buf offset "000"
      end
  end.

(** The string at the start of an array: what stands before the first NUL;
    [None] when there is none, so that reading it leaves the array. *)
Fixpoint c_string (buf : list ascii) : option string :=
  match buf with
  | [] => None
  | c :: buf => if Ascii.eqb c "000" then Some "" else String c <$> c_string buf
  end.


(** ** [acquire_spnego_token] *)



(** What the framework answers: the major and minor status of the three calls,
    whether a context was created, the output token, whether [malloc] succeeds,
    and what displaying a status of a type does. *)
Record gss_answers := mk_answers {
  an_import : Z * Z;
  an_cred : Z * Z;
  an_init : Z * Z;
  an_context : bool;
  an_output : string;
  an_malloc : bool;
  an_display : Z -> Z -> display_calls
}.

(** Handles and buffers of the framework, as they are obtained, used and
    released. *)
Inductive handle := HName | HCred | HContext | HOutput.
Inductive gss_ev := Import (name : string) | Got (h : handle) | Init | Released (h : handle).

#[export] Instance handle_eq_dec : EqDecision handle.
Proof. solve_decision. Defined.

#[export] Instance gss_ev_eq_dec : EqDecision gss_ev.
Proof. solve_decision. Defined.






(** ** Bounds *)

Lemma put_Some buf i c :
  0 <= i < Z.of_nat (length buf) -> exists buf', put buf i c = Some buf' /\ length buf' = length buf /\
    (forall n, n <> Z.to_nat i -> buf' !! n = buf !! n) /\ buf' !! Z.to_nat i = Some c.
Proof.
  intros Hi. unfold put. destruct (Z.leb_spec 0 i), (Z.ltb_spec i (Z.of_nat (length buf))); try lia. cbn.
  eexists. split; [done|]. rewrite length_insert. split_and!; [done| |].
  - intros n Hn. by rewrite list_lookup_insert_ne.
  - apply list_lookup_insert_eq. lia.
Qed.

(** [text] stands at the start of [buf]. *)
Definition holds (buf : list ascii) (text : string) : Prop :=
  forall n, (n < String.length text)%nat -> buf !! n = String.get n text.

Lemma memcpy_Some n : forall buf i src,
  (n <= String.length src)%nat -> 0 <= i -> i + Z.of_nat n <= Z.of_nat (length buf) ->
  exists buf', memcpy buf i src n = Some buf' /\ length buf' = length buf /\
    (forall m, (m < Z.to_nat i)%nat -> buf' !! m = buf !! m) /\
    (forall m, (m < n)%nat -> buf' !! (Z.to_nat i + m)%nat = String.get m src).
Proof.
  induction n as [|n IH]; intros buf i src Hn Hi Hb; cbn [memcpy].
  { exists buf. split_and!; [by destruct src|done..|lia]. }
  destruct src as [|c src]; cbn in Hn; [lia|]. cbn [memcpy].
  destruct (put_Some buf i c) as (b1 & -> & Hl & Hne & Heq); [lia|].
  destruct (IH b1 (i + 1) src) as (b2 & -> & Hl2 & Hlo & Hhi); [lia|lia|rewrite Hl; lia|].
  exists b2. split_and!; [done|congruence| |].
  - intros m Hm. rewrite Hlo, Hne by lia. done.
  - intros [|m] Hm; cbn [String.get].
    + rewrite Nat.add_0_r, Hlo by lia. done.
    + rewrite <- Hhi by lia. f_equal. lia.
Qed.

Lemma get_take n m s : (m < n)%nat -> String.get m (str_take n s) = String.get m s.
Proof.
  revert m s. induction n as [|n IH]; intros m s Hm; [lia|]. destruct s as [|c s]; [done|].
  cbn [str_take]. destruct m as [|m]; [done|]. cbn. apply IH. lia.
Qed.

Lemma str_length_take_min n s : String.length (str_take n s) = Nat.min n (String.length s).
Proof. revert s. induction n as [|n IH]; intros [|c s]; cbn; try done. by rewrite IH. Qed.

Lemma size_t_id z : 0 <= z < 2 ^ 64 -> size_t z = z.
Proof. apply Z.mod_small. Qed.

(** The state of the buffer between two writes: the offset leaves room for the
    final NUL. *)
Definition fits (buflen : nat) (buf : list ascii) (offset : Z) : Prop :=
  length buf = buflen /\ 0 <= offset <= Z.of_nat buflen - 1.

Section Messages.
Context (buflen : nat) (Hlen : (2 <= buflen)%nat) (Hmax : Z.of_nat buflen < 2 ^ 64).

Lemma separator_fits buf offset :
  fits buflen buf offset ->
  exists buf' offset', separator buf (Z.of_nat buflen) offset = Some (buf', offset') /\
    fits buflen buf' offset' /\ offset <= offset' /\ (offset = 0 -> buf' = buf /\ offset' = 0) /\
    forall n, (n < Z.to_nat offset)%nat -> buf' !! n = buf !! n.
Proof using Hlen Hmax.
  intros [Hb Ho]. unfold separator. rewrite size_t_id by lia.
  assert (Hkeep : offset = 0 \/ 0 < offset -> exists buf' offset', Some (buf, offset) = Some (buf', offset') /\
    fits buflen buf' offset' /\ offset <= offset' /\ (offset = 0 -> buf' = buf /\ offset' = 0) /\
    forall n, (n < Z.to_nat offset)%nat -> buf' !! n = buf !! n).
  { intros _. exists buf, offset. split; [done|]. split; [done|]. split; [lia|]. by split. }
  destruct (Z.ltb_spec 0 offset); [|apply Hkeep; lia].
  destruct (Z.ltb_spec offset (Z.of_nat buflen - 2)); cbn [andb]; [|apply Hkeep; lia].
  destruct (put_Some buf offset ";") as (b1 & -> & H1 & Hne1 & _); [lia|].
  destruct (put_Some b1 (offset + 1) " ") as (b2 & -> & H2 & Hne2 & _); [rewrite H1; lia|].
  exists b2, (offset + 2). split; [done|]. split; [split; [congruence|lia]|]. split; [lia|]. split; [lia|].
  intros n Hn. rewrite Hne2, Hne1 by lia. done.
Qed.

Lemma append_one_fits msg buf offset :
  fits buflen buf offset ->
  exists buf' offset', append_one msg buf (Z.of_nat buflen) offset = Some (buf', offset') /\
    fits buflen buf' offset' /\ offset <= offset' /\
    (forall n, (n < Z.to_nat offset)%nat -> buf' !! n = buf !! n) /\
    (offset = 0 -> holds buf' (str_take (buflen - 1) msg) /\ offset' = Z.of_nat (Nat.min (String.length msg) (buflen - 1))).
Proof using Hlen Hmax.
  intros Hf. unfold append_one.
  destruct (separator_fits buf offset Hf) as (b1 & o1 & -> & [Hb1 Ho1] & Hle & H0 & Hsame).
  rewrite (size_t_id (Z.of_nat buflen - o1)) by lia. rewrite (size_t_id (Z.of_nat buflen - o1 - 1)) by lia.
  set (len := Z.of_nat (String.length msg)). set (n := if len <? _ then len else _).
  assert (Hn : 0 <= n <= len /\ n <= Z.of_nat buflen - o1 - 1 /\ (n = len \/ n = Z.of_nat buflen - o1 - 1)).
  { subst n len. destruct (Z.ltb_spec (Z.of_nat (String.length msg)) (Z.of_nat buflen - o1 - 1)); lia. }
  destruct (memcpy_Some (Z.to_nat n) b1 o1 msg) as (b2 & -> & Hb2 & Hlo & Hhi); [subst len; lia|lia|lia|].
  rewrite size_t_id by lia. exists b2, (o1 + n). split; [done|]. split; [split; [congruence|lia]|].
  split; [lia|]. split.
  - intros m Hm. rewrite Hlo by lia. by apply Hsame.
  - intros Hz. destruct (H0 Hz) as [-> ->]. clear Hsame H0. split; [|subst len; lia].
    intros m Hm. rewrite str_length_take_min in Hm. rewrite get_take by lia. apply (Hhi m). subst len. lia.
Qed.

Lemma append_rounds_fits calls : forall set call m buf offset,
  msg_buf set call = Some m -> fits buflen buf offset ->
  exists buf' offset', append_rounds set call calls buf (Z.of_nat buflen) offset = Some (buf', offset') /\
    fits buflen buf' offset' /\ offset <= offset' /\
    (forall n, (n < Z.to_nat offset)%nat -> buf' !! n = buf !! n) /\
    (offset = 0 -> holds buf' (str_take (buflen - 1) m) /\ Z.of_nat (Nat.min (String.length m) (buflen - 1)) <= offset').
Proof using Hlen Hmax.
  induction calls as [|call2 calls IH]; intros set call m buf offset Hm Hf; cbn [append_rounds]; rewrite Hm;
    destruct (append_one_fits m buf offset Hf) as (b1 & o1 & -> & Hf1 & Hle & Hsame & H0);
    (assert (Hstop : exists buf' offset', Some (b1, o1) = Some (buf', offset') /\ fits buflen buf' offset' /\
      offset <= offset' /\ (forall n, (n < Z.to_nat offset)%nat -> buf' !! n = buf !! n) /\
      (offset = 0 -> holds buf' (str_take (buflen - 1) m) /\ Z.of_nat (Nat.min (String.length m) (buflen - 1)) <= offset'))
    by (exists b1, o1; split_and!; try done; intros Hz; destruct (H0 Hz); split; [done|lia])); [exact Hstop|].
  destruct (o1 <? _); [|exact Hstop]. clear Hstop.
  assert (exists m2, msg_buf true call2 = Some m2) as [m2 Hm2] by (destruct call2; by eexists).
  destruct (IH true call2 m2 b1 o1 Hm2 Hf1) as (b2 & o2 & -> & Hf2 & Hle2 & Hsame2 & _).
  exists b2, o2. split; [done|]. split; [done|]. split; [lia|]. split.
  - intros n Hn. rewrite Hsame2 by lia. by apply Hsame.
  - intros Hz. destruct (H0 Hz) as [Hh Ho]. split; [|lia].
    intros n Hn. rewrite Hsame2; [by apply Hh|]. rewrite str_length_take_min in Hn. lia.
Qed.

Lemma append_status_fits d m buf offset :
  d.1 = Some m -> fits buflen buf offset ->
  exists buf' offset', append_status_messages d buf (Z.of_nat buflen) offset = Some (buf', offset') /\
    fits buflen buf' offset' /\ offset <= offset' /\
    (forall n, (n < Z.to_nat offset)%nat -> buf' !! n = buf !! n) /\
    (offset = 0 -> holds buf' (str_take (buflen - 1) m) /\ Z.of_nat (Nat.min (String.length m) (buflen - 1)) <= offset').
Proof using Hlen Hmax. intros Hm. apply append_rounds_fits. by rewrite Hm. Qed.
End Messages.

(** A string with a NUL after it. *)
Lemma c_string_nul buf : "000"%char ∈ buf -> exists s, c_string buf = Some s /\ (String.length s < length buf)%nat.
Proof.
  induction buf as [|c buf IH]; intros Hin; [by apply not_elem_of_nil in Hin|]. cbn.
  destruct (Ascii.eqb_spec c "000") as [->|Hne]; [exists ""; split; [done|cbn; lia]|].
  apply elem_of_cons in Hin as [?|Hin]; [congruence|]. destruct (IH Hin) as (s & -> & Hl).
  exists (String c s). split; [done|]. cbn. lia.
Qed.

(** The text is reported as far as the array allows. *)
Lemma c_string_holds buf text s :
  holds buf text -> str_forall (fun c => negb (Ascii.eqb c "000")) text = true -> c_string buf = Some s ->
  exists rest, s = text +:+ rest.
Proof.
  revert buf s. induction text as [|c text IH]; intros buf s Hh Hz Hs; [by exists s|].
  destruct buf as [|d buf]; [done|]. pose proof (Hh O ltac:(cbn; lia)) as H0. cbn in H0. injection H0 as ->.
  cbn in Hz, Hs. apply andb_true_iff in Hz as [Hc Hz]. apply negb_true_iff in Hc. rewrite Hc in Hs.
  destruct (c_string buf) as [s'|] eqn:E; [|done]. cbn in Hs. injection Hs as <-.
  destruct (IH buf s') as [rest ->]; try done.
  - intros n Hn. apply (Hh (S n)). cbn. lia.
  - by exists rest.
Qed.



Lemma format_gss_error_spec display major minor buf m :
  (2 <= length buf)%nat -> Z.of_nat (length buf) < 2 ^ 64 ->
  (display major GSS_C_GSS_CODE).1 = Some m -> (minor <> 0 -> is_Some (display minor GSS_C_MECH_CODE).1) ->
  exists buf' s, format_gss_error display major minor buf = Some buf' /\ length buf' = length buf /\
    c_string buf' = Some s /\ (String.length s < length buf)%nat /\
    (str_forall (fun c => negb (Ascii.eqb c "000")) m = true ->
     exists rest, s = str_take (length buf - 1) m +:+ rest).
Proof.
  intros H2 Hmax Hm Hmin. unfold format_gss_error.
  destruct (append_status_fits (length buf) H2 Hmax _ m buf 0 Hm) as (b1 & o1 & -> & Hf1 & Hle & _ & Hh);
    [split; [done|lia]|]. destruct (Hh eq_refl) as [Hh1 Hmo]. clear Hh.
  assert (Hsecond : exists b2 o2, (if negb (minor =? 0)
      then append_status_messages (display minor GSS_C_MECH_CODE) b1 (Z.of_nat (length buf)) o1
      else Some (b1, o1)) = Some (b2, o2) /\ fits (length buf) b2 o2 /\ o1 <= o2 /\
    forall n, (n < Z.to_nat o1)%nat -> b2 !! n = b1 !! n).
  { destruct (Z.eqb_spec minor 0); cbn [negb]; [by exists b1, o1|].
    destruct (Hmin n) as [m2 Hm2].
    destruct (append_status_fits (length buf) H2 Hmax _ m2 b1 o1 Hm2) as (b2 & o2 & -> & ? & ? & ? & _); [done|].
    by exists b2, o2. }
  destruct Hsecond as (b2 & o2 & -> & [Hb2 Ho2] & Hle2 & Hsame).
  destruct (put_Some b2 o2 "000") as (b3 & -> & Hb3 & Hne & Hnul); [lia|].
  destruct (c_string_nul b3) as (s & Hs & Hl); [by eapply list_elem_of_lookup_2|].
  exists b3, s. split; [done|]. split; [congruence|]. split; [done|]. split; [lia|]. intros Hz.
  eapply c_string_holds; [|by apply str_forall_take|exact Hs].
  intros n Hn. pose proof Hn as Hn'. rewrite str_length_take_min in Hn'.
  rewrite Hne, Hsame by lia. by apply Hh1.
Qed.

(** ** Handles *)
















(** ** Theorems *)

(** The error text of the native provider stays in its array.
    For every array of at least two octets, every status whose first calls of
    [gss_display_status] set their buffer, and every number of messages after
    them, however long, failed calls among them, [format_gss_error] writes only
    inside the array, never computes a length below zero, and leaves a
    NUL-terminated text that starts with the first message of the major status,
    cut to the array if it is longer. *)
Theorem gss_error_text display major minor buf m :
  (2 <= length buf)%nat -> Z.of_nat (length buf) < 2 ^ 64 ->
  (display major GSS_C_GSS_CODE).1 = Some m -> (minor <> 0 -> is_Some (display minor GSS_C_MECH_CODE).1) ->
  exists buf' s, format_gss_error display major minor buf = Some buf' /\ length buf' = length buf /\
    c_string buf' = Some s /\ (String.length s < length buf)%nat /\
    (str_forall (fun c => negb (Ascii.eqb c "000")) m = true ->
     exists rest, s = str_take (length buf - 1) m +:+ rest).
Proof. apply format_gss_error_spec. Qed.



(** ** Witnesses *)

(** A failure with a major status of two messages, a failed call between them,
    and a minor status. *)
Definition demo_answers : gss_answers :=
  mk_answers (0, 0) (0, 0) (0x10000, 7) true "token" true
    (fun status type =>
       if type =? 1 then (Some "An invalid name was supplied", [None; Some "see minor"]) else (Some "no credentials", [])).

(** An array of ten octets. *)
Lemma gss_error_text_witness :
  exists buf' s, format_gss_error (an_display demo_answers) 0x10000 7 (replicate 10 " "%char) = Some buf' /\
    c_string buf' = Some s /\ s = "An invali".
Proof.
  destruct (gss_error_text (an_display demo_answers) 0x10000 7 (replicate 10 " "%char)
    "An invalid name was supplied") as (b & s & Hb & _ & Hs & Hl & Hp).
  - cbn. lia.
  - cbn. lia.
  - reflexivity.
  - intros _. by eexists.
  - exists b, s. split; [exact Hb|]. split; [exact Hs|]. destruct (Hp eq_refl) as [rest ->].
    vm_compute in Hb. injection Hb as <-. vm_compute in Hs. injection Hs as <-. reflexivity.
Defined.


End CGss.

Module Native.
Import CGss.

Record GSSTokenProvider := mk_GSS { gss_spn : string }.

Definition NewGSSTokenProvider (proxyHost explicitSPN : string) : GSSTokenProvider :=
  mk_GSS (if String.eqb explicitSPN "" then "HTTP@" +:+ extractHost proxyHost
          else normalizeSPN explicitSPN "@" "/").





(** [Close] *)
Definition gss_Close (g : GSSTokenProvider) : option error := None.

(** The three builds. *)
Inductive platform := DarwinCgo | DarwinNoCgo | NotDarwin.

(** The probe of the Darwin build only logs. *)
Definition NewNativeTokenProvider_darwin (proxy spn : string) : error + GSSTokenProvider :=
  inr (NewGSSTokenProvider proxy spn).

Definition NewNativeTokenProvider_nocgo (proxy spn : string) : error + GSSTokenProvider :=
  inl (Err KOther "native GSS-API requires CGO; rebuild with CGO_ENABLED=1 on macOS, or use -user for password-based authentication" None).

Definition NewNativeTokenProvider_notdarwin (proxy spn : string) : error + GSSTokenProvider :=
  inl (Err KOther "native GSS-API is only available on macOS; use -user, -realm, -config, and -password-file for password-based authentication" None).

Definition NewNativeTokenProvider (p : platform) : string -> string -> error + GSSTokenProvider :=
  match p with
  | DarwinCgo => NewNativeTokenProvider_darwin
  | DarwinNoCgo => NewNativeTokenProvider_nocgo
  | NotDarwin => NewNativeTokenProvider_notdarwin
  end.



(** ** Witness *)


End Native.
