(* ===== verification/Flags.v ===== *)
(** * The command line: [parseFlags] of [cli.go]

    The configuration record, the table of flags with their defaults, and the
    parse of the arguments into a configuration, over the model of Go's [flag]
    package in [GoFlag]. *)

From S2P Require Import Prelude GoStrings GoFlag Breaker.

Module Flags.

(** Durations in nanoseconds. *)
Record cliConfig := mk_cliConfig {
  Addr : string;
  Proxy : string;
  SPN : string;
  Debug : bool;
  DialTimeout : Z;
  ReadTimeout : Z;
  DrainTimeout : Z;
  KeepAlive : Z;
  IdleTimeout : Z;
  MaxConns : Z;
  ConnectPorts : string;
  AllowedIPs : string;
  NoProxyFlag : string;
  CBThreshold : Z;
  CBTimeoutFlag : Z;
  Forwarded : bool;
  XForwardedFor : bool;
  UpstreamTLS : bool;
  UpstreamCA : string;
  UpstreamTLSInsecure : bool;
  CfgFile : string;
  User : string;
  Realm : string;
  PasswordFile : string;
  ShowVersion : bool
}.

Definition time_Second : Z := 1000000000.
Definition time_Minute : Z := 60 * time_Second.

(** The flags in the order of their definitions, with their defaults. *)
Definition formal : list (string * flag_value) :=
  [("addr", VString "127.0.0.1:8080");
   ("proxy", VString "");
   ("spn", VString "");
   ("debug", VBool false);
   ("dial-timeout", VDuration (30 * time_Second));
   ("read-timeout", VDuration (30 * time_Second));
   ("drain-timeout", VDuration (30 * time_Second));
   ("keepalive", VDuration (30 * time_Second));
   ("idle-timeout", VDuration (5 * time_Minute));
   ("max-conns", VInt 512);
   ("connect-ports", VString "443");
   ("allowed-ips", VString "");
   ("noproxy", VString "");
   ("cb-threshold", VInt CBConsecutiveFailures);
   ("cb-timeout", VDuration CBTimeout);
   ("forwarded", VBool false);
   ("x-forwarded-for", VBool false);
   ("upstream-tls", VBool false);
   ("upstream-ca", VString "");
   ("upstream-tls-insecure", VBool false);
   ("config", VString "");
   ("user", VString "");
   ("realm", VString "");
   ("password-file", VString "");
   ("version", VBool false)].

Definition defaults : store := list_to_map formal.

(** The variables behind the flags. *)
Definition string_var (st : store) (n : string) : string :=
  match st !! n with Some (VString s) => s | _ => "" end.
Definition bool_var (st : store) (n : string) : bool :=
  match st !! n with Some (VBool b) => b | _ => false end.
Definition int_var (st : store) (n : string) : Z :=
  match st !! n with Some (VInt z) => z | _ => 0 end.
Definition duration_var (st : store) (n : string) : Z :=
  match st !! n with Some (VDuration z) => z | _ => 0 end.

Definition read_config (st : store) : cliConfig :=
  mk_cliConfig (string_var st "addr") (string_var st "proxy") (string_var st "spn") (bool_var st "debug")
    (duration_var st "dial-timeout") (duration_var st "read-timeout") (duration_var st "drain-timeout")
    (duration_var st "keepalive") (duration_var st "idle-timeout") (int_var st "max-conns")
    (string_var st "connect-ports") (string_var st "allowed-ips") (string_var st "noproxy")
    (int_var st "cb-threshold") (duration_var st "cb-timeout")
    (bool_var st "forwarded") (bool_var st "x-forwarded-for")
    (bool_var st "upstream-tls") (string_var st "upstream-ca") (bool_var st "upstream-tls-insecure")
    (string_var st "config") (string_var st "user") (string_var st "realm") (string_var st "password-file")
    (bool_var st "version").

(** [flag.ErrHelp], another error of [fs.Parse], or the configuration. *)
Inductive parsed := PHelp | PError | PFlags (c : cliConfig).

(** The arguments that [fs.Parse] leaves over are not looked at. *)
Definition parseFlags (args : list string) : parsed :=
  match flag_parse defaults args with
  | ParseHelp => PHelp
  | ParseError => PError
  | ParseOK st _ => PFlags (read_config st)
  end.

(** ** Specification *)

(** The value of every flag in a configuration, in the order of the table. *)
Definition entries (c : cliConfig) : list (string * flag_value) :=
  [("addr", VString (Addr c)); ("proxy", VString (Proxy c)); ("spn", VString (SPN c));
   ("debug", VBool (Debug c)); ("dial-timeout", VDuration (DialTimeout c));
   ("read-timeout", VDuration (ReadTimeout c)); ("drain-timeout", VDuration (DrainTimeout c));
   ("keepalive", VDuration (KeepAlive c)); ("idle-timeout", VDuration (IdleTimeout c));
   ("max-conns", VInt (MaxConns c)); ("connect-ports", VString (ConnectPorts c));
   ("allowed-ips", VString (AllowedIPs c)); ("noproxy", VString (NoProxyFlag c));
   ("cb-threshold", VInt (CBThreshold c)); ("cb-timeout", VDuration (CBTimeoutFlag c));
   ("forwarded", VBool (Forwarded c)); ("x-forwarded-for", VBool (XForwardedFor c));
   ("upstream-tls", VBool (UpstreamTLS c)); ("upstream-ca", VString (UpstreamCA c));
   ("upstream-tls-insecure", VBool (UpstreamTLSInsecure c)); ("config", VString (CfgFile c));
   ("user", VString (User c)); ("realm", VString (Realm c)); ("password-file", VString (PasswordFile c));
   ("version", VBool (ShowVersion c))].

(** The integer fields hold int64 values. *)
Definition config_ok (c : cliConfig) : Prop := Forall (fun e => value_ok e.2) (entries c).

(** A command line that spells every flag out, each in its own way. *)
Definition render (how : string -> spelling) (c : cliConfig) : list string :=
  e ← entries c; spell (how e.1) e.1 (flag_show e.2).

(** A way of spelling that fits the flags' types. *)
Definition spelling_fits (how : string -> spelling) (c : cliConfig) : Prop :=
  Forall (fun e => spelling_ok (how e.1) e.2 (flag_show e.2) = true) (entries c).

(** ** Lemmas *)

Definition put (st : store) (e : string * flag_value) : store := <[e.1 := e.2]> st.

Lemma spelling_ok_type how u v s : same_type u v -> spelling_ok how u s = spelling_ok how v s.
Proof. by destruct how, u, v. Qed.

(** A list of settings is applied from left to right. *)
Lemma flag_parse_settings how l : forall st rest,
  Forall (fun e => flag_name_ok e.1 = true /\ value_ok e.2 /\ spelling_ok (how e.1) e.2 (flag_show e.2) = true /\
            exists old, st !! e.1 = Some old /\ same_type old e.2) l ->
  flag_parse st (mbind (fun e => spell (how e.1) e.1 (flag_show e.2)) l ++ rest) = flag_parse (foldl put st l) rest.
Proof.
  induction l as [|[n v] l IH]; intros st rest; [done|]. rewrite Forall_cons. cbn -[spell].
  intros [(Hn & Hv & Hk & old & Ho & Ht) Hl]. rewrite <- app_assoc.
  rewrite (flag_parse_spell _ _ _ old _ v); [|done..| |by apply flag_set_show];
    [|by rewrite (spelling_ok_type _ _ v)].
  apply IH. eapply Forall_impl; [exact Hl|]. intros [m w] (? & ? & ? & old' & Ho' & Ht'). split_and!; try done.
  unfold put. cbn in *. destruct (decide (m = n)) as [->|Hne]; [|rewrite lookup_insert_ne; eauto].
  rewrite lookup_insert_eq. exists v. split; [done|]. assert (old' = old) as -> by congruence. by destruct old, v, w.
Qed.

Lemma entries_flags c :
  Forall (fun e => flag_name_ok e.1 = true /\ exists old, defaults !! e.1 = Some old /\ same_type old e.2) (entries c).
Proof.
  unfold entries. repeat apply Forall_cons_2; [..|done];
    (split; [reflexivity|eexists; split; [vm_compute; reflexivity|done]]).
Qed.

Lemma read_entries c : read_config (foldl put defaults (entries c)) = c.
Proof. destruct c. vm_compute. reflexivity. Qed.

Lemma render_parses how c rest :
  config_ok c -> spelling_fits how c ->
  flag_parse defaults (render how c ++ rest) = flag_parse (foldl put defaults (entries c)) rest.
Proof.
  intros Hc Hs. apply flag_parse_settings. pose proof (entries_flags c) as He.
  unfold config_ok, spelling_fits in *. rewrite Forall_forall in *. intros e Hin.
  destruct (He e Hin). split_and!; eauto.
Qed.

(** ** Theorems *)

(** C36 (flags_roundtrip): printing a configuration as a command line and parsing it gives
    the configuration back.  Each flag may be spelled [-name=value],
    [--name=value], [-name value], [--name value] or, for a boolean that is
    true, [-name], in any mixture; durations are printed in nanoseconds, up to
    both ends of int64; and nothing that follows a [--] matters. *)
Theorem flags_roundtrip how c rest :
  config_ok c -> spelling_fits how c ->
  parseFlags (render how c) = PFlags c /\ parseFlags (render how c ++ "--" :: rest) = PFlags c.
Proof.
  intros Hc Hs. unfold parseFlags. rewrite <- (app_nil_r (render how c)) at 1.
  rewrite !render_parses by done. cbn [flag_parse]. change (classify "--") with ArgTerminator.
  split; f_equal; apply read_entries.
Qed.

(** The first positional argument stops the parse, whatever follows it. *)
Lemma positional_stops how c arg rest :
  config_ok c -> spelling_fits how c -> classify arg = ArgNonFlag ->
  parseFlags (render how c ++ arg :: rest) = PFlags c.
Proof.
  intros Hc Hs Ha. unfold parseFlags. rewrite render_parses by done. cbn [flag_parse]. rewrite Ha.
  by rewrite read_entries.
Qed.

Lemma parseFlags_nil : parseFlags [] = PFlags (read_config defaults).
Proof. done. Qed.

(** The defaults and the cases of [cli_test.go]. *)
Example parseFlags_defaults :
  parseFlags [] =
  PFlags (mk_cliConfig "127.0.0.1:8080" "" "" false 30000000000 30000000000 30000000000 30000000000 300000000000
            512 "443" "" "" 3 30000000000 false false false "" false "" "" "" "" false).
Proof. vm_compute. reflexivity. Qed.

Example parseFlags_errors :
  parseFlags ["-no-such-flag"] = PError /\ parseFlags ["-h"] = PHelp /\ parseFlags ["-max-conns=1e3"] = PError /\
  parseFlags ["-cb-timeout"] = PError /\ parseFlags ["-cb-timeout"; "2h45m"; "---debug"] = PError /\
  parseFlags ["-max-conns"; "9223372036854775808"] = PError /\ parseFlags ["-debug=maybe"] = PError.
Proof. vm_compute. auto 10. Qed.

(** a value after a boolean flag is a positional argument, at which
    the parse stops without an error: in
    [-upstream-tls true -allowed-ips 10.0.0.0/8] the allow-list is dropped and
    every client address is admitted. *)
Theorem switch_value_stops :
  exists c, parseFlags ["-proxy"; "p:3128"; "-upstream-tls"; "true"; "-allowed-ips"; "10.0.0.0/8"] = PFlags c /\
    UpstreamTLS c = true /\ Proxy c = "p:3128" /\ AllowedIPs c = "".
Proof. eexists. split; [vm_compute; reflexivity|done]. Qed.

(** ** Witness: the default configuration, spelled in three ways *)

Definition demo_spelling (n : string) : spelling :=
  if bool_decide (n ∈ ["addr"; "max-conns"; "cb-timeout"]) then Split
  else if bool_decide (n ∈ ["debug"]) then SwitchLong else JoinedLong.

Definition demo_config : cliConfig :=
  mk_cliConfig "127.0.0.1:8080" "proxy.corp:3128" "" true 30000000000 0 min_int64 max_int64 (-1)
    512 "443" "" "" 3 30000000000 false false false "" false "" "" "" "" false.

Lemma demo_config_ok : config_ok demo_config /\ spelling_fits demo_spelling demo_config.
Proof. split; repeat constructor; vm_compute; done. Qed.

Lemma flags_roundtrip_witness :
  parseFlags (render demo_spelling demo_config ++ ["--"; "x"]) = PFlags demo_config.
Proof. apply (flags_roundtrip demo_spelling demo_config ["x"]); apply demo_config_ok. Defined.

End Flags.
