(* ===== verification/Cli.v ===== *)
(** * Startup: [cli.go], [main.go] and [version.go]

    The validation of the parsed flags, the construction of the token provider
    and of the proxy configuration, and [main] as a function from what the
    process meets at startup to what it does. *)

From S2P Require Import Prelude GoStrings GoNet GoHttp Errors Config Hosts NoProxy Headers.
From S2P Require Import Validate Script Breaker Gokrb5 Gokrb5Thms Dial GoFlag Flags Gss.

(** ** Version *)

Definition versionString (version commit : string) : string :=
  if String.eqb version "" then "spnego-proxy version (devel)"
  else if String.eqb commit "" then "spnego-proxy version " +:+ version
  else
    let short := if (7 <? String.length commit)%nat then str_take 7 commit else commit in
    "spnego-proxy version " +:+ version +:+ " (commit " +:+ short +:+ ")".

(** ** Flags and wiring *)

Module Cli.
Import Native Flags.

Definition cbThresholdMax : Z := 2 ^ 32 - 1.

Definition validateFlags (c : cliConfig) : option error :=
  if (CBThreshold c <=? 0) || (cbThresholdMax <? CBThreshold c) then
    Some (Err KOther ("-cb-threshold must be between 1 and " +:+ itoa cbThresholdMax +:+ ", got " +:+
                      itoa (CBThreshold c)) None)
  else if CBTimeoutFlag c <=? 0 then
    Some (Err KOther ("-cb-timeout must be greater than 0, got " +:+ duration_string (CBTimeoutFlag c)) None)
  else None.

(** The conversion [uint32(x)]. *)
Definition uint32 (z : Z) : Z := z mod 2 ^ 32.

(** What the process meets: the environment, files, the terminal, entropy and
    the listening socket. *)
Record host (Pool : Type) := mk_host {
  h_platform : platform;
  h_version : string;
  h_commit : string;
  h_krb_config : option error;                  (* config.Load(-config) *)
  h_password : password_io;
  h_key : string;                               (* fingerprint key *)
  h_listen : option error;                      (* net.Listen *)
  h_pseudonym : string;                         (* the 4 random octets *)
  h_NO_PROXY : string;
  h_no_proxy : string;
  h_read_file : string -> error + string;
  h_append_pem : string -> option Pool
}.
Arguments h_platform {Pool} _.
Arguments h_version {Pool} _.
Arguments h_commit {Pool} _.
Arguments h_krb_config {Pool} _.
Arguments h_password {Pool} _.
Arguments h_key {Pool} _.
Arguments h_listen {Pool} _.
Arguments h_pseudonym {Pool} _.
Arguments h_NO_PROXY {Pool} _.
Arguments h_no_proxy {Pool} _.
Arguments h_read_file {Pool} _ _.
Arguments h_append_pem {Pool} _ _.

Section Startup.
Context {Pool C B : Type} `{Breaker B} `{UnicodeTables}.

Inductive provider := PGokrb5 (p : Gokrb5TokenProvider (C := C)) | PNative (g : GSSTokenProvider).

Definition buildProvider (h : host Pool) (c : cliConfig)
    : error + CircuitBreakerTokenProvider (I := provider) (B := B) :=
  let made := if negb (String.eqb (User c) "") then
                match NewGokrb5TokenProvider (Realm c) (CfgFile c) (PasswordFile c) (Proxy c) (SPN c)
                        (h_krb_config h) (h_password h) (h_key h) with
                | inl e => inl e
                | inr p => inr (PGokrb5 p)
                end
              else
                match NewNativeTokenProvider (h_platform h) (Proxy c) (SPN c) with
                | inl e => inl e
                | inr g => inr (PNative g)
                end in
  match made with
  | inl e => inl e
  | inr p => inr (NewCircuitBreakerTokenProvider p (uint32 (CBThreshold c)) (CBTimeoutFlag c))
  end.

(** [None] stands for [os.Exit(1)]. *)
Definition buildConfig (h : host Pool) (c : cliConfig) (pseudonym : string)
    : option (Config * UpstreamTLSConfig Pool) :=
  match ParseAllowList (AllowedIPs c) with
  | None => None
  | Some allowList =>
      let patterns := ResolveNoProxy (NoProxyFlag c) (h_NO_PROXY h) (h_no_proxy h) in
      let noProxy := if negb (String.eqb patterns "") then Some (NewNoProxyMatcher patterns) else None in
      let tls := mk_UpstreamTLSConfig (UpstreamTLS c) (UpstreamCA c) (UpstreamTLSInsecure c) None
                   (Some (mk_Dialer (DialTimeout c) None)) in
      match BuildTLSConfig (h_read_file h) (h_append_pem h) tls with
      | inl _ => None
      | inr tls =>
          Some (mk_Config (Proxy c) pseudonym (DialTimeout c) (ReadTimeout c) (KeepAlive c)
                  (IdleTimeout c) (SplitCSV (ConnectPorts c)) allowList noProxy
                  (mk_ForwardingConfig (Forwarded c) (XForwardedFor c)), tls)
      end
  end.

(** How [main] ends: an exit status, the version line, or [Serve] with its
    configuration, the provider closed after it, the connection limit and the
    drain timeout. *)
Inductive run_result :=
| Exit (status : Z) (usage : bool)
| PrintVersion (line : string)
| Serving (cfg : Config) (tls : UpstreamTLSConfig Pool)
    (p : CircuitBreakerTokenProvider (I := provider) (B := B)) (limit : option Z) (drain : Z).

Definition main (h : host Pool) (args : list string) : run_result :=
  match parseFlags args with
  | PHelp => Exit 0 false
  | PError => Exit 2 false
  | PFlags c =>
      if ShowVersion c then PrintVersion (versionString (h_version h) (h_commit h))
      else if String.eqb (Addr c) "" || String.eqb (Proxy c) "" then Exit 1 true
      else match validateFlags c with
      | Some _ => Exit 1 true
      | None =>
          match buildProvider h c with
          | inl _ => Exit 1 false
          | inr p =>
              match h_listen h with
              | Some _ => Exit 1 false
              | None =>
                  match buildConfig h c (GenerateViaPseudonym (h_pseudonym h)) with
                  | None => Exit 1 false
                  | Some (cfg, tls) =>
                      Serving cfg tls p (if 0 <? MaxConns c then Some (MaxConns c) else None) (DrainTimeout c)
                  end
              end
          end
      end
  end.

(** ** Lemmas *)

Lemma validateFlags_none c :
  validateFlags c = None <-> 1 <= CBThreshold c <= cbThresholdMax /\ 0 < CBTimeoutFlag c.
Proof.
  unfold validateFlags.
  destruct (Z.leb_spec (CBThreshold c) 0); [cbn; split; [done|lia]|].
  destruct (Z.ltb_spec cbThresholdMax (CBThreshold c)); [cbn; split; [done|lia]|]. cbn.
  destruct (Z.leb_spec (CBTimeoutFlag c) 0); [split; [done|lia]|]. split; [lia|done].
Qed.

Lemma uint32_id z : 0 <= z <= cbThresholdMax -> uint32 z = z.
Proof. unfold uint32, cbThresholdMax. intros. apply Z.mod_small. lia. Qed.

Lemma ParseAllowList_length s nets : ParseAllowList s = Some nets -> length nets = length (SplitCSV s).
Proof. unfold ParseAllowList. intros E%mapM_Some. symmetry. by eapply Forall2_length. Qed.

Lemma ParseAllowList_nil s nets : ParseAllowList s = Some nets -> (nets = [] <-> SplitCSV s = []).
Proof. intros E%ParseAllowList_length. by rewrite <- !length_zero_iff_nil, E. Qed.

Lemma buildConfig_none h c ps :
  buildConfig h c ps = None <->
  ParseAllowList (AllowedIPs c) = None \/
  exists e, load_roots (h_read_file h) (h_append_pem h) (UpstreamCA c) = inl e.
Proof.
  unfold buildConfig, BuildTLSConfig. cbn. destruct (ParseAllowList (AllowedIPs c)); [|naive_solver].
  destruct (load_roots _ _ _) as [e|]; naive_solver.
Qed.

Lemma buildProvider_inr h c p :
  buildProvider h c = inr p ->
  exists i, p = NewCircuitBreakerTokenProvider i (uint32 (CBThreshold c)) (CBTimeoutFlag c) /\
    match i with PGokrb5 _ => User c <> "" | PNative _ => User c = "" /\ h_platform h = DarwinCgo end.
Proof.
  unfold buildProvider. destruct (String.eqb_spec (User c) ""); cbn.
  - destruct (h_platform h); cbn; naive_solver.
  - destruct (NewGokrb5TokenProvider _ _ _ _ _ _ _ _); naive_solver.
Qed.

(** ** Theorems *)

(** The reasons for which startup fails after the flags have parsed. *)
Definition misconfigured (h : host Pool) (c : cliConfig) : Prop :=
  Addr c = "" \/ Proxy c = "" \/ ~ (1 <= CBThreshold c <= cbThresholdMax) \/ CBTimeoutFlag c <= 0 \/
  (exists e, buildProvider h c = inl e) \/ h_listen h <> None \/
  ParseAllowList (AllowedIPs c) = None \/
  (exists e, load_roots (h_read_file h) (h_append_pem h) (UpstreamCA c) = inl e).

Lemma main_flags h args c :
  parseFlags args = PFlags c -> ShowVersion c = false ->
  misconfigured h c /\ (exists u, main h args = Exit 1 u) \/
  ~ misconfigured h c /\ exists cfg tls p limit drain, main h args = Serving cfg tls p limit drain.
Proof.
  intros Ea Ev. unfold main. rewrite Ea, Ev. unfold misconfigured.
  destruct (String.eqb_spec (Addr c) ""); [cbn; left; eauto|].
  destruct (String.eqb_spec (Proxy c) ""); [cbn; left; eauto|]. cbn.
  destruct (validateFlags c) eqn:Ef.
  { left. split; [|eauto]. assert (Hv : validateFlags c <> None) by congruence.
    rewrite validateFlags_none in Hv. destruct (decide (1 <= CBThreshold c <= cbThresholdMax)); [|auto].
    destruct (Z.leb_spec (CBTimeoutFlag c) 0); [auto|tauto]. }
  apply validateFlags_none in Ef as [Ht Hto].
  destruct (buildProvider h c) eqn:Ep; [left; eauto 10|].
  destruct (h_listen h) eqn:El; [left; split; [do 5 right; by left|eauto]|].
  pose proof (buildConfig_none h c (GenerateViaPseudonym (h_pseudonym h))) as Hcfg.
  destruct (buildConfig h c _) as [[cfg tls]|].
  - right. split; [|eauto 10]. intros [|[|[|[|[[]|[|Hx]]]]]]; try done; try lia. by apply Hcfg in Hx.
  - left. split; [|eauto]. do 6 right. by apply Hcfg.
Qed.

(** The exit status.  The process exits 0 exactly on [-help] and 2 exactly on
    another parse error; it exits 1 exactly when the flags parsed, the version
    was not asked for and the configuration is wrong in one of eight ways; in
    every other case it prints the version or serves. *)
Theorem exit_status h args :
  ((exists u, main h args = Exit 0 u) <-> parseFlags args = PHelp) /\
  ((exists u, main h args = Exit 2 u) <-> parseFlags args = PError) /\
  ((exists u, main h args = Exit 1 u) <->
     exists c, parseFlags args = PFlags c /\ ShowVersion c = false /\ misconfigured h c).
Proof.
  pose proof (main_flags h args) as Hm. unfold main in *. destruct (parseFlags args) as [| |c] eqn:Ea;
    [by split_and!; naive_solver..|].
  assert (Hc : (exists c', PFlags c = PFlags c' /\ ShowVersion c' = false /\ misconfigured h c') <->
      ShowVersion c = false /\ misconfigured h c).
  { split; [|eauto]. by intros (c' & [= <-] & ?). }
  rewrite Hc. destruct (ShowVersion c) eqn:Ev.
  - split_and!; split; try done; [intros [? ?]; simplify_eq..|by intros []].
  - destruct (Hm c eq_refl Ev) as [[Hx [u Hu]]|[Hx (? & ? & ? & ? & ? & Hu)]]; rewrite Hu;
      split_and!; split; try done; try (intros [? ?]; simplify_eq); eauto; done.
Qed.

(** C35 (startup_guarantees): what a serving process is configured with.  When [main] reaches
    [Serve], the breaker's threshold and cool-down are the validated flag
    values (the uint32 conversion loses nothing), the upstream address and the
    Via pseudonym are not empty, the allow-list is empty only when the flag
    holds no entry, the upstream dial has the configured timeout and a prepared
    TLS configuration, and the native provider is used only without [-user] on
    a build that has one. *)
Theorem startup_guarantees h args cfg tls p limit drain :
  main h args = Serving cfg tls p limit drain ->
  exists c, parseFlags args = PFlags c /\ ShowVersion c = false /\
    1 <= threshold p <= cbThresholdMax /\ threshold p = CBThreshold c /\ 0 < CBTimeoutFlag c /\
    cb p = brk_new (mk_Settings "spnego-token" 1 (CBTimeoutFlag c) (fun failures => CBThreshold c <=? failures)) /\
    Upstream cfg = Proxy c /\ Proxy c <> "" /\ Pseudonym cfg <> "" /\
    (Validate.AllowedIPs cfg = [] <-> SplitCSV (AllowedIPs c) = []) /\
    (NoProxy cfg = None <-> NoProxyFlag c = "" /\ h_NO_PROXY h = "" /\ h_no_proxy h = "") /\
    dialer tls = Some (mk_Dialer (DialTimeout c) None) /\ TLSConfig tls <> None /\
    match inner p with PGokrb5 _ => User c <> "" | PNative _ => User c = "" /\ h_platform h = DarwinCgo end.
Proof.
  unfold main. destruct (parseFlags args) as [| |c]; [done..|]. destruct (ShowVersion c) eqn:Ev; [done|].
  destruct (String.eqb_spec (Addr c) ""); [done|]. destruct (String.eqb_spec (Proxy c) ""); [done|]. cbn.
  destruct (validateFlags c) eqn:Ef; [done|]. apply validateFlags_none in Ef as [Ht Hto].
  destruct (buildProvider h c) as [|q] eqn:Ep; [done|]. apply buildProvider_inr in Ep as (i & -> & Hi).
  destruct (h_listen h); [done|]. rewrite uint32_id in * by lia.
  unfold buildConfig. destruct (ParseAllowList (AllowedIPs c)) as [nets|] eqn:Ea; [|done].
  apply ParseAllowList_nil in Ea. unfold BuildTLSConfig. cbn.
  destruct (load_roots _ _ _); [done|]. intros [= <- <- <- <- <-]. exists c. cbn.
  split_and!; try done; try lia. unfold ResolveNoProxy.
  destruct (String.eqb_spec (NoProxyFlag c) ""), (String.eqb_spec (h_NO_PROXY h) ""),
    (String.eqb_spec (h_no_proxy h) ""); cbn in *;
    repeat match goal with |- context [String.eqb ?x ""] => destruct (String.eqb_spec x ""); try done end;
    (split; [done|by intros (? & ? & ?)]).
Qed.
End Startup.

(** ** Witness: a password-based setup with default limits *)

Definition demo_args : list string :=
  ["-proxy"; "proxy.corp:3128"; "--allowed-ips=10.0.0.0/8"; "-x-forwarded-for"; "-config=krb5.conf";
   "-user"; "alice"; "-realm"; "CORP"; "-password-file"; "pw"; "-cb-timeout=30s"].

Definition demo_host : host string :=
  mk_host string NotDarwin "1.0" "" None
    (mk_password_io false (inr "") None (inr 0x180) (inr "secret")) "key" None "0123" "" "internal" demo_read Some.

Definition demo_run : run_result (Pool := string) (C := nat) (B := brk_view) :=
  @main _ _ _ (plain_breaker 30 (fun failures => 3 <=? failures)) Script.ascii_tables demo_host demo_args.

Lemma startup_guarantees_witness :
  exists cfg tls p limit drain, demo_run = Serving cfg tls p limit drain /\ Pseudonym cfg <> "" /\
    Validate.AllowedIPs cfg <> [].
Proof.
  destruct demo_run as [| |cfg tls p limit drain] eqn:E; [vm_compute in E; discriminate E..|].
  exists cfg, tls, p, limit, drain. split; [reflexivity|].
  destruct (startup_guarantees _ _ _ _ _ _ _ E) as (c & Hc & G). vm_compute in Hc. injection Hc as <-.
  destruct G as (_ & _ & _ & _ & _ & _ & _ & G1 & [G2 _] & _). split; [exact G1|].
  intros H. specialize (G2 H). vm_compute in G2. discriminate G2.
Defined.

End Cli.
